(* ===== verification/_CoqProject ===== *)
-Q . S2P
Prelude.v
CppString.v
HttpSyntax.v
HttpUri.v
HttpParse.v
HttpEncode.v
Effects.v
HttpSocket.v
HttpRequest.v
HttpClient.v
Args.v
Sdp.v
V4L.v
CommonTypes.v
Whip.v
Jetson.v
Units.v
Buffer.v
ByteOrder.v
SwapQueue.v
MovingMax.v
SeqNum.v
ByteIO.v
SafeNum.v
Conversions.v
CheckedMath.v
CheckedNumeric.v
ClampedMath.v
PacketQueue.v
ArrayView.v
RefCount.v
CowBuffer.v
FixedPoint.v
IntrusiveHeap.v
Deque.v
FlatTree.v
LinkedList.v
Percentile.v
MruCache.v
RingBuffer.v
LazyDeque.v
IdMap.v
SmallMap.v
ObserverList.v
Tokenizer.v
