(* ===== verification/Prelude.v ===== *)
(** * wadi: a WHIP video publisher, verified

    wadi reads video from a Video4Linux device, offers it to a WebRTC peer and exchanges
    the session descriptions with a WHIP server over HTTP.  This library models the
    program's own code and the parts of the media library's headers that carry logic, and
    proves what makes them correct.

    ** The program and the files

    [main] parses the command line, makes a [WHIPSession], starts the capture of the
    device, adds the track and asks the WebRTC library for an offer.  The library calls
    back [OnSuccess] with the offer; the session filters its codecs, posts it to the
    endpoint with the HTTP client, and hands the answer to the library.  On a Jetson board
    the frames go through a hardware encoder.

    The program ([src/src], [src/include]):
    - Args: [main.cpp], [parse_args], [WadiConfig::FromArgs], the device number;
    - Sdp: [whip.cpp], [WHIPSession::SDPForceCodecs];
    - V4L: [v4l.cpp], [v4l.h], the device node, its capabilities and format;
    - Whip: [whip.cpp], [whip.h] and [main]: [CapturerTrackSource], [WHIPSession];
    - Jetson: [encoder/jetson_encoder.cpp], [encoder/video_encode.h];
    - HttpSyntax, HttpUri, HttpParse, HttpEncode: the data, parsers and encoder of
      [HTTPRequest/Request.hpp]; HttpSocket its [Socket]; HttpRequest the response
      machine of [Request::send]; HttpClient the whole call.

    The media library's headers ([src/include/webrtc]):
    - CommonTypes: [common_types.h], [video_capture_defines.h] and
      [module_common_types_public.h] (capture capabilities, RTP order and unwrapping);
    - Units: [unit_base.h] and [api/units];
    - Buffer: [buffer.h]; CowBuffer: [copy_on_write_buffer.h]; ArrayView: [array_view.h];
    - ByteOrder: [byte_order.h], [byte_buffer.h]; ByteIO: [byte_io.h];
    - SeqNum: [mod_ops.h], [sequence_number_util.h];
    - SafeNum: [safe_compare.h], [safe_conversions.h], [safe_minmax.h] of [rtc_base];
      Conversions: [safe_conversions.h] and [safe_conversions_impl.h] of [base/numerics];
      CheckedMath and CheckedNumeric: [checked_math_impl.h], [checked_math.h] and the
      built-ins of [safe_math_clang_gcc_impl.h]; ClampedMath: [clamped_math_impl.h],
      [clamped_math.h];
    - SwapQueue: [swap_queue.h]; PacketQueue: [packet_number_indexed_queue.h];
      IntrusiveHeap: [intrusive_heap.h]; MovingMax: [moving_max_counter.h];
      Percentile: [percentile_filter.h], [moving_median_filter.h]; LazyDeque:
      [lazily_deallocated_deque.h];
    - Deque: [vector_buffer.h], [circular_deque.h]; FlatTree: [flat_tree.h], [flat_map.h];
      LinkedList: [linked_list.h]; MruCache: [mru_cache.h]; RingBuffer: [ring_buffer.h];
      IdMap: [id_map.h]; SmallMap: [small_map.h]; ObserverList: [observer_list.h] and
      [observer_list_internal.h]; Tokenizer: [string_tokenizer.h];
    - RefCount: [scoped_refptr.h], [ref_counter.h], [ref_counted_object.h];
    - FixedPoint: [base/bits.h], [spl_inl.h].

    Prelude, CppString and Effects are shared: outcomes and machine integers, the C++
    string library, and calls into the outside world.

    ** How code is modelled

    A call returns, throws, fails an assertion or is undefined, the four outcomes of
    [res]; definitions are executable.  Integers are [Z], reduced where the code reduces
    them ([wrapU], [wrapS]), and signed overflow is undefined.  A record has the members of
    the class, a definition the steps of the function, in its order.  Where the code calls
    the kernel, the clock, the device or the WebRTC library, the definition runs against a
    script of answers and leaves a log of the calls (Effects), so a theorem for all scripts
    is a theorem for every behaviour of the outside.  Headers that are not in the
    repository (Video4Linux, NVIDIA) are type classes with instances for the witnesses.
    Media library code is taken as built with its checks on: a failed [RTC_DCHECK] aborts.

    ** What the theorems show

    - HTTP: [parse_print_uri], [parseStatusLine_exact], [encodeHtml_exact] and
      [base64_roundtrip] say what is parsed and written; [receive_chunked_response] and
      [receive_length_response] that a response is read however the network cuts its body,
      [receive_split_head] that a cut head is lost; [Request_send_exchange],
      [Request_send_completes] and [Request_send_releases] describe a whole call:
      the bytes sent and received, its termination, and the descriptors.
    - Session description: [SDPForceCodecs_offer] gives the filter's output,
      [SDPForceCodecs_safe] what never passes it, [SDPForceCodecs_fails] its failure and
      [SDPForceCodecs_no_ssrc] what it loses.
    - Command line: [parse_args_items] and [itemize_complete] describe the parser by a
      grammar, [FromArgs_items] and [device_index_number] the configuration.
    - Device, session and encoder: [V4LDevice_new_spec], [V4LDevice_new_leaks],
      [OnSuccess_posts], [CreateWithConfig_starts], [Create_never_succeeds],
      [publish_end_to_end], [InitEncode_ready], [encoder_in_step], [Encode_frame],
      [Encode_out_of_bounds].
    - Containers, as refinements of lists, queues and maps: [Buffer_refines],
      [Cow_isolated], [subview_window], [SwapQueue_fifo], [PacketQueue_refines],
      [IntrusiveHeap_queue], [deque_refines], [flat_tree_refines], [flat_map_laws],
      [linked_lists_refine], [MRUCache_refines], [RingBuffer_window], [LazyDeque_refines],
      [IDMap_refines], [small_map_refines]; iterators and searches: [deque_iterators],
      [reserve_keeps_stale], [searches_terminate], [flat_tree_equality]; changes during an
      iteration: [IDMap_loop_safe], and for the list of observers [notify_exact],
      [notify_existing_only] and [notify_all_diverges]; pointers: [refptr_safe].
    - Strings: [tokens_exact], the tokens of a string on both paths of the tokenizer,
      [tokens_roundtrip] and [Reset_skips].
    - Filters of samples: [MovingMax_exact], [PercentileFilter_exact],
      [MovingMedian_exact], each equal to the definition over the whole stream.
    - Numbers: [unwrap_all_recovers], [Unwrap_recovers], [AheadOf_orders],
      [ByteIO_roundtrip], [Writer_appends], [safe_conversions_exact], [SafeClamp_exact],
      [Timestamp_diff_plus], and the fixed-point lemmas of FixedPoint.  Checked and
      clamped arithmetic over every pair of integer types: [base_conversions_exact],
      [CheckMathOps_exact], [checked_toolchains_agree], [pointer_op_exact],
      [clamped_exact], and where they go wrong ([CheckMod_unguarded],
      [checked_toolchains_differ], [clamped_wrong_side]).

    ** Bounds and fuel

    Loops over data recurse on it; the loop over a chunked body recurses on the number of
    bytes left, by well-founded recursion.  The others take fuel: the heap's loops the
    index or the size (each turn moves a level), the variable-length integers ten turns
    (seven bits each), a binary search one turn per binary digit of the length
    ([searches_terminate]), the deque's loops one more than its capacity, the walks over a
    linked list, a chain of rings or a map of identifiers, the notification of existing
    observers ([notify_existing_only]) and the iterations over a ring
    buffer the number of elements, the destructor of a ring its capacity, the tokenizer's loops one more than the characters left
    and its clients' two turns per character, [send]'s
    loops one more than the answers left in the script, of which each turn takes one
    ([loop_fuel_enough]: more changes nothing).  The theorems are about the definitions
    with this fuel, and say that they return.  The filters' theorems are for at most [2^24]
    observations, beyond which the float the code computes the index with rounds the size
    ([target_index_overshoots]).

    ** Not modelled

    The rest of [include/webrtc] declares code of a prebuilt library, or is generated or
    third-party; calls into it appear in the log.  The Windows branches of [Request.hpp],
    floating-point instances of the units and of the safe, checked and clamped arithmetic,
    the ARM and MIPS assembly, [logging.h] (output only) and the encoder's members that report constants
    are left out. *)

From Stdlib Require Export ZArith Ascii String.
From stdpp Require Export base numbers list strings gmap option.

(** The development prints and parses machine numbers as [Z]. *)
Global Open Scope Z_scope.
Global Open Scope list_scope.

(** ** Bytes and strings

    A [char] or a [std::uint8_t] is an 8-bit [ascii]; a [std::string] or a
    [std::vector<std::uint8_t>] is a list of them.  Casting between the two
    keeps the bits, so it is the identity here. *)
Abbreviation str := (list ascii).

Definition lit (s : string) : str := String.list_ascii_of_string s.

(** The unsigned value of a byte, and the byte of a value modulo 256. *)
Definition code (c : ascii) : Z := Z.of_N (N_of_ascii c).
Definition chr (z : Z) : ascii := ascii_of_N (Z.to_N (z mod 256)).

Definition CR : ascii := "013"%char.
Definition LF : ascii := "010"%char.
Definition SP : ascii := " "%char.
Definition CRLF : str := [CR; LF].

(** ** Machine integers

    A w-bit integer is the [Z] it denotes; conversions reduce modulo [2^w] and,
    for the signed types, read the top bit as the sign. *)
Definition wrapU (w z : Z) : Z := z mod 2 ^ w.
Definition wrapS (w z : Z) : Z := (z + 2 ^ (w - 1)) mod 2 ^ w - 2 ^ (w - 1).

Abbreviation u8 := (wrapU 8).
Abbreviation u16 := (wrapU 16).
Abbreviation u32 := (wrapU 32).
Abbreviation u64 := (wrapU 64).
Abbreviation i8 := (wrapS 8).
Abbreviation i16 := (wrapS 16).
Abbreviation i32 := (wrapS 32).
Abbreviation i64 := (wrapS 64).

Definition in_u (w z : Z) : Prop := 0 <= z < 2 ^ w.
Definition in_s (w z : Z) : Prop := - 2 ^ (w - 1) <= z < 2 ^ (w - 1).

#[global] Instance in_u_dec w z : Decision (in_u w z).
Proof. unfold in_u. apply _. Defined.
#[global] Instance in_s_dec w z : Decision (in_s w z).
Proof. unfold in_s. apply _. Defined.

(** ** Outcomes

    A call returns, throws, fails an assertion (the process aborts) or is
    undefined behaviour (a null dereference, an access out of bounds). *)
Inductive exn :=
| RequestError (msg : str)
| ResponseError (msg : str)
| SystemError (err : Z) (msg : str)
| RuntimeError (msg : str)
| LengthError (msg : str)
| OutOfRange (msg : str).

Inductive res (A : Type) : Type :=
| Ok (a : A)
| Throw (e : exn)
| Crash
| Undef.
Arguments Ok {A} a.
Arguments Throw {A} e.
Arguments Crash {A}.
Arguments Undef {A}.

#[global] Instance exn_eq_dec : EqDecision exn.
Proof. solve_decision. Defined.
#[global] Instance res_eq_dec {A} `{EqDecision A} : EqDecision (res A).
Proof. solve_decision. Defined.

#[global] Instance res_ret : MRet res := fun A a => Ok a.
#[global] Instance res_bind : MBind res := fun A B f x =>
  match x with
  | Ok a => f a
  | Throw e => Throw e
  | Crash => Crash
  | Undef => Undef
  end.

(** [assert(b)] of the C++ sources. *)
Definition assert_ (b : bool) : res unit := if b then Ok tt else Crash.
(** A condition whose violation is undefined behaviour. *)
Definition defined (b : bool) : res unit := if b then Ok tt else Undef.
Definition throw_if (b : bool) (e : exn) : res unit := if b then Throw e else Ok tt.

(** Signed [w]-bit arithmetic: a result out of range is undefined behaviour. *)
Definition arith (w z : Z) : res Z := if bool_decide (in_s w z) then Ok z else Undef.

(** ** Scanning loops

    [span P l] is the state of [for (; i != end && P( *i); ++i) r.push_back( *i)]
    when it stops: what was pushed, and the range that is left. *)
Fixpoint span {A} (P : A -> bool) (l : list A) : list A * list A :=
  match l with
  | [] => ([], [])
  | x :: l' => if P x then let '(a, b) := span P l' in (x :: a, b) else ([], l)
  end.

(** [starts_with p s]: the bytes of [p] are the first bytes of [s]. *)
Fixpoint starts_with (p s : str) : bool :=
  match p, s with
  | [], _ => true
  | _ :: _, [] => false
  | a :: p', b :: s' => bool_decide (a = b) && starts_with p' s'
  end.

(** Offset of the first occurrence of [p] in [s]: [std::search], and
    [std::string::find] from position 0. *)
Fixpoint search (p s : str) : option nat :=
  if starts_with p s then Some 0%nat
  else match s with
       | [] => None
       | _ :: s' => S <$> search p s'
       end.

(** [std::find] over a container: is [x] among the elements? *)
Definition mem {A} `{EqDecision A} (x : A) (l : list A) : bool := bool_decide (x ∈ l).

(** ** Automation *)
Create HintDb wadi.

(** Turns boolean tests in hypotheses and goal into propositions. *)
Ltac bool_prop :=
  repeat match goal with
  | H : _ && _ = true |- _ => apply andb_prop in H as [? ?]
  | H : _ || _ = false |- _ => apply orb_false_elim in H as [? ?]
  | H : negb _ = true |- _ => apply negb_true_iff in H
  | H : negb _ = false |- _ => apply negb_false_iff in H
  | H : bool_decide _ = true |- _ => apply bool_decide_eq_true in H
  | H : bool_decide _ = false |- _ => apply bool_decide_eq_false in H
  | H : (_ <=? _) = true |- _ => apply Z.leb_le in H
  | H : (_ <=? _) = false |- _ => apply Z.leb_gt in H
  | H : (_ <? _) = true |- _ => apply Z.ltb_lt in H
  | H : (_ <? _) = false |- _ => apply Z.ltb_ge in H
  | H : (_ =? _) = true |- _ => apply Z.eqb_eq in H
  | H : (_ =? _) = false |- _ => apply Z.eqb_neq in H
  end.

(** ** Lemmas on outcomes *)
Lemma bind_Ok {A B} (x : res A) (f : A -> res B) b :
  x ≫= f = Ok b <-> exists a, x = Ok a /\ f a = Ok b.
Proof. destruct x; cbn; naive_solver. Qed.

Lemma assert_Ok b u : assert_ b = Ok u <-> b = true.
Proof. destruct b, u; cbn; naive_solver. Qed.

Lemma defined_Ok b u : defined b = Ok u <-> b = true.
Proof. destruct b, u; cbn; naive_solver. Qed.

Lemma throw_if_Ok b e u : throw_if b e = Ok u <-> b = false.
Proof. destruct b, u; cbn; naive_solver. Qed.

Lemma arith_Ok w z r : arith w z = Ok r <-> r = z /\ in_s w z.
Proof. unfold arith. case_bool_decide; naive_solver. Qed.

(** Splits a successful sequence of calls into its successful steps. *)
Ltac inv_res :=
  repeat match goal with
  | H : _ ≫= _ = Ok _ |- _ => apply bind_Ok in H as (? & ? & H)
  | H : mret _ = Ok _ |- _ => injection H as H
  | H : Ok _ = Ok _ |- _ => injection H as H
  | H : Throw _ = Ok _ |- _ => discriminate H
  | H : Crash = Ok _ |- _ => discriminate H
  | H : Undef = Ok _ |- _ => discriminate H
  | H : assert_ _ = Ok _ |- _ => apply assert_Ok in H
  | H : defined _ = Ok _ |- _ => apply defined_Ok in H
  | H : throw_if _ _ = Ok _ |- _ => apply throw_if_Ok in H
  | H : arith _ _ = Ok _ |- _ => apply arith_Ok in H as [? ?]
  end; simplify_eq.

(** ** Lemmas on bytes *)
Lemma code_range c : 0 <= code c < 256.
Proof. unfold code. pose proof (N_ascii_bounded c). lia. Qed.

Lemma chr_code c : chr (code c) = c.
Proof. destruct c as [[] [] [] [] [] [] [] []]; reflexivity. Qed.

Lemma code_chr z : 0 <= z < 256 -> code (chr z) = z.
Proof.
  intros Hz. unfold code, chr. rewrite Z.mod_small by lia.
  rewrite N_ascii_embedding; [lia|]. change 256%N with (Z.to_N 256). lia.
Qed.

Lemma code_inj c d : code c = code d -> c = d.
Proof. intros H. rewrite <- (chr_code c), <- (chr_code d). by rewrite H. Qed.

(** Case analysis over the 256 bytes, closing the cases by computation. *)
Ltac every_byte c := destruct c as [[] [] [] [] [] [] [] []]; vm_compute; try done.

#[export] Hint Resolve code_range : wadi.

(** ** Lemmas on machine integers *)
Lemma wrapU_range w z : 0 <= w -> in_u w (wrapU w z).
Proof. intros. unfold in_u, wrapU. apply Z.mod_pos_bound, Z.pow_pos_nonneg; lia. Qed.

Lemma wrapU_id w z : in_u w z -> wrapU w z = z.
Proof. apply Z.mod_small. Qed.

Lemma wrapS_range w z : 0 < w -> in_s w (wrapS w z).
Proof.
  intros Hw. unfold in_s, wrapS.
  pose proof (Z.mod_pos_bound (z + 2 ^ (w - 1)) (2 ^ w) (Z.pow_pos_nonneg 2 w eq_refl ltac:(lia))).
  replace (2 ^ w) with (2 * 2 ^ (w - 1)) in * |- *
    by (rewrite <- Z.pow_succ_r by lia; f_equal; lia).
  lia.
Qed.

Lemma wrapS_id w z : 0 < w -> in_s w z -> wrapS w z = z.
Proof.
  intros Hw Hz. unfold in_s, wrapS in *.
  replace (2 ^ w) with (2 * 2 ^ (w - 1)) in *
    by (rewrite <- Z.pow_succ_r by lia; f_equal; lia).
  rewrite Z.mod_small; lia.
Qed.

(** Setting the bits above a [k]-bit number is adding them. *)
Lemma testbit_top x k : 0 <= k -> 0 <= x < 2 ^ (k + 1) -> Z.testbit x k = (2 ^ k <=? x).
Proof.
  intros Hk Hx. assert (0 < 2 ^ k) as Hp by (apply Z.pow_pos_nonneg; lia).
  rewrite Z.pow_add_r in Hx by lia. pose proof (Z.testbit_spec' x k Hk) as H.
  destruct (Z.leb_spec (2 ^ k) x).
  - rewrite <- (Z.div_unique x (2 ^ k) 1 (x - 2 ^ k)) in H by lia. by destruct (Z.testbit x k).
  - rewrite Z.div_small in H by lia. by destruct (Z.testbit x k).
Qed.

Lemma wrapS_wrapU k z : 0 < k -> wrapS k (wrapU k z) = wrapS k z.
Proof. intros Hk. unfold wrapS, wrapU. by rewrite Zplus_mod_idemp_l. Qed.

Lemma lor_shiftl a b k : 0 <= k -> 0 <= a < 2 ^ k -> Z.lor a (Z.shiftl b k) = a + b * 2 ^ k.
Proof.
  intros Hk Ha. rewrite <- Z.shiftl_mul_pow2 by done.
  assert (Z.land a (Z.shiftl b k) = 0) as H.
  { apply Z.bits_inj'. intros n Hn. rewrite Z.land_spec, Z.bits_0.
    destruct (decide (n < k)); [by rewrite Z.shiftl_spec_low, andb_false_r|].
    rewrite <- (Z.mod_small a (2 ^ k)) by done. by rewrite Z.mod_pow2_bits_high by lia. }
  by rewrite <- Z.lxor_lor, <- Z.add_nocarry_lxor.
Qed.

#[export] Hint Resolve wrapU_range wrapS_range : wadi.

(** ** Lemmas on scanning *)
Lemma span_eq {A} (P : A -> bool) l a b : span P l = (a, b) -> l = a ++ b.
Proof.
  revert a b; induction l as [|x l IH]; intros a b; cbn; [naive_solver|].
  destruct (P x); [|naive_solver].
  destruct (span P l) as [a' b'] eqn:E; intros [= <- <-]. cbn. f_equal. eauto.
Qed.

Lemma span_Forall {A} (P : A -> bool) l a b : span P l = (a, b) -> Forall (fun x => P x = true) a.
Proof.
  revert a b; induction l as [|x l IH]; intros a b; cbn; [naive_solver|].
  destruct (P x) eqn:Px; [|naive_solver].
  destruct (span P l) as [a' b'] eqn:E; intros [= <- <-]. constructor; eauto.
Qed.

(** The loop stops at the first byte that fails the test. *)
Definition stops {A} (P : A -> bool) (l : list A) : Prop :=
  match l with [] => True | x :: _ => P x = false end.

Lemma span_stops {A} (P : A -> bool) l a b : span P l = (a, b) -> stops P b.
Proof.
  revert a b; induction l as [|x l IH]; intros a b; cbn; [naive_solver|].
  destruct (P x) eqn:Px; [|naive_solver].
  destruct (span P l) as [a' b'] eqn:E; intros [= <- <-]. eauto.
Qed.

Lemma span_app {A} (P : A -> bool) a b :
  Forall (fun x => P x = true) a -> stops P b -> span P (a ++ b) = (a, b).
Proof.
  intros Ha Hb. induction Ha as [|x a Hx Ha IH]; cbn.
  - destruct b as [|y b]; cbn in *; [done|]. by rewrite Hb.
  - by rewrite Hx, IH.
Qed.

Lemma starts_with_spec p s : starts_with p s = true <-> exists r, s = p ++ r.
Proof.
  revert s; induction p as [|a p IH]; intros s; cbn; [naive_solver|].
  destruct s as [|b s]; cbn; [naive_solver|].
  rewrite andb_true_iff, bool_decide_eq_true, IH. naive_solver.
Qed.

Lemma starts_with_app p r : starts_with p (p ++ r) = true.
Proof. apply starts_with_spec; eauto. Qed.

Lemma search_Some p s i :
  search p s = Some i ->
  exists u v, s = u ++ p ++ v /\ length u = i.
Proof.
  revert i; induction s as [|c s IH]; intros i; cbn [search];
    destruct (starts_with p _) eqn:E.
  1, 3: intros [= <-]; apply starts_with_spec in E as [r ->]; by exists [], r.
  - done.
  - destruct (search p s) as [j|] eqn:Ej; intros [= <-].
    destruct (IH j eq_refl) as (u & v & -> & <-). by exists (c :: u), v.
Qed.

Lemma search_None p s : search p s = None -> forall u v, s <> u ++ p ++ v.
Proof.
  induction s as [|c s IH]; cbn [search]; destruct (starts_with p _) eqn:E; try done.
  - intros _ [|] v Hs; cbn in Hs; [|done].
    rewrite Hs, starts_with_app in E. done.
  - destruct (search p s) eqn:Es; [done|]. intros _ [|d u] v Hs; cbn in Hs.
    + by rewrite Hs, starts_with_app in E.
    + injection Hs as -> ->. by eapply IH.
Qed.

Lemma search_is_Some p s u v : s = u ++ p ++ v -> exists i, search p s = Some i /\ (i <= length u)%nat.
Proof.
  intros ->. induction u as [|c u IH]; cbn [app search].
  - exists 0%nat. destruct (p ++ v) eqn:E.
    + by destruct p.
    + rewrite <- E. cbn [search]. destruct (p ++ v) eqn:E'; [done|].
      cbn [search]. rewrite <- E', starts_with_app. auto.
  - destruct (starts_with _ _); [exists 0%nat; split; [done|lia]|].
    destruct IH as (i & -> & ?). exists (S i); split; [done|]. cbn. lia.
Qed.

Lemma mem_true {A} `{EqDecision A} (x : A) l : mem x l = true <-> x ∈ l.
Proof. apply bool_decide_eq_true. Qed.
