(* ===== verification/CppString.v ===== *)
(** * The parts of the C++ string library the sources use

    [std::string::find], [find_first_of] and [substr] with their [size_t]
    positions and [npos], [std::getline] on a string stream, [atoi] and
    [std::toupper] of glibc, and [std::to_string] on unsigned numbers. *)

From S2P Require Import Prelude.

(** ** Positions *)

(** [std::string::npos], the largest [size_t]. *)
Definition npos : Z := 2 ^ 64 - 1.
Definition size (s : str) : Z := Z.of_nat (length s).

Definition of_pos (o : option nat) : Z :=
  match o with Some i => Z.of_nat i | None => npos end.

(** [s.find(p)]. *)
Definition find (s p : str) : Z := of_pos (search p s).

(** [s.find(p, pos)]. *)
Definition find_from (s p : str) (pos : Z) : Z :=
  if size s <? pos then npos
  else match search p (drop (Z.to_nat pos) s) with
       | Some i => pos + Z.of_nat i
       | None => npos
       end.

(** [s.find_first_of(c)] and [s.find(c)] for one character. *)
Definition find_char (s : str) (c : ascii) : Z := find s [c].

(** [s.substr(pos, n)]: throws when [pos] is past the end, and takes the rest of
    the string when fewer than [n] characters are left. *)
Definition substr (s : str) (pos n : Z) : res str :=
  if size s <? pos then Throw (OutOfRange (lit "basic_string::substr"))
  else Ok (take (Z.to_nat (Z.min n (size s - pos))) (drop (Z.to_nat pos) s)).

(** ** [while (getline(stream, line))]

    Lines end at ['\n'], which is dropped; a last line without it is delivered
    when it is not empty. *)
Fixpoint getlines_from (cur s : str) : list str :=
  match s with
  | [] => match cur with [] => [] | _ => [cur] end
  | c :: s' => if bool_decide (c = LF) then cur :: getlines_from [] s'
               else getlines_from (cur ++ [c]) s'
  end.
Definition getlines (s : str) : list str := getlines_from [] s.

(** ** [atoi] *)

(** [isspace] in the C locale. *)
Definition isspace (c : ascii) : bool := (code c =? 32) || ((9 <=? code c) && (code c <=? 13)).
Definition isdigit (c : ascii) : bool := (48 <=? code c) && (code c <=? 57).

Definition dec_step (acc : Z) (c : ascii) : Z := 10 * acc + (code c - 48).
Definition dec_value (ds : str) : Z := fold_left dec_step ds 0.

Definition LONG_MAX : Z := 2 ^ 63 - 1.
Definition LONG_MIN : Z := - 2 ^ 63.

(** [strtol(s, NULL, 10)]: white space, a sign, digits; saturates. *)
Definition strtol (s : str) : Z :=
  let s := snd (span isspace s) in
  let '(neg, s) :=
    match s with
    | c :: s' => if bool_decide (c = "-"%char) then (true, s')
                 else if bool_decide (c = "+"%char) then (false, s') else (false, s)
    | [] => (false, s)
    end in
  let v := dec_value (fst (span isdigit s)) in
  Z.max LONG_MIN (Z.min LONG_MAX (if neg then - v else v)).

(** glibc's [atoi] is [(int) strtol(s, NULL, 10)]. *)
Definition atoi (s : str) : Z := i32 (strtol s).

(** [std::toupper] in the C locale. *)
Definition toupper (c : ascii) : ascii :=
  if (97 <=? code c) && (code c <=? 122) then chr (code c - 32) else c.

(** ** [std::to_string] of an unsigned number *)
Definition digit (d : Z) : ascii := chr (48 + d).

Fixpoint to_dec_fuel (fuel : nat) (n : Z) (acc : str) : str :=
  match fuel with
  | O => acc
  | S f => let acc' := digit (n mod 10) :: acc in
           if n <? 10 then acc' else to_dec_fuel f (n / 10) acc'
  end.

(** A number below [2^k] has at most [k + 1] decimal digits. *)
Definition to_string (n : Z) : str := to_dec_fuel (S (Z.to_nat (Z.log2 n))) n [].

(** ** Lemmas *)

(** Finding one character splits the string at its first occurrence. *)
Lemma search_char_Some c s i :
  search [c] s = Some i <-> exists u v, s = u ++ (c :: v) /\ (c ∉ u) /\ length u = i.
Proof.
  revert i; induction s as [|d s IH]; intros i; cbn.
  - split; [done|]. intros ([|? ?] & v & ? & ?); discriminate.
  - case_bool_decide as Hc; cbn.
    + subst d. split.
      * intros [= <-]. exists [], s. split; [done|]. split; [apply not_elem_of_nil|done].
      * intros (u & v & Hs & Hn & <-). destruct u as [|x u]; [done|].
        injection Hs as <- _. exfalso. apply Hn. left.
    + split.
      * intros H. apply fmap_Some in H as (j & Hj & ->).
        apply IH in Hj as (u & v & -> & Hn & <-).
        exists (d :: u), v. split_and!; [done|by apply not_elem_of_cons|done].
      * intros (u & v & Hs & Hn & <-). destruct u as [|x u]; cbn in Hs.
        { injection Hs as -> ->. done. }
        injection Hs as -> ->. apply not_elem_of_cons in Hn as [_ Hn]. cbn.
        apply fmap_Some. exists (length u). split; [|done]. apply IH. eauto.
Qed.

Lemma search_char_None c s : search [c] s = None <-> c ∉ s.
Proof.
  split.
  - intros H Hin. apply list_elem_of_split in Hin as (u & v & ->).
    by eapply (search_None _ _ H u v).
  - intros H. destruct (search [c] s) as [i|] eqn:E; [|done].
    apply search_char_Some in E as (u & v & -> & _). exfalso. apply H. set_solver.
Qed.

Lemma search_char_app c u v : c ∉ u -> search [c] (u ++ (c :: v)) = Some (length u).
Proof. intros. apply search_char_Some. eauto. Qed.

Lemma substr_prefix s n : 0 <= n -> substr s 0 n = Ok (take (Z.to_nat n) s).
Proof.
  intros Hn. unfold substr, size. rewrite (proj2 (Z.ltb_ge _ 0)) by lia.
  cbn. rewrite Z.sub_0_r, drop_0. f_equal.
  destruct (decide (n <= Z.of_nat (length s))).
  - by rewrite Z.min_l by lia.
  - rewrite Z.min_r, Nat2Z.id by lia. rewrite firstn_all. symmetry. apply take_ge. lia.
Qed.

Lemma getlines_from_app cur l s :
  LF ∉ l -> getlines_from cur (l ++ (LF :: s)) = (cur ++ l) :: getlines s.
Proof.
  revert cur; induction l as [|c l IH]; intros cur H; cbn.
  - by rewrite app_nil_r.
  - apply not_elem_of_cons in H as [Hc Hl]. rewrite bool_decide_eq_false_2 by done.
    rewrite IH by done. by rewrite <- app_assoc.
Qed.

(** Lines that hold no line feed come back from their concatenation. *)
Lemma getlines_concat ls :
  Forall (fun l => LF ∉ l) ls -> getlines (concat (map (fun l => l ++ [LF]) ls)) = ls.
Proof.
  induction 1 as [|l ls Hl Hls IH]; cbn; [done|].
  rewrite <- app_assoc. unfold getlines in *. cbn [app].
  rewrite getlines_from_app by done. f_equal. exact IH.
Qed.

Lemma getlines_from_no_LF cur s :
  LF ∉ cur -> Forall (fun l => LF ∉ l) (getlines_from cur s).
Proof.
  revert cur; induction s as [|c s IH]; intros cur H; cbn.
  - destruct cur; repeat constructor; done.
  - case_bool_decide.
    + constructor; [done|]. apply IH. apply not_elem_of_nil.
    + apply IH. rewrite elem_of_app, list_elem_of_singleton. naive_solver.
Qed.

(** ** Decimal numbers *)
Lemma dec_value_app a b : dec_value (a ++ b) = fold_left dec_step b (dec_value a).
Proof. apply fold_left_app. Qed.

Lemma fold_dec_shift acc ds :
  fold_left dec_step ds acc = acc * 10 ^ size ds + dec_value ds.
Proof.
  revert acc; induction ds as [|c ds IH]; intros acc;
    unfold dec_value, size in *; cbn [fold_left length].
  - lia.
  - rewrite IH, (IH (dec_step 0 c)). unfold dec_step.
    rewrite Nat2Z.inj_succ, Z.pow_succ_r by lia. lia.
Qed.

Lemma code_digit d : 0 <= d < 10 -> code (digit d) = 48 + d.
Proof. intros. apply code_chr. lia. Qed.

Lemma to_dec_fuel_value fuel n acc :
  0 <= n < 10 ^ Z.of_nat fuel ->
  dec_value (to_dec_fuel fuel n acc) = n * 10 ^ size acc + dec_value acc.
Proof.
  revert n acc; induction fuel as [|f IH]; intros n acc Hn; cbn [to_dec_fuel].
  - replace n with 0 by (cbn in Hn; lia). lia.
  - pose proof (Z.mod_pos_bound n 10 ltac:(lia)).
    pose proof (Z.div_mod n 10 ltac:(lia)).
    assert (Hcons : forall m, dec_value (digit (n mod 10) :: acc) + m * 10 ^ size (digit (n mod 10) :: acc)
      = (10 * m + n mod 10) * 10 ^ size acc + dec_value acc).
    { intros m. unfold dec_value at 1; cbn [fold_left].
      rewrite fold_dec_shift. unfold dec_step at 1. rewrite code_digit by lia.
      unfold size; cbn [length]. rewrite Nat2Z.inj_succ, Z.pow_succ_r by lia. lia. }
    destruct (n <? 10) eqn:E; bool_prop.
    + specialize (Hcons 0). rewrite Z.mod_small in * by lia. lia.
    + rewrite IH.
      * rewrite Z.add_comm, Hcons. do 2 f_equal. lia.
      * rewrite Nat2Z.inj_succ, Z.pow_succ_r in Hn by lia.
        split; [apply Z.div_pos; lia|apply Z.div_lt_upper_bound; lia].
Qed.

Lemma to_string_value n : 0 <= n -> dec_value (to_string n) = n.
Proof.
  intros Hn. unfold to_string. rewrite to_dec_fuel_value.
  { change (size []) with 0. change (dec_value []) with 0. lia. }
  split; [done|]. destruct (decide (n = 0)) as [->|]; [done|].
  pose proof (Z.log2_spec n ltac:(lia)) as [_ Hlt]. pose proof (Z.log2_nonneg n).
  rewrite Nat2Z.inj_succ, Z2Nat.id by done. eapply Z.lt_le_trans; [exact Hlt|].
  apply Z.pow_le_mono_l. lia.
Qed.

Lemma isdigit_digit d : 0 <= d < 10 -> isdigit (digit d) = true.
Proof. intros. unfold isdigit. rewrite code_digit by done. lia. Qed.

Lemma to_dec_fuel_digits fuel n acc :
  0 <= n -> Forall (fun c => isdigit c = true) acc ->
  Forall (fun c => isdigit c = true) (to_dec_fuel fuel n acc).
Proof.
  revert n acc; induction fuel as [|f IH]; intros n acc Hn Hacc; cbn; [done|].
  assert (isdigit (digit (n mod 10)) = true)
    by (apply isdigit_digit, Z.mod_pos_bound; lia).
  destruct (n <? 10); [by constructor|].
  apply IH; [apply Z.div_pos; lia|by constructor].
Qed.

Lemma to_string_digits n : 0 <= n -> Forall (fun c => isdigit c = true) (to_string n).
Proof. intros. apply to_dec_fuel_digits; [done|constructor]. Qed.

Lemma to_dec_fuel_nonempty fuel n acc : acc <> [] -> to_dec_fuel fuel n acc <> [].
Proof.
  revert n acc; induction fuel as [|f IH]; intros n acc H; cbn; [done|].
  destruct (n <? 10); [done|]. by apply IH.
Qed.

Lemma to_string_nonempty n : to_string n <> [].
Proof.
  unfold to_string. cbn. destruct (n <? 10); [done|]. by apply to_dec_fuel_nonempty.
Qed.

Lemma to_dec_fuel_length fuel n acc : (length (to_dec_fuel fuel n acc) <= fuel + length acc)%nat.
Proof.
  revert n acc; induction fuel as [|f IH]; intros n acc; cbn [to_dec_fuel]; [lia|].
  destruct (n <? 10); [cbn; lia|]. specialize (IH (n / 10) (digit (n mod 10) :: acc)). cbn in *. lia.
Qed.

Lemma to_string_length n : size (to_string n) <= Z.log2 n + 1.
Proof.
  unfold to_string, size. pose proof (to_dec_fuel_length (S (Z.to_nat (Z.log2 n))) n []).
  pose proof (Z.log2_nonneg n). cbn [length] in *. lia.
Qed.

(** [s.substr(n)] after a prefix of [n] characters. *)
Lemma substr_suffix p s : size s <= npos -> substr (p ++ s) (size p) npos = Ok s.
Proof.
  intros Hs. unfold substr, size in *. rewrite length_app, Nat2Z.inj_add.
  rewrite (proj2 (Z.ltb_ge _ _)) by lia.
  rewrite Nat2Z.id, drop_app_length, take_ge; [done|]. lia.
Qed.

#[export] Hint Resolve to_string_digits to_string_nonempty : wadi.

(** [atoi] reads back what [to_string] prints, for every [int]. *)
Lemma atoi_to_string n : 0 <= n < 2 ^ 31 -> atoi (to_string n) = n.
Proof.
  intros Hn. pose proof (to_string_digits n ltac:(lia)) as Hd.
  pose proof (to_string_value n ltac:(lia)) as Hv.
  destruct (to_string n) as [|c s] eqn:E; [by apply to_string_nonempty in E|].
  assert (Hc : isdigit c = true) by (by inversion Hd).
  assert (Hsp : span isspace (c :: s) = ([], c :: s)).
  { cbn. unfold isdigit, isspace in *. destruct (_ || _) eqn:E'; [|done].
    bool_prop. apply orb_true_iff in E' as [?|?]; bool_prop; lia. }
  unfold atoi, strtol. rewrite Hsp. cbn [snd].
  rewrite bool_decide_eq_false_2, bool_decide_eq_false_2.
  - rewrite <- (app_nil_r (c :: s)), span_app by (done || by rewrite ?app_nil_r).
    cbn [fst]. rewrite Hv. rewrite Z.min_r, Z.max_r by (unfold LONG_MAX, LONG_MIN; lia).
    apply wrapS_id; [lia|]. unfold in_s. lia.
  - intros ->; done.
  - intros ->; done.
Qed.
