(* ===== verification/HttpSyntax.v ===== *)
(** * The data and the character classes of the HTTP client

    [Request.hpp]: the records [Uri], [Version], [Status], [Response], the
    character predicates of RFC 5234 and RFC 7230, and the digit and number
    readers.  [char] and [uint8_t] are both [ascii]; the comparisons of the
    source are against constants below [0x80], where the signed and the unsigned
    reading of a byte agree, and [isObsoleteTextChar] casts to unsigned. *)

From S2P Require Import Prelude.
From S2P Require Import CppString.

(** ** Data *)
Inductive InternetProtocol := v4 | v6.

Record Uri := mkUri {
  scheme : str;
  user : str;
  password : str;
  host : str;
  port : str;
  path : str;
  query : str;
  fragment : str
}.

Record Version := mkVersion { major : Z; minor : Z }.

Module StatusCode.
Inductive Code :=
| Continue | SwitchingProtocol | Processing | EarlyHints
| Ok | Created | Accepted | NonAuthoritativeInformation | NoContent | ResetContent
| PartialContent | MultiStatus | AlreadyReported | ImUsed
| MultipleChoice | MovedPermanently | Found | SeeOther | NotModified | UseProxy
| TemporaryRedirect | PermanentRedirect
| BadRequest | Unauthorized | PaymentRequired | Forbidden | NotFound | MethodNotAllowed
| NotAcceptable | ProxyAuthenticationRequired | RequestTimeout | Conflict | Gone
| LengthRequired | PreconditionFailed | PayloadTooLarge | UriTooLong | UnsupportedMediaType
| RangeNotSatisfiable | ExpectationFailed | MisdirectedRequest | UnprocessableEntity
| Locked | FailedDependency | TooEarly | UpgradeRequired | PreconditionRequired
| TooManyRequests | RequestHeaderFieldsTooLarge | UnavailableForLegalReasons
| InternalServerError | NotImplemented | BadGateway | ServiceUnavailable | GatewayTimeout
| HttpVersionNotSupported | VariantAlsoNegotiates | InsufficientStorage | LoopDetected
| NotExtended | NetworkAuthenticationRequired.

(** The enumerators' values. *)
Definition value (c : Code) : Z :=
  match c with
  | Continue => 100 | SwitchingProtocol => 101 | Processing => 102 | EarlyHints => 103
  | Ok => 200 | Created => 201 | Accepted => 202 | NonAuthoritativeInformation => 203
  | NoContent => 204 | ResetContent => 205 | PartialContent => 206 | MultiStatus => 207
  | AlreadyReported => 208 | ImUsed => 226
  | MultipleChoice => 300 | MovedPermanently => 301 | Found => 302 | SeeOther => 303
  | NotModified => 304 | UseProxy => 305 | TemporaryRedirect => 307
  | PermanentRedirect => 308
  | BadRequest => 400 | Unauthorized => 401 | PaymentRequired => 402 | Forbidden => 403
  | NotFound => 404 | MethodNotAllowed => 405 | NotAcceptable => 406
  | ProxyAuthenticationRequired => 407 | RequestTimeout => 408 | Conflict => 409
  | Gone => 410 | LengthRequired => 411 | PreconditionFailed => 412
  | PayloadTooLarge => 413 | UriTooLong => 414 | UnsupportedMediaType => 415
  | RangeNotSatisfiable => 416 | ExpectationFailed => 417 | MisdirectedRequest => 421
  | UnprocessableEntity => 422 | Locked => 423 | FailedDependency => 424
  | TooEarly => 425 | UpgradeRequired => 426 | PreconditionRequired => 428
  | TooManyRequests => 429 | RequestHeaderFieldsTooLarge => 431
  | UnavailableForLegalReasons => 451
  | InternalServerError => 500 | NotImplemented => 501 | BadGateway => 502
  | ServiceUnavailable => 503 | GatewayTimeout => 504 | HttpVersionNotSupported => 505
  | VariantAlsoNegotiates => 506 | InsufficientStorage => 507 | LoopDetected => 508
  | NotExtended => 510 | NetworkAuthenticationRequired => 511
  end.
End StatusCode.

Record Status := mkStatus { version : Version; scode : Z; reason : str }.

Definition HeaderField : Type := str * str.
Definition HeaderFields : Type := list HeaderField.

(** [Response response;] leaves the numbers of [status] indeterminate, which is
    [None] here. *)
Record Response := mkResponse {
  status : option Status;
  headerFields : HeaderFields;
  body : str
}.

#[global] Instance Version_eq_dec : EqDecision Version.
Proof. solve_decision. Defined.
#[global] Instance Status_eq_dec : EqDecision Status.
Proof. solve_decision. Defined.
#[global] Instance Response_eq_dec : EqDecision Response.
Proof. solve_decision. Defined.
#[global] Instance Uri_eq_dec : EqDecision Uri.
Proof. solve_decision. Defined.

(** ** Character classes *)

(** [toLower(char)]: [c - ('A' - 'a')]. *)
Definition toLowerChar (c : ascii) : ascii :=
  if (code "A" <=? code c) && (code c <=? code "Z")
  then chr (code c - (code "A" - code "a")) else c.

(** [toLower(const T&)]. *)
Definition toLower (s : str) : str := map toLowerChar s.

Definition isWhiteSpaceChar (c : ascii) : bool := (code c =? 0x20) || (code c =? 0x09).
Definition isDigitChar (c : ascii) : bool := (0x30 <=? code c) && (code c <=? 0x39).
Definition isAlphaChar (c : ascii) : bool :=
  ((0x61 <=? code c) && (code c <=? 0x7A)) || ((0x41 <=? code c) && (code c <=? 0x5A)).

Definition isTokenChar (c : ascii) : bool :=
  (code c =? 0x21) || (code c =? 0x23) || (code c =? 0x24) || (code c =? 0x25)
  || (code c =? 0x26) || (code c =? 0x27) || (code c =? 0x2A) || (code c =? 0x2B)
  || (code c =? 0x2D) || (code c =? 0x2E) || (code c =? 0x5E) || (code c =? 0x5F)
  || (code c =? 0x60) || (code c =? 0x7C) || (code c =? 0x7E)
  || isDigitChar c || isAlphaChar c.

Definition isVisibleChar (c : ascii) : bool := (0x21 <=? code c) && (code c <=? 0x7E).
Definition isObsoleteTextChar (c : ascii) : bool := (0x80 <=? code c) && (code c <=? 0xFF).

(** The test shared by reason phrases and field values. *)
Definition isFieldChar (c : ascii) : bool :=
  isWhiteSpaceChar c || isVisibleChar c || isObsoleteTextChar c.

Definition skipWhiteSpaces (l : str) : str := snd (span isWhiteSpaceChar l).

(** ** Digits and numbers *)

(** [digitToUint<T>] for a [w]-bit [T]. *)
Definition digitToUint (w : Z) (c : ascii) : res Z :=
  if (0x30 <=? code c) && (code c <=? 0x39) then Ok (wrapU w (code c - 0x30))
  else Throw (ResponseError (lit "Invalid digit")).

Definition hexDigitToUint (w : Z) (c : ascii) : res Z :=
  if (0x30 <=? code c) && (code c <=? 0x39) then Ok (wrapU w (code c - 0x30))
  else if (0x41 <=? code c) && (code c <=? 0x46)
       then Ok (wrapU w (wrapU w (code c - 0x41) + 10))
  else if (0x61 <=? code c) && (code c <=? 0x66)
       then Ok (wrapU w (wrapU w (code c - 0x61) + 10))
  else Throw (ResponseError (lit "Invalid hex digit")).

(** [for (auto i = begin; i != end; ++i) result = T(10U) * result + digit]. *)
Fixpoint stringToUint_loop (w result : Z) (l : str) : res Z :=
  match l with
  | [] => Ok result
  | c :: l' => d ← digitToUint w c; stringToUint_loop w (wrapU w (10 * result + d)) l'
  end.
Definition stringToUint (w : Z) (l : str) : res Z := stringToUint_loop w 0 l.

Fixpoint hexStringToUint_loop (w result : Z) (l : str) : res Z :=
  match l with
  | [] => Ok result
  | c :: l' => d ← hexDigitToUint w c; hexStringToUint_loop w (wrapU w (16 * result + d)) l'
  end.
Definition hexStringToUint (w : Z) (l : str) : res Z := hexStringToUint_loop w 0 l.

(** [if (i == end || *i++ != c) throw e]: steps over one required character. *)
Definition expect (c : ascii) (e : exn) (l : str) : res str :=
  match l with
  | d :: l' => if bool_decide (d = c) then Ok l' else Throw e
  | [] => Throw e
  end.

#[global] Arguments expect : simpl never.

(** ** Lemmas on the classes

    The classes are finite, so the facts about them are checked byte by byte. *)
Lemma token_not_colon c : isTokenChar c = true -> c <> ":"%char.
Proof. every_byte c. Qed.
Lemma token_field c : isTokenChar c = true -> isFieldChar c = true.
Proof. every_byte c. Qed.
Lemma space_field c : isWhiteSpaceChar c = true -> isFieldChar c = true.
Proof. every_byte c. Qed.
Lemma digit_field c : isDigitChar c = true -> isFieldChar c = true.
Proof. every_byte c. Qed.
Lemma digit_not_space c : isDigitChar c = true -> isWhiteSpaceChar c = false.
Proof. every_byte c. Qed.
Lemma field_not_crlf c : isFieldChar c = true -> c <> CR /\ c <> LF.
Proof. every_byte c. Qed.
Lemma toLower_token c : isTokenChar c = true -> isTokenChar (toLowerChar c) = true.
Proof. every_byte c. Qed.
Lemma isdigit_isDigitChar c : isdigit c = isDigitChar c.
Proof. reflexivity. Qed.

(** Folding case twice changes nothing: names compare case-insensitively. *)
Lemma toLowerChar_idem c : toLowerChar (toLowerChar c) = toLowerChar c.
Proof. every_byte c. Qed.
Lemma toLower_idem s : toLower (toLower s) = toLower s.
Proof. unfold toLower. rewrite map_map. apply map_ext, toLowerChar_idem. Qed.

Lemma expect_cons c e l : expect c e (c :: l) = Ok l.
Proof. unfold expect. by rewrite bool_decide_eq_true_2. Qed.

Lemma expect_Ok c e l l' : expect c e l = Ok l' <-> l = c :: l'.
Proof. unfold expect. destruct l; [naive_solver|]. case_bool_decide; naive_solver. Qed.

(** Runs the sequence of calls at the head of the goal through the characters
    that are there. *)
Ltac run_expect := repeat (rewrite expect_cons; cbn [mbind res_bind]).

(** ** Lemmas on numbers *)
Lemma digitToUint_Ok w c : 4 <= w -> isDigitChar c = true -> digitToUint w c = Ok (code c - 48).
Proof.
  intros Hw Hc. unfold digitToUint, isDigitChar in *. rewrite Hc. f_equal. bool_prop.
  apply wrapU_id. pose proof (Z.pow_le_mono_r 2 4 w). unfold in_u. lia.
Qed.

Lemma stringToUint_loop_spec w r l :
  4 <= w -> Forall (fun c => isDigitChar c = true) l ->
  stringToUint_loop w (wrapU w r) l = Ok (wrapU w (fold_left dec_step l r)).
Proof.
  intros Hw Hl. revert r. induction Hl as [|c l Hc Hl IH]; intros r; cbn; [done|].
  rewrite digitToUint_Ok by done. cbn. rewrite <- IH. f_equal.
  unfold wrapU, dec_step. rewrite Zplus_mod, Zmult_mod_idemp_r, <- Zplus_mod. done.
Qed.

(** The reader computes the decimal value modulo [2^w]. *)
Lemma stringToUint_spec w l :
  4 <= w -> Forall (fun c => isDigitChar c = true) l ->
  stringToUint w l = Ok (wrapU w (dec_value l)).
Proof.
  intros. unfold stringToUint, dec_value.
  replace 0 with (wrapU w 0) at 1 by (unfold wrapU; apply Zmod_0_l).
  by apply stringToUint_loop_spec.
Qed.

Lemma stringToUint_to_string w n :
  4 <= w -> in_u w n -> stringToUint w (to_string n) = Ok n.
Proof.
  intros Hw [Hn Hlt]. rewrite stringToUint_spec by (done || by apply to_string_digits).
  rewrite to_string_value by done. f_equal. by apply wrapU_id.
Qed.

(** A byte that is not a digit is refused wherever it stands. *)
Lemma stringToUint_invalid w l c :
  4 <= w -> c ∈ l -> isDigitChar c = false ->
  stringToUint w l = Throw (ResponseError (lit "Invalid digit")).
Proof.
  intros Hw Hin Hc. unfold stringToUint. generalize 0 as r.
  induction l as [|d l IH]; intros r; cbn; [by apply elem_of_nil in Hin|].
  apply elem_of_cons in Hin as [<-|Hin].
  - unfold digitToUint. unfold isDigitChar in Hc. by rewrite Hc.
  - destruct (digitToUint w d) eqn:E; cbn; [by apply IH| |unfold digitToUint in E; by case_match..].
    unfold digitToUint in E. case_match; naive_solver.
Qed.

(** Hexadecimal numbers, as chunk sizes are printed. *)
Definition hex_digit (d : Z) : ascii := if d <? 10 then chr (48 + d) else chr (87 + d).
Definition isHexChar (c : ascii) : bool :=
  isDigitChar c || ((0x41 <=? code c) && (code c <=? 0x46)) || ((0x61 <=? code c) && (code c <=? 0x66)).
Definition hex_digit_value (c : ascii) : Z :=
  if isDigitChar c then code c - 48 else if code c <=? 0x46 then code c - 55 else code c - 87.
Definition hex_step (acc : Z) (c : ascii) : Z := 16 * acc + hex_digit_value c.
Definition hex_value (l : str) : Z := fold_left hex_step l 0.

Lemma hexDigitToUint_Ok w c :
  5 <= w -> isHexChar c = true -> hexDigitToUint w c = Ok (hex_digit_value c).
Proof.
  intros Hw Hc. unfold hexDigitToUint, isHexChar, hex_digit_value, isDigitChar in *.
  pose proof (Z.pow_le_mono_r 2 5 w ltac:(lia) Hw). unfold wrapU.
  repeat case_match; bool_prop; rewrite ?Z.mod_small; try f_equal; try lia;
    rewrite ?Z.mod_small; try lia.
Qed.

Lemma hexStringToUint_spec w l :
  5 <= w -> Forall (fun c => isHexChar c = true) l ->
  hexStringToUint w l = Ok (wrapU w (hex_value l)).
Proof.
  intros Hw Hl. unfold hexStringToUint, hex_value.
  replace 0 with (wrapU w 0) at 1 by (unfold wrapU; apply Zmod_0_l).
  generalize 0 as r. induction Hl as [|c l Hc Hl IH]; intros r; cbn; [done|].
  rewrite hexDigitToUint_Ok by done. cbn. rewrite <- IH. f_equal.
  unfold wrapU, hex_step. rewrite Zplus_mod, Zmult_mod_idemp_r, <- Zplus_mod. done.
Qed.
