(* ===== verification/HttpUri.v ===== *)
(** * Parsing the endpoint's URI

    [parseUri] of [Request.hpp], step by step: the scheme loop, the three
    separators, then the fragment, query, path, user information and port cut off
    the authority with [find], [substr] and [resize].  A position compared with
    [npos] is the [option] that [search] returns; [substr(pos + 1)] after a found
    position never throws, and is [drop]. *)

From S2P Require Import Prelude.
From S2P Require Import CppString.
From S2P Require Import HttpSyntax.

Definition invalid_scheme : exn := RequestError (lit "Invalid scheme").

Definition isSchemeChar (c : ascii) : bool :=
  isAlphaChar c || isDigitChar c || bool_decide (c = "+"%char)
  || bool_decide (c = "-"%char) || bool_decide (c = "."%char).

(** Cuts [s] at the first [c]: what stays, and what [substr(pos + 1)] takes. *)
Definition cut (c : ascii) (s : str) : option (str * str) :=
  match search [c] s with
  | Some pos => Some (take pos s, drop (S pos) s)
  | None => None
  end.

(** User information: [user:password@host], [user@host] or [host]. *)
Definition parseUserInfo (authority : str) : str * str * str :=
  match cut "@" authority with
  | Some (userinfo, h) =>
      match cut ":" userinfo with
      | Some (u, p) => (u, p, h)
      | None => (userinfo, [], h)
      end
  | None => ([], [], authority)
  end.

(** Everything behind ["://"]. *)
Definition parseAuthority (scheme_ authority : str) : Uri :=
  let '(fragment_, authority) :=
    match cut "#" authority with Some (a, f) => (f, a) | None => ([], authority) end in
  let '(query_, authority) :=
    match cut "?" authority with Some (a, q) => (q, a) | None => ([], authority) end in
  let '(path_, authority) :=
    match search (lit "/") authority with
    | Some pos => (drop pos authority, take pos authority)
    | None => (lit "/", authority)
    end in
  let '(user_, password_, host_) := parseUserInfo authority in
  let '(port_, host_) :=
    match cut ":" host_ with Some (h, p) => (p, h) | None => ([], host_) end in
  mkUri scheme_ user_ password_ host_ port_ path_ query_ fragment_.

Definition parseUri (s : str) : res Uri :=
  match s with
  | [] => Throw invalid_scheme
  | c0 :: i =>
    if negb (isAlphaChar c0) then Throw invalid_scheme else
    let '(more, i) := span isSchemeChar i in
    i ← expect ":" invalid_scheme i;
    i ← expect "/" invalid_scheme i;
    i ← expect "/" invalid_scheme i;
    Ok (parseAuthority (c0 :: more) i)
  end.

(** ** The printed form, and which records have one *)

Definition opt_part (pre s post : str) : str :=
  match s with [] => [] | _ => pre ++ s ++ post end.

Definition print_userinfo (u : Uri) : str :=
  match user u, password u with
  | [], [] => []
  | us, [] => us ++ lit "@"
  | us, pw => us ++ lit ":" ++ pw ++ lit "@"
  end.

Definition print_uri (u : Uri) : str :=
  scheme u ++ lit "://" ++ print_userinfo u ++ host u ++ opt_part (lit ":") (port u) []
  ++ path u ++ opt_part (lit "?") (query u) [] ++ opt_part (lit "#") (fragment u) [].

(** No byte of [bad] occurs in [s]. *)
Definition lacks (bad : string) (s : str) : Prop := Forall (fun c => c ∉ lit bad) s.

#[global] Instance lacks_dec bad s : Decision (lacks bad s).
Proof. unfold lacks. apply _. Defined.

(** A letter, and what may follow it in a scheme. *)
Definition letter (c : ascii) : Prop := 65 <= code c <= 90 \/ 97 <= code c <= 122.
Definition scheme_char (c : ascii) : Prop := letter c \/ 48 <= code c <= 57 \/ c ∈ lit "+-.".

#[global] Instance letter_dec c : Decision (letter c).
Proof. unfold letter. apply _. Defined.
#[global] Instance scheme_char_dec c : Decision (scheme_char c).
Proof. unfold scheme_char. apply _. Defined.

Lemma letter_bool c : isAlphaChar c = bool_decide (letter c).
Proof. every_byte c. Qed.
Lemma scheme_char_bool c : isSchemeChar c = bool_decide (scheme_char c).
Proof. every_byte c. Qed.

Record wf_uri (u : Uri) : Prop := {
  wf_scheme : exists c more, scheme u = c :: more /\ letter c /\ Forall scheme_char more;
  wf_user : lacks "#?/@:" (user u);
  wf_password : lacks "#?/@" (password u);
  wf_host : lacks "#?/@:" (host u);
  wf_port : lacks "#?/@" (port u);
  wf_path : path u = [] \/ exists p, path u = "/"%char :: p;
  wf_path_chars : lacks "#?" (path u);
  wf_query : lacks "#" (query u)
}.

(** ** Lemmas *)
Lemma lacks_notin bad s c : lacks bad s -> c ∈ lit bad -> c ∉ s.
Proof. unfold lacks. rewrite list.Forall_forall. intros H Hc Hin. exact (H c Hin Hc). Qed.

Lemma lacks_app bad a b : lacks bad (a ++ b) <-> lacks bad a /\ lacks bad b.
Proof. apply Forall_app. Qed.

Lemma notin_lit c bad : bool_decide (c ∈ lit bad) = false -> c ∉ lit bad.
Proof. apply bool_decide_eq_false_1. Qed.

Lemma lacks_sub bad bad' s :
  bool_decide (Forall (fun c => c ∈ lit bad) (lit bad')) = true -> lacks bad s -> lacks bad' s.
Proof.
  intros Hsub%bool_decide_eq_true Hs. unfold lacks in *. rewrite list.Forall_forall in *.
  intros c Hc Hin. by apply (Hs c), Hsub.
Qed.

Lemma lacks_lit bad s : bool_decide (lacks bad (lit s)) = true -> lacks bad (lit s).
Proof. apply bool_decide_eq_true_1. Qed.

Lemma lacks_opt_part bad pre s : lacks bad pre -> lacks bad s -> lacks bad (opt_part pre s []).
Proof.
  intros. destruct s; cbn; [constructor|]. rewrite app_nil_r. by apply lacks_app.
Qed.

Lemma cut_app c a b : c ∉ a -> cut c (a ++ (c :: b)) = Some (a, b).
Proof.
  intros H. unfold cut. rewrite search_char_app by done. f_equal. f_equal.
  - by rewrite take_app_length.
  - rewrite <- Nat.add_1_r, <- drop_drop, drop_app_length. done.
Qed.

Lemma cut_None c a : c ∉ a -> cut c a = None.
Proof. intros H. unfold cut. by rewrite (proj2 (search_char_None c a)). Qed.

Lemma cut_Some c s a b : cut c s = Some (a, b) -> s = a ++ (c :: b) /\ c ∉ a.
Proof.
  unfold cut. destruct (search [c] s) as [i|] eqn:E; [|done]. intros [= <- <-].
  apply search_char_Some in E as (u & v & -> & Hn & <-).
  rewrite take_app_length, <- Nat.add_1_r, <- drop_drop, drop_app_length. done.
Qed.

(** Cutting an optional trailing part off again. *)
Lemma cut_opt_part c a s :
  c ∉ a ->
  match cut c (a ++ opt_part [c] s []) with Some (x, y) => (y, x) | None => ([], a ++ opt_part [c] s []) end
  = (s, a).
Proof.
  intros H. destruct s as [|d s]; cbn.
  - rewrite app_nil_r, cut_None by done. done.
  - rewrite cut_app by done. by rewrite app_nil_r.
Qed.

Ltac lacks_solve :=
  match goal with
  | H : lacks _ ?s |- _ ∉ ?s => apply (lacks_notin _ _ _ H); by apply (bool_decide_eq_true_1 _)
  end.

Lemma parseUserInfo_print u h :
  lacks "#?/@:" (user u) -> lacks "#?/@" (password u) -> lacks "#?/@" h ->
  parseUserInfo (print_userinfo u ++ h) = (user u, password u, h).
Proof.
  intros Hu Hpw Hh. unfold parseUserInfo, print_userinfo.
  assert (Hau : "@"%char ∉ user u) by lacks_solve.
  assert (Hcu : ":"%char ∉ user u) by lacks_solve.
  assert (Hap : "@"%char ∉ password u) by lacks_solve.
  assert (Hah : "@"%char ∉ h) by lacks_solve.
  destruct (password u) as [|d pw] eqn:Epw; [destruct (user u) as [|c us] eqn:Eus|].
  - cbn [app]. by rewrite cut_None.
  - rewrite <- Eus in *. rewrite <- app_assoc. cbn [lit String.list_ascii_of_string app].
    rewrite cut_app by done. by rewrite cut_None.
  - replace (match user u with [] => _ | _ => _ end)
      with (user u ++ (":"%char :: (d :: pw) ++ lit "@")) by by destruct (user u).
    change (user u ++ (":"%char :: (d :: pw) ++ lit "@"))
      with (user u ++ ([":"%char] ++ (d :: pw) ++ lit "@")).
    replace ((user u ++ ([":"%char] ++ (d :: pw) ++ lit "@")) ++ h)
      with ((user u ++ (":"%char :: d :: pw)) ++ ("@"%char :: h))
      by by rewrite <- !app_assoc.
    rewrite cut_app, cut_app; [done|done|].
    rewrite elem_of_app, !elem_of_cons in *. naive_solver.
Qed.

Lemma lacks_userinfo u :
  lacks "#?/@:" (user u) -> lacks "#?/@" (password u) -> lacks "#?/" (print_userinfo u).
Proof.
  intros Hu%(lacks_sub _ "#?/") Hp%(lacks_sub _ "#?/"); [|done..].
  assert (lacks "#?/" (lit "@") /\ lacks "#?/" (lit ":")) as [Ha Hc] by (split; by apply lacks_lit).
  unfold print_userinfo.
  destruct (user u), (password u); rewrite ?lacks_app; try done; repeat split; done.
Qed.

Lemma parseAuthority_print s u :
  wf_uri u ->
  parseAuthority s (print_userinfo u ++ host u ++ opt_part (lit ":") (port u) []
    ++ path u ++ opt_part (lit "?") (query u) [] ++ opt_part (lit "#") (fragment u) [])
  = mkUri s (user u) (password u) (host u) (port u) (match path u with [] => lit "/" | p => p end) (query u) (fragment u).
Proof.
  intros [_ Hu Hpw Hh Hpo Hp Hpc Hq]. unfold parseAuthority.
  set (hp := host u ++ opt_part (lit ":") (port u) []).
  assert (Hhp : lacks "#?/@" hp).
  { apply lacks_app; split; [by apply (lacks_sub "#?/@:")|]. apply lacks_opt_part; [by apply lacks_lit|done]. }
  assert (Hauth : lacks "#?/" (print_userinfo u ++ hp)).
  { apply lacks_app; split; [by apply lacks_userinfo|by apply (lacks_sub "#?/@")]. }
  replace (print_userinfo u ++ host u ++ _ ++ _ ++ _ ++ _)
    with ((((print_userinfo u ++ hp) ++ path u) ++ opt_part (lit "?") (query u) [])
          ++ opt_part (lit "#") (fragment u) []) by (unfold hp; by rewrite <- !app_assoc).
  assert (Hap : lacks "#?" ((print_userinfo u ++ hp) ++ path u)).
  { apply lacks_app; split; [by apply (lacks_sub "#?/")|done]. }
  change (lit "#") with ["#"%char]. change (lit "?") with ["?"%char].
  rewrite cut_opt_part.
  2: { apply (lacks_notin "#"); [|by apply (bool_decide_eq_true_1 _)]. apply lacks_app; split;
       [by apply (lacks_sub "#?")|]. apply lacks_opt_part; [by apply (bool_decide_eq_true_1 _)|done]. }
  rewrite cut_opt_part by (apply (lacks_notin _ _ _ Hap); by apply (bool_decide_eq_true_1 _)).
  assert (Hsl : "/"%char ∉ print_userinfo u ++ hp)
    by (apply (lacks_notin _ _ _ Hauth); by apply (bool_decide_eq_true_1 _)).
  change (lit "/") with ["/"%char].
  assert (match search ["/"%char] ((print_userinfo u ++ hp) ++ path u) with
          | Some pos => (drop pos ((print_userinfo u ++ hp) ++ path u), take pos ((print_userinfo u ++ hp) ++ path u))
          | None => (["/"%char], (print_userinfo u ++ hp) ++ path u)
          end = (match path u with [] => ["/"%char] | p => p end, print_userinfo u ++ hp)) as ->.
  { destruct Hp as [->|[p ->]]; [by rewrite app_nil_r, (proj2 (search_char_None _ _) Hsl)|].
    by rewrite search_char_app, take_app_length, drop_app_length by done. }
  rewrite parseUserInfo_print by done. unfold hp. change (lit ":") with [":"%char].
  by rewrite cut_opt_part by lacks_solve.
Qed.

(** C13: parsing a printed URI gives the URI back, with the path "/" where it had none.
    The scheme is a letter followed by letters, digits, plus, minus and full stop; the
    path is empty or starts with a slash; and no part holds a separator that would end
    it: user and host hold none of "#?/@:", password and port none of "#?/@", path none of
    "#?" and query no "#". *)
Theorem parse_print_uri u : wf_uri u ->
  parseUri (print_uri u) =
  Ok (mkUri (scheme u) (user u) (password u) (host u) (port u)
        (match path u with [] => lit "/" | p => p end) (query u) (fragment u)).
Proof.
  intros Hwf. destruct (wf_scheme _ Hwf) as (c0 & more & Es & Hc0 & Hmore).
  unfold print_uri, parseUri. rewrite Es. cbn [app].
  rewrite letter_bool, bool_decide_eq_true_2 by done. cbn [negb]. rewrite span_app.
  - cbn [lit String.list_ascii_of_string app]. run_expect. f_equal. by apply parseAuthority_print.
  - eapply Forall_impl; [|exact Hmore]. intros c Hc. by rewrite scheme_char_bool, bool_decide_eq_true_2.
  - done.
Qed.

Lemma parse_print_uri_witness :
  let u := mkUri (lit "http") [] [] (lit "localhost") (lit "8889") [] (lit "x=1") [] in
  print_uri u = lit "http://localhost:8889?x=1" /\
  parseUri (lit "http://localhost:8889?x=1") =
  Ok (mkUri (lit "http") [] [] (lit "localhost") (lit "8889") (lit "/") (lit "x=1") []).
Proof.
  intros u. split; [reflexivity|].
  apply (parse_print_uri u). split; cbn; try (by apply (bool_decide_eq_true_1 _)).
  - exists "h"%char, (lit "ttp"). split; [done|]. by split; apply (bool_decide_eq_true_1 _).
  - by left.
Defined.

(** ** What a parsed URI looks like *)
Lemma lacks_String c bad s : lacks (String c bad) s <-> (c ∉ s) /\ lacks bad s.
Proof.
  unfold lacks. rewrite !list.Forall_forall. cbn. setoid_rewrite elem_of_cons. split.
  - intros H. split; [intros Hin; apply (H c Hin); by left|].
    intros x Hx Hb. apply (H x Hx). by right.
  - intros [Hc H] x Hx [->|Hb]; [done|by apply (H x Hx)].
Qed.

Lemma lacks_nil s : lacks EmptyString s.
Proof. apply list.Forall_forall. intros x _. apply not_elem_of_nil. Qed.

Lemma cut_lacks c s x y bad :
  match cut c s with Some (a, b) => (b, a) | None => ([], s) end = (x, y) ->
  lacks bad s -> lacks bad x /\ lacks (String c bad) y.
Proof.
  destruct (cut c s) as [[a b]|] eqn:E; intros [= <- <-] Hs; rewrite lacks_String.
  - apply cut_Some in E as [-> Hn]. apply lacks_app in Hs as [Ha Hb].
    split; [by inversion Hb|done].
  - split; [constructor|]. split; [|done]. unfold cut in E.
    destruct (search [c] s) eqn:E'; [done|]. by apply search_char_None.
Qed.

Lemma parseUserInfo_lacks s us pw h bad :
  parseUserInfo s = (us, pw, h) -> lacks bad s ->
  lacks (String ":" (String "@" bad)) us /\ lacks (String "@" bad) pw /\ lacks bad h.
Proof.
  unfold parseUserInfo. destruct (cut "@" s) as [[ui h']|] eqn:E.
  - apply cut_Some in E as [-> Hn]. rewrite lacks_app. intros Hp [Hui Hh].
    assert (Hui' : lacks (String "@" bad) ui) by (by apply lacks_String).
    assert (Hh' : lacks bad h') by (by inversion Hh).
    destruct (cut_lacks ":" ui (snd (fst (us, pw, h))) us (String "@" bad)) as [? ?];
      destruct (cut ":" ui) as [[a b]|]; naive_solver.
  - intros [= <- <- <-] Hs. split_and!; [constructor..|done].
Qed.

Record parsed_uri (u : Uri) : Prop := {
  pu_scheme : match scheme u with
              | c :: more => isAlphaChar c = true /\ Forall (fun c => isSchemeChar c = true) more
              | [] => False
              end;
  pu_user : lacks ":@/?#" (user u);
  pu_password : lacks "@/?#" (password u);
  pu_host : lacks ":/?#" (host u);
  pu_port : lacks "/?#" (port u);
  pu_path : exists p, path u = "/"%char :: p;
  pu_path_chars : lacks "?#" (path u);
  pu_query : lacks "#" (query u)
}.

Lemma parsePath_lacks s p a :
  match search (lit "/") s with Some pos => (drop pos s, take pos s) | None => (lit "/", s) end = (p, a) ->
  lacks "?#" s -> (exists q, p = "/"%char :: q) /\ lacks "?#" p /\ lacks "/?#" a.
Proof.
  change (lit "/") with ["/"%char].
  destruct (search ["/"%char] s) as [i|] eqn:E; intros [= <- <-] Hs.
  - apply search_char_Some in E as (x & y & -> & Hn & <-).
    rewrite take_app_length, drop_app_length. apply lacks_app in Hs as [? ?].
    rewrite (lacks_String "/"). eauto.
  - apply search_char_None in E. split_and!; [by eexists|by apply (bool_decide_eq_true_1 _)|].
    by apply lacks_String.
Qed.

(** Whatever string is parsed, the parts of the result hold no separator that
    ends them, the scheme is one of RFC 3986 and the path starts with a slash. *)
Theorem parseUri_shape s u : parseUri s = Ok u -> parsed_uri u.
Proof.
  unfold parseUri. destruct s as [|c0 i]; [done|].
  destruct (isAlphaChar c0) eqn:Hc0; [|done]. cbn [negb].
  destruct (span isSchemeChar i) as [more i'] eqn:Hsp. intros H. inv_res.
  unfold parseAuthority.
  match goal with |- parsed_uri (let '(_, _) := ?m in _) => destruct m as [fr a1] eqn:E1 end.
  apply (cut_lacks _ _ _ _ EmptyString) in E1 as [_ L1]; [|apply lacks_nil].
  match goal with |- parsed_uri (let '(_, _) := ?m in _) => destruct m as [qu a2] eqn:E2 end.
  apply (cut_lacks _ _ _ _ "#") in E2 as [Hq L2]; [|exact L1].
  match goal with |- parsed_uri (let '(_, _) := ?m in _) => destruct m as [pa a3] eqn:E3 end.
  apply parsePath_lacks in E3 as (Hp & Hpc & L3); [|done].
  destruct (parseUserInfo a3) as [[us pw] h] eqn:E4.
  apply (parseUserInfo_lacks _ _ _ _ "/?#") in E4 as (Hu & Hpw & L4); [|exact L3].
  match goal with |- parsed_uri (let '(_, _) := ?m in _) => destruct m as [po ho] eqn:E5 end.
  apply (cut_lacks _ _ _ _ "/?#") in E5 as [Hpo Hh]; [|exact L4].
  split; cbn; try done. split; [done|]. by eapply span_Forall.
Qed.

Lemma parseUri_shape_witness :
  parseUri (lit "http://u:p@h:80") = Ok (mkUri (lit "http") (lit "u") (lit "p") (lit "h") (lit "80") (lit "/") [] [])
  /\ parsed_uri (mkUri (lit "http") (lit "u") (lit "p") (lit "h") (lit "80") (lit "/") [] []).
Proof. split; [reflexivity|]. apply (parseUri_shape (lit "http://u:p@h:80")). reflexivity. Defined.
