(* ===== verification/HttpParse.v ===== *)
(** * Parsing an HTTP response head

    The parsers of [Request.hpp] over an iterator range.  A range [\[i, end)] is
    the list of the bytes left in it; a parser returns the range behind what it
    read, first, like the [std::pair] of the source. *)

From Equations Require Import Equations.
From Equations.Prop Require Import Logic.
From S2P Require Import Prelude.
From S2P Require Import CppString.
From S2P Require Import HttpSyntax.

Definition invalid_version : exn := ResponseError (lit "Invalid HTTP version").
Definition invalid_status : exn := ResponseError (lit "Invalid status line").
Definition invalid_header : exn := ResponseError (lit "Invalid header").

(** [if (i == end) throw e; digitToUint<std::uint16_t>( *i++)]. *)
Definition version_digit (l : str) : res (str * Z) :=
  match l with
  | [] => Throw invalid_version
  | c :: l' => d ← digitToUint 16 c; Ok (l', d)
  end.

Definition parseVersion (l : str) : res (str * Version) :=
  l ← expect "H" invalid_version l;
  l ← expect "T" invalid_version l;
  l ← expect "T" invalid_version l;
  l ← expect "P" invalid_version l;
  l ← expect "/" invalid_version l;
  '(l, majorVersion) ← version_digit l;
  l ← expect "." invalid_version l;
  '(l, minorVersion) ← version_digit l;
  Ok (l, mkVersion majorVersion minorVersion).

(** The digits loop: [result] is a [std::uint16_t], [n] counts the steps. *)
Fixpoint parseStatusCode_loop (result : Z) (n : nat) (l : str) : res (str * Z * nat) :=
  match l with
  | c :: l' =>
      if isDigitChar c
      then d ← digitToUint 16 c; parseStatusCode_loop (u16 (u16 (result * 10) + d)) (S n) l'
      else Ok (l, result, n)
  | [] => Ok (l, result, n)
  end.

Definition parseStatusCode (l : str) : res (str * Z) :=
  '(i, result, n) ← parseStatusCode_loop 0 0 l;
  if bool_decide (n = 3%nat) then Ok (i, result)
  else Throw (ResponseError (lit "Invalid status code")).

Definition parseReasonPhrase (l : str) : str * str :=
  let '(result, i) := span isFieldChar l in (i, result).

Definition parseToken (l : str) : res (str * str) :=
  let '(result, i) := span isTokenChar l in
  match result with
  | [] => Throw (ResponseError (lit "Invalid token"))
  | _ => Ok (i, result)
  end.

(** [result.erase(find_if(rbegin, rend, !white).base(), end)]. *)
Definition trim_right (s : str) : str := reverse (snd (span isWhiteSpaceChar (reverse s))).

Definition parseFieldValue (l : str) : str * str :=
  let '(result, i) := span isFieldChar l in (i, trim_right result).

(** A line folded the obsolete way: CRLF and one white space. *)
Definition obsoleteFold (i : str) : option str :=
  match i with
  | c :: d :: w :: i' =>
      if bool_decide (c = CR) && bool_decide (d = LF) && isWhiteSpaceChar w then Some i' else None
  | _ => None
  end.

(** One iteration's value and the fold behind it; the fold decides whether the
    loop goes on. *)
Definition fieldContent_step (l : str) : str * str * option str :=
  let '(i, v) := parseFieldValue l in (i, v, obsoleteFold i).

Lemma obsoleteFold_length i j : obsoleteFold i = Some j -> (length j < length i)%nat.
Proof. unfold obsoleteFold. intros H. repeat case_match; simplify_eq; cbn; lia. Qed.

Lemma parseFieldValue_length l i v : parseFieldValue l = (i, v) -> (length i <= length l)%nat.
Proof.
  unfold parseFieldValue. destruct (span isFieldChar l) as [r i'] eqn:E. intros [= <- _].
  apply span_eq in E as ->. rewrite length_app. lia.
Qed.

Lemma fieldContent_step_length l i v j :
  fieldContent_step l = (i, v, Some j) -> (length j < length l)%nat.
Proof.
  unfold fieldContent_step. destruct (parseFieldValue l) as [i' v'] eqn:E. intros [= <- <- Hj].
  apply parseFieldValue_length in E. apply obsoleteFold_length in Hj. lia.
Qed.

(** [for (;;)] of [parseFieldContent]; every round that goes on consumes bytes. *)
Equations? parseFieldContent_loop (result l : str) : str * str by wf (length l) lt :=
parseFieldContent_loop result l with inspect (fieldContent_step l) => {
  | exist _ (i, v, Some j) H := parseFieldContent_loop (result ++ v ++ [SP]) j
  | exist _ (i, v, None) H := (i, result ++ v) }.
Proof. by eapply fieldContent_step_length. Defined.

Definition parseFieldContent (l : str) : str * str := parseFieldContent_loop [] l.

Definition parseHeaderField (l : str) : res (str * HeaderField) :=
  '(i, token) ← parseToken l;
  let fieldName := toLower token in
  i ← expect ":" invalid_header i;
  let i := skipWhiteSpaces i in
  let '(i, fieldValue) := parseFieldContent i in
  i ← expect CR invalid_header i;
  i ← expect LF invalid_header i;
  Ok (i, (fieldName, fieldValue)).

Definition parseStatusLine (l : str) : res (str * Status) :=
  '(i, ver) ← parseVersion l;
  i ← expect SP invalid_status i;
  '(i, sc) ← parseStatusCode i;
  i ← expect SP invalid_status i;
  let '(i, phrase) := parseReasonPhrase i in
  i ← expect CR invalid_status i;
  i ← expect LF invalid_status i;
  Ok (i, mkStatus ver sc phrase).

(** ** The loop's equations *)
Lemma parseFieldContent_loop_done r l i v :
  fieldContent_step l = (i, v, None) -> parseFieldContent_loop r l = (i, r ++ v).
Proof.
  intros H. rewrite parseFieldContent_loop_equation_1.
  destruct (inspect (fieldContent_step l)) as [[[i' v'] [j|]] E];
    cbn; rewrite H in E; by simplify_eq.
Qed.

Lemma parseFieldContent_loop_fold r l i v j :
  fieldContent_step l = (i, v, Some j) ->
  parseFieldContent_loop r l = parseFieldContent_loop (r ++ v ++ [SP]) j.
Proof.
  intros H. rewrite parseFieldContent_loop_equation_1.
  destruct (inspect (fieldContent_step l)) as [[[i' v'] [j'|]] E];
    cbn; rewrite H in E; by simplify_eq.
Qed.

(** ** Trimming *)
Definition trim (s : str) : str := trim_right (skipWhiteSpaces s).

Lemma reverse_cases {A} (l : list A) : l = [] \/ exists k x, l = k ++ [x].
Proof. induction l as [|x l _] using rev_ind; eauto. Qed.

Lemma trim_right_spec s :
  exists w, s = trim_right s ++ w /\ Forall (fun c => isWhiteSpaceChar c = true) w
    /\ (trim_right s = [] \/ exists k x, trim_right s = k ++ [x] /\ isWhiteSpaceChar x = false).
Proof.
  unfold trim_right. destruct (span isWhiteSpaceChar (reverse s)) as [w r] eqn:E; cbn [snd].
  pose proof (span_eq _ _ _ _ E) as Heq. pose proof (span_Forall _ _ _ _ E) as Hw.
  pose proof (span_stops _ _ _ _ E) as Hr.
  exists (reverse w). split_and!.
  - rewrite <- (reverse_involutive s), Heq, reverse_app. done.
  - by apply Forall_reverse.
  - destruct r as [|x r]; [by left|right]. exists (reverse r), x. by rewrite reverse_cons.
Qed.

Lemma trim_right_id s :
  (s = [] \/ exists k x, s = k ++ [x] /\ isWhiteSpaceChar x = false) -> trim_right s = s.
Proof.
  intros [->|(k & x & -> & Hx)]; [done|]. unfold trim_right.
  rewrite reverse_app. change (reverse [x] ++ reverse k) with (x :: reverse k).
  cbn [span]. rewrite Hx. cbn [snd]. by rewrite reverse_cons, reverse_involutive.
Qed.

(** Trimming is idempotent. *)
Lemma trim_right_idem s : trim_right (trim_right s) = trim_right s.
Proof. destruct (trim_right_spec s) as (w & _ & _ & H). by apply trim_right_id. Qed.

(** ** Progress: a parser returns a suffix of its range *)
Lemma expect_suffix c e l i : expect c e l = Ok i -> exists u, l = u ++ i /\ u <> [].
Proof. intros ->%expect_Ok. by exists [c]. Qed.

Lemma version_digit_suffix l i d : version_digit l = Ok (i, d) -> exists u, l = u ++ i /\ u <> [].
Proof. destruct l as [|c l]; cbn; [done|]. intros. inv_res. by exists [c]. Qed.

Lemma parseToken_suffix l i t : parseToken l = Ok (i, t) ->
  l = t ++ i /\ t <> [] /\ Forall (fun c => isTokenChar c = true) t.
Proof.
  unfold parseToken. destruct (span isTokenChar l) as [r i'] eqn:E.
  destruct r as [|c r]; [done|]. intros [= <- <-].
  split_and!; [by apply span_eq in E|done|by eapply span_Forall].
Qed.

Lemma skipWhiteSpaces_suffix l : exists u, l = u ++ skipWhiteSpaces l.
Proof.
  unfold skipWhiteSpaces. destruct (span _ l) as [u i] eqn:E. exists u. by apply span_eq in E.
Qed.

Lemma fieldContent_step_suffix l i v j : fieldContent_step l = (i, v, Some j) -> exists u, l = u ++ j.
Proof.
  unfold fieldContent_step, parseFieldValue.
  destruct (span isFieldChar l) as [r i'] eqn:E. apply span_eq in E as ->.
  intros [= <- <- Hj]. unfold obsoleteFold in Hj. repeat case_match; simplify_eq.
  match goal with |- context [?a :: ?b :: ?c :: j] => exists (r ++ [a; b; c]) end.
  by rewrite <- app_assoc.
Qed.

Lemma parseFieldContent_loop_suffix l : forall r i v,
  parseFieldContent_loop r l = (i, v) -> exists u, l = u ++ i.
Proof.
  induction l as [l IH] using (induction_ltof1 _ (@length ascii)). unfold ltof in IH.
  intros r i v. destruct (fieldContent_step l) as [[i' v'] [j|]] eqn:E.
  - rewrite (parseFieldContent_loop_fold _ _ _ _ _ E). intros H.
    apply IH in H as [u ->]; [|by eapply fieldContent_step_length].
    apply fieldContent_step_suffix in E as [u' ->]. exists (u' ++ u). by rewrite <- app_assoc.
  - rewrite (parseFieldContent_loop_done _ _ _ _ E). intros [= <- <-].
    unfold fieldContent_step, parseFieldValue in E.
    destruct (span isFieldChar l) as [u k] eqn:E'. apply span_eq in E' as ->. naive_solver.
Qed.

Lemma parseHeaderField_progress l i f :
  parseHeaderField l = Ok (i, f) -> exists u, l = u ++ i /\ u <> [].
Proof.
  unfold parseHeaderField. intros H. inv_res.
  match goal with H : parseToken _ = Ok ?p |- _ => destruct p as [i1 tok] end.
  inv_res. match goal with H : context [parseFieldContent ?a] |- _ => destruct (parseFieldContent a) as [i2 v] eqn:Ev end.
  inv_res. repeat match goal with H : expect _ _ _ = Ok _ |- _ => apply expect_Ok in H end.
  subst. match goal with H : parseToken _ = Ok _ |- _ => apply parseToken_suffix in H as (-> & Ht & _) end.
  apply parseFieldContent_loop_suffix in Ev as [u Hu].
  match goal with H : skipWhiteSpaces ?x = _ |- _ => destruct (skipWhiteSpaces_suffix x) as [w Hw]; rewrite H in Hw end.
  subst. exists (tok ++ ":"%char :: w ++ u ++ [CR; LF]). split; [|by destruct tok].
  rewrite <- !app_assoc. cbn. by rewrite <- !app_assoc.
Qed.

(** ** Reading back a printed field *)
Lemma skipWhiteSpaces_app a l :
  Forall (fun c => isWhiteSpaceChar c = true) a -> stops isWhiteSpaceChar l ->
  skipWhiteSpaces (a ++ l) = l.
Proof. intros. unfold skipWhiteSpaces. by rewrite span_app. Qed.

(** White space in front of a value is skipped together with the separator. *)
Lemma skipWhiteSpaces_value v l :
  stops isWhiteSpaceChar l -> skipWhiteSpaces (SP :: v ++ l) = skipWhiteSpaces v ++ l.
Proof.
  intros Hl. destruct (span isWhiteSpaceChar v) as [w r] eqn:E.
  pose proof (span_eq _ _ _ _ E) as ->. pose proof (span_Forall _ _ _ _ E) as Hw.
  pose proof (span_stops _ _ _ _ E) as Hr.
  assert (stops isWhiteSpaceChar (r ++ l)) by (by destruct r).
  rewrite <- app_assoc. change (SP :: w ++ (r ++ l)) with ((SP :: w) ++ (r ++ l)).
  rewrite !skipWhiteSpaces_app; [done|done..|by constructor|done].
Qed.

Lemma skipWhiteSpaces_Forall (P : ascii -> Prop) v : Forall P v -> Forall P (skipWhiteSpaces v).
Proof. destruct (skipWhiteSpaces_suffix v) as [u Hu]. rewrite Hu at 1. by intros [_ ?]%Forall_app. Qed.

Lemma parseFieldContent_line v l :
  Forall (fun c => isFieldChar c = true) v -> stops isWhiteSpaceChar l ->
  parseFieldContent (v ++ CRLF ++ l) = (CRLF ++ l, trim_right v).
Proof.
  intros Hv Hl. unfold parseFieldContent.
  rewrite (parseFieldContent_loop_done [] _ (CRLF ++ l) (trim_right v)); [done|].
  unfold fieldContent_step, parseFieldValue. rewrite span_app by done.
  f_equal. cbn. destruct l; [done|]. cbn in Hl. by rewrite Hl.
Qed.

Lemma parseToken_app t l :
  t <> [] -> Forall (fun c => isTokenChar c = true) t -> stops isTokenChar l ->
  parseToken (t ++ l) = Ok (l, t).
Proof. intros Ht Htok Hl. unfold parseToken. rewrite span_app by done. by destruct t. Qed.

(** A field as it is written on the wire parses back to its name in lower case
    and its value without surrounding white space. *)
Lemma parseHeaderField_line n v l :
  n <> [] -> Forall (fun c => isTokenChar c = true) n ->
  Forall (fun c => isFieldChar c = true) v -> stops isWhiteSpaceChar l ->
  parseHeaderField (n ++ lit ": " ++ v ++ CRLF ++ l) = Ok (l, (toLower n, trim v)).
Proof.
  intros Hn Hntok Hv Hl. unfold parseHeaderField.
  rewrite parseToken_app by done. cbn [mbind res_bind lit String.list_ascii_of_string app].
  run_expect.
  rewrite skipWhiteSpaces_value by done.
  rewrite parseFieldContent_line by (done || by apply skipWhiteSpaces_Forall).
  cbn [CRLF app]. by run_expect.
Qed.

(** ** Status lines *)
Definition dec_digit (d : Z) : str := [digit d].

(** A status line as a server prints it. *)
Definition print_status (s : Status) : str :=
  lit "HTTP/" ++ dec_digit (major (version s)) ++ lit "." ++ dec_digit (minor (version s))
  ++ lit " " ++ dec_digit (scode s / 100) ++ dec_digit (scode s / 10 mod 10)
  ++ dec_digit (scode s mod 10) ++ lit " " ++ reason s ++ CRLF.

Record wf_status (s : Status) : Prop := {
  ws_major : 0 <= major (version s) < 10;
  ws_minor : 0 <= minor (version s) < 10;
  ws_code : 0 <= scode s < 1000;
  ws_reason : Forall (fun c => isFieldChar c = true) (reason s)
}.

Lemma digitToUint_digit w d : 4 <= w -> 0 <= d < 10 -> digitToUint w (digit d) = Ok d.
Proof.
  intros Hw Hd. rewrite digitToUint_Ok; [|done|by apply isdigit_digit].
  rewrite code_digit by done. f_equal. lia.
Qed.

Lemma version_digit_cons d l : 0 <= d < 10 -> version_digit (digit d :: l) = Ok (l, d).
Proof. intros. cbn. by rewrite digitToUint_digit. Qed.

Lemma parseStatusCode_three a b c l :
  0 <= a < 10 -> 0 <= b < 10 -> 0 <= c < 10 -> stops isDigitChar l ->
  parseStatusCode (digit a :: digit b :: digit c :: l) = Ok (l, 100 * a + 10 * b + c).
Proof.
  intros Ha Hb Hc Hl. unfold parseStatusCode. cbn [parseStatusCode_loop].
  rewrite <- !isdigit_isDigitChar, !isdigit_digit, !digitToUint_digit by done.
  cbn [mbind res_bind parseStatusCode_loop].
  assert (forall x n, parseStatusCode_loop x n l = Ok (l, x, n)) as ->.
  { intros. destruct l as [|d l]; cbn in *; [done|]. by rewrite Hl. }
  cbn. do 2 f_equal. unfold wrapU. change (2 ^ 16) with 65536. Z.to_euclidean_division_equations. lia.
Qed.

Lemma digit_inv c : isDigitChar c = true -> exists d, c = digit d /\ 0 <= d < 10.
Proof.
  intros Hc. unfold isDigitChar in Hc. bool_prop. exists (code c - 48). split; [|lia].
  unfold digit. rewrite <- (chr_code c) at 1. f_equal. lia.
Qed.

Lemma version_digit_inv l i d : version_digit l = Ok (i, d) -> l = digit d :: i /\ 0 <= d < 10.
Proof.
  destruct l as [|c l]; cbn; [done|]. intros H. inv_res.
  match goal with H : digitToUint _ _ = Ok _ |- _ => rename H into Hd end.
  destruct (isDigitChar c) eqn:Hc.
  - apply digit_inv in Hc as (e & -> & He). rewrite digitToUint_digit in Hd by lia. naive_solver.
  - unfold digitToUint in Hd. unfold isDigitChar in Hc. by rewrite Hc in Hd.
Qed.

Lemma parseStatusCode_loop_inv r n l i x m :
  parseStatusCode_loop r n l = Ok (i, x, m) ->
  exists ds, l = ds ++ i /\ m = (length ds + n)%nat /\ Forall (fun c => isDigitChar c = true) ds
    /\ stops isDigitChar i.
Proof.
  revert r n; induction l as [|c l IH]; intros r n; cbn [parseStatusCode_loop].
  - intros [= <- <- <-]. by exists [].
  - destruct (isDigitChar c) eqn:Hc.
    + intros H. inv_res. apply IH in H as (ds & -> & -> & Hds & Hi).
      exists (c :: ds). split_and!; [done|cbn; lia|by constructor|done].
    + intros [= <- <- <-]. by exists [].
Qed.

Lemma parseStatusCode_inv l i x :
  parseStatusCode l = Ok (i, x) ->
  l = dec_digit (x / 100) ++ dec_digit (x / 10 mod 10) ++ dec_digit (x mod 10) ++ i
  /\ 0 <= x < 1000 /\ stops isDigitChar i.
Proof.
  intros H. pose proof H as H'. unfold parseStatusCode in H'. inv_res.
  match goal with H : parseStatusCode_loop _ _ _ = Ok ?p |- _ => destruct p as [[k y] m]; rename H into Hl end.
  case_bool_decide as Hm; [|done]. inv_res.
  apply parseStatusCode_loop_inv in Hl as (ds & -> & Hlen & Hds & Hk).
  destruct ds as [|c1 [|c2 [|c3 [|]]]]; cbn in Hlen; try lia.
  inversion Hds as [|? ? H1 Hds1]; subst. inversion Hds1 as [|? ? H2 Hds2]; subst.
  inversion Hds2 as [|? ? H3 _]; subst.
  apply digit_inv in H1 as (a & -> & Ha). apply digit_inv in H2 as (b & -> & Hb).
  apply digit_inv in H3 as (c & -> & Hc). cbn [app] in H |- *.
  rewrite parseStatusCode_three in H by done. injection H as <-.
  split_and!; [|lia..|done]. cbn. repeat f_equal; Z.to_euclidean_division_equations; lia.
Qed.

Lemma parseVersion_inv l i v :
  parseVersion l = Ok (i, v) ->
  l = lit "HTTP/" ++ dec_digit (major v) ++ lit "." ++ dec_digit (minor v) ++ i
  /\ 0 <= major v < 10 /\ 0 <= minor v < 10.
Proof.
  unfold parseVersion. intros H. inv_res.
  repeat match goal with
  | H : version_digit _ = Ok ?p |- _ =>
      destruct p; apply version_digit_inv in H as [? ?]; inv_res
  | H : expect _ _ _ = Ok _ |- _ => apply expect_Ok in H
  end. by subst.
Qed.

Lemma parseStatusLine_print s l :
  wf_status s -> parseStatusLine (print_status s ++ l) = Ok (l, s).
Proof.
  intros [Hma Hmi Hco Hre]. destruct s as [[ma mi] co re]; cbn in *.
  unfold print_status, parseStatusLine, parseVersion; cbn [version major minor scode reason].
  cbn [lit String.list_ascii_of_string app dec_digit].
  run_expect. rewrite version_digit_cons by done. cbn [mbind res_bind].
  run_expect. rewrite version_digit_cons by done. cbn [mbind res_bind]. run_expect.
  rewrite parseStatusCode_three; [|by (split; [apply Z.div_pos|apply Z.div_lt_upper_bound]; lia)
    |by apply Z.mod_pos_bound|by apply Z.mod_pos_bound|done].
  cbn [mbind res_bind]. run_expect.
  unfold parseReasonPhrase. rewrite <- app_assoc, span_app by done.
  cbn [CRLF app]. run_expect. do 3 f_equal.
  Z.to_euclidean_division_equations. lia.
Qed.

(** C14: the status line parser accepts exactly the lines a server prints for
    a status with one-digit version numbers, a three-digit code and a reason
    phrase of field characters, and returns that status and the rest. *)
Theorem parseStatusLine_exact l i s :
  parseStatusLine l = Ok (i, s) <-> wf_status s /\ l = print_status s ++ i.
Proof.
  split.
  - unfold parseStatusLine. intros H. inv_res.
    match goal with H : parseVersion _ = Ok ?p |- _ => destruct p as [l1 ver] end. inv_res.
    match goal with H : parseStatusCode _ = Ok ?p |- _ => destruct p as [l2 sc] end. inv_res.
    unfold parseReasonPhrase in *.
    match goal with H : context [span isFieldChar ?a] |- _ =>
      destruct (span isFieldChar a) as [ph l3] eqn:Hph end. inv_res.
    repeat match goal with
    | H : expect _ _ _ = Ok _ |- _ => apply expect_Ok in H
    | H : parseVersion _ = Ok _ |- _ => apply parseVersion_inv in H as (? & ? & ?)
    | H : parseStatusCode _ = Ok _ |- _ => apply parseStatusCode_inv in H as (? & ? & _)
    end.
    pose proof (span_Forall _ _ _ _ Hph). apply span_eq in Hph. subst.
    split; [by split|]. unfold print_status. cbn. by rewrite <- app_assoc.
  - intros [Hwf ->]. by apply parseStatusLine_print.
Qed.
