(* ===== verification/HttpEncode.v ===== *)
(** * Writing an HTTP request

    [encodeRequestLine], [encodeHeaderFields], [encodeBase64] and [encodeHtml] of
    [Request.hpp], with a reference Base 64 decoder to state what the encoder
    must satisfy. *)

From S2P Require Import Prelude.
From S2P Require Import CppString.
From S2P Require Import HttpSyntax.
From S2P Require Import HttpParse.

Definition encodeRequestLine (method target : str) : str :=
  method ++ lit " " ++ target ++ lit " HTTP/1.1" ++ CRLF.

(** The checks of one field, in the order of the source. *)
Definition checkField (f : HeaderField) : res unit :=
  _ ← throw_if (bool_decide (fst f = [])) (RequestError (lit "Invalid header field name"));
  _ ← throw_if (negb (forallb isTokenChar (fst f))) (RequestError (lit "Invalid header field name"));
  throw_if (negb (forallb isFieldChar (snd f))) (RequestError (lit "Invalid header field value")).

Definition encodeField (f : HeaderField) : str := fst f ++ lit ": " ++ snd f ++ CRLF.

Fixpoint encodeHeaderFields_loop (result : str) (fs : HeaderFields) : res str :=
  match fs with
  | [] => Ok result
  | f :: fs' => _ ← checkField f; encodeHeaderFields_loop (result ++ encodeField f) fs'
  end.
Definition encodeHeaderFields (fs : HeaderFields) : res str := encodeHeaderFields_loop [] fs.

(** ** Base 64 *)
Definition chars : str :=
  lit "ABCDEFGHIJKLMNOPQRSTUVWXYZabcdefghijklmnopqrstuvwxyz0123456789+/".

(** [chars\[idx\]]; the indices below are proved to be less than 64. *)
Definition b64_char (idx : Z) : ascii := default "="%char (chars !! Z.to_nat idx).

Definition b64_idx0 (a : Z) : Z := u8 (Z.shiftr (Z.land a 0xFC) 2).
Definition b64_idx1 (a b : Z) : Z :=
  u8 (Z.shiftl (Z.land a 0x03) 4 + Z.shiftr (Z.land b 0xF0) 4).
Definition b64_idx2 (b c : Z) : Z :=
  u8 (Z.shiftl (Z.land b 0x0F) 2 + Z.shiftr (Z.land c 0xC0) 6).
Definition b64_idx3 (c : Z) : Z := u8 (Z.land c 0x3f).

(** The loop.  [pend] is [charArray\[0..c)], the bytes not yet written. *)
Fixpoint encodeBase64_loop (result pend : str) (l : str) : str * str :=
  match l with
  | [] => (result, pend)
  | i :: l' =>
      match pend ++ [i] with
      | [x; y; z] =>
          encodeBase64_loop
            (result ++ [b64_char (b64_idx0 (code x)); b64_char (b64_idx1 (code x) (code y));
                        b64_char (b64_idx2 (code y) (code z)); b64_char (b64_idx3 (code z))]) [] l'
      | pend' => encodeBase64_loop result pend' l'
      end
  end.

Definition encodeBase64 (l : str) : str :=
  let '(result, pend) := encodeBase64_loop [] [] l in
  match pend with
  | [] => result
  | x :: rest =>
      let result := result ++ [b64_char (b64_idx0 (code x))] in
      match rest with
      | [] => result ++ [b64_char (u8 (Z.shiftl (Z.land (code x) 0x03) 4))] ++ lit "=="
      | y :: _ => result ++ [b64_char (b64_idx1 (code x) (code y));
                             b64_char (u8 (Z.shiftl (Z.land (code y) 0x0F) 2))] ++ lit "="
      end
  end.

(** ** The whole request *)
Definition requestTarget (u : Uri) : str :=
  path u ++ (if bool_decide (query u = []) then [] else "?"%char :: query u).

Definition requestFields (u : Uri) (body : str) (fs : HeaderFields) : HeaderFields :=
  let fs := fs ++ [(lit "Host", host u)] in
  let fs := fs ++ [(lit "Content-Length", to_string (size body))] in
  if negb (bool_decide (user u = [])) || negb (bool_decide (password u = []))
  then fs ++ [(lit "Authorization", lit "Basic " ++ encodeBase64 (user u ++ lit ":" ++ password u))]
  else fs.

Definition encodeHtml (u : Uri) (method body : str) (fs : HeaderFields) : res str :=
  if negb (bool_decide (scheme u = lit "http"))
  then Throw (RequestError (lit "Only HTTP scheme is supported"))
  else
    hs ← encodeHeaderFields (requestFields u body fs);
    Ok (encodeRequestLine method (requestTarget u) ++ hs ++ CRLF ++ body).

(** ** A reference decoder *)
Definition b64_index (c : ascii) : option Z := Z.of_nat <$> search [c] chars.

Definition b64_quad (a b c d : Z) : str :=
  [chr (4 * a + b / 16); chr (16 * (b mod 16) + c / 4); chr (64 * (c mod 4) + d)].

Fixpoint b64_decode (l : str) : option str :=
  match l with
  | [] => Some []
  | a :: b :: c :: d :: l' =>
      ia ← b64_index a; ib ← b64_index b;
      if bool_decide (c = "="%char) then Some [chr (4 * ia + ib / 16)]
      else
        ic ← b64_index c;
        if bool_decide (d = "="%char) then Some (take 2 (b64_quad ia ib ic 0))
        else id ← b64_index d; r ← b64_decode l'; Some (b64_quad ia ib ic id ++ r)
  | _ => None
  end.

(** ** Facts about the indices, checked byte by byte *)
Lemma idx0_div c : b64_idx0 (code c) = code c / 4.
Proof. every_byte c. Qed.
Lemma idx3_mod c : b64_idx3 (code c) = code c mod 64.
Proof. every_byte c. Qed.
Lemma idx1_hi c : Z.shiftl (Z.land (code c) 0x03) 4 = 16 * (code c mod 4).
Proof. every_byte c. Qed.
Lemma idx1_lo c : Z.shiftr (Z.land (code c) 0xF0) 4 = code c / 16.
Proof. every_byte c. Qed.
Lemma idx2_hi c : Z.shiftl (Z.land (code c) 0x0F) 2 = 4 * (code c mod 16).
Proof. every_byte c. Qed.
Lemma idx2_lo c : Z.shiftr (Z.land (code c) 0xC0) 6 = code c / 64.
Proof. every_byte c. Qed.

Ltac bytes_lia :=
  repeat match goal with
  | c : ascii |- _ =>
      lazymatch goal with
      | H : 0 <= code c < 256 |- _ => fail
      | _ => pose proof (code_range c)
      end
  end;
  unfold wrapU, in_u in *; change (2 ^ 8) with 256 in *;
  Z.to_euclidean_division_equations; lia.

Lemma idx1_spec x y : b64_idx1 (code x) (code y) = 16 * (code x mod 4) + code y / 16.
Proof. unfold b64_idx1. rewrite idx1_hi, idx1_lo. apply wrapU_id. bytes_lia. Qed.
Lemma idx2_spec y z : b64_idx2 (code y) (code z) = 4 * (code y mod 16) + code z / 64.
Proof. unfold b64_idx2. rewrite idx2_hi, idx2_lo. apply wrapU_id. bytes_lia. Qed.

(** Every index is inside the table. *)
Lemma b64_idx_bounds x y :
  0 <= b64_idx0 (code x) < 64 /\ 0 <= b64_idx1 (code x) (code y) < 64
  /\ 0 <= b64_idx2 (code x) (code y) < 64 /\ 0 <= b64_idx3 (code x) < 64.
Proof. rewrite idx0_div, idx1_spec, idx2_spec, idx3_mod. bytes_lia. Qed.

Lemma b64_table : forallb (fun i => bool_decide (b64_index (b64_char (Z.of_nat i)) = Some (Z.of_nat i))
                                    && negb (bool_decide (b64_char (Z.of_nat i) = "="%char)))
                    (seq 0 64) = true.
Proof. vm_compute. done. Qed.

Lemma b64_index_char i :
  0 <= i < 64 -> b64_index (b64_char i) = Some i /\ b64_char i <> "="%char.
Proof.
  intros Hi. pose proof b64_table as H. rewrite forallb_forall in H.
  specialize (H (Z.to_nat i)). rewrite Z2Nat.id in H by lia.
  assert (Hin : In (Z.to_nat i) (seq 0 64)) by (apply in_seq; lia).
  specialize (H Hin). bool_prop. done.
Qed.

Lemma b64_decode_quad ia ib ic id l r :
  0 <= ia < 64 -> 0 <= ib < 64 -> 0 <= ic < 64 -> 0 <= id < 64 -> b64_decode l = Some r ->
  b64_decode (b64_char ia :: b64_char ib :: b64_char ic :: b64_char id :: l)
  = Some (b64_quad ia ib ic id ++ r).
Proof.
  intros Ha Hb Hc Hd Hl. cbn [b64_decode].
  destruct (b64_index_char ia Ha) as [-> _]. destruct (b64_index_char ib Hb) as [-> _].
  destruct (b64_index_char ic Hc) as [-> ?]. destruct (b64_index_char id Hd) as [-> ?].
  cbn. rewrite !bool_decide_eq_false_2 by done. by rewrite Hl.
Qed.

(** ** Encoding three bytes at a time *)
Definition b64_triple (x y z : ascii) : str :=
  [b64_char (b64_idx0 (code x)); b64_char (b64_idx1 (code x) (code y));
   b64_char (b64_idx2 (code y) (code z)); b64_char (b64_idx3 (code z))].

(** The reference encoding: blocks of three bytes, then the padded rest. *)
Fixpoint b64_blocks (l : str) : str :=
  match l with
  | [] => []
  | [x] => [b64_char (b64_idx0 (code x)); b64_char (u8 (Z.shiftl (Z.land (code x) 0x03) 4))] ++ lit "=="
  | [x; y] => [b64_char (b64_idx0 (code x)); b64_char (b64_idx1 (code x) (code y));
               b64_char (u8 (Z.shiftl (Z.land (code y) 0x0F) 2))] ++ lit "="
  | x :: y :: z :: l' => b64_triple x y z ++ b64_blocks l'
  end.

Lemma list_ind3 {A} (P : list A -> Prop) :
  P [] -> (forall x, P [x]) -> (forall x y, P [x; y]) ->
  (forall x y z l, P l -> P (x :: y :: z :: l)) -> forall l, P l.
Proof.
  intros H0 H1 H2 H3 l. induction l as [l IH] using (induction_ltof1 _ (@length A)).
  unfold ltof in IH. destruct l as [|x [|y [|z l]]]; [done|done|done|].
  apply H3, IH. cbn. lia.
Qed.

Lemma encodeBase64_loop_blocks l : forall r,
  (let '(result, pend) := encodeBase64_loop r [] l in
   match pend with
   | [] => result
   | x :: rest =>
       let result := result ++ [b64_char (b64_idx0 (code x))] in
       match rest with
       | [] => result ++ [b64_char (u8 (Z.shiftl (Z.land (code x) 0x03) 4))] ++ lit "=="
       | y :: _ => result ++ [b64_char (b64_idx1 (code x) (code y));
                              b64_char (u8 (Z.shiftl (Z.land (code y) 0x0F) 2))] ++ lit "="
       end
   end) = r ++ b64_blocks l.
Proof.
  induction l as [|x|x y|x y z l IH] using list_ind3; intros r.
  - cbn. by rewrite app_nil_r.
  - cbn. by rewrite <- app_assoc.
  - cbn. by rewrite <- app_assoc.
  - cbn [encodeBase64_loop app]. rewrite IH, <- app_assoc. done.
Qed.

Lemma encodeBase64_blocks l : encodeBase64 l = b64_blocks l.
Proof. apply (encodeBase64_loop_blocks l []). Qed.

Lemma chr_code_eq z c : z = code c -> chr z = c.
Proof. intros ->. apply chr_code. Qed.

Lemma b64_quad_triple x y z :
  b64_quad (b64_idx0 (code x)) (b64_idx1 (code x) (code y)) (b64_idx2 (code y) (code z)) (b64_idx3 (code z))
  = [x; y; z].
Proof.
  unfold b64_quad. rewrite idx0_div, idx1_spec, idx2_spec, idx3_mod.
  f_equal; [|f_equal; [|f_equal]]; apply chr_code_eq; bytes_lia.
Qed.

(** C16: decoding what the encoder writes gives the bytes back, for every input,
    whatever its length modulo three. *)
Theorem base64_roundtrip l : b64_decode (encodeBase64 l) = Some l.
Proof.
  rewrite encodeBase64_blocks.
  induction l as [|x|x y|x y z l IH] using list_ind3.
  - done.
  - cbn [b64_blocks app lit String.list_ascii_of_string b64_decode].
    rewrite idx0_div, idx1_hi, wrapU_id by bytes_lia.
    destruct (b64_index_char (code x / 4) ltac:(bytes_lia)) as [-> _].
    destruct (b64_index_char (16 * (code x mod 4)) ltac:(bytes_lia)) as [-> _].
    cbn. do 2 f_equal. apply chr_code_eq. bytes_lia.
  - cbn [b64_blocks app lit String.list_ascii_of_string b64_decode].
    rewrite idx0_div, idx1_spec, idx2_hi, wrapU_id by bytes_lia.
    destruct (b64_index_char (code x / 4) ltac:(bytes_lia)) as [-> _].
    destruct (b64_index_char (16 * (code x mod 4) + code y / 16) ltac:(bytes_lia)) as [-> _].
    destruct (b64_index_char (4 * (code y mod 16)) ltac:(bytes_lia)) as [-> Hne].
    cbn [mbind option_bind]. rewrite bool_decide_eq_false_2 by done. cbn.
    f_equal. f_equal; [|f_equal]; apply chr_code_eq; bytes_lia.
  - cbn [b64_blocks]. unfold b64_triple. cbn [app].
    destruct (b64_idx_bounds x y) as (? & ? & _ & _), (b64_idx_bounds y z) as (_ & _ & ? & _),
      (b64_idx_bounds z z) as (_ & _ & _ & ?).
    rewrite (b64_decode_quad _ _ _ _ _ l) by done. by rewrite b64_quad_triple.
Qed.

(** The encoding has four characters for every three bytes begun. *)
Lemma base64_length l : length (encodeBase64 l) = (4 * ((length l + 2) / 3))%nat.
Proof.
  rewrite encodeBase64_blocks. induction l as [|x|x y|x y z l IH] using list_ind3; [done..|].
  cbn [b64_blocks length]. rewrite length_app, IH. cbn [b64_triple length].
  replace (S (S (S (length l))) + 2)%nat with (length l + 2 + 1 * 3)%nat by lia.
  rewrite Nat.div_add by lia. lia.
Qed.

Lemma b64_char_field i : 0 <= i < 64 -> isFieldChar (b64_char i) = true.
Proof.
  intros Hi. assert (H : forallb (fun i => isFieldChar (b64_char (Z.of_nat i))) (seq 0 64) = true)
    by (vm_compute; done).
  rewrite forallb_forall in H. specialize (H (Z.to_nat i)). rewrite Z2Nat.id in H by lia.
  apply H, in_seq. lia.
Qed.

Lemma encodeBase64_field l : Forall (fun c => isFieldChar c = true) (encodeBase64 l).
Proof.
  rewrite encodeBase64_blocks. induction l as [|x|x y|x y z l IH] using list_ind3.
  - constructor.
  - cbn. rewrite idx0_div, idx1_hi, wrapU_id by bytes_lia.
    repeat constructor; apply b64_char_field; bytes_lia.
  - cbn. rewrite idx0_div, idx1_spec, idx2_hi, wrapU_id by bytes_lia.
    repeat constructor; apply b64_char_field; bytes_lia.
  - cbn [b64_blocks]. apply Forall_app. split; [|done].
    destruct (b64_idx_bounds x y) as (? & ? & _ & _), (b64_idx_bounds y z) as (_ & _ & ? & _),
      (b64_idx_bounds z z) as (_ & _ & _ & ?).
    repeat constructor; by apply b64_char_field.
Qed.

(** ** Header fields *)
Definition valid_field (f : HeaderField) : Prop :=
  fst f <> [] /\ Forall (fun c => isTokenChar c = true) (fst f)
  /\ Forall (fun c => isFieldChar c = true) (snd f).

#[global] Instance valid_field_dec f : Decision (valid_field f).
Proof. unfold valid_field. apply _. Defined.

Lemma forallb_Forall {A} (p : A -> bool) l : forallb p l = true <-> Forall (fun x => p x = true) l.
Proof. rewrite forallb_forall, Forall_forall. done. Qed.

Lemma checkField_Ok f u : checkField f = Ok u <-> valid_field f.
Proof.
  unfold checkField, valid_field. rewrite <- !forallb_Forall. destruct u.
  case_bool_decide; [naive_solver|]; cbn.
  destruct (forallb isTokenChar (fst f)), (forallb isFieldChar (snd f)); cbn; naive_solver.
Qed.

Lemma checkField_not_Ok f r :
  checkField f = r ->
  match r with Ok _ => valid_field f | Throw e => exists msg, e = RequestError msg | _ => False end.
Proof.
  intros <-. destruct (checkField f) eqn:E; [by apply checkField_Ok in E|..];
    unfold checkField in E; revert E; (case_bool_decide; cbn; [naive_solver|]);
    destruct (forallb isTokenChar _), (forallb isFieldChar _); cbn; naive_solver.
Qed.

Lemma encodeHeaderFields_loop_Ok r fs s :
  encodeHeaderFields_loop r fs = Ok s <->
  Forall valid_field fs /\ s = r ++ concat (map encodeField fs).
Proof.
  revert r; induction fs as [|f fs IH]; intros r; cbn.
  - rewrite app_nil_r. naive_solver.
  - rewrite list.Forall_cons, bind_Ok, app_assoc. split.
    + intros ([] & Hf%checkField_Ok & [? ->]%IH). done.
    + intros [[Hf ?] ->]. exists tt. by rewrite checkField_Ok, IH.
Qed.

Lemma encodeHeaderFields_Ok fs s :
  encodeHeaderFields fs = Ok s <-> Forall valid_field fs /\ s = concat (map encodeField fs).
Proof. apply (encodeHeaderFields_loop_Ok []). Qed.

(** A call that does not succeed threw a [RequestError]. *)
Lemma encodeHeaderFields_error fs :
  ~ Forall valid_field fs -> exists msg, encodeHeaderFields fs = Throw (RequestError msg).
Proof.
  unfold encodeHeaderFields. generalize (@nil ascii) as r.
  induction fs as [|f fs IH]; intros r Hn; [exfalso; apply Hn; constructor|]. cbn.
  destruct (checkField f) eqn:E.
  - apply checkField_Ok in E. cbn. apply IH. rewrite list.Forall_cons in Hn. naive_solver.
  - apply checkField_not_Ok in E. naive_solver.
  - by apply checkField_not_Ok in E.
  - by apply checkField_not_Ok in E.
Qed.

(** ** The whole request *)
Lemma digits_field s : Forall (fun c => isdigit c = true) s -> Forall (fun c => isFieldChar c = true) s.
Proof. apply Forall_impl. intros c Hc. by apply digit_field. Qed.

Lemma requestFields_valid u body fs :
  Forall valid_field (requestFields u body fs) <->
  Forall valid_field fs /\ Forall (fun c => isFieldChar c = true) (host u).
Proof.
  assert (Hcl : valid_field (lit "Content-Length", to_string (size body))).
  { split_and!; [done|repeat constructor|]. apply digits_field, to_string_digits. unfold size. lia. }
  assert (Hau : valid_field (lit "Authorization", lit "Basic " ++ encodeBase64 (user u ++ lit ":" ++ password u))).
  { split_and!; [done|repeat constructor|]. apply Forall_app. split; [repeat constructor|].
    apply encodeBase64_field. }
  assert (Hh : valid_field (lit "Host", host u) <-> Forall (fun c => isFieldChar c = true) (host u)).
  { split; [by intros (_ & _ & ?)|]. intros. split_and!; [done|repeat constructor|done]. }
  unfold requestFields. destruct (_ || _);
    rewrite !Forall_app, !list.Forall_singleton, Hh; naive_solver.
Qed.

(** What a request may hold, by the numbers of RFC 7230: names of letters, digits and
    the marks of a token; values of spaces, tabs, visible characters and bytes from
    128 on. *)
Definition name_char (c : ascii) : Prop :=
  48 <= code c <= 57 \/ 65 <= code c <= 90 \/ 97 <= code c <= 122 \/ c ∈ lit "!#$%&'*+-.^_`|~".
Definition value_char (c : ascii) : Prop := code c = 9 \/ 32 <= code c <= 126 \/ 128 <= code c.
Definition legal_field (f : HeaderField) : Prop :=
  fst f <> [] /\ Forall name_char (fst f) /\ Forall value_char (snd f).

#[global] Instance name_char_dec c : Decision (name_char c).
Proof. unfold name_char. apply _. Defined.
#[global] Instance value_char_dec c : Decision (value_char c).
Proof. unfold value_char. apply _. Defined.

Lemma name_char_bool c : isTokenChar c = bool_decide (name_char c).
Proof. every_byte c. Qed.
Lemma value_char_bool c : isFieldChar c = bool_decide (value_char c).
Proof. every_byte c. Qed.

Lemma value_chars s : Forall (fun c => isFieldChar c = true) s <-> Forall value_char s.
Proof.
  rewrite !list.Forall_forall. setoid_rewrite value_char_bool. by setoid_rewrite bool_decide_eq_true.
Qed.
Lemma legal_fields fs : Forall valid_field fs <-> Forall legal_field fs.
Proof.
  apply Forall_iff. intros f. unfold valid_field, legal_field. rewrite value_chars, !list.Forall_forall.
  setoid_rewrite name_char_bool. by setoid_rewrite bool_decide_eq_true.
Qed.

(** C15: a request is encoded exactly when the scheme is http, the caller's fields have
    names of token characters (at least one) and values, and the URI a host, without
    control characters other than the tab; the bytes are the method, a space, the path
    with the query behind a question mark when there is one, and the version HTTP/1.1;
    then, each on its line, the caller's fields in order, the host, the decimal length
    of the body and, when there is a user or a password, the Base 64 of both joined by
    a colon; then an empty line and the body.  Lines end in CR LF. *)
Theorem encodeHtml_exact u method body fs r :
  encodeHtml u method body fs = Ok r <->
  scheme u = lit "http" /\ Forall legal_field fs /\ Forall value_char (host u) /\
  r = method ++ lit " " ++ path u ++ (match query u with [] => [] | q => lit "?" ++ q end) ++ lit " HTTP/1.1" ++ [CR; LF] ++
      concat (map (fun f => fst f ++ lit ": " ++ snd f ++ [CR; LF]) fs) ++
      lit "Host: " ++ host u ++ [CR; LF] ++
      lit "Content-Length: " ++ to_string (size body) ++ [CR; LF] ++
      (match user u ++ password u with
       | [] => []
       | _ => lit "Authorization: Basic " ++ encodeBase64 (user u ++ lit ":" ++ password u) ++ [CR; LF]
       end) ++ [CR; LF] ++ body.
Proof.
  unfold encodeHtml. case_bool_decide as Hs; cbn [negb]; [|naive_solver].
  rewrite bind_Ok, <- legal_fields, <- value_chars.
  setoid_rewrite encodeHeaderFields_Ok. setoid_rewrite requestFields_valid.
  match goal with |- _ <-> _ /\ _ /\ _ /\ r = ?x =>
    assert (encodeRequestLine method (requestTarget u) ++ concat (map encodeField (requestFields u body fs)) ++ CRLF ++ body = x) as E end.
  { unfold encodeRequestLine, requestTarget, requestFields.
    assert (negb (bool_decide (user u = [])) || negb (bool_decide (password u = [])) =
            match user u ++ password u with [] => false | _ => true end) as ->
      by (by destruct (user u), (password u)).
    destruct (user u ++ password u), (query u);
      rewrite !map_app, !concat_app; unfold encodeField; cbn [map concat fst snd];
      rewrite ?app_nil_r, <- ?app_assoc; done. }
  split.
  - intros (hs & [[Hv Hh] Hhs] & Hr). injection Hr as Hr. subst hs. split_and!; try done. by rewrite <- Hr, <- E.
  - intros (_ & Hv & Hh & ->). eexists. split; [done|]. by rewrite <- E.
Qed.
