(* ===== verification/Effects.v ===== *)
(** * Calls into the outside world

    The program calls the kernel, the video device and the WebRTC library.  A
    computation that makes such calls is run against a script of their answers,
    one per call, and leaves a log of the answered calls.  Theorems that quantify
    over the script hold for every behaviour of the outside world; a script that
    ends early leaves the computation waiting for the next answer. *)

From S2P Require Import Prelude.

Section Effects.
Context {op ans : Type}.

(** What a run ended with: a value, an exception, or the wait for an answer. *)
Definition M (A : Type) : Type := list ans -> list (op * ans) * option (res A) * list ans.

Definition m_ret {A} (x : res A) : M A := fun s => ([], Some x, s).

Definition m_bind {A B} (m : M A) (f : A -> M B) : M B := fun s =>
  match m s with
  | (l, Some (Ok a), s') => let '(l', r, s'') := f a s' in (l ++ l', r, s'')
  | (l, Some (Throw e), s') => (l, Some (Throw e), s')
  | (l, Some Crash, s') => (l, Some Crash, s')
  | (l, Some Undef, s') => (l, Some Undef, s')
  | (l, None, s') => (l, None, s')
  end.

(** One call: logged, and answered by the head of the script. *)
Definition call (o : op) : M ans := fun s =>
  match s with
  | [] => ([], None, [])
  | a :: s' => ([(o, a)], Some (Ok a), s')
  end.

(** [do { a = o } while (again(a))], the shape of the retry loops on EINTR: the
    call is made once, and again as long as the answer asks for it.  [next] is the
    call of the next try, for calls whose arguments the failed one has changed. *)
Fixpoint retry_with (again : ans -> bool) (next : op -> ans -> op) (o : op) (s : list ans)
  : list (op * ans) * option (res ans) * list ans :=
  match s with
  | [] => ([], None, [])
  | a :: s' =>
      if again a then let '(l, r, s'') := retry_with again next (next o a) s' in ((o, a) :: l, r, s'')
      else ([(o, a)], Some (Ok a), s')
  end.

Definition retry (again : ans -> bool) (o : op) : M ans := retry_with again (fun o _ => o) o.

(** [for (;;)] with an early return: [inl] goes round again. *)
Fixpoint loop_fuel {S A} (fuel : nat) (b : S -> M (S + A)) (st : S) : M A := fun s =>
  match fuel with
  | O => ([], None, s)
  | Datatypes.S n =>
      m_bind (b st) (fun r => match r with
                              | inl st' => loop_fuel n b st'
                              | inr a => m_ret (Ok a)
                              end) s
  end.

(** A round that goes on makes at least one call, so the answers left bound the
    rounds. *)
Definition loop {S A} (b : S -> M (S + A)) (st : S) : M A := fun s =>
  loop_fuel (Datatypes.S (length s)) b st s.

(** Cleanup that runs on every way out of a scope, like a destructor. *)
Definition finally {A} (m : M A) (d : M unit) : M A := fun s =>
  match m s with
  | (l, Some r, s') =>
      match d s' with
      | (l', Some (Ok _), s'') => (l ++ l', Some r, s'')
      | (l', _, s'') => (l ++ l', None, s'')
      end
  | (l, None, s') => (l, None, s')
  end.

End Effects.

Arguments M : clear implicits.

(** A computation on its own calls, run inside one with more kinds of them: [inj]
    names its calls, [prj] reads its answers. *)
Definition embed {op ans op' ans' A} (inj : op -> op') (prj : ans' -> ans) (m : M op ans A) : M op' ans' A :=
  fun s =>
    let '(l, r, _) := m (map prj s) in
    (zip (map (fun e => inj (fst e)) l) s, r, drop (length l) s).

Declare Scope eff_scope.
Delimit Scope eff_scope with eff.
Notation "'let*' p ':=' m 'in' k" := (m_bind m (fun p => k))
  (at level 10, p pattern, m at level 100, k at level 200) : eff_scope.
Notation "m ;;; k" := (m_bind m (fun _ => k)) (at level 100, right associativity) : eff_scope.

(** ** Laws *)
Section Laws.
Context {op ans : Type}.

(** A computation consumes a prefix of the script and nothing else. *)
Definition consumes {A} (m : M op ans A) : Prop := forall s l r s',
  m s = (l, r, s') -> (length s' <= length s)%nat.
(** ... and at least one answer, when it ends with a value. *)
Definition progresses {A} (m : M op ans A) : Prop := forall s l a s',
  m s = (l, Some (Ok a), s') -> (length s' < length s)%nat.

Lemma m_bind_ret {A B} (a : A) (f : A -> M op ans B) s : m_bind (m_ret (Ok a)) f s = f a s.
Proof. unfold m_bind, m_ret. by destruct (f a s) as [[? ?] ?]. Qed.

Lemma m_bind_assoc {A B C} (m : M op ans A) (f : A -> M op ans B) (g : B -> M op ans C) s :
  m_bind (m_bind m f) g s = m_bind m (fun a => m_bind (f a) g) s.
Proof.
  unfold m_bind. destruct (m s) as [[l [[a|e| |]|]] s']; try done.
  destruct (f a s') as [[l' [[b|e| |]|]] s'']; try done.
  destruct (g b s'') as [[l'' r] s3]. by rewrite app_assoc.
Qed.

Lemma call_consumes (o : op) : consumes (call (ans := ans) o).
Proof. intros [|a s] l r s'; cbn; intros [= <- <- <-]; cbn; lia. Qed.

Lemma call_progresses (o : op) : progresses (call (ans := ans) o).
Proof. intros [|a s] l r s'; cbn; [done|]. intros [= <- <- <-]. lia. Qed.

Lemma retry_with_progresses again next (o : op) : progresses (retry_with (ans := ans) again next o).
Proof.
  intros s. revert o. induction s as [|a s IH]; intros o l r s'; cbn; [done|].
  destruct (again a).
  - destruct (retry_with again next (next o a) s) as [[l' r'] s''] eqn:E. intros [= <- -> ->].
    apply IH in E. lia.
  - intros [= <- <- <-]. lia.
Qed.

Lemma retry_with_consumes again next (o : op) : consumes (retry_with (ans := ans) again next o).
Proof.
  intros s. revert o. induction s as [|a s IH]; intros o l r s'; cbn; [intros [= <- <- <-]; cbn; lia|].
  destruct (again a).
  - destruct (retry_with again next (next o a) s) as [[l' r'] s''] eqn:E. intros [= <- -> ->].
    apply IH in E. lia.
  - intros [= <- <- <-]. lia.
Qed.

Lemma retry_progresses again (o : op) : progresses (retry (ans := ans) again o).
Proof. apply retry_with_progresses. Qed.
Lemma retry_consumes again (o : op) : consumes (retry (ans := ans) again o).
Proof. apply retry_with_consumes. Qed.

(** A retried call returns the first answer that does not ask for another try. *)
Lemma retry_with_answers again next (o : op) (xs : list ans) a s :
  Forall (fun x => again x = true) xs -> again a = false ->
  exists l, retry_with again next o (xs ++ (a :: s)) = (l, Some (Ok a), s).
Proof.
  intros Hxs Ha. revert o. induction Hxs as [|x xs Hx Hxs IH]; intros o; cbn; [rewrite Ha; eauto|].
  rewrite Hx. destruct (IH (next o x)) as [l ->]. eauto.
Qed.

(** ... and has logged the tries before it. *)
Lemma retry_Ok again (o : op) s l (a : ans) s' :
  retry again o s = (l, Some (Ok a), s') ->
  again a = false /\ exists xs, Forall (fun x => again x = true) xs /\ l = map (pair o) xs ++ [(o, a)].
Proof.
  unfold retry. revert l. induction s as [|x s IH]; intros l; cbn; [done|]. destruct (again x) eqn:Hx.
  - destruct (retry_with again (fun o _ => o) o s) as [[l' r'] s''] eqn:E. intros H; simplify_eq.
    destruct (IH _ eq_refl) as (Ha & xs & Hxs & ->). split; [done|].
    exists (x :: xs). split; [by constructor|done].
  - intros H; simplify_eq. split; [done|]. by exists [].
Qed.

Lemma m_ret_consumes {A} (x : res A) : consumes (m_ret (op := op) (ans := ans) x).
Proof. intros s l r s' [= <- <- <-]. lia. Qed.

Lemma m_bind_consumes {A B} (m : M op ans A) (f : A -> M op ans B) :
  consumes m -> (forall a, consumes (f a)) -> consumes (m_bind m f).
Proof.
  intros Hm Hf s l r s'. unfold m_bind. destruct (m s) as [[l1 [[a|e| |]|]] s1] eqn:E;
    apply Hm in E; try (intros [= <- <- <-]; lia).
  destruct (f a s1) as [[l2 r2] s2] eqn:E2. intros [= <- <- <-]. apply Hf in E2. lia.
Qed.

Lemma m_bind_progresses {A B} (m : M op ans A) (f : A -> M op ans B) :
  progresses m -> (forall a, consumes (f a)) -> progresses (m_bind m f).
Proof.
  intros Hm Hf s l r s'. unfold m_bind. destruct (m s) as [[l1 [[a|e| |]|]] s1] eqn:E; try done.
  apply Hm in E. destruct (f a s1) as [[l2 r2] s2] eqn:E2. intros [= <- -> <-].
  apply Hf in E2. lia.
Qed.

Lemma m_bind_progresses_r {A B} (m : M op ans A) (f : A -> M op ans B) :
  consumes m -> (forall a, progresses (f a)) -> progresses (m_bind m f).
Proof.
  intros Hm Hf s l r s'. unfold m_bind. destruct (m s) as [[l1 [[a|e| |]|]] s1] eqn:E; try done.
  apply Hm in E. destruct (f a s1) as [[l2 r2] s2] eqn:E2. intros [= <- -> <-].
  apply Hf in E2. lia.
Qed.

(** Every round of [b] that goes on consumed an answer. *)
Definition advances {S A} (b : S -> M op ans (S + A)) : Prop := forall st s l st' s',
  b st s = (l, Some (Ok (inl st')), s') -> (length s' < length s)%nat.

Lemma progresses_advances {S A} (b : S -> M op ans (S + A)) : (forall st, progresses (b st)) -> advances b.
Proof. intros H st s l st' s' E. by eapply H. Qed.

(** More fuel than answers changes nothing. *)
Lemma loop_fuel_enough {S A} (b : S -> M op ans (S + A)) n m st s :
  advances b -> (length s < n)%nat -> (length s < m)%nat ->
  loop_fuel n b st s = loop_fuel m b st s.
Proof.
  intros Hb. revert m st s. induction n as [|n IH]; intros m st s Hn Hm; [lia|].
  destruct m as [|m]; [lia|]. cbn. unfold m_bind.
  destruct (b st s) as [[l [[[st'|a]|e| |]|]] s'] eqn:E; try done.
  apply Hb in E. rewrite (IH m) by lia. done.
Qed.

(** The loop's equation: one round, then the loop again or the result. *)
Lemma loop_unfold {S A} (b : S -> M op ans (S + A)) st s :
  advances b ->
  loop b st s = m_bind (b st) (fun r => match r with inl st' => loop b st' | inr a => m_ret (Ok a) end) s.
Proof.
  intros Hb. unfold loop at 1. cbn [loop_fuel]. unfold m_bind.
  destruct (b st s) as [[l [[[st'|a]|e| |]|]] s'] eqn:E; try done.
  apply Hb in E. unfold loop. rewrite (loop_fuel_enough b (length s) (Datatypes.S (length s'))); done || lia.
Qed.

Lemma loop_fuel_consumes {S A} (b : S -> M op ans (S + A)) n st :
  (forall st, consumes (b st)) -> consumes (loop_fuel n b st).
Proof.
  intros Hb. revert st. induction n as [|n IH]; intros st s l r s'; [intros [= <- <- <-]; lia|].
  cbn. apply m_bind_consumes; [done|]. intros [st'|a]; [apply IH|apply m_ret_consumes].
Qed.

Lemma loop_consumes {S A} (b : S -> M op ans (S + A)) st :
  (forall st, consumes (b st)) -> consumes (loop b st).
Proof. intros Hb s l r s'. by apply loop_fuel_consumes. Qed.

Lemma finally_consumes {A} (m : M op ans A) d : consumes m -> consumes d -> consumes (finally m d).
Proof.
  intros Hm Hd s l r s'. unfold finally. destruct (m s) as [[l1 [x|]] s1] eqn:E; apply Hm in E;
    [|by intros [= <- <- <-]].
  destruct (d s1) as [[l2 [[u|e| |]|]] s2] eqn:E2; apply Hd in E2; intros [= <- <- <-]; lia.
Qed.

(** Every call that was made satisfies [P]. *)
Definition logs_only {A} (P : op -> bool) (m : M op ans A) : Prop :=
  forall s l r s', m s = (l, r, s') -> Forall (fun e => P (fst e) = true) l.

Lemma logs_ret {A} P (x : res A) : logs_only P (m_ret x).
Proof. intros s l r s' [= <- <- <-]. constructor. Qed.

Lemma logs_bind {A B} P (m : M op ans A) (f : A -> M op ans B) :
  logs_only P m -> (forall a, logs_only P (f a)) -> logs_only P (m_bind m f).
Proof.
  intros Hm Hf s l r s'. unfold m_bind. destruct (m s) as [[l1 [[a|e| |]|]] s1] eqn:E;
    apply Hm in E; try (by intros [= <- <- <-]).
  destruct (f a s1) as [[l2 r2] s2] eqn:E2. intros [= <- <- <-]. apply Hf in E2.
  by apply Forall_app.
Qed.

Lemma logs_call (P : op -> bool) o : P o = true -> logs_only P (call o).
Proof. intros Ho [|a s] l r s'; cbn; intros [= <- <- <-]; by repeat constructor. Qed.

Lemma logs_retry_with (P : op -> bool) again next o :
  (forall o a, P o = true -> P (next o a) = true) -> P o = true -> logs_only P (retry_with again next o).
Proof.
  intros Hn Ho s. revert o Ho. induction s as [|a s IH]; intros o Ho l r s'; cbn; [intros [= <- <- <-]; constructor|].
  destruct (again a).
  - destruct (retry_with again next (next o a) s) as [[l' r'] s''] eqn:E.
    intros H; simplify_eq. apply IH in E; [|auto]. by constructor.
  - intros [= <- <- <-]. by repeat constructor.
Qed.

Lemma logs_retry (P : op -> bool) again o : P o = true -> logs_only P (retry again o).
Proof. by apply logs_retry_with. Qed.

Lemma logs_loop {S A} P (b : S -> M op ans (S + A)) st :
  (forall st, logs_only P (b st)) -> logs_only P (loop b st).
Proof.
  intros Hb s l r s'. unfold loop. generalize (Datatypes.S (length s)). intros n. revert st s l r s'.
  induction n as [|n IH]; intros st s l r s'; [intros [= <- <- <-]; constructor|].
  cbn. apply logs_bind; [done|]. intros [st'|a]; [exact (IH st')|apply logs_ret].
Qed.

(** The log's answers are the part of the script that was consumed. *)
Definition replays {A} (m : M op ans A) : Prop := forall s l r s', m s = (l, r, s') -> s = map snd l ++ s'.

Lemma replays_ret {A} (x : res A) : replays (m_ret x).
Proof. by intros s l r s' [= <- <- <-]. Qed.

Lemma replays_call (o : op) : replays (call (ans := ans) o).
Proof. intros [|a s] l r s'; cbn; by intros [= <- <- <-]. Qed.

Lemma replays_retry_with again next (o : op) : replays (retry_with (ans := ans) again next o).
Proof.
  intros s. revert o. induction s as [|a s IH]; intros o l r s'; cbn; [by intros [= <- <- <-]|].
  destruct (again a); [|by intros [= <- <- <-]].
  destruct (retry_with again next (next o a) s) as [[l' r'] s''] eqn:E. intros H; simplify_eq. cbn.
  by rewrite <- (IH _ _ _ _ E).
Qed.

Lemma replays_retry again (o : op) : replays (retry (ans := ans) again o).
Proof. apply replays_retry_with. Qed.

Lemma replays_bind {A B} (m : M op ans A) (f : A -> M op ans B) :
  replays m -> (forall a, replays (f a)) -> replays (m_bind m f).
Proof.
  intros Hm Hf s l r s'. unfold m_bind. destruct (m s) as [[l1 [[a|e| |]|]] s1] eqn:E;
    apply Hm in E; try (by intros [= <- <- <-]).
  destruct (f a s1) as [[l2 r2] s2] eqn:E2. intros [= <- <- <-]. apply Hf in E2.
  by rewrite map_app, <- app_assoc, <- E2.
Qed.

Lemma replays_loop {S A} (b : S -> M op ans (S + A)) st : (forall st, replays (b st)) -> replays (loop b st).
Proof.
  intros Hb s l r s'. unfold loop. generalize (Datatypes.S (length s)). intros n. revert st s l r s'.
  induction n as [|n IH]; intros st s l r s'; [by intros [= <- <- <-]|].
  cbn. apply replays_bind; [done|]. intros [st'|a]; [exact (IH st')|apply replays_ret].
Qed.

Lemma replays_finally {A} (m : M op ans A) d : replays m -> replays d -> replays (finally m d).
Proof.
  intros Hm Hd s l r s'. unfold finally. destruct (m s) as [[l1 [x|]] s1] eqn:E; apply Hm in E;
    [|by intros [= <- <- <-]].
  destruct (d s1) as [[l2 [[u|e| |]|]] s2] eqn:E2; apply Hd in E2; intros [= <- <- <-];
    by rewrite map_app, <- app_assoc, <- E2.
Qed.

(** A sequence that returns is two parts that return. *)
Lemma m_bind_Ok {A B} (m : M op ans A) (f : A -> M op ans B) s l b s' :
  m_bind m f s = (l, Some (Ok b), s') ->
  exists l1 a s1 l2, m s = (l1, Some (Ok a), s1) /\ f a s1 = (l2, Some (Ok b), s') /\ l = l1 ++ l2.
Proof.
  unfold m_bind. destruct (m s) as [[l1 [[a|e| |]|]] s1] eqn:E; try done.
  destruct (f a s1) as [[l2 r2] s2] eqn:E2. intros [= <- -> <-]. by exists l1, a, s1, l2.
Qed.

Lemma m_bind_step {A B} (m : M op ans A) (f : A -> M op ans B) s l a s' l' r s'' :
  m s = (l, Some (Ok a), s') -> f a s' = (l', r, s'') -> m_bind m f s = (l ++ l', r, s'').
Proof. intros E E2. unfold m_bind. by rewrite E, E2. Qed.

Lemma finally_Ok {A} (m : M op ans A) d s l r s' :
  finally m d s = (l, Some r, s') ->
  exists l1 s1 l2 u, m s = (l1, Some r, s1) /\ d s1 = (l2, Some (Ok u), s') /\ l = l1 ++ l2.
Proof.
  unfold finally. destruct (m s) as [[l1 [x|]] s1] eqn:E; [|done].
  destruct (d s1) as [[l2 [[u|e| |]|]] s2] eqn:E2; try done.
  intros [= <- <- <-]. by exists l1, s1, l2, u.
Qed.

(** The rule for a loop that returns: [P st l a] relates the state a round starts
    in with the calls made from there on and the result. *)
Lemma loop_Ok {S A} (b : S -> M op ans (S + A)) (P : S -> list (op * ans) -> A -> Prop) st s l a s' :
  (forall st s l a s', b st s = (l, Some (Ok (inr a)), s') -> P st l a) ->
  (forall st st' s l l' a s', b st s = (l, Some (Ok (inl st')), s') -> P st' l' a -> P st (l ++ l') a) ->
  loop b st s = (l, Some (Ok a), s') -> P st l a.
Proof.
  intros Hr Hl. unfold loop. generalize (Datatypes.S (length s)). intros n. revert st s l.
  induction n as [|n IH]; intros st s l; [done|]. cbn. intros H.
  apply m_bind_Ok in H as (l1 & [st'|x] & s1 & l2 & E1 & E2 & ->).
  - eauto.
  - unfold m_ret in E2. simplify_eq. rewrite app_nil_r. eauto.
Qed.

End Laws.

(** Decomposes [logs_only] goals along the program. *)
Ltac logs :=
  repeat match goal with
  | |- logs_only _ (if ?b then _ else _) => destruct b
  | |- logs_only _ (match ?x with _ => _ end) => destruct x
  | |- logs_only _ (m_bind _ _) => apply logs_bind; [|intros ?]
  | |- logs_only _ (m_ret _) => apply logs_ret
  | |- logs_only _ (call _) => by apply logs_call
  | |- logs_only _ (retry _ _) => by apply logs_retry
  | |- logs_only _ (retry_with _ _ _) => apply logs_retry_with; [intros [] ? ?; cbn in *; by repeat case_match|done]
  | |- logs_only _ (loop _ _) => apply logs_loop; intros ?
  end.

(** Decomposes [replays] goals along the program. *)
Ltac replay :=
  repeat match goal with
  | |- replays (if ?b then _ else _) => destruct b
  | |- replays (match ?x with _ => _ end) => destruct x
  | |- replays (m_bind _ _) => apply replays_bind; [|intros ?]
  | |- replays (m_ret _) => apply replays_ret
  | |- replays (call _) => apply replays_call
  | |- replays (retry _ _) => apply replays_retry
  | |- replays (retry_with _ _ _) => apply replays_retry_with
  | |- replays (loop _ _) => apply replays_loop; intros ?
  | |- replays (finally _ _) => apply replays_finally
  end.

(** An embedded run is a run of its own: its calls and their answers are the part of
    the log it leaves. *)
Lemma embed_run {op ans op' ans' A} (inj : op -> op') (prj : ans' -> ans) (m : M op ans A) s l r s' :
  replays m -> embed inj prj m s = (l, r, s') ->
  exists l0 s0, m (map prj s) = (l0, r, s0) /\ s = map snd l ++ s' /\
    map (fun e => (fst e, prj (snd e))) l = map (fun e => (inj (fst e), snd e)) l0.
Proof.
  intros Hm. unfold embed. destruct (m (map prj s)) as [[l0 r0] s0] eqn:E. intros H; simplify_eq.
  apply Hm in E. exists l0, s0. split; [done|].
  assert (length l0 <= length s)%nat as Hl.
  { rewrite <- (length_map prj s), E, length_app, length_map. lia. }
  assert (map prj (take (length l0) s) = map snd l0) as Ht.
  { rewrite <- firstn_map, E, <- (length_map snd l0). apply take_app_length. }
  clear E. revert s Hl Ht. induction l0 as [|[o a] l0 IH]; intros s Hl Ht; cbn in *; [by rewrite drop_0|].
  destruct s as [|x s]; cbn in *; [lia|]. simplify_eq.
  destruct (IH s ltac:(lia) ltac:(done)) as [H1 H2]. split; [by f_equal|]. cbn. by f_equal.
Qed.

(** Splits a run that returned into its calls. *)
Ltac inv_run :=
  repeat match goal with
  | H : m_bind _ _ _ = (_, Some (Ok _), _) |- _ =>
      apply m_bind_Ok in H as (? & ? & ? & ? & ? & H & ->)
  | H : m_ret _ _ = (_, Some _, _) |- _ => unfold m_ret in H; simplify_eq
  | H : call _ ?s = (_, Some _, _) |- _ => destruct s; [done|]; cbn in H; simplify_eq
  | H : (if ?b then _ else _) ?s = (_, Some (Ok _), _) |- _ => destruct b eqn:?; try done
  | H : (let '(_, _) := ?p in _) ?s = (_, Some (Ok _), _) |- _ => destruct p eqn:?
  end.

Create HintDb effects.
#[export] Hint Resolve call_consumes call_progresses retry_consumes retry_progresses m_ret_consumes : effects.
#[export] Hint Resolve m_bind_consumes loop_consumes finally_consumes : effects.
