(* ===== verification/HttpSocket.v ===== *)
(** * The socket of the HTTP client

    [Socket] of [Request.hpp], the branch of the preprocessor that the Linux build
    takes.  Every system call is an operation of the log; its answer carries the
    return value, [errno], the integer written through a pointer ([getsockopt]; for
    [select], what it left of the timeout, in microseconds) and the bytes written to
    a buffer ([recv]). *)

From S2P Require Import Prelude.
From S2P Require Import CppString.
From S2P Require Import HttpSyntax.
From S2P Require Import Effects.
Local Open Scope eff_scope.

Inductive SelectType := read | write.

Inductive sysop :=
| SysNow
| SysGetaddrinfo (node service : str) (family : Z)
| SysFreeaddrinfo
| SysSocket (family : Z)
| SysGetFlags (fd : Z)
| SysSetFlags (fd flags : Z)
| SysConnect (fd : Z) (address : str)
| SysGetSockError (fd : Z)
| SysSelect (fd : Z) (type : SelectType) (timeout : option (Z * Z))
| SysSend (fd : Z) (buffer : str)
| SysRecv (fd length : Z)
| SysClose (fd : Z).

Record answer := mkAns { a_ret : Z; a_errno : Z; a_out : Z; a_data : str }.

Abbreviation IO := (M sysop answer).

(** Linux constants. *)
Definition AF_INET : Z := 2.
Definition AF_INET6 : Z := 10.
Definition EINTR : Z := 4.
Definition EINPROGRESS : Z := 115.
Definition O_NONBLOCK : Z := 2048.

Definition getAddressFamily (p : InternetProtocol) : Z :=
  match p with v4 => AF_INET | v6 => AF_INET6 end.

(** [static constexpr Type invalid = -1]. *)
Definition invalid : Z := -1.

(** [while (result == -1 && errno == EINTR) result = call]. *)
Definition interrupted (a : answer) : bool := (a_ret a =? -1) && (a_errno a =? EINTR).
Definition sys_retry (o : sysop) : IO answer := retry interrupted o.

Definition system_error {A} (err : Z) (msg : string) : IO A := m_ret (Throw (SystemError err (lit msg))).

(** [void close() noexcept]. *)
Definition close (fd : Z) : IO answer := call (SysClose fd).

(** [errno] as the next statement reads it: a call that fails sets it. *)
Definition errno_after (prev : Z) (a : answer) : Z := if a_ret a =? -1 then a_errno a else prev.

(** [Socket(InternetProtocol)]: the descriptor, made non-blocking. *)
Definition Socket_new (p : InternetProtocol) : IO Z :=
  let* a := call (SysSocket (getAddressFamily p)) in
  let endpoint := a_ret a in
  if endpoint =? invalid then system_error (a_errno a) "Failed to create socket" else
  let* f := call (SysGetFlags endpoint) in
  if a_ret f =? -1 then
    let* c := close endpoint in
    system_error (errno_after (a_errno f) c) "Failed to get socket flags"
  else
  let* g := call (SysSetFlags endpoint (Z.lor (a_ret f) O_NONBLOCK)) in
  if a_ret g =? -1 then
    let* c := close endpoint in
    system_error (errno_after (a_errno g) c) "Failed to set socket flags"
  else m_ret (Ok endpoint).

(** [~Socket]. *)
Definition Socket_delete (endpoint : Z) : IO unit :=
  if endpoint =? invalid then m_ret (Ok tt)
  else let* _ := close endpoint in m_ret (Ok tt).

(** [Socket(Socket&&)]: the new owner's descriptor and the old object's. *)
Definition Socket_move (other : Z) : Z * Z := (other, invalid).

(** [operator=(Socket&&)] on two distinct objects. *)
Definition Socket_assign (this other : Z) : IO (Z * Z) :=
  let* _ := (if this =? invalid then m_ret (Ok (mkAns 0 0 0 [])) else close this) in
  m_ret (Ok (other, invalid)).

(** [timeval\{timeout / 1000, (timeout % 1000) * 1000\}], passed when [timeout >= 0]. *)
Definition selectTimeout (timeout : Z) : option (Z * Z) :=
  if 0 <=? timeout then Some (Z.quot timeout 1000, Z.rem timeout 1000 * 1000) else None.

(** The bits of an [fd_set]; [FD_SET] on another descriptor is undefined. *)
Definition FD_SETSIZE : Z := 1024.

(** Linux's [select] writes the time that is left through its timeout argument, so an
    interrupted call goes on with that; the descriptor set it leaves alone. *)
Definition leftTimeout (o : sysop) (a : answer) : sysop :=
  match o with
  | SysSelect fd type (Some _) => SysSelect fd type (Some (a_out a / 1000000, a_out a mod 1000000))
  | _ => o
  end.

Definition Socket_select (endpoint : Z) (type : SelectType) (timeout : Z) : IO unit :=
  if (0 <=? endpoint) && (endpoint <? FD_SETSIZE) then
    let* a := retry_with interrupted leftTimeout (SysSelect endpoint type (selectTimeout timeout)) in
    if a_ret a =? -1 then system_error (a_errno a) "Failed to select socket"
    else if a_ret a =? 0 then m_ret (Throw (ResponseError (lit "Request timed out")))
    else m_ret (Ok tt)
  else m_ret Undef.

Definition Socket_connect (endpoint : Z) (address : str) (timeout : Z) : IO unit :=
  let* a := sys_retry (SysConnect endpoint address) in
  if a_ret a =? -1 then
    if a_errno a =? EINPROGRESS then
      let* _ := Socket_select endpoint write timeout in
      let* o := call (SysGetSockError endpoint) in
      if a_ret o =? -1 then system_error (a_errno o) "Failed to get socket option"
      else if negb (a_out o =? 0) then system_error (a_out o) "Failed to connect"
      else m_ret (Ok tt)
    else system_error (a_errno a) "Failed to connect"
  else m_ret (Ok tt).

(** Returns [static_cast<std::size_t>(result)]. *)
Definition Socket_send (endpoint : Z) (buffer : str) (timeout : Z) : IO Z :=
  let* _ := Socket_select endpoint write timeout in
  let* a := sys_retry (SysSend endpoint buffer) in
  if a_ret a =? -1 then system_error (a_errno a) "Failed to send data"
  else m_ret (Ok (u64 (a_ret a))).

(** Returns the bytes read: the first [result] of the buffer. *)
Definition Socket_recv (endpoint length timeout : Z) : IO str :=
  let* _ := Socket_select endpoint read timeout in
  let* a := sys_retry (SysRecv endpoint length) in
  if a_ret a =? -1 then system_error (a_errno a) "Failed to read data"
  else m_ret (Ok (take (Z.to_nat (a_ret a)) (a_data a))).

(** ** Progress *)
Ltac eff :=
  repeat match goal with
  | |- consumes (if ?b then _ else _) => destruct b
  | |- consumes (m_bind _ _) => apply m_bind_consumes; [|intros ?]
  | |- consumes (system_error _ _) => apply m_ret_consumes
  | |- consumes (m_ret _) => apply m_ret_consumes
  | |- consumes (call _) => apply call_consumes
  | |- consumes (close _) => apply call_consumes
  | |- consumes (sys_retry _) => apply retry_consumes
  | |- consumes (retry_with _ _ _) => apply retry_with_consumes
  end.

Lemma Socket_select_consumes fd t tm : consumes (Socket_select fd t tm).
Proof. unfold Socket_select. eff. Qed.
Lemma Socket_select_progresses fd t tm : progresses (Socket_select fd t tm).
Proof.
  unfold Socket_select. destruct (_ && _); [|by intros ? ? ? ?].
  apply m_bind_progresses; [apply retry_with_progresses|intros ?; eff].
Qed.
Lemma Socket_send_consumes fd b tm : consumes (Socket_send fd b tm).
Proof. apply m_bind_consumes; [apply Socket_select_consumes|intros ?; eff]. Qed.
Lemma Socket_send_progresses fd b tm : progresses (Socket_send fd b tm).
Proof. apply m_bind_progresses; [apply Socket_select_progresses|intros ?; eff]. Qed.
Lemma Socket_recv_consumes fd n tm : consumes (Socket_recv fd n tm).
Proof. apply m_bind_consumes; [apply Socket_select_consumes|intros ?; eff]. Qed.
Lemma Socket_recv_progresses fd n tm : progresses (Socket_recv fd n tm).
Proof. apply m_bind_progresses; [apply Socket_select_progresses|intros ?; eff]. Qed.
Lemma Socket_connect_consumes fd a tm : consumes (Socket_connect fd a tm).
Proof.
  unfold Socket_connect. eff; try apply Socket_select_consumes.
Qed.
Lemma Socket_new_consumes p : consumes (Socket_new p).
Proof. unfold Socket_new. eff. Qed.

#[export] Hint Resolve Socket_select_consumes Socket_send_consumes Socket_send_progresses
  Socket_recv_consumes Socket_recv_progresses Socket_connect_consumes Socket_new_consumes : effects.

(** ** Who closes what *)

(** The descriptors a log received from [socket], and those it closed. *)
Definition opened (l : list (sysop * answer)) : list Z :=
  omap (fun e => match e with
                 | (SysSocket _, a) => if a_ret a =? invalid then None else Some (a_ret a)
                 | _ => None
                 end) l.
Definition closed (l : list (sysop * answer)) : list Z :=
  omap (fun e => match e with (SysClose fd, _) => Some fd | _ => None end) l.

Lemma opened_app a b : opened (a ++ b) = opened a ++ opened b.
Proof. apply omap_app. Qed.
Lemma closed_app a b : closed (a ++ b) = closed a ++ closed b.
Proof. apply omap_app. Qed.

(** Calls that neither open nor close a descriptor. *)
Definition quiet_op (o : sysop) : bool :=
  match o with SysClose _ | SysSocket _ => false | _ => true end.
Abbreviation quiet m := (logs_only quiet_op m).

Lemma quiet_log l : Forall (fun e => quiet_op (fst e) = true) l -> opened l = [] /\ closed l = [].
Proof.
  induction 1 as [|[o a] l Ho Hl [IH1 IH2]]; [done|]. by destruct o.
Qed.

Lemma Socket_select_quiet fd t tm : quiet (Socket_select fd t tm).
Proof. unfold Socket_select, sys_retry, system_error. logs. Qed.
Lemma Socket_connect_quiet fd a tm : quiet (Socket_connect fd a tm).
Proof. unfold Socket_connect, sys_retry, system_error. logs; apply Socket_select_quiet. Qed.
Lemma Socket_send_quiet fd b tm : quiet (Socket_send fd b tm).
Proof. unfold Socket_send, sys_retry, system_error. logs; apply Socket_select_quiet. Qed.
Lemma Socket_recv_quiet fd n tm : quiet (Socket_recv fd n tm).
Proof. unfold Socket_recv, sys_retry, system_error. logs; apply Socket_select_quiet. Qed.

#[export] Hint Resolve Socket_connect_quiet Socket_send_quiet Socket_recv_quiet : effects.

(** The constructor leaves a descriptor open exactly when it returns one. *)
Lemma Socket_new_log p s l r s' :
  Socket_new p s = (l, Some r, s') ->
  match r with
  | Ok fd => opened l = [fd] /\ closed l = []
  | _ => opened l = closed l
  end.
Proof.
  unfold Socket_new, m_bind, call. destruct s as [|a s]; [done|].
  destruct (a_ret a =? invalid) eqn:Ha.
  { intros [= <- <- <-]. cbn. by rewrite Ha. }
  destruct s as [|f s]; [done|].
  destruct (a_ret f =? -1).
  { unfold close, call. destruct s as [|c s]; [done|]. intros [= <- <- <-]. cbn. by rewrite Ha. }
  destruct s as [|g s]; [done|].
  destruct (a_ret g =? -1).
  { unfold close, call. destruct s as [|c s]; [done|]. intros [= <- <- <-]. cbn. by rewrite Ha. }
  intros [= <- <- <-]. cbn. by rewrite Ha.
Qed.

(** A descriptor that is not the invalid one is closed by the destructor. *)
Lemma Socket_delete_log fd s l r s' :
  fd <> invalid -> Socket_delete fd s = (l, Some r, s') -> r = Ok tt /\ opened l = [] /\ closed l = [fd].
Proof.
  intros Hfd. unfold Socket_delete. rewrite (proj2 (Z.eqb_neq _ _) Hfd).
  unfold m_bind, close, call. destruct s; [done|]. by intros [= <- <- <-].
Qed.

Lemma Socket_new_valid p s l fd s' : Socket_new p s = (l, Some (Ok fd), s') -> fd <> invalid.
Proof.
  unfold Socket_new, m_bind, call. destruct s as [|a s]; [done|].
  destruct (a_ret a =? invalid) eqn:Ha; [done|]. bool_prop.
  destruct s as [|f s]; [done|]. destruct (a_ret f =? -1); [by destruct s|].
  destruct s as [|g s]; [done|]. destruct (a_ret g =? -1); [by destruct s|].
  by intros [= <- <- <-].
Qed.
