(* ===== verification/HttpRequest.v ===== *)
(** * Sending a request and reading the response

    [Request::send] of [Request.hpp]: the response state of its locals, the header
    loop, the chunked-body loop, the step taken for every block of bytes [recv]
    delivers, and the whole call over the socket. *)

From Equations Require Import Equations.
From Equations.Prop Require Import Logic.
From S2P Require Import Prelude.
From S2P Require Import CppString.
From S2P Require Import HttpSyntax.
From S2P Require Import HttpUri.
From S2P Require Import HttpParse.
From S2P Require Import HttpEncode.
From S2P Require Import Effects.
From S2P Require Import HttpSocket.

(** ** State *)

(** The locals of the receive loop. *)
Record RecvState := mkRecv {
  response : Response;
  responseData : str;
  parsingBody : bool;
  contentLengthReceived : bool;
  contentLength : Z;
  chunkedResponse : bool;
  expectedChunkSize : Z;
  removeCrlfAfterChunk : bool
}.

Definition recv_init : RecvState := mkRecv (mkResponse None [] []) [] false false 0 false 0 false.

(** A step of the loop waits for more bytes, or the call returns. *)
Inductive progress (A : Type) : Type := More (a : A) | Done (r : Response).
Arguments More {A} a.
Arguments Done {A} r.

(** ** The header loop *)

(** [vector<uint8_t>::max_size()]; [reserve] of more throws [length_error]. *)
Definition max_size : Z := 2 ^ 63 - 1.

Definition push_field (r : Response) (f : HeaderField) : Response :=
  mkResponse (status r) (headerFields r ++ [f]) (body r).

(** What the loop does with one field. *)
Definition applyField (st : RecvState) (f : HeaderField) : res RecvState :=
  let '(fieldName, fieldValue) := f in
  let st' := mkRecv (push_field (response st) f) (responseData st) (parsingBody st) in
  if bool_decide (fieldName = lit "transfer-encoding") then
    if bool_decide (fieldValue = lit "chunked")
    then Ok (st' (contentLengthReceived st) (contentLength st) true
                 (expectedChunkSize st) (removeCrlfAfterChunk st))
    else Throw (ResponseError (lit "Unsupported transfer encoding: " ++ fieldValue))
  else if bool_decide (fieldName = lit "content-length") then
    n ← stringToUint 64 fieldValue;
    if max_size <? n then Throw (LengthError (lit "vector::reserve"))
    else Ok (st' true n (chunkedResponse st) (expectedChunkSize st) (removeCrlfAfterChunk st))
  else Ok (st' (contentLengthReceived st) (contentLength st) (chunkedResponse st)
               (expectedChunkSize st) (removeCrlfAfterChunk st)).

(** [for (;;) \{ parseHeaderField ...; if (i == headerEndIterator) break; \}]. *)
Equations? readFields (st : RecvState) (l : str) : res RecvState by wf (length l) lt :=
readFields st l with inspect (parseHeaderField l) => {
  | exist _ (Ok (i, f)) H =>
      match applyField st f with
      | Ok st' => if bool_decide (i = []) then Ok st' else readFields st' i
      | Throw e => Throw e
      | Crash => Crash
      | Undef => Undef
      end
  | exist _ (Throw e) H => Throw e
  | exist _ Crash H => Crash
  | exist _ Undef H => Undef }.
Proof.
  apply parseHeaderField_progress in H as (u & -> & Hu).
  rewrite length_app. destruct u; [done|]. cbn. lia.
Defined.

(** ** The chunked body *)

(** The variables of the chunk loop: [responseData], [response.body],
    [expectedChunkSize] and [removeCrlfAfterChunk]. *)
Record Chunks := mkChunks { c_data : str; c_body : str; c_expected : Z; c_crlf : bool }.

Inductive chunk_exit := CNext (c : Chunks) | CBreak (c : Chunks) | CReturn (c : Chunks).

(** Reading the next chunk's size line. *)
Definition chunkSizeLine (c : Chunks) : res chunk_exit :=
  match search CRLF (c_data c) with
  | None => Ok (CBreak c)
  | Some i =>
      n ← hexStringToUint 64 (take i (c_data c));
      let c' := mkChunks (drop (i + 2) (c_data c)) (c_body c) n (c_crlf c) in
      Ok (if n =? 0 then CReturn c' else CNext c')
  end.

(** One round of the chunk loop. *)
Definition chunkStep (c : Chunks) : res chunk_exit :=
  if 0 <? c_expected c then
    let toWrite := Z.to_nat (Z.min (c_expected c) (size (c_data c))) in
    let expected := c_expected c - Z.of_nat toWrite in
    let c' := mkChunks (drop toWrite (c_data c)) (c_body c ++ take toWrite (c_data c)) expected
                       (if expected =? 0 then true else c_crlf c) in
    Ok (if bool_decide (c_data c' = []) then CBreak c' else CNext c')
  else if c_crlf c then
    if size (c_data c) <? 2 then Ok (CBreak c)
    else if negb (starts_with CRLF (c_data c)) then Throw (ResponseError (lit "Invalid chunk"))
    else chunkSizeLine (mkChunks (drop 2 (c_data c)) (c_body c) (c_expected c) false)
  else chunkSizeLine c.

Lemma chunkSizeLine_length c c' :
  chunkSizeLine c = Ok (CNext c') -> (length (c_data c') < length (c_data c))%nat.
Proof.
  unfold chunkSizeLine. destruct (search CRLF (c_data c)) as [i|] eqn:E; [|done].
  intros H. inv_res. case_match; simplify_eq. cbn [c_data].
  apply search_Some in E as (u & v & Hs & <-). rewrite Hs, length_drop, !length_app. cbn. lia.
Qed.

Lemma chunkStep_length c c' :
  chunkStep c = Ok (CNext c') -> (length (c_data c') < length (c_data c))%nat.
Proof.
  unfold chunkStep. destruct (0 <? c_expected c) eqn:He; bool_prop.
  - intros H. inv_res. case_bool_decide as Hd; [done|]. simplify_eq. cbn [c_data] in *.
    rewrite length_drop. unfold size in *.
    destruct (c_data c) as [|x d]; [by rewrite drop_nil in Hd|]. cbn [length] in *. lia.
  - destruct (c_crlf c); [|apply chunkSizeLine_length].
    destruct (size (c_data c) <? 2) eqn:H2; [done|].
    destruct (negb _); [done|]. intros H%chunkSizeLine_length. cbn [c_data] in H.
    rewrite length_drop in H. lia.
Qed.

(** The loop, until it waits for more bytes or has seen the last chunk. *)
Equations? chunkLoop (c : Chunks) : res (bool * Chunks) by wf (length (c_data c)) lt :=
chunkLoop c with inspect (chunkStep c) => {
  | exist _ (Ok (CNext c')) H => chunkLoop c'
  | exist _ (Ok (CBreak c')) H => Ok (false, c')
  | exist _ (Ok (CReturn c')) H => Ok (true, c')
  | exist _ (Throw e) H => Throw e
  | exist _ Crash H => Crash
  | exist _ Undef H => Undef }.
Proof. by apply chunkStep_length. Defined.

(** ** One block of received bytes *)
Definition set_body (r : Response) (b : str) : Response := mkResponse (status r) (headerFields r) b.

Definition to_chunks (st : RecvState) : Chunks :=
  mkChunks (responseData st) (body (response st)) (expectedChunkSize st) (removeCrlfAfterChunk st).

Definition of_chunks (st : RecvState) (c : Chunks) : RecvState :=
  mkRecv (set_body (response st) (c_body c)) (c_data c) (parsingBody st) (contentLengthReceived st)
         (contentLength st) (chunkedResponse st) (c_expected c) (c_crlf c).

(** [if (parsingBody) ...]. *)
Definition handleBody (st : RecvState) : res (progress RecvState) :=
  if chunkedResponse st then
    '(finished, c) ← chunkLoop (to_chunks st);
    let st' := of_chunks st c in
    Ok (if (finished : bool) then Done (response st') else More st')
  else
    let r := set_body (response st) (body (response st) ++ responseData st) in
    let st' := mkRecv r [] (parsingBody st) (contentLengthReceived st) (contentLength st)
                 (chunkedResponse st) (expectedChunkSize st) (removeCrlfAfterChunk st) in
    Ok (if contentLengthReceived st && (contentLength st <=? size (body r)) then Done r else More st').

Definition headerEnd : str := CRLF ++ CRLF.

Definition set_status (st : RecvState) (s : Status) : RecvState :=
  mkRecv (mkResponse (Some s) (headerFields (response st)) (body (response st))) (responseData st)
    (parsingBody st) (contentLengthReceived st) (contentLength st) (chunkedResponse st)
    (expectedChunkSize st) (removeCrlfAfterChunk st).

Definition start_body (st : RecvState) (data : str) : RecvState :=
  mkRecv (response st) data true (contentLengthReceived st) (contentLength st) (chunkedResponse st)
    (expectedChunkSize st) (removeCrlfAfterChunk st).

Definition append_data (st : RecvState) (piece : str) : RecvState :=
  mkRecv (response st) (responseData st ++ piece) (parsingBody st) (contentLengthReceived st)
    (contentLength st) (chunkedResponse st) (expectedChunkSize st) (removeCrlfAfterChunk st).

(** One round of [for (;;)] for a block of [size > 0] bytes. *)
Definition onData (st : RecvState) (piece : str) : res (progress RecvState) :=
  let st := append_data st piece in
  if parsingBody st then handleBody st
  else
    match search headerEnd (responseData st) with
    | None => Ok (Done (response st))
    | Some pos =>
        '(i, s) ← parseStatusLine (take (pos + 2) (responseData st));
        st' ← readFields (set_status st s) i;
        handleBody (start_body st' (drop (pos + 4) (responseData st)))
    end.

(** A round: [recv] returned [piece], and no byte means disconnected. *)
Definition onRecv (st : RecvState) (piece : str) : res (progress RecvState) :=
  match piece with [] => Ok (Done (response st)) | _ => onData st piece end.

(** Goes on with [k] when more bytes are needed, and ends the call otherwise. *)
Definition after (k : RecvState -> option (res Response)) (r : res (progress RecvState))
  : option (res Response) :=
  match r with
  | Ok (More st') => k st'
  | Ok (Done r) => Some (Ok r)
  | Throw e => Some (Throw e)
  | Crash => Some Crash
  | Undef => Some Undef
  end.

(** The blocks as they come; [None] while the next one is awaited. *)
Fixpoint receive (st : RecvState) (pieces : list str) : option (res Response) :=
  match pieces with
  | [] => None
  | p :: ps => after (fun st' => receive st' ps) (onRecv st p)
  end.

(** ** The loops' equations *)
Lemma readFields_eqn st l :
  readFields st l =
  match parseHeaderField l with
  | Ok (i, f) => st' ← applyField st f; if bool_decide (i = []) then Ok st' else readFields st' i
  | Throw e => Throw e
  | Crash => Crash
  | Undef => Undef
  end.
Proof.
  rewrite readFields_equation_1.
  destruct (inspect (parseHeaderField l)) as [[[i f]|e| |] H]; cbn; by rewrite H.
Qed.

Lemma chunkLoop_eqn c :
  chunkLoop c =
  match chunkStep c with
  | Ok (CNext c') => chunkLoop c'
  | Ok (CBreak c') => Ok (false, c')
  | Ok (CReturn c') => Ok (true, c')
  | Throw e => Throw e
  | Crash => Crash
  | Undef => Undef
  end.
Proof.
  rewrite chunkLoop_equation_1.
  destruct (inspect (chunkStep c)) as [[[c'|c'|c']|e| |] H]; cbn; by rewrite H.
Qed.

(** ** The chunk loop does not depend on how the bytes are cut into blocks *)
Definition add_data (c : Chunks) (b : str) : Chunks :=
  mkChunks (c_data c ++ b) (c_body c) (c_expected c) (c_crlf c).

Lemma starts_with_length p s b :
  (length p <= length s)%nat -> starts_with p (s ++ b) = starts_with p s.
Proof.
  revert s; induction p as [|x p IH]; intros s Hl; [done|].
  destruct s as [|y s]; cbn in *; [lia|]. f_equal. apply IH. lia.
Qed.

Lemma search_app p s b i : search p s = Some i -> search p (s ++ b) = Some i.
Proof.
  revert i; induction s as [|x s IH]; intros i H.
  - pose proof (search_Some _ _ _ H) as (u & v & Hs & <-).
    destruct u, p; try done. by destruct b.
  - pose proof (search_Some _ _ _ H) as (u & v & Hs & Hu).
    assert (Hlen : (length p <= length (x :: s))%nat) by (rewrite Hs, !length_app; lia).
    cbn [search] in H. change ((x :: s) ++ b) with (x :: (s ++ b)). cbn [search].
    change (x :: (s ++ b)) with ((x :: s) ++ b). rewrite starts_with_length by done.
    destruct (starts_with p (x :: s)); [done|].
    destruct (search p s) as [j|]; [|done]. by rewrite (IH j).
Qed.

Lemma chunkSizeLine_add c b :
  match chunkSizeLine c with
  | Ok (CNext c') => chunkSizeLine (add_data c b) = Ok (CNext (add_data c' b))
  | Ok (CReturn c') => chunkSizeLine (add_data c b) = Ok (CReturn (add_data c' b))
  | Ok (CBreak c') => c' = c
  | Throw e => chunkSizeLine (add_data c b) = Throw e
  | Crash => chunkSizeLine (add_data c b) = Crash
  | Undef => chunkSizeLine (add_data c b) = Undef
  end.
Proof.
  unfold chunkSizeLine. destruct (search CRLF (c_data c)) as [i|] eqn:E; [|done].
  cbn [c_data add_data]. rewrite (search_app _ _ b _ E).
  apply search_Some in E as (u & v & Hs & <-). rewrite Hs, <- !app_assoc.
  rewrite !take_app_length.
  destruct (hexStringToUint 64 u) as [n|e| |]; cbn [mbind res_bind]; try done.
  rewrite <- !drop_drop, !drop_app_length. destruct (n =? 0); reflexivity.
Qed.

Lemma chunkStep_add c b :
  0 <= c_expected c ->
  match chunkStep c with
  | Ok (CNext c') => chunkStep (add_data c b) = Ok (CNext (add_data c' b))
  | Ok (CReturn c') => chunkStep (add_data c b) = Ok (CReturn (add_data c' b))
  | Ok (CBreak c') => True
  | Throw e => chunkStep (add_data c b) = Throw e
  | Crash => chunkStep (add_data c b) = Crash
  | Undef => chunkStep (add_data c b) = Undef
  end.
Proof.
  intros He. unfold chunkStep. cbn [c_expected c_data c_crlf c_body add_data].
  destruct (0 <? c_expected c) eqn:H0; bool_prop.
  - case_bool_decide as Hd; [done|]. cbn [c_data] in Hd.
    assert (Hlt : c_expected c <= size (c_data c)).
    { unfold size in *. destruct (decide (c_expected c <= Z.of_nat (length (c_data c)))); [done|].
      rewrite Z.min_r, Nat2Z.id, drop_all in Hd by lia. done. }
    assert (Hsz : size (c_data c ++ b) = size (c_data c) + size b)
      by (unfold size; rewrite length_app; lia).
    assert (0 <= size b) by (unfold size; lia).
    rewrite Hsz. rewrite !Z.min_l in * by lia.
    assert (Hn : (Z.to_nat (c_expected c) <= length (c_data c))%nat) by (unfold size in *; lia).
    rewrite drop_app_le, take_app_le by done.
    rewrite bool_decide_eq_false_2; [done|]. cbn [c_data]. by intros [? ?]%app_eq_nil.
  - destruct (c_crlf c) eqn:Hc.
    + destruct (size (c_data c) <? 2) eqn:H2; [done|]. bool_prop.
      assert (Hl : (2 <= length (c_data c))%nat) by (unfold size in *; lia).
      rewrite (proj2 (Z.ltb_ge (size (c_data c ++ b)) 2))
        by (unfold size in *; rewrite length_app; lia).
      rewrite starts_with_length by done. destruct (negb _); [done|].
      rewrite drop_app_le by done.
      pose proof (chunkSizeLine_add (mkChunks (drop 2 (c_data c)) (c_body c) (c_expected c) false) b) as H.
      destruct (chunkSizeLine _) as [[]|e| |]; done.
    + pose proof (chunkSizeLine_add c b) as H.
      destruct (chunkSizeLine c) as [[]|e| |]; done.
Qed.

(** Waiting with no byte left changes nothing. *)
Lemma chunkStep_wait c :
  0 <= c_expected c -> c_data c = [] ->
  (c_expected c = 0 -> c_crlf c = true) -> chunkStep c = Ok (CBreak c).
Proof.
  intros He Hd Hcr. destruct c as [d bo ex cr]; cbn in *; subst d.
  unfold chunkStep; cbn [c_expected c_data c_crlf c_body].
  destruct (0 <? ex) eqn:H0; bool_prop.
  - change (size []) with 0. rewrite Z.min_r by lia. cbn.
    rewrite app_nil_r, Z.sub_0_r. rewrite (proj2 (Z.eqb_neq ex 0)) by lia. done.
  - rewrite Hcr by lia. done.
Qed.

(** The round that uses up the data of an unfinished chunk. *)
Lemma chunkStep_drain c :
  0 < c_expected c -> size (c_data c) <= c_expected c ->
  chunkStep c = Ok (CBreak (mkChunks [] (c_body c ++ c_data c) (c_expected c - size (c_data c))
    (if c_expected c - size (c_data c) =? 0 then true else c_crlf c))).
Proof.
  intros H0 Hle. unfold chunkStep. rewrite (proj2 (Z.ltb_lt _ _) H0).
  rewrite Z.min_r by done. unfold size. rewrite Nat2Z.id, drop_all, firstn_all.
  cbn [c_data]. by rewrite bool_decide_eq_true_2.
Qed.

Lemma chunkLoop_drain c b :
  0 < c_expected c -> size (c_data c) <= c_expected c ->
  chunkLoop (add_data c b) =
  chunkLoop (add_data (mkChunks [] (c_body c ++ c_data c) (c_expected c - size (c_data c))
    (if c_expected c - size (c_data c) =? 0 then true else c_crlf c)) b).
Proof.
  intros H0 Hle. set (c' := mkChunks [] _ _ _).
  destruct (decide (b = [])) as [->|Hb].
  { change (add_data c' []) with c'.
    replace (add_data c []) with c by (unfold add_data; rewrite app_nil_r; by destruct c).
    rewrite (chunkLoop_eqn c), chunkStep_drain by done. fold c'.
    rewrite (chunkLoop_eqn c'), chunkStep_wait; [done|cbn; lia|done|].
    cbn. intros ->. done. }
  destruct (decide (size (c_data c) = c_expected c)) as [Heq|Hne].
  - rewrite (chunkLoop_eqn (add_data c b)). unfold chunkStep at 1. cbn [add_data c_expected c_data c_body c_crlf].
    rewrite (proj2 (Z.ltb_lt _ _) H0), Z.min_l by (unfold size in *; rewrite length_app; lia).
    rewrite <- Heq. unfold size. rewrite Nat2Z.id, drop_app_length, take_app_length, Z.sub_diag.
    cbn [c_data]. rewrite bool_decide_eq_false_2 by done. subst c'. unfold add_data. cbn.
    rewrite <- Heq. unfold size. by rewrite Z.sub_diag.
  - rewrite (chunkLoop_eqn (add_data c b)), (chunkLoop_eqn (add_data c' b)).
    assert (chunkStep (add_data c b) = chunkStep (add_data c' b)) as ->; [|done].
    unfold chunkStep, c', add_data. cbn [c_expected c_data c_body c_crlf app].
    assert (Hp : 0 < c_expected c - size (c_data c)) by lia.
    rewrite (proj2 (Z.ltb_lt _ _) H0), (proj2 (Z.ltb_lt _ _) Hp),
      (proj2 (Z.eqb_neq (c_expected c - size (c_data c)) 0)) by lia.
    set (k := Z.to_nat (Z.min (c_expected c - size (c_data c)) (size b))).
    assert (Hk : Z.to_nat (Z.min (c_expected c) (size (c_data c ++ b))) = (length (c_data c) + k)%nat).
    { unfold k, size in *. rewrite length_app. lia. }
    rewrite Hk, drop_app_add, take_app_add, <- app_assoc.
    rewrite Nat2Z.inj_add. unfold size. by rewrite Z.sub_add_distr.
Qed.

(** A round that only waits can be made with the bytes that come next. *)
Lemma chunkLoop_break c c' b :
  0 <= c_expected c -> chunkStep c = Ok (CBreak c') ->
  chunkLoop (add_data c b) = chunkLoop (add_data c' b).
Proof.
  intros He Hs. destruct (decide (c_expected c = 0)) as [H0|H0].
  - unfold chunkStep in Hs. rewrite (proj2 (Z.ltb_ge 0 (c_expected c))) in Hs by lia.
    destruct (c_crlf c) eqn:Hc.
    + destruct (size (c_data c) <? 2) eqn:H2; [by simplify_eq|]. bool_prop.
      destruct (negb _) eqn:Hn; [done|]. bool_prop.
      set (c2 := mkChunks (drop 2 (c_data c)) (c_body c) (c_expected c) false) in *.
      pose proof (chunkSizeLine_add c2 b) as Hadd. rewrite Hs in Hadd. subst c'.
      rewrite (chunkLoop_eqn (add_data c b)), (chunkLoop_eqn (add_data c2 b)).
      assert (chunkStep (add_data c b) = chunkStep (add_data c2 b)) as ->; [|done].
      unfold chunkStep, c2, add_data. cbn [c_expected c_data c_body c_crlf]. rewrite H0, Hc.
      change (0 <? 0) with false. cbv iota.
      assert (Hl : (2 <= length (c_data c))%nat) by (unfold size in *; lia).
      rewrite (proj2 (Z.ltb_ge _ _)) by (unfold size in *; rewrite length_app; lia).
      rewrite starts_with_length, Hn, drop_app_le by done. reflexivity.
    + pose proof (chunkSizeLine_add c b) as Hadd. rewrite Hs in Hadd. by subst c'.
  - assert (Hpos : 0 < c_expected c) by lia.
    assert (Hle : size (c_data c) <= c_expected c).
    { unfold chunkStep in Hs. rewrite (proj2 (Z.ltb_lt _ _) Hpos) in Hs.
      revert Hs. case_bool_decide as Hd; [|done]. intros _. cbn [c_data] in Hd.
      apply (f_equal length) in Hd. rewrite length_drop in Hd. unfold size in *. cbn in Hd. lia. }
    rewrite chunkStep_drain in Hs by done. injection Hs as <-. by apply chunkLoop_drain.
Qed.

Lemma hexDigitToUint_nonneg w c n : 0 <= w -> hexDigitToUint w c = Ok n -> 0 <= n.
Proof.
  intros Hw. unfold hexDigitToUint. repeat case_match; intros [= <-]; by apply wrapU_range.
Qed.

Lemma hexStringToUint_nonneg w l n : 0 <= w -> hexStringToUint w l = Ok n -> 0 <= n.
Proof.
  intros Hw. unfold hexStringToUint. assert (0 <= 0) as H0 by done. revert H0.
  generalize 0 at 2 3 as r. induction l as [|c l IH]; intros r Hr; cbn; [naive_solver|].
  intros H. inv_res. eapply IH; [|exact H]. by apply wrapU_range.
Qed.

Lemma chunkSizeLine_expected c c' :
  0 <= c_expected c -> chunkSizeLine c = Ok (CNext c') -> 0 <= c_expected c'.
Proof.
  intros He. unfold chunkSizeLine. case_match; [|done]. intros H'. inv_res.
  match goal with H : hexStringToUint _ _ = Ok _ |- _ => apply hexStringToUint_nonneg in H; [|done] end.
  case_match; by simplify_eq.
Qed.

Lemma chunkStep_expected c c' :
  0 <= c_expected c -> chunkStep c = Ok (CNext c') -> 0 <= c_expected c'.
Proof.
  intros He. unfold chunkStep. destruct (0 <? c_expected c) eqn:H0; bool_prop.
  - intros H. inv_res. case_match; simplify_eq. cbn. unfold size. lia.
  - destruct (c_crlf c); [|by apply chunkSizeLine_expected].
    repeat (case_match; [done|]). by apply chunkSizeLine_expected.
Qed.

(** The loop on more data is the loop on the data, and then on what was added. *)
Lemma chunkLoop_app c b :
  0 <= c_expected c ->
  chunkLoop (add_data c b) =
  match chunkLoop c with
  | Ok (false, c') => chunkLoop (add_data c' b)
  | Ok (true, c') => Ok (true, add_data c' b)
  | Throw e => Throw e
  | Crash => Crash
  | Undef => Undef
  end.
Proof.
  remember (length (c_data c)) as n eqn:Hn. revert c Hn.
  induction n as [n IH] using lt_wf_ind; intros c -> He.
  rewrite (chunkLoop_eqn c). pose proof (chunkStep_add c b He) as Hadd.
  destruct (chunkStep c) as [[c'|c'|c']|e| |] eqn:Hs.
  - rewrite (chunkLoop_eqn (add_data c b)), Hadd.
    eapply IH; [|done|by eapply chunkStep_expected]. by apply chunkStep_length.
  - by apply chunkLoop_break.
  - by rewrite (chunkLoop_eqn (add_data c b)), Hadd.
  - by rewrite (chunkLoop_eqn (add_data c b)), Hadd.
  - by rewrite (chunkLoop_eqn (add_data c b)), Hadd.
  - by rewrite (chunkLoop_eqn (add_data c b)), Hadd.
Qed.

(** ** What a chunked body means *)

(** A chunk on the wire: its size in hexadecimal and its bytes. *)
Definition chunk_ok (k : str * str) : Prop :=
  Forall (fun c => isHexChar c = true) (fst k) /\ hex_value (fst k) = size (snd k)
  /\ 0 < size (snd k) < 2 ^ 64.

Definition encode_chunk (k : str * str) : str := fst k ++ CRLF ++ snd k ++ CRLF.

(** A last chunk's size line: hexadecimal digits of value 0. *)
Definition last_ok (h : str) : Prop := Forall (fun c => isHexChar c = true) h /\ hex_value h = 0.

Lemma hex_no_cr h : Forall (fun c => isHexChar c = true) h -> CR ∉ h.
Proof. rewrite list.Forall_forall. intros H Hin. by specialize (H _ Hin). Qed.

Lemma search_no_head a p u v : a ∉ u -> search (a :: p) (u ++ (a :: p) ++ v) = Some (length u).
Proof.
  induction u as [|x u IH]; intros Hu.
  - change ([] ++ (a :: p) ++ v) with ((a :: p) ++ v). cbn [search app].
    change (a :: p ++ v) with ((a :: p) ++ v). by rewrite starts_with_app.
  - apply not_elem_of_cons in Hu as [Hx Hu]. change ((x :: u) ++ ?l) with (x :: (u ++ l)).
    cbn [search starts_with]. rewrite bool_decide_eq_false_2 by done. cbn [andb].
    by rewrite IH.
Qed.

Lemma chunkSizeLine_line h d bo ex n :
  Forall (fun c => isHexChar c = true) h -> hex_value h = n -> 0 <= n < 2 ^ 64 ->
  chunkSizeLine (mkChunks (h ++ CRLF ++ d) bo ex false)
  = Ok (if n =? 0 then CReturn (mkChunks d bo n false) else CNext (mkChunks d bo n false)).
Proof.
  intros Hh Hv Hn. unfold chunkSizeLine. cbn [c_data]. unfold CRLF at 1 2.
  rewrite search_no_head by by apply hex_no_cr.
  rewrite take_app_length, hexStringToUint_spec, Hv, wrapU_id by done. cbn [mbind res_bind].
  rewrite <- drop_drop, drop_app_length. done.
Qed.

(** One chunk, from its size line to its last byte. *)
Lemma chunkLoop_chunk k d bo cr pre :
  chunk_ok k -> (cr = true /\ pre = CRLF \/ cr = false /\ pre = []) ->
  chunkLoop (mkChunks (pre ++ fst k ++ CRLF ++ snd k ++ d) bo 0 cr)
  = if bool_decide (d = []) then Ok (false, mkChunks [] (bo ++ snd k) 0 true)
    else chunkLoop (mkChunks d (bo ++ snd k) 0 true).
Proof.
  intros (Hh & Hv & Hlt) Hpre.
  assert (Hne : (size (snd k) =? 0) = false) by (apply Z.eqb_neq; lia).
  assert (Hstep : chunkStep (mkChunks (pre ++ fst k ++ CRLF ++ snd k ++ d) bo 0 cr)
    = Ok (CNext (mkChunks (snd k ++ d) bo (size (snd k)) false))).
  { unfold chunkStep. cbn [c_expected c_data c_crlf c_body]. change (0 <? 0) with false. cbv iota.
    destruct Hpre as [[-> ->]|[-> ->]].
    - rewrite (proj2 (Z.ltb_ge _ _)) by (unfold size; rewrite !length_app; cbn; lia).
      rewrite starts_with_app. cbn [negb]. change (drop 2 (CRLF ++ ?x)) with x.
      rewrite (chunkSizeLine_line _ _ _ _ (size (snd k))) by (done || lia). by rewrite Hne.
    - cbn [app]. rewrite (chunkSizeLine_line _ _ _ _ (size (snd k))) by (done || lia). by rewrite Hne. }
  rewrite chunkLoop_eqn, Hstep. rewrite chunkLoop_eqn. unfold chunkStep.
  cbn [c_expected c_data c_crlf c_body].
  rewrite (proj2 (Z.ltb_lt 0 (size (snd k)))) by lia.
  rewrite Z.min_l by (unfold size; rewrite length_app; lia).
  unfold size. rewrite Nat2Z.id, drop_app_length, take_app_length, Z.sub_diag. cbn [c_data Z.eqb].
  by case_bool_decide; subst.
Qed.

Lemma chunkLoop_chunks ks h tail : forall bo cr pre,
  Forall chunk_ok ks -> last_ok h -> (cr = true /\ pre = CRLF \/ cr = false /\ pre = []) ->
  chunkLoop (mkChunks (pre ++ concat (map encode_chunk ks) ++ h ++ CRLF ++ tail) bo 0 cr)
  = Ok (true, mkChunks tail (bo ++ concat (map snd ks)) 0 false).
Proof.
  induction ks as [|k ks IH]; intros bo cr pre Hks [Hh Hv] Hpre; cbn [map concat app].
  - rewrite chunkLoop_eqn. unfold chunkStep. cbn [c_expected c_data c_crlf c_body].
    change (0 <? 0) with false. cbv iota. rewrite app_nil_r.
    destruct Hpre as [[-> ->]|[-> ->]].
    + rewrite (proj2 (Z.ltb_ge _ _)) by (unfold size; rewrite !length_app; cbn; lia).
      rewrite starts_with_app. cbn [negb]. change (drop 2 (CRLF ++ ?x)) with x.
      by rewrite (chunkSizeLine_line _ _ _ _ 0).
    + cbn [app]. by rewrite (chunkSizeLine_line _ _ _ _ 0).
  - inversion Hks as [|? ? Hk Hks']; subst. unfold encode_chunk at 1.
    rewrite <- !app_assoc. rewrite chunkLoop_chunk by done.
    rewrite bool_decide_eq_false_2 by by destruct ks.
    rewrite IH by (done || by left). by rewrite <- app_assoc.
Qed.

(** ** The head of a response *)

(** What the parser makes of a field: the name in lower case, the value trimmed. *)
Definition norm_field (f : HeaderField) : HeaderField := (toLower (fst f), trim (snd f)).

Fixpoint applyFields (st : RecvState) (fs : HeaderFields) : res RecvState :=
  match fs with
  | [] => Ok st
  | f :: fs' => st' ← applyField st f; applyFields st' fs'
  end.

Lemma encodeField_head f l : valid_field f -> stops isWhiteSpaceChar (encodeField f ++ l).
Proof.
  intros (Hne & Ht & _). destruct f as [[|c n] v]; [done|]. cbn in *.
  inversion Ht as [|? ? Hc]; subst. clear -Hc. every_byte c.
Qed.

Lemma encodeFields_head fs : Forall valid_field fs -> stops isWhiteSpaceChar (concat (map encodeField fs)).
Proof. destruct 1; [done|]. by apply encodeField_head. Qed.

(** The header loop over printed fields applies each of them in order. *)
Lemma readFields_encoded fs : forall st,
  fs <> [] -> Forall valid_field fs ->
  readFields st (concat (map encodeField fs)) = applyFields st (map norm_field fs).
Proof.
  induction fs as [|[n v] fs IH]; intros st Hne Hfs; [done|].
  inversion Hfs as [|? ? (Hn & Ht & Hv) Hfs']; subst. cbn [fst snd] in *.
  rewrite readFields_eqn. cbn [map concat applyFields].
  unfold encodeField at 1. cbn [fst snd]. rewrite <- !app_assoc, parseHeaderField_line by (done || by apply encodeFields_head).
  change (norm_field (n, v)) with (toLower n, trim v).
  destruct (applyField st (toLower n, trim v)) as [st'|e| |]; cbn [mbind res_bind]; try done.
  destruct fs as [|f fs]; [reflexivity|].
  rewrite bool_decide_eq_false_2; [by apply IH|].
  inversion Hfs' as [|? ? (Hn' & _) _]; subst. destruct f as [[|] ?]; done.
Qed.

(** A status line and fields, as a server sends them. *)
Definition print_head (s : Status) (fs : HeaderFields) : str :=
  print_status s ++ concat (map encodeField fs).

Lemma search_skip c p l : (exists d q, p = d :: q /\ c <> d) -> search p (c :: l) = S <$> search p l.
Proof. intros (d & q & -> & Hc). cbn. rewrite bool_decide_eq_false_2 by done. done. Qed.

Lemma search_skips u p l : (exists d q, p = d :: q /\ d ∉ u) -> search p (u ++ l) = Nat.add (length u) <$> search p l.
Proof.
  intros (d & q & -> & Hu). induction u as [|x u IH]; cbn [app length].
  - by destruct (search _ l).
  - apply not_elem_of_cons in Hu as [Hx Hu]. rewrite search_skip by eauto.
    rewrite IH by done. by destruct (search _ l).
Qed.

(** A line end that is not followed by another is not the end of the head. *)
Lemma search_headerEnd_line u l :
  CR ∉ u -> starts_with CRLF l = false ->
  search headerEnd (u ++ CRLF ++ l) = Nat.add (length u + 2) <$> search headerEnd l.
Proof.
  intros Hu Hl. rewrite search_skips by (exists CR, [LF; CR; LF]; done).
  change (CRLF ++ l) with (CR :: LF :: l).
  assert (search headerEnd (CR :: LF :: l) = S <$> search headerEnd (LF :: l)) as ->.
  { cbn [search]. replace (starts_with headerEnd (CR :: LF :: l)) with (starts_with CRLF l); [by rewrite Hl|].
    cbn [headerEnd CRLF app starts_with]. by rewrite !bool_decide_eq_true_2. }
  rewrite search_skip by (exists CR, [LF; CR; LF]; done).
  destruct (search headerEnd l); cbn; [f_equal; lia|done].
Qed.

Lemma field_chars_no_CR s : Forall (fun c => isFieldChar c = true) s -> CR ∉ s.
Proof. rewrite list.Forall_forall. intros H Hin. by specialize (H _ Hin). Qed.

Lemma encodeField_line f : exists u, encodeField f = u ++ CRLF /\ (valid_field f -> CR ∉ u).
Proof.
  exists (fst f ++ lit ": " ++ snd f). split; [unfold encodeField; by rewrite <- !app_assoc|].
  intros (_ & Ht & Hv). rewrite !elem_of_app. intros [Hin|[Hin|Hin]].
  - eapply field_chars_no_CR; [|done]. eapply Forall_impl; [apply token_field|exact Ht].
  - by apply (bool_decide_eq_false_1 (CR ∈ lit ": ")).
  - by eapply field_chars_no_CR.
Qed.

Lemma encodeField_no_CRLF f l : valid_field f -> starts_with CRLF (encodeField f ++ l) = false.
Proof.
  intros (Hne & Ht & _). destruct f as [[|c n] v]; [done|]. cbn in *.
  inversion Ht as [|? ? Hc]; subst. rewrite bool_decide_eq_false_2; [done|].
  intros <-. done.
Qed.

Lemma search_headerEnd_fields fs l :
  Forall valid_field fs ->
  search headerEnd (CRLF ++ concat (map encodeField fs) ++ CRLF ++ l)
  = Some (length (concat (map encodeField fs))).
Proof.
  induction 1 as [|f fs Hf Hfs IH].
  - cbn [map concat app length]. change (CRLF ++ CRLF ++ l) with (headerEnd ++ l).
    change (headerEnd ++ l) with (CR :: ([LF; CR; LF] ++ l)). cbn [search].
    change (CR :: ([LF; CR; LF] ++ l)) with (headerEnd ++ l). by rewrite starts_with_app.
  - cbn [map concat]. destruct (encodeField_line f) as (u & Hu & HnoCR). specialize (HnoCR Hf).
    change (CRLF ++ ?x) with ([] ++ CRLF ++ x). rewrite search_headerEnd_line.
    + rewrite Hu at 1. rewrite <- !app_assoc.
      rewrite search_skips by (exists CR, [LF; CR; LF]; done).
      rewrite IH. cbn [fmap option_fmap option_map]. f_equal.
      rewrite Hu, !length_app. cbn. lia.
    + apply not_elem_of_nil.
    + rewrite <- app_assoc. by apply encodeField_no_CRLF.
Qed.

Lemma print_status_line s : exists u, print_status s = u ++ CRLF /\ (wf_status s -> CR ∉ u).
Proof.
  exists (lit "HTTP/" ++ dec_digit (major (version s)) ++ lit "." ++ dec_digit (minor (version s))
    ++ lit " " ++ dec_digit (scode s / 100) ++ dec_digit (scode s / 10 mod 10)
    ++ dec_digit (scode s mod 10) ++ lit " " ++ reason s).
  split; [unfold print_status; by rewrite <- !app_assoc|].
  intros [Hma Hmi Hc Hr]. apply field_chars_no_CR.
  assert (Hd : forall d, 0 <= d < 10 -> isFieldChar (digit d) = true)
    by (intros; by apply digit_field, isdigit_digit).
  repeat (apply Forall_app; split); try (by repeat constructor); try done;
    (constructor; [apply Hd|constructor]); try done; Z.to_euclidean_division_equations; lia.
Qed.

(** The fields do not look at the bytes still to be parsed. *)
Lemma applyField_append st d f :
  applyField (append_data st d) f = st' ← applyField st f; Ok (append_data st' d).
Proof.
  destruct f as [n v]. unfold applyField. cbn [response append_data responseData parsingBody
    contentLengthReceived contentLength chunkedResponse expectedChunkSize removeCrlfAfterChunk].
  repeat case_match; try done. destruct (stringToUint 64 v) as [k|e| |]; cbn; try done.
  by case_match.
Qed.

Lemma applyFields_append fs : forall st d,
  applyFields (append_data st d) fs = st' ← applyFields st fs; Ok (append_data st' d).
Proof.
  induction fs as [|f fs IH]; intros st d; cbn; [done|]. rewrite applyField_append.
  destruct (applyField st f) as [st'|e| |]; cbn; [apply IH|done..].
Qed.

(** The first block of a response whose head it holds completely. *)
Lemma onData_head s fs rest :
  wf_status s -> fs <> [] -> Forall valid_field fs ->
  onData recv_init (print_head s fs ++ CRLF ++ rest) =
  st ← applyFields (set_status recv_init s) (map norm_field fs);
  handleBody (start_body st rest).
Proof.
  intros Hs Hne Hfs. unfold onData.
  change (parsingBody (append_data recv_init ?x)) with false. cbv iota.
  cbn [responseData append_data recv_init app].
  destruct (print_status_line s) as (u & Hu & HnoCR). specialize (HnoCR Hs).
  set (F := concat (map encodeField fs)).
  assert (Hpos : search headerEnd (print_head s fs ++ CRLF ++ rest) = Some (length u + length F)%nat).
  { unfold print_head. rewrite Hu, <- !app_assoc.
    rewrite search_skips by (exists CR, [LF; CR; LF]; done).
    by rewrite search_headerEnd_fields. }
  rewrite Hpos.
  assert (Hlen : (length u + length F + 2 = length (print_head s fs))%nat).
  { unfold print_head. rewrite Hu, !length_app. cbn. unfold F. lia. }
  rewrite Hlen, take_app_length.
  replace (length u + length F + 4)%nat with (length (print_head s fs) + 2)%nat by lia.
  rewrite drop_app_add.
  change (parseStatusLine (print_head s fs)) with (parseStatusLine (print_status s ++ F)).
  rewrite parseStatusLine_print by done. cbn [mbind res_bind].
  unfold F. rewrite readFields_encoded by done.
  match goal with |- context [applyFields (set_status ?x s)] =>
    change (set_status x s) with (append_data (set_status recv_init s) (responseData x)) end.
  rewrite applyFields_append. by destruct (applyFields (set_status recv_init s) _).
Qed.

(** ** Bodies *)
(** Applying fields records them and touches only the flags they set. *)
Lemma applyFields_frame fs : forall st st',
  applyFields st fs = Ok st' ->
  response st' = mkResponse (status (response st)) (headerFields (response st) ++ fs) (body (response st))
  /\ expectedChunkSize st' = expectedChunkSize st
  /\ removeCrlfAfterChunk st' = removeCrlfAfterChunk st.
Proof.
  induction fs as [|f fs IH]; intros st st'; cbn.
  - intros [= <-]. rewrite app_nil_r. by destruct st as [[]].
  - intros H. inv_res. apply IH in H as (-> & -> & ->).
    match goal with H : applyField _ _ = Ok _ |- _ => rename H into Hf end.
    destruct f as [n v]. unfold applyField in Hf.
    repeat (case_match; simplify_eq); inv_res; repeat (case_match; simplify_eq);
      cbn; by rewrite <- app_assoc.
Qed.

(** Blocks of a chunked body, from a state that waits for body bytes. *)
Definition body_state (st : RecvState) : Prop :=
  parsingBody st = true /\ 0 <= expectedChunkSize st.

Lemma chunkLoop_expected c f c' :
  0 <= c_expected c -> chunkLoop c = Ok (f, c') -> 0 <= c_expected c'.
Proof.
  remember (length (c_data c)) as n eqn:Hn. revert c Hn.
  induction n as [n IH] using lt_wf_ind; intros c -> He.
  rewrite chunkLoop_eqn. destruct (chunkStep c) as [[d|d|d]|e| |] eqn:Hs; try done.
  - eapply IH; [|done|by eapply chunkStep_expected]. by apply chunkStep_length.
  - intros [= <- <-]. revert Hs. unfold chunkStep.
    destruct (0 <? c_expected c) eqn:H0; bool_prop.
    + intros H. inv_res. case_match; simplify_eq. cbn. unfold size. lia.
    + unfold chunkSizeLine. repeat case_match; try done; intros H'; inv_res; try done;
        repeat case_match; simplify_eq; done.
  - intros [= <- <-]. revert Hs. unfold chunkStep.
    destruct (0 <? c_expected c) eqn:H0; bool_prop.
    + intros H. inv_res. by case_match.
    + unfold chunkSizeLine. repeat case_match; try done; intros H'; inv_res;
        repeat case_match; simplify_eq; cbn; bool_prop; lia.
Qed.

Lemma to_chunks_append st p : to_chunks (append_data st p) = add_data (to_chunks st) p.
Proof. done. Qed.

Lemma onRecv_body st p : body_state st -> p <> [] -> onRecv st p = handleBody (append_data st p).
Proof.
  intros [Hb _] Hp. unfold onRecv, onData. destruct p; [done|]. cbn [parsingBody append_data]. by rewrite Hb.
Qed.

(** However the bytes of a chunked body arrive, the call returns the body the
    loop finds in all of them together. *)
Lemma receive_chunked ps : forall st p c,
  chunkedResponse st = true -> body_state st -> Forall (fun q => q <> []) ps ->
  chunkLoop (to_chunks (append_data st (p ++ concat ps))) = Ok (true, c) ->
  after (fun st' => receive st' ps) (handleBody (append_data st p))
  = Some (Ok (set_body (response st) (c_body c))).
Proof.
  induction ps as [|q ps IH]; intros st p c Hc [Hb He] Hps Hl;
    unfold handleBody; cbn [chunkedResponse append_data]; rewrite Hc;
    fold (append_data st p).
  - cbn [concat] in Hl. rewrite app_nil_r in Hl. by rewrite Hl.
  - inversion Hps as [|? ? Hq Hps']; subst.
    assert (Hsplit : to_chunks (append_data st (p ++ concat (q :: ps)))
      = add_data (to_chunks (append_data st p)) (concat (q :: ps)))
      by (unfold to_chunks, append_data, add_data; cbn; by rewrite app_assoc).
    rewrite Hsplit, chunkLoop_app in Hl by done.
    destruct (chunkLoop (to_chunks (append_data st p))) as [[[] d]|e| |] eqn:E; try done;
      cbn [mbind res_bind after].
    + injection Hl as <-. done.
    + pose proof (chunkLoop_expected (to_chunks (append_data st p)) _ _ He E) as Hed.
      cbn [receive]. rewrite onRecv_body by done.
      rewrite (IH (of_chunks (append_data st p) d) q c); done.
Qed.

(** A body of known length, from a state that waits for body bytes. *)
Lemma receive_length ps : forall st p,
  chunkedResponse st = false -> body_state st -> contentLengthReceived st = true ->
  responseData st = [] -> Forall (fun q => q <> []) ps ->
  size (body (response st) ++ p ++ concat ps) = contentLength st ->
  after (fun st' => receive st' ps) (handleBody (append_data st p))
  = Some (Ok (set_body (response st) (body (response st) ++ p ++ concat ps))).
Proof.
  induction ps as [|q ps IH]; intros st p Hc Hb Hcl Hd Hps Hsz;
    unfold handleBody; cbn [chunkedResponse append_data response responseData contentLengthReceived
      contentLength]; rewrite Hc, Hcl, Hd; cbn [app andb].
  - cbn [concat] in *. rewrite app_nil_r in *. cbn [body set_body].
    rewrite (proj2 (Z.leb_le _ _)) by (unfold size in *; lia). done.
  - inversion Hps as [|? ? Hq Hps']; subst.
    assert (Hlt : size (body (response st) ++ p) < contentLength st).
    { rewrite <- Hsz. cbn [concat]. unfold size. rewrite !length_app. destruct q; [done|]. cbn. lia. }
    cbn [body set_body]. rewrite (proj2 (Z.leb_gt _ _) Hlt). cbn [after receive].
    rewrite onRecv_body by done. cbn [concat].
    match goal with |- context [append_data ?x q] => rewrite (IH x q); try done end.
    + cbn. by rewrite <- !app_assoc.
    + cbn. by rewrite <- !app_assoc in *.
Qed.

(** The first block, when it holds the whole head. *)
Lemma receive_head s fs b0 pieces st :
  wf_status s -> fs <> [] -> Forall valid_field fs ->
  applyFields (set_status recv_init s) (map norm_field fs) = Ok st ->
  receive recv_init ((print_head s fs ++ CRLF ++ b0) :: pieces)
  = after (fun st' => receive st' pieces) (handleBody (append_data (start_body st []) b0)).
Proof.
  intros Hs Hne Hfs Hap. cbn [receive]. f_equal. unfold onRecv.
  destruct (print_head s fs ++ CRLF ++ b0) eqn:E; [by apply app_eq_nil in E as [_ ?]|].
  by rewrite <- E, onData_head, Hap.
Qed.

(** C3: a chunked response is decoded to the concatenation of its chunks, however
    the network cuts it: the first block holds the head, and the body's bytes may
    be split anywhere into the rest of it and the blocks that follow. *)
Theorem receive_chunked_response s fs ks h tail b0 pieces st :
  wf_status s -> fs <> [] -> Forall valid_field fs ->
  applyFields (set_status recv_init s) (map norm_field fs) = Ok st -> chunkedResponse st = true ->
  Forall chunk_ok ks -> last_ok h -> Forall (fun p => p <> []) pieces ->
  b0 ++ concat pieces = concat (map encode_chunk ks) ++ h ++ CRLF ++ tail ->
  receive recv_init ((print_head s fs ++ CRLF ++ b0) :: pieces)
  = Some (Ok (mkResponse (Some s) (map norm_field fs) (concat (map snd ks)))).
Proof.
  intros Hs Hne Hfs Hap Hch Hks Hh Hp Hcat.
  pose proof (applyFields_frame _ _ _ Hap) as (Hr & Hex & Hcr).
  rewrite (receive_head _ _ _ _ st) by done.
  rewrite (receive_chunked _ _ _ (mkChunks tail (concat (map snd ks)) 0 false)); try done.
  - cbn [response start_body c_body]. by rewrite Hr.
  - split; [done|]. cbn. by rewrite Hex.
  - unfold to_chunks, append_data, start_body.
    cbn [response responseData expectedChunkSize removeCrlfAfterChunk app].
    rewrite Hr, Hex, Hcr, Hcat.
    apply (chunkLoop_chunks ks h tail [] false []); auto.
Qed.

Lemma receive_chunked_response_witness :
  receive recv_init
    [lit "HTTP/1.1 201 Created" ++ CRLF ++ lit "Transfer-Encoding:  chunked " ++ CRLF ++ CRLF ++ lit "3" ++ [CR];
     LF :: lit "ab"; lit "c" ++ CRLF ++ lit "0" ++ CRLF ++ CRLF]
  = Some (Ok (mkResponse (Some (mkStatus (mkVersion 1 1) 201 (lit "Created")))
                [(lit "transfer-encoding", lit "chunked")] (lit "abc"))).
Proof.
  apply (receive_chunked_response (mkStatus (mkVersion 1 1) 201 (lit "Created"))
    [(lit "Transfer-Encoding", lit " chunked ")] [(lit "3", lit "abc")] (lit "0") CRLF
    (lit "3" ++ [CR]) [LF :: lit "ab"; lit "c" ++ CRLF ++ lit "0" ++ CRLF ++ CRLF]
    (mkRecv (mkResponse (Some (mkStatus (mkVersion 1 1) 201 (lit "Created")))
       [(lit "transfer-encoding", lit "chunked")] []) [] false false 0 true 0 false));
    try reflexivity; try (by apply (bool_decide_eq_true_1 _)).
  split; cbn; try lia. repeat constructor.
Defined.

(** A response with Content-Length is returned as soon as its body is complete,
    with exactly the bytes sent, however they are cut into blocks behind the head. *)
Theorem receive_length_response s fs b0 pieces st :
  wf_status s -> fs <> [] -> Forall valid_field fs ->
  applyFields (set_status recv_init s) (map norm_field fs) = Ok st ->
  chunkedResponse st = false -> contentLengthReceived st = true ->
  Forall (fun p => p <> []) pieces -> size (b0 ++ concat pieces) = contentLength st ->
  receive recv_init ((print_head s fs ++ CRLF ++ b0) :: pieces)
  = Some (Ok (mkResponse (Some s) (map norm_field fs) (b0 ++ concat pieces))).
Proof.
  intros Hs Hne Hfs Hap Hch Hcl Hp Hsz.
  pose proof (applyFields_frame _ _ _ Hap) as (Hr & Hex & Hcr).
  rewrite (receive_head _ _ _ _ st) by done.
  rewrite (receive_length _ (start_body st [])); try done.
  - cbn [response start_body]. by rewrite Hr.
  - split; [done|]. cbn. by rewrite Hex.
  - cbn [response start_body]. rewrite Hr. exact Hsz.
Qed.

Lemma receive_length_response_witness :
  receive recv_init
    [lit "HTTP/1.1 201 Created" ++ CRLF ++ lit "Content-Length: 4" ++ CRLF ++ CRLF ++ lit "v="; lit "0"; lit "!"]
  = Some (Ok (mkResponse (Some (mkStatus (mkVersion 1 1) 201 (lit "Created")))
                [(lit "content-length", lit "4")] (lit "v=0!"))).
Proof.
  apply (receive_length_response (mkStatus (mkVersion 1 1) 201 (lit "Created"))
    [(lit "Content-Length", lit "4")] (lit "v=") [lit "0"; lit "!"]
    (mkRecv (mkResponse (Some (mkStatus (mkVersion 1 1) 201 (lit "Created")))
       [(lit "content-length", lit "4")] []) [] false true 4 false 0 false));
    try reflexivity; try (by apply (bool_decide_eq_true_1 _)).
  split; cbn; try lia. repeat constructor.
Defined.

(** C40: when the first block does not hold the empty line that ends the head, the
    call returns at once, with no status, no field and no body: a head that the
    network splits is lost and the caller sees an indeterminate status. *)
Theorem receive_split_head p pieces :
  p <> [] /\ search headerEnd p = None ->
  receive recv_init (p :: pieces) = Some (Ok (mkResponse None [] [])).
Proof.
  intros [Hp Hs]. cbn [receive]. unfold onRecv. destruct p as [|c p]; [done|].
  unfold onData. cbn [append_data recv_init responseData parsingBody app]. by rewrite Hs.
Qed.

Lemma receive_split_head_witness :
  receive recv_init [lit "HTTP/1.1 201 Created" ++ CRLF ++ lit "Content-Le"; lit "ngth: 0" ++ CRLF ++ CRLF]
  = Some (Ok (mkResponse None [] [])).
Proof. apply receive_split_head. split; [done|reflexivity]. Defined.
