(* ===== verification/HttpClient.v ===== *)
(** * The HTTP client

    [Request] of [Request.hpp]: the constructor and [send] as a whole, from the
    clock and the address lookup to the response, over the system calls of
    [HttpSocket] and the response machine of [HttpRequest].  The theorems say what
    a finished call did with the descriptor, with the request's bytes and with the
    bytes it received, whatever the kernel answered. *)

From S2P Require Import Prelude.
From S2P Require Import CppString.
From S2P Require Import HttpSyntax.
From S2P Require Import HttpUri.
From S2P Require Import HttpEncode.
From S2P Require Import Effects.
From S2P Require Import HttpSocket.
From S2P Require Import HttpRequest.
Local Open Scope eff_scope.

Record Request := mkRequest { internetProtocol : InternetProtocol; uri : Uri }.

(** [Request(uriString, protocol)]. *)
Definition Request_new (uriString : str) (protocol : InternetProtocol) : res Request :=
  u ← parseUri uriString; Ok (mkRequest protocol u).

(** What a C function sees of [s.c_str()]. *)
Definition c_str (s : str) : str := fst (span (fun c => negb (bool_decide (c = "000"%char))) s).

(** Signed 64-bit arithmetic of [std::chrono]: an overflow is undefined. *)
Definition chrono (z : Z) : res Z := arith 64 z.

(** [steady_clock::now() + timeout], in nanoseconds. *)
Definition stopTime (now timeout : Z) : res Z :=
  ns ← chrono (timeout * 1000000); chrono (now + ns).

(** The lambda [getRemainingMilliseconds]. *)
Definition getRemainingMilliseconds (time : Z) : IO Z :=
  let* a := call SysNow in
  let* d := m_ret (chrono (time - a_ret a)) in
  let remaining := Z.quot d 1000000 in
  m_ret (Ok (if 0 <? remaining then remaining else 0)).

(** [(timeout.count() >= 0) ? getRemainingMilliseconds(stopTime) : -1]. *)
Definition callTimeout (timeout stop : Z) : IO Z :=
  if 0 <=? timeout then getRemainingMilliseconds stop else m_ret (Ok (-1)).

(** A round of [while (remaining > 0)], on the bytes from [sendData] on. *)
Definition sendStep (fd timeout stop : Z) (rest : str) : IO (str + unit) :=
  match rest with
  | [] => m_ret (Ok (inr tt))
  | _ =>
      let* t := callTimeout timeout stop in
      let* n := Socket_send fd rest t in
      if n <=? size rest then m_ret (Ok (inl (drop (Z.to_nat n) rest))) else m_ret Undef
  end.

(** A round of the [for (;;)] that reads the response. *)
Definition recvStep (fd timeout stop : Z) (st : RecvState) : IO (RecvState + Response) :=
  let* t := callTimeout timeout stop in
  let* p := Socket_recv fd 4096 t in
  if size p <=? 4096 then
    let* r := m_ret (onRecv st p) in
    m_ret (Ok (match r with More st' => inl st' | Done r => inr r end))
  else m_ret Undef.

(** The body of [send] once the socket exists. *)
Definition exchange (fd : Z) (address data : str) (timeout stop : Z) : IO Response :=
  let* t := callTimeout timeout stop in
  let* _ := Socket_connect fd address t in
  let* _ := loop (sendStep fd timeout stop) data in
  loop (recvStep fd timeout stop) recv_init.

(** The deleter of [addressInfo]. *)
Definition freeaddrinfo : IO unit := let* _ := call SysFreeaddrinfo in m_ret (Ok tt).

(** [const char* port]. *)
Definition servicePort (u : Uri) : str := if bool_decide (port u = []) then lit "80" else c_str (port u).

(** [Request::send(method, body, headerFields, timeout)], the vector overload the
    string overload converts to. *)
Definition Request_send (rq : Request) (method body : str) (fields : HeaderFields) (timeout : Z)
  : IO Response :=
  let* a := call SysNow in
  let* stop := m_ret (stopTime (a_ret a) timeout) in
  if negb (bool_decide (scheme (uri rq) = lit "http")) then
    m_ret (Throw (RequestError (lit "Only HTTP scheme is supported")))
  else
  let* g := call (SysGetaddrinfo (c_str (host (uri rq))) (servicePort (uri rq))
                    (getAddressFamily (internetProtocol rq))) in
  if negb (a_ret g =? 0) then
    m_ret (Throw (SystemError (a_errno g) (lit "Failed to get address info of " ++ host (uri rq))))
  else
  finally
    (let* data := m_ret (encodeHtml (uri rq) method body fields) in
     let* fd := Socket_new (internetProtocol rq) in
     finally (exchange fd (a_data g) data timeout stop) (Socket_delete fd))
    freeaddrinfo.

(** ** What a log says about the traffic *)

(** The bytes the kernel took, in order. *)
Definition sent_by (e : sysop * answer) : str :=
  match e with
  | (SysSend _ b, a) => if a_ret a =? -1 then [] else take (Z.to_nat (u64 (a_ret a))) b
  | _ => []
  end.
Definition sent (l : list (sysop * answer)) : str := concat (map sent_by l).

(** The blocks it handed over. *)
Definition received (l : list (sysop * answer)) : list str :=
  omap (fun e => match e with
                 | (SysRecv _ _, a) =>
                     if a_ret a =? -1 then None else Some (take (Z.to_nat (a_ret a)) (a_data a))
                 | _ => None
                 end) l.

(** The address lists handed out by [getaddrinfo], and those freed. *)
Definition lookups (l : list (sysop * answer)) : list str :=
  omap (fun e => match e with
                 | (SysGetaddrinfo _ _ _, a) => if a_ret a =? 0 then Some (a_data a) else None
                 | _ => None
                 end) l.
Definition frees (l : list (sysop * answer)) : list unit :=
  omap (fun e => match e with (SysFreeaddrinfo, _) => Some tt | _ => None end) l.

Lemma sent_app a b : sent (a ++ b) = sent a ++ sent b.
Proof. unfold sent. by rewrite map_app, concat_app. Qed.
Lemma received_app a b : received (a ++ b) = received a ++ received b.
Proof. apply omap_app. Qed.
Lemma lookups_app a b : lookups (a ++ b) = lookups a ++ lookups b.
Proof. apply omap_app. Qed.
Lemma frees_app a b : frees (a ++ b) = frees a ++ frees b.
Proof. apply omap_app. Qed.

(** Calls that move no bytes. *)
Definition idle_op (o : sysop) : bool :=
  match o with SysSend _ _ | SysRecv _ _ => false | _ => true end.
Abbreviation idle m := (logs_only idle_op m).

Lemma idle_log l : Forall (fun e => idle_op (fst e) = true) l -> sent l = [] /\ received l = [].
Proof.
  induction 1 as [|[o a] l Ho Hl [IH1 IH2]]; [done|].
  split; [|by destruct o]. unfold sent in *. cbn. rewrite IH1. by destruct o.
Qed.

Lemma callTimeout_idle t stop : idle (callTimeout t stop).
Proof. unfold callTimeout, getRemainingMilliseconds. logs. Qed.
Lemma Socket_select_idle fd ty t : idle (Socket_select fd ty t).
Proof. unfold Socket_select, sys_retry, system_error. logs. Qed.
Lemma Socket_connect_idle fd ad t : idle (Socket_connect fd ad t).
Proof. unfold Socket_connect, sys_retry, system_error. logs; apply Socket_select_idle. Qed.
Lemma Socket_new_idle p : idle (Socket_new p).
Proof. unfold Socket_new, close, system_error. logs. Qed.
Lemma Socket_delete_idle fd : idle (Socket_delete fd).
Proof. unfold Socket_delete, close. logs. Qed.

Lemma idle_run {A} (m : IO A) s l r s' : idle m -> m s = (l, r, s') -> sent l = [] /\ received l = [].
Proof. intros Hm E. eapply idle_log, Hm, E. Qed.

(** Tries that were interrupted moved nothing. *)
Lemma retries_idle o xs : Forall (fun x => interrupted x = true) xs ->
  sent (map (pair o) xs) = [] /\ received (map (pair o) xs) = [].
Proof.
  induction 1 as [|x xs Hx _ [IH1 IH2]]; [done|]. unfold interrupted in Hx. bool_prop.
  change (map (pair o) (x :: xs)) with ([(o, x)] ++ map (pair o) xs).
  rewrite sent_app, received_app, IH1, IH2.
  split; destruct o; cbn; try done; by rewrite (proj2 (Z.eqb_eq _ _)).
Qed.

Lemma retry_log o s l a s' : sys_retry o s = (l, Some (Ok a), s') ->
  sent l = sent_by (o, a) /\ received l = received [(o, a)].
Proof.
  intros H. apply retry_Ok in H as (_ & xs & Hxs & ->).
  destruct (retries_idle o _ Hxs) as [H1 H2]. rewrite sent_app, received_app, H1, H2.
  unfold sent. cbn. by rewrite app_nil_r.
Qed.

Lemma Socket_send_log fd b t s l n s' : Socket_send fd b t s = (l, Some (Ok n), s') ->
  sent l = take (Z.to_nat n) b /\ received l = [].
Proof.
  unfold Socket_send. intros H. inv_run.
  match goal with H : Socket_select _ _ _ _ = _ |- _ =>
    apply idle_run in H as [Hs Hr]; [|apply Socket_select_idle] end.
  match goal with H : sys_retry _ _ = _ |- _ => apply retry_log in H as [Hs' Hr'] end.
  rewrite app_nil_r, sent_app, received_app, Hs, Hr, Hs', Hr'. cbn.
  match goal with H : (a_ret _ =? -1) = false |- _ => by rewrite H end.
Qed.

Lemma Socket_recv_log fd n t s l p s' : Socket_recv fd n t s = (l, Some (Ok p), s') ->
  sent l = [] /\ received l = [p].
Proof.
  unfold Socket_recv. intros H. inv_run.
  match goal with H : Socket_select _ _ _ _ = _ |- _ =>
    apply idle_run in H as [Hs Hr]; [|apply Socket_select_idle] end.
  match goal with H : sys_retry _ _ = _ |- _ => apply retry_log in H as [Hs' Hr'] end.
  rewrite app_nil_r, sent_app, received_app, Hs, Hr, Hs', Hr'. cbn.
  match goal with H : (a_ret _ =? -1) = false |- _ => by rewrite H end.
Qed.

(** The send loop hands the kernel the request's bytes, each once, in order. *)
Lemma sendStep_log fd t stop rest s l r s' : sendStep fd t stop rest s = (l, Some (Ok r), s') ->
  received l = [] /\ match r with inl rest' => rest = sent l ++ rest' | inr _ => rest = [] /\ sent l = [] end.
Proof.
  destruct rest as [|c rest]; cbn [sendStep]; intros H; [unfold m_ret in H; by simplify_eq|].
  inv_run.
  match goal with H : callTimeout _ _ _ = _ |- _ =>
    apply idle_run in H as [Hs Hr]; [|apply callTimeout_idle] end.
  match goal with H : Socket_send _ _ _ _ = _ |- _ => apply Socket_send_log in H as [Hs' Hr'] end.
  rewrite app_nil_r, received_app, sent_app, Hs, Hr, Hs', Hr'. cbn [app].
  by rewrite take_drop.
Qed.

Lemma send_loop_log fd t stop data s l u s' :
  loop (sendStep fd t stop) data s = (l, Some (Ok u), s') -> sent l = data /\ received l = [].
Proof.
  apply (loop_Ok _ (fun rest l _ => sent l = rest /\ received l = [])).
  - intros ? ? ? ? ? H. apply sendStep_log in H as [? [-> ?]]. done.
  - intros ? ? ? ? ? ? ? H [Hs Hr]. apply sendStep_log in H as [Hr' ->].
    by rewrite sent_app, received_app, Hs, Hr, Hr'.
Qed.

Lemma recvStep_log fd t stop st s l r s' : recvStep fd t stop st s = (l, Some (Ok r), s') ->
  sent l = [] /\ exists p, received l = [p] /\
    onRecv st p = Ok (match r with inl st' => More st' | inr r => Done r end).
Proof.
  unfold recvStep. intros H. inv_run.
  match goal with H : callTimeout _ _ _ = _ |- _ =>
    apply idle_run in H as [Hs Hr]; [|apply callTimeout_idle] end.
  match goal with H : Socket_recv _ _ _ _ = _ |- _ => apply Socket_recv_log in H as [Hs' Hr'] end.
  rewrite !app_nil_r, received_app, sent_app, Hs, Hr, Hs', Hr'. cbn [app].
  split; [done|]. eexists; split; [done|].
  match goal with H : onRecv _ _ = Ok ?x |- _ => by rewrite H; destruct x end.
Qed.

Lemma recv_loop_log fd t stop st s l r s' :
  loop (recvStep fd t stop) st s = (l, Some (Ok r), s') ->
  sent l = [] /\ receive st (received l) = Some (Ok r).
Proof.
  apply (loop_Ok _ (fun st l r => sent l = [] /\ receive st (received l) = Some (Ok r))).
  - intros ? ? ? ? ? H. apply recvStep_log in H as (? & p & -> & E). split; [done|].
    cbn. by rewrite E.
  - intros ? ? ? ? ? ? ? H [Hs Hr]. apply recvStep_log in H as (Hs' & p & Hp & E).
    rewrite sent_app, received_app, Hs, Hp, Hs'. split; [done|]. cbn. by rewrite E.
Qed.

Lemma exchange_log fd ad data t stop s l r s' :
  exchange fd ad data t stop s = (l, Some (Ok r), s') ->
  sent l = data /\ receive recv_init (received l) = Some (Ok r).
Proof.
  unfold exchange. intros H. inv_run.
  match goal with H : callTimeout _ _ _ = _ |- _ =>
    apply idle_run in H as [Hs1 Hr1]; [|apply callTimeout_idle] end.
  match goal with H : Socket_connect _ _ _ _ = _ |- _ =>
    apply idle_run in H as [Hs2 Hr2]; [|apply Socket_connect_idle] end.
  match goal with H : loop (sendStep _ _ _) _ _ = _ |- _ => apply send_loop_log in H as [Hs3 Hr3] end.
  match goal with H : loop (recvStep _ _ _) _ _ = _ |- _ => apply recv_loop_log in H as [Hs4 Hr4] end.
  rewrite !sent_app, !received_app, Hs1, Hr1, Hs2, Hr2, Hs3, Hr3, Hs4. cbn [app].
  by rewrite app_nil_r.
Qed.

(** ** Resources *)

(** Calls that take or give back neither a descriptor nor an address list. *)
Definition neutral_op (o : sysop) : bool :=
  match o with
  | SysSocket _ | SysClose _ | SysGetaddrinfo _ _ _ | SysFreeaddrinfo => false
  | _ => true
  end.

Definition balance (l : list (sysop * answer)) : list Z * list Z * list str * list unit :=
  (opened l, closed l, lookups l, frees l).

Lemma neutral_log l : Forall (fun e => neutral_op (fst e) = true) l -> balance l = ([], [], [], []).
Proof.
  unfold balance. induction 1 as [|[o a] l Ho Hl IH]; [done|]. injection IH as H1 H2 H3 H4.
  change ((o, a) :: l) with ([(o, a)] ++ l).
  rewrite opened_app, closed_app, lookups_app, frees_app, H1, H2, H3, H4. by destruct o.
Qed.

Lemma exchange_neutral fd ad data t stop : logs_only neutral_op (exchange fd ad data t stop).
Proof.
  unfold exchange, sendStep, recvStep, callTimeout, getRemainingMilliseconds, Socket_connect,
    Socket_send, Socket_recv, Socket_select, sys_retry, system_error. logs.
Qed.

Lemma Socket_new_no_lookup p : logs_only (fun o => match o with SysGetaddrinfo _ _ _ | SysFreeaddrinfo => false | _ => true end) (Socket_new p).
Proof. unfold Socket_new, close, system_error. logs. Qed.

Lemma no_lookup_log l :
  Forall (fun e : sysop * answer => match fst e with SysGetaddrinfo _ _ _ | SysFreeaddrinfo => false | _ => true end = true) l ->
  lookups l = [] /\ frees l = [].
Proof. induction 1 as [|[o a] l Ho Hl [IH1 IH2]]; [done|]. by destruct o. Qed.

(** With the socket: its descriptor is closed however the exchange ends. *)
Lemma session_log p (k : Z -> IO Response) s l r s' :
  (forall fd, logs_only neutral_op (k fd)) ->
  (let* fd := Socket_new p in finally (k fd) (Socket_delete fd)) s = (l, Some r, s') ->
  opened l = closed l /\ lookups l = [] /\ frees l = [].
Proof.
  intros Hk. unfold m_bind. destruct (Socket_new p s) as [[l1 r1] s1] eqn:E.
  pose proof (no_lookup_log _ (Socket_new_no_lookup _ _ _ _ _ E)) as [Hl1 Hf1].
  destruct r1 as [r1|]; [|done]. pose proof (Socket_new_log _ _ _ _ _ E) as Ho.
  destruct r1 as [fd|e| |]; try (intros H; simplify_eq; done).
  pose proof (Socket_new_valid _ _ _ _ _ E) as Hv. destruct Ho as [Ho Hc].
  destruct (finally _ _ s1) as [[l2 r2] s2] eqn:E2. intros H; simplify_eq.
  apply finally_Ok in E2 as (l3 & s3 & l4 & [] & E3 & E4 & ->).
  apply Hk, neutral_log in E3. injection E3 as Ho3 Hc3 Hl3 Hf3.
  pose proof E4 as E4'. apply Socket_delete_log in E4 as (_ & Ho4 & Hc4); [|done].
  assert (lookups l4 = [] /\ frees l4 = []) as [Hl4 Hf4].
  { eapply no_lookup_log. unfold Socket_delete in E4'. rewrite (proj2 (Z.eqb_neq _ _) Hv) in E4'.
    unfold m_bind, close, call, m_ret in E4'. destruct s3; [done|]. simplify_eq. by repeat constructor. }
  rewrite !opened_app, !closed_app, !lookups_app, !frees_app,
    Ho, Hc, Hl1, Hf1, Ho3, Hc3, Hl3, Hf3, Ho4, Hc4, Hl4, Hf4. done.
Qed.

(** C6: a call of [Request::send] that finishes, by returning or by any exception,
    has closed exactly the descriptors it opened, in order, and has freed as many
    address lists as it was given: whatever the system calls answered. *)
Theorem Request_send_releases rq method b fs timeout s l r s' :
  Request_send rq method b fs timeout s = (l, Some r, s') ->
  opened l = closed l /\ length (lookups l) = length (frees l).
Proof.
  unfold Request_send. destruct s as [|a s]; [done|]. unfold m_bind at 1. cbn [call].
  unfold m_bind at 1. unfold m_ret at 1.
  destruct (stopTime (a_ret a) timeout) as [stop|e| |]; cbn [m_bind]; try (intros H; simplify_eq; done).
  destruct (negb (bool_decide (scheme (uri rq) = lit "http"))); [intros H; unfold m_ret in H; by simplify_eq|].
  destruct s as [|g s]; [done|]. unfold m_bind at 1. cbn [call].
  destruct (a_ret g =? 0) eqn:Hg; cbn [negb].
  2:{ intros H. unfold m_ret in H. simplify_eq. cbn. by rewrite Hg. }
  destruct (finally _ _ s) as [[l1 r1] s1] eqn:E. intros H; simplify_eq.
  apply finally_Ok in E as (l2 & s2 & l3 & u & E2 & E3 & ->).
  assert (opened l2 = closed l2 /\ lookups l2 = [] /\ frees l2 = []) as (Ho & Hl & Hf).
  { unfold m_bind at 1 in E2. unfold m_ret at 1 in E2.
    destruct (encodeHtml _ _ _ _) as [data|e| |]; try by simplify_eq.
    destruct (m_bind _ _ s) as [[l4 r4] s4] eqn:E4. simplify_eq.
    eapply session_log; [|exact E4]. intros fd. apply exchange_neutral. }
  unfold freeaddrinfo, m_bind, call, m_ret in E3. destruct s2 as [|f s2]; [done|]. simplify_eq.
  cbn. rewrite !opened_app, !closed_app, !lookups_app, !frees_app, Ho, Hl, Hf, Hg. done.
Qed.

Lemma Request_send_sent rq method b fs timeout s l r s' :
  Request_send rq method b fs timeout s = (l, Some (Ok r), s') ->
  exists data, encodeHtml (uri rq) method b fs = Ok data /\ sent l = data /\
    receive recv_init (received l) = Some (Ok r).
Proof.
  unfold Request_send. intros H. inv_run.
  apply finally_Ok in H as (l2 & s2 & l3 & u & E2 & E3 & ->). inv_run.
  apply finally_Ok in E2 as (l5 & s5 & l6 & u' & E5 & E6 & ->).
  match goal with H : Socket_new _ _ = _ |- _ => apply idle_run in H as [Hs1 Hr1]; [|apply Socket_new_idle] end.
  apply exchange_log in E5 as [Hs2 Hr2].
  apply idle_run in E6 as [Hs3 Hr3]; [|apply Socket_delete_idle].
  assert (idle freeaddrinfo) as Hi by (unfold freeaddrinfo; logs).
  apply idle_run in E3 as [Hs4 Hr4]; [|done].
  match goal with H : encodeHtml _ _ _ _ = Ok ?d |- _ => exists d; split; [exact H|] end.
  rewrite !sent_app, !received_app, Hs1, Hs2, Hs3, Hs4, Hr1, Hr3, Hr4, !app_nil_r. done.
Qed.

(** Whom a call that returned has talked to: the address that the lookup of the host and
    the port gave is the one the socket was connected to. *)
Lemma Request_send_peer rq method b fs timeout s l r s' :
  Request_send rq method b fs timeout s = (l, Some (Ok r), s') ->
  exists g fd x, (SysGetaddrinfo (c_str (host (uri rq))) (servicePort (uri rq))
                    (getAddressFamily (internetProtocol rq)), g) ∈ l /\
    a_ret g = 0 /\ (SysConnect fd (a_data g), x) ∈ l.
Proof.
  unfold Request_send. intros H. inv_run. bool_prop.
  apply finally_Ok in H as (l2 & s2 & l3 & u & E2 & E3 & ->). inv_run.
  apply finally_Ok in E2 as (l5 & s5 & l6 & u' & E5 & E6 & ->).
  unfold exchange in E5. inv_run.
  match goal with H : Socket_connect ?f _ _ _ = _, Hg : a_ret ?g = 0 |- _ =>
    unfold Socket_connect in H; apply m_bind_Ok in H as (lc & made & ? & ? & H & _ & ->);
    apply retry_Ok in H as (_ & xs & _ & ->); exists g, f, made end.
  split; [set_solver|]. split; [done|]. set_solver.
Qed.

(** C1: when [Request::send] returns a response, the bytes it handed to the kernel
    are exactly the encoded request, each once and in order, whatever the sizes of
    the partial writes, and the response is what the response machine makes of the
    blocks that were received. *)
Theorem Request_send_exchange rq method b fs timeout s l r s' :
  Request_send rq method b fs timeout s = (l, Some (Ok r), s') ->
  exists data, encodeHtml (uri rq) method b fs = Ok data /\ sent l = data /\
    receive recv_init (received l) = Some (Ok r).
Proof. apply Request_send_sent. Qed.

(** ** A server that answers *)

(** The answers of a call that is interrupted any number of times before one that is
    [P]. *)
Inductive eventually (P : answer -> Prop) : list answer -> Prop :=
| ev_now a : P a -> eventually P [a]
| ev_again a s : a_ret a = -1 -> a_errno a = EINTR -> eventually P s -> eventually P (a :: s).

(** The socket became ready, within whatever time there was. *)
Definition ready (a : answer) : Prop := a_ret a <> -1 /\ a_ret a <> 0.

(** The connection is made at once, or in the background: then the socket becomes
    writable and has no error. *)
Inductive accepts : list answer -> Prop :=
| acc_now s : eventually (fun a => a_ret a <> -1) s -> accepts s
| acc_later s w o : eventually (fun a => a_ret a = -1 /\ a_errno a = EINPROGRESS) s -> eventually ready w ->
    a_ret o <> -1 -> a_out o = 0 -> accepts (s ++ w ++ [o]).

(** The kernel takes the request in these parts, each when the socket is writable. *)
Inductive takes : list str -> list answer -> Prop :=
| takes_nil : takes [] []
| takes_part p parts w s k : p <> [] -> eventually ready w -> eventually (fun a => a_ret a = size p) s ->
    takes parts k -> takes (p :: parts) (w ++ s ++ k).

(** It delivers the response in these pieces, each when the socket is readable. *)
Inductive delivers : list str -> list answer -> Prop :=
| delivers_nil : delivers [] []
| delivers_piece p pieces w s k : size p <= 4096 -> eventually ready w ->
    eventually (fun a => a_ret a = size p /\ exists junk, a_data a = p ++ junk) s ->
    delivers pieces k -> delivers (p :: pieces) (w ++ s ++ k).

(** What the outside world answers, call by call, when all goes well: a clock from
    which a millisecond can be taken, an address, a socket that [select] can watch and
    that becomes non-blocking, a connection, the traffic, and at least the two answers
    that [close] and [freeaddrinfo] wait for. *)
Inductive served (parts pieces : list str) : list answer -> Prop :=
| served_script now address fd get set conn out inc rest :
    - 2 ^ 63 + 1000000 <= a_ret now < 2 ^ 63 -> a_ret address = 0 -> 0 <= a_ret fd < 1024 ->
    a_ret get <> -1 -> a_ret set <> -1 ->
    accepts conn -> takes parts out -> delivers pieces inc -> (2 <= length rest)%nat ->
    served parts pieces (now :: address :: fd :: get :: set :: conn ++ out ++ inc ++ rest).

Lemma sendStep_advances fd t stop : advances (sendStep fd t stop).
Proof.
  intros [|c rest] s l st' s'; cbn [sendStep]; [done|].
  eapply m_bind_progresses_r.
  - unfold callTimeout, getRemainingMilliseconds. eff.
  - intros t'. apply m_bind_progresses; [apply Socket_send_progresses|]. intros n. eff.
Qed.

Lemma recvStep_advances fd t stop : advances (recvStep fd t stop).
Proof.
  apply progresses_advances. intros st. eapply m_bind_progresses_r.
  - unfold callTimeout, getRemainingMilliseconds. eff.
  - intros t'. apply m_bind_progresses; [apply Socket_recv_progresses|]. intros n. eff.
Qed.

Lemma size_drop_app p (q : str) : drop (Z.to_nat (size p)) (p ++ q) = q.
Proof. unfold size. by rewrite Nat2Z.id, drop_app_length. Qed.

Lemma size_app (p q : str) : size (p ++ q) = size p + size q.
Proof. unfold size. rewrite length_app. lia. Qed.

Lemma returned p : size p <> -1 /\ 0 <= size p.
Proof. unfold size. lia. Qed.

Lemma eventually_split P w : eventually P w ->
  exists xs a, w = xs ++ [a] /\ Forall (fun x => interrupted x = true) xs /\ P a.
Proof.
  induction 1 as [a Ha|a s H1 H2 _ (xs & x & -> & Hxs & Hx)]; [by exists [], a|].
  exists (a :: xs), x. split; [done|]. split; [|done]. constructor; [|done].
  unfold interrupted. by rewrite H1, H2.
Qed.

Lemma retry_served next (o : sysop) P w s : eventually P w -> (forall a, P a -> interrupted a = false) ->
  exists l a, P a /\ retry_with interrupted next o (w ++ s) = (l, Some (Ok a), s).
Proof.
  intros H Hi. apply eventually_split in H as (xs & a & -> & Hxs & Ha).
  destruct (retry_with_answers interrupted next o xs a s Hxs (Hi a Ha)) as [l E].
  exists l, a. by rewrite <- app_assoc.
Qed.

Lemma not_failed a : a_ret a <> -1 -> interrupted a = false.
Proof. intros H. unfold interrupted. by rewrite (proj2 (Z.eqb_neq _ _) H). Qed.

Lemma select_served fd ty t w s : 0 <= fd < 1024 -> eventually ready w ->
  exists l, Socket_select fd ty t (w ++ s) = (l, Some (Ok tt), s).
Proof.
  intros Hfd Hw. unfold Socket_select.
  rewrite (proj2 (Z.leb_le _ _)), (proj2 (Z.ltb_lt _ _)) by (unfold FD_SETSIZE; lia). cbn [andb].
  destruct (retry_served leftTimeout (SysSelect fd ty (selectTimeout t)) ready w s Hw) as (l & a & [H1 H2] & E).
  { intros a []. by apply not_failed. }
  eexists. eapply m_bind_step; [exact E|].
  by rewrite (proj2 (Z.eqb_neq _ _) H1), (proj2 (Z.eqb_neq _ _) H2).
Qed.

Lemma connect_served fd address t w s : 0 <= fd < 1024 -> accepts w ->
  exists l, Socket_connect fd address t (w ++ s) = (l, Some (Ok tt), s).
Proof.
  intros Hfd Hw. unfold Socket_connect. destruct Hw as [w H|c w o Hc Hw Ho1 Ho2].
  - destruct (retry_served (fun o _ => o) (SysConnect fd address) _ w s H) as (l & a & Ha & E).
    { intros a. apply not_failed. }
    eexists. eapply m_bind_step; [exact E|]. by rewrite (proj2 (Z.eqb_neq _ _) Ha).
  - rewrite <- !app_assoc.
    destruct (retry_served (fun o _ => o) (SysConnect fd address) _ c (w ++ [o] ++ s) Hc) as (l & a & [Ha He] & E).
    { intros a [_ He]. unfold interrupted. rewrite He. apply andb_false_r. }
    destruct (select_served fd write t w ([o] ++ s) Hfd Hw) as [l2 E2].
    eexists. eapply m_bind_step; [exact E|]. rewrite Ha, He. cbn [Z.eqb Pos.eqb EINPROGRESS].
    eapply m_bind_step; [exact E2|]. cbn [app]. eapply m_bind_step; [done|].
    by rewrite (proj2 (Z.eqb_neq _ _) Ho1), Ho2.
Qed.

Lemma sendStep_part fd stop p q w c s : p <> [] -> size (p ++ q) < 2 ^ 64 -> 0 <= fd < 1024 ->
  eventually ready w -> eventually (fun a => a_ret a = size p) c ->
  exists l, sendStep fd (-1) stop (p ++ q) (w ++ c ++ s) = (l, Some (Ok (inl q)), s).
Proof.
  intros Hp Hs Hfd Hw Hc. rewrite size_app in Hs. destruct (returned p) as [H1 H2], (returned q) as [_ H3].
  destruct (p ++ q) as [|x r] eqn:E; [by destruct p|]. cbn [sendStep]. rewrite <- E.
  destruct (select_served fd write (-1) w (c ++ s) Hfd Hw) as [l1 E1].
  destruct (retry_served (fun o _ => o) (SysSend fd (p ++ q)) _ c s Hc) as (l2 & a & Ha & E2).
  { intros a Ha. apply not_failed. lia. }
  eexists. eapply m_bind_step; [done|]. unfold Socket_send.
  eapply m_bind_step; [eapply m_bind_step; [exact E1|]; eapply m_bind_step; [exact E2|]|].
  { rewrite Ha, (proj2 (Z.eqb_neq _ _) H1), wrapU_id by (unfold in_u; lia). done. }
  rewrite (proj2 (Z.leb_le (size p) (size (p ++ q)))) by (rewrite size_app; lia).
  by rewrite size_drop_app.
Qed.

Lemma send_parts fd stop parts k s : 0 <= fd < 1024 -> takes parts k -> size (concat parts) < 2 ^ 64 ->
  exists l, loop (sendStep fd (-1) stop) (concat parts) (k ++ s) = (l, Some (Ok tt), s).
Proof.
  intros Hfd. induction 1 as [|p parts w c k Hp Hw Hc Hk IH]; intros Hs.
  - exists []. rewrite loop_unfold by apply sendStep_advances. done.
  - cbn [concat] in *. rewrite loop_unfold by apply sendStep_advances. rewrite <- !app_assoc.
    destruct (sendStep_part fd stop p (concat parts) w c (k ++ s) Hp Hs Hfd Hw Hc) as [l1 E1].
    destruct IH as [l2 E2]; [rewrite size_app in Hs; pose proof (returned p); lia|].
    exists (l1 ++ l2). eapply m_bind_step; [exact E1|exact E2].
Qed.

Lemma recvStep_piece fd stop st p w c s : size p <= 4096 -> 0 <= fd < 1024 ->
  eventually ready w -> eventually (fun a => a_ret a = size p /\ exists junk, a_data a = p ++ junk) c ->
  exists l, recvStep fd (-1) stop st (w ++ c ++ s) =
    (l, Some (x ← onRecv st p; Ok (match x with More st' => inl st' | Done r => inr r end)), s).
Proof.
  intros Hp Hfd Hw Hc. destruct (returned p) as [H1 H2].
  destruct (select_served fd read (-1) w (c ++ s) Hfd Hw) as [l1 E1].
  destruct (retry_served (fun o _ => o) (SysRecv fd 4096) _ c s Hc) as (l2 & a & (Ha & junk & Hd) & E2).
  { intros a [Ha _]. apply not_failed. lia. }
  eexists. unfold recvStep. eapply m_bind_step; [done|]. unfold Socket_recv.
  eapply m_bind_step; [eapply m_bind_step; [exact E1|]; eapply m_bind_step; [exact E2|]|].
  { rewrite Ha, Hd, (proj2 (Z.eqb_neq _ _) H1). unfold size. rewrite Nat2Z.id, take_app_length. done. }
  rewrite (proj2 (Z.leb_le _ _) Hp). unfold m_bind, m_ret. by destruct (onRecv st p).
Qed.

Lemma recv_pieces fd stop pieces k r rest : 0 <= fd < 1024 -> delivers pieces k -> (2 <= length rest)%nat ->
  forall st, receive st pieces = Some (Ok r) ->
  exists l c d s, loop (recvStep fd (-1) stop) st (k ++ rest) = (l, Some (Ok r), c :: d :: s).
Proof.
  intros Hfd Hd Hlen. induction Hd as [|p ps w c k Hp Hw Hc Hk IH]; intros st Hr; [done|].
  cbn [receive] in Hr. rewrite loop_unfold by apply recvStep_advances. rewrite <- !app_assoc.
  destruct (recvStep_piece fd stop st p w c (k ++ rest) Hp Hfd Hw Hc) as [l1 E1].
  destruct (onRecv st p) as [[st'|r']|e| |]; cbn in Hr; simplify_eq; cbn [res_bind mbind] in E1.
  - destruct (IH st' Hr) as (l2 & c' & d' & s & E2). exists (l1 ++ l2), c', d', s.
    eapply m_bind_step; [exact E1|exact E2].
  - assert (exists c' d' s, k ++ rest = c' :: d' :: s) as (c' & d' & s & Es).
    { assert (2 <= length (k ++ rest))%nat by (rewrite length_app; lia).
      destruct (k ++ rest) as [|c' [|d' s]]; cbn in *; [lia..|eauto]. }
    rewrite Es in *. exists (l1 ++ []), c', d', s. eapply m_bind_step; [exact E1|done].
Qed.

Lemma exchange_served fd address stop parts pieces r conn out inc rest :
  0 <= fd < 1024 -> accepts conn -> takes parts out -> delivers pieces inc -> (2 <= length rest)%nat ->
  size (concat parts) < 2 ^ 64 -> receive recv_init pieces = Some (Ok r) ->
  exists l c d s, exchange fd address (concat parts) (-1) stop (conn ++ out ++ inc ++ rest) =
    (l, Some (Ok r), c :: d :: s).
Proof.
  intros Hfd Ha Ht Hd Hl Hs Hr. unfold exchange.
  destruct (connect_served fd address (-1) conn (out ++ inc ++ rest) Hfd Ha) as [l1 E1].
  destruct (send_parts fd stop parts out (inc ++ rest) Hfd Ht Hs) as [l2 E2].
  destruct (recv_pieces fd stop pieces inc r rest Hfd Hd Hl _ Hr) as (l3 & c & d & s & E3).
  eexists _, c, d, s. eapply m_bind_step; [done|]. eapply m_bind_step; [exact E1|].
  eapply m_bind_step; [exact E2|exact E3].
Qed.

(** C5: [Request::send] without a timeout completes: for a URI of the scheme [http] and a
    request that encodes to less than 2^64 bytes, when the outside world answers as
    [served] says, it terminates and returns the response [r] that the response
    machine makes of the delivered pieces.  [served] asks that the clock can be read
    and lies a millisecond above its lower bound, that the address is found, that
    the socket's descriptor is below 1024 and becomes non-blocking, that the connection
    succeeds at once or is in progress and succeeds later, that the kernel takes the
    request in some non-empty parts and delivers the pieces of at most 4096 bytes, and
    that [connect], [select], [send] and [recv] are interrupted by signals any finite
    number of times. *)
Theorem Request_send_completes rq method b fs parts pieces r s :
  scheme (uri rq) = lit "http" -> encodeHtml (uri rq) method b fs = Ok (concat parts) ->
  size (concat parts) < 2 ^ 64 -> served parts pieces s -> receive recv_init pieces = Some (Ok r) ->
  exists l s', Request_send rq method b fs (-1) s = (l, Some (Ok r), s').
Proof.
  intros Hs He Hsz Hserved Hr. destruct Hserved as [now address fd get set conn out inc rest Hnow Hg Hfd H1 H2 Ha Ht Hd Hl].
  destruct (exchange_served (a_ret fd) (a_data address) (a_ret now + -1 * 1000000) parts pieces r conn out inc rest
    Hfd Ha Ht Hd Hl Hsz Hr) as (l1 & c & d & k & E).
  assert (stopTime (a_ret now) (-1) = Ok (a_ret now + -1 * 1000000)) as Hstop.
  { apply bind_Ok. exists (-1 * 1000000). split; apply arith_Ok; unfold in_s; (split; [done|lia]). }
  assert (a_ret fd <> invalid) as Hi by (unfold invalid; lia).
  unfold Request_send. eexists _, _. eapply m_bind_step; [done|]. cbv beta.
  rewrite Hstop. eapply m_bind_step; [done|]. rewrite Hs, bool_decide_eq_true_2 by done. cbn [negb].
  eapply m_bind_step; [done|]. rewrite Hg, He. cbn [Z.eqb negb]. unfold finally at 1.
  rewrite (m_bind_ret (concat parts)). unfold Socket_new, m_bind at 1, m_bind at 1. cbn [call].
  rewrite (proj2 (Z.eqb_neq _ _) Hi). unfold m_bind at 1. cbn [call]. rewrite (proj2 (Z.eqb_neq _ _) H1).
  unfold m_bind at 1. cbn [call]. rewrite (proj2 (Z.eqb_neq _ _) H2). unfold m_ret at 1, finally at 1.
  rewrite E. unfold Socket_delete. rewrite (proj2 (Z.eqb_neq _ _) Hi). cbn. done.
Qed.

(** ** A concrete exchange *)

(** A call that returns [n]. *)
Definition returns (n : Z) : answer := mkAns n 0 0 [].

(** The script of a world in which every call succeeds at its first try. *)
Definition script (address : str) (fd : Z) (parts pieces : list str) : list answer :=
  [returns 0; mkAns 0 0 0 address; returns fd; returns 0; returns 0; returns 0] ++
  flat_map (fun p => [returns 1; returns (size p)]) parts ++
  flat_map (fun p => [returns 1; mkAns (size p) 0 0 p]) pieces ++ [returns 0; returns 0].

Definition demo_request : Request := mkRequest v4 (mkUri (lit "http") [] [] (lit "h") (lit "8080") (lit "/w") [] []).
Definition demo_parts : list str :=
  [lit "POST /w HTTP/1.1" ++ CRLF; lit "Host: h" ++ CRLF ++ lit "Content-Length: 3" ++ CRLF ++ CRLF ++ lit "sdp"].
Definition demo_pieces : list str :=
  [lit "HTTP/1.1 201 Created" ++ CRLF ++ lit "Content-Length: 4" ++ CRLF ++ CRLF ++ lit "v="; lit "0;"].
Definition demo_run : list (sysop * answer) * option (res Response) * list answer :=
  Request_send demo_request (lit "POST") (lit "sdp") [] (-1)
    (script (lit "addr") 3 demo_parts demo_pieces).

Lemma Request_send_releases_witness :
  exists l r s', demo_run = (l, Some r, s') /\ opened l = [3] /\
    (opened l = closed l /\ length (lookups l) = length (frees l)).
Proof.
  destruct demo_run as [[l [r|]] s'] eqn:E; [|by vm_compute in E].
  exists l, r, s'. split; [done|]. split; [vm_compute in E; by simplify_eq|].
  unfold demo_run in E. exact (Request_send_releases _ _ _ _ _ _ _ _ _ E).
Defined.

Lemma Request_send_exchange_witness :
  exists l r s', demo_run = (l, Some (Ok r), s') /\
    exists data, encodeHtml (uri demo_request) (lit "POST") (lit "sdp") [] = Ok data /\ sent l = data /\
      receive recv_init (received l) = Some (Ok r).
Proof.
  destruct demo_run as [[l [[r|e| |]|]] s'] eqn:E; [|by vm_compute in E ..].
  exists l, r, s'. split; [done|]. unfold demo_run in E. exact (Request_send_exchange _ _ _ _ _ _ _ _ _ E).
Defined.

(** The same request and response over a slower network: every kind of call is
    interrupted, and the connection is made in the background. *)
Definition interrupt : answer := mkAns (-1) EINTR 0 [].
Definition slow_takes (parts : list str) : list answer :=
  flat_map (fun p => [interrupt; returns 1] ++ [interrupt; interrupt; returns (size p)]) parts.
Definition slow_delivers (pieces : list str) : list answer :=
  flat_map (fun p => [interrupt; returns 1] ++ [interrupt; mkAns (size p) 0 0 (p ++ lit "old")]) pieces.
Definition slow_script (address : str) (fd : Z) (parts pieces : list str) : list answer :=
  returns 5000000 :: mkAns 0 0 0 address :: returns fd :: returns 2 :: returns 0 ::
  ([interrupt; mkAns (-1) EINPROGRESS 0 []] ++ [interrupt; returns 1] ++ [returns 0]) ++
  slow_takes parts ++ slow_delivers pieces ++ [returns 0; returns 0].

Lemma slow_served address fd parts pieces :
  0 <= fd < 1024 -> Forall (fun p => p <> []) parts -> Forall (fun p => size p <= 4096) pieces ->
  served parts pieces (slow_script address fd parts pieces).
Proof.
  intros Hfd Hp Hq. apply served_script; try done.
  - apply acc_later; [apply ev_again, ev_now|apply ev_again, ev_now| |]; done.
  - induction Hp as [|p parts Hp _ IH]; [constructor|]. unfold slow_takes. cbn [flat_map].
    rewrite <- app_assoc. apply takes_part; [done|apply ev_again, ev_now; done| |done].
    by do 2 (apply ev_again; [done..|]); apply ev_now.
  - induction Hq as [|p pieces Hq _ IH]; [constructor|]. unfold slow_delivers. cbn [flat_map].
    rewrite <- app_assoc. apply delivers_piece; [done|apply ev_again, ev_now; done| |done].
    apply ev_again, ev_now; [done..|]. cbn. eauto.
Qed.

Lemma Request_send_completes_witness : exists l s',
  Request_send demo_request (lit "POST") (lit "sdp") [] (-1) (slow_script (lit "addr") 3 demo_parts demo_pieces) =
  (l, Some (Ok (mkResponse (Some (mkStatus (mkVersion 1 1) 201 (lit "Created")))
    [(lit "content-length", lit "4")] (lit "v=0;"))), s').
Proof.
  apply (Request_send_completes demo_request (lit "POST") (lit "sdp") [] demo_parts demo_pieces); try (vm_compute; done).
  by apply slow_served; apply (bool_decide_eq_true_1 _); vm_compute.
Defined.
