(* ===== verification/Args.v ===== *)
(** * The command line

    [main.cpp]: [parse_args], [WadiConfig] and the device number [main] derives
    from the configuration.  The options are described by a small grammar of
    items, and the theorems relate a command line printed from items to what the
    program makes of it. *)

From S2P Require Import Prelude.
From S2P Require Import CppString.

(** ** [parse_args] *)
Record ParsedArgs := mkArgs { named : gmap str str; positional : list str }.

(** [token\[0\]]: the terminating zero when the token is empty. *)
Definition first_char (token : str) : ascii := match token with [] => "000"%char | c :: _ => c end.
Definition is_dash (token : str) : bool := bool_decide (first_char token = "-"%char).

(** One round of the loop over [argv], with the key that awaits its value. *)
Definition parse_step (st : ParsedArgs * option str) (token : str) : ParsedArgs * option str :=
  let '(args, key) := st in
  let args := match key with
              | Some k => mkArgs (<[k := if is_dash token then lit "true" else token]> (named args))
                                 (positional args)
              | None => args
              end in
  if is_dash token then (args, Some (drop 1 token))
  else (match key with
        | None => mkArgs (named args) (positional args ++ [token])
        | Some _ => args
        end, None).

(** [argv] without the program's name. *)
Definition parse_args (argv : list str) : ParsedArgs :=
  fst (foldl parse_step (mkArgs ∅ [], None) argv).

(** ** [WadiConfig] *)
Record CaptureTrackConfig := mkCapture { width : Z; height : Z; fps : Z; fourcc : str }.
Record WadiConfig := mkConfig {
  whip_endpoint : str; video_device : str; capture_config : CaptureTrackConfig
}.

Definition WadiConfig_default : WadiConfig :=
  mkConfig (lit "http://localhost:8889/wadi/whip") (lit "0") (mkCapture 1280 720 30 (lit "I420")).

(** [mempcpy(dst, src, n)] into an array. *)
Definition mempcpy (dst src : str) (n : nat) : str := take n src ++ drop n dst.

Definition upcase (s : str) : str := map toupper s.

(** [if (args.named.find(k) != end) config.x = f(args.named\[k\])]. *)
Definition option_or {A} (args : ParsedArgs) (k : string) (f : str -> A) (default : A) : A :=
  match named args !! lit k with Some v => f v | None => default end.

Definition FromArgs (argv : list str) : WadiConfig :=
  let args := parse_args argv in
  let config := WadiConfig_default in
  let cap := capture_config config in
  mkConfig
    (match positional args with p :: _ => p | [] => whip_endpoint config end)
    (option_or args "d" (fun v => v) (video_device config))
    (mkCapture
      (option_or args "w" (fun v => u32 (atoi v)) (width cap))
      (option_or args "h" (fun v => u32 (atoi v)) (height cap))
      (option_or args "r" (fun v => u32 (atoi v)) (fps cap))
      (option_or args "c"
         (fun v => mempcpy (fourcc cap) (upcase v)
                     (Z.to_nat (if 4 <? size (upcase v) then 4 else size (upcase v)))) (fourcc cap))).

(** ** The device number of [main] *)
Definition BASE_VIDEO_PATH : str := lit "/dev/video".

(** The argument of [AddCaptureDevice], a [uint8_t]. *)
Definition device_index (config : WadiConfig) : res Z :=
  d ← (if find (video_device config) BASE_VIDEO_PATH =? 0
       then substr (video_device config) (size BASE_VIDEO_PATH) npos
       else Ok (video_device config));
  Ok (u8 (atoi d)).

(** ** The grammar of the command line *)
Inductive item := Pos (s : str) | Opt (k v : str) | Flag (k : str).

Definition dashed (k : str) : str := "-"%char :: k.

Definition print_item (i : item) : list str :=
  match i with Pos s => [s] | Opt k v => [dashed k; v] | Flag k => [dashed k] end.

(** A key at the very end has no value. *)
Definition trailing (t : option str) : list str := match t with Some k => [dashed k] | None => [] end.
Definition print_items (items : list item) (t : option str) : list str :=
  concat (map print_item items) ++ trailing t.

(** A flag is told from an option by the dash of the token that follows it. *)
Fixpoint wf_items (items : list item) (t : option str) : bool :=
  match items with
  | [] => true
  | Pos s :: rest => negb (is_dash s) && wf_items rest t
  | Opt k v :: rest => negb (is_dash v) && wf_items rest t
  | Flag k :: rest => match print_items rest t with s :: _ => is_dash s | [] => false end && wf_items rest t
  end.

Definition add_item (args : ParsedArgs) (i : item) : ParsedArgs :=
  match i with
  | Pos s => mkArgs (named args) (positional args ++ [s])
  | Opt k v => mkArgs (<[k := v]> (named args)) (positional args)
  | Flag k => mkArgs (<[k := lit "true"]> (named args)) (positional args)
  end.

(** Every command line is printed from items. *)
Fixpoint itemize (argv : list str) : list item * option str :=
  match argv with
  | [] => ([], None)
  | a :: rest =>
      if is_dash a then
        match rest with
        | [] => ([], Some (drop 1 a))
        | v :: rest' =>
            if is_dash v then let '(l, t) := itemize rest in (Flag (drop 1 a) :: l, t)
            else let '(l, t) := itemize rest' in (Opt (drop 1 a) v :: l, t)
        end
      else let '(l, t) := itemize rest in (Pos a :: l, t)
  end.

Lemma is_dash_dashed k : is_dash (dashed k) = true.
Proof. reflexivity. Qed.

Lemma dashed_drop a : is_dash a = true -> dashed (drop 1 a) = a.
Proof.
  unfold is_dash. intros H. apply bool_decide_eq_true in H. destruct a as [|c a]; cbn in *; [done|].
  by rewrite H, drop_0.
Qed.

Lemma print_items_cons i items t : print_items (i :: items) t = print_item i ++ print_items items t.
Proof. unfold print_items. cbn. by rewrite <- app_assoc. Qed.

Lemma parse_step_args args key a :
  parse_step (args, Some key) (dashed a) = (add_item args (Flag key), Some a) /\
  parse_step (args, None) (dashed a) = (args, Some a).
Proof. unfold parse_step. cbn. by rewrite drop_0. Qed.

(** The loop on printed items, started with no key pending. *)
Lemma foldl_items items t : forall args,
  wf_items items t = true ->
  exists k, foldl parse_step (args, None) (print_items items t) = (foldl add_item args items, k).
Proof.
  induction items as [|i items IH]; intros args Hw.
  { destruct t; cbn; eauto. }
  rewrite print_items_cons, foldl_app. destruct i as [s|k v|k]; cbn [wf_items] in Hw; bool_prop;
    cbn [print_item foldl].
  - unfold parse_step at 2. rewrite H. by apply IH.
  - destruct (parse_step_args args [] k) as [_ ->].
    unfold parse_step at 2. rewrite H. by apply IH.
  - destruct (parse_step_args args [] k) as [_ ->].
    destruct (IH (add_item args (Flag k)) H0) as [k' E].
    destruct (print_items items t) as [|s l] eqn:Es; [done|].
    exists k'. rewrite <- E. cbn [foldl]. f_equal. unfold parse_step. by rewrite H.
Qed.

(** C4: a command line made of positional arguments, [-key value] options and [-key]
    flags (a flag being followed by another dashed token) and possibly a dangling
    key at the end is parsed to exactly those items: options and flags bind their
    key, later ones winning, positionals keep their order, and the dangling key is
    dropped. *)
Theorem parse_args_items items t :
  wf_items items t = true ->
  parse_args (print_items items t) = foldl add_item (mkArgs ∅ []) items.
Proof.
  intros Hw. unfold parse_args. by destruct (foldl_items items t (mkArgs ∅ []) Hw) as [k ->].
Qed.

Lemma parse_args_items_witness :
  parse_args [lit "-w"; lit "640"; lit "-x"; lit "-c"; lit "nv12"; lit "http://h/w"; lit "-z"]
  = foldl add_item (mkArgs ∅ [])
      [Opt (lit "w") (lit "640"); Flag (lit "x"); Opt (lit "c") (lit "nv12"); Pos (lit "http://h/w")].
Proof. exact (parse_args_items
  [Opt (lit "w") (lit "640"); Flag (lit "x"); Opt (lit "c") (lit "nv12"); Pos (lit "http://h/w")]
  (Some (lit "z")) eq_refl). Defined.

(** The grammar covers every command line: any list of arguments is the print of
    well-formed items, so [parse_args_items] describes [parse_args] completely. *)
Theorem itemize_complete argv :
  wf_items (fst (itemize argv)) (snd (itemize argv)) = true /\
  print_items (fst (itemize argv)) (snd (itemize argv)) = argv.
Proof.
  remember (length argv) as n eqn:Hn. revert argv Hn.
  induction n as [n IH] using lt_wf_ind; intros [|a rest] ->; [done|]. cbn [itemize].
  destruct (is_dash a) eqn:Ha.
  2:{ destruct (IH (length rest) ltac:(cbn; lia) rest eq_refl) as [Hw Hp].
      destruct (itemize rest) as [l t]. cbn [fst snd wf_items] in *.
      rewrite Ha, Hw, print_items_cons, Hp. done. }
  destruct rest as [|v rest]; [cbn; split; [done|]; by rewrite dashed_drop|].
  destruct (is_dash v) eqn:Hv.
  - destruct (IH (length (v :: rest)) ltac:(cbn; lia) _ eq_refl) as [Hw Hp].
    destruct (itemize (v :: rest)) as [l t]. cbn [fst snd wf_items] in *.
    rewrite Hp, Hv, Hw, print_items_cons, Hp. cbn. by rewrite dashed_drop.
  - destruct (IH (length rest) ltac:(cbn; lia) rest eq_refl) as [Hw Hp].
    destruct (itemize rest) as [l t]. cbn [fst snd wf_items] in *.
    rewrite Hv, Hw, print_items_cons, Hp. cbn [print_item app]. by rewrite dashed_drop.
Qed.

(** ** The configuration *)

(** The value a key has on the command line: its last occurrence's. *)
Fixpoint value_of (k : str) (items : list item) : option str :=
  match items with
  | [] => None
  | i :: rest =>
      match value_of k rest with
      | Some v => Some v
      | None => match i with
                | Opt k' v => if bool_decide (k = k') then Some v else None
                | Flag k' => if bool_decide (k = k') then Some (lit "true") else None
                | Pos _ => None
                end
      end
  end.

Definition positionals (items : list item) : list str :=
  omap (fun i => match i with Pos s => Some s | _ => None end) items.

Lemma named_items k items : forall args,
  named (foldl add_item args items) !! k =
  match value_of k items with Some v => Some v | None => named args !! k end.
Proof.
  induction items as [|i items IH]; intros args; [done|]. cbn [foldl value_of]. rewrite IH.
  destruct (value_of k items); [done|].
  destruct i as [s|k' v|k']; cbn [add_item named]; [done| |];
    case_bool_decide as Hk; subst; by rewrite ?lookup_insert_eq, ?lookup_insert_ne.
Qed.

Lemma positional_items items : forall args,
  positional (foldl add_item args items) = positional args ++ positionals items.
Proof.
  unfold positionals.
  induction items as [|i items IH]; intros args; cbn; [by rewrite app_nil_r|]. rewrite IH.
  destruct i as [s|k' v|k']; cbn; [by rewrite <- app_assoc|done|done].
Qed.

(** C12: the configuration of a command line: the first positional is the endpoint,
    [-d] the device, [-w], [-h], [-r] are read by [atoi] into 32 bits, and the
    upper-cased [-c] overwrites the first bytes of the default code I420, so a code
    shorter than four characters keeps the default's tail; what is not given keeps
    the default. *)
Theorem FromArgs_items items t :
  wf_items items t = true ->
  FromArgs (print_items items t) =
  mkConfig
    (default (lit "http://localhost:8889/wadi/whip") (head (positionals items)))
    (default (lit "0") (value_of (lit "d") items))
    (mkCapture
      (from_option (fun v => u32 (atoi v)) 1280 (value_of (lit "w") items))
      (from_option (fun v => u32 (atoi v)) 720 (value_of (lit "h") items))
      (from_option (fun v => u32 (atoi v)) 30 (value_of (lit "r") items))
      (from_option (fun v => take 4 (upcase v) ++ drop (length v) (lit "I420")) (lit "I420")
         (value_of (lit "c") items))).
Proof.
  intros Hw. unfold FromArgs, parse_args. destruct (foldl_items items t (mkArgs ∅ []) Hw) as [k ->].
  cbn [fst]. unfold option_or. rewrite !named_items, positional_items. cbn [positional named app].
  f_equal; [by destruct (positionals items)|by destruct (value_of _ items)|].
  f_equal; try by destruct (value_of _ items).
  destruct (value_of (lit "c") items) as [v|]; [|done]. cbn [from_option].
  unfold mempcpy, size, upcase. rewrite length_map.
  destruct (4 <? Z.of_nat (length v)) eqn:Hl; bool_prop.
  - change (Z.to_nat 4) with 4%nat. rewrite (drop_ge _ (length v)) by (cbn; lia). done.
  - rewrite Nat2Z.id, !take_ge by (rewrite length_map; lia). done.
Qed.

Lemma FromArgs_items_witness :
  FromArgs [lit "-c"; lit "nv1"; lit "-w"; lit "640"; lit "-d"; lit "/dev/video2"; lit "http://h/w"]
  = mkConfig (lit "http://h/w") (lit "/dev/video2") (mkCapture 640 720 30 (lit "NV10")).
Proof. exact (FromArgs_items
  [Opt (lit "c") (lit "nv1"); Opt (lit "w") (lit "640"); Opt (lit "d") (lit "/dev/video2"); Pos (lit "http://h/w")]
  None eq_refl). Defined.

(** Whatever the command line, the code has the four bytes of its array. *)
Lemma FromArgs_fourcc argv : length (fourcc (capture_config (FromArgs argv))) = 4%nat.
Proof.
  unfold FromArgs, option_or. cbn [capture_config fourcc].
  destruct (named _ !! lit "c") as [v|]; [|done]. unfold mempcpy, upcase, size.
  rewrite length_app, length_take, length_drop, length_map. cbn [length WadiConfig_default capture_config fourcc lit].
  change (length (lit "I420")) with 4%nat.
  destruct (4 <? Z.of_nat (length v)) eqn:Hl; bool_prop; lia.
Qed.

Lemma search_digits s : Forall (fun c => isdigit c = true) s -> s <> [] -> search BASE_VIDEO_PATH s = None.
Proof.
  intros Hs _. destruct (search BASE_VIDEO_PATH s) as [i|] eqn:E; [|done].
  apply search_Some in E as (u & v & -> & _). apply Forall_app in Hs as [_ Hs].
  by inversion Hs.
Qed.

(** The device number: a device given by its number or as a [/dev/video] path
    selects that number, modulo 256. *)
Theorem device_index_number n e c :
  0 <= n < 2 ^ 31 ->
  device_index (mkConfig e (to_string n) c) = Ok (u8 n) /\
  device_index (mkConfig e (BASE_VIDEO_PATH ++ to_string n) c) = Ok (u8 n).
Proof.
  intros Hn. unfold device_index. cbn [video_device]. split.
  - unfold find. rewrite search_digits; [|apply to_string_digits; lia|apply to_string_nonempty].
    change (of_pos None =? 0) with false. cbn [mbind res_bind]. by rewrite atoi_to_string.
  - unfold find. assert (search BASE_VIDEO_PATH (BASE_VIDEO_PATH ++ to_string n) = Some 0%nat) as ->.
    { destruct (search_is_Some BASE_VIDEO_PATH (BASE_VIDEO_PATH ++ to_string n) [] (to_string n) eq_refl)
        as (i & -> & Hi). f_equal. cbn in Hi. lia. }
    change (of_pos (Some 0%nat) =? 0) with true. cbv iota. rewrite substr_suffix.
    + cbn [mbind res_bind]. by rewrite atoi_to_string.
    + pose proof (to_string_length n). assert (Z.log2 n <= Z.log2 (2 ^ 31)) by (apply Z.log2_le_mono; lia).
      rewrite Z.log2_pow2 in * by lia. unfold npos. lia.
Qed.

Lemma device_index_number_witness :
  device_index (mkConfig [] (lit "/dev/video300") (mkCapture 0 0 0 [])) = Ok 44.
Proof. exact (proj2 (device_index_number 300 [] (mkCapture 0 0 0 []) ltac:(lia))). Defined.
