(* ===== verification/Sdp.v ===== *)
(** * Rewriting the session description

    [WHIPSession::SDPForceCodecs] of [whip.cpp]: the filter that keeps the allowed
    codecs of the video section.  The string streams are strings, a line is what
    [getline] delivers (without its line feed), and positions are [size_t] with
    their wrap-around. *)

From S2P Require Import Prelude.
From S2P Require Import CppString.

(** [line.find(p) != npos]. *)
Definition contains (line : str) (p : string) : bool := negb (find line (lit p) =? npos).

(** The locals of the loop. *)
Record SdpState := mkSdp {
  osdpstream : str; rtmapstream : str; midstream : str; current_mline : str; allowed_ids : list str
}.

Definition sdp_init : SdpState := mkSdp [] [] [] [] [].

(** [stream << line << eol]. *)
Definition put (stream line : str) : str := stream ++ line ++ CRLF.

(** The identifier and the codec's name of an [a=rtpmap] line. *)
Definition rtpmap_id (line : str) : res str :=
  let space := find_char line " " in substr line 9 (u64 (space - 9)).
Definition rtpmap_codec (line : str) : res str :=
  let space := find_char line " " in
  let slash := find_char line "/" in
  substr line (u64 (space + 1)) (u64 (u64 (slash - space) - 1)).

(** The identifier of an [a=rtcp-fb] or [a=fmtp] line. *)
Definition fb_id (line : str) : res str :=
  let space := find_char line " " in
  let dots := find_char line ":" in
  substr line (u64 (dots + 1)) (u64 (u64 (space - dots) - 1)).

(** The media line up to its third space. *)
Definition mline_no_codecs (mline : str) : res str :=
  let space := find mline [SP] in
  let space := find_from mline [SP] (u64 (space + 1)) in
  let space := find_from mline [SP] (u64 (space + 1)) in
  substr mline 0 space.

Definition print_ids (ids : list str) : str := concat (map (fun i => SP :: i) ids).

(** The block guarded by [a=ssrc]: the media line, the lines held back since, the
    codecs. *)
Definition flush (st : SdpState) : res SdpState :=
  m ← mline_no_codecs (current_mline st);
  Ok (mkSdp (osdpstream st ++ m ++ print_ids (allowed_ids st) ++ CRLF ++ midstream st ++ rtmapstream st)
        [] [] [] (allowed_ids st)).

(** One round of [while (getline(isdpstream, line))]. *)
Definition sdp_step (allowed_codecs : list str) (st : SdpState) (line : str) : res SdpState :=
  let '(mkSdp o rt mid cur ids) := st in
  if contains line "m=video" then Ok (mkSdp o rt mid line ids)
  else if contains line "a=rtpmap" then
    codec_id ← rtpmap_id line;
    codec ← rtpmap_codec line;
    Ok (if mem codec allowed_codecs then mkSdp o (put rt line) mid cur (ids ++ [codec_id]) else st)
  else if contains line "a=rtcp-fb" || contains line "a=fmtp" then
    codec_id ← fb_id line;
    Ok (if mem codec_id ids then mkSdp o (put rt line) mid cur ids else st)
  else
    st' ← (if contains line "a=ssrc" && negb (bool_decide (cur = [])) then flush st else Ok st);
    Ok (if bool_decide (current_mline st' = []) then
          mkSdp (put (osdpstream st') line) (rtmapstream st') (midstream st') [] (allowed_ids st')
        else mkSdp (osdpstream st') (rtmapstream st') (put (midstream st') line) (current_mline st')
               (allowed_ids st')).

Fixpoint sdp_loop (allowed_codecs : list str) (st : SdpState) (lines : list str) : res SdpState :=
  match lines with
  | [] => Ok st
  | line :: rest => st' ← sdp_step allowed_codecs st line; sdp_loop allowed_codecs st' rest
  end.

Definition SDPForceCodecs (sdp : str) (allowed_codecs : list str) : res str :=
  st ← sdp_loop allowed_codecs sdp_init (getlines sdp);
  Ok (osdpstream st).

(** ** Exceptions *)
Lemma find_bound s p : 0 <= find s p.
Proof. unfold find, of_pos. destruct (search p s); unfold npos; lia. Qed.

(** The position after a found character, or 0 after [npos], is within the line. *)
Lemma find_next s (c : ascii) : 0 <= u64 (find_char s c + 1) <= size s.
Proof.
  unfold find_char, find, of_pos, size. destruct (search [c] s) as [i|] eqn:E.
  - apply search_char_Some in E as (u & v & -> & _ & <-). rewrite length_app. cbn [length].
    pose proof (wrapU_range 64 (Z.of_nat (length u) + 1) ltac:(lia)) as H. unfold in_u in H.
    split; [lia|]. unfold wrapU. etransitivity; [apply Z.mod_le; lia|lia].
  - change (u64 (npos + 1)) with 0. lia.
Qed.

Lemma substr_Ok s pos n : 0 <= pos <= size s -> exists r, substr s pos n = Ok r.
Proof. intros H. unfold substr. rewrite (proj2 (Z.ltb_ge _ _)) by lia. eauto. Qed.

Lemma rtpmap_codec_Ok line : exists r, rtpmap_codec line = Ok r.
Proof. apply substr_Ok, find_next. Qed.
Lemma fb_id_Ok line : exists r, fb_id line = Ok r.
Proof. apply substr_Ok, find_next. Qed.
Lemma mline_Ok line : exists r, mline_no_codecs line = Ok r.
Proof. apply substr_Ok. unfold size. lia. Qed.

Lemma contains_true line p : contains line p = true -> exists u v, line = u ++ lit p ++ v.
Proof.
  unfold contains, find, of_pos. destruct (search (lit p) line) as [i|] eqn:E; [|done].
  apply search_Some in E as (u & v & -> & _). eauto.
Qed.

(** Of the lines that hold [a=rtpmap], only the bare keyword is too short. *)
Lemma rtpmap_id_spec line : contains line "a=rtpmap" = true ->
  if bool_decide (line = lit "a=rtpmap")
  then rtpmap_id line = Throw (OutOfRange (lit "basic_string::substr"))
  else exists r, rtpmap_id line = Ok r.
Proof.
  intros H. apply contains_true in H as (u & v & ->). case_bool_decide as Hl; [by rewrite Hl|].
  apply substr_Ok. unfold size. rewrite !length_app. change (length (lit "a=rtpmap")) with 8%nat.
  destruct u as [|c u]; [|cbn [length]; lia]. destruct v as [|c v]; [done|cbn [length]; lia].
Qed.

Lemma flush_Ok st : exists st', flush st = Ok st' /\ current_mline st' = [].
Proof. unfold flush. destruct (mline_Ok (current_mline st)) as [m ->]. cbn. eauto. Qed.

Lemma sdp_step_spec allowed st line :
  if bool_decide (line = lit "a=rtpmap")
  then sdp_step allowed st line = Throw (OutOfRange (lit "basic_string::substr"))
  else exists st', sdp_step allowed st line = Ok st'.
Proof.
  destruct st as [o rt mid cur ids]. unfold sdp_step.
  destruct (contains line "m=video") eqn:Hv.
  { rewrite bool_decide_eq_false_2; [eauto|]. intros ->. done. }
  destruct (contains line "a=rtpmap") eqn:Hr.
  { pose proof (rtpmap_id_spec line Hr) as H. case_bool_decide; [by rewrite H|].
    destruct H as [r ->], (rtpmap_codec_Ok line) as [c E]. cbn [mbind res_bind]. rewrite E. cbn. eauto. }
  rewrite bool_decide_eq_false_2 by (intros ->; done).
  destruct (contains line "a=rtcp-fb" || contains line "a=fmtp").
  { destruct (fb_id_Ok line) as [r ->]. cbn. eauto. }
  destruct (contains line "a=ssrc" && negb _); [|cbn; eauto].
  destruct (flush_Ok (mkSdp o rt mid cur ids)) as (st' & -> & _). cbn. eauto.
Qed.

(** C8: the filter's only failure: it throws [std::out_of_range] exactly when some line
    of the description is the bare keyword [a=rtpmap], and returns a description
    otherwise. *)
Theorem SDPForceCodecs_fails sdp allowed :
  (SDPForceCodecs sdp allowed = Throw (OutOfRange (lit "basic_string::substr")) <->
     lit "a=rtpmap" ∈ getlines sdp) /\
  ((exists out, SDPForceCodecs sdp allowed = Ok out) <-> lit "a=rtpmap" ∉ getlines sdp).
Proof.
  unfold SDPForceCodecs. generalize sdp_init. induction (getlines sdp) as [|line ls IH]; intros st.
  - cbn. set_solver.
  - cbn [sdp_loop]. pose proof (sdp_step_spec allowed st line) as H. case_bool_decide as Hl.
    + rewrite H. subst line. cbn. set_solver.
    + destruct H as [st' ->]. specialize (IH st'). cbn [mbind res_bind] in *.
      rewrite elem_of_cons. destruct IH as [IH1 IH2]. rewrite IH1, IH2. naive_solver.
Qed.

(** ** What comes out *)

(** Lines, each ended as the program ends them. *)
Definition emit (lines : list str) : str := concat (map (fun l => l ++ CRLF) lines).

Lemma emit_app a b : emit (a ++ b) = emit a ++ emit b.
Proof. unfold emit. by rewrite map_app, concat_app. Qed.

Lemma put_emit ls l : put (emit ls) l = emit (ls ++ [l]).
Proof. unfold put. rewrite emit_app. unfold emit at 3. cbn. by rewrite app_nil_r. Qed.

(** The kinds of line that name a codec. *)
Definition names_codec (line : str) : bool :=
  contains line "a=rtpmap" || (contains line "a=rtcp-fb" || contains line "a=fmtp").

(** *** The words of a line, read without positions *)

(** The keyword stands somewhere in the line. *)
Definition holds (line : str) (p : string) : Prop := exists u v, line = u ++ lit p ++ v.

(** The text before the first [c] (all of it without one), and the text behind it. *)
Fixpoint before (c : ascii) (s : str) : str :=
  match s with
  | [] => []
  | d :: r => if decide (d = c) then [] else d :: before c r
  end.
Fixpoint behind (c : ascii) (s : str) : option str :=
  match s with
  | [] => None
  | d :: r => if decide (d = c) then Some r else behind c r
  end.

(** The text between the first [c] and the first [d]: without a [c] it starts with the
    line, and without a [d], or with one before the [c], it goes on to the end. *)
Definition between (c d : ascii) (line : str) : str :=
  match behind c line with
  | None => before d line
  | Some tail => if decide (d ∈ before c line) then tail else before d tail
  end.

(** The payload type of an [a=rtpmap:] line: what follows its first nine characters,
    up to the space when that is the line's first. *)
Definition payload_type (line : str) : str :=
  if decide (SP ∈ take 9 line) then drop 9 line else before SP (drop 9 line).

(** The first three words of a media line; a line of two words has only its first. *)
Definition media_words (line : str) : str :=
  match behind SP line with
  | None => line
  | Some tail =>
      match behind SP tail with
      | None => before SP line
      | Some tail2 => before SP line ++ (SP :: before SP tail) ++ (SP :: before SP tail2)
      end
  end.

(** A payload type that an [a=rtpmap] line of the input maps to an allowed codec. *)
Definition permitted (allowed input : list str) (id : str) : Prop := exists line,
  line ∈ input /\ holds line "a=rtpmap" /\ payload_type line = id /\ between SP "/" line ∈ allowed.

(** Where a line of the output comes from. *)
Inductive justified (allowed input : list str) (out : str) : Prop :=
| j_plain : out ∈ input -> ~ holds out "m=video" -> ~ holds out "a=rtpmap" ->
    ~ holds out "a=rtcp-fb" -> ~ holds out "a=fmtp" -> justified allowed input out
| j_rtpmap : out ∈ input -> ~ holds out "m=video" -> holds out "a=rtpmap" ->
    between SP "/" out ∈ allowed -> justified allowed input out
| j_feedback : out ∈ input -> ~ holds out "m=video" -> ~ holds out "a=rtpmap" ->
    (holds out "a=rtcp-fb" \/ holds out "a=fmtp") ->
    permitted allowed input (between ":" SP out) -> justified allowed input out
| j_media m ids : m ∈ input -> holds m "m=video" -> Forall (permitted allowed input) ids ->
    out = media_words m ++ concat (map (fun i => SP :: i) ids) -> justified allowed input out.

(** *** The positions of the code find those words *)
Lemma cut_cases c s :
  ((c ∉ s) /\ before c s = s /\ behind c s = None) \/
  exists u v, s = u ++ (c :: v) /\ (c ∉ u) /\ before c s = u /\ behind c s = Some v.
Proof.
  induction s as [|d s IH]; [left; cbn; set_solver|]. cbn. case_decide as Hd.
  - right. subst d. exists [], s. cbn. set_solver.
  - destruct IH as [(H & -> & ->)|(u & v & -> & H & -> & ->)]; [left; set_solver|].
    right. exists (d :: u), v. cbn. set_solver.
Qed.

Lemma contains_app u p v : size (u ++ lit p ++ v) < npos -> contains (u ++ lit p ++ v) p = true.
Proof.
  intros Hs. unfold contains, find, of_pos.
  destruct (search_is_Some (lit p) (u ++ lit p ++ v) u v eq_refl) as (i & -> & Hi).
  unfold size in Hs. rewrite !length_app in Hs. apply negb_true_iff, Z.eqb_neq. lia.
Qed.

Lemma contains_holds line p : size line < npos -> if contains line p then holds line p else ~ holds line p.
Proof.
  intros Hs. destruct (contains line p) eqn:E; [by apply contains_true|].
  intros (u & v & ->). by rewrite contains_app in E.
Qed.

Lemma find_char_app u (c : ascii) v : c ∉ u -> find_char (u ++ (c :: v)) c = size u.
Proof. intros H. unfold find_char, find. by rewrite search_char_app. Qed.

Lemma find_char_none s (c : ascii) : c ∉ s -> find_char s c = npos.
Proof. intros H. unfold find_char, find. by rewrite (proj2 (search_char_None _ _) H). Qed.

Lemma find_from_app (u v : str) (c : ascii) w : c ∉ v -> find_from (u ++ v ++ (c :: w)) [c] (size u) = size (u ++ v).
Proof.
  intros Hv. unfold find_from, size. rewrite !length_app. rewrite (proj2 (Z.ltb_ge _ _)) by lia.
  rewrite Nat2Z.id, drop_app_length, search_char_app by done. lia.
Qed.

Lemma find_from_none (u v : str) (c : ascii) : c ∉ v -> find_from (u ++ v) [c] (size u) = npos.
Proof.
  intros Hv. unfold find_from, size. rewrite length_app. rewrite (proj2 (Z.ltb_ge _ _)) by lia.
  rewrite Nat2Z.id, drop_app_length. by rewrite (proj2 (search_char_None _ _) Hv).
Qed.

Lemma substr_from u v n : 0 <= n -> substr (u ++ v) (size u) n = Ok (take (Z.to_nat n) v).
Proof.
  intros Hn. unfold substr, size. rewrite length_app, (proj2 (Z.ltb_ge _ _)) by lia.
  rewrite Nat2Z.id, drop_app_length. f_equal. destruct (decide (n <= Z.of_nat (length v))).
  - by rewrite Z.min_l by lia.
  - rewrite Z.min_r, !take_ge by lia. done.
Qed.

Lemma wrap_neg z : - 2 ^ 64 <= z < 0 -> u64 z = z + 2 ^ 64.
Proof. intros H. unfold wrapU. symmetry. apply (Z.mod_unique_pos _ _ (-1)); lia. Qed.

(** [substr(first c + 1, first d - first c - 1)] with its wrapped positions. *)
Lemma substr_between s c d : c <> d -> size s < npos ->
  substr s (u64 (find_char s c + 1)) (u64 (u64 (find_char s d - find_char s c) - 1)) = Ok (between c d s).
Proof.
  intros Hcd Hs. unfold between. destruct (cut_cases c s) as [(H & -> & ->)|(u & v & E & H & -> & ->)].
  - rewrite (find_char_none s c) by done. change (u64 (npos + 1)) with (size (@nil ascii)).
    destruct (cut_cases d s) as [(Hd & -> & _)|(u & v & -> & Hd & -> & _)].
    + rewrite (find_char_none s d) by done. change (u64 (u64 (npos - npos) - 1)) with npos.
      rewrite (substr_from [] s) by (unfold npos; lia). rewrite take_ge; [done|]. unfold size in Hs. lia.
    + rewrite find_char_app by done.
      assert (0 <= size u < npos - 1) as Hu by (unfold size in *; rewrite length_app in Hs; cbn [length] in Hs; lia).
      rewrite (wrap_neg (size u - npos)), (wrapU_id 64) by (unfold in_u, npos in *; lia).
      replace (size u - npos + 2 ^ 64 - 1) with (size u) by (unfold npos; lia).
      rewrite (substr_from [] (u ++ (d :: v))) by lia. unfold size. by rewrite Nat2Z.id, take_app_length.
  - assert (size s = size u + 1 + size v /\ 0 <= size u /\ 0 <= size v) as (Hsz & Hu & Hv)
      by (subst s; unfold size; rewrite length_app; cbn [length]; lia).
    assert (find_char s c = size u) as -> by (subst s; by apply find_char_app).
    assert (forall n, size v <= n -> substr s (size u + 1) n = Ok v) as Hall.
    { intros n Hn. subst s. replace (size u + 1) with (size (u ++ [c]))
        by (unfold size; rewrite length_app; cbn; lia).
      rewrite (app_assoc u [c] v : u ++ (c :: v) = _), substr_from by lia.
      rewrite take_ge; [done|]. unfold size in Hn. lia. }
    rewrite (wrapU_id 64 (size u + 1)) by (unfold in_u, npos in *; lia).
    case_decide as Hd.
    + apply list_elem_of_split_l in Hd as (u1 & u2 & -> & Hd).
      assert (find_char s d = size u1) as -> by (subst s; rewrite <- app_assoc; by apply find_char_app).
      assert (size (u1 ++ d :: u2) = size u1 + 1 + size u2 /\ 0 <= size u1 /\ 0 <= size u2) as (E1 & ? & ?)
        by (unfold size; rewrite length_app; cbn [length]; lia).
      rewrite (wrap_neg (size u1 - _)), (wrapU_id 64) by (unfold in_u, npos in *; lia).
      apply Hall. unfold npos in *. lia.
    + destruct (cut_cases d v) as [(Hdv & -> & _)|(w & v' & -> & Hdv & -> & _)].
      * rewrite (find_char_none s d) by (subst s; set_solver).
        rewrite !(wrapU_id 64) by (unfold in_u, npos in *; try rewrite (wrapU_id 64) by (unfold in_u; lia); lia).
        apply Hall. unfold npos in *. lia.
      * assert (size (w ++ (d :: v')) = size w + 1 + size v' /\ 0 <= size w /\ 0 <= size v') as (E1 & ? & ?)
          by (unfold size; rewrite length_app; cbn [length]; lia).
        assert (s = (u ++ [c]) ++ w ++ (d :: v')) as -> by (subst s; by rewrite <- app_assoc).
        assert (size (u ++ [c]) = size u + 1) as Euc by (unfold size; rewrite length_app; cbn [length]; lia).
        rewrite (app_assoc (u ++ [c])), find_char_app by set_solver.
        assert (size ((u ++ [c]) ++ w) = size u + 1 + size w) as ->
          by (unfold size in *; rewrite length_app; lia).
        rewrite (wrapU_id 64 (size u + 1 + size w - size u)), (wrapU_id 64) by (unfold in_u, npos in *; lia).
        replace (size u + 1 + size w - size u - 1) with (size w) by lia.
        rewrite <- Euc, <- app_assoc, substr_from by lia.
        unfold size. by rewrite Nat2Z.id, take_app_length.
Qed.

Lemma rtpmap_codec_text line : size line < npos -> rtpmap_codec line = Ok (between SP "/" line).
Proof. intros H. by apply substr_between. Qed.
Lemma fb_id_text line : size line < npos -> fb_id line = Ok (between ":" SP line).
Proof. intros H. by apply substr_between. Qed.

Lemma rtpmap_id_text line id : size line < npos -> rtpmap_id line = Ok id -> id = payload_type line.
Proof.
  intros Hs. unfold rtpmap_id, payload_type. change " "%char with SP. destruct (decide (size line < 9)) as [Hl|Hl].
  { unfold substr. rewrite (proj2 (Z.ltb_lt _ _)) by lia. done. }
  pose proof (take_drop 9 line) as E. set (u := take 9 line) in *. set (v := drop 9 line) in *.
  assert (size u = 9) as Hu by (unfold u, size in *; rewrite length_take; lia).
  assert (size line = 9 + size v) as Hv by (rewrite <- E; unfold size in *; rewrite length_app; lia).
  assert (0 <= size v) by (unfold size; lia).
  assert (forall n, size v <= n -> substr line 9 n = Ok v) as Hall.
  { intros n Hn. rewrite <- Hu, <- E, substr_from, take_ge; [done| |lia]. unfold size in Hn. lia. }
  case_decide as Hd.
  - apply list_elem_of_split_l in Hd as (u1 & u2 & Eu & Hd).
    assert (size u = size u1 + 1 + size u2 /\ 0 <= size u1 /\ 0 <= size u2) as (E1 & ? & ?)
      by (rewrite Eu; unfold size; rewrite length_app; cbn [length]; lia).
    assert (find_char line SP = size u1) as -> by (rewrite <- E, Eu, <- app_assoc; by apply find_char_app).
    rewrite wrap_neg by lia. rewrite Hall by (unfold npos in *; lia). by intros [= ->].
  - destruct (cut_cases SP v) as [(Hdv & -> & _)|(w & v' & Ev & Hdv & -> & _)].
    + rewrite (find_char_none line) by (rewrite <- E; set_solver).
      change (u64 (npos - 9)) with (npos - 9). rewrite Hall by (unfold npos in *; lia). by intros [= ->].
    + rewrite <- E, Ev, (app_assoc u), find_char_app by set_solver.
      assert (size (u ++ w) = 9 + size w) as -> by (unfold size in *; rewrite length_app; lia).
      assert (size v = size w + 1 + size v' /\ 0 <= size w /\ 0 <= size v') as (E1 & ? & ?)
        by (rewrite Ev; unfold size; rewrite length_app; cbn [length]; lia).
      rewrite wrapU_id by (unfold in_u, npos in *; lia). replace (9 + size w - 9) with (size w) by lia.
      rewrite <- Hu, <- app_assoc, substr_from by lia. unfold size. rewrite Nat2Z.id, take_app_length.
      by intros [= ->].
Qed.

Lemma mline_text line : size line < npos -> mline_no_codecs line = Ok (media_words line).
Proof.
  intros Hs. unfold mline_no_codecs, media_words.
  assert (forall s, size s < npos -> substr s 0 npos = Ok s) as Hall.
  { intros s Hn. rewrite substr_prefix, take_ge; [done| |unfold npos; lia]. unfold size in Hn. lia. }
  destruct (cut_cases SP line) as [(H & _ & ->)|(u & v & -> & H & -> & ->)].
  { pose proof (find_char_none line SP H) as E. unfold find_char in E. rewrite E.
    pose proof (find_from_none [] line SP H : find_from line [SP] 0 = npos) as E0.
    change (u64 (npos + 1)) with 0. rewrite E0. change (u64 (npos + 1)) with 0. rewrite E0. by apply Hall. }
  pose proof (find_char_app u SP v H) as E. unfold find_char in E. rewrite E.
  assert (size (u ++ (SP :: v)) = size u + 1 + size v /\ 0 <= size u /\ 0 <= size v) as (Hsz & ? & ?)
    by (unfold size; rewrite length_app; cbn [length]; lia).
  rewrite (wrapU_id 64 (size u + 1)) by (unfold in_u, npos in *; lia).
  assert (size (u ++ [SP]) = size u + 1) as Eu by (unfold size; rewrite length_app; cbn [length]; lia).
  rewrite <- Eu. rewrite (app_assoc u [SP] v : u ++ (SP :: v) = _) in *.
  destruct (cut_cases SP v) as [(H2 & _ & ->)|(w & x & -> & H2 & -> & ->)].
  { rewrite find_from_none by done. change (u64 (npos + 1)) with (size (@nil ascii)).
    rewrite <- app_assoc. change (find_from (u ++ [SP] ++ v) [SP] (size (@nil ascii))) with
      (find_from ([] ++ u ++ (SP :: v)) [SP] (size (@nil ascii))). rewrite find_from_app by done.
    rewrite substr_prefix by (unfold size; lia). cbn [app]. unfold size. by rewrite Nat2Z.id, take_app_length. }
  rewrite find_from_app by done.
  assert (size (w ++ (SP :: x)) = size w + 1 + size x /\ 0 <= size w /\ 0 <= size x) as (Hsz2 & ? & ?)
    by (unfold size; rewrite length_app; cbn [length]; lia).
  assert (size ((u ++ [SP]) ++ w) = size u + 1 + size w) as Euw by (unfold size in *; rewrite length_app; lia).
  rewrite (wrapU_id 64) by (unfold in_u, npos in *; lia).
  assert (size (((u ++ [SP]) ++ w) ++ [SP]) = size u + 1 + size w + 1) as Ew
    by (unfold size in *; rewrite length_app; cbn [length]; lia).
  replace (size ((u ++ [SP]) ++ w) + 1) with (size (((u ++ [SP]) ++ w) ++ [SP])) by lia.
  assert ((u ++ [SP]) ++ w ++ (SP :: x) = (((u ++ [SP]) ++ w) ++ [SP]) ++ x) as El by (by rewrite <- !app_assoc).
  rewrite El in *. destruct (cut_cases SP x) as [(Hx & -> & _)|(y & z & -> & Hx & -> & _)].
  - rewrite find_from_none by done. rewrite Hall by done. f_equal. by rewrite <- !app_assoc.
  - rewrite find_from_app by done. rewrite substr_prefix by (unfold size; lia).
    rewrite (app_assoc _ y). unfold size. rewrite Nat2Z.id, take_app_length. f_equal. by rewrite <- !app_assoc.
Qed.

(** The loop's invariant: every stream is a list of justified lines. *)
Record sdp_inv (allowed input : list str) (st : SdpState) : Prop := {
  inv_out : exists ls, osdpstream st = emit ls /\ Forall (justified allowed input) ls;
  inv_rt : exists ls, rtmapstream st = emit ls /\ Forall (justified allowed input) ls;
  inv_mid : exists ls, midstream st = emit ls /\ Forall (justified allowed input) ls;
  inv_cur : current_mline st = [] \/ (current_mline st ∈ input /\ holds (current_mline st) "m=video");
  inv_ids : Forall (permitted allowed input) (allowed_ids st)
}.

Lemma put_justified allowed input stream line :
  (exists ls, stream = emit ls /\ Forall (justified allowed input) ls) -> justified allowed input line ->
  exists ls, put stream line = emit ls /\ Forall (justified allowed input) ls.
Proof.
  intros (ls & -> & Hls) Hl. exists (ls ++ [line]). rewrite put_emit. split; [done|].
  apply Forall_app. split; [done|]. by constructor.
Qed.

Lemma flush_inv allowed input st st' : Forall (fun l => size l < npos) input ->
  sdp_inv allowed input st -> current_mline st <> [] ->
  flush st = Ok st' -> sdp_inv allowed input st' /\ current_mline st' = [].
Proof.
  intros Hsz [(lo & Ho & Hlo) (lr & Hr & Hlr) (lm & Hm & Hlm) [Hnil|[Hin Hv]] Hi] Hc H; [done|].
  rewrite list.Forall_forall in Hsz. unfold flush in H. rewrite mline_text in H by auto. inv_res. split; [|done]. constructor; cbn; [|by exists []..|by left|done].
  exists (lo ++ [media_words (current_mline st) ++ print_ids (allowed_ids st)] ++ lm ++ lr). split.
  - rewrite !emit_app, Ho, Hm, Hr. do 1 f_equal. unfold emit at 1. cbn.
    rewrite app_nil_r, <- !app_assoc. done.
  - rewrite !Forall_app. split_and!; try done. constructor; [|constructor]. by eapply j_media.
Qed.

Lemma sdp_step_inv allowed input st line st' : Forall (fun l => size l < npos) input ->
  line ∈ input -> sdp_inv allowed input st -> sdp_step allowed st line = Ok st' -> sdp_inv allowed input st'.
Proof.
  intros Hsz Hin Hst. pose proof Hst as [Ho Hr Hm Hc Hi]. destruct st as [o rt mid cur ids]. unfold sdp_step.
  assert (size line < npos) as Hl by (rewrite list.Forall_forall in Hsz; auto).
  pose proof (contains_holds line "m=video" Hl) as Kv. pose proof (contains_holds line "a=rtpmap" Hl) as Kr.
  pose proof (contains_holds line "a=rtcp-fb" Hl) as Kb. pose proof (contains_holds line "a=fmtp" Hl) as Kf.
  destruct (contains line "m=video").
  { intros H; inv_res. constructor; cbn; auto. }
  destruct (contains line "a=rtpmap").
  { intros H. apply bind_Ok in H as (id & Hid & H). apply (rtpmap_id_text _ _ Hl) in Hid as ->.
    rewrite rtpmap_codec_text in H by done. inv_res. destruct (mem _ allowed) eqn:Ha; [|done].
    apply mem_true in Ha. constructor; cbn; auto.
    - apply put_justified; [done|]. by apply j_rtpmap.
    - apply Forall_app. split; [done|]. constructor; [|constructor]. red. eauto 10. }
  destruct (contains line "a=rtcp-fb" || contains line "a=fmtp") eqn:Hfb.
  { rewrite fb_id_text by done. intros H; inv_res. destruct (mem _ ids) eqn:Ha; [|done]. apply mem_true in Ha.
    constructor; cbn; auto. apply put_justified; [done|]. apply j_feedback; [done..| |].
    - apply orb_prop in Hfb as [E|E]; rewrite E in *; auto.
    - cbn in Hi. rewrite list.Forall_forall in Hi. auto. }
  apply orb_false_elim in Hfb as [E1 E2]. rewrite E1 in Kb. rewrite E2 in Kf.
  assert (justified allowed input line) as Hj by (by apply j_plain).
  intros H. apply bind_Ok in H as (st1 & H1 & H).
  assert (sdp_inv allowed input st1) as Hst1.
  { destruct (contains line "a=ssrc" && negb _) eqn:E; [|by simplify_eq]. bool_prop.
    by apply (flush_inv _ _ _ _ Hsz Hst). }
  destruct Hst1 as [Ho1 Hr1 Hm1 Hc1 Hi1]. destruct (bool_decide (current_mline st1 = [])); inv_res;
    constructor; cbn; auto; by apply put_justified.
Qed.

Lemma sdp_loop_inv allowed input ls : Forall (fun l => size l < npos) input -> forall st st', sdp_inv allowed input st ->
  sdp_loop allowed st ls = Ok st' -> (forall l, l ∈ ls -> l ∈ input) -> sdp_inv allowed input st'.
Proof.
  intros Hsz. induction ls as [|l ls IH]; intros st st' Hi H Hsub; cbn in H; [by simplify_eq|].
  apply bind_Ok in H as (st1 & H1 & H). eapply IH; [|exact H|set_solver].
  eapply sdp_step_inv; [done| |done|done]. apply Hsub. left.
Qed.

Lemma getlines_from_size s : forall cur, Forall (fun l => size l <= size cur + size s) (getlines_from cur s).
Proof.
  unfold size. induction s as [|c s IH]; intros cur; cbn [getlines_from].
  - destruct cur; repeat constructor. cbn. lia.
  - case_bool_decide; [constructor; [cbn; lia|]|]; eapply Forall_impl; try apply IH; intros l Hl; cbn [length] in *;
      rewrite ?length_app in Hl; cbn [length] in *; lia.
Qed.

(** C7: nothing slips through the filter: of a description shorter than 2^64 - 1 bytes,
    every line it emits is an input line that holds none of [m=video], [a=rtpmap],
    [a=rtcp-fb] and [a=fmtp]; or an input line with [a=rtpmap] whose text between the
    first space and the first slash is an allowed codec; or an input line with
    [a=rtcp-fb] or [a=fmtp], and without [a=rtpmap], whose payload type, between the
    first colon and the first space, is one that an [a=rtpmap] line of the input maps
    to an allowed codec; or the first three words of an [m=video] line of the input
    (of a line of two words its first) followed by payload types that are all so
    mapped.  Where an end of such a text is missing, or stands before its beginning,
    the text runs to the end of the line, and without a beginning it starts with the
    line; the payload type of an [a=rtpmap] line starts at its tenth character.  Each
    emitted line is ended by CR LF. *)
Theorem SDPForceCodecs_safe sdp allowed out :
  size sdp < npos -> SDPForceCodecs sdp allowed = Ok out ->
  exists lines, out = concat (map (fun l => l ++ [CR; LF]) lines) /\
                Forall (justified allowed (getlines sdp)) lines.
Proof.
  unfold SDPForceCodecs. intros Hs H. apply bind_Ok in H as (st & H & [= <-]).
  cut (sdp_inv allowed (getlines sdp) st); [by intros [? _ _ _ _]|].
  assert (Forall (fun l => size l < npos) (getlines sdp)) as Hsz.
  { eapply Forall_impl; [|apply (getlines_from_size sdp [])]. intros l. unfold size in *. cbn. lia. }
  refine (sdp_loop_inv _ _ _ Hsz _ _ _ H _); [|auto].
  constructor; cbn; try (by exists []); [by left|constructor].
Qed.

(** ** A video offer *)

(** The lines of a video section before its first [a=ssrc]. *)
Inductive sline :=
| Plain (l : str)
| Rtpmap (id codec rest : str)
| Feedback (fmtp : bool) (id rest : str).

Definition print_sline (s : sline) : str :=
  match s with
  | Plain l => l
  | Rtpmap id codec rest => lit "a=rtpmap:" ++ id ++ (SP :: codec ++ ("/"%char :: rest))
  | Feedback fmtp id rest => lit (if fmtp then "a=fmtp:" else "a=rtcp-fb:") ++ id ++ (SP :: rest)
  end.

(** Lines that the filter copies. *)
Definition plain (l : str) : bool := negb (contains l "m=video") && negb (names_codec l).

Definition wf_sline (s : sline) : bool :=
  (size (print_sline s) <? npos) && negb (contains (print_sline s) "m=video") &&
  match s with
  | Plain l => plain l && negb (contains l "a=ssrc")
  | Rtpmap id codec rest => negb (mem SP id) && negb (mem "/"%char id) && negb (mem "/"%char codec)
  | Feedback _ id rest => negb (contains (print_sline s) "a=rtpmap") && negb (mem SP id)
  end.

Record offer := mkOffer {
  of_session : list str;   (* before the video section *)
  of_port : str; of_proto : str; of_formats : str;   (* the media line *)
  of_body : list sline;
  of_ssrc : str;
  of_rest : list str
}.

Definition of_words (f : offer) : str := lit "m=video " ++ of_port f ++ (SP :: of_proto f).
Definition of_mline (f : offer) : str := of_words f ++ of_formats f.

Definition print_offer (f : offer) : list str :=
  of_session f ++ (of_mline f :: map print_sline (of_body f)) ++ (of_ssrc f :: of_rest f).

Definition wf_offer (f : offer) : bool :=
  forallb plain (of_session f) &&
  (negb (mem SP (of_port f)) && negb (mem SP (of_proto f)) && (size (of_mline f) <? npos) &&
   match of_formats f with [] => true | c :: _ => bool_decide (c = SP) end) &&
  forallb wf_sline (of_body f) &&
  (plain (of_ssrc f) && contains (of_ssrc f) "a=ssrc") &&
  forallb plain (of_rest f).

(** The payload types of the allowed codecs, and the lines kept for them. *)
Fixpoint codec_ids (allowed : list str) (body : list sline) : list str :=
  match body with
  | [] => []
  | Rtpmap id codec _ :: rest => (if mem codec allowed then [id] else []) ++ codec_ids allowed rest
  | _ :: rest => codec_ids allowed rest
  end.

Fixpoint codec_lines (allowed ids : list str) (body : list sline) : list str :=
  match body with
  | [] => []
  | Plain _ :: rest => codec_lines allowed ids rest
  | (Rtpmap id codec _ as s) :: rest =>
      if mem codec allowed then print_sline s :: codec_lines allowed (ids ++ [id]) rest
      else codec_lines allowed ids rest
  | (Feedback _ id _ as s) :: rest =>
      (if mem id ids then [print_sline s] else []) ++ codec_lines allowed ids rest
  end.

Definition plain_lines (body : list sline) : list str :=
  omap (fun s => match s with Plain l => Some l | _ => None end) body.

Definition filtered_offer (allowed : list str) (f : offer) : list str :=
  of_session f ++
  ((of_words f ++ concat (map (fun i => SP :: i) (codec_ids allowed (of_body f)))) :: plain_lines (of_body f)) ++
  codec_lines allowed [] (of_body f) ++ (of_ssrc f :: of_rest f).

(** *** Parsing back the printed lines *)
Lemma mem_false {A} `{EqDecision A} (x : A) l : mem x l = false <-> x ∉ l.
Proof. unfold mem. apply bool_decide_eq_false. Qed.

Lemma substr_middle u v w : substr (u ++ v ++ w) (size u) (size v) = Ok v.
Proof.
  unfold substr, size. rewrite !length_app. rewrite (proj2 (Z.ltb_ge _ _)) by lia.
  rewrite Z.min_l, !Nat2Z.id by lia. by rewrite drop_app_length, take_app_length.
Qed.

Lemma rtpmap_line id codec rest :
  let line := lit "a=rtpmap:" ++ id ++ (SP :: codec ++ ("/"%char :: rest)) in
  size line < npos -> SP ∉ id -> "/"%char ∉ id -> "/"%char ∉ codec ->
  rtpmap_id line = Ok id /\ rtpmap_codec line = Ok codec.
Proof.
  intros line Hs H1 H2 H3. unfold npos in Hs.
  assert (find_char line " " = 9 + size id) as Hsp.
  { unfold line. rewrite app_assoc. change " "%char with SP. rewrite find_char_app.
    - unfold size. rewrite length_app. change (length (lit "a=rtpmap:")) with 9%nat. lia.
    - rewrite elem_of_app. intros [H|H]; [|done]. revert H. by apply (bool_decide_eq_true_1 _). }
  assert (line = (lit "a=rtpmap:" ++ id ++ [SP]) ++ codec ++ ("/"%char :: rest)) as Hl.
  { unfold line. by rewrite <- !app_assoc. }
  assert (find_char line "/" = 10 + size id + size codec) as Hsl.
  { rewrite Hl, app_assoc, find_char_app.
    - unfold size. rewrite !length_app. change (length (lit "a=rtpmap:")) with 9%nat. cbn [length]. lia.
    - rewrite !elem_of_app, list_elem_of_singleton. intros [[H|[H|H]]|H]; try done.
      revert H. by apply (bool_decide_eq_true_1 _). }
  assert (size line = 11 + size id + size codec + size rest) as Hsz.
  { unfold line, size. rewrite !length_app. change (length (lit "a=rtpmap:")) with 9%nat.
    cbn [length]. rewrite length_app. cbn [length]. lia. }
  assert (0 <= size id /\ 0 <= size codec /\ 0 <= size rest) by (unfold size; lia).
  unfold rtpmap_id, rtpmap_codec. rewrite Hsp, Hsl. split.
  - rewrite wrapU_id by (unfold in_u; lia). replace (9 + size id - 9) with (size id) by lia.
    apply (substr_middle (lit "a=rtpmap:")).
  - rewrite (wrapU_id 64 (9 + size id + 1)) by (unfold in_u; lia).
    rewrite (wrapU_id 64 (10 + size id + size codec - (9 + size id))) by (unfold in_u; lia).
    rewrite wrapU_id by (unfold in_u; lia).
    replace (10 + size id + size codec - (9 + size id) - 1) with (size codec) by lia.
    replace (9 + size id + 1) with (size (lit "a=rtpmap:" ++ id ++ [SP])).
    { rewrite Hl. apply substr_middle. }
    unfold size. rewrite !length_app. change (length (lit "a=rtpmap:")) with 9%nat. cbn [length]. lia.
Qed.

Lemma feedback_line kw id rest : SP ∉ kw -> ":"%char ∉ kw ->
  let line := (kw ++ [":"%char]) ++ id ++ (SP :: rest) in
  size line < npos -> SP ∉ id -> fb_id line = Ok id.
Proof.
  intros Hk Hc line Hs H1. unfold npos in Hs.
  assert (find_char line " " = size kw + 1 + size id) as Hsp.
  { unfold line. rewrite app_assoc. change " "%char with SP. rewrite find_char_app.
    - unfold size. rewrite !length_app. cbn [length]. lia.
    - rewrite !elem_of_app, list_elem_of_singleton. by intros [[?|?]|?]. }
  assert (find_char line ":" = size kw) as Hd.
  { unfold line. rewrite <- app_assoc. by apply find_char_app. }
  assert (size line = size kw + 2 + size id + size rest) as Hsz.
  { unfold line, size. rewrite !length_app. cbn [length]. lia. }
  assert (0 <= size id /\ 0 <= size kw /\ 0 <= size rest) by (unfold size; lia).
  unfold fb_id. rewrite Hsp, Hd.
  rewrite (wrapU_id 64 (size kw + 1)) by (unfold in_u; lia).
  rewrite (wrapU_id 64 (size kw + 1 + size id - size kw)) by (unfold in_u; lia).
  rewrite wrapU_id by (unfold in_u; lia).
  replace (size kw + 1 + size id - size kw - 1) with (size id) by lia.
  replace (size kw + 1) with (size (kw ++ [":"%char])).
  { apply substr_middle. }
  unfold size. rewrite length_app. cbn [length]. lia.
Qed.

Lemma mline_words port proto formats :
  let words := lit "m=video " ++ port ++ (SP :: proto) in
  SP ∉ port -> SP ∉ proto -> size (words ++ formats) < npos ->
  match formats with [] => true | c :: _ => bool_decide (c = SP) end = true ->
  mline_no_codecs (words ++ formats) = Ok words.
Proof.
  intros words H1 H2 Hs Hf. unfold npos in Hs.
  assert (words ++ formats = lit "m=video " ++ port ++ (SP :: proto ++ formats)) as E1.
  { unfold words. by rewrite <- !app_assoc. }
  assert (words ++ formats = (lit "m=video " ++ port ++ [SP]) ++ proto ++ formats) as E2.
  { unfold words. by rewrite <- !app_assoc. }
  assert (size (words ++ formats) = 9 + size port + size proto + size formats) as Hsz.
  { rewrite E1. unfold size. rewrite !length_app. change (length (lit "m=video ")) with 8%nat.
    cbn [length]. rewrite length_app. lia. }
  assert (size (lit "m=video " ++ port ++ [SP]) = 9 + size port) as Hsz2.
  { unfold size. rewrite !length_app. change (length (lit "m=video ")) with 8%nat. cbn [length]. lia. }
  assert (0 <= size port /\ 0 <= size proto /\ 0 <= size formats) by (unfold size; lia).
  unfold mline_no_codecs.
  assert (find (words ++ formats) [SP] = 7) as ->.
  { rewrite E1. apply (find_char_app (lit "m=video") SP (port ++ (SP :: proto ++ formats))). by apply (bool_decide_eq_true_1 _). }
  change (u64 (7 + 1)) with (size (lit "m=video ")).
  rewrite E1, find_from_app by done.
  replace (u64 (size (lit "m=video " ++ port) + 1)) with (size (lit "m=video " ++ port ++ [SP])).
  2:{ rewrite wrapU_id; unfold in_u, size in *; rewrite !length_app in *;
      change (length (lit "m=video ")) with 8%nat in *; cbn [length] in *; lia. }
  rewrite <- E1, E2. destruct formats as [|c formats].
  - rewrite !app_nil_r in *. rewrite find_from_none by done. rewrite substr_prefix by (unfold npos; lia).
    rewrite <- E2. f_equal. apply take_ge. unfold size, npos in *. lia.
  - bool_prop. subst c. rewrite find_from_app by done. rewrite substr_prefix by (unfold size; lia).
    rewrite (app_assoc _ proto). unfold size. rewrite Nat2Z.id, take_app_length. unfold words.
    by rewrite <- !app_assoc.
Qed.

(** *** The loop on a printed offer *)
Lemma step_plain_out allowed o rt mid ids l : plain l = true ->
  sdp_step allowed (mkSdp o rt mid [] ids) l = Ok (mkSdp (put o l) rt mid [] ids).
Proof.
  unfold plain, names_codec. intros H. bool_prop. unfold sdp_step.
  repeat match goal with H : contains l _ = false |- _ => rewrite H; clear H end. cbn [orb].
  rewrite (bool_decide_eq_true_2 (@nil ascii = [])), andb_false_r by done. done.
Qed.

Lemma loop_plain allowed ls : forall o rt mid ids, forallb plain ls = true ->
  forall k, sdp_loop allowed (mkSdp o rt mid [] ids) (ls ++ k) =
            sdp_loop allowed (mkSdp (o ++ emit ls) rt mid [] ids) k.
Proof.
  induction ls as [|l ls IH]; intros o rt mid ids H k; cbn [app sdp_loop forallb] in *.
  - unfold emit. cbn. by rewrite app_nil_r.
  - bool_prop. rewrite step_plain_out by done. cbn [mbind res_bind]. rewrite IH by done.
    do 2 f_equal. unfold put, emit. cbn. by rewrite <- !app_assoc.
Qed.

Lemma step_body allowed s o rt mid cur ids : wf_sline s = true -> cur <> [] ->
  sdp_step allowed (mkSdp o rt mid cur ids) (print_sline s) =
  Ok (match s with
      | Plain l => mkSdp o rt (put mid l) cur ids
      | Rtpmap id codec _ =>
          if mem codec allowed then mkSdp o (put rt (print_sline s)) mid cur (ids ++ [id])
          else mkSdp o rt mid cur ids
      | Feedback _ id _ => if mem id ids then mkSdp o (put rt (print_sline s)) mid cur ids
                           else mkSdp o rt mid cur ids
      end).
Proof.
  unfold wf_sline. intros H Hc. apply andb_prop in H as [[Hsz Hm]%andb_prop H].
  bool_prop. unfold sdp_step. rewrite Hm.
  destruct s as [l|id codec rest|fmtp id rest]; bool_prop.
  - unfold plain, names_codec in *. cbn [print_sline] in *. bool_prop.
    repeat match goal with H : contains l _ = false |- _ => rewrite H; clear H end.
    cbn [orb andb mbind res_bind current_mline]. by rewrite bool_decide_eq_false_2.
  - rewrite mem_false in *. change (print_sline (Rtpmap id codec rest)) with
      (lit "a=rtpmap:" ++ id ++ (SP :: codec ++ ("/"%char :: rest))) in *.
    assert (contains (lit "a=rtpmap:" ++ id ++ (SP :: codec ++ ("/"%char :: rest))) "a=rtpmap" = true) as ->
      by (apply (contains_app [] "a=rtpmap" (":"%char :: id ++ (SP :: codec ++ ("/"%char :: rest)))); done).
    destruct (rtpmap_line id codec rest) as [-> E2]; try done.
    cbn [mbind res_bind]. by rewrite E2.
  - rewrite mem_false in *.
    match goal with H : contains _ "a=rtpmap" = false |- _ => rewrite H end.
    assert (fb_id (print_sline (Feedback fmtp id rest)) = Ok id) as E.
    { destruct fmtp; cbn [print_sline] in *.
      - apply (feedback_line (lit "a=fmtp")); try done; by apply (bool_decide_eq_true_1 _).
      - apply (feedback_line (lit "a=rtcp-fb")); try done; by apply (bool_decide_eq_true_1 _). }
    assert (contains (print_sline (Feedback fmtp id rest)) "a=rtcp-fb" ||
            contains (print_sline (Feedback fmtp id rest)) "a=fmtp" = true) as ->.
    { destruct fmtp; cbn [print_sline] in *.
      - apply orb_true_intro. right. by apply (contains_app [] "a=fmtp" (":"%char :: id ++ (SP :: rest))).
      - apply orb_true_intro. left. by apply (contains_app [] "a=rtcp-fb" (":"%char :: id ++ (SP :: rest))). }
    by rewrite E.
Qed.

Lemma put_app_emit s t l ls : put s l ++ emit ls ++ t = s ++ emit (l :: ls) ++ t.
Proof. unfold put, emit. cbn. by rewrite <- !app_assoc. Qed.

Lemma loop_body allowed body : forall o rt mid cur ids k, forallb wf_sline body = true -> cur <> [] ->
  sdp_loop allowed (mkSdp o rt mid cur ids) (map print_sline body ++ k) =
  sdp_loop allowed (mkSdp o (rt ++ emit (codec_lines allowed ids body)) (mid ++ emit (plain_lines body))
                      cur (ids ++ codec_ids allowed body)) k.
Proof.
  induction body as [|s body IH]; intros o rt mid cur ids k H Hc; cbn [map app sdp_loop forallb] in *.
  { cbn. by rewrite !app_nil_r. }
  apply andb_prop in H as [Hs Hb]. rewrite step_body by done. cbn [mbind res_bind].
  pose proof (fun s l ls => put_app_emit s [] l ls) as Hput. setoid_rewrite app_nil_r in Hput.
  destruct s as [l|id codec rest|fmtp id rest]; cbn [codec_lines codec_ids plain_lines omap list_omap].
  - rewrite IH by done. by rewrite Hput.
  - destruct (mem codec allowed); rewrite IH by done; [|done]. by rewrite Hput, <- app_assoc.
  - destruct (mem id ids); rewrite IH by done; [|done]. by rewrite Hput.
Qed.

Lemma of_mline_nonempty f : of_mline f <> [].
Proof. done. Qed.

Lemma step_mline allowed f o rt mid cur ids : size (of_mline f) < npos ->
  sdp_step allowed (mkSdp o rt mid cur ids) (of_mline f) = Ok (mkSdp o rt mid (of_mline f) ids).
Proof.
  intros Hs. unfold sdp_step.
  assert (contains (of_mline f) "m=video" = true) as ->; [|done].
  apply (contains_app [] "m=video" (SP :: (of_port f ++ SP :: of_proto f) ++ of_formats f)). exact Hs.
Qed.

Lemma step_ssrc allowed words m o rt mid ids l : plain l = true -> contains l "a=ssrc" = true ->
  m <> [] -> mline_no_codecs m = Ok words ->
  sdp_step allowed (mkSdp o rt mid m ids) l =
  Ok (mkSdp (put (o ++ words ++ print_ids ids ++ CRLF ++ mid ++ rt) l) [] [] [] ids).
Proof.
  unfold plain, names_codec. intros H Hs Hm Hw. bool_prop. unfold sdp_step.
  repeat match goal with H : contains l _ = false |- _ => rewrite H; clear H end.
  rewrite Hs, (bool_decide_eq_false_2 (m = [])) by done. cbn [orb andb negb].
  unfold flush. cbn [current_mline]. rewrite Hw. done.
Qed.

(** C2: the filter on a video offer: the session lines are copied; the media line keeps
    its port and protocol and lists exactly the payload types mapped to allowed
    codecs, in order; then come the section's other lines, the [a=rtpmap] lines of
    the allowed codecs with the feedback and format lines of their payload types,
    and the lines from the first [a=ssrc] on.  Each line is followed by CR LF, after
    whatever the input line ended with (a CR included). *)
Theorem SDPForceCodecs_offer allowed f :
  wf_offer f = true /\ Forall (fun l => LF ∉ l) (print_offer f) ->
  SDPForceCodecs (concat (map (fun l => l ++ [LF]) (print_offer f))) allowed =
  Ok (emit (filtered_offer allowed f)).
Proof.
  intros [Hw Hlf]. unfold SDPForceCodecs. rewrite getlines_concat by done.
  unfold wf_offer in Hw. apply andb_prop in Hw as [Hw Hrest]. apply andb_prop in Hw as [Hw [Hss Hs]%andb_prop].
  apply andb_prop in Hw as [Hw Hbody]. apply andb_prop in Hw as [Hse Hm].
  apply andb_prop in Hm as [[[Hp Hpr]%andb_prop Hsz]%andb_prop Hf]. bool_prop. rewrite mem_false in *.
  unfold print_offer, sdp_init. rewrite loop_plain by done. cbn [app sdp_loop].
  rewrite step_mline by done. cbn [mbind res_bind]. rewrite loop_body by done. cbn [app sdp_loop].
  rewrite (step_ssrc _ (of_words f)); [|done|done|done|].
  2:{ by apply mline_words. }
  cbn [mbind res_bind]. rewrite <- (app_nil_r (of_rest f)) at 1. rewrite loop_plain by done.
  cbn [sdp_loop mbind res_bind osdpstream]. f_equal. unfold filtered_offer.
  rewrite !emit_app. unfold put, emit.
  cbn [map concat app]. rewrite <- !app_assoc. cbn [app]. done.
Qed.

(** A Chrome-like offer with three codecs, lines ending in CR. *)
Definition demo_offer : offer :=
  mkOffer [lit "v=0" ++ [CR]; lit "s=-" ++ [CR]] (lit "9") (lit "UDP/TLS/RTP/SAVPF") (lit " 96 97 102" ++ [CR])
    [Plain (lit "a=mid:0" ++ [CR]); Rtpmap (lit "96") (lit "VP8") (lit "90000" ++ [CR]);
     Feedback false (lit "96") (lit "nack" ++ [CR]);
     Rtpmap (lit "97") (lit "rtx") (lit "90000" ++ [CR]); Feedback true (lit "97") (lit "apt=96" ++ [CR]);
     Rtpmap (lit "102") (lit "H264") (lit "90000" ++ [CR]); Feedback true (lit "102") (lit "x=1" ++ [CR])]
    (lit "a=ssrc:1 cname:a" ++ [CR]) [lit "a=ssrc:1 msid:b" ++ [CR]].

Lemma SDPForceCodecs_offer_witness :
  SDPForceCodecs (concat (map (fun l => l ++ [LF]) (print_offer demo_offer))) [lit "H264"] =
  Ok (concat (map (fun l => lit l ++ [CR; CR; LF]) ["v=0"; "s=-"]%string) ++
      lit "m=video 9 UDP/TLS/RTP/SAVPF 102" ++ CRLF ++
      concat (map (fun l => lit l ++ [CR; CR; LF])
        ["a=mid:0"; "a=rtpmap:102 H264/90000"; "a=fmtp:102 x=1"; "a=ssrc:1 cname:a"; "a=ssrc:1 msid:b"]%string)).
Proof.
  apply (SDPForceCodecs_offer [lit "H264"] demo_offer).
  split; [by vm_compute|by apply (bool_decide_eq_true_1 _); vm_compute].
Defined.

Lemma SDPForceCodecs_safe_witness :
  let sdp := lit "m=video 9 P 96" ++ [LF] ++ lit "a=rtpmap:96 VP8/9" ++ [LF] ++ lit "a=fmtp:97 VP8/apt" ++ [LF] ++ lit "a=ssrc:1" in
  exists out, SDPForceCodecs sdp [lit "VP8"] = Ok out /\ out <> [] /\
  exists lines, out = concat (map (fun l => l ++ [CR; LF]) lines) /\ Forall (justified [lit "VP8"] (getlines sdp)) lines.
Proof.
  intros sdp. eexists. split; [vm_compute; reflexivity|]. split; [done|].
  apply (SDPForceCodecs_safe sdp); [done|]. vm_compute. reflexivity.
Defined.

(** *** A video section without [a=ssrc] *)
Lemma step_no_ssrc allowed st line st' : contains line "a=ssrc" = false -> current_mline st <> [] ->
  sdp_step allowed st line = Ok st' -> osdpstream st' = osdpstream st /\ current_mline st' <> [].
Proof.
  intros Hs Hc. destruct st as [o rt mid cur ids]. unfold sdp_step.
  destruct (contains line "m=video") eqn:Hv.
  { intros H. inv_res. split; [done|]. cbn. intros ->. done. }
  destruct (contains line "a=rtpmap"); [intros H; inv_res; by destruct (mem _ allowed)|].
  destruct (contains line "a=rtcp-fb" || _); [intros H; inv_res; by destruct (mem _ ids)|].
  rewrite Hs. cbn in *. rewrite bool_decide_eq_false_2 by done. intros H. by inv_res.
Qed.

(** A video section that never reaches an [a=ssrc] line is lost: the media line and
    everything after it are dropped, and only the lines before it come out. *)
Theorem SDPForceCodecs_no_ssrc sdp allowed out before mline rest :
  getlines sdp = before ++ (mline :: rest) -> forallb plain before = true ->
  contains mline "m=video" = true -> forallb (fun l => negb (contains l "a=ssrc")) rest = true ->
  SDPForceCodecs sdp allowed = Ok out -> out = emit before.
Proof.
  intros Hl Hb Hm Hr. unfold SDPForceCodecs. rewrite Hl. unfold sdp_init. rewrite loop_plain by done.
  cbn [sdp_loop]. unfold sdp_step at 1. rewrite Hm. cbn [mbind res_bind app].
  intros H. apply bind_Ok in H as (st & H & [= <-]).
  assert (forall ls st0, forallb (fun l => negb (contains l "a=ssrc")) ls = true -> current_mline st0 <> [] ->
    sdp_loop allowed st0 ls = Ok st -> osdpstream st = osdpstream st0) as Hloop.
  { induction ls as [|l ls IH]; intros st0 Hls Hc E; cbn in E; [by simplify_eq|].
    cbn in Hls. bool_prop. apply bind_Ok in E as (st1 & E1 & E).
    destruct (step_no_ssrc _ _ _ _ H0 Hc E1) as [<- Hc1]. by eapply IH. }
  by apply (Hloop _ _ Hr) in H; [|cbn; intros ->].
Qed.

Lemma SDPForceCodecs_no_ssrc_witness : exists out,
  SDPForceCodecs (lit "v=0" ++ [LF] ++ lit "m=video 9 P 96" ++ [LF] ++ lit "a=rtpmap:96 VP8/9") [lit "VP8"] = Ok out /\
  out = emit [lit "v=0"].
Proof.
  eexists. split; [vm_compute; reflexivity|].
  apply (SDPForceCodecs_no_ssrc
    (lit "v=0" ++ [LF] ++ lit "m=video 9 P 96" ++ [LF] ++ lit "a=rtpmap:96 VP8/9") [lit "VP8"] _
    [lit "v=0"] (lit "m=video 9 P 96") [lit "a=rtpmap:96 VP8/9"]); vm_compute; reflexivity.
Defined.
