(* ===== verification/V4L.v ===== *)
(** * The capture device

    [V4LDevice] of [v4l.cpp] and [v4l.h]: a Video4Linux device node, its capabilities
    and its format.  What [linux/videodev2.h] and the kernel provide is an interface,
    [Videodev2]; each [open], [ioctl] and [close] is an operation of the log. *)

From S2P Require Import Prelude.
From S2P Require Import CppString.
From S2P Require Import Effects.
Local Open Scope eff_scope.

(** ** [linux/videodev2.h] *)

(** The header's names that the program uses.  The macro [v4l2_fourcc] is documented
    to put its four characters into the four bytes of the code, first one lowest. *)
Class Videodev2 := {
  V4L2_CAP_VIDEO_CAPTURE : Z;
  V4L2_CAP_VIDEO_CAPTURE_MPLANE : Z;
  V4L2_CAP_STREAMING : Z;
  V4L2_BUF_TYPE_VIDEO_CAPTURE : Z;
  v4l2_fourcc : Z -> Z -> Z -> Z -> Z;
  v4l2_fourcc_bytes : forall a b c d,
    0 <= a < 128 -> 0 <= b < 128 -> 0 <= c < 128 -> 0 <= d < 128 ->
    v4l2_fourcc a b c d = a + 2 ^ 8 * b + 2 ^ 16 * c + 2 ^ 24 * d
}.

(** The members of the kernel's structs that the program reads or writes. *)
Record v4l2_capability := mkCap { driver : str; card : str; bus_info : str; capabilities : Z }.
Record v4l2_format := mkFmt { type : Z; pix_width : Z; pix_height : Z; pixelformat : Z }.

Definition zero_cap : v4l2_capability := mkCap [] [] [] 0.
Definition zero_fmt : v4l2_format := mkFmt 0 0 0 0.

(** ** [fourcc_to_string] *)
Definition fourcc_to_string (pixelformat : Z) : str :=
  [chr (Z.land (Z.shiftr pixelformat 0) 255); chr (Z.land (Z.shiftr pixelformat 8) 255);
   chr (Z.land (Z.shiftr pixelformat 16) 255); chr (Z.land (Z.shiftr pixelformat 24) 255)].

(** ** Calls on the device node *)
Inductive devop :=
| DevOpen (path : str)
| DevQueryCap (fd : Z)
| DevGetFmt (fd : Z) (fmt : v4l2_format)
| DevSetFmt (fd : Z) (fmt : v4l2_format)
| DevClose (fd : Z).

(** The return value, and what the [ioctl] wrote to its argument. *)
Record devans := mkDevAns { d_ret : Z; d_cap : v4l2_capability; d_fmt : v4l2_format }.

Abbreviation DIO := (M devop devans).

(** [framerate] is set by nothing but the clients: [None] is indeterminate. *)
Record V4LDevice := mkDevice {
  cap : v4l2_capability; fmt : v4l2_format; framerate : option Z; sysfs_path : str; fd : Z
}.

Definition set_fmt (d : V4LDevice) (f : v4l2_format) : V4LDevice :=
  mkDevice (cap d) f (framerate d) (sysfs_path d) (fd d).

Section Device.
Context `{Videodev2}.

Definition can_capture (d : V4LDevice) : bool :=
  negb (Z.land (capabilities (cap d)) V4L2_CAP_VIDEO_CAPTURE =? 0) ||
  negb (Z.land (capabilities (cap d)) V4L2_CAP_VIDEO_CAPTURE_MPLANE =? 0).

Definition can_stream (d : V4LDevice) : bool :=
  negb (Z.land (capabilities (cap d)) V4L2_CAP_STREAMING =? 0).

(** [_open]: the return value and the descriptor. *)
Definition _open (d : V4LDevice) : DIO (Z * V4LDevice) :=
  let* a := call (DevOpen (sysfs_path d)) in
  let d := mkDevice (cap d) (fmt d) (framerate d) (sysfs_path d) (d_ret a) in
  m_ret (Ok (if d_ret a <? 0 then -1 else 0, d)).

(** A failed [ioctl] leaves its argument as it was. *)
Definition _fill_cap (d : V4LDevice) : DIO (Z * V4LDevice) :=
  let* a := call (DevQueryCap (fd d)) in
  m_ret (Ok (if d_ret a <? 0 then (-1, d)
             else (0, mkDevice (d_cap a) (fmt d) (framerate d) (sysfs_path d) (fd d)))).

Definition _fill_format (d : V4LDevice) : DIO (Z * V4LDevice) :=
  let f := fmt d in
  let d := set_fmt d (mkFmt V4L2_BUF_TYPE_VIDEO_CAPTURE (pix_width f) (pix_height f) (pixelformat f)) in
  let* a := call (DevGetFmt (fd d) (fmt d)) in
  m_ret (Ok (if d_ret a <? 0 then (1, d) else (0, set_fmt d (d_fmt a)))).

(** [V4LDevice(path)]. *)
Definition V4LDevice_new (path : str) : DIO V4LDevice :=
  let* (r, d) := _open (mkDevice zero_cap zero_fmt None path 0) in
  if r <? 0 then m_ret (Throw (RuntimeError (lit "Failed to open video capture device"))) else
  let d := mkDevice zero_cap zero_fmt (framerate d) (sysfs_path d) (fd d) in
  let* (_, d) := _fill_cap d in
  let* (_, d) := _fill_format d in
  if negb (can_capture d) then m_ret (Throw (RuntimeError (lit "Failed to capture video")))
  else if negb (can_stream d) then m_ret (Throw (RuntimeError (lit "Failed to stream video")))
  else m_ret (Ok d).

(** [~V4LDevice]. *)
Definition V4LDevice_delete (d : V4LDevice) : DIO unit :=
  let* _ := call (DevClose (fd d)) in m_ret (Ok tt).

(** [sync_format]: asks for the format the program filled in, reads back what the
    driver chose, and compares. *)
Definition sync_format (d : V4LDevice) : DIO (bool * V4LDevice) :=
  let desired := fmt d in
  let* a := call (DevSetFmt (fd d) (fmt d)) in
  if d_ret a <? 0 then m_ret (Ok (false, d)) else
  let d := set_fmt d (d_fmt a) in
  let* (_, d) := _fill_format d in
  m_ret (Ok ((pix_width (fmt d) =? pix_width desired) && (pix_height (fmt d) =? pix_height desired) &&
             (pixelformat (fmt d) =? pixelformat desired), d)).

(** ** Pixel formats *)

(** A little-endian reading of the four characters. *)
Definition fourcc_value (s : str) : Z :=
  match s with
  | [a; b; c; d] => code a + 2 ^ 8 * code b + 2 ^ 16 * code c + 2 ^ 24 * code d
  | _ => 0
  end.

Lemma byte_of p k : 0 <= k -> code (chr (Z.land (Z.shiftr p k) 255)) = (p / 2 ^ k) mod 256.
Proof.
  intros Hk. rewrite Z.shiftr_div_pow2 by done. change 255 with (Z.ones 8). rewrite Z.land_ones by done.
  apply code_chr. apply Z.mod_pos_bound. done.
Qed.

(** The name of a pixel format determines it: the four characters, read back
    little-endian, give every 32-bit format code. *)
Theorem fourcc_to_string_value p :
  in_u 32 p -> length (fourcc_to_string p) = 4%nat /\ fourcc_value (fourcc_to_string p) = p.
Proof.
  unfold in_u. intros Hp. split; [done|]. unfold fourcc_value, fourcc_to_string. rewrite !byte_of by lia.
  Z.to_euclidean_division_equations. lia.
Qed.

(** [v4l2_fourcc] and [fourcc_to_string] are inverse on ASCII codes: the name printed
    for a code built from four characters is those characters. *)
Theorem fourcc_roundtrip a b c d :
  code a < 128 /\ code b < 128 /\ code c < 128 /\ code d < 128 ->
  fourcc_to_string (v4l2_fourcc (code a) (code b) (code c) (code d)) = [a; b; c; d].
Proof.
  intros (Ha & Hb & Hc & Hd).
  pose proof (code_range a); pose proof (code_range b); pose proof (code_range c); pose proof (code_range d).
  rewrite v4l2_fourcc_bytes by lia. unfold fourcc_to_string.
  repeat f_equal; apply code_inj; rewrite byte_of by lia; Z.to_euclidean_division_equations; lia.
Qed.

(** ** The constructor *)

(** The descriptors a log was given, and those it closed. *)
Definition dev_opened (l : list (devop * devans)) : list Z :=
  omap (fun e => match e with (DevOpen _, a) => if d_ret a <? 0 then None else Some (d_ret a) | _ => None end) l.
Definition dev_closed (l : list (devop * devans)) : list Z :=
  omap (fun e => match e with (DevClose x, _) => Some x | _ => None end) l.

Lemma can_capture_true d : can_capture d = true <->
  Z.land (capabilities (cap d)) V4L2_CAP_VIDEO_CAPTURE <> 0 \/
  Z.land (capabilities (cap d)) V4L2_CAP_VIDEO_CAPTURE_MPLANE <> 0.
Proof. unfold can_capture. by rewrite orb_true_iff, !negb_true_iff, !Z.eqb_neq. Qed.

Lemma can_stream_true d : can_stream d = true <-> Z.land (capabilities (cap d)) V4L2_CAP_STREAMING <> 0.
Proof. unfold can_stream. by rewrite negb_true_iff, Z.eqb_neq. Qed.

(** The three calls of the constructor, with the tests still to be read. *)
Lemma V4LDevice_new_run path o q g s :
  let d := mkDevice (if d_ret q <? 0 then zero_cap else d_cap q)
             (if d_ret g <? 0 then mkFmt V4L2_BUF_TYPE_VIDEO_CAPTURE 0 0 0 else d_fmt g) None path (d_ret o) in
  V4LDevice_new path (o :: q :: g :: s) =
  if d_ret o <? 0 then
    ([(DevOpen path, o)], Some (Throw (RuntimeError (lit "Failed to open video capture device"))), q :: g :: s)
  else
    ([(DevOpen path, o); (DevQueryCap (d_ret o), q);
      (DevGetFmt (d_ret o) (mkFmt V4L2_BUF_TYPE_VIDEO_CAPTURE 0 0 0), g)],
     Some (if negb (can_capture d) then Throw (RuntimeError (lit "Failed to capture video"))
           else if negb (can_stream d) then Throw (RuntimeError (lit "Failed to stream video"))
           else Ok d), s).
Proof.
  intros d. unfold V4LDevice_new, _open, _fill_cap, _fill_format, m_bind, call, m_ret.
  destruct (d_ret o <? 0) eqn:Ho; [done|]. cbn.
  subst d. destruct (d_ret q <? 0), (d_ret g <? 0); cbn;
    (destruct (can_capture _); cbn; [destruct (can_stream _); done|done]).
Qed.

(** A constructor that returned. *)
Lemma V4LDevice_new_Ok path s l d s' : V4LDevice_new path s = (l, Some (Ok d), s') ->
  exists o q g,
    l = [(DevOpen path, o); (DevQueryCap (d_ret o), q); (DevGetFmt (d_ret o) (mkFmt V4L2_BUF_TYPE_VIDEO_CAPTURE 0 0 0), g)] /\
    0 <= d_ret o /\ 0 <= d_ret q /\
    (Z.land (capabilities (d_cap q)) V4L2_CAP_VIDEO_CAPTURE <> 0 \/
     Z.land (capabilities (d_cap q)) V4L2_CAP_VIDEO_CAPTURE_MPLANE <> 0) /\
    Z.land (capabilities (d_cap q)) V4L2_CAP_STREAMING <> 0 /\
    cap d = d_cap q /\ framerate d = None /\ fd d = d_ret o.
Proof.
  intros E. assert (exists o q g r, s = o :: q :: g :: r) as (o & q & g & r & ->).
  { destruct s as [|o [|q [|g r]]]; [done| | |eauto 10]; exfalso; revert E;
      unfold V4LDevice_new, _open, _fill_cap, _fill_format, m_bind, call, m_ret; destruct (d_ret o <? 0); cbn;
      try destruct (d_ret q <? 0); done. }
  exists o, q, g. rewrite V4LDevice_new_run in E. destruct (Z.ltb_spec (d_ret o) 0); [done|].
  destruct (can_capture _) eqn:Hc; [|done]. destruct (can_stream _) eqn:Hs; [|done]. injection E as <- <- <-.
  rewrite can_capture_true in Hc. rewrite can_stream_true in Hs. cbn [cap] in *.
  destruct (Z.ltb_spec (d_ret q) 0); [done|]. split_and!; done.
Qed.

(** C17: the constructor of [V4LDevice], whatever the kernel answers: when open fails it
    makes no other call and throws; otherwise it makes the calls open, QUERYCAP, G_FMT
    in this order and returns a device exactly when the capabilities have the capture or
    the multi-planar capture flag, and the streaming flag, with an error for the first
    flag that is missing.  A failed QUERYCAP counts as no capability; the device has
    the capabilities and the format that the kernel reported (after a failed G_FMT an
    empty capture format), the path and the descriptor. *)
Theorem V4LDevice_new_spec path o q g s :
  let caps := if d_ret q <? 0 then 0 else capabilities (d_cap q) in
  let captures := Z.land caps V4L2_CAP_VIDEO_CAPTURE <> 0 \/ Z.land caps V4L2_CAP_VIDEO_CAPTURE_MPLANE <> 0 in
  let streams := Z.land caps V4L2_CAP_STREAMING <> 0 in
  let empty := mkFmt V4L2_BUF_TYPE_VIDEO_CAPTURE 0 0 0 in
  exists l r s', V4LDevice_new path (o :: q :: g :: s) = (l, Some r, s') /\
  (d_ret o < 0 -> l = [(DevOpen path, o)] /\ s' = q :: g :: s /\
     r = Throw (RuntimeError (lit "Failed to open video capture device"))) /\
  (0 <= d_ret o ->
     l = [(DevOpen path, o); (DevQueryCap (d_ret o), q); (DevGetFmt (d_ret o) empty, g)] /\ s' = s /\
     (~ captures -> r = Throw (RuntimeError (lit "Failed to capture video"))) /\
     (captures -> ~ streams -> r = Throw (RuntimeError (lit "Failed to stream video"))) /\
     (captures -> streams -> r = Ok (mkDevice (d_cap q) (if d_ret g <? 0 then empty else d_fmt g) None path (d_ret o)))).
Proof.
  intros caps captures streams empty. rewrite V4LDevice_new_run. destruct (Z.ltb_spec (d_ret o) 0).
  { do 3 eexists. split; [done|]. split; [done|lia]. }
  set (d := mkDevice _ _ _ _ _).
  assert (captures <-> can_capture d = true) as Hc.
  { rewrite can_capture_true. subst caps d. by destruct (d_ret q <? 0). }
  assert (streams <-> can_stream d = true) as Hs.
  { rewrite can_stream_true. subst caps d. by destruct (d_ret q <? 0). }
  do 3 eexists. split; [done|]. split; [lia|]. intros _. split; [done|]. split; [done|].
  rewrite Hc, Hs. destruct (can_capture d) eqn:E1, (can_stream d) eqn:E2; cbn [negb]; split_and!; try done.
  intros _ _. apply can_stream_true in E2. subst d. by destruct (d_ret q <? 0).
Qed.

(** The descriptor leaks when the constructor throws after [open]: no close is made
    and, the object never having been built, no destructor will make one. *)
Theorem V4LDevice_new_leaks path o q g s l e s' :
  0 <= d_ret o -> V4LDevice_new path (o :: q :: g :: s) = (l, Some (Throw e), s') ->
  dev_opened l = [d_ret o] /\ dev_closed l = [].
Proof.
  intros Ho. unfold V4LDevice_new, _open, _fill_cap, _fill_format, m_bind, call, m_ret.
  rewrite (proj2 (Z.ltb_ge _ _) Ho). cbn.
  destruct (d_ret q <? 0), (d_ret g <? 0); cbn;
    (destruct (can_capture _); cbn; [destruct (can_stream _)|]; intros E; cbn in E; simplify_eq; cbn -[Z.ltb];
     by rewrite (proj2 (Z.ltb_ge _ _) Ho)).
Qed.

(** [sync_format] answers true exactly when the driver accepted the request and the
    format it reports afterwards has the requested size and pixel format. *)
Theorem sync_format_true d a g s :
  (exists l d' s', sync_format d (a :: g :: s) = (l, Some (Ok (true, d')), s')) <->
  0 <= d_ret a /\
  let f := if d_ret g <? 0 then d_fmt a else d_fmt g in
  pix_width f = pix_width (fmt d) /\ pix_height f = pix_height (fmt d) /\
  pixelformat f = pixelformat (fmt d).
Proof.
  unfold sync_format, _fill_format, m_bind, call, m_ret. split.
  - intros (l & d' & s' & E). destruct (d_ret a <? 0) eqn:Ha; [by simplify_eq|]. bool_prop.
    split; [done|]. cbn in E. destruct (d_ret g <? 0); cbn in E; simplify_eq; bool_prop; done.
  - intros (Ha & Hf). rewrite (proj2 (Z.ltb_ge _ _) Ha). cbn.
    destruct (d_ret g <? 0); cbn; destruct Hf as (Hw & Hh & Hp);
      rewrite Hw, Hh, Hp, !Z.eqb_refl; cbn; eauto.
Qed.

End Device.

(** ** An instance: the constants of Linux *)
Definition linux_fourcc (a b c d : Z) : Z :=
  Z.lor (Z.lor (u32 a) (u32 (Z.shiftl (u32 b) 8))) (Z.lor (u32 (Z.shiftl (u32 c) 16)) (u32 (Z.shiftl (u32 d) 24))).

Lemma linux_fourcc_bytes a b c d : 0 <= a < 128 -> 0 <= b < 128 -> 0 <= c < 128 -> 0 <= d < 128 ->
  linux_fourcc a b c d = a + 2 ^ 8 * b + 2 ^ 16 * c + 2 ^ 24 * d.
Proof.
  intros Ha Hb Hc Hd. unfold linux_fourcc.
  rewrite (wrapU_id 32 a), (wrapU_id 32 b), (wrapU_id 32 c), (wrapU_id 32 d) by (unfold in_u; lia).
  rewrite !wrapU_id by (unfold in_u; rewrite Z.shiftl_mul_pow2 by lia; lia).
  rewrite Z.lor_assoc, (lor_shiftl a b 8), (lor_shiftl _ c 16), (lor_shiftl _ d 24) by lia. lia.
Qed.

#[global] Instance videodev2 : Videodev2 := {|
  V4L2_CAP_VIDEO_CAPTURE := 1;
  V4L2_CAP_VIDEO_CAPTURE_MPLANE := 4096;
  V4L2_CAP_STREAMING := 67108864;
  V4L2_BUF_TYPE_VIDEO_CAPTURE := 1;
  v4l2_fourcc := linux_fourcc;
  v4l2_fourcc_bytes := linux_fourcc_bytes
|}.

Lemma fourcc_to_string_value_witness :
  length (fourcc_to_string 1448695129) = 4%nat /\ fourcc_value (fourcc_to_string 1448695129) = 1448695129.
Proof. exact (fourcc_to_string_value 1448695129 ltac:(unfold in_u; lia)). Defined.

Lemma fourcc_roundtrip_witness : fourcc_to_string (v4l2_fourcc 89 85 89 86) = lit "YUYV".
Proof. exact (fourcc_roundtrip "Y" "U" "Y" "V" ltac:(by vm_compute)). Defined.

(** A node that opens as descriptor 5 and captures but does not stream. *)
Lemma V4LDevice_new_leaks_witness : exists l,
  V4LDevice_new (lit "/dev/video0") [mkDevAns 5 zero_cap zero_fmt; mkDevAns 0 (mkCap [] [] [] 1) zero_fmt;
    mkDevAns 0 zero_cap zero_fmt] = (l, Some (Throw (RuntimeError (lit "Failed to stream video"))), []) /\
  dev_opened l = [5] /\ dev_closed l = [].
Proof.
  eexists. split; [vm_compute; reflexivity|].
  apply (V4LDevice_new_leaks (lit "/dev/video0") (mkDevAns 5 zero_cap zero_fmt)
    (mkDevAns 0 (mkCap [] [] [] 1) zero_fmt) (mkDevAns 0 zero_cap zero_fmt) [] _
    (RuntimeError (lit "Failed to stream video")) []); [done|vm_compute; reflexivity].
Defined.
