(* ===== verification/CommonTypes.v ===== *)
(** * Common types of the media library

    The headers [common_types.h], [modules/include/module_common_types_public.h] and
    [modules/video_capture/video_capture_defines.h] of [include/webrtc]: video types
    and capture capabilities, the counters of RTCP packets, and the comparison and
    unwrapping of RTP sequence numbers and timestamps. *)

From S2P Require Import Prelude.

(** ** Video types and capabilities *)
Inductive VideoType :=
| kUnknown | kI420 | kIYUV | kRGB24 | kABGR | kARGB | kARGB4444 | kRGB565 | kARGB1555
| kYUY2 | kYV12 | kUYVY | kMJPEG | kNV21 | kNV12 | kBGRA.

#[global] Instance VideoType_eq_dec : EqDecision VideoType.
Proof. solve_decision. Defined.

Record VideoCaptureCapability := mkCapability {
  cap_width : Z; cap_height : Z; cap_maxFPS : Z; cap_videoType : VideoType; cap_interlaced : bool
}.

Definition VideoCaptureCapability_new : VideoCaptureCapability := mkCapability 0 0 0 kUnknown false.

Definition Capability_ne (a b : VideoCaptureCapability) : bool :=
  if negb (cap_width a =? cap_width b) then true
  else if negb (cap_height a =? cap_height b) then true
  else if negb (cap_maxFPS a =? cap_maxFPS b) then true
  else if negb (bool_decide (cap_videoType a = cap_videoType b)) then true
  else if negb (Bool.eqb (cap_interlaced a) (cap_interlaced b)) then true
  else false.

Definition Capability_eq (a b : VideoCaptureCapability) : bool := negb (Capability_ne a b).

(** The operators decide equality of capabilities. *)
Lemma Capability_eq_true a b : Capability_eq a b = true <-> a = b.
Proof.
  destruct a, b. unfold Capability_eq, Capability_ne. cbn.
  repeat case_match; split; intros Hq; simplify_eq; try done;
    repeat match goal with
    | H : negb (Bool.eqb _ _) = false |- _ => apply negb_false_iff, eqb_prop in H
    | H : negb (Bool.eqb ?x ?x) = true |- _ => by rewrite eqb_reflx in H
    end; bool_prop; subst; done || congruence.
Qed.

(** ** RTCP packet counters *)
Record RtcpPacketTypeCounter := mkCounter {
  first_packet_time_ms : Z; nack_packets : Z; fir_packets : Z; pli_packets : Z;
  nack_requests : Z; unique_nack_requests : Z
}.

Definition Counter_new : RtcpPacketTypeCounter := mkCounter (-1) 0 0 0 0 0.

Definition Counter_Add (this other : RtcpPacketTypeCounter) : RtcpPacketTypeCounter :=
  mkCounter
    (if negb (first_packet_time_ms other =? -1) &&
        ((first_packet_time_ms other <? first_packet_time_ms this) || (first_packet_time_ms this =? -1))
     then first_packet_time_ms other else first_packet_time_ms this)
    (u32 (nack_packets this + nack_packets other)) (u32 (fir_packets this + fir_packets other))
    (u32 (pli_packets this + pli_packets other)) (u32 (nack_requests this + nack_requests other))
    (u32 (unique_nack_requests this + unique_nack_requests other)).

Definition Counter_Subtract (this other : RtcpPacketTypeCounter) : RtcpPacketTypeCounter :=
  mkCounter
    (if negb (first_packet_time_ms other =? -1) &&
        ((first_packet_time_ms this <? first_packet_time_ms other) || (first_packet_time_ms this =? -1))
     then first_packet_time_ms other else first_packet_time_ms this)
    (u32 (nack_packets this - nack_packets other)) (u32 (fir_packets this - fir_packets other))
    (u32 (pli_packets this - pli_packets other)) (u32 (nack_requests this - nack_requests other))
    (u32 (unique_nack_requests this - unique_nack_requests other)).

(** Times are [int64_t]; the difference is undefined when it overflows. *)
Definition TimeSinceFirstPacketInMs (c : RtcpPacketTypeCounter) (now_ms : Z) : res Z :=
  if first_packet_time_ms c =? -1 then Ok (-1)
  else arith 64 (now_ms - first_packet_time_ms c).

(** ** Sequence numbers and timestamps *)

(** [IsNewer<U>] for [uint16_t]: the operands are promoted to [int]. *)
Definition IsNewerSequenceNumber (value prev : Z) : bool :=
  if value - prev =? 2 ^ 15 then prev <? value
  else negb (value =? prev) && (u16 (value - prev) <? 2 ^ 15).

(** ... and for [uint32_t], whose subtraction wraps. *)
Definition IsNewerTimestamp (value prev : Z) : bool :=
  if u32 (value - prev) =? 2 ^ 31 then prev <? value
  else negb (value =? prev) && (u32 (value - prev) <? 2 ^ 31).

Definition LatestSequenceNumber (a b : Z) : Z := if IsNewerSequenceNumber a b then a else b.
Definition LatestTimestamp (a b : Z) : Z := if IsNewerTimestamp a b then a else b.

(** [Unwrapper<U>::UnwrapWithoutUpdate] on the value last unwrapped: [delta] is the
    difference as the type [U] computes it. *)
Definition unwrap_with (w : Z) (newer : Z -> Z -> bool) (diff : Z -> Z -> Z) (last : option Z) (value : Z) : Z :=
  match last with
  | None => value
  | Some last =>
      let kMaxPlusOne := 2 ^ w in
      let cropped_last := wrapU w last in
      let delta := diff value cropped_last in
      let delta :=
        if newer value cropped_last then (if delta <? 0 then delta + kMaxPlusOne else delta)
        else if (0 <? delta) && (0 <=? last + delta - kMaxPlusOne) then delta - kMaxPlusOne else delta in
      last + delta
  end.

Definition SequenceNumberUnwrap : option Z -> Z -> Z := unwrap_with 16 IsNewerSequenceNumber Z.sub.
Definition TimestampUnwrap : option Z -> Z -> Z := unwrap_with 32 IsNewerTimestamp (fun a b => u32 (a - b)).

(** [Unwrap]: unwraps and remembers. *)
Definition unwrap_all (unwrap : option Z -> Z -> Z) (last : option Z) (values : list Z) : list Z :=
  snd (foldl (fun st v => let r := unwrap (fst st) v in (Some r, snd st ++ [r])) (last, []) values).

(** *** Order *)

(** The signed distance from [prev] to [value] round the circle of [2^w] numbers. *)
Definition distance (w value prev : Z) : Z := wrapS w (value - prev).

Lemma half_pow w : 0 < w -> 2 ^ w = 2 * 2 ^ (w - 1) /\ 0 < 2 ^ (w - 1).
Proof.
  intros Hw. split; [rewrite <- Z.pow_succ_r by lia; f_equal; lia|apply Z.pow_pos_nonneg; lia].
Qed.

Lemma distance_cases w x y : 0 < w -> in_u w x -> in_u w y ->
  let h := 2 ^ (w - 1) in
  (- h <= x - y < h /\ distance w x y = x - y) \/
  (h <= x - y < 2 * h /\ distance w x y = x - y - 2 * h) \/
  (- 2 * h < x - y < - h /\ distance w x y = x - y + 2 * h).
Proof.
  intros Hw Hx Hy. unfold distance, wrapS, in_u in *. destruct (half_pow w Hw) as [E Hh].
  rewrite E in Hx, Hy |- *. cbn zeta. set (h := 2 ^ (w - 1)) in *. clearbody h. clear E.
  destruct (decide (x - y < - h)); [right; right|destruct (decide (x - y < h)); [left|right; left]];
    (split; [lia|]).
  - replace (x - y + h) with (x - y + 3 * h + (-1) * (2 * h)) by lia.
    rewrite Z_mod_plus_full, Z.mod_small by lia. lia.
  - rewrite Z.mod_small by lia. lia.
  - replace (x - y + h) with (x - y - h + 1 * (2 * h)) by lia.
    rewrite Z_mod_plus_full, Z.mod_small by lia. lia.
Qed.

Lemma wrapU_diff w x y : 0 < w -> in_u w x -> in_u w y ->
  wrapU w (x - y) = if x <? y then x - y + 2 ^ w else x - y.
Proof.
  intros Hw Hx Hy. unfold wrapU, in_u in *. destruct (x <? y) eqn:E; bool_prop.
  - rewrite <- (Z_mod_plus_full _ 1), Z.mod_small; lia.
  - rewrite Z.mod_small; lia.
Qed.

Lemma IsNewer_spec w value prev : 0 < w -> in_u w value -> in_u w prev ->
  (if wrapU w (value - prev) =? 2 ^ (w - 1) then prev <? value
   else negb (value =? prev) && (wrapU w (value - prev) <? 2 ^ (w - 1))) = true <->
  0 < distance w value prev \/ (distance w value prev = - 2 ^ (w - 1) /\ prev < value).
Proof.
  intros Hw Hv Hp. pose proof (distance_cases w value prev Hw Hv Hp) as Hd. rewrite wrapU_diff by done.
  destruct (half_pow w Hw) as [E Hh]. unfold in_u in *. rewrite E in *. cbn zeta in Hd.
  set (h := 2 ^ (w - 1)) in *. clearbody h.
  destruct (value <? prev) eqn:El; bool_prop;
    (destruct (_ =? h) eqn:Eh; bool_prop;
     [rewrite Z.ltb_lt|rewrite andb_true_iff, negb_true_iff, Z.eqb_neq, Z.ltb_lt]); lia.
Qed.

Lemma IsNewerSequenceNumber_spec value prev : in_u 16 value -> in_u 16 prev ->
  IsNewerSequenceNumber value prev = true <->
  0 < distance 16 value prev \/ (distance 16 value prev = - 2 ^ 15 /\ prev < value).
Proof.
  intros Hv Hp. rewrite <- (IsNewer_spec 16 value prev ltac:(lia) Hv Hp).
  unfold IsNewerSequenceNumber. change (16 - 1) with 15. unfold in_u in *.
  destruct (value - prev =? 2 ^ 15) eqn:E; bool_prop.
  - rewrite wrapU_id by (unfold in_u; lia). by rewrite (proj2 (Z.eqb_eq _ _) E).
  - destruct (u16 (value - prev) =? 2 ^ 15) eqn:E'; [|done]. bool_prop.
    rewrite E', Z.ltb_irrefl, andb_false_r, Z.ltb_lt. unfold wrapU in E'. split; [done|].
    Z.to_euclidean_division_equations. lia.
Qed.

Lemma IsNewerTimestamp_spec value prev : in_u 32 value -> in_u 32 prev ->
  IsNewerTimestamp value prev = true <->
  0 < distance 32 value prev \/ (distance 32 value prev = - 2 ^ 31 /\ prev < value).
Proof. intros Hv Hp. exact (IsNewer_spec 32 value prev ltac:(lia) Hv Hp). Qed.

(** Any two different numbers are ordered one way: exactly one is newer. *)
Lemma newer_total w (newer : Z -> Z -> bool) a b : 0 < w ->
  (forall x y, in_u w x -> in_u w y -> newer x y = true <->
     0 < distance w x y \/ (distance w x y = - 2 ^ (w - 1) /\ y < x)) ->
  in_u w a -> in_u w b -> a <> b -> newer a b = negb (newer b a).
Proof.
  intros Hw Hn Ha Hb Hab. pose proof (Hn a b Ha Hb) as H1. pose proof (Hn b a Hb Ha) as H2.
  pose proof (distance_cases w a b Hw Ha Hb). pose proof (distance_cases w b a Hw Hb Ha).
  pose proof (half_pow w Hw). unfold in_u in *. cbn zeta in *.
  apply eq_true_iff_eq. rewrite negb_true_iff, <- not_true_iff_false, H1, H2. lia.
Qed.

(** *** Unwrapping *)
Section Unwrap.
Context (w : Z) (newer : Z -> Z -> bool) (diff : Z -> Z -> Z).
Hypothesis Hw : 0 < w.
Hypothesis newer_spec : forall x y, in_u w x -> in_u w y -> newer x y = true <->
  0 < distance w x y \/ (distance w x y = - 2 ^ (w - 1) /\ y < x).
(** The type's subtraction is exact, after promotion, or wraps. *)
Hypothesis diff_spec : forall x y, diff x y = x - y \/ diff x y = wrapU w (x - y).

Lemma unwrap_with_spec last value : 0 <= last -> in_u w value ->
  let r := unwrap_with w newer diff (Some last) value in
  wrapU w r = value /\ 0 <= r /\
  (- 2 ^ (w - 1) <= r - last <= 2 ^ (w - 1) \/ (r < 2 ^ w /\ last <= r)).
Proof.
  intros Hl Hv r. subst r. unfold unwrap_with.
  assert (in_u w (wrapU w last)) as Hc by (apply wrapU_range; lia).
  pose proof (newer_spec _ _ Hv Hc) as Hn. pose proof (diff_spec value (wrapU w last)) as Hd.
  rewrite wrapU_diff in Hd by done. pose proof (distance_cases w _ _ Hw Hv Hc) as Hx.
  destruct (half_pow w Hw) as [E Hh]. cbn zeta in Hx.
  assert (exists q, last = 2 ^ w * q + wrapU w last /\ 0 <= q) as (q & Hq & Hq0).
  { exists (last / 2 ^ w). split; [apply Z.div_mod; lia|apply Z.div_pos; lia]. }
  set (c := wrapU w last) in *. set (d := diff value c) in *.
  assert (exists k, d = value - c + 2 ^ w * k /\ (k = 0 \/ (k = 1 /\ value < c))) as (k & Hk & Hk3).
  { destruct (value <? c) eqn:El; bool_prop; (destruct Hd; [exists 0|]); [lia|exists 1|lia|exists 0]; lia. }
  assert (forall m, wrapU w (last + (d + 2 ^ w * m)) = value) as Hmod.
  { intros m. unfold wrapU. replace (last + (d + 2 ^ w * m)) with (value + (q + k + m) * 2 ^ w) by lia.
    rewrite Z_mod_plus_full. apply Z.mod_small. exact Hv. }
  pose proof (Hmod 0) as H0. pose proof (Hmod 1) as H1. pose proof (Hmod (-1)) as Hm1.
  rewrite Z.mul_0_r, Z.add_0_r in H0. rewrite Z.mul_1_r in H1.
  replace (d + 2 ^ w * -1) with (d - 2 ^ w) in Hm1 by lia.
  clear Hmod. unfold in_u in *. rewrite E in *. set (h := 2 ^ (w - 1)) in *. clearbody h c d.
  assert (2 * h * q = 0 \/ 2 * h <= 2 * h * q) as Hq2
    by (destruct (decide (q = 0)) as [->|]; [left; lia|right; nia]).
  clear Hd. destruct (newer value c) eqn:En.
  - destruct Hn as [Hn _]. specialize (Hn eq_refl). destruct (d <? 0) eqn:Ed; bool_prop;
      (split_and!; [assumption|destruct Hk3 as [->|[-> Hlt]]; lia..]).
  - assert (~ (0 < distance w value c \/ (distance w value c = - h /\ c < value))) as Hn'
      by (rewrite <- Hn; done).
    destruct ((0 <? d) && _) eqn:Ed; bool_prop;
      (split_and!; [assumption|destruct Hk3 as [->|[-> Hlt]]; lia..]).
Qed.
End Unwrap.

(** RTP order is total: of two different sequence numbers, and of two different
    timestamps, exactly one is newer than the other, also when they are exactly half
    the number circle apart. *)
Theorem newer_exactly_one a b :
  a <> b ->
  (in_u 16 a -> in_u 16 b -> IsNewerSequenceNumber a b = negb (IsNewerSequenceNumber b a)) /\
  (in_u 32 a -> in_u 32 b -> IsNewerTimestamp a b = negb (IsNewerTimestamp b a)).
Proof.
  intros Hab. split; intros Ha Hb.
  - by apply (newer_total 16 IsNewerSequenceNumber); [lia|exact IsNewerSequenceNumber_spec|..].
  - by apply (newer_total 32 IsNewerTimestamp); [lia|exact IsNewerTimestamp_spec|..].
Qed.

Lemma newer_exactly_one_witness :
  IsNewerSequenceNumber 0 32768 = negb (IsNewerSequenceNumber 32768 0) /\
  IsNewerTimestamp 0 2147483648 = negb (IsNewerTimestamp 2147483648 0).
Proof.
  split.
  - apply (newer_exactly_one 0 32768); [lia|unfold in_u; lia..].
  - apply (newer_exactly_one 0 2147483648); [lia|unfold in_u; lia..].
Defined.

Lemma sub_diff_spec w x y : x - y = x - y \/ x - y = wrapU w (x - y).
Proof. by left. Qed.

(** Unwrapping sequence numbers and timestamps: the unwrapped number is never
    negative, reduces to the number received, and lies within half the number circle
    of the one before, except that it stays on the first lap rather than go below
    zero. *)
Theorem unwrap_nearest last value :
  0 <= last ->
  (in_u 16 value ->
     let r := SequenceNumberUnwrap (Some last) value in
     u16 r = value /\ 0 <= r /\ (- 2 ^ 15 <= r - last <= 2 ^ 15 \/ (r < 2 ^ 16 /\ last <= r))) /\
  (in_u 32 value ->
     let r := TimestampUnwrap (Some last) value in
     u32 r = value /\ 0 <= r /\ (- 2 ^ 31 <= r - last <= 2 ^ 31 \/ (r < 2 ^ 32 /\ last <= r))).
Proof.
  intros Hl. split; intros Hv.
  - apply (unwrap_with_spec 16 IsNewerSequenceNumber Z.sub); try done.
    + exact IsNewerSequenceNumber_spec.
    + apply (sub_diff_spec 16).
  - apply (unwrap_with_spec 32 IsNewerTimestamp (fun a b => u32 (a - b))); try done.
    + exact IsNewerTimestamp_spec.
    + intros x y. by right.
Qed.

Lemma unwrap_nearest_witness :
  u16 (SequenceNumberUnwrap (Some 65534) 2) = 2 /\ SequenceNumberUnwrap (Some 65534) 2 = 65538 /\
  u32 (TimestampUnwrap (Some 5) 4294967295) = 4294967295.
Proof.
  split_and!; [|reflexivity|].
  - apply (unwrap_nearest 65534 2); [lia|unfold in_u; lia].
  - apply (unwrap_nearest 5 4294967295); [lia|unfold in_u; lia].
Defined.

(** A sequence that advances by less than half the circle at a time is recovered. *)
Definition advancing (w : Z) (xs : list Z) : Prop :=
  forall i a b, xs !! i = Some a -> xs !! S i = Some b -> 0 <= b - a < 2 ^ (w - 1).

Lemma unwrap_advance w newer diff last x : 0 < w ->
  (forall x y, in_u w x -> in_u w y -> newer x y = true <->
     0 < distance w x y \/ (distance w x y = - 2 ^ (w - 1) /\ y < x)) ->
  (forall x y, diff x y = x - y \/ diff x y = wrapU w (x - y)) ->
  0 <= last -> 0 <= x - last < 2 ^ (w - 1) ->
  unwrap_with w newer diff (Some last) (wrapU w x) = x.
Proof.
  intros Hw Hn Hd Hl Hx. assert (in_u w (wrapU w x)) as Hv by (apply wrapU_range; lia).
  destruct (half_pow w Hw) as [E Hh].
  destruct (unwrap_with_spec w newer diff Hw Hn Hd last (wrapU w x) Hl Hv) as (Hm & H0 & Hr).
  set (r := unwrap_with _ _ _ _ _) in *. clearbody r.
  assert (exists k, r = x + 2 ^ w * k) as [k Hk].
  { unfold wrapU in Hm. exists (r / 2 ^ w - x / 2 ^ w).
    pose proof (Z.div_mod r (2 ^ w) ltac:(lia)). pose proof (Z.div_mod x (2 ^ w) ltac:(lia)). lia. }
  rewrite E in *. set (h := 2 ^ (w - 1)) in *. clearbody h.
  assert (k = 0 \/ k <= -1 \/ 1 <= k) as [->|[Hk1|Hk1]] by lia; [lia| |].
  - assert (2 * h * k <= - (2 * h)) by nia. lia.
  - assert (2 * h <= 2 * h * k) by nia. lia.
Qed.

(** A stream of sequence numbers sent in order, each less than half the circle after
    the one before, is recovered exactly from its low 16 bits by the unwrapper; and
    likewise timestamps from their low 32 bits. *)
Theorem unwrap_all_recovers x xs :
  (in_u 16 x /\ advancing 16 (x :: xs) ->
     unwrap_all SequenceNumberUnwrap None (map (wrapU 16) (x :: xs)) = x :: xs) /\
  (in_u 32 x /\ advancing 32 (x :: xs) ->
     unwrap_all TimestampUnwrap None (map (wrapU 32) (x :: xs)) = x :: xs).
Proof.
  assert (forall w newer diff, 0 < w ->
    (forall x y, in_u w x -> in_u w y -> newer x y = true <->
       0 < distance w x y \/ (distance w x y = - 2 ^ (w - 1) /\ y < x)) ->
    (forall x y, diff x y = x - y \/ diff x y = wrapU w (x - y)) ->
    in_u w x /\ advancing w (x :: xs) ->
    unwrap_all (unwrap_with w newer diff) None (map (wrapU w) (x :: xs)) = x :: xs) as Hgen.
  2:{ split; intros H; (apply Hgen; [lia| | |done]);
      [apply IsNewerSequenceNumber_spec|apply (sub_diff_spec 16)|apply IsNewerTimestamp_spec|intros; by right]. }
  intros w newer diff Hw Hn Hd [Hx Ha]. unfold unwrap_all. cbn [map foldl fst snd unwrap_with].
  rewrite wrapU_id by done. cbn [app].
  assert (forall ys last acc, 0 <= last -> advancing w (last :: ys) ->
    snd (foldl (fun st v => let r := unwrap_with w newer diff (fst st) v in (Some r, snd st ++ [r]))
           (Some last, acc) (map (wrapU w) ys)) = acc ++ ys) as Hloop.
  { induction ys as [|y ys IH]; intros last acc Hl Hy; cbn [map foldl fst snd]; [by rewrite app_nil_r|].
    pose proof (Hy 0%nat last y eq_refl eq_refl).
    rewrite unwrap_advance by (done || lia). cbn zeta.
    rewrite IH; [by rewrite <- app_assoc|lia|].
    intros i a b Hi Hj. exact (Hy (S i) a b Hi Hj). }
  unfold in_u in Hx. rewrite Hloop; [done|lia|done].
Qed.

Lemma unwrap_all_recovers_witness :
  unwrap_all SequenceNumberUnwrap None (map (wrapU 16) [65000; 65535; 65536; 70000; 100000]) =
  [65000; 65535; 65536; 70000; 100000].
Proof.
  apply (unwrap_all_recovers 65000 [65535; 65536; 70000; 100000]). split; [unfold in_u; lia|].
  intros i a b Hi Hj. do 5 (destruct i as [|i]; cbn in Hi, Hj; [simplify_eq; lia|]). done.
Defined.

(** Counters: adding and then subtracting the same counts gives the counts back,
    whatever overflowed in between, and the time of the first packet of a sum is the
    oldest of the two known ones. *)
Theorem Counter_Add_Subtract a b :
  in_u 32 (nack_packets a) /\ in_u 32 (fir_packets a) /\ in_u 32 (pli_packets a) /\
  in_u 32 (nack_requests a) /\ in_u 32 (unique_nack_requests a) ->
  let c := Counter_Subtract (Counter_Add a b) b in
  (nack_packets c, fir_packets c, pli_packets c, nack_requests c, unique_nack_requests c) =
  (nack_packets a, fir_packets a, pli_packets a, nack_requests a, unique_nack_requests a) /\
  (0 <= first_packet_time_ms a -> 0 <= first_packet_time_ms b ->
   first_packet_time_ms (Counter_Add a b) = Z.min (first_packet_time_ms a) (first_packet_time_ms b)).
Proof.
  intros (H1 & H2 & H3 & H4 & H5). cbn.
  assert (forall x y, in_u 32 x -> u32 (u32 (x + y) - y) = x) as Hw.
  { intros x y Hx. unfold wrapU. rewrite Zminus_mod_idemp_l. rewrite Z.add_simpl_r. by apply Z.mod_small. }
  split; [unfold in_u in *; by rewrite !Hw|].
  intros Ha Hb. destruct (first_packet_time_ms b =? -1) eqn:E1, (first_packet_time_ms a =? -1) eqn:E2,
    (first_packet_time_ms b <? first_packet_time_ms a) eqn:E3; bool_prop; cbn; lia.
Qed.

Lemma Counter_Add_Subtract_witness :
  let a := mkCounter 7 4294967295 1 2 3 4 in
  let b := mkCounter 5 10 20 30 40 50 in
  nack_packets (Counter_Add a b) = 9 /\
  nack_packets (Counter_Subtract (Counter_Add a b) b) = nack_packets a /\
  first_packet_time_ms (Counter_Add a b) = 5.
Proof.
  intros a b. split; [reflexivity|].
  destruct (Counter_Add_Subtract a b ltac:(cbn; unfold in_u; lia)) as [H1 H2]. split; [congruence|].
  apply H2; cbn; lia.
Defined.
