(* ===== verification/Whip.v ===== *)
(** * The WHIP session

    [whip.cpp], [whip.h] and [main] of [main.cpp]: the capture track, the session and
    the program.  Calls into the WebRTC library, the device node and the HTTP client
    are operations of one log; the pointers the library returns are known only as
    null or not. *)

From S2P Require Import Prelude.
From S2P Require Import CppString.
From S2P Require Import HttpSyntax.
From S2P Require Import HttpUri.
From S2P Require Import HttpEncode.
From S2P Require Import Effects.
From S2P Require Import HttpSocket.
From S2P Require Import HttpRequest.
From S2P Require Import HttpClient.
From S2P Require Import Args.
From S2P Require Import Sdp.
From S2P Require Import V4L.
From S2P Require Import CommonTypes.
Local Open Scope eff_scope.

(** ** Pixel formats *)
Definition fourcc_to_videotype (fourcc : str) : res VideoType :=
  _ ← assert_ (bool_decide (length fourcc = 4%nat));
  let eq s := bool_decide (fourcc = lit s) in
  if eq "I420" || eq "YU12" then Ok kI420
  else if eq "IYUV" then Ok kIYUV
  else if eq "RGB24" then Ok kRGB24
  else if eq "YUY2" || eq "YUYV" then Ok kYUY2
  else if eq "YV12" then Ok kYV12
  else if eq "UYVY" then Ok kUYVY
  else if eq "NV21" then Ok kNV21
  else if eq "NV12" then Ok kNV12
  else if eq "BGRA" then Ok kBGRA
  else Ok kUnknown.

(** ** Calls into the WebRTC library *)
Record RtcConfig := mkRtcConfig { unified_plan : bool; enable_dtls_srtp : bool; ice_servers : list str }.
Record OfferOptions := mkOptions {
  offer_to_receive_video : Z; offer_to_receive_audio : Z; ice_restart : bool
}.
(** The members of [RtpEncodingParameters] that are set. *)
Record Encoding := mkEncoding { max_bitrate_bps : option Z; enc_max_framerate : option Z }.

Inductive rtcop :=
| RtcInitializeSSL
| RtcCreateThread
| RtcStartThread
| RtcCreateFactory
| RtcCreatePeerConnection (config : RtcConfig)
| RtcCreateCapturer (unique_id : str)
| RtcRegisterCallback
| RtcStartCapture (capability : VideoCaptureCapability)
| RtcCreateVideoTrack (label : str)
| RtcAddTrack (stream_ids : list str)
| RtcSignalingState
| RtcGetSenders
| RtcPostOfferTask
| RtcCreateOffer (options : OfferOptions)
| RtcSetLocalDescription
| RtcGetParameters
| RtcSetParameters (encodings : list Encoding)
| RtcDescToString
| RtcParseAnswer (sdp : str)
| RtcSetRemoteDescription
| SleepFor (ms : Z).

(** A return code or count, whether a pointer is not null, a string, encodings. *)
Record rtcans := mkRtcAns { w_ret : Z; w_ptr : bool; w_data : str; w_encodings : list Encoding }.

Inductive wop := WRtc (o : rtcop) | WDev (o : devop) | WSys (o : sysop).
Record reply := mkReply { w_rtc : rtcans; w_dev : devans; w_sys : answer }.

Abbreviation WIO := (M wop reply).

Definition rtc (o : rtcop) : WIO rtcans := let* a := call (WRtc o) in m_ret (Ok (w_rtc a)).
Definition dev {A} (m : DIO A) : WIO A := embed WDev w_dev m.
Definition sys {A} (m : IO A) : WIO A := embed WSys w_sys m.

(** Using a null [scoped_refptr]. *)
Definition deref (p : bool) : WIO unit := m_ret (defined p).

Section Session.
Context `{Videodev2}.

(** ** The capture track *)

(** The constructor of [CapturerTrackSource]; [capability] is read from the device, a
    frame rate nothing has set being undefined. *)
Definition CapturerTrackSource_new (device : V4LDevice) : WIO unit :=
  let* _ := rtc RtcRegisterCallback in
  let* fps := m_ret (match framerate device with Some f => Ok f | None => Undef end) in
  let* ty := m_ret (fourcc_to_videotype (fourcc_to_string (pixelformat (fmt device)))) in
  let* a := rtc (RtcStartCapture
    (mkCapability (i32 (pix_width (fmt device))) (i32 (pix_height (fmt device))) (i32 fps) ty false)) in
  if w_ret a <? 0 then m_ret Crash else m_ret (Ok tt).

(** The track source, which owns its device; without a capturer for the device's bus the
    device is destroyed and the result is null. *)
Definition with_capturer (device : V4LDevice) : WIO (option V4LDevice) :=
  let* a := rtc (RtcCreateCapturer (c_str (bus_info (cap device)))) in
  if negb (w_ptr a) then
    let* _ := dev (V4LDevice_delete device) in m_ret (Ok None)
  else
    let* _ := CapturerTrackSource_new device in m_ret (Ok (Some device)).

Definition Create (video_device_path : str) : WIO (option V4LDevice) :=
  let* device := dev (V4LDevice_new video_device_path) in with_capturer device.

(** A [char] as the macro sees it: sign-extended. *)
Definition char_value (fourcc : str) (i : nat) : Z := i8 (code (nth i fourcc "000"%char)).

Definition configure (device : V4LDevice) (config : CaptureTrackConfig) : V4LDevice :=
  let pf := v4l2_fourcc (char_value (fourcc config) 0) (char_value (fourcc config) 1)
              (char_value (fourcc config) 2) (char_value (fourcc config) 3) in
  mkDevice (cap device) (mkFmt (type (fmt device)) (width config) (height config) pf)
    (Some (fps config)) (sysfs_path device) (fd device).

Definition CreateWithConfig (video_device_path : str) (config : CaptureTrackConfig) : WIO (option V4LDevice) :=
  let* device := dev (V4LDevice_new video_device_path) in with_capturer (configure device config).

(** ** The session *)
Record WHIPSession := mkSession {
  factory : bool; pc : bool; sdp : str;
  allowed_codecs : option (list str); max_framerate : option Z; max_bitrate : option Z; url : str
}.

Definition set_factory (s : WHIPSession) (f : bool) : WHIPSession :=
  mkSession f (pc s) (sdp s) (allowed_codecs s) (max_framerate s) (max_bitrate s) (url s).
Definition set_pc (s : WHIPSession) (p : bool) : WHIPSession :=
  mkSession (factory s) p (sdp s) (allowed_codecs s) (max_framerate s) (max_bitrate s) (url s).
Definition set_sdp (s : WHIPSession) (d : str) : WHIPSession :=
  mkSession (factory s) (pc s) d (allowed_codecs s) (max_framerate s) (max_bitrate s) (url s).

Definition WHIPSession_new (url : str) : WIO WHIPSession :=
  let* t := rtc RtcCreateThread in
  let* _ := deref (w_ptr t) in
  let* _ := rtc RtcStartThread in
  m_ret (Ok (mkSession false false [] None None None url)).

Definition Initialize (s : WHIPSession) : WIO WHIPSession :=
  let* a := rtc RtcCreateFactory in m_ret (Ok (set_factory s (w_ptr a))).

Definition CreateConnection (s : WHIPSession) (dtls : bool) : WIO (bool * WHIPSession) :=
  let* _ := deref (factory s) in
  let* a := rtc (RtcCreatePeerConnection (mkRtcConfig true dtls [lit "stun:stun.l.google.com:19302"])) in
  m_ret (Ok (w_ptr a, set_pc s (w_ptr a))).

(** The answer to [AddTrack] says whether it succeeded.  Then the connection holds the
    track and with it the source; otherwise the locals were the only owners, and the
    source goes with its device when they leave the scope. *)
Definition AddCaptureDevice (s : WHIPSession) (device_idx : Z) (config : option CaptureTrackConfig) : WIO unit :=
  let device_path := lit "/dev/video" ++ to_string device_idx in
  let* video_device := match config with
                       | Some c => CreateWithConfig device_path c
                       | None => Create device_path
                       end in
  match video_device with
  | None => m_ret (Throw (RuntimeError (lit "Failed to create video device")))
  | Some device =>
      let* _ := deref (factory s) in
      let* _ := rtc (RtcCreateVideoTrack (lit "video_label")) in
      let* _ := deref (pc s) in
      let* added := rtc (RtcAddTrack [lit "stream_id"]) in
      if w_ptr added then m_ret (Ok tt) else dev (V4LDevice_delete device)
  end.

Definition CreateOffer (s : WHIPSession) : WIO unit :=
  let* _ := deref (pc s) in
  let* _ := rtc RtcSignalingState in
  let* _ := rtc RtcGetSenders in
  let* _ := rtc RtcPostOfferTask in
  m_ret (Ok tt).

(** The posted task, run by the signaling thread. *)
Definition CreateOffer_task (s : WHIPSession) : WIO unit :=
  let* _ := deref (pc s) in
  let* _ := rtc (RtcCreateOffer (mkOptions 0 (-1) true)) in
  m_ret (Ok tt).

(** The polling loop: another thread may have set [sdp] while this one slept, and
    the answer carries the string found then. *)
Definition WaitForOffer (s : WHIPSession) : WIO WHIPSession :=
  loop (fun s => if negb (bool_decide (sdp s = [])) then m_ret (Ok (inr s)) else
                 let* a := rtc (SleepFor 100) in m_ret (Ok (inl (set_sdp s (w_data a))))) s.

(** The limits of the session, put into every encoding. *)
Definition limit (s : WHIPSession) (e : Encoding) : Encoding :=
  mkEncoding (match max_bitrate s with Some b => Some (i32 b) | None => max_bitrate_bps e end)
             (match max_framerate s with Some f => Some (i32 f) | None => enc_max_framerate e end).

(** [if (!response.status.Ok)] tests the enumerator [Ok], not the received code. *)
Definition rejected (r : Response) : bool := StatusCode.value StatusCode.Ok =? 0.

Definition sdp_fields : HeaderFields := [(lit "Content-Type", lit "application/sdp")].

(** The session's text of an offer: filtered when codecs are prescribed. *)
Definition offer_text (s : WHIPSession) (desc : str) : res str :=
  match allowed_codecs s with Some codecs => SDPForceCodecs desc codecs | None => Ok desc end.

(** [SetLocalDescription] takes the description over, and its answer says whether the
    description still lives when it is printed afterwards. *)
Definition OnSuccess (s : WHIPSession) : WIO WHIPSession :=
  let* _ := deref (pc s) in
  let* kept := rtc RtcSetLocalDescription in
  let* senders := rtc RtcGetSenders in
  let* _ := m_ret (defined (0 <? w_ret senders)) in
  let* params := rtc RtcGetParameters in
  let* _ := rtc (RtcSetParameters (map (limit s) (w_encodings params))) in
  let* _ := deref (w_ptr kept) in
  let* d := rtc RtcDescToString in
  let* text := m_ret (offer_text s (w_data d)) in
  let s := set_sdp s text in
  let* request := m_ret (Request_new (url s) v4) in
  let* response := sys (Request_send request (lit "POST") (sdp s) sdp_fields (-1)) in
  if rejected response then m_ret (Ok s) else
  let* remote := rtc (RtcParseAnswer (body response)) in
  if negb (w_ptr remote) then m_ret (Ok s) else
  let* _ := rtc RtcSetRemoteDescription in
  m_ret (Ok s).

(** Both overloads. *)
Definition OnFailure : WIO unit := m_ret (Throw (RuntimeError (lit "OnFailure"))).

(** ** [main], up to its endless loop *)
Definition main (argv : list str) : WIO WHIPSession :=
  let* _ := rtc RtcInitializeSSL in
  let config := FromArgs argv in
  let* s := WHIPSession_new (whip_endpoint config) in
  let* s := Initialize s in
  let* (_, s) := CreateConnection s true in
  let* idx := m_ret (device_index config) in
  let* _ := AddCaptureDevice s idx (Some (capture_config config)) in
  let* _ := CreateOffer s in
  m_ret (Ok s).

(** ** Logs *)

(** The part of a log that went to the kernel's sockets, and to the library. *)
Definition sys_log (l : list (wop * reply)) : list (sysop * answer) :=
  omap (fun e => match fst e with WSys o => Some (o, w_sys (snd e)) | _ => None end) l.
Definition dev_log (l : list (wop * reply)) : list (devop * devans) :=
  omap (fun e => match fst e with WDev o => Some (o, w_dev (snd e)) | _ => None end) l.
Definition rtc_log (l : list (wop * reply)) : list (rtcop * rtcans) :=
  omap (fun e => match fst e with WRtc o => Some (o, w_rtc (snd e)) | _ => None end) l.

Lemma sys_log_app a b : sys_log (a ++ b) = sys_log a ++ sys_log b.
Proof. apply omap_app. Qed.
Lemma dev_log_app a b : dev_log (a ++ b) = dev_log a ++ dev_log b.
Proof. apply omap_app. Qed.
Lemma rtc_log_app a b : rtc_log (a ++ b) = rtc_log a ++ rtc_log b.
Proof. apply omap_app. Qed.

Lemma rtc_run o s l r s' : rtc o s = (l, Some r, s') ->
  exists a, r = Ok a /\ sys_log l = [] /\ dev_log l = [] /\ rtc_log l = [(o, a)].
Proof.
  unfold rtc, m_bind, call, m_ret. destruct s as [|a s]; [done|]. intros E; simplify_eq. eauto.
Qed.

Lemma embed_sys_log (l : list (wop * reply)) l0 :
  map (fun e => (fst e, w_sys (snd e))) l = map (fun e => (WSys (fst e), snd e)) l0 ->
  sys_log l = l0 /\ dev_log l = [] /\ rtc_log l = [].
Proof.
  revert l0. induction l as [|[o a] l IH]; intros [|[o0 a0] l0] E; cbn in E; try done.
  injection E as -> <- E. destruct (IH _ E) as (H1 & H2 & H3).
  unfold sys_log, dev_log, rtc_log in *. cbn. by rewrite H1, H2, H3.
Qed.

Lemma embed_dev_log (l : list (wop * reply)) l0 :
  map (fun e => (fst e, w_dev (snd e))) l = map (fun e => (WDev (fst e), snd e)) l0 ->
  sys_log l = [] /\ dev_log l = l0 /\ rtc_log l = [].
Proof.
  revert l0. induction l as [|[o a] l IH]; intros [|[o0 a0] l0] E; cbn in E; try done.
  injection E as -> <- E. destruct (IH _ E) as (H1 & H2 & H3).
  unfold sys_log, dev_log, rtc_log in *. cbn. by rewrite H1, H2, H3.
Qed.

Lemma Request_send_replays rq m b fs t : replays (Request_send rq m b fs t).
Proof.
  unfold Request_send, freeaddrinfo, exchange, sendStep, recvStep, callTimeout, getRemainingMilliseconds,
    Socket_new, Socket_delete, Socket_connect, Socket_send, Socket_recv, Socket_select, sys_retry, close,
    system_error.
  replay.
Qed.

Lemma V4LDevice_new_replays path : replays (V4LDevice_new path).
Proof. unfold V4LDevice_new, _open, _fill_cap, _fill_format. replay. Qed.

(** The HTTP exchange inside the session is an exchange of the client. *)
Lemma sys_Request_send rq m b fs t s l r s' :
  sys (Request_send rq m b fs t) s = (l, Some (Ok r), s') ->
  dev_log l = [] /\ rtc_log l = [] /\
  (exists data, encodeHtml (uri rq) m b fs = Ok data /\ sent (sys_log l) = data /\
    receive recv_init (received (sys_log l)) = Some (Ok r)) /\
  exists g fd x, (SysGetaddrinfo (c_str (host (uri rq))) (servicePort (uri rq))
                    (getAddressFamily (internetProtocol rq)), g) ∈ sys_log l /\
    a_ret g = 0 /\ (SysConnect fd (a_data g), x) ∈ sys_log l.
Proof.
  intros E. apply embed_run in E as (l0 & s0 & E & _ & Hl); [|apply Request_send_replays].
  apply embed_sys_log in Hl as (-> & -> & ->). split_and!; [done|done|by eapply Request_send_sent|by eapply Request_send_peer].
Qed.

(** Replaces the calls into the library by what they logged. *)
Ltac inv_rtc :=
  repeat match goal with
  | H : rtc _ _ = (_, Some _, _) |- _ =>
      apply rtc_run in H as (? & H & ? & ? & ?); simplify_eq
  end.
Ltac logs_of := repeat (rewrite ?sys_log_app, ?dev_log_app, ?rtc_log_app;
  repeat match goal with
  | H : sys_log ?x = _ |- context [sys_log ?x] => rewrite H
  | H : dev_log ?x = _ |- context [dev_log ?x] => rewrite H
  | H : rtc_log ?x = _ |- context [rtc_log ?x] => rewrite H
  end); cbn [app map fst sys_log dev_log rtc_log omap list_omap].

(** ** The answer to an offer *)

(** The socket was connected to the IPv4 address found for the URI's host and port (80
    when it has none). *)
Definition connected (u : Uri) (l : list (wop * reply)) : Prop :=
  exists g fd x,
    (SysGetaddrinfo (c_str (host u)) (match port u with [] => lit "80" | _ => c_str (port u) end) 2, g) ∈ sys_log l /\
    a_ret g = 0 /\ (SysConnect fd (a_data g), x) ∈ sys_log l.

Lemma connected_peer u l g fd x :
  (SysGetaddrinfo (c_str (host u)) (servicePort u) (getAddressFamily v4), g) ∈ sys_log l ->
  a_ret g = 0 -> (SysConnect fd (a_data g), x) ∈ sys_log l -> connected u l.
Proof. intros H1 H2 H3. exists g, fd, x. split_and!; [|done|done]. revert H1. unfold servicePort. by destruct (port u). Qed.

(** What a finished [OnSuccess] of session [s] leaves: the description outlived its
    handover; the encodings [es] are those the sender reported, with the bit rate and
    the frame rate the session prescribes; the text stored is the library's, filtered
    when codecs are prescribed; it is posted to the endpoint, to which the socket was
    connected; and the body of the
    response [r] is parsed as the answer and, if that succeeds, set. *)
Definition posted (s : WHIPSession) (l : list (wop * reply)) (s' : WHIPSession) (r : Response) : Prop :=
  exists kept senders params es x desc answer u l3,
    pc s = true /\ w_ptr kept = true /\ 0 < w_ret senders /\
    Forall2 (fun e e' =>
      max_bitrate_bps e' = (match max_bitrate s with Some b => Some (i32 b) | None => max_bitrate_bps e end) /\
      enc_max_framerate e' = (match max_framerate s with Some f => Some (i32 f) | None => enc_max_framerate e end))
      (w_encodings params) es /\
    (match allowed_codecs s with
     | Some codecs => SDPForceCodecs (w_data desc) codecs = Ok (sdp s')
     | None => sdp s' = w_data desc
     end) /\
    s' = mkSession (factory s) (pc s) (sdp s') (allowed_codecs s) (max_framerate s) (max_bitrate s) (url s) /\
    parseUri (url s) = Ok u /\ connected u l /\
    encodeHtml u (lit "POST") (sdp s') [(lit "Content-Type", lit "application/sdp")] = Ok (sent (sys_log l)) /\
    receive recv_init (received (sys_log l)) = Some (Ok r) /\ dev_log l = [] /\
    rtc_log l = [(RtcSetLocalDescription, kept); (RtcGetSenders, senders); (RtcGetParameters, params);
                 (RtcSetParameters es, x); (RtcDescToString, desc); (RtcParseAnswer (body r), answer)] ++ l3 /\
    map fst l3 = if w_ptr answer then [RtcSetRemoteDescription] else [].

Lemma OnSuccess_run s script l s' rest :
  OnSuccess s script = (l, Some (Ok s'), rest) -> exists r, posted s l s' r.
Proof.
  unfold OnSuccess, deref. intros E. inv_run; inv_rtc;
    match goal with
    | Hp : defined (pc s) = Ok _, Ht : offer_text s (w_data ?d) = Ok ?text,
      Hu : Request_new _ _ = Ok ?q, Hs : sys _ _ = (_, Some (Ok ?r), _),
      Hb : negb (w_ptr ?a) = _, Ha : rtc_log _ = [(RtcSetLocalDescription, ?x1)],
      Hc : rtc_log _ = [(RtcGetSenders, ?x2)],
      Hl : rtc_log _ = [(RtcSetParameters (map _ (w_encodings ?e)), ?x3)] |- _ =>
        apply sys_Request_send in Hs as (Hds & Hrs & (data & Hdata & Hsent & Hrecv) & (peer & pfd & px & Hg1 & Hg2 & Hg3));
        unfold Request_new in Hu; inv_res; bool_prop; exists r, x1, x2, e, (map (limit s) (w_encodings e)), x3, d, a; eexists
    end.
  all: first [match goal with Hd : rtc_log _ = [(RtcSetRemoteDescription, ?x)] |- _ =>
                exists [(RtcSetRemoteDescription, x)] end | exists []].
  all: split_and!; try done; logs_of; rewrite ?app_nil_r; try done.
  all: try (match goal with H : w_ptr _ = _ |- _ => rewrite H end; done).
  all: try (match goal with H : offer_text _ _ = _ |- _ => unfold offer_text in H end;
            by destruct (allowed_codecs s); simplify_eq/=).
  all: try (apply Forall2_fmap_r, Forall_Forall2_diag, Forall_forall; done).
  all: try (eapply (connected_peer _ _ peer pfd px); [..|done|]; logs_of; rewrite ?app_nil_r; done).
  all: by rewrite <- ?Hsent in *.
Qed.

(** C9: what a finished [OnSuccess] has done: the library was asked, in this order, to set
    the local description (which lived on), to set the encodings that the first sender
    reported, with the session's bit rate and frame rate as 32-bit numbers where it has
    them, to print the offer, to parse the body of the response as the answer and, if
    that succeeded, to set it as the remote description; the offer (filtered when codecs
    are prescribed) was stored and sent, byte for byte, as an HTTP POST of type
    application/sdp over a connection to the address found for the endpoint's host and
    port; and the response was read from what came back, whatever its status was. *)
Theorem OnSuccess_posts s script l s' rest :
  OnSuccess s script = (l, Some (Ok s'), rest) -> exists r, posted s l s' r.
Proof. apply OnSuccess_run. Qed.

(** ** The capture device *)

(** The video type of a device's format is always defined: for every pixel format the
    four-character name passes the length assertion, and its video type is never
    kRGB24, since the five-character name tested for it is not one. *)
Theorem fourcc_to_videotype_total p :
  exists t, fourcc_to_videotype (fourcc_to_string p) = Ok t /\ t <> kRGB24.
Proof.
  unfold fourcc_to_videotype.
  rewrite (bool_decide_eq_true_2 (length (fourcc_to_string p) = 4%nat)) by done.
  cbn [assert_ mbind res_bind]. cbv zeta.
  rewrite (bool_decide_eq_false_2 (fourcc_to_string p = lit "RGB24"))
    by (intros Hq; by apply (f_equal length) in Hq).
  repeat match goal with |- context [if ?b then _ else _] => destruct b; [by eexists|] end.
  by eexists.
Qed.

(** A capture track made without a configuration is undefined behaviour: the device's
    frame rate is read although nothing has set it, so [Create] can only return null
    or fail. *)
Theorem Create_never_succeeds path script l b rest :
  Create path script = (l, Some (Ok b), rest) -> b = None.
Proof.
  unfold Create, with_capturer, dev. intros E. inv_run; try done. exfalso.
  match goal with H : embed _ _ (V4LDevice_new _) _ = _ |- _ =>
    apply embed_run in H as (l0 & s0 & H & _); [|apply V4LDevice_new_replays]; rename H into E0 end.
  apply V4LDevice_new_Ok in E0 as (o & q & g & _ & _ & _ & _ & _ & _ & Hf & _).
  unfold CapturerTrackSource_new in *. rewrite Hf in *. inv_run.
Qed.

(** The video types of the four-character codes. *)
Definition video_types : list (string * VideoType) :=
  [("I420", kI420); ("YU12", kI420); ("IYUV", kIYUV); ("YUY2", kYUY2); ("YUYV", kYUY2); ("YV12", kYV12);
   ("UYVY", kUYVY); ("NV21", kNV21); ("NV12", kNV12); ("BGRA", kBGRA)]%string.

Definition has_video_type (code : str) (ty : VideoType) : Prop :=
  (exists name, (name, ty) ∈ video_types /\ code = lit name) \/
  (ty = kUnknown /\ Forall (fun e => code <> lit (fst e)) video_types).

Lemma fourcc_to_videotype_table code ty : fourcc_to_videotype code = Ok ty -> has_video_type code ty.
Proof.
  unfold fourcc_to_videotype. intros E. apply bind_Ok in E as (? & Hl & E). unfold assert_ in Hl.
  destruct (bool_decide (length code = 4%nat)) eqn:Hlen; [|done]. apply bool_decide_eq_true_1 in Hlen.
  rewrite (bool_decide_eq_false_2 (code = lit "RGB24")) in E by (intros ->; done).
  repeat match type of E with (if bool_decide ?P || bool_decide ?Q then _ else _) = _ =>
      destruct (decide P); [left; rewrite bool_decide_eq_true_2 in E by done|
        destruct (decide Q); [left; rewrite (bool_decide_eq_true_2 Q), orb_true_r in E by done|
          rewrite (bool_decide_eq_false_2 P), (bool_decide_eq_false_2 Q) in E by done; cbn [orb] in E]]
    | (if bool_decide ?P then _ else _) = _ =>
      destruct (decide P); [left; rewrite bool_decide_eq_true_2 in E by done|
        rewrite (bool_decide_eq_false_2 P) in E by done]
    end.
  all: try (injection E as <-; eexists; split; [|done]; by repeat (apply list_elem_of_here || apply list_elem_of_further)).
  right. injection E as <-. split; [done|]. by repeat constructor.
Qed.

Lemma ascii_char c : code c < 128 -> i8 (code c) = code c.
Proof. intros Hc. pose proof (code_range c). apply wrapS_id; [lia|]. unfold in_s. lia. Qed.

Lemma configure_name device config a b c d :
  fourcc config = [a; b; c; d] -> code a < 128 /\ code b < 128 /\ code c < 128 /\ code d < 128 ->
  fourcc_to_string (pixelformat (fmt (configure device config))) = fourcc config.
Proof.
  intros E (Ha & Hb & Hc & Hd). unfold configure, char_value. cbn [fmt pixelformat]. rewrite E. cbn [nth].
  rewrite !ascii_char by done. rewrite v4l2_fourcc_bytes by (split; [apply code_range|done]).
  unfold fourcc_to_string. pose proof (code_range a); pose proof (code_range b); pose proof (code_range c);
    pose proof (code_range d).
  repeat f_equal; apply code_inj; rewrite byte_of by lia; Z.to_euclidean_division_equations; lia.
Qed.

Lemma dev_new_run path script l d rest : dev (V4LDevice_new path) script = (l, Some (Ok d), rest) ->
  sys_log l = [] /\ rtc_log l = [] /\ exists s', V4LDevice_new path (map w_dev script) = (dev_log l, Some (Ok d), s').
Proof.
  intros E. apply embed_run in E as (l0 & s0 & E & _ & Hl); [|apply V4LDevice_new_replays].
  apply embed_dev_log in Hl as (-> & -> & ->). eauto.
Qed.

Lemma dev_delete_run device script l r rest : dev (V4LDevice_delete device) script = (l, Some r, rest) ->
  r = Ok tt /\ sys_log l = [] /\ rtc_log l = [] /\ exists a, dev_log l = [(DevClose (fd device), a)].
Proof.
  intros E. apply embed_run in E as (l0 & s0 & E & _ & Hl); [|unfold V4LDevice_delete; replay].
  apply embed_dev_log in Hl as (-> & -> & ->). unfold V4LDevice_delete, m_bind, call, m_ret in E.
  destruct (map w_dev script); [done|]. injection E as <- <- _. eauto.
Qed.

(** The bytes of a C array up to its first null byte. *)
Lemma c_str_spec s : exists tail, s = c_str s ++ tail /\ ("000"%char ∉ c_str s) /\
  (tail = [] \/ exists t, tail = "000"%char :: t).
Proof.
  unfold c_str. induction s as [|c s (tail & E & H1 & H2)]; [exists []; cbn; split_and!; [done|set_solver|by left]|].
  cbn [span]. destruct (decide (c = "000"%char)) as [->|Hc].
  - rewrite bool_decide_eq_true_2 by done. cbn. eexists. split; [done|]. split; [set_solver|eauto].
  - rewrite bool_decide_eq_false_2 by done. cbn [negb].
    destruct (span _ s) as [p q]. cbn [fst] in *. exists tail. cbn. rewrite <- E. split; [done|].
    split; [set_solver|done].
Qed.

(** C10: a capture track configured with a code of four ASCII characters: when
    [CreateWithConfig] returns a track, it has opened the device node and keeps it open;
    the kernel's answer to QUERYCAP succeeded with the capture or the multi-planar capture
    flag and the streaming flag; and the library was asked for the capturer of that
    answer's bus (its text up to the first null byte) and to start it with the configured
    width, height and frame rate, as 32-bit numbers, and the video type that the table
    gives the configured code ([kUnknown] for one it does not have). *)
Theorem CreateWithConfig_starts path config a b c d script l device rest :
  fourcc config = [a; b; c; d] -> code a < 128 /\ code b < 128 /\ code c < 128 /\ code d < 128 ->
  CreateWithConfig path config script = (l, Some (Ok (Some device)), rest) ->
  exists o q g busid tail ty,
    dev_log l = [(DevOpen path, o); (DevQueryCap (d_ret o), q);
                 (DevGetFmt (d_ret o) (mkFmt V4L2_BUF_TYPE_VIDEO_CAPTURE 0 0 0), g)] /\
    0 <= d_ret o /\ 0 <= d_ret q /\
    (Z.land (capabilities (d_cap q)) V4L2_CAP_VIDEO_CAPTURE <> 0 \/
     Z.land (capabilities (d_cap q)) V4L2_CAP_VIDEO_CAPTURE_MPLANE <> 0) /\
    Z.land (capabilities (d_cap q)) V4L2_CAP_STREAMING <> 0 /\
    bus_info (d_cap q) = busid ++ tail /\ ("000"%char ∉ busid) /\ (tail = [] \/ exists t, tail = "000"%char :: t) /\
    has_video_type [a; b; c; d] ty /\
    map fst (rtc_log l) = [RtcCreateCapturer busid; RtcRegisterCallback;
      RtcStartCapture (mkCapability (i32 (width config)) (i32 (height config)) (i32 (fps config)) ty false)].
Proof.
  intros Hf Ha E. unfold CreateWithConfig, with_capturer, CapturerTrackSource_new in E. inv_run. inv_rtc.
  match goal with H : dev (V4LDevice_new _) _ = _ |- _ => apply dev_new_run in H as (Hs & Hr & s' & Hn) end.
  apply V4LDevice_new_Ok in Hn as (o & q & g & Hl & Ho & Hq & Hc & Hst & Hcap & _ & _).
  rewrite (configure_name _ _ _ _ _ _ Hf Ha), Hf in *.
  destruct (c_str_spec (bus_info (d_cap q))) as (tail & Hb & Hn & Ht).
  match goal with H : fourcc_to_videotype _ = Ok ?t |- _ =>
    exists o, q, g, (c_str (bus_info (d_cap q))), tail, t; apply fourcc_to_videotype_table in H end.
  split_and!; try done; logs_of; rewrite ?app_nil_r; try done.
  match goal with H : match framerate _ with _ => _ end = Ok _ |- _ => cbn in H; simplify_eq end.
  cbn [configure cap]. by rewrite Hcap.
Qed.

(** ** The program *)

(** The library's calls of [main] before the track is added. *)
Definition setup_calls (busid : str) (capability : VideoCaptureCapability) : list rtcop :=
  [RtcInitializeSSL; RtcCreateThread; RtcStartThread; RtcCreateFactory;
   RtcCreatePeerConnection (mkRtcConfig true true [lit "stun:stun.l.google.com:19302"]);
   RtcCreateCapturer busid; RtcRegisterCallback; RtcStartCapture capability;
   RtcCreateVideoTrack (lit "video_label")].

(** When [main] reaches its endless loop, the factory and the peer connection exist, the
    endpoint is the configured one, the node opened is the configured device, still open
    exactly when the track was added, and the library was asked, in this order, to set
    up, to start the capture, to add the track and to post the offer. *)
Lemma main_run argv script l s rest :
  main argv script = (l, Some (Ok s), rest) ->
  factory s = true /\ pc s = true /\ url s = whip_endpoint (FromArgs argv) /\
  allowed_codecs s = None /\ max_bitrate s = None /\ max_framerate s = None /\
  exists idx fd busid capability added l1 l2, device_index (FromArgs argv) = Ok idx /\
    head (map fst (dev_log l)) = Some (DevOpen (lit "/dev/video" ++ to_string idx)) /\
    dev_opened (dev_log l) = [fd] /\ dev_closed (dev_log l) = (if w_ptr added then [] else [fd]) /\ sys_log l = [] /\
    rtc_log l = l1 ++ [(RtcAddTrack [lit "stream_id"], added)] ++ l2 /\
    map fst l1 = setup_calls busid capability /\ map fst l2 = [RtcSignalingState; RtcGetSenders; RtcPostOfferTask].
Proof.
  intros E. unfold main, WHIPSession_new, Initialize, CreateConnection, AddCaptureDevice, CreateWithConfig,
    with_capturer, CapturerTrackSource_new, CreateOffer, deref in E. inv_run; try done; inv_rtc; inv_res;
  match goal with H : dev (V4LDevice_new _) _ = (_, Some (Ok ?d), _) |- _ =>
    apply dev_new_run in H as (Hs & Hr & s' & Hn);
    apply V4LDevice_new_Ok in Hn as (o & q & g & Hl & Ho & _ & _ & _ & _ & _ & Hfd) end;
  try match goal with H : dev (V4LDevice_delete _) _ = _ |- _ =>
    apply dev_delete_run in H as (_ & Hs' & Hr' & z & Hl') end.
  all: cbn [factory pc set_factory set_pc url configure fd] in *; split_and!; try done.
  all: match goal with H : rtc_log _ = [(RtcAddTrack _, ?x)], Hi : device_index _ = Ok ?i |- _ =>
    exists i, (d_ret o); eexists _, _, x end.
  all: assert ((d_ret o <? 0) = false) as Hneg by lia.
  all: eexists [_; _; _; _; _; _; _; _; _], [_; _; _]; split_and!; logs_of; rewrite ?app_nil_r, ?Hl', ?Hl; cbn -[Z.ltb]; rewrite ?Hneg; try done.
  all: match goal with H : w_ptr _ = _ |- _ => rewrite H end; by rewrite <- ?Hfd.
Qed.

(** ** The whole publication *)

(** While [main] loops, the signaling thread runs the posted task, and the library reports
    the offer it made to [OnSuccess]. *)
Definition publish (argv : list str) : WIO WHIPSession :=
  let* s := main argv in
  let* _ := CreateOffer_task s in
  OnSuccess s.

Lemma CreateOffer_task_run s script l rest : CreateOffer_task s script = (l, Some (Ok tt), rest) ->
  exists o, sys_log l = [] /\ dev_log l = [] /\ rtc_log l = [(RtcCreateOffer (mkOptions 0 (-1) true), o)].
Proof.
  unfold CreateOffer_task, deref. intros E. inv_run. inv_rtc. eexists. split_and!; logs_of; rewrite ?app_nil_r; done.
Qed.

(** C11: from the command line to the answer: when the program has published, the device
    named on the command line was opened, and it is still open if the track was added
    and has been closed if that failed; the library was asked, in this order, to set up,
    to capture, to add the track and to make the offer; the offer it printed was posted
    as it is to the endpoint of the command line (no codec is filtered and no encoding
    changed, since [main] prescribes no limits); and what the server sent was read as an
    HTTP response whose body was offered as the answer and, when it could be parsed,
    became the remote description. *)
Theorem publish_end_to_end argv script l s rest :
  publish argv script = (l, Some (Ok s), rest) ->
  exists idx fd busid capability added u params x desc answer r l1 l2 after,
    device_index (FromArgs argv) = Ok idx /\
    head (map fst (dev_log l)) = Some (DevOpen (lit "/dev/video" ++ to_string idx)) /\
    dev_opened (dev_log l) = [fd] /\ dev_closed (dev_log l) = (if w_ptr added then [] else [fd]) /\
    parseUri (whip_endpoint (FromArgs argv)) = Ok u /\ connected u l /\ sdp s = w_data desc /\
    encodeHtml u (lit "POST") (w_data desc) [(lit "Content-Type", lit "application/sdp")] = Ok (sent (sys_log l)) /\
    receive recv_init (received (sys_log l)) = Some (Ok r) /\
    rtc_log l = l1 ++ [(RtcAddTrack [lit "stream_id"], added)] ++ l2 ++
                [(RtcGetParameters, params); (RtcSetParameters (w_encodings params), x);
                 (RtcDescToString, desc); (RtcParseAnswer (body r), answer)] ++ after /\
    map fst l1 = setup_calls busid capability /\
    map fst l2 = [RtcSignalingState; RtcGetSenders; RtcPostOfferTask; RtcCreateOffer (mkOptions 0 (-1) true);
                  RtcSetLocalDescription; RtcGetSenders] /\
    map fst after = if w_ptr answer then [RtcSetRemoteDescription] else [].
Proof.
  unfold publish. intros E. apply m_bind_Ok in E as (lm & s0 & sc & l' & Hm & E & ->).
  apply m_bind_Ok in E as (lo & [] & sc' & ls & Ho & E & ->).
  apply main_run in Hm as (_ & _ & Hu & Hc & Hb & Hf & idx & fd & busid & capability & added & m1 & m2 & Hi & Hd & Hop & Hcl & Hs & Hr & Hm1 & Hm2).
  apply OnSuccess_run in E as (r & kept & senders & params & es & x & desc & answer & u & l3 & _ & _ & _ & Hes & Ht & _ & Hp & Hco & He & Hrv & Hds & Hl & H3).
  rewrite Hc in Ht. rewrite Hb, Hf in Hes.
  assert (es = w_encodings params) as ->.
  { clear -Hes. induction Hes as [|[b f] [b' f'] l l' [E1 E2] _ IH]; [done|]. cbn in *. by subst. }
  apply CreateOffer_task_run in Ho as (o & Hos & Hod & Hor).
  exists idx, fd, busid, capability, added, u, params, x, desc, answer, r, m1,
    (m2 ++ [(RtcCreateOffer (mkOptions 0 (-1) true), o); (RtcSetLocalDescription, kept); (RtcGetSenders, senders)]), l3.
  logs_of. rewrite <- Hu, <- Ht, ?app_nil_r. split_and!; try done.
  - unfold connected in *. rewrite !sys_log_app, Hs, Hos. exact Hco.
  - by rewrite <- !app_assoc.
  - rewrite map_app. by rewrite Hm2.
Qed.

End Session.

(** ** Concrete runs *)
Definition rtc_reply (a : rtcans) : reply := mkReply a (mkDevAns 0 zero_cap zero_fmt) (returns 0).
Definition dev_reply (a : devans) : reply := mkReply (mkRtcAns 0 true [] []) a (returns 0).
Definition sys_reply (a : answer) : reply := mkReply (mkRtcAns 0 true [] []) (mkDevAns 0 zero_cap zero_fmt) a.
Definition good : reply := rtc_reply (mkRtcAns 1 true [] []).

(** A node on descriptor 4 that captures and streams. *)
Definition demo_node : list reply :=
  map dev_reply [mkDevAns 4 zero_cap zero_fmt; mkDevAns 0 (mkCap [] [] (lit "usb-1") 67108865) zero_fmt;
                 mkDevAns 0 zero_cap (mkFmt 1 640 480 1448695129)].

Definition demo_config : CaptureTrackConfig := mkCapture 1280 720 30 (lit "NV12").

Lemma CreateWithConfig_starts_witness : exists l rest device ty,
  CreateWithConfig (lit "/dev/video0") demo_config (demo_node ++ [good; good; good]) = (l, Some (Ok (Some device)), rest) /\
  has_video_type (lit "NV12") ty /\
  map fst (rtc_log l) = [RtcCreateCapturer (lit "usb-1"); RtcRegisterCallback;
                         RtcStartCapture (mkCapability 1280 720 30 ty false)].
Proof.
  destruct (CreateWithConfig (lit "/dev/video0") demo_config (demo_node ++ [good; good; good]))
    as [[l r] rest] eqn:E.
  destruct r as [[[device|]|e| |]|]; try (by vm_compute in E).
  destruct (CreateWithConfig_starts (lit "/dev/video0") demo_config "N" "V" "1" "2"
    (demo_node ++ [good; good; good]) l device rest eq_refl ltac:(split_and!; reflexivity) E)
    as (o & q & g & busid & tail & ty & _ & _ & _ & _ & _ & _ & _ & _ & Hty & H2).
  exists l, rest, device, ty. split; [reflexivity|]. split; [exact Hty|]. rewrite H2.
  vm_compute in E. injection E as <- _ _. vm_compute in H2. injection H2 as <- <-. reflexivity.
Defined.

Lemma Create_never_succeeds_witness : exists l b rest,
  Create (lit "/dev/video0") (demo_node ++ [rtc_reply (mkRtcAns 0 false [] []); dev_reply (mkDevAns 0 zero_cap zero_fmt)])
    = (l, Some (Ok b), rest) /\ b = None.
Proof.
  destruct (Create (lit "/dev/video0") (demo_node ++ [rtc_reply (mkRtcAns 0 false [] []); dev_reply (mkDevAns 0 zero_cap zero_fmt)]))
    as [[l r] rest] eqn:E.
  destruct r as [[b|e| |]|]; try (by vm_compute in E).
  exists l, b, rest. split; [done|]. exact (Create_never_succeeds _ _ _ _ _ E).
Defined.

(** The server refuses with 404, and its page is used as the answer all the same. *)
Definition demo_session : WHIPSession := mkSession true true [] None None (Some 500000) (lit "http://h:8080/w").
Definition refusal : str :=
  lit "HTTP/1.1 404 Not Found" ++ CRLF ++ lit "Content-Length: 4" ++ CRLF ++ CRLF ++ lit "none".
Definition demo_post : str :=
  lit "POST /w HTTP/1.1" ++ CRLF ++ lit "Content-Type: application/sdp" ++ CRLF ++ lit "Host: h" ++ CRLF ++
  lit "Content-Length: 3" ++ CRLF ++ CRLF ++ lit "v=0".
Definition demo_success : list reply :=
  [good; good; rtc_reply (mkRtcAns 0 true [] [mkEncoding None None]); good;
   rtc_reply (mkRtcAns 0 true (lit "v=0") [])] ++
  map sys_reply (script (lit "addr") 3 [demo_post] [refusal]) ++ [good; good].

Lemma OnSuccess_posts_witness : exists l s rest,
  OnSuccess demo_session demo_success = (l, Some (Ok s), rest) /\
  sent (sys_log l) = demo_post /\ RtcSetRemoteDescription ∈ map fst (rtc_log l) /\
  exists r, receive recv_init (received (sys_log l)) = Some (Ok r) /\ scode <$> status r = Some 404.
Proof.
  destruct (OnSuccess demo_session demo_success) as [[l r] rest] eqn:E.
  destruct r as [[s|e| |]|]; try (by vm_compute in E).
  exists l, s, rest. split; [done|].
  destruct (OnSuccess_posts _ _ _ _ _ E) as (r & ke & se & pa & es & x & de & an & u & l3 & _ & _ & _ & _ & _ & _ & _ & _ & _ & Hr & _).
  vm_compute in E. injection E as <- _ _. split_and!.
  - vm_compute. reflexivity.
  - vm_compute. repeat constructor.
  - exists r. split; [exact Hr|]. vm_compute in Hr. injection Hr as <-. reflexivity.
Defined.

(** The same server, the configured device 2, and an offer of one encoding. *)
Definition demo_args : list str := [lit "-d"; lit "2"; lit "-c"; lit "nv12"; lit "http://h:8080/w"].
Definition demo_publish : list reply := repeat good 5 ++ demo_node ++ repeat good 8 ++ [good] ++ demo_success.

Lemma publish_end_to_end_witness : exists l s rest,
  publish demo_args demo_publish = (l, Some (Ok s), rest) /\
  sent (sys_log l) = demo_post /\ head (map fst (dev_log l)) = Some (DevOpen (lit "/dev/video2")) /\
  sdp s = lit "v=0".
Proof.
  destruct (publish demo_args demo_publish) as [[l r] rest] eqn:E.
  destruct r as [[s|e| |]|]; try (by vm_compute in E).
  exists l, s, rest. split; [done|].
  destruct (publish_end_to_end _ _ _ _ _ E) as (idx & ? & ? & ? & ? & ? & ? & ? & desc & ? & ? & ? & ? & ? & Hi & Hd & _).
  rewrite Hd. vm_compute in E. injection E as <- <- _. vm_compute in Hi. injection Hi as <-.
  split_and!; vm_compute; reflexivity.
Defined.
