(* ===== verification/Jetson.v ===== *)
(** * The Jetson encoder

    [JetsonEncoder] of [encoder/jetson_encoder.cpp] and its context [context_t] of
    [encoder/video_encode.h].  The NVIDIA and kernel headers are an interface,
    [NvHeaders]; calls on the encoder and its planes are operations of the log.  The
    array [encoded_images] is a heap block that is null, alive or deleted. *)

From S2P Require Import Prelude.
From S2P Require Import Effects.
Local Open Scope eff_scope.

(** ** Constants of headers outside the repository *)
Class NvHeaders := {
  V4L2_PIX_FMT_YUV420M : Z;
  V4L2_PIX_FMT_H264 : Z;
  V4L2_MPEG_VIDEO_BITRATE_MODE_CBR : Z;
  V4L2_MPEG_VIDEO_H264_LEVEL_5_1 : Z;
  V4L2_MEMORY_DMABUF : Z;
  V4L2_MEMORY_MMAP : Z;
  V4L2_COLORSPACE_SMPTE170M : Z;
  V4L2_PPE_FEATURE_NONE : Z;
  V4L2_EVENT_EOS : Z;
  QP_RETAIN_VAL : Z;
  (** [webrtc::CalcBufferSize(VideoType::kI420, width, height)]. *)
  CalcBufferSize : Z -> Z -> Z
}.

(** ** The context

    The members of [context_t] with their types, in the order of the struct.  A
    context maps each member to the integer it holds (a pointer to 0 or not, a
    [bool] to 0 or 1); a member that was never assigned after [memset] is 0. *)
Inductive ctype := U (w : Z) | I (w : Z) | Bool | Enum | Ptr | Foreign.

Definition context_fields : list (string * ctype) :=
  [("enc", Ptr); ("encoder_pixfmt", U 32); ("raw_pixfmt", U 32); ("in_file_path", Ptr); ("in_file", Ptr);
   ("width", U 32); ("height", U 32); ("out_file_path", Ptr); ("out_file", Ptr);
   ("ROI_Param_file_path", Ptr); ("Recon_Ref_file_path", Ptr); ("RPS_Param_file_path", Ptr);
   ("hints_Param_file_path", Ptr); ("GDR_Param_file_path", Ptr); ("GDR_out_file_path", Ptr);
   ("TG_Param_file_path", Ptr); ("roi_Param_file", Ptr); ("recon_Ref_file", Ptr); ("rps_Param_file", Ptr);
   ("hints_Param_file", Ptr); ("gdr_Param_file", Ptr); ("tg_Param_file", Ptr); ("gdr_out_file", Ptr);
   ("bitrate", U 32); ("peak_bitrate", U 32); ("profile", U 32); ("ratecontrol", Enum);
   ("iframe_interval", U 32); ("idr_interval", U 32); ("level", U 32); ("fps_n", U 32); ("fps_d", U 32);
   ("gdr_start_frame_number", U 32); ("gdr_num_frames", U 32); ("gdr_out_frame_number", U 32);
   ("temporal_tradeoff_level", Enum); ("hw_preset_type", Enum); ("slice_length_type", Enum);
   ("slice_length", U 32); ("virtual_buffer_size", U 32); ("num_reference_frames", U 32);
   ("slice_intrarefresh_interval", U 32); ("num_b_frames", U 32); ("nMinQpI", U 32); ("nMaxQpI", U 32);
   ("nMinQpP", U 32); ("nMaxQpP", U 32); ("nMinQpB", U 32); ("nMaxQpB", U 32); ("sMaxQp", U 32);
   ("sar_width", U 32); ("sar_height", U 32); ("IinitQP", U 32); ("PinitQP", U 32); ("BinitQP", U 32);
   ("log2_num_av1rows", U 32); ("log2_num_av1cols", U 32); ("bit_depth", U 8); ("enable_av1ssimrdo", U 8);
   ("disable_av1cdfupdate", U 8); ("av1erresmode", U 8); ("chroma_format_idc", U 8);
   ("output_plane_fd", Foreign); ("capture_plane_fd", Foreign); ("insert_sps_pps_at_idr", Bool);
   ("enable_slice_level_encode", Bool); ("disable_cabac", Bool); ("insert_vui", Bool);
   ("enable_extended_colorformat", Bool); ("insert_aud", Bool); ("alliframes", Bool);
   ("is_semiplanar", Bool); ("enable_initQP", Bool); ("enable_ratecontrol", Bool); ("enable_av1tile", Bool);
   ("disable_amp", Bool); ("enable_two_pass_cbr", Bool); ("enable_av1frameidflag", Bool);
   ("output_memory_type", Enum); ("capture_memory_type", Enum); ("cs", Enum); ("report_metadata", Bool);
   ("input_metadata", Bool); ("copy_timestamp", Bool); ("start_ts", U 32); ("dump_mv", Bool);
   ("enableGDR", Bool); ("bGapsInFrameNumAllowed", Bool); ("bnoIframe", Bool); ("nH264FrameNumBits", U 32);
   ("nH265PocLsbBits", U 32); ("externalRCHints", Bool); ("enableROI", Bool); ("b_use_enc_cmd", Bool);
   ("enableLossless", Bool); ("got_eos", Bool); ("externalRPS", Bool); ("RPS_threeLayerSvc", Bool);
   ("rps_par", Foreign); ("use_gold_crc", Bool); ("gold_crc", Foreign); ("pBitStreamCrc", Ptr);
   ("bReconCrc", Bool); ("rl", U 32); ("rt", U 32); ("rw", U 32); ("rh", U 32); ("timestamp", U 64);
   ("timestampincr", U 64); ("stats", Bool); ("externalTG", Bool); ("runtime_params_str", Ptr);
   ("next_param_change_frame", U 32); ("got_error", Bool); ("stress_test", I 32);
   ("endofstream_capture", U 32); ("endofstream_output", U 32); ("drc_params_str", Ptr);
   ("next_drc_frame", U 32); ("got_drc", Bool); ("drc_width", U 32); ("drc_height", U 32);
   ("encode_width", U 32); ("encode_height", U 32); ("input_frames_queued_count", U 32); ("startf", U 32);
   ("endf", U 32); ("num_output_buffers", U 32); ("num_frames_to_encode", I 32); ("poc_type", U 32);
   ("ppe_init_params", Foreign); ("max_perf", I 32); ("blocking_mode", I 32); ("pollthread_sema", Foreign);
   ("encoderthread_sema", Foreign); ("enc_pollthread", Foreign); ("enc_capture_loop", Foreign);
   ("encoded_images", Ptr)]%string.

Abbreviation context_t := (gmap string Z).

Fixpoint type_in (fields : list (string * ctype)) (f : string) : ctype :=
  match fields with
  | [] => Foreign
  | (g, t) :: rest => if bool_decide (f = g) then t else type_in rest f
  end.
Definition field_type (f : string) : ctype := type_in context_fields f.

(** Assignment converts to the member's type. *)
Definition convert (t : ctype) (v : Z) : Z :=
  match t with
  | U w => wrapU w v
  | I w => wrapS w v
  | Bool => if v =? 0 then 0 else 1
  | Enum | Ptr | Foreign => v
  end.

Definition get (c : context_t) (f : string) : Z := default 0 (c !! f).
Definition set (f : string) (v : Z) (c : context_t) : context_t := <[f := convert (field_type f) v]> c.
Definition assign (c : context_t) (p : string * Z) : context_t := set (fst p) (snd p) c.

(** ** Encoded images *)
Record EncodedImage := mkImage {
  _encodedWidth : Z; _encodedHeight : Z; timestamp_rtp_ : Z; ntp_time_ms_ : Z; capture_time_ms_ : Z;
  rotation_ : Z; color_space_ : option Z;
  buffer_ : bool; capacity_ : Z;   (* a buffer the image does not own *)
  encoded_data_size : Z            (* the size of the one it owns *)
}.

Definition capacity (x : EncodedImage) : Z := if buffer_ x then capacity_ x else encoded_data_size x.

Definition Allocate (x : EncodedImage) (capacity : Z) : EncodedImage :=
  mkImage (_encodedWidth x) (_encodedHeight x) (timestamp_rtp_ x) (ntp_time_ms_ x) (capture_time_ms_ x)
    (rotation_ x) (color_space_ x) false (capacity_ x) capacity.

Inductive Images := Null | Alive (l : list EncodedImage) | Deleted.

(** [encoded_images\[i\]], read or written: undefined outside of the live array. *)
Definition image_at (im : Images) (i : Z) : res EncodedImage :=
  match im with
  | Alive l => match l !! Z.to_nat i with Some x => Ok x | None => Undef end
  | _ => Undef
  end.
Definition image_set (im : Images) (i : Z) (x : EncodedImage) : res Images :=
  match im with
  | Alive l => if bool_decide (Z.to_nat i < length l)%nat then Ok (Alive (<[Z.to_nat i := x]> l)) else Undef
  | _ => Undef
  end.

(** ** Calls on the hardware encoder *)
Inductive plane := output_plane | capture_plane.

Inductive nvop :=
| NvCreate (name : string)
| NvSetFormat (p : plane) (args : list Z)
| NvSet (what : string) (args : list Z)
| NvSetupPlane (p : plane) (memory num : Z)
| NvStreamStatus (p : plane)
| NvDQThread
| NvNumBuffers (p : plane)
| NvQBuffer (p : plane) (index : Z) (data : list str)
| NvDQBuffer (p : plane)
| NvTotalDequeued
| NvSurfaceFromFd (fd : Z)
| NvSurfaceSync (plane_index : Z)
| NvAbort
| NvIsInError.

(** Queueing an output buffer hands over what was copied into its planes; the capture
    buffers are queued empty. *)

(** The planes of a dequeued buffer: bytes used, and the descriptor. *)
Record nvplane := mkPlane { bytesused : Z; plane_fd : Z }.

Record nvans := mkNv { n_ret : Z; n_ptr : bool; n_index : Z; n_planes : list nvplane }.

Abbreviation NIO := (M nvop nvans).

Definition assert_ok (o : nvop) : NIO unit :=
  let* a := call o in m_ret (assert_ (n_ret a =? 0)).

Record JetsonEncoder := mkEncoder { ctx : context_t; images : Images; callback : bool }.

(** [absl::make_unique<JetsonEncoder>()]: value-initialized. *)
Definition JetsonEncoder_new : JetsonEncoder := mkEncoder ∅ Null false.

(** A frame: its three planes of pixels and its metadata. *)
Record VideoFrame := mkFrame {
  dataY : str; dataU : str; dataV : str;
  frame_timestamp : Z; frame_ntp : Z; frame_render : Z; frame_rotation : Z; frame_color : option Z
}.

Section Encoder.
Context `{NvHeaders} (EncodedImage_new : EncodedImage).

Definition default_assignments : list (string * Z) :=
  [("raw_pixfmt", V4L2_PIX_FMT_YUV420M); ("bitrate", 4 * 1024 * 1024); ("peak_bitrate", 0); ("profile", 0);
   ("ratecontrol", V4L2_MPEG_VIDEO_BITRATE_MODE_CBR); ("iframe_interval", 30); ("externalRPS", 0);
   ("enableGDR", 0); ("enableROI", 0); ("bnoIframe", 0); ("bGapsInFrameNumAllowed", 0); ("bReconCrc", 0);
   ("enableLossless", 0); ("nH264FrameNumBits", 0); ("nH265PocLsbBits", 0); ("idr_interval", 256);
   ("level", -1); ("fps_n", 30); ("fps_d", 1); ("gdr_start_frame_number", 4294967295);
   ("gdr_num_frames", 4294967295); ("gdr_out_frame_number", 4294967295); ("num_b_frames", u32 (-1));
   ("nMinQpI", u32 QP_RETAIN_VAL); ("nMaxQpI", u32 QP_RETAIN_VAL); ("nMinQpP", u32 QP_RETAIN_VAL);
   ("nMaxQpP", u32 QP_RETAIN_VAL); ("nMinQpB", u32 QP_RETAIN_VAL); ("nMaxQpB", u32 QP_RETAIN_VAL);
   ("use_gold_crc", 0); ("pBitStreamCrc", 0); ("externalRCHints", 0); ("input_metadata", 0); ("sMaxQp", 51);
   ("stats", 0); ("stress_test", 1); ("output_memory_type", V4L2_MEMORY_DMABUF);
   ("capture_memory_type", V4L2_MEMORY_MMAP); ("cs", V4L2_COLORSPACE_SMPTE170M); ("copy_timestamp", 0);
   ("sar_width", 0); ("sar_height", 0); ("start_ts", 0); ("max_perf", 0); ("blocking_mode", 1);
   ("startf", 0); ("endf", 0); ("num_output_buffers", 6); ("num_frames_to_encode", -1); ("poc_type", 0);
   ("chroma_format_idc", -1); ("bit_depth", 8); ("is_semiplanar", 0); ("enable_initQP", 0); ("IinitQP", 0);
   ("PinitQP", 0); ("BinitQP", 0); ("enable_ratecontrol", 1); ("enable_av1tile", 0);
   ("log2_num_av1rows", 0); ("log2_num_av1cols", 0); ("enable_av1ssimrdo", u8 (-1));
   ("disable_av1cdfupdate", u8 (-1)); ("av1erresmode", 1); ("enable_av1frameidflag", 0); ("externalTG", 0);
   ("ppe_init_params.enable_ppe", 0); ("ppe_init_params.wait_time_ms", -1);
   ("ppe_init_params.feature_flags", V4L2_PPE_FEATURE_NONE); ("ppe_init_params.enable_profiler", 0);
   ("ppe_init_params.taq_max_qp_delta", 5); ("ppe_init_params.saq_max_qp_delta", 5);
   ("ppe_init_params.taq_b_frame_mode", 1); ("disable_amp", 0); ("got_drc", 0); ("enable_two_pass_cbr", 0)]%string.

Definition SetDefaults (e : JetsonEncoder) : JetsonEncoder :=
  mkEncoder (foldl assign ∅ default_assignments) Null (callback e).

(** The context [InitEncode] sets up, around the creation of the encoder. *)
Definition init_context (width height : Z) : context_t :=
  let c := set "encoder_pixfmt" V4L2_PIX_FMT_H264 (foldl assign ∅ default_assignments) in
  let c := set "width" width c in
  let c := set "encode_width" (get c "width") c in
  let c := set "height" height c in
  set "encode_height" (get c "height") c.

Definition created_context (c : context_t) (ptr : bool) : context_t :=
  let c := set "enc" (if ptr then 1 else 0) c in
  let c := set "level" V4L2_MPEG_VIDEO_H264_LEVEL_5_1 c in
  let c := set "output_memory_type" V4L2_MEMORY_MMAP c in
  let c := set "capture_memory_type" V4L2_MEMORY_MMAP c in
  set "raw_pixfmt" V4L2_PIX_FMT_YUV420M c.

(** The calls that configure the encoder, in order; every [assert] aborts. *)
Definition configure_calls (c : context_t) : NIO unit :=
  let* _ := assert_ok (NvSetFormat capture_plane
              [get c "encoder_pixfmt"; get c "width"; get c "height"; 2 * 1024 * 1024]) in
  let* _ := assert_ok (NvSetFormat output_plane
              [get c "raw_pixfmt"; get c "encode_width"; get c "encode_height"; get c "cs"]) in
  let* _ := assert_ok (NvSet "setBitrate" [get c "bitrate"]) in
  let* _ := assert_ok (NvSet "setProfile" [get c "profile"]) in
  let* _ := assert_ok (NvSet "setLevel" [get c "level"]) in
  let* _ := assert_ok (NvSet "setIDRInterval" [get c "idr_interval"]) in
  let* _ := assert_ok (NvSet "setIFrameInterval" [get c "iframe_interval"]) in
  let* _ := assert_ok (NvSet "setFrameRate" [get c "fps_n"; get c "fps_d"]) in
  let* _ := assert_ok (NvSet "setMaxPerfMode" [1]) in
  let* _ := assert_ok (NvSetupPlane output_plane V4L2_MEMORY_MMAP 10) in
  let* _ := assert_ok (NvSetupPlane capture_plane V4L2_MEMORY_MMAP (get c "num_output_buffers")) in
  let* _ := assert_ok (NvSet "subscribeEvent" [V4L2_EVENT_EOS; 0; 0]) in
  let* _ := assert_ok (NvStreamStatus output_plane) in
  let* _ := assert_ok (NvStreamStatus capture_plane) in
  let* _ := call NvDQThread in
  m_ret (Ok tt).

(** [InitEncode] up to its loop.  The images are allocated between the calls, which do
    not see them. *)
Definition InitEncode_configure (width height : Z) (e : JetsonEncoder) : NIO JetsonEncoder :=
  let* a := call (NvCreate "enc0") in
  let* _ := m_ret (assert_ (n_ptr a)) in
  let c := created_context (init_context width height) (n_ptr a) in
  let* _ := configure_calls c in
  let images := Alive (replicate (Z.to_nat (get c "num_output_buffers")) EncodedImage_new) in
  m_ret (Ok (mkEncoder c images (callback e))).

(** A round of the loop that queues the empty capture buffers. *)
Definition queue_step (i : Z) : NIO (Z + Z) :=
  let* n := call (NvNumBuffers capture_plane) in
  if i <? n_ret n then
    let* a := call (NvQBuffer capture_plane i []) in
    if n_ret a <? 0 then m_ret (Ok (inr (n_ret a))) else m_ret (Ok (inl (u32 (i + 1))))
  else m_ret (Ok (inr 0)).

Definition InitEncode (width height : Z) (e : JetsonEncoder) : NIO (Z * JetsonEncoder) :=
  let* e := InitEncode_configure width height e in
  let* r := loop queue_step 0 in
  m_ret (Ok (r, e)).

(** [JetsonEncoder::abort]. *)
Definition abort (e : JetsonEncoder) : NIO JetsonEncoder :=
  let* _ := call NvAbort in m_ret (Ok (mkEncoder (set "got_error" 1 (ctx e)) (images e) (callback e))).

(** [EncoderCapturePlaneCallback]: the dequeued buffer is null, or has an index and the
    bytes used of its plane 0. *)
Definition EncoderCapturePlaneCallback (buf : option (Z * Z)) (e : JetsonEncoder) : NIO (bool * JetsonEncoder) :=
  let* _ := call NvTotalDequeued in
  match buf with
  | None => let* e := abort e in m_ret (Ok (false, e))
  | Some (index, used) =>
      if used =? 0 then let* e := abort e in m_ret (Ok (false, e))
      else
        let required := CalcBufferSize (get (ctx e) "encode_width") (get (ctx e) "encode_height") in
        let* image := m_ret (image_at (images e) index) in
        let* im := m_ret (if capacity image <? required
                          then image_set (images e) index (Allocate image required) else Ok (images e)) in
        let e := mkEncoder (ctx e) im (callback e) in
        let* a := call (NvQBuffer capture_plane index []) in
        if n_ret a <? 0 then let* e := abort e in m_ret (Ok (false, e))
        else m_ret (Ok (true, e))
  end.

Definition RegisterEncodeCompleteCallback (cb : bool) (e : JetsonEncoder) : Z * JetsonEncoder :=
  (0, mkEncoder (ctx e) (images e) cb).

(** [memcpy(plane.data, frame data, plane.bytesused)], the bytes copied: reading past the
    frame's plane is undefined. *)
Definition copy_plane (planes : list nvplane) (i : nat) (data : str) : res str :=
  match planes !! i with
  | Some p => _ ← defined ((0 <=? bytesused p) && (bytesused p <=? Z.of_nat (length data)));
              Ok (take (Z.to_nat (bytesused p)) data)
  | None => Undef
  end.

(** The loop over the planes: false when a call failed. *)
Fixpoint sync_planes (j : Z) (planes : list nvplane) : NIO bool :=
  match planes with
  | [] => m_ret (Ok true)
  | p :: rest =>
      let* a := call (NvSurfaceFromFd (plane_fd p)) in
      if n_ret a <? 0 then m_ret (Ok false) else
      let* b := call (NvSurfaceSync j) in
      if n_ret b <? 0 then m_ret (Ok false) else sync_planes (j + 1) rest
  end.

(** The metadata of the frame, stored under the index of the buffer. *)
Definition describe (e : JetsonEncoder) (f : VideoFrame) (x : EncodedImage) : EncodedImage :=
  mkImage (get (ctx e) "encode_width") (get (ctx e) "encode_height") (frame_timestamp f) (frame_ntp f)
    (frame_render f) (frame_rotation f) (frame_color f) (buffer_ x) (capacity_ x) (encoded_data_size x).

Definition Encode (f : VideoFrame) (e : JetsonEncoder) : NIO (Z * JetsonEncoder) :=
  let* _ := m_ret (defined (negb (get (ctx e) "enc" =? 0))) in
  let* d := call (NvDQBuffer output_plane) in
  if n_ret d <? 0 then m_ret (Ok (-1, e)) else
  let* y := m_ret (copy_plane (n_planes d) 0 (dataY f)) in
  let* u := m_ret (copy_plane (n_planes d) 1 (dataU f)) in
  let* v := m_ret (copy_plane (n_planes d) 2 (dataV f)) in
  let* synced := sync_planes 0 (n_planes d) in
  if negb synced then m_ret (Ok (-1, e)) else
  let index := n_index d in
  let* x := m_ret (image_at (images e) index) in
  let* im := m_ret (image_set (images e) index (describe e f x)) in
  let e := mkEncoder (ctx e) im (callback e) in
  let* a := call (NvQBuffer output_plane index [y; u; v]) in
  if n_ret a <? 0 then m_ret (Ok (-1, e)) else
  m_ret (Ok (0, mkEncoder (set "input_frames_queued_count" (get (ctx e) "input_frames_queued_count" + 1) (ctx e))
                  (images e) (callback e))).

(** [Release]: the array is deleted, and the pointer keeps its value. *)
Definition Release (e : JetsonEncoder) : NIO (Z * JetsonEncoder) :=
  let* bad := (if get (ctx e) "enc" =? 0 then m_ret (Ok false)
               else let* a := call NvIsInError in m_ret (Ok (negb (n_ret a =? 0)))) in
  let error := bad || negb (get (ctx e) "got_error" =? 0) in
  let* im := m_ret (match images e with
                    | Null => Ok Null
                    | Alive _ => Ok Deleted
                    | Deleted => Undef
                    end) in
  m_ret (Ok (if error then -1 else 0, mkEncoder (ctx e) im (callback e))).

(** ** The context *)

(** The values a member of a type can hold. *)
Definition fits (t : ctype) (v : Z) : Prop :=
  match t with
  | U w => in_u w v
  | I w => in_s w v
  | Bool => v = 0 \/ v = 1
  | Enum | Ptr | Foreign => True
  end.

Definition widths_ok (t : ctype) : bool := match t with U w | I w => 0 <? w | _ => true end.

Lemma field_type_width f : widths_ok (field_type f) = true.
Proof.
  unfold field_type. assert (forallb (fun p => widths_ok (snd p)) context_fields = true) as Hall by done.
  revert Hall. generalize context_fields. induction l as [|[g t] l IH]; cbn; [done|].
  intros [? ?]%andb_prop. destruct (bool_decide _); auto.
Qed.

Lemma convert_fits t v : widths_ok t = true -> fits t (convert t v).
Proof.
  destruct t; cbn; intros Hw; try done; bool_prop.
  - apply wrapU_range. lia.
  - apply wrapS_range. lia.
  - destruct (v =? 0); auto.
Qed.

Lemma zero_fits t : widths_ok t = true -> fits t 0.
Proof.
  destruct t; cbn; intros Hw; auto; bool_prop; unfold in_u, in_s.
  - pose proof (Z.pow_pos_nonneg 2 w). lia.
  - pose proof (Z.pow_pos_nonneg 2 (w - 1)). lia.
Qed.

(** Every member holds a value of its type. *)
Definition ctx_ok (c : context_t) : Prop := forall f, fits (field_type f) (get c f).

Lemma set_ok f v c : ctx_ok c -> ctx_ok (set f v c).
Proof.
  intros Hc g. unfold get, set. cbv beta. destruct (decide (f = g)) as [<-|Hn].
  - rewrite lookup_insert_eq. apply convert_fits, field_type_width.
  - rewrite lookup_insert_ne by done. apply Hc.
Qed.

Lemma empty_ok : ctx_ok ∅.
Proof. intros f. apply zero_fits, field_type_width. Qed.

Lemma assigns_ok l : forall c, ctx_ok c -> ctx_ok (foldl assign c l).
Proof. induction l as [|[f v] l IH]; intros c Hc; cbn; [done|]. apply IH. by apply set_ok. Qed.

(** The defaults of the encoder: they do not depend on the state before, every member
    holds a value of its declared type, and the members given -1 hold the largest
    value of theirs. *)
Theorem SetDefaults_resets e e' :
  ctx (SetDefaults e) = ctx (SetDefaults e') /\ images (SetDefaults e) = Null /\
  ctx_ok (ctx (SetDefaults e)) /\
  map (get (ctx (SetDefaults e)))
    ["bitrate"; "level"; "num_b_frames"; "chroma_format_idc"; "enable_av1ssimrdo"; "num_frames_to_encode";
     "num_output_buffers"; "input_frames_queued_count"; "got_error"]%string
  = [4194304; 2 ^ 32 - 1; 2 ^ 32 - 1; 255; 255; -1; 6; 0; 0].
Proof.
  split_and!; [done|done|apply assigns_ok, empty_ok|]. cbn [SetDefaults ctx map].
  unfold default_assignments, get. cbn [foldl assign fst snd set]. reflexivity.
Qed.

(** ** Initialization *)

(** The capture buffers a log queued, and what it was told about their number. *)
Definition queued (l : list (nvop * nvans)) : list Z :=
  omap (fun e => match e with (NvQBuffer capture_plane i _, _) => Some i | _ => None end) l.
Definition counts_ok (n : Z) (l : list (nvop * nvans)) : Prop :=
  Forall (fun e => match fst e with NvNumBuffers _ => n_ret (snd e) = n | _ => True end) l.

Lemma queued_app a b : queued (a ++ b) = queued a ++ queued b.
Proof. apply omap_app. Qed.

Definition no_queue (o : nvop) : bool := match o with NvQBuffer _ _ _ => false | _ => true end.

Lemma no_queue_log l : Forall (fun e => no_queue (fst e) = true) l -> queued l = [].
Proof. induction 1 as [|[o a] l Ho Hl IH]; [done|]. by destruct o. Qed.

Lemma configure_no_queue w h e : logs_only no_queue (InitEncode_configure w h e).
Proof. unfold InitEncode_configure, configure_calls, assert_ok. logs. Qed.

Lemma queue_loop n i s l r s' : in_u 32 n -> loop queue_step i s = (l, Some (Ok r), s') ->
  0 <= i <= n -> counts_ok n l -> r = 0 -> queued l = seqZ i (n - i).
Proof.
  intros Hu. apply (loop_Ok _ (fun i l r => 0 <= i <= n -> counts_ok n l -> r = 0 -> queued l = seqZ i (n - i))).
  - intros st sc lo re sc' E Hi Hc ->. unfold queue_step in E. inv_run; [bool_prop; lia|].
    apply list.Forall_cons in Hc as [Hn _]. cbn in Hn. bool_prop. by rewrite seqZ_nil by lia.
  - intros st st' sc lo lo' re sc' E IH Hi Hc Hr. unfold queue_step in E. inv_run. bool_prop.
    unfold counts_ok in Hc. cbn in Hc. apply list.Forall_cons in Hc as [Hn Hc].
    apply list.Forall_cons in Hc as [_ Hc]. cbn in Hn. unfold in_u in Hu.
    rewrite wrapU_id in IH by (unfold in_u; lia).
    rewrite queued_app, (IH ltac:(lia) Hc eq_refl), (seqZ_cons st) by lia. cbn [app].
    by replace (Z.pred (n - st)) with (n - (st + 1)) by lia.
Qed.

(** The context that [InitEncode] leaves. *)
Definition ready (w h : Z) (e : JetsonEncoder) : Prop :=
  images e = Alive (replicate 6 EncodedImage_new) /\ ctx_ok (ctx e) /\ get (ctx e) "enc" = 1 /\
  get (ctx e) "encode_width" = u32 w /\ get (ctx e) "encode_height" = u32 h /\
  get (ctx e) "got_error" = 0 /\ get (ctx e) "input_frames_queued_count" = 0 /\
  get (ctx e) "num_output_buffers" = 6.

Lemma created_ready w h e :
  ready w h (mkEncoder (created_context (init_context w h) true)
    (Alive (replicate (Z.to_nat (get (created_context (init_context w h) true) "num_output_buffers")) EncodedImage_new))
    (callback e)).
Proof.
  unfold ready. cbn [images ctx]. split; [reflexivity|].
  split; [unfold created_context, init_context; do 10 apply set_ok; apply assigns_ok, empty_ok|].
  split_and!; try reflexivity.
  - change (u32 (u32 w) = u32 w). apply wrapU_id, wrapU_range. lia.
  - change (u32 (u32 h) = u32 h). apply wrapU_id, wrapU_range. lia.
Qed.

Lemma InitEncode_configure_ready w h e s l e' s' :
  InitEncode_configure w h e s = (l, Some (Ok e'), s') -> ready w h e'.
Proof.
  unfold InitEncode_configure. pose proof (created_ready w h e) as Hr. revert Hr.
  generalize (init_context w h). intros c Hr E.
  apply m_bind_Ok in E as (? & a & ? & ? & _ & E & _).
  apply m_bind_Ok in E as (? & ? & ? & ? & Ha & E & _).
  apply m_bind_Ok in E as (? & ? & ? & ? & _ & E & _).
  unfold m_ret in Ha, E. injection Ha as _ Ha _. injection E as _ <- _. apply assert_Ok in Ha.
  by rewrite Ha.
Qed.

(** C18: an [InitEncode] that returns 0 leaves the encoder ready: six encoded images, a
    context whose members fit their types, the requested size, no error; and it has
    queued the capture buffers 0, 1, 2, ... in order, each of the [n] buffers of the
    plane once. *)
Theorem InitEncode_ready w h n e s l r e' s' :
  InitEncode w h e s = (l, Some (Ok (r, e')), s') -> in_u 32 n -> counts_ok n l ->
  ready w h e' /\ (r = 0 -> queued l = seqZ 0 n).
Proof.
  unfold InitEncode. intros E Hn Hc. inv_run. rewrite app_nil_r in *. unfold counts_ok in Hc.
  apply Forall_app in Hc as [_ Hc].
  match goal with H : InitEncode_configure _ _ _ _ = _, H' : loop queue_step _ _ = _ |- _ =>
    pose proof (InitEncode_configure_ready _ _ _ _ _ _ _ H) as Hr;
    pose proof (no_queue_log _ (configure_no_queue _ _ _ _ _ _ _ H)) as Hq;
    rename H' into Hl end.
  split; [done|]. intros ->. rewrite queued_app, Hq. rewrite (queue_loop n 0 _ _ 0 _ Hn Hl); [by rewrite Z.sub_0_r|unfold in_u in Hn; lia|done|done].
Qed.

(** ** Encoding a frame *)

(** A buffer whose three planes the frame fills. *)
Definition fits_frame (d : nvans) (f : VideoFrame) : Prop :=
  exists p0 p1 p2, n_planes d = [p0; p1; p2] /\
    0 <= bytesused p0 <= Z.of_nat (length (dataY f)) /\
    0 <= bytesused p1 <= Z.of_nat (length (dataU f)) /\
    0 <= bytesused p2 <= Z.of_nat (length (dataV f)).

Lemma copy_plane_Ok planes i data p : planes !! i = Some p -> 0 <= bytesused p <= Z.of_nat (length data) ->
  copy_plane planes i data = Ok (take (Z.to_nat (bytesused p)) data).
Proof.
  intros Hp Hb. unfold copy_plane. rewrite Hp, (proj2 (Z.leb_le _ _)), (proj2 (Z.leb_le _ _)) by lia. done.
Qed.

(** The bytes of the frame that fill the three planes. *)
Definition copied (d : nvans) (f : VideoFrame) : list str :=
  zip_with (fun p data => take (Z.to_nat (bytesused p)) data) (n_planes d) [dataY f; dataU f; dataV f].

Lemma sync_planes_Ok planes : forall j xs s, length xs = (2 * length planes)%nat ->
  Forall (fun a => 0 <= n_ret a) xs -> exists l, sync_planes j planes (xs ++ s) = (l, Some (Ok true), s).
Proof.
  induction planes as [|p planes IH]; intros j xs s Hl Hx.
  - destruct xs; [|done]. by exists [].
  - destruct xs as [|a [|b xs]]; cbn in Hl; try lia.
    apply list.Forall_cons in Hx as [Ha Hx]. apply list.Forall_cons in Hx as [Hb Hx].
    destruct (IH (j + 1) xs s ltac:(lia) Hx) as [l El].
    eexists. cbn [sync_planes app]. unfold m_bind, call.
    rewrite (proj2 (Z.ltb_ge _ _) Ha), (proj2 (Z.ltb_ge _ _) Hb), El. done.
Qed.

(** The call up to the access to [encoded_images]. *)
Lemma Encode_reaches f e d xs s : get (ctx e) "enc" <> 0 -> 0 <= n_ret d -> fits_frame d f ->
  length xs = 6%nat -> Forall (fun a => 0 <= n_ret a) xs ->
  exists l, Encode f e (d :: xs ++ s) =
    let '(l', r, s') :=
      (let* x := m_ret (image_at (images e) (n_index d)) in
       let* im := m_ret (image_set (images e) (n_index d) (describe e f x)) in
       let e := mkEncoder (ctx e) im (callback e) in
       let* a := call (NvQBuffer output_plane (n_index d) (copied d f)) in
       if n_ret a <? 0 then m_ret (Ok (-1, e)) else
       m_ret (Ok (0, mkEncoder (set "input_frames_queued_count" (get (ctx e) "input_frames_queued_count" + 1) (ctx e))
                       (images e) (callback e)))) s in
    (l ++ l', r, s').
Proof.
  intros He Hd (p0 & p1 & p2 & Hp & H0 & H1 & H2) Hl Hx.
  destruct (sync_planes_Ok [p0; p1; p2] 0 xs s ltac:(cbn; lia) Hx) as [l El].
  exists ((NvDQBuffer output_plane, d) :: l). unfold Encode, copied.
  rewrite (proj2 (Z.eqb_neq _ _) He). cbn [negb defined]. rewrite m_bind_ret.
  unfold m_bind at 1. cbn [call]. rewrite (proj2 (Z.ltb_ge _ _) Hd), Hp.
  rewrite (copy_plane_Ok _ 0 _ p0), (copy_plane_Ok _ 1 _ p1), (copy_plane_Ok _ 2 _ p2) by done.
  rewrite !m_bind_ret. unfold m_bind at 1. rewrite El. cbn [negb].
  destruct (m_bind _ _ s) as [[l' r] s']. by rewrite app_assoc.
Qed.

(** C20: a frame put into output buffer [i].  With a created encoder, live images of which
    [i] is one, a buffer dequeued with success and with exactly three planes, each using
    no more bytes than the frame's plane has, and six synchronization calls and a queueing
    call that succeed, [Encode] returns 0; it queued the buffer, as its last call, with
    the beginnings of the frame's three planes; image [i] has the context's size and the
    frame's timestamp, NTP time, render time, rotation and color space, and keeps its
    buffer; the other images are as they were; and of the context only the count of
    queued frames has changed, by one modulo 2^32. *)
Theorem Encode_frame f e ims d p0 p1 p2 xs q s x :
  get (ctx e) "enc" <> 0 -> images e = Alive ims -> ims !! Z.to_nat (n_index d) = Some x ->
  0 <= n_ret d -> n_planes d = [p0; p1; p2] -> 0 <= bytesused p0 <= Z.of_nat (length (dataY f)) ->
  0 <= bytesused p1 <= Z.of_nat (length (dataU f)) -> 0 <= bytesused p2 <= Z.of_nat (length (dataV f)) ->
  length xs = 6%nat -> Forall (fun a => 0 <= n_ret a) xs -> 0 <= n_ret q ->
  exists l e', Encode f e (d :: xs ++ (q :: s)) =
      (l ++ [(NvQBuffer output_plane (n_index d)
                [take (Z.to_nat (bytesused p0)) (dataY f); take (Z.to_nat (bytesused p1)) (dataU f);
                 take (Z.to_nat (bytesused p2)) (dataV f)], q)], Some (Ok (0, e')), s) /\
    images e' = Alive (<[Z.to_nat (n_index d) :=
      mkImage (get (ctx e) "encode_width") (get (ctx e) "encode_height") (frame_timestamp f) (frame_ntp f)
        (frame_render f) (frame_rotation f) (frame_color f) (buffer_ x) (capacity_ x) (encoded_data_size x)]> ims) /\
    get (ctx e') "input_frames_queued_count" = u32 (get (ctx e) "input_frames_queued_count" + 1) /\
    (forall g, g <> "input_frames_queued_count"%string -> get (ctx e') g = get (ctx e) g).
Proof.
  intros He Him Hi Hd Hp H0 H1 H2 Hl Hx Hq.
  assert (fits_frame d f) as Hf by (exists p0, p1, p2; done).
  destruct (Encode_reaches f e d xs (q :: s) He Hd Hf Hl Hx) as [l ->].
  rewrite Him. cbn [image_at image_set]. rewrite Hi, m_bind_ret.
  rewrite bool_decide_eq_true_2 by (by eapply lookup_lt_Some). rewrite m_bind_ret.
  unfold m_bind, call. rewrite (proj2 (Z.ltb_ge _ _) Hq). cbn [m_ret]. unfold copied. rewrite Hp.
  do 2 eexists. split; [reflexivity|]. split; [done|]. cbn [ctx]. unfold get, set. split.
  - by rewrite lookup_insert_eq.
  - intros g Hg. by rewrite lookup_insert_ne.
Qed.

Lemma assert_ok_run o s l r s' : assert_ok o s = (l, Some (Ok r), s') -> exists a, l = [(o, a)] /\ n_ret a = 0.
Proof.
  unfold assert_ok. intros E. inv_run. eexists. split; [done|].
  match goal with H : assert_ _ = Ok _ |- _ => apply assert_Ok in H end. lia.
Qed.

(** The output plane of a configured encoder has ten buffers. *)
Lemma configure_plane w h e s l e' s' : InitEncode_configure w h e s = (l, Some (Ok e'), s') ->
  exists a, (NvSetupPlane output_plane V4L2_MEMORY_MMAP 10, a) ∈ l /\ n_ret a = 0.
Proof.
  unfold InitEncode_configure. generalize (init_context w h). intros c0 E. inv_run.
  match goal with H : configure_calls ?x _ = _ |- _ => generalize dependent x; intros c H; unfold configure_calls in H end.
  inv_run.
  match goal with H : assert_ok (NvSetupPlane output_plane _ _) _ = _ |- _ =>
    apply assert_ok_run in H as (a & -> & Ha) end.
  exists a. split; [|done]. set_solver.
Qed.

(** C21: out of bounds: an [InitEncode] that returned has set up the output plane with ten
    buffers and left an array of six encoded images; so from there, a frame that is
    dequeued into one of the buffers 6 to 9 (with planes that fit and calls that succeed)
    is written outside the array: undefined behaviour. *)
Theorem Encode_out_of_bounds w h e0 s0 l0 r e s0' :
  InitEncode w h e0 s0 = (l0, Some (Ok (r, e)), s0') ->
  (exists a, (NvSetupPlane output_plane V4L2_MEMORY_MMAP 10, a) ∈ l0 /\ n_ret a = 0) /\
  (exists ims, images e = Alive ims /\ length ims = 6%nat) /\
  (forall f d xs s, 6 <= n_index d < 10 -> 0 <= n_ret d -> fits_frame d f -> length xs = 6%nat ->
     Forall (fun a => 0 <= n_ret a) xs -> exists l, Encode f e (d :: xs ++ s) = (l, Some Undef, s)).
Proof.
  unfold InitEncode. intros E. inv_run.
  match goal with H : InitEncode_configure _ _ _ _ = _ |- _ =>
    pose proof (configure_plane _ _ _ _ _ _ _ H) as (a & Ha & Hr);
    apply InitEncode_configure_ready in H as (Him & _ & He & _) end.
  split; [exists a; split; [set_solver|done]|]. split; [eexists; split; [exact Him|done]|].
  intros f d xs s Hi Hd Hf Hl Hx. assert (get (ctx e) "enc" <> 0) as He' by lia.
  destruct (Encode_reaches f e d xs s He' Hd Hf Hl Hx) as [l ->].
  rewrite Him. cbn [image_at]. rewrite (lookup_ge_None_2 (replicate 6 EncodedImage_new)) by (rewrite length_replicate; lia).
  cbn. eauto.
Qed.

(** ** Release *)

(** [Release] reports an error exactly when the encoder or the context is in error, and
    a second [Release] deletes the images again, which is undefined. *)
Theorem Release_twice e ims s l r e' s' :
  images e = Alive ims ->
  Release e s = (l, Some (Ok (r, e')), s') ->
  (r = -1 <-> get (ctx e) "got_error" <> 0 \/ exists a, (NvIsInError, a) ∈ l /\ n_ret a <> 0) /\
  forall a s'', exists l', Release e' (a :: s'') = (l', Some Undef, if get (ctx e) "enc" =? 0 then a :: s'' else s'').
Proof.
  intros Him. unfold Release. rewrite Him. destruct (get (ctx e) "enc" =? 0) eqn:He.
  - cbn. intros E. simplify_eq. split.
    + destruct (get (ctx e) "got_error" =? 0) eqn:Hg; bool_prop; cbn; set_solver.
    + intros a s''. exists []. cbn [ctx]. rewrite He. done.
  - unfold m_bind, call, m_ret. destruct s as [|a s]; [done|]. cbn. intros E. simplify_eq. split.
    + destruct (n_ret a =? 0) eqn:Ha, (get (ctx e) "got_error" =? 0) eqn:Hg; bool_prop; cbn; set_solver.
    + intros b s''. eexists. cbn [ctx]. rewrite He. done.
Qed.

(** ** Sessions *)

(** The encoders that any sequence of calls leads to, whatever the hardware answered. *)
Inductive session : JetsonEncoder -> Prop :=
| session_new : session JetsonEncoder_new
| session_defaults e : session e -> session (SetDefaults e)
| session_init w h e s l r e' s' : session e -> InitEncode w h e s = (l, Some (Ok (r, e')), s') -> session e'
| session_register cb e : session e -> session (snd (RegisterEncodeCompleteCallback cb e))
| session_callback buf e s l r e' s' : session e ->
    EncoderCapturePlaneCallback buf e s = (l, Some (Ok (r, e')), s') -> session e'
| session_encode f e s l r e' s' : session e -> Encode f e s = (l, Some (Ok (r, e')), s') -> session e'
| session_release e s l r e' s' : session e -> Release e s = (l, Some (Ok (r, e')), s') -> session e'.

(** The encoder and its array of images in step. *)
Definition in_step (e : JetsonEncoder) : Prop :=
  (get (ctx e) "enc" = 0 /\ images e = Null) \/
  (get (ctx e) "enc" = 1 /\ (images e = Deleted \/ exists l, images e = Alive l /\ length l = 6%nat)).

Lemma get_set_ne f g v c : f <> g -> get (set f v c) g = get c g.
Proof. intros Hn. unfold get, set. cbv beta. by rewrite lookup_insert_ne. Qed.

Lemma in_step_set f v e : f <> "enc"%string -> in_step e ->
  in_step (mkEncoder (set f v (ctx e)) (images e) (callback e)).
Proof. intros Hf Hs. unfold in_step. cbn [ctx images]. by rewrite get_set_ne. Qed.

Lemma in_step_image_set e i x im : in_step e -> image_set (images e) i x = Ok im ->
  in_step (mkEncoder (ctx e) im (callback e)).
Proof.
  unfold in_step, image_set. cbn [ctx images]. intros [[_ ->]|[He [->|(l & -> & Hl)]]] E; [done..|].
  case_bool_decide; [|done]. injection E as <-. right. split; [done|]. right. eexists. split; [done|].
  by rewrite length_insert.
Qed.

Lemma in_step_abort e s l e' s' : in_step e -> abort e s = (l, Some (Ok e'), s') -> in_step e'.
Proof. intros Ht E. unfold abort in E. inv_run. by apply in_step_set. Qed.

(** The image a callback may reallocate, and the encoder after it. *)
Lemma in_step_allocated (b : bool) e i x im : in_step e ->
  (if b then image_set (images e) i x else Ok (images e)) = Ok im -> in_step (mkEncoder (ctx e) im (callback e)).
Proof. intros Ht. destruct b; [by apply in_step_image_set|]. intros [= <-]. done. Qed.

Lemma in_step_callback buf e s l r e' s' : in_step e ->
  EncoderCapturePlaneCallback buf e s = (l, Some (Ok (r, e')), s') -> in_step e'.
Proof.
  intros Ht E. unfold EncoderCapturePlaneCallback in E. destruct buf as [[index used]|]; inv_run.
  all: try by eapply in_step_abort.
  - eapply in_step_abort; [|eassumption]. by eapply in_step_allocated.
  - by eapply in_step_allocated.
Qed.

Lemma in_step_encode f e s l r e' s' : in_step e -> Encode f e s = (l, Some (Ok (r, e')), s') -> in_step e'.
Proof.
  intros Ht E. unfold Encode in E. inv_run; try done.
  - by eapply in_step_image_set.
  - by eapply (in_step_set _ _ (mkEncoder (ctx e) _ (callback e))), in_step_image_set.
Qed.

Lemma in_step_release e s l r e' s' : in_step e -> Release e s = (l, Some (Ok (r, e')), s') -> in_step e'.
Proof.
  unfold in_step. intros Ht E. unfold Release in E. inv_run; cbn [ctx images];
    destruct Ht as [[He Hi]|[He [Hi|(im & Hi & Hl)]]]; rewrite Hi in *; simplify_eq; auto.
Qed.

Lemma in_step_init w h e s l r e' s' : InitEncode w h e s = (l, Some (Ok (r, e')), s') -> in_step e'.
Proof.
  intros E. unfold InitEncode in E. inv_run.
  match goal with H : InitEncode_configure _ _ _ _ = _ |- _ =>
    apply InitEncode_configure_ready in H as (Hi & _ & He & _) end.
  right. split; [done|]. right. by eexists.
Qed.

(** C19: through any sequence of calls on the encoder, with any answers of the hardware, the
    array of encoded images is in step with the encoder: while no encoder is created the
    pointer is null, and with one it is either an array of exactly six images or, since
    [Release], the address of a deleted one; it is never null with an encoder at hand. *)
Theorem encoder_in_step e : session e ->
  (get (ctx e) "enc" = 0 /\ images e = Null) \/
  (get (ctx e) "enc" = 1 /\ (images e = Deleted \/ exists l, images e = Alive l /\ length l = 6%nat)).
Proof.
  intros Hs. change (in_step e). induction Hs.
  - by left.
  - by left.
  - by eapply in_step_init.
  - done.
  - by eapply in_step_callback.
  - by eapply in_step_encode.
  - by eapply in_step_release.
Qed.

End Encoder.

(** ** Concrete runs *)
#[global] Instance nv_headers : NvHeaders := {|
  V4L2_PIX_FMT_YUV420M := 842091865; V4L2_PIX_FMT_H264 := 875967048; V4L2_MPEG_VIDEO_BITRATE_MODE_CBR := 1;
  V4L2_MPEG_VIDEO_H264_LEVEL_5_1 := 14; V4L2_MEMORY_DMABUF := 4; V4L2_MEMORY_MMAP := 1;
  V4L2_COLORSPACE_SMPTE170M := 1; V4L2_PPE_FEATURE_NONE := 0; V4L2_EVENT_EOS := 2; QP_RETAIN_VAL := -1;
  CalcBufferSize w h := w * h * 3 / 2
|}.

Definition blank : EncodedImage := mkImage 0 0 0 0 0 0 None false 0 0.
Definition nv_ok : nvans := mkNv 0 true 0 [].
Definition demo_encoder : JetsonEncoder :=
  mkEncoder (set "enc" 1 (set "encode_width" 4 (set "encode_height" 2 ∅))) (Alive (replicate 6 blank)) true.
Definition demo_frame : VideoFrame := mkFrame (repeat "y"%char 8) (lit "uu") (lit "vv") 90000 1 2 0 None.
Definition demo_buffer (i : Z) : nvans := mkNv 0 true i [mkPlane 8 5; mkPlane 2 6; mkPlane 2 7].

Lemma demo_buffer_fits i : fits_frame (demo_buffer i) demo_frame.
Proof. exists (mkPlane 8 5), (mkPlane 2 6), (mkPlane 2 7). split; [reflexivity|]. by apply (bool_decide_eq_true_1 _). Qed.

Lemma Encode_frame_witness : exists l e',
  Encode demo_frame demo_encoder (demo_buffer 3 :: replicate 6 nv_ok ++ [nv_ok]) =
    (l ++ [(NvQBuffer output_plane 3 [repeat "y"%char 8; lit "uu"; lit "vv"], nv_ok)], Some (Ok (0, e')), []) /\
  images e' = Alive (<[3%nat := mkImage 4 2 90000 1 2 0 None false 0 0]> (replicate 6 blank)) /\
  get (ctx e') "input_frames_queued_count" = 1 /\
  (forall g, g <> "input_frames_queued_count"%string -> get (ctx e') g = get (ctx demo_encoder) g).
Proof.
  apply (Encode_frame demo_frame demo_encoder (replicate 6 blank) (demo_buffer 3) (mkPlane 8 5) (mkPlane 2 6) (mkPlane 2 7)
    (replicate 6 nv_ok) nv_ok [] blank); try done; by apply (bool_decide_eq_true_1 _).
Defined.

Lemma Release_twice_witness : exists e',
  Release demo_encoder [nv_ok] = ([(NvIsInError, nv_ok)], Some (Ok (0, e')), []) /\
  exists l', Release e' [nv_ok] = (l', Some Undef, []).
Proof.
  eexists. split; [reflexivity|].
  exact (proj2 (Release_twice demo_encoder (replicate 6 blank) [nv_ok] [(NvIsInError, nv_ok)] 0 _ []
    eq_refl eq_refl) nv_ok []).
Defined.

(** Two capture buffers. *)
Definition demo_init : list nvans :=
  replicate 16 nv_ok ++ [mkNv 2 true 0 []; nv_ok; mkNv 2 true 0 []; nv_ok; mkNv 2 true 0 []].

Lemma demo_init_runs : exists l e',
  InitEncode blank 1280 720 JetsonEncoder_new demo_init = (l, Some (Ok (0, e')), []) /\ counts_ok 2 l.
Proof.
  unfold InitEncode, InitEncode_configure. generalize (init_context 1280 720). intros c.
  unfold configure_calls. set (d := created_context c). clearbody d.
  do 2 eexists. split; [cbn; reflexivity|]. repeat constructor; done.
Qed.

Lemma InitEncode_ready_witness : exists l e' s',
  InitEncode blank 1280 720 JetsonEncoder_new demo_init = (l, Some (Ok (0, e')), s') /\
  ready blank 1280 720 e' /\ queued l = [0; 1].
Proof.
  destruct demo_init_runs as (l & e' & E & Hc). exists l, e', []. split; [exact E|].
  destruct (InitEncode_ready blank 1280 720 2 JetsonEncoder_new demo_init l 0 e' [] E ltac:(by apply (bool_decide_eq_true_1 _)) Hc) as [H1 H2].
  split; [exact H1|exact (H2 eq_refl)].
Defined.

Lemma encoder_in_step_witness : exists e', session blank e' /\ ready blank 1280 720 e' /\
  ((get (ctx e') "enc" = 0 /\ images e' = Null) \/
   (get (ctx e') "enc" = 1 /\ (images e' = Deleted \/ exists l, images e' = Alive l /\ length l = 6%nat))).
Proof.
  destruct demo_init_runs as (l & e' & E & Hc). exists e'.
  assert (Hs : session blank e') by (exact (session_init _ _ _ _ _ _ _ _ _ (session_new _) E)).
  split; [exact Hs|]. split; [|exact (encoder_in_step blank e' Hs)].
  unfold InitEncode in E. apply m_bind_Ok in E as (? & ? & ? & ? & E & E' & _).
  apply InitEncode_configure_ready in E. by inv_run.
Defined.

Lemma Encode_out_of_bounds_witness : exists l0 e l,
  InitEncode blank 1280 720 JetsonEncoder_new demo_init = (l0, Some (Ok (0, e)), []) /\
  Encode demo_frame e (demo_buffer 6 :: replicate 6 nv_ok ++ [nv_ok]) = (l, Some Undef, [nv_ok]).
Proof.
  destruct demo_init_runs as (l0 & e & E & _).
  destruct (Encode_out_of_bounds blank 1280 720 JetsonEncoder_new demo_init l0 0 e [] E) as (_ & _ & Hu).
  destruct (Hu demo_frame (demo_buffer 6) (replicate 6 nv_ok) [nv_ok]) as [l El]; try done;
    [apply demo_buffer_fits|by apply (bool_decide_eq_true_1 _)|].
  exists l0, e, l. split; [exact E|exact El].
Defined.
