(* ===== verification/Units.v ===== *)
(** * Units of time and data

    [rtc_base/units/unit_base.h] and [api/units] of [include/webrtc]: a unit is an
    [int64_t] whose extreme values stand for plus and minus infinity.  The integral
    instances of the templates are modelled ([T = int64_t]), in a build with
    [RTC_DCHECK_IS_ON]: a failed RTC_DCHECK aborts.  Signed overflow and division by
    zero are undefined. *)

From S2P Require Import Prelude.

(** ** [UnitBase] *)
Inductive kind := KTimestamp | KTimeDelta | KDataRate | KDataSize.

Definition one_sided (k : kind) : bool := match k with KTimeDelta => false | _ => true end.

Record Unit_T (k : kind) := mkUnit { value_ : Z }.
Arguments mkUnit {k} value_.
Arguments value_ {k} _.

Abbreviation Timestamp := (Unit_T KTimestamp).
Abbreviation TimeDelta := (Unit_T KTimeDelta).
Abbreviation DataRate := (Unit_T KDataRate).
Abbreviation DataSize := (Unit_T KDataSize).

Definition PlusInfinityVal : Z := 2 ^ 63 - 1.
Definition MinusInfinityVal : Z := - 2 ^ 63.

Definition Zero {k} : Unit_T k := mkUnit 0.
Definition PlusInfinity {k} : Unit_T k := mkUnit PlusInfinityVal.
Definition MinusInfinity {k} : Unit_T k := mkUnit MinusInfinityVal.

Section UnitBase.
Context {k : kind}.
Implicit Types u v : Unit_T k.

Definition IsZero u : bool := value_ u =? 0.
Definition IsPlusInfinity u : bool := value_ u =? PlusInfinityVal.
Definition IsMinusInfinity u : bool := value_ u =? MinusInfinityVal.
Definition IsInfinite u : bool := (value_ u =? PlusInfinityVal) || (value_ u =? MinusInfinityVal).
Definition IsFinite u : bool := negb (IsInfinite u).

Definition unit_eq u v : bool := value_ u =? value_ v.
Definition unit_ne u v : bool := negb (value_ u =? value_ v).
Definition unit_le u v : bool := value_ u <=? value_ v.
Definition unit_ge u v : bool := value_ v <=? value_ u.
Definition unit_gt u v : bool := value_ v <? value_ u.
Definition unit_lt u v : bool := value_ u <? value_ v.

Definition FromValue (value : Z) : res (Unit_T k) :=
  _ ← assert_ (implb (one_sided k) (0 <=? value));
  _ ← assert_ (MinusInfinityVal <? value);
  _ ← assert_ (value <? PlusInfinityVal);
  Ok (mkUnit value).

Definition FromFraction (Denominator value : Z) : res (Unit_T k) :=
  _ ← assert_ (implb (one_sided k) (0 <=? value));
  _ ← assert_ (Z.quot MinusInfinityVal Denominator <? value);
  _ ← assert_ (value <? Z.quot PlusInfinityVal Denominator);
  p ← arith 64 (value * Denominator);
  Ok (mkUnit p).

Definition ToValue u : res Z := _ ← assert_ (IsFinite u); Ok (value_ u).
Definition ToValueOr u (fallback : Z) : Z := if IsFinite u then value_ u else fallback.

Definition DivRoundPositiveToNearest (n d : Z) : res Z :=
  x ← arith 64 (n + Z.quot d 2); Ok (Z.quot x d).
Definition DivRoundToNearest (n d : Z) : res Z :=
  x ← arith 64 (n + (if 0 <=? n then Z.quot d 2 else Z.quot (- d) 2)); Ok (Z.quot x d).

Definition divRound (n d : Z) : res Z :=
  if one_sided k then DivRoundPositiveToNearest n d else DivRoundToNearest n d.

Definition ToFraction (Denominator : Z) u : res Z :=
  _ ← assert_ (IsFinite u); divRound (value_ u) Denominator.

Definition ToFractionOr (Denominator : Z) u (fallback : Z) : res Z :=
  if IsFinite u then divRound (value_ u) Denominator else Ok fallback.

Definition ToMultiple (Factor : Z) u : res Z :=
  v ← ToValue u;
  _ ← assert_ (Z.quot (- 2 ^ 63) Factor <=? v);
  _ ← assert_ (v <=? Z.quot (2 ^ 63 - 1) Factor);
  arith 64 (v * Factor).

(** ** [RelativeUnit] *)
Definition Clamped u (min_value max_value : Unit_T k) : Unit_T k :=
  let m := if unit_lt max_value u then max_value else u in
  if unit_lt min_value m then m else min_value.

Definition unit_plus u v : res (Unit_T k) :=
  if IsPlusInfinity u || IsPlusInfinity v then
    _ ← assert_ (negb (IsMinusInfinity u)); _ ← assert_ (negb (IsMinusInfinity v)); Ok PlusInfinity
  else if IsMinusInfinity u || IsMinusInfinity v then
    _ ← assert_ (negb (IsPlusInfinity u)); _ ← assert_ (negb (IsPlusInfinity v)); Ok MinusInfinity
  else a ← ToValue u; b ← ToValue v; s ← arith 64 (a + b); FromValue s.

Definition unit_minus u v : res (Unit_T k) :=
  if IsPlusInfinity u || IsMinusInfinity v then
    _ ← assert_ (negb (IsMinusInfinity u)); _ ← assert_ (negb (IsPlusInfinity v)); Ok PlusInfinity
  else if IsMinusInfinity u || IsPlusInfinity v then
    _ ← assert_ (negb (IsPlusInfinity u)); _ ← assert_ (negb (IsMinusInfinity v)); Ok MinusInfinity
  else a ← ToValue u; b ← ToValue v; s ← arith 64 (a - b); FromValue s.

(** [operator*] with an integral scalar. *)
Definition unit_times u (scalar : Z) : res (Unit_T k) :=
  a ← ToValue u; p ← arith 64 (a * scalar); FromValue p.

End UnitBase.

(** ** The units *)
Definition Timestamp_seconds (x : Z) : res Timestamp := FromFraction 1000000 x.
Definition Timestamp_ms (x : Z) : res Timestamp := FromFraction 1000 x.
Definition Timestamp_us (x : Z) : res Timestamp := FromValue x.
Definition Timestamp_to_seconds (t : Timestamp) : res Z := ToFraction 1000000 t.
Definition Timestamp_to_ms (t : Timestamp) : res Z := ToFraction 1000 t.
Definition Timestamp_to_us (t : Timestamp) : res Z := ToValue t.
Definition Timestamp_seconds_or (t : Timestamp) (f : Z) : res Z := ToFractionOr 1000000 t f.
Definition Timestamp_ms_or (t : Timestamp) (f : Z) : res Z := ToFractionOr 1000 t f.
Definition Timestamp_us_or (t : Timestamp) (f : Z) : Z := ToValueOr t f.

Definition TimeDelta_seconds (x : Z) : res TimeDelta := FromFraction 1000000 x.
Definition TimeDelta_ms (x : Z) : res TimeDelta := FromFraction 1000 x.
Definition TimeDelta_us (x : Z) : res TimeDelta := FromValue x.
Definition TimeDelta_to_seconds (t : TimeDelta) : res Z := ToFraction 1000000 t.
Definition TimeDelta_to_ms (t : TimeDelta) : res Z := ToFraction 1000 t.
Definition TimeDelta_to_us (t : TimeDelta) : res Z := ToValue t.
Definition TimeDelta_to_ns (t : TimeDelta) : res Z := ToMultiple 1000 t.
Definition TimeDelta_seconds_or (t : TimeDelta) (f : Z) : res Z := ToFractionOr 1000000 t f.
Definition TimeDelta_ms_or (t : TimeDelta) (f : Z) : res Z := ToFractionOr 1000 t f.
Definition TimeDelta_us_or (t : TimeDelta) (f : Z) : Z := ToValueOr t f.
Definition TimeDelta_Abs (t : TimeDelta) : res TimeDelta :=
  v ← TimeDelta_to_us t; a ← arith 64 (Z.abs v); TimeDelta_us a.

Definition Timestamp_plus (t : Timestamp) (delta : TimeDelta) : res Timestamp :=
  if IsPlusInfinity t || IsPlusInfinity delta then
    _ ← assert_ (negb (IsMinusInfinity t)); _ ← assert_ (negb (IsMinusInfinity delta)); Ok PlusInfinity
  else if IsMinusInfinity t || IsMinusInfinity delta then
    _ ← assert_ (negb (IsPlusInfinity t)); _ ← assert_ (negb (IsPlusInfinity delta)); Ok MinusInfinity
  else a ← Timestamp_to_us t; b ← TimeDelta_to_us delta; s ← arith 64 (a + b); Timestamp_us s.

Definition Timestamp_minus (t : Timestamp) (delta : TimeDelta) : res Timestamp :=
  if IsPlusInfinity t || IsMinusInfinity delta then
    _ ← assert_ (negb (IsMinusInfinity t)); _ ← assert_ (negb (IsPlusInfinity delta)); Ok PlusInfinity
  else if IsMinusInfinity t || IsPlusInfinity delta then
    _ ← assert_ (negb (IsPlusInfinity t)); _ ← assert_ (negb (IsMinusInfinity delta)); Ok MinusInfinity
  else a ← Timestamp_to_us t; b ← TimeDelta_to_us delta; s ← arith 64 (a - b); Timestamp_us s.

Definition Timestamp_diff (t other : Timestamp) : res TimeDelta :=
  if IsPlusInfinity t || IsMinusInfinity other then
    _ ← assert_ (negb (IsMinusInfinity t)); _ ← assert_ (negb (IsPlusInfinity other)); Ok PlusInfinity
  else if IsMinusInfinity t || IsPlusInfinity other then
    _ ← assert_ (negb (IsPlusInfinity t)); _ ← assert_ (negb (IsMinusInfinity other)); Ok MinusInfinity
  else a ← Timestamp_to_us t; b ← Timestamp_to_us other; s ← arith 64 (a - b); TimeDelta_us s.

Definition DataSize_bytes (x : Z) : res DataSize := FromValue x.
Definition DataSize_to_bytes (s : DataSize) : res Z := ToValue s.
Definition DataSize_bytes_or (s : DataSize) (f : Z) : Z := ToValueOr s f.

Definition DataRate_bps (x : Z) : res DataRate := FromValue x.
Definition DataRate_bytes_per_sec (x : Z) : res DataRate := FromFraction 8 x.
Definition DataRate_kbps (x : Z) : res DataRate := FromFraction 1000 x.
Definition DataRate_to_bps (r : DataRate) : res Z := ToValue r.
Definition DataRate_to_bytes_per_sec (r : DataRate) : res Z := ToFraction 8 r.
Definition DataRate_to_kbps (r : DataRate) : res Z := ToFraction 1000 r.
Definition DataRate_bps_or (r : DataRate) (f : Z) : Z := ToValueOr r f.
Definition DataRate_kbps_or (r : DataRate) (f : Z) : res Z := ToFractionOr 1000 r f.

(** [data_rate_impl::Microbits]. *)
Definition Microbits (size : DataSize) : res Z :=
  b ← DataSize_to_bytes size;
  _ ← assert_ (b <=? Z.quot (2 ^ 63 - 1) 8000000);
  arith 64 (b * 8000000).

Definition int_div (a b : Z) : res Z := _ ← defined (negb (b =? 0)); arith 64 (Z.quot a b).

Definition size_div_duration (size : DataSize) (duration : TimeDelta) : res DataRate :=
  m ← Microbits size; d ← TimeDelta_to_us duration; q ← int_div m d; DataRate_bps q.
Definition size_div_rate (size : DataSize) (rate : DataRate) : res TimeDelta :=
  m ← Microbits size; r ← DataRate_to_bps rate; q ← int_div m r; TimeDelta_us q.
Definition rate_times_duration (rate : DataRate) (duration : TimeDelta) : res DataSize :=
  r ← DataRate_to_bps rate; d ← TimeDelta_to_us duration;
  microbits ← arith 64 (r * d); x ← arith 64 (microbits + 4000000);
  DataSize_bytes (Z.quot x 8000000).

(** ** Laws *)
Lemma IsFinite_spec {k} (u : Unit_T k) :
  IsFinite u = true <-> value_ u <> PlusInfinityVal /\ value_ u <> MinusInfinityVal.
Proof.
  unfold IsFinite, IsInfinite. rewrite negb_true_iff, orb_false_iff, !Z.eqb_neq. done.
Qed.

(** What the checked constructors accept. *)
Definition representable (k : kind) (value : Z) : Prop :=
  MinusInfinityVal < value < PlusInfinityVal /\ (one_sided k = true -> 0 <= value).

Lemma FromValue_Ok {k} value (u : Unit_T k) :
  FromValue value = Ok u <-> u = mkUnit value /\ representable k value.
Proof.
  unfold FromValue, representable. split.
  - intros H. inv_res. bool_prop. destruct (one_sided k); cbn in *; bool_prop; split_and!; try done.
  - intros (-> & [H1 H2] & H3). rewrite (proj2 (Z.ltb_lt _ _) H1), (proj2 (Z.ltb_lt _ _) H2).
    destruct (one_sided k); cbn; [|done]. by rewrite (proj2 (Z.leb_le _ _)) by auto.
Qed.

Lemma representable_finite {k} value : representable k value -> IsFinite (mkUnit (k := k) value) = true.
Proof. intros [? _]. apply IsFinite_spec. cbn. lia. Qed.

Lemma ToValue_Ok {k} (u : Unit_T k) v : ToValue u = Ok v <-> v = value_ u /\ IsFinite u = true.
Proof. unfold ToValue. destruct (IsFinite u); cbn; naive_solver. Qed.

Lemma quot_round_bound x d : 0 < d -> 0 <= x -> 2 * Z.abs (x - Z.quot (x + Z.quot d 2) d * d) <= d.
Proof.
  intros Hd Hx. rewrite !Z.quot_div_nonneg by (rewrite ?Z.quot_div_nonneg; try apply Z.add_nonneg_nonneg;
    try apply Z.div_pos; lia).
  pose proof (Z.div_mod d 2 ltac:(lia)). pose proof (Z.mod_pos_bound d 2 ltac:(lia)).
  pose proof (Z.div_mod (x + d / 2) d ltac:(lia)). pose proof (Z.mod_pos_bound (x + d / 2) d ltac:(lia)).
  lia.
Qed.

(** Both divisions round to a nearest multiple. *)
Lemma divRound_nearest {k} n d q : 0 < d -> (one_sided k = true -> 0 <= n) ->
  divRound (k := k) n d = Ok q -> 2 * Z.abs (n - q * d) <= d.
Proof.
  intros Hd Hn. unfold divRound, DivRoundPositiveToNearest, DivRoundToNearest.
  destruct (one_sided k); intros H; inv_res.
  - apply quot_round_bound; auto.
  - destruct (0 <=? n) eqn:E; bool_prop; [by apply quot_round_bound|].
    assert (Z.quot (- d) 2 = - Z.quot d 2) as -> by (apply Z.quot_opp_l; lia).
    replace (n + - Z.quot d 2) with (- (- n + Z.quot d 2)) by lia.
    rewrite Z.quot_opp_l by lia. pose proof (quot_round_bound (- n) d Hd ltac:(lia)). lia.
Qed.

Lemma divRound_exact {k} x d : 1 < d -> (one_sided k = true -> 0 <= x) -> in_s 64 (x * d + d) -> in_s 64 (x * d - d) ->
  divRound (k := k) (x * d) d = Ok x.
Proof.
  intros Hd Hx H1 H2. unfold in_s in *. cbn [Z.sub] in *.
  pose proof (Z.quot_le_lower_bound d 2 0 ltac:(lia) ltac:(lia)).
  pose proof (Z.quot_lt d 2 ltac:(lia) ltac:(lia)).
  assert (Z.quot (- d) 2 = - Z.quot d 2) as Ho by (apply Z.quot_opp_l; lia).
  assert (forall y, 0 <= y -> Z.quot (y * d + Z.quot d 2) d = y) as Hq.
  { intros y Hy. rewrite Z.quot_div_nonneg by nia. rewrite Z.div_add_l by lia.
    rewrite Z.div_small by lia. lia. }
  unfold divRound, DivRoundPositiveToNearest, DivRoundToNearest.
  destruct (one_sided k).
  - unfold arith. rewrite bool_decide_eq_true_2 by (unfold in_s; lia). cbn. rewrite Hq by auto. done.
  - unfold arith. destruct (0 <=? x * d) eqn:E; bool_prop.
    + rewrite bool_decide_eq_true_2 by (unfold in_s; lia). cbn. rewrite Hq by nia. done.
    + rewrite Ho, bool_decide_eq_true_2 by (unfold in_s; lia). cbn.
      replace (x * d + - Z.quot d 2) with (- (- x * d + Z.quot d 2)) by lia.
      rewrite Z.quot_opp_l by lia. rewrite Hq by nia. f_equal. lia.
Qed.

Lemma FromFraction_Ok {k} d x (u : Unit_T k) : 1 < d -> FromFraction d x = Ok u ->
  u = mkUnit (x * d) /\ representable k (x * d) /\
  (one_sided k = true -> 0 <= x) /\ in_s 64 (x * d + d) /\ in_s 64 (x * d - d).
Proof.
  intros Hd H. unfold FromFraction in H. inv_res. bool_prop.
  assert (one_sided k = true -> 0 <= x) as Hnn.
  { intros E. rewrite E in *. cbn in *. by bool_prop. }
  unfold in_s, representable, MinusInfinityVal, PlusInfinityVal in *. cbn [Z.sub] in *.
  assert (Z.quot (- 2 ^ 63) d = - (2 ^ 63 / d)) as E1.
  { rewrite Z.quot_opp_l by lia. by rewrite Z.quot_div_nonneg by lia. }
  assert (Z.quot (2 ^ 63 - 1) d = (2 ^ 63 - 1) / d) as E2 by (by rewrite Z.quot_div_nonneg by lia).
  rewrite E1 in *. rewrite E2 in *.
  pose proof (Z.mul_div_le (2 ^ 63) d ltac:(lia)). pose proof (Z.mul_div_le (2 ^ 63 - 1) d ltac:(lia)).
  assert (d * (x + 1) <= d * ((2 ^ 63 - 1) / d)) by (apply Z.mul_le_mono_nonneg_l; lia).
  assert (d * - (2 ^ 63 / d) <= d * (x - 1)) by (apply Z.mul_le_mono_nonneg_l; lia).
  assert (d * (x + 1) = x * d + d) by lia. assert (d * (x - 1) = x * d - d) by lia.
  assert (d * - (2 ^ 63 / d) = - (d * (2 ^ 63 / d))) by lia.
  split_and!; try done; try lia. intros E. specialize (Hnn E). nia.
Qed.

(** Conversion of units: a unit made from a whole number of coarser units (seconds,
    milliseconds, kilobits, ...) gives that number back; and converting any finite
    unit rounds to a nearest coarser one, off by at most half of it. *)
Theorem fraction_roundtrip k d (u : Unit_T k) x :
  1 < d ->
  (FromFraction d x = Ok u -> ToFraction d u = Ok x /\ IsFinite u = true) /\
  ((one_sided k = true -> 0 <= value_ u) -> ToFraction d u = Ok x -> 2 * Z.abs (value_ u - x * d) <= d).
Proof.
  intros Hd. split.
  - intros H. apply FromFraction_Ok in H as (-> & Hr & H0 & H1 & H2); [|done].
    unfold ToFraction. rewrite representable_finite by done. cbn [assert_ mbind res_bind value_].
    by rewrite divRound_exact.
  - intros Hn H. unfold ToFraction in H. inv_res. by eapply divRound_nearest; [lia|..].
Qed.

Lemma fraction_roundtrip_witness :
  (exists t, TimeDelta_ms (-1500) = Ok t /\ TimeDelta_to_ms t = Ok (-1500)) /\
  TimeDelta_to_seconds (mkUnit (-1500000)) = Ok (-2) /\ 2 * Z.abs (-1500000 - -2 * 1000000) <= 1000000.
Proof.
  split; [|split; [reflexivity|]].
  - eexists. split; [reflexivity|].
    apply (proj1 (fraction_roundtrip KTimeDelta 1000 (mkUnit (-1500000)) (-1500) ltac:(lia))). reflexivity.
  - apply (proj2 (fraction_roundtrip KTimeDelta 1000000 (mkUnit (-1500000)) (-2) ltac:(lia))); [done|reflexivity].
Defined.

(** Sums and differences of finite units are exact. *)
Lemma Timestamp_plus_finite t delta t' : IsFinite t = true -> IsFinite delta = true ->
  Timestamp_plus t delta = Ok t' <->
  t' = mkUnit (value_ t + value_ delta) /\ representable KTimestamp (value_ t + value_ delta).
Proof.
  intros Ht Hd. pose proof (proj1 (IsFinite_spec t) Ht) as [T1 T2].
  pose proof (proj1 (IsFinite_spec delta) Hd) as [D1 D2].
  unfold Timestamp_plus, IsPlusInfinity, IsMinusInfinity.
  rewrite !(proj2 (Z.eqb_neq _ _)) by done. cbn [orb].
  unfold Timestamp_to_us, TimeDelta_to_us, ToValue. rewrite Ht, Hd. cbn [assert_ mbind res_bind].
  unfold arith. case_bool_decide as Hs; cbn [mbind res_bind].
  - apply FromValue_Ok.
  - split; [done|]. intros [_ [Hr _]]. exfalso. apply Hs.
    unfold in_s, MinusInfinityVal, PlusInfinityVal in *. cbn [Z.sub]. lia.
Qed.

Lemma Timestamp_diff_finite t t' d : IsFinite t = true -> IsFinite t' = true ->
  Timestamp_diff t t' = Ok d <->
  d = mkUnit (value_ t - value_ t') /\ representable KTimeDelta (value_ t - value_ t').
Proof.
  intros Ht Hd. pose proof (proj1 (IsFinite_spec t) Ht) as [T1 T2].
  pose proof (proj1 (IsFinite_spec t') Hd) as [D1 D2].
  unfold Timestamp_diff, IsPlusInfinity, IsMinusInfinity.
  rewrite !(proj2 (Z.eqb_neq _ _)) by done. cbn [orb].
  unfold Timestamp_to_us, ToValue. rewrite Ht, Hd. cbn [assert_ mbind res_bind].
  unfold arith. case_bool_decide as Hs; cbn [mbind res_bind].
  - apply FromValue_Ok.
  - split; [done|]. intros [_ [Hr _]]. exfalso. apply Hs.
    unfold in_s, MinusInfinityVal, PlusInfinityVal in *. cbn [Z.sub]. lia.
Qed.

(** Time points and durations: between two points in time (finite, not before the
    epoch) the difference is always defined, and adding it to the earlier one gives
    the later one back; with an infinite point the difference is infinite. *)
Theorem Timestamp_diff_plus t t' :
  representable KTimestamp (value_ t) /\ representable KTimestamp (value_ t') ->
  (exists d, Timestamp_diff t t' = Ok d /\ Timestamp_plus t' d = Ok t) /\
  Timestamp_diff PlusInfinity t' = Ok PlusInfinity /\ Timestamp_diff t PlusInfinity = Ok MinusInfinity.
Proof.
  intros [H1 H2]. destruct t as [a], t' as [b]. cbn [value_] in *.
  pose proof (representable_finite a H1) as F1. pose proof (representable_finite b H2) as F2.
  destruct H1 as [H1 N1], H2 as [H2 N2]. specialize (N1 eq_refl). specialize (N2 eq_refl).
  unfold MinusInfinityVal, PlusInfinityVal in *. split_and!.
  - exists (mkUnit (a - b)).
    assert (representable KTimeDelta (a - b)) as Hr
      by (split; [unfold MinusInfinityVal, PlusInfinityVal; lia|done]).
    split; [by apply Timestamp_diff_finite|].
    apply Timestamp_plus_finite; [done|by apply representable_finite|]. cbn [value_].
    replace (b + (a - b)) with a by lia. split; [done|].
    split; [unfold MinusInfinityVal, PlusInfinityVal; lia|done].
  - unfold Timestamp_diff. cbn. unfold IsPlusInfinity, PlusInfinityVal. cbn [value_].
    by rewrite (proj2 (Z.eqb_neq b _)) by lia.
  - unfold Timestamp_diff, IsPlusInfinity, IsMinusInfinity, PlusInfinityVal, MinusInfinityVal.
    cbn [value_ PlusInfinity]. rewrite !(proj2 (Z.eqb_neq a _)) by lia. reflexivity.
Qed.

Lemma Timestamp_diff_plus_witness :
  exists d, Timestamp_diff (mkUnit 5000) (mkUnit 7000) = Ok d /\ Timestamp_plus (mkUnit 7000) d = Ok (mkUnit 5000).
Proof.
  apply (Timestamp_diff_plus (mkUnit 5000) (mkUnit 7000)).
  unfold representable, MinusInfinityVal, PlusInfinityVal. cbn. lia.
Defined.

(** Data rates: the bytes transferred at a rate over a duration, when the product does
    not overflow, are within half a byte of the exact amount. *)
Theorem rate_times_duration_nearest rate duration size :
  0 <= value_ rate /\ 0 <= value_ duration ->
  rate_times_duration rate duration = Ok size ->
  2 * Z.abs (value_ rate * value_ duration - value_ size * 8000000) <= 8000000.
Proof.
  intros [Hr Hd] H. unfold rate_times_duration, DataRate_to_bps, TimeDelta_to_us, ToValue in H. inv_res.
  apply FromValue_Ok in H as [-> _]. cbn [value_].
  exact (quot_round_bound (value_ rate * value_ duration) 8000000 ltac:(lia) ltac:(nia)).
Qed.

Lemma rate_times_duration_nearest_witness :
  rate_times_duration (mkUnit 300000) (mkUnit 20000) = Ok (mkUnit 750) /\
  2 * Z.abs (300000 * 20000 - 750 * 8000000) <= 8000000.
Proof.
  split; [reflexivity|].
  apply (rate_times_duration_nearest (mkUnit 300000) (mkUnit 20000) (mkUnit 750)); [cbn; lia|reflexivity].
Defined.
