(* ===== verification/Buffer.v ===== *)
(** * Growable buffers

    [BufferT<uint8_t, ZeroOnFree>] of [rtc_base/buffer.h] of [include/webrtc],
    built with [RTC_DCHECK_IS_ON].  The heap
    block behind [data_] is a list of cells, of which the uninitialized ones hold
    nothing; every operation also returns the blocks it released, as they were at
    that moment.  The operations refine operations on lists, and with [ZeroOnFree]
    nothing but zeros is released, and what lies behind the end is zero or was never
    written since its block was allocated. *)

From S2P Require Import Prelude.
From S2P Require Import CppString.

Abbreviation cell := (option ascii).
Abbreviation block := (list cell).

Record Buffer := mkBuffer { size_ : Z; capacity_ : Z; data_ : option block }.

Definition cells (b : Buffer) : block := default [] (data_ b).

(** The elements in use. *)
Definition content (b : Buffer) : block := take (Z.to_nat (size_ b)) (cells b).

Definition NUL : ascii := "000"%char.
Definition zeros (n : nat) : block := replicate n (Some NUL).

Definition IsConsistent (b : Buffer) : bool :=
  (match data_ b with Some _ => true | None => false end || (capacity_ b =? 0)) && (size_ b <=? capacity_ b).

(** [std::memcpy] and [ExplicitZeroMemory] into a block: undefined past its end. *)
Definition write_at (c : block) (off : nat) (xs : block) : res block :=
  if bool_decide (off + length xs <= length c)%nat
  then Ok (take off c ++ xs ++ drop (off + length xs) c) else Undef.

Definition set_cells (b : Buffer) (c : block) : Buffer :=
  mkBuffer (size_ b) (capacity_ b) (match data_ b with Some _ => Some c | None => None end).
Definition set_size (b : Buffer) (n : Z) : Buffer := mkBuffer n (capacity_ b) (data_ b).

(** Checks the invariant and goes on. *)
Definition checked (b : Buffer) : res Buffer := _ ← assert_ (IsConsistent b); Ok b.

Section BufferT.
Context (ZeroOnFree : bool).

Definition MaybeZeroCompleteBuffer (b : Buffer) : Buffer :=
  if ZeroOnFree && (0 <? capacity_ b) then set_cells b (zeros (Z.to_nat (capacity_ b))) else b.

(** The block given up when [data_] is replaced or destroyed. *)
Definition released (b : Buffer) : list block :=
  match data_ (MaybeZeroCompleteBuffer b) with Some c => [c] | None => [] end.

Definition Buffer_new : res Buffer := checked (mkBuffer 0 0 None).

(** [BufferT(size, capacity)]. *)
Definition Buffer_sized (size capacity : Z) : res Buffer :=
  let cap := Z.max size capacity in
  checked (mkBuffer size cap (if 0 <? cap then Some (replicate (Z.to_nat cap) None) else None)).

(** [BufferT(data, size, capacity)]. *)
Definition Buffer_from (data : str) (capacity : Z) : res Buffer :=
  b ← Buffer_sized (size data) capacity;
  c ← write_at (cells b) 0 (map Some data);
  Ok (set_cells b c).

(** [OnMovedFrom], in a build with checks: an inconsistent object. *)
Definition moved_from : Buffer := mkBuffer 1 0 None.

(** [BufferT(BufferT&&)]: the new object and the old one. *)
Definition Buffer_move (buf : Buffer) : res (Buffer * Buffer) := b ← checked buf; Ok (b, moved_from).

(** [operator=(BufferT&&)] on two objects: this, the other, what was released. *)
Definition Buffer_assign (this buf : Buffer) : res (Buffer * Buffer * list block) :=
  b ← checked buf; Ok (b, moved_from, released this).

(** [~BufferT]. *)
Definition Buffer_delete (b : Buffer) : list block := released b.

Definition Buffer_eq (a b : Buffer) : res bool :=
  _ ← checked a;
  Ok (if negb (size_ a =? size_ b) then false else bool_decide (content a = content b)).

Definition Buffer_get (b : Buffer) (index : Z) : res cell :=
  _ ← assert_ (index <? size_ b);
  _ ← checked b;
  match cells b !! Z.to_nat index with Some x => Ok x | None => Undef end.

Definition Buffer_put (b : Buffer) (index : Z) (x : ascii) : res Buffer :=
  _ ← assert_ (index <? size_ b);
  _ ← checked b;
  c ← write_at (cells b) (Z.to_nat index) [Some x];
  Ok (set_cells b c).

Definition Buffer_empty (b : Buffer) : res bool := b ← checked b; Ok (size_ b =? 0).
Definition Buffer_size (b : Buffer) : res Z := b ← checked b; Ok (size_ b).
Definition Buffer_capacity (b : Buffer) : res Z := b ← checked b; Ok (capacity_ b).

Definition EnsureCapacityWithHeadroom (b : Buffer) (capacity : Z) (extra_headroom : bool)
  : res (Buffer * list block) :=
  _ ← checked b;
  if capacity <=? capacity_ b then Ok (b, []) else
  let new_capacity := if extra_headroom then Z.max capacity (u64 (capacity_ b + capacity_ b / 2)) else capacity in
  new_data ← write_at (replicate (Z.to_nat new_capacity) None) 0 (take (Z.to_nat (size_ b)) (cells b));
  b' ← checked (mkBuffer (size_ b) new_capacity (Some new_data));
  Ok (b', released b).

Definition ZeroTrailingData (b : Buffer) (count : Z) : res Buffer :=
  _ ← checked b;
  _ ← assert_ (count <=? u64 (capacity_ b - size_ b));
  c ← write_at (cells b) (Z.to_nat (size_ b)) (zeros (Z.to_nat count));
  Ok (set_cells b c).

(** The zeroing at the end of [SetData] and [SetSize]. *)
Definition zero_shrunk (old_size : Z) (r : Buffer * list block) : res (Buffer * list block) :=
  if ZeroOnFree && (size_ (fst r) <? old_size)
  then b ← ZeroTrailingData (fst r) (old_size - size_ (fst r)); Ok (b, snd r) else Ok r.

Definition AppendData (b : Buffer) (data : str) : res (Buffer * list block) :=
  _ ← checked b;
  let new_size := u64 (size_ b + size data) in
  '(b', f) ← EnsureCapacityWithHeadroom b new_size true;
  c ← write_at (cells b') (Z.to_nat (size_ b')) (map Some data);
  b'' ← checked (set_size (set_cells b' c) new_size);
  Ok (b'', f).

Definition SetData (b : Buffer) (data : str) : res (Buffer * list block) :=
  _ ← checked b;
  r ← AppendData (set_size b 0) data;
  zero_shrunk (size_ b) r.

Definition SetSize (b : Buffer) (n : Z) : res (Buffer * list block) :=
  '(b', f) ← EnsureCapacityWithHeadroom b n true;
  zero_shrunk (size_ b) (set_size b' n, f).

(** [AppendData(max_elements, setter)]: the setter gets the new area and returns it with
    the number of elements it wrote. *)
Definition AppendData_setter (b : Buffer) (max_elements : Z) (setter : block -> block * Z)
  : res (Buffer * Z * list block) :=
  _ ← checked b;
  '(b', f) ← SetSize b (u64 (size_ b + max_elements));
  let '(area, written) :=
    setter (take (Z.to_nat max_elements) (drop (Z.to_nat (size_ b)) (cells b'))) in
  c ← write_at (cells b') (Z.to_nat (size_ b)) area;
  _ ← assert_ (written <=? max_elements);
  b'' ← checked (set_size (set_cells b' c) (u64 (size_ b + written)));
  Ok (b'', written, f).

(** [SetData(max_elements, setter)]. *)
Definition SetData_setter (b : Buffer) (max_elements : Z) (setter : block -> block * Z)
  : res (Buffer * Z * list block) :=
  _ ← checked b;
  '(b', written, f) ← AppendData_setter (set_size b 0) max_elements setter;
  '(b'', f) ← zero_shrunk (size_ b) (b', f);
  Ok (b'', written, f).

Definition EnsureCapacity (b : Buffer) (capacity : Z) : res (Buffer * list block) :=
  EnsureCapacityWithHeadroom b capacity false.

Definition Clear (b : Buffer) : res Buffer := checked (set_size (MaybeZeroCompleteBuffer b) 0).

Definition Buffer_swap (a b : Buffer) : Buffer * Buffer := (b, a).

(** ** The invariant *)
Record wf (b : Buffer) : Prop := {
  wf_cells : Z.of_nat (length (cells b)) = capacity_ b;
  wf_size : 0 <= size_ b <= capacity_ b;
  wf_capacity : capacity_ b < 2 ^ 64
}.

(** With [ZeroOnFree], what lies behind the end holds no data: a cell there is zero, or
    uninitialized as [new T\[n\]] left it. *)
Definition blank_cell (x : cell) : Prop := x = Some NUL \/ x = None.
Definition clean_from (m : Z) (b : Buffer) : Prop :=
  ZeroOnFree = true -> Forall blank_cell (drop (Z.to_nat m) (cells b)).
Definition clean (b : Buffer) : Prop := clean_from (size_ b) b.
Definition wiped (f : list block) : Prop :=
  ZeroOnFree = true -> Forall (Forall (fun x => x = Some NUL)) f.

Lemma clean_from_mono m n b : 0 <= m <= n -> clean_from m b -> clean_from n b.
Proof.
  intros Hmn H Hz. specialize (H Hz). replace (Z.to_nat n) with (Z.to_nat m + Z.to_nat (n - m))%nat by lia.
  rewrite <- drop_drop. by apply Forall_drop.
Qed.

Lemma wf_consistent b : wf b -> IsConsistent b = true.
Proof.
  intros [Hc Hs _]. unfold IsConsistent, cells in *. rewrite (proj2 (Z.leb_le _ _)) by lia.
  destruct (data_ b); cbn in *; [done|]. by rewrite (proj2 (Z.eqb_eq _ _)) by lia.
Qed.

Lemma checked_wf b : wf b -> checked b = Ok b.
Proof. intros H. unfold checked. by rewrite wf_consistent. Qed.

Lemma write_at_Ok c off xs : (off + length xs <= length c)%nat ->
  write_at c off xs = Ok (take off c ++ xs ++ drop (off + length xs) c).
Proof. intros H. unfold write_at. by rewrite bool_decide_eq_true_2. Qed.

Lemma cells_set_cells b c : length c = length (cells b) -> cells (set_cells b c) = c.
Proof. unfold cells, set_cells. destruct (data_ b); cbn; [done|]. by destruct c. Qed.

Lemma released_wiped b : wf b -> wiped (released b).
Proof.
  intros [Hc Hs _] Hz. unfold released, MaybeZeroCompleteBuffer. rewrite Hz.
  destruct (0 <? capacity_ b) eqn:E; bool_prop; cbn [andb].
  - unfold set_cells. cbn. destruct (data_ b); cbn; [|constructor].
    repeat constructor. apply list.Forall_forall. intros x Hx. by apply elem_of_replicate in Hx as [-> _].
  - unfold cells in Hc. destruct (data_ b) as [c|]; [|constructor]. cbn in Hc.
    destruct c; [by repeat constructor|cbn in Hc; lia].
Qed.

(** Growing keeps the contents; with headroom, the capacity grows by half at least. *)
Lemma Ensure_spec b capacity extra m : wf b -> 0 <= capacity < 2 ^ 64 -> size_ b <= m -> clean_from m b ->
  exists b' f, EnsureCapacityWithHeadroom b capacity extra = Ok (b', f) /\ wf b' /\ clean_from m b' /\ wiped f /\
    size_ b' = size_ b /\ content b' = content b /\ capacity <= capacity_ b' /\ capacity_ b <= capacity_ b' /\
    (capacity_ b' = capacity_ b \/ extra = false \/ capacity_ b + capacity_ b / 2 <= capacity_ b' \/
     2 ^ 64 <= capacity_ b + capacity_ b / 2).
Proof.
  intros Hw Hcap Hm Hcl. unfold EnsureCapacityWithHeadroom. rewrite checked_wf by done. cbn [mbind res_bind].
  destruct (capacity <=? capacity_ b) eqn:E; bool_prop.
  { exists b, []. split_and!; try done; try lia. intros _. constructor. }
  pose proof Hw as [Hc Hs Hc64]. set (nc := if extra then _ else _).
  pose proof (wrapU_range 64 (capacity_ b + capacity_ b / 2) ltac:(lia)) as Hwr. unfold in_u in Hwr.
  assert (capacity <= nc < 2 ^ 64) as Hnc by (unfold nc; destruct extra; lia).
  assert (length (take (Z.to_nat (size_ b)) (cells b)) = Z.to_nat (size_ b)) as Hl
    by (rewrite length_take; lia).
  rewrite write_at_Ok by (rewrite Hl, length_replicate; lia). rewrite take_0.
  cbn [mbind res_bind app]. rewrite Hl, drop_replicate.
  set (new := take (Z.to_nat (size_ b)) (cells b) ++ replicate (Z.to_nat nc - (0 + Z.to_nat (size_ b))) None).
  assert (wf (mkBuffer (size_ b) nc (Some new))) as Hw'.
  { split; cbn [size_ capacity_]; [|lia..]. change (cells _) with new. unfold new.
    rewrite length_app, Hl, length_replicate. lia. }
  rewrite checked_wf by done. cbn [mbind res_bind].
  eexists _, _. split; [reflexivity|]. split; [done|]. split_and!; cbn [size_ capacity_]; try done; try lia.
  - intros _. change (cells _) with new. unfold new.
    rewrite drop_app_ge by lia. rewrite drop_replicate.
    apply list.Forall_forall. intros x Hx. apply elem_of_replicate in Hx as [-> _]. by right.
  - by apply released_wiped.
  - unfold content. change (cells (mkBuffer _ _ (Some new))) with new. unfold new. cbn [size_].
    rewrite take_app_le by lia. rewrite take_ge; [done|lia].
  - destruct extra; [|by right; left]. right. right. unfold nc, wrapU.
    destruct (decide (capacity_ b + capacity_ b / 2 < 2 ^ 64)); [left|right; lia].
    rewrite (Z.mod_small (capacity_ b + capacity_ b / 2)); [lia|]. split; [|done].
    pose proof (Z.div_pos (capacity_ b) 2). lia.
Qed.

(** Writing behind the end, and moving the end there. *)
Lemma extend_spec b xs m : wf b -> clean_from m b -> 0 <= m -> size_ b + Z.of_nat (length xs) <= capacity_ b ->
  exists c, write_at (cells b) (Z.to_nat (size_ b)) xs = Ok c /\
    let b' := set_size (set_cells b c) (size_ b + Z.of_nat (length xs)) in
    wf b' /\ clean_from (Z.max m (size_ b')) b' /\ content b' = content b ++ xs.
Proof.
  intros [Hc Hs Hc64] Hcl Hm Hx. eexists. split; [apply write_at_Ok; lia|].
  set (c := take _ _ ++ _). assert (length c = length (cells b)) as Hlc.
  { unfold c. rewrite !length_app, length_take, length_drop. lia. }
  intros b'. assert (cells b' = c) as Hb by (unfold b', set_size; by apply cells_set_cells).
  assert (length (take (Z.to_nat (size_ b)) (cells b)) = Z.to_nat (size_ b)) as Hl by (rewrite length_take; lia).
  split_and!.
  - split; [rewrite Hb, Hlc; done|unfold b'; cbn; lia..].
  - intros Hz. apply (clean_from_mono m (Z.max m (size_ b'))) in Hcl; [|lia]. specialize (Hcl Hz).
    rewrite Hb. unfold b', c in *. cbn [size_ set_size] in *. set (k := Z.max m _) in *.
    assert (Z.to_nat (size_ b) + length xs <= Z.to_nat k)%nat as Hk by lia.
    rewrite app_assoc, drop_app_ge by (rewrite length_app; lia).
    rewrite length_app, Hl, drop_drop.
    replace (Z.to_nat (size_ b) + length xs + (Z.to_nat k - (Z.to_nat (size_ b) + length xs)))%nat
      with (Z.to_nat k) by lia. done.
  - unfold content. rewrite Hb. unfold b', c. cbn [size_ set_size].
    rewrite Z2Nat.inj_add, Nat2Z.id by lia. rewrite app_assoc, take_app_le by (rewrite length_app; lia).
    rewrite take_ge; [done|rewrite length_app; lia].
Qed.

Lemma AppendData_spec b data m : wf b -> size_ b <= m -> clean_from m b -> size_ b + size data < 2 ^ 64 ->
  exists b' f, AppendData b data = Ok (b', f) /\ wf b' /\ clean_from (Z.max m (size_ b')) b' /\ wiped f /\
    content b' = content b ++ map Some data /\ size_ b' = size_ b + size data /\ capacity_ b <= capacity_ b'.
Proof.
  intros Hw Hm Hcl Hs. unfold AppendData. rewrite checked_wf by done. cbn [mbind res_bind].
  pose proof (wf_size b Hw) as Hs0. unfold size in *.
  rewrite wrapU_id by (unfold in_u; lia).
  destruct (Ensure_spec b (size_ b + Z.of_nat (length data)) true m Hw ltac:(lia) Hm Hcl)
    as (b1 & f & -> & Hw1 & Hcl1 & Hf & Hsz & Hct & Hcap & Hgrow & _). cbn [mbind res_bind].
  destruct (extend_spec b1 (map Some data) m Hw1 Hcl1 ltac:(lia)) as (c & -> & Hw2 & Hcl2 & Hct2).
  { rewrite length_map. lia. }
  cbn [mbind res_bind]. rewrite length_map, Hsz in *. rewrite checked_wf by done. cbn [mbind res_bind].
  eexists _, _. split; [reflexivity|]. split_and!; try done. by rewrite Hct2, Hct.
Qed.

Lemma Forall_zeros n : Forall (fun x => x = Some NUL) (zeros n).
Proof. apply list.Forall_forall. intros x Hx. by apply elem_of_replicate in Hx as [-> _]. Qed.

(** The end moved back from [old]: the rest is wiped. *)
Lemma zero_shrunk_spec b old f : wf b -> clean_from (Z.max old (size_ b)) b -> old <= capacity_ b ->
  exists b', zero_shrunk old (b, f) = Ok (b', f) /\ wf b' /\ clean b' /\ content b' = content b.
Proof.
  intros Hw Hcl Ho. unfold zero_shrunk. cbn [fst snd].
  destruct (ZeroOnFree && (size_ b <? old)) eqn:E.
  2:{ exists b. split_and!; try done. intros Hz. specialize (Hcl Hz). rewrite Hz in E. cbn in E. bool_prop.
      by rewrite Z.max_r in Hcl by lia. }
  apply andb_prop in E as [Hz E]. bool_prop. specialize (Hcl Hz). rewrite Z.max_l in Hcl by lia.
  unfold ZeroTrailingData. rewrite checked_wf by done. destruct Hw as [Hc Hs Hc64]. cbn [mbind res_bind].
  rewrite wrapU_id by (unfold in_u; lia). rewrite (proj2 (Z.leb_le _ _)) by lia. cbn [assert_ mbind res_bind].
  rewrite write_at_Ok by (unfold zeros; rewrite length_replicate; lia). cbn [mbind res_bind].
  set (c := take _ _ ++ _). assert (length c = length (cells b)) as Hlc.
  { unfold c. rewrite !length_app, length_take, length_drop. unfold zeros. rewrite length_replicate. lia. }
  exists (set_cells b c). split; [done|]. pose proof (cells_set_cells b c Hlc) as Hb.
  assert (length (take (Z.to_nat (size_ b)) (cells b)) = Z.to_nat (size_ b)) as Hl by (rewrite length_take; lia).
  split_and!; try done.
  - split; [rewrite Hb, Hlc; done|done..].
  - intros _. rewrite Hb. unfold c. cbn [size_ set_cells]. rewrite drop_app_ge by lia.
    rewrite Hl, Nat.sub_diag, drop_0. apply Forall_app. split.
    + eapply list.Forall_impl; [apply Forall_zeros|]. by left.
    + unfold zeros. rewrite length_replicate.
      replace (Z.to_nat (size_ b) + Z.to_nat (old - size_ b))%nat with (Z.to_nat old) by lia. done.
  - unfold content. rewrite Hb. unfold c. cbn [size_ set_cells]. rewrite take_app_le by lia.
    rewrite take_ge; [done|lia].
Qed.

(** ** Operations as a client uses them *)
Inductive bop := OpAppend (data : str) | OpSet (data : str) | OpSize (n : Z) | OpReserve (n : Z) | OpClear.

Definition run_op (o : bop) (b : Buffer) : res (Buffer * list block) :=
  match o with
  | OpAppend data => AppendData b data
  | OpSet data => SetData b data
  | OpSize n => SetSize b n
  | OpReserve n => EnsureCapacity b n
  | OpClear => b' ← Clear b; Ok (b', [])
  end.

(** The operation on the contents. *)
Definition op_spec (o : bop) (c c' : block) : Prop :=
  match o with
  | OpAppend data => c' = c ++ map Some data
  | OpSet data => c' = map Some data
  | OpSize n => Z.of_nat (length c') = n /\ take (min (length c) (length c')) c' = take (length c') c
  | OpReserve _ => c' = c
  | OpClear => c' = []
  end.

(** Sizes that a [size_t] can hold. *)
Definition op_fits (o : bop) (b : Buffer) : Prop :=
  match o with
  | OpAppend data => size_ b + size data < 2 ^ 64
  | OpSet data => size data < 2 ^ 64
  | OpSize n | OpReserve n => 0 <= n < 2 ^ 64
  | OpClear => True
  end.

Lemma wf_set_size b n : wf b -> 0 <= n <= capacity_ b -> wf (set_size b n).
Proof. intros [Hc Hs Hc64] Hn. by split. Qed.

Lemma Clear_spec b : wf b -> exists b', Clear b = Ok b' /\ wf b' /\ clean b' /\ content b' = [].
Proof.
  intros Hw. pose proof Hw as [Hc Hs Hc64]. unfold Clear, MaybeZeroCompleteBuffer.
  destruct (ZeroOnFree && (0 <? capacity_ b)) eqn:E.
  - apply andb_prop in E as [Hz E]. bool_prop.
    assert (length (zeros (Z.to_nat (capacity_ b))) = length (cells b)) as Hl
      by (unfold zeros; rewrite length_replicate; lia).
    pose proof (cells_set_cells b _ Hl) as Hb.
    assert (wf (set_size (set_cells b (zeros (Z.to_nat (capacity_ b)))) 0)) as Hw'.
    { split; [|cbn; lia..]. change (cells (set_size ?x _)) with (cells x). rewrite Hb, Hl. done. }
    rewrite checked_wf by done. eexists. split; [reflexivity|]. split_and!; [done| |done].
    intros _. change (cells (set_size ?x _)) with (cells x). rewrite Hb.
    apply Forall_drop. eapply list.Forall_impl; [apply Forall_zeros|]. by left.
  - pose proof (wf_set_size b 0 Hw ltac:(lia)) as Hw'. rewrite checked_wf by done.
    eexists. split; [reflexivity|]. split_and!; [done| |done].
    intros Hz. rewrite Hz in E. cbn in E. bool_prop.
    change (cells (set_size b 0)) with (cells b). destruct (cells b); [constructor|cbn in Hc; lia].
Qed.

Lemma run_op_spec o b : wf b -> clean b -> op_fits o b ->
  exists b' f, run_op o b = Ok (b', f) /\ wf b' /\ clean b' /\ wiped f /\ op_spec o (content b) (content b').
Proof.
  intros Hw Hcl Hf. pose proof Hw as [Hc Hs Hc64]. destruct o as [data|data|n|n|]; cbn [run_op op_spec op_fits] in *.
  - destruct (AppendData_spec b data (size_ b) Hw ltac:(lia) Hcl Hf)
      as (b' & f & -> & Hw' & Hcl' & Hfr & Hct & Hsz & _). exists b', f. split_and!; try done.
    unfold clean. rewrite Z.max_r in Hcl' by (unfold size in *; lia). done.
  - unfold SetData. rewrite checked_wf by done. cbn [mbind res_bind].
    destruct (AppendData_spec (set_size b 0) data (size_ b) (wf_set_size b 0 Hw ltac:(lia)) ltac:(cbn; lia) Hcl
      ltac:(cbn; lia)) as (b' & f & -> & Hw' & Hcl' & Hfr & Hct & Hsz & Hcap). cbn [mbind res_bind].
    destruct (zero_shrunk_spec b' (size_ b) f Hw' Hcl' ltac:(cbn in Hcap; lia)) as (b2 & -> & Hw2 & Hcl2 & Hct2).
    exists b2, f. split_and!; try done. by rewrite Hct2, Hct.
  - unfold SetSize. destruct (Ensure_spec b n true (size_ b) Hw Hf ltac:(lia) Hcl)
      as (b1 & f & -> & Hw1 & Hcl1 & Hfr & Hsz & Hct & Hcap & Hgrow & _). cbn [mbind res_bind].
    destruct (zero_shrunk_spec (set_size b1 n) (size_ b) f (wf_set_size b1 n Hw1 ltac:(lia))) as (b2 & -> & Hw2 & Hcl2 & Hct2).
    + cbn [size_ set_size]. apply (clean_from_mono (size_ b)); [lia|exact Hcl1].
    + cbn. lia.
    + exists b2, f. split_and!; try done; rewrite Hct2; unfold content at 1; cbn [size_ set_size];
        change (cells (set_size b1 n)) with (cells b1); pose proof (wf_cells b1 Hw1).
      * rewrite length_take. lia.
      * rewrite <- Hct. unfold content. rewrite Hsz. cbn [size_ set_size].
        change (cells (set_size b1 n)) with (cells b1). rewrite !take_take, !length_take. f_equal. lia.
  - unfold EnsureCapacity. destruct (Ensure_spec b n false (size_ b) Hw Hf ltac:(lia) Hcl)
      as (b1 & f & -> & Hw1 & Hcl1 & Hfr & Hsz & Hct & _). exists b1, f. split_and!; try done.
    unfold clean. by rewrite Hsz.
  - destruct (Clear_spec b Hw) as (b' & -> & Hw' & Hcl' & Hct). exists b', []. split_and!; try done.
    intros _. constructor.
Qed.

(** A client's sequence of operations. *)
Inductive runs : list bop -> Buffer -> Buffer -> list block -> Prop :=
| runs_nil b : runs [] b b []
| runs_cons o ops b b1 f1 b2 f2 :
    op_fits o b -> run_op o b = Ok (b1, f1) -> runs ops b1 b2 f2 -> runs (o :: ops) b b2 (f1 ++ f2).

Inductive specs : list bop -> block -> block -> Prop :=
| specs_nil c : specs [] c c
| specs_cons o ops c c1 c2 : op_spec o c c1 -> specs ops c1 c2 -> specs (o :: ops) c c2.

(** C28: buffers refine lists: whatever operations a client makes, starting from an empty
    buffer, the next one (whose size fits a size_t) succeeds without failing a check
    or leaving the heap block, the contents change as the list operation says, and
    with ZeroOnFree every byte of every block released on the way was zero, and every
    byte between the end and the capacity is zero or has not been written since the
    block was allocated, so no byte that was cut off or cleared is left there. *)
Theorem Buffer_refines ops b f o :
  runs ops (mkBuffer 0 0 None) b f -> op_fits o b ->
  specs ops [] (content b) /\
  (ZeroOnFree = true -> Forall (Forall (fun x => x = Some NUL)) f) /\
  (ZeroOnFree = true -> Forall (fun x => x = Some NUL \/ x = None) (drop (Z.to_nat (size_ b)) (cells b))) /\
  exists b' f', run_op o b = Ok (b', f') /\ op_spec o (content b) (content b').
Proof.
  assert (wf (mkBuffer 0 0 None)) as Hw0 by (by split).
  assert (clean (mkBuffer 0 0 None)) as Hcl0 by (intros _; constructor).
  change (@nil cell) with (content (mkBuffer 0 0 None)).
  revert Hw0 Hcl0. generalize (mkBuffer 0 0 None). intros b0 Hw0 Hcl0 Hr. revert Hw0 Hcl0.
  induction Hr as [b|o' ops b b1 f1 b2 f2 Hf E Hr IH]; intros Hw Hcl Hfit.
  - destruct (run_op_spec o b Hw Hcl Hfit) as (b' & f' & E & Hw' & Hcl' & Hfr & Hsp).
    split_and!; [constructor|intros _; constructor|done|eauto].
  - destruct (run_op_spec o' b Hw Hcl Hf) as (b1' & f1' & E' & Hw' & Hcl' & Hfr & Hsp).
    rewrite E in E'. simplify_eq.
    destruct (IH Hw' Hcl' Hfit) as (H1 & H2 & H3 & H4). split_and!; try done.
    + by econstructor.
    + intros Hz. apply Forall_app. auto.
Qed.

End BufferT.

Lemma Buffer_refines_witness : exists b f,
  runs true [OpAppend (lit "secret"); OpSize 2; OpAppend (lit "!")] (mkBuffer 0 0 None) b f /\
  wiped true f /\ content b = map Some (lit "se!") /\
  exists b' f', run_op true (OpSet (lit "x")) b = Ok (b', f') /\ op_spec (OpSet (lit "x")) (content b) (content b').
Proof.
  assert (exists b f, runs true [OpAppend (lit "secret"); OpSize 2; OpAppend (lit "!")] (mkBuffer 0 0 None) b f /\
    content b = map Some (lit "se!") /\ op_fits (OpSet (lit "x")) b) as (b & f & Hr & Hc & Hf).
  { do 2 eexists. split.
    { econstructor; [by vm_compute|vm_compute; reflexivity|].
      econstructor; [by vm_compute|vm_compute; reflexivity|].
      econstructor; [by vm_compute|vm_compute; reflexivity|]. constructor. }
    split; [reflexivity|by vm_compute]. }
  exists b, f. destruct (Buffer_refines true _ b f _ Hr Hf) as (_ & H1 & _ & H2). done.
Defined.
