(* ===== verification/ByteOrder.v ===== *)
(** * Byte order

    [rtc_base/byte_order.h] and the writer of [rtc_base/byte_buffer.h] of
    [include/webrtc], on the little-endian hosts the program is built for.  Memory is a
    list of bytes; an access past its end is undefined. *)

From S2P Require Import Prelude.
From S2P Require Import CppString.
From S2P Require Import Buffer.

(** ** Numbers in memory *)

(** The [n] bytes of a number, lowest first, as the host stores it. *)
Fixpoint le_bytes (n : nat) (v : Z) : str :=
  match n with O => [] | S n => chr v :: le_bytes n (v / 256) end.
Fixpoint le_value (s : str) : Z :=
  match s with [] => 0 | c :: s => code c + 256 * le_value s end.

Definition bswap (n : nat) (v : Z) : Z := le_value (reverse (le_bytes n v)).

(** [htobe16] and the like of [endian.h]. *)
Definition htobe (n : nat) (v : Z) : Z := bswap n v.
Definition betoh (n : nat) (v : Z) : Z := bswap n v.
Definition htole (n : nat) (v : Z) : Z := v.
Definition letoh (n : nat) (v : Z) : Z := v.

Definition store (memory : str) (offset : nat) (bs : str) : res str :=
  if bool_decide (offset + length bs <= length memory)%nat
  then Ok (take offset memory ++ bs ++ drop (offset + length bs) memory) else Undef.
Definition load (memory : str) (offset n : nat) : res str :=
  if bool_decide (offset + n <= length memory)%nat then Ok (take n (drop offset memory)) else Undef.

Definition Set8 (memory : str) (offset v : Z) : res str := store memory (Z.to_nat offset) (le_bytes 1 v).
Definition Get8 (memory : str) (offset : Z) : res Z := bs ← load memory (Z.to_nat offset) 1; Ok (le_value bs).

Definition SetBE16 (memory : str) (v : Z) : res str := store memory 0 (le_bytes 2 (htobe 2 v)).
Definition SetBE32 (memory : str) (v : Z) : res str := store memory 0 (le_bytes 4 (htobe 4 v)).
Definition SetBE64 (memory : str) (v : Z) : res str := store memory 0 (le_bytes 8 (htobe 8 v)).
Definition GetBE16 (memory : str) : res Z := bs ← load memory 0 2; Ok (betoh 2 (le_value bs)).
Definition GetBE32 (memory : str) : res Z := bs ← load memory 0 4; Ok (betoh 4 (le_value bs)).
Definition GetBE64 (memory : str) : res Z := bs ← load memory 0 8; Ok (betoh 8 (le_value bs)).
Definition SetLE16 (memory : str) (v : Z) : res str := store memory 0 (le_bytes 2 (htole 2 v)).
Definition SetLE32 (memory : str) (v : Z) : res str := store memory 0 (le_bytes 4 (htole 4 v)).
Definition SetLE64 (memory : str) (v : Z) : res str := store memory 0 (le_bytes 8 (htole 8 v)).
Definition GetLE16 (memory : str) : res Z := bs ← load memory 0 2; Ok (letoh 2 (le_value bs)).
Definition GetLE32 (memory : str) : res Z := bs ← load memory 0 4; Ok (letoh 4 (le_value bs)).
Definition GetLE64 (memory : str) : res Z := bs ← load memory 0 8; Ok (letoh 8 (le_value bs)).

Definition IsHostBigEndian : bool := false.
Definition HostToNetwork16 (n : Z) : Z := htobe 2 n.
Definition HostToNetwork32 (n : Z) : Z := htobe 4 n.
Definition HostToNetwork64 (n : Z) : Z := htobe 8 n.
Definition NetworkToHost16 (n : Z) : Z := betoh 2 n.
Definition NetworkToHost32 (n : Z) : Z := betoh 4 n.
Definition NetworkToHost64 (n : Z) : Z := betoh 8 n.

(** ** [ByteBufferWriterT<BufferT<char>>] *)
Inductive Order := ORDER_NETWORK | ORDER_HOST.

Record ByteBufferWriter := mkWriter { byte_order_ : Order; buffer_ : Buffer }.

Definition network (w : ByteBufferWriter) : bool := match byte_order_ w with ORDER_NETWORK => true | _ => false end.

Definition kDefaultCapacity : Z := 4096.

(** [Construct]; the constructors pass bytes, or none with the default capacity. *)
Definition Writer_construct (b : Buffer) (bytes : option str) (size : Z) : res Buffer :=
  '(b, _) ← match bytes with Some bs => AppendData false b bs | None => EnsureCapacity false b size end;
  Ok b.
Definition Writer_new (bytes : option str) (order : Order) : res ByteBufferWriter :=
  b ← Buffer_new;
  b ← Writer_construct b bytes (match bytes with Some bs => size bs | None => kDefaultCapacity end);
  Ok (mkWriter order b).

Definition Length (w : ByteBufferWriter) : Z := size_ (buffer_ w).
Definition Capacity (w : ByteBufferWriter) : Z := capacity_ (buffer_ w).

Definition WriteBytes (w : ByteBufferWriter) (val : str) : res ByteBufferWriter :=
  '(b, _) ← AppendData false (buffer_ w) val; Ok (mkWriter (byte_order_ w) b).

Definition WriteUInt8 (w : ByteBufferWriter) (val : Z) : res ByteBufferWriter := WriteBytes w (le_bytes 1 val).
Definition WriteUInt16 (w : ByteBufferWriter) (val : Z) : res ByteBufferWriter :=
  WriteBytes w (le_bytes 2 (if network w then HostToNetwork16 val else val)).
Definition WriteUInt24 (w : ByteBufferWriter) (val : Z) : res ByteBufferWriter :=
  let v := if network w then HostToNetwork32 val else val in
  let start := if network w || IsHostBigEndian then 1%nat else 0%nat in
  WriteBytes w (take 3 (drop start (le_bytes 4 v))).
Definition WriteUInt32 (w : ByteBufferWriter) (val : Z) : res ByteBufferWriter :=
  WriteBytes w (le_bytes 4 (if network w then HostToNetwork32 val else val)).
Definition WriteUInt64 (w : ByteBufferWriter) (val : Z) : res ByteBufferWriter :=
  WriteBytes w (le_bytes 8 (if network w then HostToNetwork64 val else val)).

(** The loop shifts seven bits out each round; a 64-bit number is done after ten. *)
Fixpoint uvarint_loop (fuel : nat) (w : ByteBufferWriter) (val : Z) : res ByteBufferWriter :=
  match fuel with
  | O => Undef
  | S fuel =>
      if 128 <=? val then
        w ← WriteBytes w [chr (Z.lor val 128)];
        uvarint_loop fuel w (Z.shiftr val 7)
      else WriteBytes w [chr val]
  end.
Definition WriteUVarint (w : ByteBufferWriter) (val : Z) : res ByteBufferWriter := uvarint_loop 10 w val.

Definition WriteString (w : ByteBufferWriter) (val : str) : res ByteBufferWriter := WriteBytes w val.

Definition ReserveWriteBuffer (w : ByteBufferWriter) (len : Z) : res ByteBufferWriter :=
  '(b, _) ← SetSize false (buffer_ w) (u64 (size_ (buffer_ w) + len)); Ok (mkWriter (byte_order_ w) b).
Definition Resize (w : ByteBufferWriter) (size : Z) : res ByteBufferWriter :=
  '(b, _) ← SetSize false (buffer_ w) size; Ok (mkWriter (byte_order_ w) b).
Definition Writer_Clear (w : ByteBufferWriter) : res ByteBufferWriter :=
  b ← Clear false (buffer_ w); Ok (mkWriter (byte_order_ w) b).

(** ** Laws *)
Lemma le_bytes_length n v : length (le_bytes n v) = n.
Proof. revert v. induction n as [|n IH]; intros v; cbn; [done|]. by rewrite IH. Qed.

Lemma code_chr_mod v : code (chr v) = v mod 256.
Proof.
  pose proof (Z.mod_pos_bound v 256 ltac:(lia)) as H.
  rewrite <- (code_chr (v mod 256)) by done. unfold chr. by rewrite Z.mod_mod.
Qed.

Lemma le_value_bytes n v : le_value (le_bytes n v) = v mod 256 ^ Z.of_nat n.
Proof.
  revert v. induction n as [|n IH]; intros v; cbn [le_bytes le_value]; [by rewrite Z.mod_1_r|].
  rewrite IH, code_chr_mod, Nat2Z.inj_succ, Z.pow_succ_r by lia.
  rewrite Z.rem_mul_r by (try apply Z.pow_nonzero; lia). lia.
Qed.

Lemma le_value_range s : 0 <= le_value s < 256 ^ Z.of_nat (length s).
Proof.
  induction s as [|c s IH]; [cbn; lia|]. cbn [le_value length].
  rewrite Nat2Z.inj_succ, Z.pow_succ_r by lia. pose proof (code_range c). lia.
Qed.

Lemma le_bytes_value s : le_bytes (length s) (le_value s) = s.
Proof.
  induction s as [|c s IH]; [done|]. cbn [length le_bytes le_value]. f_equal.
  - apply code_inj. rewrite code_chr_mod. pose proof (code_range c).
    rewrite Z.mul_comm, Z_mod_plus_full. apply Z.mod_small. lia.
  - rewrite Z.mul_comm, Z.div_add, Z.div_small by (pose proof (code_range c); lia). exact IH.
Qed.

(** The bytes of a swapped number are the reversed bytes. *)
Lemma le_bytes_bswap n v : le_bytes n (bswap n v) = reverse (le_bytes n v).
Proof.
  unfold bswap. rewrite <- (le_bytes_value (reverse (le_bytes n v))) at 2.
  by rewrite length_reverse, le_bytes_length.
Qed.

Lemma bswap_bswap n v : bswap n (bswap n v) = v mod 256 ^ Z.of_nat n.
Proof.
  unfold bswap at 1. rewrite le_bytes_bswap, reverse_involutive. apply le_value_bytes.
Qed.

Lemma le_value_bswap n v : bswap n (le_value (le_bytes n (bswap n v))) = v mod 256 ^ Z.of_nat n.
Proof.
  rewrite le_value_bytes, Z.mod_small; [apply bswap_bswap|]. unfold bswap.
  pose proof (le_value_range (reverse (le_bytes n v))) as H.
  by rewrite length_reverse, le_bytes_length in H.
Qed.

(** Most significant byte first. *)
Definition be_bytes (n : nat) (v : Z) : str := reverse (le_bytes n v).
Definition be_value (s : str) : Z := le_value (reverse s).

Lemma be_value_bytes n v : be_value (be_bytes n v) = v mod 256 ^ Z.of_nat n.
Proof. unfold be_value, be_bytes. rewrite reverse_involutive. apply le_value_bytes. Qed.

Lemma load_store memory bs memory' : store memory 0 bs = Ok memory' -> load memory' 0 (length bs) = Ok bs.
Proof.
  unfold store, load. case_bool_decide as H; [|done]. intros [= <-]. rewrite ?take_0. cbn [app].
  rewrite bool_decide_eq_true_2 by (rewrite length_app; lia).
  by rewrite drop_0, take_app_length.
Qed.

Lemma store_front memory bs memory' : store memory 0 bs = Ok memory' -> memory' = bs ++ drop (length bs) memory.
Proof. unfold store. case_bool_decide as H; [|done]. by intros [= <-]. Qed.

(** Reading back what was written: after [SetBE64] (and likewise for the other widths)
    the memory starts with the number's bytes, most significant first, the rest is
    untouched, and [GetBE64] returns the number; little-endian accessors return what
    was stored with the lowest byte first. *)
Theorem byte_order_roundtrip memory memory' v :
  in_u 64 v ->
  (SetBE64 memory v = Ok memory' ->
     GetBE64 memory' = Ok v /\ memory' = be_bytes 8 v ++ drop 8 memory) /\
  (SetLE64 memory v = Ok memory' -> GetLE64 memory' = Ok v /\ memory' = le_bytes 8 v ++ drop 8 memory) /\
  (SetBE32 memory v = Ok memory' -> GetBE32 memory' = Ok (u32 v)) /\
  (SetBE16 memory v = Ok memory' -> GetBE16 memory' = Ok (u16 v)) /\
  NetworkToHost64 (HostToNetwork64 v) = v.
Proof.
  intros Hv. unfold in_u in Hv.
  assert (forall n m m', store m 0 (le_bytes n (bswap n v)) = Ok m' ->
    load m' 0 n = Ok (le_bytes n (bswap n v))) as Hld.
  { intros n m m' E. pose proof (load_store m _ m' E) as H. by rewrite le_bytes_length in H. }
  assert (forall n m m', store m 0 (le_bytes n (bswap n v)) = Ok m' ->
    (bs ← load m' 0 n; Ok (betoh n (le_value bs))) = Ok (v mod 256 ^ Z.of_nat n)) as Hget.
  { intros n m m' E. rewrite (Hld n m m' E). cbn [mbind res_bind]. unfold betoh.
    by rewrite le_value_bswap. }
  split_and!.
  - intros E. split.
    + unfold GetBE64. rewrite (Hget 8%nat memory memory' E). f_equal. apply Z.mod_small. done.
    + rewrite (store_front _ _ _ E), le_bytes_length. unfold htobe. by rewrite le_bytes_bswap.
  - intros E. split.
    + unfold GetLE64, SetLE64, htole, letoh in *. pose proof (load_store memory _ memory' E) as H.
      rewrite le_bytes_length in H. rewrite H. cbn [mbind res_bind]. f_equal. rewrite le_value_bytes.
      apply Z.mod_small. done.
    + by rewrite (store_front _ _ _ E), le_bytes_length.
  - intros E. unfold GetBE32. by rewrite (Hget 4%nat memory memory' E).
  - intros E. unfold GetBE16. by rewrite (Hget 2%nat memory memory' E).
  - unfold NetworkToHost64, HostToNetwork64, betoh, htobe. rewrite bswap_bswap. apply Z.mod_small. done.
Qed.

Lemma byte_order_roundtrip_witness :
  exists m, SetBE64 (repeat "x"%char 9) 258 = Ok m /\ GetBE64 m = Ok 258.
Proof.
  eexists. split; [reflexivity|].
  apply (proj1 (byte_order_roundtrip (repeat "x"%char 9) _ 258 ltac:(unfold in_u; lia))). reflexivity.
Defined.

(** *** The writer *)
Definition writer_wf (w : ByteBufferWriter) : Prop := wf (buffer_ w).
Definition written (w : ByteBufferWriter) : block := content (buffer_ w).

Lemma WriteBytes_spec w bs : writer_wf w -> Length w + size bs < 2 ^ 64 ->
  exists w', WriteBytes w bs = Ok w' /\ writer_wf w' /\ written w' = written w ++ map Some bs /\
    byte_order_ w' = byte_order_ w /\ Length w' = Length w + size bs.
Proof.
  intros Hw Hs. unfold WriteBytes.
  destruct (AppendData_spec false (buffer_ w) bs (size_ (buffer_ w)) Hw ltac:(lia) ltac:(by intros) Hs)
    as (b' & f & -> & Hw' & _ & _ & Hc & Hsz & _). cbn [mbind res_bind]. eexists. split; [reflexivity|].
  by split_and!.
Qed.

(** What one value appends, by width and byte order. *)
Definition host_or_net (w : ByteBufferWriter) (n : nat) (val : Z) : str :=
  if network w then be_bytes n val else le_bytes n val.

Lemma network_bytes w n val :
  le_bytes n (if network w then bswap n val else val) = host_or_net w n val.
Proof. unfold host_or_net. destruct (network w); [apply le_bytes_bswap|done]. Qed.

Lemma network_bytes_24 w val :
  take 3 (drop (if network w || IsHostBigEndian then 1%nat else 0%nat)
    (le_bytes 4 (if network w then bswap 4 val else val))) = host_or_net w 3 val.
Proof.
  rewrite network_bytes. unfold host_or_net, be_bytes. by destruct (network w).
Qed.

(** The variable-length format: seven bits a byte, lowest first, the top bit set on
    all bytes but the last. *)
Fixpoint uvarint_value (s : str) : option (Z * str) :=
  match s with
  | [] => None
  | c :: s =>
      if code c <? 128 then Some (code c, s)
      else '(v, r) ← uvarint_value s; Some (code c - 128 + 128 * v, r)
  end.

Fixpoint uvarint_bytes (fuel : nat) (val : Z) : str :=
  match fuel with
  | O => []
  | S fuel => if 128 <=? val then chr (Z.lor val 128) :: uvarint_bytes fuel (Z.shiftr val 7) else [chr val]
  end.

Lemma uvarint_bytes_length fuel val : (length (uvarint_bytes fuel val) <= fuel)%nat.
Proof.
  revert val. induction fuel as [|fuel IH]; intros val; cbn [uvarint_bytes]; [done|].
  destruct (128 <=? val); cbn [length]; [specialize (IH (Z.shiftr val 7))|]; lia.
Qed.

Lemma lor_128_mod val : 0 <= val -> Z.lor val 128 mod 256 = 128 + val mod 128.
Proof.
  intros Hv. change 256 with (2 ^ 8). rewrite <- Z.land_ones, Z.land_lor_distr_l by lia.
  change (Z.land 128 (Z.ones 8)) with (Z.shiftl 1 7).
  rewrite Z.land_ones by lia.
  change (val mod 2 ^ 8) with (val mod (128 * 2)). rewrite Z.rem_mul_r by lia.
  replace (val mod 128 + 128 * ((val / 128) mod 2))
    with (Z.lor (val mod 128) (Z.shiftl ((val / 128) mod 2) 7)).
  - rewrite <- Z.lor_assoc, <- Z.shiftl_lor, lor_shiftl by (try apply Z.mod_pos_bound; lia).
    pose proof (Z.mod_pos_bound (val / 128) 2 ltac:(lia)) as H.
    assert ((val / 128) mod 2 = 0 \/ (val / 128) mod 2 = 1) as [-> | ->] by lia;
      [change (Z.lor 0 1) with 1|change (Z.lor 1 1) with 1]; lia.
  - rewrite lor_shiftl by (try apply Z.mod_pos_bound; lia). lia.
Qed.

Lemma uvarint_decode fuel val rest : (0 < fuel)%nat -> 0 <= val < 128 ^ Z.of_nat fuel ->
  uvarint_value (uvarint_bytes fuel val ++ rest) = Some (val, rest).
Proof.
  revert val. induction fuel as [|fuel IH]; intros val Hf Hv; [lia|]. cbn [uvarint_bytes].
  destruct (Z.leb_spec 128 val) as [H|H]; cbn [app uvarint_value].
  - rewrite code_chr_mod, lor_128_mod by lia.
    destruct (Z.ltb_spec (128 + val mod 128) 128) as [H'|_]; [pose proof (Z.mod_pos_bound val 128 ltac:(lia)); lia|].
    rewrite Z.shiftr_div_pow2 by lia. change (2 ^ 7) with 128. rewrite IH.
    + cbn. do 2 f_equal. pose proof (Z.div_mod val 128). lia.
    + destruct fuel; [cbn in Hv|]; lia.
    + rewrite Nat2Z.inj_succ, Z.pow_succ_r in Hv by lia.
      split; [apply Z.div_pos; lia|]. apply Z.div_lt_upper_bound; lia.
  - rewrite code_chr by lia. by destruct (Z.ltb_spec val 128); [|lia].
Qed.

Lemma uvarint_loop_spec fuel w val : writer_wf w -> (0 < fuel)%nat -> 0 <= val < 128 ^ Z.of_nat fuel ->
  Length w + Z.of_nat fuel < 2 ^ 64 ->
  exists w', uvarint_loop fuel w val = Ok w' /\ writer_wf w' /\
    written w' = written w ++ map Some (uvarint_bytes fuel val).
Proof.
  revert w val. induction fuel as [|fuel IH]; intros w val Hw Hf Hv Hl; [lia|].
  cbn [uvarint_loop uvarint_bytes].
  destruct (Z.leb_spec 128 val) as [H|H].
  - destruct (WriteBytes_spec w [chr (Z.lor val 128)] Hw ltac:(unfold size; cbn; lia))
      as (w1 & -> & Hw1 & Hc & _ & Hl1). cbn [mbind res_bind].
    assert (0 < fuel)%nat as Hf' by (destruct fuel; [cbn in Hv|]; lia).
    rewrite Nat2Z.inj_succ, Z.pow_succ_r in Hv by lia.
    destruct (IH w1 (Z.shiftr val 7) Hw1 Hf') as (w' & E & Hw' & Hc').
    + rewrite Z.shiftr_div_pow2 by lia. change (2 ^ 7) with 128.
      split; [apply Z.div_pos; lia|]. apply Z.div_lt_upper_bound; lia.
    + rewrite Hl1. unfold size. cbn [length]. lia.
    + exists w'. rewrite Hc', Hc, <- app_assoc. by cbn.
  - destruct (WriteBytes_spec w [chr val] Hw ltac:(unfold size; cbn; lia)) as (w' & -> & Hw' & Hc & _).
    by exists w'.
Qed.

(** The writer appends and never disturbs what it wrote: in network order a value of
    2, 3, 4 or 8 bytes is appended most significant byte first (lowest first in host
    order), and a 64-bit variable-length integer is appended as at most ten bytes from
    which the value is read back, whatever follows. *)
Theorem Writer_appends w val :
  writer_wf w -> in_u 64 val -> Length w + 10 < 2 ^ 64 ->
  (forall n wr, In (n, wr) [(1%nat, WriteUInt8); (2%nat, WriteUInt16); (3%nat, WriteUInt24);
                            (4%nat, WriteUInt32); (8%nat, WriteUInt64)] ->
     exists w', wr w val = Ok w' /\ writer_wf w' /\ written w' = written w ++ map Some (host_or_net w n val)) /\
  exists w' bs, WriteUVarint w val = Ok w' /\ writer_wf w' /\ written w' = written w ++ map Some bs /\
    (length bs <= 10)%nat /\ forall rest, uvarint_value (bs ++ rest) = Some (val, rest).
Proof.
  intros Hw Hv Hl. unfold in_u in Hv.
  assert (forall n bs, (n <= 10)%nat -> length bs = n ->
    exists w', WriteBytes w bs = Ok w' /\ writer_wf w' /\ written w' = written w ++ map Some bs) as Happ.
  { intros n bs Hn <-. destruct (WriteBytes_spec w bs Hw ltac:(unfold size; lia)) as (w' & E & H1 & H2 & _).
    by exists w'. }
  split.
  - intros n wr Hin. cbn [In] in Hin.
    assert (length (host_or_net w n val) = n) as Hlen.
    { unfold host_or_net, be_bytes. destruct (network w); by rewrite ?length_reverse, le_bytes_length. }
    destruct (Happ n (host_or_net w n val)) as (w' & E & H); [destruct_or! Hin; simplify_eq; lia|done|].
    exists w'. split; [|done]. rewrite <- E.
    destruct_or! Hin; simplify_eq; [|by unfold WriteUInt16, HostToNetwork16, htobe; rewrite network_bytes
      |by unfold WriteUInt24, HostToNetwork32, htobe; rewrite network_bytes_24
      |by unfold WriteUInt32, HostToNetwork32, htobe; rewrite network_bytes
      |by unfold WriteUInt64, HostToNetwork64, htobe; rewrite network_bytes].
    unfold WriteUInt8, host_or_net. by destruct (network w).
  - destruct (uvarint_loop_spec 10 w val Hw ltac:(lia) ltac:(cbn; lia) ltac:(lia)) as (w' & E & Hw' & Hc).
    exists w', (uvarint_bytes 10 val). split_and!; [done..|apply uvarint_bytes_length|].
    intros rest. apply uvarint_decode; cbn; lia.
Qed.

Lemma Writer_appends_witness : exists w w' bs, Writer_new (Some (lit "ab")) ORDER_NETWORK = Ok w /\
  WriteUVarint w 300 = Ok w' /\ written w' = written w ++ map Some bs /\ uvarint_value bs = Some (300, []).
Proof.
  eexists. assert (forall w, Writer_new (Some (lit "ab")) ORDER_NETWORK = Ok w -> writer_wf w /\ Length w = 2) as Hn
    by (intros w E; vm_compute in E; injection E as <-; by split; [split; vm_compute|]).
  destruct (Hn _ eq_refl) as [Hw Hl].
  destruct (Writer_appends _ 300 Hw ltac:(unfold in_u; lia) ltac:(lia)) as [_ (w' & bs & E' & _ & Hc & _ & H)].
  exists w', bs. specialize (H []). rewrite app_nil_r in H. by split_and!.
Defined.
