(* ===== verification/SwapQueue.v ===== *)
(** * The swap queue

    [SwapQueue<T>] of [rtc_base/swap_queue.h] of [include/webrtc], built with
    [RTC_DCHECK_IS_ON]: a fixed-size ring of slots through which full items travel one
    way and empty ones the other.  Every operation holds [crit_queue_] for its whole
    body, so a concurrent use is a sequence of operations, which is what the theorems
    are about.  The indices are below the vector's size, so they are naturals here. *)

From S2P Require Import Prelude.

Record SwapQueue (T : Type) := mkQueue {
  queue_ : list T; next_write_index_ : nat; next_read_index_ : nat; num_elements_ : nat
}.
Arguments mkQueue {T} _ _ _ _.
Arguments queue_ {T} _.
Arguments next_write_index_ {T} _.
Arguments next_read_index_ {T} _.
Arguments num_elements_ {T} _.

Section SwapQueue.
Context {T : Type} (queue_item_verifier_ : T -> bool).
Implicit Types (q : SwapQueue T) (x : T).

(** The loop of [VerifyQueueSlots]. *)
Fixpoint VerifyQueueSlots (slots : list T) : res bool :=
  match slots with
  | [] => Ok true
  | v :: slots => _ ← assert_ (queue_item_verifier_ v); VerifyQueueSlots slots
  end.

(** [SwapQueue(size, prototype, verifier)]. *)
Definition SwapQueue_new (size : nat) (prototype : T) : res (SwapQueue T) :=
  let q := mkQueue (replicate size prototype) 0 0 0 in
  ok ← VerifyQueueSlots (queue_ q);
  _ ← assert_ ok;
  Ok q.

Definition SwapQueue_Clear q : SwapQueue T := mkQueue (queue_ q) 0 0 0.

(** [swap] with a slot: what the slot held, and the slots with the other item in place. *)
Definition swap_slot (slots : list T) (i : nat) x : res (T * list T) :=
  match slots !! i with Some y => Ok (y, <[i:=x]> slots) | None => Undef end.

Definition next_index (slots : list T) (i : nat) : nat :=
  if bool_decide (S i = length slots) then 0%nat else S i.

(** What the call returns, what the caller's item is afterwards, and the queue. *)
Definition Insert q x : res (bool * T * SwapQueue T) :=
  _ ← assert_ (queue_item_verifier_ x);
  if bool_decide (num_elements_ q = length (queue_ q)) then Ok (false, x, q) else
  '(y, slots) ← swap_slot (queue_ q) (next_write_index_ q) x;
  let w := next_index slots (next_write_index_ q) in
  let n := S (num_elements_ q) in
  _ ← assert_ (bool_decide (w < length slots)%nat);
  _ ← assert_ (bool_decide (n <= length slots)%nat);
  Ok (true, y, mkQueue slots w (next_read_index_ q) n).

Definition Remove q x : res (bool * T * SwapQueue T) :=
  _ ← assert_ (queue_item_verifier_ x);
  if bool_decide (num_elements_ q = 0%nat) then Ok (false, x, q) else
  '(y, slots) ← swap_slot (queue_ q) (next_read_index_ q) x;
  let r := next_index slots (next_read_index_ q) in
  let n := (num_elements_ q - 1)%nat in
  _ ← assert_ (bool_decide (r < length slots)%nat);
  _ ← assert_ (bool_decide (n <= length slots)%nat);
  Ok (true, y, mkQueue slots (next_write_index_ q) r n).

(** ** The bounded queue it implements *)

(** An index of the ring, at most one turn ahead. *)
Definition wrap (n i : nat) : nat := if bool_decide (i < n)%nat then i else (i - n)%nat.

(** The full items, oldest first. *)
Definition contents q : list T :=
  take (num_elements_ q) (drop (next_read_index_ q) (queue_ q) ++ take (next_read_index_ q) (queue_ q)).

Record queue_wf q : Prop := {
  wf_num : (num_elements_ q <= length (queue_ q))%nat;
  wf_read : (next_read_index_ q < length (queue_ q))%nat \/
            (next_read_index_ q = 0 /\ length (queue_ q) = 0)%nat;
  wf_write : next_write_index_ q = wrap (length (queue_ q)) (next_read_index_ q + num_elements_ q)%nat;
  wf_slots : Forall (fun x => queue_item_verifier_ x = true) (queue_ q)
}.

Lemma contents_lookup q i : queue_wf q -> (i < num_elements_ q)%nat ->
  contents q !! i = queue_ q !! wrap (length (queue_ q)) (next_read_index_ q + i).
Proof.
  intros [Hn Hr _ _] Hi. unfold contents, wrap. rewrite lookup_take_lt by done.
  case_bool_decide as H.
  - rewrite lookup_app_l by (rewrite length_drop; lia). by rewrite lookup_drop.
  - rewrite lookup_app_r by (rewrite length_drop; lia). rewrite length_drop, lookup_take_lt by lia.
    f_equal. lia.
Qed.

Lemma contents_length q : queue_wf q -> length (contents q) = num_elements_ q.
Proof.
  intros [Hn Hr _ _]. unfold contents. rewrite length_take, length_app, length_drop, length_take. lia.
Qed.

Lemma VerifyQueueSlots_Ok slots : Forall (fun x => queue_item_verifier_ x = true) slots ->
  VerifyQueueSlots slots = Ok true.
Proof. induction 1 as [|x slots Hx _ IH]; cbn; [done|]. by rewrite Hx. Qed.

Lemma SwapQueue_new_spec size prototype : queue_item_verifier_ prototype = true ->
  exists q, SwapQueue_new size prototype = Ok q /\ queue_wf q /\ contents q = [] /\ length (queue_ q) = size.
Proof.
  intros Hp. unfold SwapQueue_new. cbn [queue_].
  rewrite VerifyQueueSlots_Ok by by apply Forall_replicate. cbn. eexists. split; [reflexivity|].
  split_and!; [|done|apply length_replicate].
  split; cbn; rewrite ?length_replicate; [lia|lia| |by apply Forall_replicate].
  unfold wrap. case_bool_decide; lia.
Qed.

Lemma Clear_wf q : queue_wf q -> queue_wf (SwapQueue_Clear q) /\ contents (SwapQueue_Clear q) = [].
Proof.
  intros [Hn Hr Hw Hs]. split; [|done]. split; cbn; [lia|lia| |done].
  unfold wrap. case_bool_decide; lia.
Qed.

(** A swap moves items and makes none: what is handed back takes the place of what is
    handed in. *)
Lemma swap_slot_perm slots i x y slots' : swap_slot slots i x = Ok (y, slots') -> y :: slots' ≡ₚ x :: slots.
Proof.
  unfold swap_slot. destruct (slots !! i) as [z|] eqn:E; [|done]. intros [= <- <-].
  pose proof (lookup_lt_Some _ _ _ E) as Hi.
  rewrite (insert_take_drop _ _ _ Hi).
  trans (x :: take i slots ++ z :: drop (S i) slots); [|by rewrite (take_drop_middle _ _ _ E)].
  rewrite <- !Permutation_middle. apply Permutation_swap.
Qed.

Lemma next_index_wrap slots i : (i < length slots)%nat -> next_index slots i = wrap (length slots) (S i).
Proof. intros Hi. unfold next_index, wrap. repeat case_bool_decide; lia. Qed.

(** One call against the abstract queue. *)
Lemma Insert_spec q x : queue_wf q -> queue_item_verifier_ x = true ->
  exists b y q', Insert q x = Ok (b, y, q') /\ queue_wf q' /\ queue_item_verifier_ y = true /\
    y :: queue_ q' ≡ₚ x :: queue_ q /\
    b = bool_decide (length (contents q) < length (queue_ q))%nat /\
    contents q' = if b then contents q ++ [x] else contents q.
Proof.
  intros Hwf Hx. pose proof Hwf as [Hn Hr Hw Hs]. unfold Insert. rewrite Hx, contents_length by done. cbn.
  case_bool_decide as Hfull.
  { exists false, x, q. split_and!; try done. by rewrite bool_decide_eq_false_2 by lia. }
  rewrite bool_decide_eq_true_2 by lia.
  assert (next_write_index_ q < length (queue_ q))%nat as Hlt
    by (rewrite Hw; unfold wrap; case_bool_decide; lia).
  destruct (lookup_lt_is_Some_2 _ _ Hlt) as [y Ey].
  assert (swap_slot (queue_ q) (next_write_index_ q) x = Ok (y, <[next_write_index_ q:=x]> (queue_ q))) as E
    by (unfold swap_slot; by rewrite Ey).
  rewrite E. cbn. rewrite length_insert, next_index_wrap by by rewrite length_insert. rewrite length_insert.
  rewrite !bool_decide_eq_true_2 by (unfold wrap; repeat case_bool_decide; lia). cbn.
  do 3 eexists. split; [reflexivity|].
  assert (queue_wf (mkQueue (<[next_write_index_ q:=x]> (queue_ q))
    (wrap (length (queue_ q)) (S (next_write_index_ q))) (next_read_index_ q) (S (num_elements_ q)))) as Hwf'.
  { split; cbn; rewrite ?length_insert; [lia|lia| |by apply Forall_insert].
    rewrite Hw. unfold wrap. repeat case_bool_decide; lia. }
  split_and!; [done|by eapply (Forall_lookup_1 _ _ _ _ Hs)|by eapply swap_slot_perm|done|].
  apply list_eq. intros i. destruct (decide (i < num_elements_ q)%nat) as [Hi|Hi].
  - rewrite lookup_app_l by (rewrite contents_length; done).
    rewrite !contents_lookup by (done || cbn; lia). cbn [queue_ next_read_index_]. rewrite length_insert.
    rewrite list_lookup_insert_ne; [done|]. rewrite Hw. unfold wrap. repeat case_bool_decide; lia.
  - rewrite lookup_app_r by (rewrite contents_length; done || lia). rewrite contents_length by done.
    destruct (decide (i = num_elements_ q)) as [->|Hne].
    + rewrite contents_lookup by (done || cbn; lia). cbn [queue_ next_read_index_].
      rewrite length_insert, <- Hw, Nat.sub_diag. by rewrite list_lookup_insert_eq.
    + rewrite !lookup_ge_None_2; [done|cbn; lia|]. rewrite contents_length by done. cbn; lia.
Qed.

Lemma Remove_spec q x : queue_wf q -> queue_item_verifier_ x = true ->
  exists b y q', Remove q x = Ok (b, y, q') /\ queue_wf q' /\ queue_item_verifier_ y = true /\
    y :: queue_ q' ≡ₚ x :: queue_ q /\
    match contents q with
    | [] => b = false /\ y = x /\ q' = q
    | z :: l => b = true /\ y = z /\ contents q' = l
    end.
Proof.
  intros Hwf Hx. pose proof Hwf as [Hn Hr Hw Hs]. pose proof (contents_length q Hwf) as Hlen.
  unfold Remove. rewrite Hx. cbn. case_bool_decide as Hempty.
  { exists false, x, q. destruct (contents q); [by split_and!|cbn in Hlen; lia]. }
  assert (next_read_index_ q < length (queue_ q))%nat as Hlt by lia.
  destruct (lookup_lt_is_Some_2 _ _ Hlt) as [y Ey].
  assert (swap_slot (queue_ q) (next_read_index_ q) x = Ok (y, <[next_read_index_ q:=x]> (queue_ q))) as E
    by (unfold swap_slot; by rewrite Ey).
  rewrite E. cbn. rewrite length_insert, next_index_wrap by by rewrite length_insert. rewrite length_insert.
  rewrite !bool_decide_eq_true_2 by (unfold wrap; repeat case_bool_decide; lia). cbn.
  do 3 eexists. split; [reflexivity|].
  assert (queue_wf (mkQueue (<[next_read_index_ q:=x]> (queue_ q)) (next_write_index_ q)
    (wrap (length (queue_ q)) (S (next_read_index_ q))) (num_elements_ q - 1))) as Hwf'.
  { split; cbn; rewrite ?length_insert; [lia| | |by apply Forall_insert].
    - unfold wrap. case_bool_decide; lia.
    - rewrite Hw. unfold wrap. repeat case_bool_decide; lia. }
  split_and!; [done|by eapply (Forall_lookup_1 _ _ _ _ Hs)|by eapply swap_slot_perm|].
  assert (contents q !! 0%nat = Some y) as H0.
  { rewrite contents_lookup by (done || lia). rewrite Nat.add_0_r. unfold wrap.
    by rewrite bool_decide_eq_true_2. }
  destruct (contents q) as [|z l] eqn:Ec; [done|]. injection H0 as ->. split_and!; [done..|].
  apply list_eq. intros i. change (l !! i) with ((y :: l) !! S i). rewrite <- Ec.
  destruct (decide (S i < num_elements_ q)%nat) as [Hi|Hi].
  - rewrite !contents_lookup by (done || cbn; lia). cbn [queue_ next_read_index_]. rewrite length_insert.
    rewrite list_lookup_insert_ne by (unfold wrap; repeat case_bool_decide; lia). f_equal.
    unfold wrap. repeat case_bool_decide; lia.
  - rewrite !lookup_ge_None_2; [done|rewrite contents_length by done; lia|].
    rewrite contents_length by done. cbn. lia.
Qed.

(** *** Sequences of operations *)
Inductive qop := QInsert (x : T) | QRemove (x : T) | QClear.
Inductive obs := OInserted (b : bool) | ORemoved (o : option T) | OCleared.

Definition qstep (o : qop) q : res (obs * SwapQueue T) :=
  match o with
  | QInsert x => '(b, _, q') ← Insert q x; Ok (OInserted b, q')
  | QRemove x => '(b, y, q') ← Remove q x; Ok (ORemoved (if b : bool then Some y else None), q')
  | QClear => Ok (OCleared, SwapQueue_Clear q)
  end.

Fixpoint qrun (ops : list qop) q : res (list obs * SwapQueue T) :=
  match ops with
  | [] => Ok ([], q)
  | o :: ops => '(a, q) ← qstep o q; '(outs, q) ← qrun ops q; Ok (a :: outs, q)
  end.

(** A queue that holds at most [n] items, first in first out. *)
Definition fifo_step (n : nat) (o : qop) (l : list T) : obs * list T :=
  match o with
  | QInsert x =>
      if bool_decide (length l < n)%nat then (OInserted true, l ++ [x]) else (OInserted false, l)
  | QRemove _ => match l with [] => (ORemoved None, []) | y :: l => (ORemoved (Some y), l) end
  | QClear => (OCleared, [])
  end.

Fixpoint fifo_run (n : nat) (ops : list qop) (l : list T) : list obs * list T :=
  match ops with
  | [] => ([], l)
  | o :: ops => let '(a, l) := fifo_step n o l in let '(outs, l) := fifo_run n ops l in (a :: outs, l)
  end.

Definition qop_ok (o : qop) : Prop :=
  match o with QInsert x | QRemove x => queue_item_verifier_ x = true | QClear => True end.

Lemma qstep_fifo o q : queue_wf q -> qop_ok o ->
  exists a q', qstep o q = Ok (a, q') /\ queue_wf q' /\ length (queue_ q') = length (queue_ q) /\
    fifo_step (length (queue_ q)) o (contents q) = (a, contents q').
Proof.
  intros Hwf Ho. destruct o as [x|x|]; cbn in Ho |- *.
  - destruct (Insert_spec q x Hwf Ho) as (b & y & q' & -> & Hwf' & _ & Hp & -> & Hc). cbn.
    do 2 eexists. split; [reflexivity|]. apply Permutation_length in Hp. cbn in Hp.
    split_and!; [done|lia|]. rewrite Hc. by case_bool_decide.
  - destruct (Remove_spec q x Hwf Ho) as (b & y & q' & -> & Hwf' & _ & Hp & Hc). cbn.
    do 2 eexists. split; [reflexivity|]. apply Permutation_length in Hp. cbn in Hp.
    split_and!; [done|lia|]. destruct (contents q) as [|z l] eqn:E; destruct Hc as (-> & -> & Hq);
      [by rewrite Hq, E|by rewrite Hq].
  - destruct (Clear_wf q Hwf) as [Hwf' Hc]. do 2 eexists. split; [reflexivity|]. by rewrite Hc.
Qed.

Lemma qrun_fifo ops q : queue_wf q -> Forall qop_ok ops ->
  exists outs q', qrun ops q = Ok (outs, q') /\ queue_wf q' /\ length (queue_ q') = length (queue_ q) /\
    fifo_run (length (queue_ q)) ops (contents q) = (outs, contents q').
Proof.
  intros Hwf Hops. revert q Hwf. induction Hops as [|o ops Ho _ IH]; intros q Hwf; cbn; [eauto 10|].
  destruct (qstep_fifo o q Hwf Ho) as (a & q1 & -> & Hwf1 & Hl1 & ->). cbn.
  destruct (IH q1 Hwf1) as (outs & q2 & -> & Hwf2 & Hl2 & Hf). rewrite Hl1 in Hf. rewrite Hf. cbn.
  do 2 eexists. split; [reflexivity|]. by rewrite Hl2, Hl1.
Qed.

(** The ring is a bounded first-in-first-out queue: whatever sequence of insertions,
    removals and clearings is run on a new queue with items that pass the verifier, no
    check fails, every call answers what a queue of that capacity answers (an insertion
    fails exactly when [size] items wait, a removal yields the oldest one), the waiting
    items agree, and every slot still passes the verifier. *)
Theorem SwapQueue_fifo size prototype ops :
  queue_item_verifier_ prototype = true -> Forall qop_ok ops ->
  exists q0 outs q, SwapQueue_new size prototype = Ok q0 /\ qrun ops q0 = Ok (outs, q) /\
    fifo_run size ops [] = (outs, contents q) /\ length (queue_ q) = size /\
    Forall (fun x => queue_item_verifier_ x = true) (queue_ q).
Proof.
  intros Hp Hops. destruct (SwapQueue_new_spec size prototype Hp) as (q0 & E0 & Hwf & Hc & Hl).
  destruct (qrun_fifo ops q0 Hwf Hops) as (outs & q & E & Hwf' & Hl' & Hf). rewrite Hc, Hl in Hf.
  exists q0, outs, q. split_and!; [done..|congruence|by destruct Hwf'].
Qed.

(** A call only exchanges items: what the caller holds afterwards and the slots
    together are a permutation of what they were, so no item is lost or duplicated. *)
Theorem SwapQueue_exchanges q x : queue_wf q -> queue_item_verifier_ x = true ->
  (exists b y q', Insert q x = Ok (b, y, q') /\ y :: queue_ q' ≡ₚ x :: queue_ q) /\
  (exists b y q', Remove q x = Ok (b, y, q') /\ y :: queue_ q' ≡ₚ x :: queue_ q).
Proof.
  intros Hwf Hx. destruct (Insert_spec q x Hwf Hx) as (b & y & q' & E & _ & _ & Hp & _).
  destruct (Remove_spec q x Hwf Hx) as (b2 & y2 & q2 & E2 & _ & _ & Hp2 & _). eauto 10.
Qed.

End SwapQueue.

Arguments QInsert {T} x.
Arguments QRemove {T} x.
Arguments QClear {T}.
Arguments OInserted {T} b.
Arguments ORemoved {T} o.
Arguments OCleared {T}.

Lemma SwapQueue_fifo_witness :
  exists q, (q0 ← SwapQueue_new (fun x => x <? 10) 2 0;
     qrun (fun x => x <? 10) [QInsert 1; QInsert 2; QInsert 3; QRemove 0; QInsert 4; QRemove 0] q0) =
    Ok ([OInserted true; OInserted true; OInserted false; ORemoved (Some 1); OInserted true; ORemoved (Some 2)], q)
    /\ contents q = [4] /\ length (queue_ q) = 2%nat.
Proof.
  destruct (SwapQueue_fifo (fun x => x <? 10) 2 0
    [QInsert 1; QInsert 2; QInsert 3; QRemove 0; QInsert 4; QRemove 0] eq_refl
    ltac:(repeat constructor)) as (q0 & outs & q & E0 & E & Hf & Hl & _).
  exists q. rewrite E0. cbn in Hf. injection Hf as <- Hc. by split_and!.
Defined.

Lemma SwapQueue_exchanges_witness : exists b y q',
  Insert (fun _ => true) (mkQueue [7; 8] 1 0 1) 9 = Ok (b, y, q') /\ y :: queue_ q' ≡ₚ [9; 7; 8].
Proof.
  refine (proj1 (SwapQueue_exchanges (fun _ => true) (mkQueue [7; 8] 1 0 1) 9 _ eq_refl)).
  split; cbn; [lia|lia|done|repeat constructor].
Defined.
