(* ===== verification/MovingMax.v ===== *)
(** * The moving maximum

    [MovingMaxCounter<int64_t>] of [rtc_base/numerics/moving_max_counter.h] of
    [include/webrtc], built with [RTC_DCHECK_IS_ON].  It keeps a short deque in place of
    the window's samples; it answers what the whole history would. *)

From Stdlib Require Import Sorted.
From S2P Require Import Prelude.

Record MovingMaxCounter := mkCounter {
  window_length_ms_ : Z; samples_ : list (Z * Z); last_call_time_ms_ : Z
}.

Definition MovingMaxCounter_new (window_length_ms : Z) : MovingMaxCounter :=
  mkCounter window_length_ms [] (- 2 ^ 63).

(** The samples from the first one that is not older than [window_begin_ms]. *)
Fixpoint erase_older (window_begin_ms : Z) (l : list (Z * Z)) : list (Z * Z) :=
  match l with
  | [] => []
  | p :: l' => if fst p <? window_begin_ms then erase_older window_begin_ms l' else l
  end.

Definition RollWindow (c : MovingMaxCounter) (new_time_ms : Z) : res MovingMaxCounter :=
  _ ← assert_ (last_call_time_ms_ c <=? new_time_ms);
  window_begin_ms ← arith 64 (new_time_ms - window_length_ms_ c);
  Ok (mkCounter (window_length_ms_ c) (erase_older window_begin_ms (samples_ c)) new_time_ms).

(** The loop on [samples_.back()], on the deque read from its back. *)
Fixpoint pop_smaller (sample : Z) (back : list (Z * Z)) : list (Z * Z) :=
  match back with
  | [] => []
  | p :: back' => if snd p <=? sample then pop_smaller sample back' else back
  end.

Definition Add (c : MovingMaxCounter) (sample current_time_ms : Z) : res MovingMaxCounter :=
  c ← RollWindow c current_time_ms;
  let l := reverse (pop_smaller sample (reverse (samples_ c))) in
  let l := match list.last l with
           | Some p => if fst p <? current_time_ms then l ++ [(current_time_ms, sample)] else l
           | None => [(current_time_ms, sample)]
           end in
  Ok (mkCounter (window_length_ms_ c) l (last_call_time_ms_ c)).

Definition Max (c : MovingMaxCounter) (current_time_ms : Z) : res (option Z * MovingMaxCounter) :=
  c ← RollWindow c current_time_ms;
  Ok (snd <$> head (samples_ c), c).

Definition MovingMax_Reset (c : MovingMaxCounter) : MovingMaxCounter :=
  mkCounter (window_length_ms_ c) [] (last_call_time_ms_ c).

(** ** The reference *)

(** The largest sample of the history not older than [begin]. *)
Definition max_step (begin : Z) (p : Z * Z) (acc : option Z) : option Z :=
  if begin <=? fst p then Some (match acc with Some m => Z.max (snd p) m | None => snd p end) else acc.
Definition window_max (begin : Z) (history : list (Z * Z)) : option Z := foldr (max_step begin) None history.

Definition is_window_max (begin : Z) (h : list (Z * Z)) (o : option Z) : Prop :=
  match o with
  | None => forall p, p ∈ h -> fst p < begin
  | Some m => (exists t, (t, m) ∈ h /\ begin <= t) /\ forall p, p ∈ h -> begin <= fst p -> snd p <= m
  end.

Lemma window_max_is begin h : is_window_max begin h (window_max begin h).
Proof.
  unfold window_max.
  induction h as [|p h IH]; cbn [foldr]; [by intros p ?%not_elem_of_nil|]. unfold max_step at 1.
  destruct (Z.leb_spec begin (fst p)) as [Hp|Hp].
  - destruct (foldr (max_step begin) None h) as [m|] eqn:E; cbn in *.
    + destruct IH as [(t & Ht & Hb) IH]. split.
      * destruct (Z.max_spec (snd p) m) as [[_ ->]|[_ ->]]; [exists t; set_solver|].
        exists (fst p). destruct p; set_solver.
      * intros q [->|Hq]%elem_of_cons Hbq; [lia|]. specialize (IH q Hq Hbq). lia.
    + split; [exists (fst p); destruct p; set_solver|].
      intros q [->|Hq]%elem_of_cons Hbq; [lia|]. specialize (IH q Hq). lia.
  - destruct (foldr (max_step begin) None h) as [m|] eqn:E; cbn in *.
    + destruct IH as [(t & Ht & Hb) IH]. split; [exists t; set_solver|].
      intros q [->|Hq]%elem_of_cons Hbq; [lia|auto].
    + intros q [->|Hq]%elem_of_cons; [lia|auto].
Qed.

Lemma is_window_max_unique begin h o1 o2 : is_window_max begin h o1 -> is_window_max begin h o2 -> o1 = o2.
Proof.
  destruct o1 as [m1|], o2 as [m2|]; cbn; try done.
  - intros [(t1 & H1 & B1) L1] [(t2 & H2 & B2) L2]. f_equal.
    pose proof (L1 _ H2 B2). pose proof (L2 _ H1 B1). cbn in *. lia.
  - intros [(t1 & H1 & B1) _] L2. specialize (L2 _ H1). cbn in *. lia.
  - intros L1 [(t2 & H2 & B2) _]. specialize (L1 _ H2). cbn in *. lia.
Qed.

(** ** The invariant *)

(** Later and smaller. *)
Definition after (p q : Z * Z) : Prop := fst p < fst q /\ snd q < snd p.

Record tracks (begin now : Z) (h l : list (Z * Z)) : Prop := {
  tr_sorted : StronglySorted after l;
  tr_sub : forall p, p ∈ l -> p ∈ h;
  tr_dominates : forall p, p ∈ h -> begin <= fst p -> exists q, q ∈ l /\ fst p <= fst q /\ snd p <= snd q;
  tr_past : forall p, p ∈ h -> fst p <= now
}.

Lemma erase_older_suffix b l : exists pre, l = pre ++ erase_older b l /\ Forall (fun p => fst p < b) pre.
Proof.
  induction l as [|p l (pre & E & H)]; cbn; [by exists []|].
  destruct (Z.ltb_spec (fst p) b); [|by exists []].
  exists (p :: pre). split; [cbn; by rewrite <- E|by constructor].
Qed.

Lemma pop_smaller_suffix s l : exists pre, l = pre ++ pop_smaller s l /\ Forall (fun p => snd p <= s) pre /\
  forall p, head (pop_smaller s l) = Some p -> s < snd p.
Proof.
  induction l as [|p l (pre & E & H & Hh)]; cbn; [by exists []|].
  destruct (Z.leb_spec (snd p) s).
  - exists (p :: pre). split_and!; [cbn; by rewrite <- E|by constructor|done].
  - exists []. split_and!; [done|constructor|]. by intros q [= <-].
Qed.

Lemma StronglySorted_app_r {A} (R : A -> A -> Prop) l1 l2 : StronglySorted R (l1 ++ l2) -> StronglySorted R l2.
Proof. induction l1 as [|x l1 IH]; cbn; [done|]. intros H. inversion H; auto. Qed.

Lemma StronglySorted_snoc {A} (R : A -> A -> Prop) l x :
  StronglySorted R (l ++ [x]) <-> StronglySorted R l /\ Forall (fun y => R y x) l.
Proof.
  induction l as [|y l IH]; cbn.
  - split; [intros _; split; constructor|]. intros _. constructor; constructor.
  - split.
    + intros H. inversion H as [|? ? Hs Hf]; subst. apply IH in Hs as [H1 H2].
      apply Forall_app in Hf as [Hf Hx]. inversion Hx; subst. split; by constructor.
    + intros [H1 H2]. inversion H1; inversion H2; subst. constructor; [by apply IH|].
      apply Forall_app. by split; [|constructor].
Qed.

Lemma StronglySorted_app_l {A} (R : A -> A -> Prop) l1 l2 : StronglySorted R (l1 ++ l2) -> StronglySorted R l1.
Proof.
  induction l1 as [|x l1 IH]; cbn; [constructor|]. intros H. inversion H as [|? ? Hs Hf]; subst.
  apply Forall_app in Hf as [Hf _]. constructor; auto.
Qed.

Lemma roll_tracks b now h l b' now' : tracks b now h l -> b <= b' -> now <= now' ->
  tracks b' now' h (erase_older b' l).
Proof.
  intros [Hs Hsub Hd Hp] Hb Hn. destruct (erase_older_suffix b' l) as (pre & E & Hpre). split.
  - rewrite E in Hs. by apply StronglySorted_app_r in Hs.
  - intros p Hin. apply Hsub. rewrite E. set_solver.
  - intros p Hin Hbp. destruct (Hd p Hin ltac:(lia)) as (q & Hq & H1 & H2).
    rewrite E in Hq. apply elem_of_app in Hq as [Hq|Hq]; [|eauto].
    rewrite list.Forall_forall in Hpre. specialize (Hpre q Hq). lia.
  - intros p Hin. specialize (Hp p Hin). lia.
Qed.

Lemma add_tracks b now h l s : tracks b now h l ->
  tracks b now (h ++ [(now, s)])
    (let l := reverse (pop_smaller s (reverse l)) in
     match list.last l with
     | Some p => if fst p <? now then l ++ [(now, s)] else l
     | None => [(now, s)]
     end).
Proof.
  intros [Hs Hsub Hd Hp]. destruct (pop_smaller_suffix s (reverse l)) as (pre & E & Hpre & Hhead).
  cbv zeta. generalize dependent (pop_smaller s (reverse l)). intros k E Hhead.
  assert (l = reverse k ++ reverse pre) as El
    by (rewrite <- reverse_app, <- E; by rewrite reverse_involutive).
  rewrite last_reverse.
  assert (forall p, p ∈ h -> b <= fst p -> (exists q, q ∈ reverse k /\ fst p <= fst q /\ snd p <= snd q) \/
    snd p <= s) as Hdom.
  { intros p Hin Hbp. destruct (Hd p Hin Hbp) as (q & Hq & H1 & H2). rewrite El in Hq.
    apply elem_of_app in Hq as [Hq|Hq]; [eauto|right].
    rewrite list.Forall_forall in Hpre. specialize (Hpre q ltac:(by apply elem_of_reverse)). lia. }
  assert (StronglySorted after (reverse k)) as Hk by (rewrite El in Hs; by apply StronglySorted_app_l in Hs).
  assert (forall p, p ∈ reverse k -> p ∈ h) as Hksub by (intros; apply Hsub; rewrite El; set_solver).
  assert (forall p, p ∈ h ++ [(now, s)] -> fst p <= now) as Hpast
    by (intros p [Hin|Hin%list_elem_of_singleton]%elem_of_app; [auto|subst p; cbn; lia]).
  destruct (head k) as [p|] eqn:Eh.
  - destruct k as [|p' k']; [done|]. injection Eh as ->. specialize (Hhead p eq_refl).
    rewrite reverse_cons in *. apply StronglySorted_snoc in Hk as Hk2. destruct Hk2 as [Hk1 Hk2].
    destruct (Z.ltb_spec (fst p) now) as [Hlt|Hge].
    + split; [| | |done].
      * apply StronglySorted_snoc. split; [done|]. apply Forall_app. split; [|repeat constructor; cbn; lia].
        eapply list.Forall_impl; [exact Hk2|]. intros q [H1 H2]. split; cbn; lia.
      * set_solver.
      * intros q [Hin|Hin%list_elem_of_singleton]%elem_of_app Hbq; [|subst q].
        -- destruct (Hdom q Hin Hbq) as [(r & Hr & H)|Hle]; [exists r; set_solver|].
           exists (now, s). specialize (Hp q Hin). cbn. set_solver by lia.
        -- exists (now, s). set_solver by lia.
    + split; [done|set_solver| |done].
      intros q [Hin|Hin%list_elem_of_singleton]%elem_of_app Hbq; [|subst q].
      * destruct (Hdom q Hin Hbq) as [(r & Hr & H)|Hle]; [by exists r|].
        exists p. specialize (Hp q Hin). set_solver by lia.
      * exists p. cbn. set_solver by lia.
  - assert (k = []) as -> by by destruct k. split; [repeat constructor|set_solver| |done].
    intros q Hin Hbq. exists (now, s). split; [set_solver|]. cbn. split; [auto|].
    apply elem_of_app in Hin as [Hin|Hin%list_elem_of_singleton]; [|subst q; cbn; lia].
    destruct (Hdom q Hin Hbq) as [(r & Hr & _)|Hle]; [set_solver|done].
Qed.

(** Once the window is rolled, the front of the deque is the window's maximum. *)
Lemma tracks_max b now h l : tracks b now h l -> (forall p, head l = Some p -> b <= fst p) ->
  is_window_max b h (snd <$> head l).
Proof.
  intros [Hs Hsub Hd Hp] Hh. destruct l as [|[t m] l]; cbn.
  - intros p Hin. destruct (Z.lt_ge_cases (fst p) b) as [|Hb]; [done|].
    destruct (Hd p Hin Hb) as (q & ?%not_elem_of_nil & _). done.
  - split; [exists t; split; [apply Hsub; set_solver|by apply (Hh (t, m))]|].
    intros p Hin Hb. destruct (Hd p Hin Hb) as (q & [->|Hq]%elem_of_cons & _ & Hle); [done|].
    inversion Hs as [|? ? _ Hf]; subst. rewrite list.Forall_forall in Hf.
    destruct (Hf q Hq) as [_ H]. cbn in H. lia.
Qed.

Lemma erase_older_head b l p : head (erase_older b l) = Some p -> b <= fst p.
Proof.
  induction l as [|q l IH]; cbn; [done|]. destruct (Z.ltb_spec (fst q) b); [done|]. by intros [= <-].
Qed.

(** ** Sequences of calls *)
Inductive mop := MAdd (sample time : Z) | MMax (time : Z) | MReset.

Definition mstep (o : mop) (c : MovingMaxCounter) : res (list (option Z) * MovingMaxCounter) :=
  match o with
  | MAdd s t => c ← Add c s t; Ok ([], c)
  | MMax t => '(m, c) ← Max c t; Ok ([m], c)
  | MReset => Ok ([], MovingMax_Reset c)
  end.
Fixpoint mrun (ops : list mop) (c : MovingMaxCounter) : res (list (option Z) * MovingMaxCounter) :=
  match ops with
  | [] => Ok ([], c)
  | o :: ops => '(a, c) ← mstep o c; '(outs, c) ← mrun ops c; Ok (a ++ outs, c)
  end.

(** The answers of a counter that keeps every sample since the last reset. *)
Fixpoint answers (w : Z) (ops : list mop) (history : list (Z * Z)) : list (option Z) :=
  match ops with
  | [] => []
  | MAdd s t :: ops => answers w ops (history ++ [(t, s)])
  | MMax t :: ops => window_max (t - w) history :: answers w ops history
  | MReset :: ops => answers w ops []
  end.

(** Calls in chronological order, at times the window can be subtracted from. *)
Fixpoint chronological (w now : Z) (ops : list mop) : Prop :=
  match ops with
  | [] => True
  | MAdd _ t :: ops | MMax t :: ops => now <= t /\ in_s 64 (t - w) /\ chronological w t ops
  | MReset :: ops => chronological w now ops
  end.

Lemma RollWindow_spec c h t : tracks (last_call_time_ms_ c - window_length_ms_ c) (last_call_time_ms_ c) h (samples_ c) ->
  last_call_time_ms_ c <= t -> in_s 64 (t - window_length_ms_ c) ->
  RollWindow c t = Ok (mkCounter (window_length_ms_ c) (erase_older (t - window_length_ms_ c) (samples_ c)) t) /\
  tracks (t - window_length_ms_ c) t h (erase_older (t - window_length_ms_ c) (samples_ c)).
Proof.
  intros Ht Hle Hs. unfold RollWindow, arith. destruct (Z.leb_spec (last_call_time_ms_ c) t); [|lia].
  rewrite bool_decide_eq_true_2 by done. split; [done|]. eapply roll_tracks; [exact Ht|lia|lia].
Qed.

Lemma mrun_answers ops c h :
  tracks (last_call_time_ms_ c - window_length_ms_ c) (last_call_time_ms_ c) h (samples_ c) ->
  chronological (window_length_ms_ c) (last_call_time_ms_ c) ops ->
  exists c', mrun ops c = Ok (answers (window_length_ms_ c) ops h, c') /\
    StronglySorted after (samples_ c').
Proof.
  revert c h. induction ops as [|[s t|t|] ops IH]; intros c h Ht Hc; cbn [mrun mstep answers].
  - exists c. split; [done|by destruct Ht].
  - destruct Hc as (Hle & Hs & Hc). destruct (RollWindow_spec c h t Ht Hle Hs) as [E Ht'].
    unfold Add. rewrite E. cbn [mbind res_bind samples_ window_length_ms_ last_call_time_ms_].
    apply (add_tracks _ _ _ _ s) in Ht'. cbv zeta in Ht' |- *.
    destruct (IH (mkCounter (window_length_ms_ c) _ t) _ Ht' Hc) as (c' & E' & H). rewrite E'. by exists c'.
  - destruct Hc as (Hle & Hs & Hc). destruct (RollWindow_spec c h t Ht Hle Hs) as [E Ht'].
    unfold Max. rewrite E. cbn [mbind res_bind samples_].
    destruct (IH (mkCounter (window_length_ms_ c) _ t) _ Ht' Hc) as (c' & E' & H). rewrite E'.
    exists c'. split; [|done]. cbn. repeat f_equal.
    eapply is_window_max_unique; [|apply window_max_is].
    eapply tracks_max; [exact Ht'|apply erase_older_head].
  - destruct (IH (MovingMax_Reset c) []) as (c' & E & H); [|done|].
    + split; [constructor|set_solver..].
    + cbn [mbind res_bind app]. rewrite E. by exists c'.
Qed.

(** The counter is exact although it forgets samples: for any chronological sequence
    of additions, queries and resets, no check fails, nothing overflows, and every query
    answers the largest of all the samples added since the last reset that lie in the
    window (nothing if there are none); the deque stays strictly increasing in time and
    strictly decreasing in value. *)
Theorem MovingMax_exact window_length_ms ops :
  chronological window_length_ms (- 2 ^ 63) ops ->
  exists c, mrun ops (MovingMaxCounter_new window_length_ms) = Ok (answers window_length_ms ops [], c) /\
    StronglySorted after (samples_ c).
Proof.
  intros Hc. apply (mrun_answers ops (MovingMaxCounter_new window_length_ms) []); [|done].
  split; [constructor|set_solver..].
Qed.

Lemma MovingMax_exact_witness :
  exists c, mrun [MAdd 5 10; MAdd 7 20; MMax 25; MAdd 6 30; MMax 35; MReset; MMax 36] (MovingMaxCounter_new 10) =
    Ok ([Some 7; Some 6; None], c).
Proof.
  destruct (MovingMax_exact 10 [MAdd 5 10; MAdd 7 20; MMax 25; MAdd 6 30; MMax 35; MReset; MMax 36]) as (c & E & _).
  - cbn. unfold in_s. lia.
  - exists c. exact E.
Defined.
