(* ===== verification/SeqNum.v ===== *)
(** * Wrapping sequence numbers

    [rtc_base/numerics/mod_ops.h] and [rtc_base/numerics/sequence_number_util.h] of
    [include/webrtc], built with [RTC_DCHECK_IS_ON].  The template arguments are the
    width [w] of the unsigned type and the modulus [M], zero for the type's own. *)

From S2P Require Import Prelude.

(** ** [mod_ops.h] *)

(** [Add<M>] and [Subtract<M>] on [unsigned long]. *)
Definition mod_Add (M a b : Z) : res Z :=
  _ ← assert_ (a <? M);
  let t := M - b mod M in
  let r := u64 (a - t) in
  Ok (if a <? t then u64 (r + M) else r).

Definition mod_Subtract (M a b : Z) : res Z :=
  _ ← assert_ (a <? M);
  let sub := b mod M in
  Ok (if a <? sub then M - (sub - a) else a - sub).

Section Wrapping.
Context (w M : Z).

Definition ForwardDiff (a b : Z) : res Z :=
  if M =? 0 then Ok (wrapU w (b - a)) else
  _ ← assert_ (a <? M); _ ← assert_ (b <? M);
  Ok (if a <=? b then b - a else M - (a - b)).

Definition ReverseDiff (a b : Z) : res Z :=
  if M =? 0 then Ok (wrapU w (a - b)) else
  _ ← assert_ (a <? M); _ ← assert_ (b <? M);
  Ok (if b <=? a then a - b else M - (b - a)).

Definition MinDiff (a b : Z) : res Z :=
  f ← ForwardDiff a b; r ← ReverseDiff a b; Ok (Z.min f r).

(** ** [sequence_number_util.h] *)

(** [a - b] of the type [T]: types narrower than [int] are promoted to it first. *)
Definition promoted_minus (a b : Z) : Z := if w <? 32 then a - b else wrapU w (a - b).

Definition AheadOrAt (a b : Z) : res bool :=
  if M =? 0 then
    let maxDist := (2 ^ w - 1) / 2 + 1 in
    if promoted_minus a b =? maxDist then Ok (b <? a) else
    f ← ForwardDiff b a; Ok (f <? maxDist)
  else
    let maxDist := M / 2 in
    opposite ← (if Z.land M 1 =? 0 then d ← MinDiff a b; Ok (d =? maxDist) else Ok false);
    if opposite : bool then Ok (b <? a) else
    f ← ForwardDiff b a; Ok (f <=? maxDist).

Definition AheadOf (a b : Z) : res bool := if a =? b then Ok false else AheadOrAt a b.

Definition AscendingSeqNumComp (a b : Z) : res bool := AheadOf a b.
Definition DescendingSeqNumComp (a b : Z) : res bool := AheadOf b a.

Record SeqNumUnwrapper := mkUnwrapper { last_unwrapped_ : Z; last_value_ : option Z }.

Definition SeqNumUnwrapper_new : SeqNumUnwrapper := mkUnwrapper 0 None.

Definition kBackwardAdjustment : Z := if M =? 0 then 2 ^ w - 1 + 1 else M.

Definition Unwrap (u : SeqNumUnwrapper) (value : Z) : res (Z * SeqNumUnwrapper) :=
  n ← match last_value_ u with
      | None => Ok value
      | Some last =>
          f ← ForwardDiff last value;
          n ← arith 64 (last_unwrapped_ u + f);
          ahead ← AheadOrAt value last;
          if ahead : bool then Ok n else arith 64 (n - kBackwardAdjustment)
      end;
  Ok (n, mkUnwrapper n (Some value)).

Fixpoint Unwrap_all (u : SeqNumUnwrapper) (values : list Z) : res (list Z) :=
  match values with
  | [] => Ok []
  | v :: values => '(n, u) ← Unwrap u v; l ← Unwrap_all u values; Ok (n :: l)
  end.

(** ** Laws *)
Definition modulus : Z := if M =? 0 then 2 ^ w else M.

(** The instances the static assertions allow. *)
Context (Hw : 1 <= w <= 32) (HM : 0 <= M < 2 ^ w).

Lemma modulus_bounds : 1 <= modulus <= 2 ^ 32.
Proof.
  unfold modulus. assert (2 ^ w <= 2 ^ 32) by (apply Z.pow_le_mono_r; lia).
  assert (0 < 2 ^ w) by (apply Z.pow_pos_nonneg; lia). destruct (Z.eqb_spec M 0); lia.
Qed.

Lemma diff_mod m a b : 0 <= a < m -> 0 <= b < m -> (b - a) mod m = if a <=? b then b - a else m - (a - b).
Proof.
  intros Ha Hb. destruct (Z.leb_spec a b); [apply Z.mod_small; lia|].
  rewrite <- (Z_mod_plus_full (b - a) 1 m). rewrite Z.mod_small; lia.
Qed.

Lemma ForwardDiff_spec a b : 0 <= a < modulus -> 0 <= b < modulus -> ForwardDiff a b = Ok ((b - a) mod modulus).
Proof.
  intros Ha Hb. rewrite diff_mod by done. unfold ForwardDiff. revert Ha Hb. unfold modulus.
  destruct (Z.eqb_spec M 0) as [->|H0]; intros Ha Hb.
  - unfold wrapU. by rewrite diff_mod.
  - by destruct (Z.ltb_spec a M), (Z.ltb_spec b M); cbn; try lia.
Qed.

Lemma ReverseDiff_spec a b : 0 <= a < modulus -> 0 <= b < modulus -> ReverseDiff a b = Ok ((a - b) mod modulus).
Proof.
  intros Ha Hb. rewrite diff_mod by done. unfold ReverseDiff. revert Ha Hb. unfold modulus.
  destruct (Z.eqb_spec M 0) as [->|H0]; intros Ha Hb.
  - unfold wrapU. by rewrite diff_mod.
  - by destruct (Z.ltb_spec a M), (Z.ltb_spec b M); cbn; try lia.
Qed.

(** [a] is at most half a turn ahead of [b]; exactly half a turn apart, the larger one is
    the one ahead. *)
Definition ahead_or_at (a b : Z) : bool :=
  let d := (a - b) mod modulus in (2 * d <? modulus) || ((2 * d =? modulus) && (b <? a)).

Lemma AheadOrAt_spec a b : 0 <= a < modulus -> 0 <= b < modulus -> AheadOrAt a b = Ok (ahead_or_at a b).
Proof.
  intros Ha Hb. unfold AheadOrAt, ahead_or_at, MinDiff.
  rewrite !ForwardDiff_spec, ReverseDiff_spec by done. cbn [mbind res_bind].
  rewrite !diff_mod by done. unfold promoted_minus, kBackwardAdjustment, modulus in *.
  destruct (Z.eqb_spec M 0) as [->|H0]; cbn [mbind res_bind].
  - assert (2 ^ w = 2 * 2 ^ (w - 1)) as Ew by (rewrite <- Z.pow_succ_r by lia; f_equal; lia).
    assert (0 < 2 ^ (w - 1)) as Hp by (apply Z.pow_pos_nonneg; lia).
    replace ((2 ^ w - 1) / 2 + 1) with (2 ^ (w - 1))
      by (rewrite Ew, <- (Z.div_unique (2 * 2 ^ (w - 1) - 1) 2 (2 ^ (w - 1) - 1) 1); lia).
    assert ((if w <? 32 then a - b else wrapU w (a - b)) = a - b \/
            (if w <? 32 then a - b else wrapU w (a - b)) = (if b <=? a then a - b else 2 ^ w - (b - a))) as Hm
      by (destruct (w <? 32); [by left|right]; unfold wrapU; by apply diff_mod).
    revert Hm. generalize (if w <? 32 then a - b else wrapU w (a - b)). intros d Hm.
    destruct (Z.eqb_spec d (2 ^ (w - 1))); f_equal;
      destruct (Z.leb_spec b a); repeat (case_match || bool_prop); try lia;
      repeat match goal with |- context [?x <? ?y] => destruct (Z.ltb_spec x y) 
             | |- context [?x =? ?y] => destruct (Z.eqb_spec x y) end; try lia; done.
  - assert (M = 2 * (M / 2) + M mod 2 /\ 0 <= M mod 2 < 2) as [EM HM2]
      by (split; [apply Z.div_mod; lia|apply Z.mod_pos_bound; lia]).
    assert (Z.land M 1 = M mod 2) as -> by (change 1 with (Z.ones 1); by rewrite Z.land_ones).
    destruct (Z.eqb_spec (M mod 2) 0) as [He|Ho]; cbn [mbind res_bind];
      [destruct (Z.eqb_spec (Z.min (if a <=? b then b - a else M - (a - b)) (if b <=? a then a - b else M - (b - a))) (M / 2))|];
      f_equal; destruct (Z.leb_spec b a), (Z.leb_spec a b); try lia;
      repeat match goal with |- context [?x <? ?y] => destruct (Z.ltb_spec x y)
             | |- context [?x <=? ?y] => destruct (Z.leb_spec x y)
             | |- context [?x =? ?y] => destruct (Z.eqb_spec x y) end; try lia; done.
Qed.

(** The distance between two numbers is what their residues show. *)
Lemma residues_diff x y : (x mod modulus - y mod modulus) mod modulus = (x - y) mod modulus.
Proof. symmetry. apply Zminus_mod. Qed.

Lemma residue_range x : 0 <= x mod modulus < modulus.
Proof. apply Z.mod_pos_bound. pose proof modulus_bounds. lia. Qed.

Lemma near_mod x y : 2 * Z.abs (x - y) < modulus ->
  (x - y) mod modulus = if y <=? x then x - y else x - y + modulus.
Proof.
  intros H. destruct (Z.leb_spec y x); [apply Z.mod_small; lia|].
  rewrite <- (Z_mod_plus_full (x - y) 1 modulus), Z.mod_small; lia.
Qed.

Lemma ahead_or_at_near x y : 2 * Z.abs (x - y) < modulus ->
  ahead_or_at (x mod modulus) (y mod modulus) = (y <=? x).
Proof.
  intros H. unfold ahead_or_at. rewrite residues_diff, near_mod by done. destruct (Z.leb_spec y x) as [Hle|Hlt].
  - by destruct (Z.ltb_spec (2 * (x - y)) modulus); [|lia].
  - destruct (Z.ltb_spec (2 * (x - y + modulus)) modulus); [lia|].
    by destruct (Z.eqb_spec (2 * (x - y + modulus)) modulus); [lia|].
Qed.

(** The move from [last] to [x] stays within [int64_t]; a move backwards first adds the
    forward difference, and so passes the number one turn above [x]. *)
Definition move_fits (last x : Z) : Prop :=
  - 2 ^ 63 <= x < 2 ^ 63 /\ (x < last -> x + modulus < 2 ^ 63).

#[local] Instance move_fits_dec last x : Decision (move_fits last x).
Proof. unfold move_fits. apply _. Defined.

Lemma Unwrap_near x last : 2 * Z.abs (x - last) < modulus ->
  Unwrap (mkUnwrapper last (Some (last mod modulus))) (x mod modulus) =
    if decide (move_fits last x) then Ok (x, mkUnwrapper x (Some (x mod modulus))) else Undef.
Proof.
  intros Hn. pose proof modulus_bounds as Hm. unfold Unwrap. cbn [last_value_ last_unwrapped_].
  rewrite ForwardDiff_spec, AheadOrAt_spec by apply residue_range.
  cbn [mbind res_bind]. rewrite residues_diff, near_mod, ahead_or_at_near by done.
  assert (kBackwardAdjustment = modulus) as -> by (unfold kBackwardAdjustment, modulus; case_match; lia).
  unfold arith, in_s. destruct (Z.leb_spec last x).
  - replace (last + (x - last)) with x by lia.
    destruct (decide (move_fits last x)) as [Hf|Hf]; unfold move_fits in Hf.
    + by rewrite bool_decide_eq_true_2 by lia.
    + rewrite bool_decide_eq_false_2; [done|]. intros Hx. apply Hf. lia.
  - replace (last + (x - last + modulus)) with (x + modulus) by lia.
    destruct (decide (move_fits last x)) as [Hf|Hf]; unfold move_fits in Hf.
    + rewrite (bool_decide_eq_true_2 (- _ <= x + modulus < _)) by lia. cbn [mbind res_bind].
      rewrite Z.add_simpl_r. by rewrite bool_decide_eq_true_2 by lia.
    + destruct (decide (- 2 ^ (64 - 1) <= x + modulus < 2 ^ (64 - 1))); [|by rewrite bool_decide_eq_false_2].
      rewrite (bool_decide_eq_true_2 (- _ <= x + modulus < _)) by done. cbn [mbind res_bind].
      rewrite Z.add_simpl_r, bool_decide_eq_false_2; [done|]. intros Hx. apply Hf. lia.
Qed.

(** Consecutive numbers less than half a turn apart. *)
Fixpoint steady (last : Z) (xs : list Z) : Prop :=
  match xs with [] => True | x :: xs => 2 * Z.abs (x - last) < modulus /\ steady x xs end.

(** Every move of the sequence stays within [int64_t]. *)
Fixpoint moves_fit (last : Z) (xs : list Z) : Prop :=
  match xs with [] => True | x :: xs => move_fits last x /\ moves_fit x xs end.

Lemma Unwrap_all_near last xs : steady last xs ->
  (moves_fit last xs -> Unwrap_all (mkUnwrapper last (Some (last mod modulus))) (map (fun x => x mod modulus) xs) = Ok xs) /\
  (~ moves_fit last xs -> Unwrap_all (mkUnwrapper last (Some (last mod modulus))) (map (fun x => x mod modulus) xs) = Undef).
Proof.
  revert last. induction xs as [|x xs IH]; intros last Hs; cbn [map Unwrap_all moves_fit]; [done|].
  destruct Hs as (Hn & Hs). rewrite Unwrap_near by done. destruct (IH x Hs) as [IH1 IH2].
  destruct (decide (move_fits last x)) as [Hf|Hf]; cbn [mbind res_bind].
  - split; intros H; [rewrite IH1 by naive_solver; done|]. rewrite IH2 by naive_solver. done.
  - split; [naive_solver|done].
Qed.

(** C38: unwrapping inverts wrapping: for every width up to 32 bits and every modulus, a
    sequence that starts in range and moves by less than half a turn at a time, forwards
    or backwards, is recovered from its residues alone as long as it stays within int64_t
    (and, where it moves backwards, the number one turn above does too); with the first
    move beyond that a signed overflow makes the call undefined. *)
Theorem Unwrap_recovers x xs : 0 <= x < modulus -> steady x xs ->
  (moves_fit x xs ->
     Unwrap_all SeqNumUnwrapper_new (map (fun y => y mod modulus) (x :: xs)) = Ok (x :: xs)) /\
  (~ moves_fit x xs ->
     Unwrap_all SeqNumUnwrapper_new (map (fun y => y mod modulus) (x :: xs)) = Undef).
Proof.
  intros Hx Hs. pose proof modulus_bounds as Hm. cbn [map Unwrap_all].
  unfold Unwrap at 1 2. cbn [last_value_ SeqNumUnwrapper_new mbind res_bind].
  pose proof (Unwrap_all_near x xs Hs) as [H1 H2].
  rewrite (Z.mod_small x modulus) in H1, H2 |- * by done.
  split; intros H; [by rewrite H1|by rewrite H2].
Qed.

(** The comparison of sequence numbers is a total and consistent one: of two different
    numbers exactly one is ahead, a number is never ahead of itself, and as long as the
    true numbers are less than half a turn apart, [AheadOf] of the residues says which
    of them is larger (so the comparators sort such a window). *)
Theorem AheadOf_orders a b x y :
  0 <= a < modulus -> 0 <= b < modulus -> a <> b -> 2 * Z.abs (x - y) < modulus ->
  (exists c, AheadOf a b = Ok c /\ AheadOf b a = Ok (negb c)) /\ AheadOf a a = Ok false /\
  AheadOf (x mod modulus) (y mod modulus) = Ok (y <? x) /\
  AscendingSeqNumComp (x mod modulus) (y mod modulus) = Ok (y <? x) /\
  DescendingSeqNumComp (x mod modulus) (y mod modulus) = Ok (x <? y).
Proof.
  intros Ha Hb Hab Hn. unfold AscendingSeqNumComp, DescendingSeqNumComp.
  assert (forall u v, 2 * Z.abs (u - v) < modulus ->
    AheadOf (u mod modulus) (v mod modulus) = Ok (v <? u)) as Hord.
  { intros u v Huv. unfold AheadOf. rewrite AheadOrAt_spec, ahead_or_at_near by (done || apply residue_range).
    pose proof (residues_diff u v) as Hd. rewrite (near_mod u v) in Hd by done.
    destruct (Z.eqb_spec (u mod modulus) (v mod modulus)) as [E|E].
    - rewrite E, Z.sub_diag, Z.mod_0_l in Hd by (pose proof modulus_bounds; lia).
      destruct (Z.leb_spec v u); destruct (Z.ltb_spec v u); try lia; done.
    - destruct (Z.eq_dec u v) as [->|]; [done|].
      destruct (Z.leb_spec v u), (Z.ltb_spec v u); try lia; done. }
  split_and!; [|unfold AheadOf; by rewrite Z.eqb_refl|by apply Hord..|apply Hord; lia].
  exists (ahead_or_at a b). unfold AheadOf. rewrite !AheadOrAt_spec by done.
  rewrite (proj2 (Z.eqb_neq a b)), (proj2 (Z.eqb_neq b a)) by done. split; [done|]. f_equal.
  unfold ahead_or_at. rewrite !diff_mod by done.
  destruct (Z.leb_spec a b), (Z.leb_spec b a); try lia;
    repeat match goal with |- context [?x <? ?y] => destruct (Z.ltb_spec x y)
           | |- context [?x =? ?y] => destruct (Z.eqb_spec x y) end; try lia; done.
Qed.

End Wrapping.

(** Addition and subtraction modulo [M] on 64-bit words give the mathematical residue,
    although the intermediate difference wraps around. *)
Theorem mod_ops_residue M a b : 0 < M < 2 ^ 64 -> 0 <= a < M -> in_u 64 b ->
  mod_Add M a b = Ok ((a + b) mod M) /\ mod_Subtract M a b = Ok ((a - b) mod M).
Proof.
  intros HM Ha Hb. unfold mod_Add, mod_Subtract. destruct (Z.ltb_spec a M); [|lia]. cbn [assert_ mbind res_bind].
  pose proof (Z.mod_pos_bound b M ltac:(lia)) as Hr. rewrite <- (Z.add_mod_idemp_r a b M), <- (Zminus_mod_idemp_r a b M) by lia.
  revert Hr. generalize (b mod M). intros r Hr. split; f_equal.
  - unfold wrapU. destruct (Z.ltb_spec a (M - r)).
    + rewrite Zplus_mod_idemp_l, !Z.mod_small; lia.
    + rewrite Z.mod_small by lia. rewrite <- (Z_mod_plus_full (a + r) (-1) M), Z.mod_small; lia.
  - destruct (Z.ltb_spec a r).
    + rewrite <- (Z_mod_plus_full (a - r) 1 M), Z.mod_small; lia.
    + rewrite Z.mod_small; lia.
Qed.

Lemma mod_ops_residue_witness : mod_Add (2 ^ 64 - 1) 5 (2 ^ 64 - 1) = Ok 5 /\ mod_Subtract 10 3 17 = Ok 6.
Proof.
  split.
  - exact (proj1 (mod_ops_residue (2 ^ 64 - 1) 5 (2 ^ 64 - 1) ltac:(lia) ltac:(lia) ltac:(unfold in_u; lia))).
  - exact (proj2 (mod_ops_residue 10 3 17 ltac:(lia) ltac:(lia) ltac:(unfold in_u; lia))).
Defined.

Lemma Unwrap_recovers_witness :
  Unwrap_all 16 0 SeqNumUnwrapper_new [65535; 1; 65534] = Ok [65535; 65537; 65534].
Proof.
  refine (proj1 (Unwrap_recovers 16 0 ltac:(lia) ltac:(lia) 65535 [65537; 65534] _ _) _); vm_compute; done.
Defined.

Lemma AheadOf_orders_witness : AheadOf 8 0 1 255 = Ok true /\ AheadOf 8 100 7 3 = Ok true.
Proof.
  split.
  - refine (proj1 (proj2 (proj2 (AheadOf_orders 8 0 ltac:(lia) ltac:(lia) 1 2 257 255 _ _ _ _)))); vm_compute; done.
  - refine (proj1 (proj2 (proj2 (AheadOf_orders 8 100 ltac:(lia) ltac:(lia) 1 2 107 103 _ _ _ _)))); vm_compute; done.
Defined.
