(* ===== verification/ByteIO.v ===== *)
(** * Integers as bytes

    [ByteReader] and [ByteWriter] of [modules/rtp_rtcp/source/byte_io.h] of
    [include/webrtc].  The template arguments are [n], the size of [T] in bytes, and [B],
    the number of bytes; memory is a list of bytes, an access past its end undefined.
    The specializations for one, two, four and eight bytes are definitions of their own,
    proved equal to the generic loops. *)

From S2P Require Import Prelude.
From S2P Require Import CppString.
From S2P Require Import Buffer.
From S2P Require Import ByteOrder.

(** [data[i]], read and written. *)
Definition get (data : str) (i : nat) : res Z :=
  match data !! i with Some c => Ok (code c) | None => Undef end.
Definition put (data : str) (i : nat) (v : Z) : res str :=
  if bool_decide (i < length data)%nat then Ok (<[i:=chr v]> data) else Undef.

Section ByteIO.
Context (n : nat).

(** [static_cast<T>(b) << k]. *)
Definition shl (b k : Z) : Z := wrapU (8 * Z.of_nat n) (Z.shiftl b k).

(** The loops of [InternalReadBigEndian] and [InternalReadLittleEndian], over the
    remaining indices. *)
Fixpoint read_loop (shift : nat -> Z) (data : str) (indices : list nat) (val : Z) : res Z :=
  match indices with
  | [] => Ok val
  | i :: indices => b ← get data i; read_loop shift data indices (Z.lor val (shl b (shift i)))
  end.

Definition be_shift (B i : nat) : Z := Z.of_nat ((B - 1 - i) * 8).
Definition le_shift (i : nat) : Z := Z.of_nat (i * 8).

Definition InternalReadBigEndian (B : nat) (data : str) : res Z := read_loop (be_shift B) data (seq 0 B) 0.
Definition InternalReadLittleEndian (B : nat) (data : str) : res Z := read_loop le_shift data (seq 0 B) 0.

Fixpoint write_loop (shift : nat -> Z) (val : Z) (indices : list nat) (data : str) : res str :=
  match indices with
  | [] => Ok data
  | i :: indices => data ← put data i (Z.shiftr val (shift i)); write_loop shift val indices data
  end.

Definition WriteBigEndian_generic (B : nat) (data : str) (val : Z) : res str :=
  write_loop (be_shift B) val (seq 0 B) data.
Definition WriteLittleEndian_generic (B : nat) (data : str) (val : Z) : res str :=
  write_loop le_shift val (seq 0 B) data.

(** ** The specializations *)
Definition Read1 (data : str) : res Z := get data 0.
Definition Write1 (data : str) (val : Z) : res str := put data 0 val.

(** Two bytes are shifted as [int]s. *)
Definition Read2BigEndian (data : str) : res Z :=
  d0 ← get data 0; d1 ← get data 1; Ok (Z.lor (Z.shiftl d0 8) d1).
Definition Read2LittleEndian (data : str) : res Z :=
  d0 ← get data 0; d1 ← get data 1; Ok (Z.lor d0 (Z.shiftl d1 8)).
Definition Write2BigEndian (data : str) (val : Z) : res str :=
  data ← put data 0 (Z.shiftr val 8); put data 1 val.
Definition Write2LittleEndian (data : str) (val : Z) : res str :=
  data ← put data 0 val; put data 1 (Z.shiftr val 8).

Definition Read4BigEndian (data : str) : res Z :=
  d0 ← get data 0; d1 ← get data 1; d2 ← get data 2; d3 ← get data 3;
  Ok (Z.lor (Z.lor (Z.lor (shl d0 24) (shl d1 16)) (shl d2 8)) d3).
Definition Read4LittleEndian (data : str) : res Z :=
  d0 ← get data 0; d1 ← get data 1; d2 ← get data 2; d3 ← get data 3;
  Ok (Z.lor (Z.lor (Z.lor d0 (shl d1 8)) (shl d2 16)) (shl d3 24)).
Definition Write4BigEndian (data : str) (val : Z) : res str :=
  data ← put data 0 (Z.shiftr val 24); data ← put data 1 (Z.shiftr val 16);
  data ← put data 2 (Z.shiftr val 8); put data 3 val.
Definition Write4LittleEndian (data : str) (val : Z) : res str :=
  data ← put data 0 val; data ← put data 1 (Z.shiftr val 8);
  data ← put data 2 (Z.shiftr val 16); put data 3 (Z.shiftr val 24).

Definition Read8BigEndian (data : str) : res Z :=
  d0 ← get data 0; d1 ← get data 1; d2 ← get data 2; d3 ← get data 3;
  d4 ← get data 4; d5 ← get data 5; d6 ← get data 6; d7 ← get data 7;
  Ok (Z.lor (Z.lor (Z.lor (Z.lor (Z.lor (Z.lor (Z.lor (shl d0 56) (shl d1 48)) (shl d2 40)) (shl d3 32))
    (shl d4 24)) (shl d5 16)) (shl d6 8)) d7).
Definition Read8LittleEndian (data : str) : res Z :=
  d0 ← get data 0; d1 ← get data 1; d2 ← get data 2; d3 ← get data 3;
  d4 ← get data 4; d5 ← get data 5; d6 ← get data 6; d7 ← get data 7;
  Ok (Z.lor (Z.lor (Z.lor (Z.lor (Z.lor (Z.lor (Z.lor d0 (shl d1 8)) (shl d2 16)) (shl d3 24))
    (shl d4 32)) (shl d5 40)) (shl d6 48)) (shl d7 56)).
Definition Write8BigEndian (data : str) (val : Z) : res str :=
  data ← put data 0 (Z.shiftr val 56); data ← put data 1 (Z.shiftr val 48);
  data ← put data 2 (Z.shiftr val 40); data ← put data 3 (Z.shiftr val 32);
  data ← put data 4 (Z.shiftr val 24); data ← put data 5 (Z.shiftr val 16);
  data ← put data 6 (Z.shiftr val 8); put data 7 val.
Definition Write8LittleEndian (data : str) (val : Z) : res str :=
  data ← put data 0 val; data ← put data 1 (Z.shiftr val 8);
  data ← put data 2 (Z.shiftr val 16); data ← put data 3 (Z.shiftr val 24);
  data ← put data 4 (Z.shiftr val 32); data ← put data 5 (Z.shiftr val 40);
  data ← put data 6 (Z.shiftr val 48); put data 7 (Z.shiftr val 56).

(** ** Unsigned types: the specialization that applies, or the loop

    The static assertions admit [B <= n], and [B = 1] with [n = 1] only.  At [B = 1] with a
    wider type, which the class refuses to compile, the definitions below stand for no code;
    they give the single byte there, so that the theorems need not single the case out. *)
Definition ReadBigEndian (B : nat) (data : str) : res Z :=
  match B with
  | 1%nat => Read1 data | 2%nat => Read2BigEndian data | 4%nat => Read4BigEndian data
  | 8%nat => Read8BigEndian data | _ => InternalReadBigEndian B data
  end.
Definition ReadLittleEndian (B : nat) (data : str) : res Z :=
  match B with
  | 1%nat => Read1 data | 2%nat => Read2LittleEndian data | 4%nat => Read4LittleEndian data
  | 8%nat => Read8LittleEndian data | _ => InternalReadLittleEndian B data
  end.
Definition WriteBigEndian (B : nat) (data : str) (val : Z) : res str :=
  match B with
  | 1%nat => Write1 data val | 2%nat => Write2BigEndian data val | 4%nat => Write4BigEndian data val
  | 8%nat => Write8BigEndian data val | _ => WriteBigEndian_generic B data val
  end.
Definition WriteLittleEndian (B : nat) (data : str) (val : Z) : res str :=
  match B with
  | 1%nat => Write1 data val | 2%nat => Write2LittleEndian data val | 4%nat => Write4LittleEndian data val
  | 8%nat => Write8LittleEndian data val | _ => WriteLittleEndian_generic B data val
  end.

(** ** Signed types

    The bits are read as [T] and kept as the unsigned type of its size. *)
Definition ReinterpretAsSigned (unsigned_val : Z) : Z :=
  let mask := Z.shiftl 1 (8 * Z.of_nat n - 1) in
  if negb (Z.land unsigned_val mask =? 0)
  then Z.lor (Z.land unsigned_val (Z.lnot mask)) (- 2 ^ (8 * Z.of_nat n - 1))
  else unsigned_val.

(** The mask is computed with the [int] literal 1: a shift by its width or more is
    undefined. *)
Definition SignExtend (B : nat) (val : Z) : res Z :=
  let kMsb := u8 (Z.shiftr val (Z.of_nat ((B - 1) * 8))) in
  if negb (Z.land kMsb 128 =? 0) then
    let k := Z.of_nat (B mod n * 8) in
    _ ← defined (k <? 32);
    let kUsedBitsMask := wrapU (8 * Z.of_nat n) (i32 (Z.shiftl 1 k) - 1) in
    Ok (Z.lor (wrapU (8 * Z.of_nat n) (Z.lnot kUsedBitsMask)) val)
  else Ok val.

Definition signed_of (B : nat) (unsigned_val : Z) : res Z :=
  v ← (if bool_decide (B < n)%nat then SignExtend B unsigned_val else Ok unsigned_val);
  Ok (ReinterpretAsSigned v).

Definition ReadBigEndian_signed (B : nat) (data : str) : res Z := v ← ReadBigEndian B data; signed_of B v.
Definition ReadLittleEndian_signed (B : nat) (data : str) : res Z := v ← ReadLittleEndian B data; signed_of B v.

Definition ReinterpretAsUnsigned (val : Z) : Z := wrapU (8 * Z.of_nat n) val.
Definition WriteBigEndian_signed (B : nat) (data : str) (val : Z) : res str :=
  WriteBigEndian B data (ReinterpretAsUnsigned val).
Definition WriteLittleEndian_signed (B : nat) (data : str) (val : Z) : res str :=
  WriteLittleEndian B data (ReinterpretAsUnsigned val).
(** ** The loops *)
Lemma read_le_loop data m i val : (i + m <= n)%nat -> (i + m <= length data)%nat ->
  0 <= val < 256 ^ Z.of_nat i ->
  read_loop le_shift data (seq i m) val = Ok (val + 256 ^ Z.of_nat i * le_value (take m (drop i data))).
Proof.
  revert i val. induction m as [|m IH]; intros i val Hn Hl Hv; cbn [seq read_loop].
  { rewrite take_0. cbn. f_equal. lia. }
  destruct (lookup_lt_is_Some_2 data i ltac:(lia)) as [c Ec]. unfold get at 1. rewrite Ec. cbn [mbind res_bind].
  pose proof (code_range c) as Hc. rewrite (drop_S _ _ _ Ec). cbn [take le_value].
  assert (256 ^ Z.of_nat i = 2 ^ le_shift i) as E256
    by (unfold le_shift; rewrite Nat2Z.inj_mul, Z.mul_comm, Z.pow_mul_r by lia; done).
  assert (0 < 256 ^ Z.of_nat i) by (apply Z.pow_pos_nonneg; lia).
  assert (shl (code c) (le_shift i) = code c * 256 ^ Z.of_nat i) as Es.
  { unfold shl. rewrite Z.shiftl_mul_pow2, <- E256 by (unfold le_shift; lia). apply wrapU_id. unfold in_u.
    assert (256 ^ Z.of_nat (S i) <= 2 ^ (8 * Z.of_nat n)).
    { rewrite Z.pow_mul_r by lia. change (2 ^ 8) with 256. apply Z.pow_le_mono_r; lia. }
    rewrite Nat2Z.inj_succ, Z.pow_succ_r in * by lia. nia. }
  assert (Z.lor val (shl (code c) (le_shift i)) = val + code c * 256 ^ Z.of_nat i) as ->.
  { rewrite Es, E256, <- Z.shiftl_mul_pow2 by (unfold le_shift; lia).
    rewrite lor_shiftl by (rewrite <- ?E256; unfold le_shift; lia). rewrite Z.shiftl_mul_pow2, <- E256 by (unfold le_shift; lia). lia. }
  rewrite IH; [f_equal|lia|lia|]; rewrite ?Nat2Z.inj_succ, ?Z.pow_succ_r by lia; nia.
Qed.

Lemma be_value_cons c s : be_value (c :: s) = code c * 256 ^ Z.of_nat (length s) + be_value s.
Proof.
  unfold be_value. rewrite reverse_cons. rewrite <- (length_reverse s). generalize (reverse s). intros l.
  induction l as [|d l IH]; cbn [le_value app length]; [lia|].
  rewrite IH, Nat2Z.inj_succ, Z.pow_succ_r by lia. lia.
Qed.

Lemma read_be_loop data B m i V : (i + m = B)%nat -> (B <= n)%nat -> (B <= length data)%nat ->
  0 <= V -> V * 256 ^ Z.of_nat m < 2 ^ (8 * Z.of_nat n) ->
  read_loop (be_shift B) data (seq i m) (V * 256 ^ Z.of_nat m) =
    Ok (V * 256 ^ Z.of_nat m + be_value (take m (drop i data))).
Proof.
  revert i V. induction m as [|m IH]; intros i V HB Hn Hl HV Hb; cbn [seq read_loop].
  { rewrite take_0. cbn. f_equal. lia. }
  destruct (lookup_lt_is_Some_2 data i ltac:(lia)) as [c Ec]. unfold get at 1. rewrite Ec. cbn [mbind res_bind].
  pose proof (code_range c) as Hc. rewrite (drop_S _ _ _ Ec). cbn [take].
  rewrite be_value_cons, length_take, length_drop, Nat.min_l by lia.
  assert (256 ^ Z.of_nat m = 2 ^ be_shift B i) as E256.
  { unfold be_shift. replace ((B - 1 - i) * 8)%nat with (m * 8)%nat by lia.
    rewrite Nat2Z.inj_mul, Z.mul_comm, Z.pow_mul_r by lia; done. }
  assert (0 < 256 ^ Z.of_nat m) by (apply Z.pow_pos_nonneg; lia).
  assert (256 ^ Z.of_nat (S m) <= 2 ^ (8 * Z.of_nat n)) as Hle
    by (rewrite (Z.pow_mul_r 2 8) by lia; change (2 ^ 8) with 256; apply Z.pow_le_mono_r; lia).
  rewrite Nat2Z.inj_succ, Z.pow_succ_r in * by lia.
  assert (shl (code c) (be_shift B i) = Z.shiftl (code c) (be_shift B i)) as ->.
  { unfold shl. apply wrapU_id. unfold in_u. rewrite Z.shiftl_mul_pow2, <- E256 by (unfold be_shift; lia). nia. }
  assert (Z.lor (V * (256 * 256 ^ Z.of_nat m)) (Z.shiftl (code c) (be_shift B i)) =
          (V * 256 + code c) * 256 ^ Z.of_nat m) as ->.
  { replace (V * (256 * 256 ^ Z.of_nat m)) with (Z.shiftl (Z.shiftl V 8) (be_shift B i))
      by (rewrite !Z.shiftl_mul_pow2, <- E256 by (unfold be_shift; lia); lia).
    rewrite <- Z.shiftl_lor, Z.lor_comm, lor_shiftl by lia.
    rewrite Z.shiftl_mul_pow2, <- E256 by (unfold be_shift; lia). lia. }
  assert ((V * 256 + code c) * 256 ^ Z.of_nat m < 2 ^ (8 * Z.of_nat n)) as Hfit.
  { assert (2 ^ (8 * Z.of_nat n) = 256 ^ Z.of_nat (n - S m) * (256 * 256 ^ Z.of_nat m)) as E.
    { rewrite <- Z.pow_succ_r, <- Z.pow_add_r, Z.pow_mul_r by lia. change (2 ^ 8) with 256. f_equal. lia. }
    rewrite E in *. assert (V < 256 ^ Z.of_nat (n - S m)) by nia. nia. }
  rewrite IH by (try done; lia). f_equal. lia.
Qed.

Lemma write_loop_spec shift val data m i : (i + m <= length data)%nat ->
  write_loop shift val (seq i m) data =
    Ok (take i data ++ map (fun j => chr (Z.shiftr val (shift j))) (seq i m) ++ drop (i + m) data).
Proof.
  revert i data. induction m as [|m IH]; intros i data Hl; cbn [seq write_loop map].
  { cbn. by rewrite Nat.add_0_r, take_drop. }
  unfold put. rewrite bool_decide_eq_true_2 by lia. cbn [mbind res_bind].
  rewrite IH by (rewrite length_insert; lia). f_equal.
  rewrite (take_S_r _ _ (chr (Z.shiftr val (shift i)))) by (apply list_lookup_insert_eq; lia).
  rewrite take_insert_ge, drop_insert_lt by lia. rewrite <- app_assoc. cbn. by rewrite Nat.add_succ_r.
Qed.

Lemma le_bytes_map m k val :
  le_bytes m (Z.shiftr val (Z.of_nat (k * 8))) = map (fun j => chr (Z.shiftr val (le_shift j))) (seq k m).
Proof.
  revert k. induction m as [|m IH]; intros k; cbn [le_bytes seq map]; [done|]. f_equal.
  rewrite <- IH. f_equal. change 256 with (2 ^ 8). rewrite <- Z.shiftr_div_pow2, Z.shiftr_shiftr by lia. f_equal. lia.
Qed.

Lemma be_bytes_map B val :
  be_bytes B val = map (fun j => chr (Z.shiftr val (be_shift B j))) (seq 0 B).
Proof.
  unfold be_bytes. pose proof (le_bytes_map B 0 val) as H. cbn in H. rewrite Z.shiftr_0_r in H. rewrite H.
  apply list_eq. intros i. destruct (decide (i < B)%nat) as [Hi|Hi].
  - rewrite reverse_lookup by (rewrite length_map, length_seq; lia). rewrite length_map, length_seq.
    rewrite !list_lookup_fmap, !lookup_seq_lt by lia. cbn. do 3 f_equal. unfold le_shift, be_shift. lia.
  - rewrite !lookup_ge_None_2; [done|rewrite length_map, length_seq; lia|].
    rewrite length_reverse, length_map, length_seq. lia.
Qed.
(** ** The specializations are the loops, unrolled *)
Lemma get_range data i b : get data i = Ok b -> 0 <= b < 256.
Proof. unfold get. destruct (data !! i); [|done]. intros [= <-]. apply code_range. Qed.

Lemma width_256 : (1 <= n)%nat -> 256 <= 2 ^ (8 * Z.of_nat n).
Proof. intros H. change 256 with (2 ^ 8). apply Z.pow_le_mono_r; lia. Qed.

Lemma shl_0 b : (1 <= n)%nat -> 0 <= b < 256 -> shl b 0 = b.
Proof.
  intros Hn Hb. unfold shl. rewrite Z.shiftl_0_r. apply wrapU_id. pose proof (width_256 Hn). unfold in_u. lia.
Qed.

Lemma shl_8 b : (2 <= n)%nat -> 0 <= b < 256 -> shl b 8 = Z.shiftl b 8.
Proof.
  intros Hn Hb. unfold shl. apply wrapU_id. rewrite Z.shiftl_mul_pow2 by lia.
  assert (2 ^ 16 <= 2 ^ (8 * Z.of_nat n)) by (apply Z.pow_le_mono_r; lia). unfold in_u. lia.
Qed.

Ltac unroll :=
  repeat match goal with
  | |- context [get ?d ?i] =>
      let b := fresh "b" in let E := fresh "E" in
      destruct (get d i) as [b| | |] eqn:E; cbn [mbind res_bind]; [apply get_range in E|reflexivity..]
  end.

Lemma Read_unrolled B data : (B <= n)%nat ->
  ReadBigEndian B data = InternalReadBigEndian B data /\
  ReadLittleEndian B data = InternalReadLittleEndian B data.
Proof.
  intros Hn. unfold ReadBigEndian, ReadLittleEndian, InternalReadBigEndian, InternalReadLittleEndian.
  destruct B as [|[|[|[|[|[|[|[|[|B]]]]]]]]]; try done; cbn [seq read_loop];
    unfold be_shift, le_shift, Read1, Read2BigEndian, Read2LittleEndian, Read4BigEndian, Read4LittleEndian,
      Read8BigEndian, Read8LittleEndian; cbn [Nat.sub Nat.mul Nat.add Z.of_nat Pos.of_succ_nat Pos.succ];
    split; unroll; rewrite ?Z.lor_0_l, ?shl_0, ?shl_8 by lia; done.
Qed.

Lemma Write_unrolled B data val :
  WriteBigEndian B data val = WriteBigEndian_generic B data val /\
  WriteLittleEndian B data val = WriteLittleEndian_generic B data val.
Proof.
  unfold WriteBigEndian, WriteLittleEndian, WriteBigEndian_generic, WriteLittleEndian_generic.
  destruct B as [|[|[|[|[|[|[|[|[|B]]]]]]]]]; try done; cbn [seq write_loop];
    unfold be_shift, le_shift, Write1, Write2BigEndian, Write2LittleEndian, Write4BigEndian, Write4LittleEndian,
      Write8BigEndian, Write8LittleEndian;
    repeat match goal with |- context [Z.of_nat ?k] => let z := eval vm_compute in (Z.of_nat k) in change (Z.of_nat k) with z end;
    rewrite ?Z.shiftr_0_r; split;
    repeat (match goal with |- context [put ?d ?i ?v] => destruct (put d i v); cbn [mbind res_bind] end); done.
Qed.

(** What the accessors compute. *)
Lemma Read_value B data : (B <= n)%nat -> (B <= length data)%nat ->
  ReadBigEndian B data = Ok (be_value (take B data)) /\ ReadLittleEndian B data = Ok (le_value (take B data)).
Proof.
  intros Hn Hl. destruct (Read_unrolled B data Hn) as [-> ->]. split.
  - unfold InternalReadBigEndian. pose proof (read_be_loop data B B 0 0) as H. rewrite Z.mul_0_l in H.
    rewrite H by (try done; try lia; apply Z.pow_pos_nonneg; lia). done.
  - unfold InternalReadLittleEndian. rewrite read_le_loop by (cbn; lia). f_equal. rewrite drop_0. cbn [Z.of_nat]. lia.
Qed.

Lemma Write_bytes B data val : (B <= length data)%nat ->
  WriteBigEndian B data val = Ok (be_bytes B val ++ drop B data) /\
  WriteLittleEndian B data val = Ok (le_bytes B val ++ drop B data).
Proof.
  intros Hl. destruct (Write_unrolled B data val) as [-> ->].
  unfold WriteBigEndian_generic, WriteLittleEndian_generic. rewrite !write_loop_spec by lia.
  rewrite be_bytes_map. pose proof (le_bytes_map B 0 val) as H. cbn in H. rewrite Z.shiftr_0_r in H.
  by rewrite H, take_0.
Qed.

Lemma be_bytes_length B val : length (be_bytes B val) = B.
Proof. unfold be_bytes. by rewrite length_reverse, le_bytes_length. Qed.

Lemma Read_Write B data val : (B <= n)%nat -> (B <= length data)%nat ->
  (d ← WriteBigEndian B data val; ReadBigEndian B d) = Ok (val mod 256 ^ Z.of_nat B) /\
  (d ← WriteLittleEndian B data val; ReadLittleEndian B d) = Ok (val mod 256 ^ Z.of_nat B).
Proof.
  intros Hn Hl. destruct (Write_bytes B data val Hl) as [-> ->]. cbn [mbind res_bind]. split.
  - destruct (Read_value B (be_bytes B val ++ drop B data) Hn) as [-> _].
    { rewrite length_app, be_bytes_length. lia. }
    rewrite take_app_le, take_ge by (rewrite be_bytes_length; lia). f_equal. apply be_value_bytes.
  - destruct (Read_value B (le_bytes B val ++ drop B data) Hn) as [_ ->].
    { rewrite length_app, le_bytes_length. lia. }
    rewrite take_app_le, take_ge by (rewrite le_bytes_length; lia). f_equal. apply le_value_bytes.
Qed.
(** ** Signs *)
Lemma land_top x k : 0 <= k -> 0 <= x < 2 ^ (k + 1) -> (Z.land x (2 ^ k) =? 0) = (x <? 2 ^ k).
Proof.
  intros Hk Hx. pose proof (testbit_top x k Hk Hx) as Ht.
  assert (forall i, 0 <= i -> Z.testbit (Z.land x (2 ^ k)) i = Z.testbit x k && (i =? k)) as Hb.
  { intros i Hi. rewrite Z.land_spec, Z.pow2_bits_eqb by done.
    destruct (Z.eqb_spec k i) as [->|]; [by rewrite Z.eqb_refl|].
    rewrite (proj2 (Z.eqb_neq i k)) by done. by rewrite !andb_false_r. }
  destruct (Z.ltb_spec x (2 ^ k)) as [Hlt|Hge].
  - apply Z.eqb_eq, Z.bits_inj'. intros i Hi. rewrite Hb, Ht, Z.bits_0 by done.
    by destruct (Z.leb_spec (2 ^ k) x); [lia|].
  - apply Z.eqb_neq. intros E. specialize (Hb k Hk). rewrite E, Z.bits_0, Ht, Z.eqb_refl in Hb.
    by destruct (Z.leb_spec (2 ^ k) x); [|lia].
Qed.

Lemma wrapS_of_u k v : 0 < k -> in_u k v -> wrapS k v = if v <? 2 ^ (k - 1) then v else v - 2 ^ k.
Proof.
  intros Hk Hv. unfold wrapS, in_u in *. assert (2 ^ k = 2 * 2 ^ (k - 1)) as E
    by (rewrite <- Z.pow_succ_r by lia; f_equal; lia).
  assert (0 < 2 ^ (k - 1)) by (apply Z.pow_pos_nonneg; lia).
  destruct (Z.ltb_spec v (2 ^ (k - 1))); [rewrite Z.mod_small; lia|].
  rewrite <- (Z_mod_plus_full _ (-1)), Z.mod_small; lia.
Qed.

Lemma ReinterpretAsSigned_spec v : (1 <= n)%nat -> in_u (8 * Z.of_nat n) v ->
  ReinterpretAsSigned v = wrapS (8 * Z.of_nat n) v.
Proof.
  intros Hn Hv. rewrite wrapS_of_u by (done || lia). unfold ReinterpretAsSigned, in_u in *.
  set (k := 8 * Z.of_nat n - 1). assert (8 * Z.of_nat n = k + 1) as Ek by lia. rewrite Ek in Hv |- *.
  rewrite Z.shiftl_1_l, land_top by lia. replace (k + 1 - 1) with k by lia.
  assert (0 < 2 ^ k) as Hp by (apply Z.pow_pos_nonneg; lia). pose proof (Z.pow_add_r 2 k 1 ltac:(lia) ltac:(lia)) as E.
  destruct (Z.ltb_spec v (2 ^ k)) as [Hlt|Hge]; cbn [negb]; [done|].
  assert (Z.land v (Z.lnot (2 ^ k)) = v - 2 ^ k) as ->.
  { rewrite <- Z.ldiff_land.
    rewrite <- Z.sub_nocarry_ldiff; [done|]. apply Z.bits_inj'. intros i Hi.
    rewrite Z.ldiff_spec, Z.pow2_bits_eqb, Z.bits_0 by lia. destruct (Z.eqb_spec k i) as [<-|]; [|done].
    rewrite testbit_top by lia. by destruct (Z.leb_spec (2 ^ k) v); [|lia]. }
  replace (- 2 ^ k) with (Z.shiftl (-1) k) by (rewrite Z.shiftl_mul_pow2 by lia; lia).
  rewrite lor_shiftl by lia. lia.
Qed.

Lemma kMsb_test B v : (1 <= B)%nat -> in_u (8 * Z.of_nat B) v ->
  (Z.land (u8 (Z.shiftr v (Z.of_nat ((B - 1) * 8)))) 128 =? 0) = (v <? 2 ^ (8 * Z.of_nat B - 1)).
Proof.
  intros HB Hv. unfold in_u in Hv. set (k := Z.of_nat ((B - 1) * 8)).
  assert (8 * Z.of_nat B = k + 8) as Ek by lia. rewrite Ek in *. rewrite Z.pow_add_r in Hv by lia.
  assert (0 < 2 ^ k) as Hp by (apply Z.pow_pos_nonneg; lia).
  rewrite Z.shiftr_div_pow2 by lia.
  assert (0 <= v / 2 ^ k < 256) by (split; [apply Z.div_pos; lia|apply Z.div_lt_upper_bound; lia]).
  rewrite wrapU_id by (unfold in_u; lia).
  change 128 with (2 ^ 7). rewrite land_top by (cbn; lia). replace (k + 8 - 1) with (k + 7) by lia.
  rewrite Z.pow_add_r by lia.
  destruct (Z.ltb_spec (v / 2 ^ k) (2 ^ 7)) as [H1|H1], (Z.ltb_spec v (2 ^ k * 2 ^ 7)) as [H2|H2]; try done.
  - pose proof (Z.mul_succ_div_gt v (2 ^ k) Hp). nia.
  - apply Z.div_lt_upper_bound in H2; lia.
Qed.

Lemma SignExtend_spec B v : (1 <= B < n)%nat -> (B <= 3)%nat -> in_u (8 * Z.of_nat B) v ->
  exists u, SignExtend B v = Ok u /\ in_u (8 * Z.of_nat n) u /\ wrapS (8 * Z.of_nat n) u = wrapS (8 * Z.of_nat B) v.
Proof.
  intros HB HB3 Hv. unfold SignExtend. rewrite kMsb_test by (done || lia).
  set (b := 8 * Z.of_nat B) in *. set (k := 8 * Z.of_nat n). unfold in_u in *.
  assert (2 ^ k = 2 ^ (k - b) * 2 ^ b) as E by (rewrite <- Z.pow_add_r by lia; f_equal; lia).
  assert (2 ^ b <= 2 ^ (k - 1)) as Hle by (apply Z.pow_le_mono_r; lia).
  assert (2 ^ k = 2 * 2 ^ (k - 1)) as E2 by (rewrite <- Z.pow_succ_r by lia; f_equal; lia).
  assert (2 ^ b = 2 * 2 ^ (b - 1)) as E3 by (rewrite <- Z.pow_succ_r by lia; f_equal; lia).
  rewrite (wrapS_of_u b) by (unfold in_u; lia).
  destruct (Z.ltb_spec v (2 ^ (b - 1))) as [Hlt|Hge]; cbn [negb].
  - exists v. split; [done|]. split; [lia|]. rewrite wrapS_of_u by (unfold in_u; lia).
    by destruct (Z.ltb_spec v (2 ^ (k - 1))); [|lia].
  - rewrite Nat.mod_small by lia. replace (Z.of_nat (B * 8)) with b by lia.
    destruct (Z.ltb_spec b 32) as [_|]; [|lia]. cbn [defined mbind res_bind]. eexists. split; [reflexivity|].
    assert (2 ^ b <= 2 ^ 24) by (apply Z.pow_le_mono_r; lia).
    rewrite Z.shiftl_1_l, (wrapS_id 32) by (unfold in_s; lia).
    rewrite (wrapU_id k (2 ^ b - 1)) by (unfold in_u; lia).
    assert (wrapU k (Z.lnot (2 ^ b - 1)) = Z.shiftl (2 ^ (k - b) - 1) b) as ->.
    { rewrite Z.shiftl_mul_pow2 by lia. unfold wrapU, Z.lnot. rewrite <- (Z_mod_plus_full _ 1), Z.mod_small; lia. }
    rewrite Z.lor_comm, lor_shiftl by lia.
    assert (v + (2 ^ (k - b) - 1) * 2 ^ b = v + 2 ^ k - 2 ^ b) as -> by lia.
    split; [lia|]. rewrite wrapS_of_u by (unfold in_u; lia).
    destruct (Z.ltb_spec (v + 2 ^ k - 2 ^ b) (2 ^ (k - 1))) as [Hl|Hl]; [|lia].
    assert (2 * 2 ^ b <= 2 ^ k) by lia. nia.
Qed.

Lemma signed_of_spec B v : (1 <= B <= n)%nat -> B = n \/ (B <= 3)%nat -> in_u (8 * Z.of_nat B) v ->
  signed_of B v = Ok (wrapS (8 * Z.of_nat B) v).
Proof.
  intros HB Hor Hv. unfold signed_of. case_bool_decide as Hlt.
  - destruct (SignExtend_spec B v ltac:(lia) ltac:(lia) Hv) as (u & -> & Hu & <-). cbn [mbind res_bind].
    by rewrite ReinterpretAsSigned_spec by (done || lia).
  - assert (B = n) as -> by lia. cbn [mbind res_bind]. by rewrite ReinterpretAsSigned_spec by (done || lia).
Qed.
Lemma pow_256 B : 256 ^ Z.of_nat B = 2 ^ (8 * Z.of_nat B).
Proof. by rewrite Z.pow_mul_r by lia. Qed.

Lemma reinterpret_mod B val : (B <= n)%nat ->
  ReinterpretAsUnsigned val mod 256 ^ Z.of_nat B = wrapU (8 * Z.of_nat B) val.
Proof.
  intros HB. rewrite pow_256. unfold ReinterpretAsUnsigned, wrapU. apply Z.mod_mod_divide.
  exists (2 ^ (8 * Z.of_nat (n - B))). rewrite <- Z.pow_add_r by lia. f_equal. lia.
Qed.

(** Reading back a signed number comes down to extending its bits. *)
Lemma Read_Write_signed B data val : (B <= n)%nat -> (B <= length data)%nat ->
  (d ← WriteBigEndian_signed B data val; ReadBigEndian_signed B d) = signed_of B (wrapU (8 * Z.of_nat B) val) /\
  (d ← WriteLittleEndian_signed B data val; ReadLittleEndian_signed B d) = signed_of B (wrapU (8 * Z.of_nat B) val).
Proof.
  intros Hn Hl. destruct (Read_Write B data (ReinterpretAsUnsigned val) Hn Hl) as [H1 H2].
  rewrite reinterpret_mod in H1, H2 by done.
  unfold WriteBigEndian_signed, WriteLittleEndian_signed, ReadBigEndian_signed, ReadLittleEndian_signed.
  destruct (WriteBigEndian B data _), (WriteLittleEndian B data _); cbn [mbind res_bind] in *; try done.
  by rewrite H1, H2.
Qed.

(** C39: the byte accessors round-trip: an unsigned number of [B] bytes, written into memory
    of at least [B] bytes in either order and read back in that order, is unchanged, and
    so is a signed one, negative or not, when [B] is the type's own size or at most
    three.  ([B] is at least one and at most the type's size; of these, one byte of a wider
    type is refused by the class.) *)
Theorem ByteIO_roundtrip B data val :
  (1 <= B <= n)%nat -> (B <= length data)%nat ->
  (in_u (8 * Z.of_nat B) val ->
     (d ← WriteBigEndian B data val; ReadBigEndian B d) = Ok val /\
     (d ← WriteLittleEndian B data val; ReadLittleEndian B d) = Ok val) /\
  (in_s (8 * Z.of_nat B) val -> B = n \/ (B <= 3)%nat ->
     (d ← WriteBigEndian_signed B data val; ReadBigEndian_signed B d) = Ok val /\
     (d ← WriteLittleEndian_signed B data val; ReadLittleEndian_signed B d) = Ok val).
Proof.
  intros HB Hl. split.
  - intros Hv. destruct (Read_Write B data val ltac:(lia) Hl) as [-> ->]. rewrite pow_256.
    by rewrite Z.mod_small by done.
  - intros Hv Hor. destruct (Read_Write_signed B data val ltac:(lia) Hl) as [-> ->].
    rewrite signed_of_spec by (done || apply wrapU_range; lia). by rewrite wrapS_wrapU, wrapS_id by (done || lia).
Qed.

(** The specializations for one, two, four and eight bytes compute what the generic
    loops compute, for every memory, also a too short one. *)
Theorem ByteIO_specializations B data val : (B <= n)%nat ->
  ReadBigEndian B data = InternalReadBigEndian B data /\
  ReadLittleEndian B data = InternalReadLittleEndian B data /\
  WriteBigEndian B data val = WriteBigEndian_generic B data val /\
  WriteLittleEndian B data val = WriteLittleEndian_generic B data val.
Proof.
  intros Hn. destruct (Read_unrolled B data Hn) as [-> ->], (Write_unrolled B data val) as [-> ->]. done.
Qed.
End ByteIO.

(** The one gap: a negative number of four to seven bytes cannot be read back into an
    [int64_t].  [SignExtend] builds its mask by shifting the [int] literal 1 by at least
    32 bits, which is undefined. *)
Theorem ByteIO_sign_gap B data val :
  (4 <= B <= 7)%nat -> (B <= length data)%nat -> in_s (8 * Z.of_nat B) val -> val < 0 ->
  (d ← WriteBigEndian_signed 8 B data val; ReadBigEndian_signed 8 B d) = Undef /\
  (d ← WriteLittleEndian_signed 8 B data val; ReadLittleEndian_signed 8 B d) = Undef.
Proof.
  intros HB Hl Hv Hneg. destruct (Read_Write_signed 8 B data val ltac:(lia) Hl) as [-> ->].
  assert (signed_of 8 B (wrapU (8 * Z.of_nat B) val) = Undef) as ->; [|done].
  unfold signed_of. rewrite bool_decide_eq_true_2 by lia. unfold SignExtend.
  rewrite kMsb_test by (lia || apply wrapU_range; lia). unfold in_s in Hv.
  set (b := 8 * Z.of_nat B) in *. assert (2 ^ b = 2 * 2 ^ (b - 1)) as E by (rewrite <- Z.pow_succ_r by lia; f_equal; lia).
  assert (wrapU b val = val + 2 ^ b) as ->
    by (unfold wrapU; rewrite <- (Z_mod_plus_full _ 1), Z.mod_small; lia).
  destruct (Z.ltb_spec (val + 2 ^ b) (2 ^ (b - 1))); [lia|]. cbn [negb].
  rewrite Nat.mod_small by lia. by destruct (Z.ltb_spec (Z.of_nat (B * 8)) 32); [lia|].
Qed.

Lemma ByteIO_roundtrip_witness :
  (d ← WriteBigEndian_signed 4 3 (repeat NUL 4) (-5); ReadBigEndian_signed 4 3 d) = Ok (-5) /\
  (d ← WriteLittleEndian 5 (repeat NUL 5) 1099511627775; ReadLittleEndian 8 5 d) = Ok 1099511627775.
Proof.
  split.
  - refine (proj1 (proj2 (ByteIO_roundtrip 4 3 (repeat NUL 4) (-5) _ _) _ _)); [lia|cbn; lia|cbn; unfold in_s; lia|lia].
  - refine (proj2 (proj1 (ByteIO_roundtrip 8 5 (repeat NUL 5) 1099511627775 _ _) _)); [lia|cbn; lia|cbn; unfold in_u; lia].
Defined.

Lemma ByteIO_specializations_witness :
  ReadBigEndian 4 4 (lit "abcd") = InternalReadBigEndian 4 4 (lit "abcd").
Proof. exact (proj1 (ByteIO_specializations 4 4 (lit "abcd") 0 (le_n 4))). Defined.

Lemma ByteIO_sign_gap_witness :
  (d ← WriteBigEndian_signed 8 5 (repeat NUL 5) (-1); ReadBigEndian_signed 8 5 d) = Undef.
Proof.
  refine (proj1 (ByteIO_sign_gap 5 (repeat NUL 5) (-1) _ _ _ _)); [lia|cbn; lia|cbn; unfold in_s; lia|lia].
Defined.
