(* ===== verification/SafeNum.v ===== *)
(** * Safe comparisons, conversions and clamping

    [rtc_base/numerics/safe_compare.h], [safe_conversions.h], [safe_conversions_impl.h]
    and [safe_minmax.h] of [include/webrtc], on the integer types.  What the templates
    decide at compile time is computed by functions on types; a comparison is C++'s
    own, with its promotions and conversions. *)

From S2P Require Import Prelude.

(** ** Integer types *)
Inductive ity := I8 | I16 | I32 | I64 | U8 | U16 | U32 | U64.

#[export] Instance ity_eq_dec : EqDecision ity.
Proof. solve_decision. Defined.

Definition is_signed (t : ity) : bool := match t with I8 | I16 | I32 | I64 => true | _ => false end.
Definition sizeof (t : ity) : Z :=
  match t with I8 | U8 => 1 | I16 | U16 => 2 | I32 | U32 => 4 | I64 | U64 => 8 end.
Definition signed_type (n : Z) : ity :=
  if n =? 1 then I8 else if n =? 2 then I16 else if n =? 4 then I32 else I64.
Definition unsigned_type (n : Z) : ity :=
  if n =? 1 then U8 else if n =? 2 then U16 else if n =? 4 then U32 else U64.

Definition lowest (t : ity) : Z := if is_signed t then - 2 ^ (8 * sizeof t - 1) else 0.
Definition max_of (t : ity) : Z := if is_signed t then 2 ^ (8 * sizeof t - 1) - 1 else 2 ^ (8 * sizeof t) - 1.
Definition in_type (t : ity) (z : Z) : Prop := lowest t <= z <= max_of t.

(** [static_cast] to an integer type. *)
Definition convert (t : ity) (z : Z) : Z :=
  if is_signed t then wrapS (8 * sizeof t) z else wrapU (8 * sizeof t) z.

(** Integral promotion and the usual arithmetic conversions. *)
Definition promote (t : ity) : ity := if sizeof t <? 4 then I32 else t.
Definition common (t1 t2 : ity) : ity :=
  let t1 := promote t1 in let t2 := promote t2 in
  if Bool.eqb (is_signed t1) (is_signed t2) then (if sizeof t1 <? sizeof t2 then t2 else t1)
  else let '(s, u) := if is_signed t1 then (t1, t2) else (t2, t1) in
       if sizeof s <=? sizeof u then u else s.

(** ** [safe_compare.h] *)
Inductive cmp_op := EqOp | NeOp | LtOp | LeOp | GtOp | GeOp.

Definition holds (op : cmp_op) (a b : Z) : bool :=
  match op with
  | EqOp => a =? b | NeOp => negb (a =? b) | LtOp => a <? b | LeOp => a <=? b | GtOp => b <? a | GeOp => b <=? a
  end.

(** [a op b] for operands of the two types. *)
Definition Op (op : cmp_op) (t1 t2 : ity) (a b : Z) : bool :=
  let c := common t1 t2 in holds op (convert c a) (convert c b).

Definition LargerIntImpl (n : Z) : option ity :=
  if n =? 1 then Some I16 else if n =? 2 then Some I32 else if n =? 4 then Some I64 else None.
Definition LargerInt (t1 t2 : ity) : option ity :=
  LargerIntImpl (if (sizeof t1 <? sizeof t2) || (sizeof t1 <? 8) then sizeof t1 else 0).

Definition make_unsigned (t : ity) : ity := unsigned_type (sizeof t).
Definition MakeUnsigned (t : ity) (a : Z) : Z := convert (make_unsigned t) a.

(** The five overloads. *)
Definition Cmp (op : cmp_op) (t1 t2 : ity) (a b : Z) : bool :=
  match is_signed t1, is_signed t2 with
  | true, true | false, false => Op op t1 t2 a b
  | true, false =>
      match LargerInt t2 t1 with
      | Some t => Op op t1 t a (convert t b)
      | None => if a <? 0 then Op op I32 I32 (-1) 0 else Op op (make_unsigned t1) t2 (MakeUnsigned t1 a) b
      end
  | false, true =>
      match LargerInt t1 t2 with
      | Some t => Op op t t2 (convert t a) b
      | None => if b <? 0 then Op op I32 I32 0 (-1) else Op op t1 (make_unsigned t2) a (MakeUnsigned t2 b)
      end
  end.

(** [SafeEq], [SafeNe], [SafeLt], [SafeLe], [SafeGt] and [SafeGe]: the unary plus
    promotes the arguments. *)
Definition Safe (op : cmp_op) (t1 t2 : ity) (a b : Z) : bool :=
  Cmp op (promote t1) (promote t2) (convert (promote t1) a) (convert (promote t2) b).

(** ** [safe_conversions_impl.h] *)
Inductive DstRange := OVERLAPS_RANGE | CONTAINS_RANGE.

Definition StaticRangeCheck (dst src : ity) : DstRange :=
  match is_signed dst, is_signed src with
  | true, true => if sizeof src * 8 - 1 <=? sizeof dst * 8 - 1 then CONTAINS_RANGE else OVERLAPS_RANGE
  | false, false => if sizeof src <=? sizeof dst then CONTAINS_RANGE else OVERLAPS_RANGE
  | true, false => if sizeof src * 8 <=? sizeof dst * 8 - 1 then CONTAINS_RANGE else OVERLAPS_RANGE
  | false, true => OVERLAPS_RANGE
  end.

Inductive RangeCheckResult := TYPE_VALID | TYPE_UNDERFLOW | TYPE_OVERFLOW | TYPE_INVALID.

Definition range_check_result (is_in_upper_bound is_in_lower_bound : bool) : RangeCheckResult :=
  match is_in_upper_bound, is_in_lower_bound with
  | true, true => TYPE_VALID | true, false => TYPE_UNDERFLOW
  | false, true => TYPE_OVERFLOW | false, false => TYPE_INVALID
  end.

(** [RangeCheck<Dst>(value)] and the five [RangeCheckImpl]. *)
Definition RangeCheck (dst src : ity) (value : Z) : RangeCheckResult :=
  match StaticRangeCheck dst src with
  | CONTAINS_RANGE => TYPE_VALID
  | OVERLAPS_RANGE =>
      match is_signed dst, is_signed src with
      | true, true =>
          range_check_result (value <=? convert src (max_of dst)) (convert src (lowest dst) <=? value)
      | false, false => range_check_result (value <=? convert src (max_of dst)) true
      | true, false =>
          if sizeof src <? sizeof dst then TYPE_VALID
          else range_check_result (value <=? convert src (max_of dst)) true
      | false, true =>
          if sizeof src * 8 - 1 <=? sizeof dst * 8
          then range_check_result true (convert src 0 <=? value)
          else range_check_result (value <=? convert src (max_of dst)) (convert src 0 <=? value)
      end
  end.

(** ** [safe_conversions.h] *)
Definition IsValueInRangeForNumericType (dst src : ity) (value : Z) : bool :=
  match RangeCheck dst src value with TYPE_VALID => true | _ => false end.

Definition checked_cast (dst src : ity) (value : Z) : res Z :=
  _ ← assert_ (IsValueInRangeForNumericType dst src value); Ok (convert dst value).

Definition saturated_cast (dst src : ity) (value : Z) : res Z :=
  match RangeCheck dst src value with
  | TYPE_VALID => Ok (convert dst value)
  | TYPE_UNDERFLOW => Ok (lowest dst)
  | TYPE_OVERFLOW => Ok (max_of dst)
  | TYPE_INVALID => Crash
  end.

(** ** [safe_minmax.h] *)

(** [MType<T1, T2>::min_t] and [max_t]. *)
Definition min_t (t1 t2 : ity) : ity :=
  if Safe LtOp t1 t2 (lowest t1) (lowest t2) then t1
  else if Safe GtOp t1 t2 (lowest t1) (lowest t2) then t2
  else if Safe LeOp t1 t2 (max_of t1) (max_of t2) then t1 else t2.
Definition max_t (t1 t2 : ity) : ity := if Safe GeOp t1 t2 (max_of t1) (max_of t2) then t1 else t2.

Definition SafeMin (t1 t2 : ity) (a b : Z) : Z :=
  let r := min_t t1 t2 in if Safe LtOp t1 t2 a b then convert r a else convert r b.
Definition SafeMax (t1 t2 : ity) (a b : Z) : Z :=
  let r := max_t t1 t2 in if Safe GtOp t1 t2 a b then convert r a else convert r b.

(** [ClampType<T, L, H>]: the range of the result, with the types of the two constants. *)
Definition r_min_t (T L H : ity) : ity := max_t L (min_t H T).
Definition r_min (T L H : ity) : Z :=
  SafeMax L (min_t H T) (lowest L) (SafeMin H T (lowest H) (lowest T)).
Definition r_max_t (T L H : ity) : ity := min_t H (max_t L T).
Definition r_max (T L H : ity) : Z :=
  SafeMin H (max_t L T) (max_of H) (SafeMax L T (max_of L) (max_of T)).

Definition AcceptableType (T L H A : ity) : bool :=
  ((sizeof A <=? sizeof L) || (sizeof A <=? sizeof H) || (sizeof A <=? sizeof T)) &&
  (Safe LeOp A (r_min_t T L H) (lowest A) (r_min T L H) && Safe LeOp (r_max_t T L H) A (r_max T L H) (max_of A)).

Definition best_signed_type (T L H : ity) : ity :=
  if AcceptableType T L H I8 then I8 else if AcceptableType T L H I16 then I16
  else if AcceptableType T L H I32 then I32 else I64.
Definition best_unsigned_type (T L H : ity) : ity :=
  if AcceptableType T L H U8 then U8 else if AcceptableType T L H U16 then U16
  else if AcceptableType T L H U32 then U32 else U64.

Definition ClampType (T L H : ity) : ity :=
  if is_signed T
  then (if AcceptableType T L H (best_signed_type T L H) then best_signed_type T L H else best_unsigned_type T L H)
  else (if AcceptableType T L H (best_unsigned_type T L H) then best_unsigned_type T L H else best_signed_type T L H).

Definition SafeClamp (T L H : ity) (x min max : Z) : res Z :=
  let r := ClampType T L H in
  _ ← assert_ (Safe LeOp L H min max);
  Ok (if Safe LeOp T L x min then convert r min
      else if Safe GeOp T H x max then convert r max else convert r x).

(** ** Laws *)
Ltac evaluate e := let r := eval vm_compute in e in change e with r; cbn iota.

Lemma convert_id t z : in_type t z -> convert t z = z.
Proof.
  unfold in_type, convert, lowest, max_of. intros H.
  destruct (is_signed t) eqn:E; [apply wrapS_id; [destruct t; cbn; lia|]|apply wrapU_id]; unfold in_s, in_u; lia.
Qed.

Ltac in_range := unfold in_type, lowest, max_of in *; cbn in *; lia.

Lemma convert_promote t z : in_type t z -> convert (promote t) z = z.
Proof. intros H. apply convert_id. destruct t; in_range. Qed.

Lemma in_promote t z : in_type t z -> in_type (promote t) z.
Proof. intros H. destruct t; in_range. Qed.

(** When the type the operands are converted to holds both, the comparison is exact. *)
Lemma Op_exact op t1 t2 a b : in_type (common t1 t2) a -> in_type (common t1 t2) b ->
  Op op t1 t2 a b = holds op a b.
Proof. intros Ha Hb. unfold Op. by rewrite !convert_id. Qed.

Lemma holds_signs op a b : (a < 0 <= b -> holds op (-1) 0 = holds op a b) /\
                           (b < 0 <= a -> holds op 0 (-1) = holds op a b).
Proof.
  split; intros H; destruct op; cbn;
    repeat match goal with |- context [?x =? ?y] => destruct (Z.eqb_spec x y)
           | |- context [?x <? ?y] => destruct (Z.ltb_spec x y)
           | |- context [?x <=? ?y] => destruct (Z.leb_spec x y) end; done || lia.
Qed.

Lemma Cmp_exact op t1 t2 a b : 4 <= sizeof t1 -> 4 <= sizeof t2 -> in_type t1 a -> in_type t2 b ->
  Cmp op t1 t2 a b = holds op a b.
Proof.
  intros H1 H2 Ha Hb. destruct (holds_signs op a b) as [Hn Hp].
  destruct t1; try (cbn in H1; lia); destruct t2; try (cbn in H2; lia); unfold Cmp, MakeUnsigned;
    cbn [is_signed LargerInt LargerIntImpl sizeof Z.ltb Z.compare Pos.compare Pos.compare_cont orb Z.eqb Pos.eqb make_unsigned unsigned_type];
    try destruct (Z.ltb_spec a 0); try destruct (Z.ltb_spec b 0); rewrite ?convert_id by in_range;
    try (apply Op_exact; in_range).
  all: rewrite ?Op_exact by in_range; first [apply Hn; in_range | apply Hp; in_range].
Qed.

Lemma Safe_exact op t1 t2 a b : in_type t1 a -> in_type t2 b -> Safe op t1 t2 a b = holds op a b.
Proof.
  intros Ha Hb. unfold Safe. rewrite !convert_promote by done.
  apply Cmp_exact; [destruct t1; cbn; lia|destruct t2; cbn; lia|by apply in_promote..].
Qed.

Lemma in_lowest t : in_type t (lowest t).
Proof. destruct t; in_range. Qed.
Lemma in_max t : in_type t (max_of t).
Proof. destruct t; in_range. Qed.

Lemma min_t_cases t1 t2 : min_t t1 t2 = t1 \/ min_t t1 t2 = t2.
Proof. unfold min_t. repeat case_match; auto. Qed.
Lemma max_t_cases t1 t2 : max_t t1 t2 = t1 \/ max_t t1 t2 = t2.
Proof. unfold max_t. case_match; auto. Qed.

(** The chosen types hold the results. *)
Lemma min_t_holds t1 t2 a b : in_type t1 a -> in_type t2 b -> in_type (min_t t1 t2) (Z.min a b).
Proof.
  intros Ha Hb. unfold min_t. rewrite !Safe_exact by (apply in_lowest || apply in_max). cbn [holds].
  unfold in_type in *. destruct (Z.ltb_spec (lowest t1) (lowest t2)); [lia|].
  destruct (Z.ltb_spec (lowest t2) (lowest t1)); [lia|]. destruct (Z.leb_spec (max_of t1) (max_of t2)); lia.
Qed.

Lemma max_t_holds t1 t2 a b : in_type t1 a -> in_type t2 b -> in_type (max_t t1 t2) (Z.max a b).
Proof.
  intros Ha Hb. unfold max_t. rewrite !Safe_exact by (apply in_lowest || apply in_max). cbn [holds].
  unfold in_type in *. destruct (Z.leb_spec (max_of t2) (max_of t1)); lia.
Qed.

Lemma SafeMin_exact t1 t2 a b : in_type t1 a -> in_type t2 b -> SafeMin t1 t2 a b = Z.min a b.
Proof.
  intros Ha Hb. unfold SafeMin. rewrite Safe_exact by done. cbn [holds].
  pose proof (min_t_holds t1 t2 a b Ha Hb) as H.
  destruct (Z.ltb_spec a b); [rewrite Z.min_l in * by lia|rewrite Z.min_r in * by lia]; by apply convert_id.
Qed.

Lemma SafeMax_exact t1 t2 a b : in_type t1 a -> in_type t2 b -> SafeMax t1 t2 a b = Z.max a b.
Proof.
  intros Ha Hb. unfold SafeMax. rewrite Safe_exact by done. cbn [holds].
  pose proof (max_t_holds t1 t2 a b Ha Hb) as H.
  destruct (Z.ltb_spec b a); [rewrite Z.max_l in * by lia|rewrite Z.max_r in * by lia]; by apply convert_id.
Qed.

Lemma clamp_range T L H :
  r_min T L H = Z.max (lowest L) (Z.min (lowest H) (lowest T)) /\ in_type (r_min_t T L H) (r_min T L H) /\
  r_max T L H = Z.min (max_of H) (Z.max (max_of L) (max_of T)) /\ in_type (r_max_t T L H) (r_max T L H).
Proof.
  pose proof (in_lowest L). pose proof (in_lowest H). pose proof (in_lowest T).
  pose proof (in_max L). pose proof (in_max H). pose proof (in_max T).
  unfold r_min, r_max, r_min_t, r_max_t.
  rewrite (SafeMin_exact H T), (SafeMax_exact L T) by done.
  rewrite SafeMax_exact, SafeMin_exact by (done || by apply min_t_holds || by apply max_t_holds).
  split_and!; [done| |done|]; [apply max_t_holds|apply min_t_holds]; try done;
    [by apply min_t_holds|by apply max_t_holds].
Qed.

Lemma AcceptableType_range T L H A : AcceptableType T L H A = true ->
  forall z, Z.max (lowest L) (Z.min (lowest H) (lowest T)) <= z ->
    z <= Z.min (max_of H) (Z.max (max_of L) (max_of T)) -> in_type A z.
Proof.
  destruct (clamp_range T L H) as (E1 & H1 & E2 & H2). unfold AcceptableType. intros Ha z Hlo Hhi.
  apply andb_true_iff in Ha as [_ Ha]. apply andb_true_iff in Ha as [Ha Hb].
  rewrite Safe_exact in Ha, Hb by (done || apply in_lowest || apply in_max). cbn [holds] in *.
  apply Z.leb_le in Ha, Hb. unfold in_type. lia.
Qed.

(** The [static_assert] of [ClampType], for all 512 combinations of types. *)
Definition types : list ity := [I8; I16; I32; I64; U8; U16; U32; U64].
Lemma types_all t : t ∈ types.
Proof. destruct t; unfold types; set_solver. Qed.

Lemma ClampType_acceptable T L H : AcceptableType T L H (ClampType T L H) = true.
Proof.
  assert (forallb (fun T => forallb (fun L => forallb (fun H =>
    AcceptableType T L H (ClampType T L H)) types) types) types = true) as E by (vm_compute; reflexivity).
  rewrite forallb_forall in E. specialize (E T ltac:(apply list_elem_of_In, types_all)). cbn beta in E.
  rewrite forallb_forall in E. specialize (E L ltac:(apply list_elem_of_In, types_all)). cbn beta in E.
  rewrite forallb_forall in E. exact (E H ltac:(apply list_elem_of_In, types_all)).
Qed.

(** The safe comparisons compare the mathematical values, for every pair of integer
    types of any signedness and width. *)
Theorem Safe_compares op t1 t2 a b : in_type t1 a -> in_type t2 b -> Safe op t1 t2 a b = holds op a b.
Proof. apply Safe_exact. Qed.

(** Clamping between any three integer types is exact: when [min <= max] the check
    passes, the result is the mathematical clamp, and it fits the result type the
    templates choose, which the static assertion accepts. *)
Theorem SafeClamp_exact T L H x min max :
  in_type T x -> in_type L min -> in_type H max -> min <= max ->
  SafeClamp T L H x min max = Ok (Z.max min (Z.min x max)) /\
  in_type (ClampType T L H) (Z.max min (Z.min x max)) /\
  AcceptableType T L H (ClampType T L H) = true /\
  SafeMin T L x min = Z.min x min /\ SafeMax T L x min = Z.max x min.
Proof.
  intros Hx Hmin Hmax Hle. pose proof (ClampType_acceptable T L H) as Ha.
  assert (in_type (ClampType T L H) (Z.max min (Z.min x max))) as Hin.
  { eapply AcceptableType_range; [exact Ha|..]; unfold in_type in *; lia. }
  split_and!; [|done|done|by apply SafeMin_exact|by apply SafeMax_exact].
  unfold SafeClamp. rewrite !Safe_exact by done. cbn [holds]. destruct (Z.leb_spec min max); [|lia].
  cbn [assert_ mbind res_bind]. f_equal.
  destruct (Z.leb_spec x min); [|destruct (Z.leb_spec max x)].
  - replace (Z.max min (Z.min x max)) with min in Hin |- * by lia. by apply convert_id.
  - replace (Z.max min (Z.min x max)) with max in Hin |- * by lia. by apply convert_id.
  - replace (Z.max min (Z.min x max)) with x in Hin |- * by lia. by apply convert_id.
Qed.

(** The range check decides whether the value fits the destination, and on which side it
    does not; the invalid result does not occur for integers. *)
Lemma RangeCheck_exact dst src v : in_type src v ->
  RangeCheck dst src v =
    if v <? lowest dst then TYPE_UNDERFLOW else if max_of dst <? v then TYPE_OVERFLOW else TYPE_VALID.
Proof.
  intros Hv. unfold RangeCheck, StaticRangeCheck.
  unfold in_type in Hv. destruct dst, src; cbn [is_signed];
    repeat match goal with
    | |- context [sizeof ?a * 8 - 1 <=? sizeof ?b * 8 - 1] => evaluate (sizeof a * 8 - 1 <=? sizeof b * 8 - 1)
    | |- context [sizeof ?a * 8 <=? sizeof ?b * 8 - 1] => evaluate (sizeof a * 8 <=? sizeof b * 8 - 1)
    | |- context [sizeof ?a * 8 - 1 <=? sizeof ?b * 8] => evaluate (sizeof a * 8 - 1 <=? sizeof b * 8)
    | |- context [sizeof ?a <=? sizeof ?b] => evaluate (sizeof a <=? sizeof b)
    | |- context [sizeof ?a <? sizeof ?b] => evaluate (sizeof a <? sizeof b)
    | |- context [convert ?t ?x] => evaluate (convert t x)
    | |- context [lowest ?t] => evaluate (lowest t)
    | |- context [max_of ?t] => evaluate (max_of t)
    end; unfold lowest, max_of in Hv; cbn in Hv; unfold range_check_result; cbn iota;
    repeat match goal with |- context [?x <? ?y] => destruct (Z.ltb_spec x y)
           | |- context [?x <=? ?y] => destruct (Z.leb_spec x y) end; try done; lia.
Qed.

(** Conversions between integer types never change a value silently: the range test
    holds exactly when the destination can represent the value, [checked_cast] then
    returns it unchanged and aborts otherwise, and [saturated_cast] always returns the
    nearest representable value. *)
Theorem safe_conversions_exact dst src v : in_type src v ->
  (IsValueInRangeForNumericType dst src v = true <-> in_type dst v) /\
  checked_cast dst src v = (if bool_decide (lowest dst <= v <= max_of dst) then Ok v else Crash) /\
  saturated_cast dst src v = Ok (Z.max (lowest dst) (Z.min v (max_of dst))).
Proof.
  intros Hv. assert (lowest dst <= max_of dst) as Hd by (destruct dst; in_range).
  unfold checked_cast, IsValueInRangeForNumericType, saturated_cast. rewrite RangeCheck_exact by done.
  destruct (Z.ltb_spec v (lowest dst)); [|destruct (Z.ltb_spec (max_of dst) v)].
  - rewrite bool_decide_eq_false_2 by lia. split_and!; [split; [done|unfold in_type; lia]|done|f_equal; lia].
  - rewrite bool_decide_eq_false_2 by lia. split_and!; [split; [done|unfold in_type; lia]|done|f_equal; lia].
  - rewrite bool_decide_eq_true_2 by lia. cbn [assert_ mbind res_bind].
    rewrite convert_id by (unfold in_type; lia). split_and!; [done|done|f_equal; lia].
Qed.

Lemma Safe_compares_witness : Safe LtOp I64 U64 (-1) 1 = true /\ Op LtOp I64 U64 (-1) 1 = false.
Proof. split; [exact (Safe_compares LtOp I64 U64 (-1) 1 ltac:(in_range) ltac:(in_range))|reflexivity]. Defined.

Lemma SafeClamp_exact_witness : SafeClamp I64 U8 U32 (-5) 3 4000000000 = Ok 3.
Proof.
  exact (proj1 (SafeClamp_exact I64 U8 U32 (-5) 3 4000000000 ltac:(in_range) ltac:(in_range) ltac:(in_range) ltac:(lia))).
Defined.

Lemma safe_conversions_exact_witness : saturated_cast U8 I32 300 = Ok 255.
Proof. exact (proj2 (proj2 (safe_conversions_exact U8 I32 300 ltac:(in_range)))). Defined.
