(* ===== verification/Conversions.v ===== *)
(** * Range relations, promotions and conversions of the checked arithmetic

    [base/numerics/safe_conversions_impl.h] and [safe_conversions.h] of [include/webrtc],
    on the integer types: the second family of safe conversions in the tree, on which the
    checked and the clamped arithmetic are built.  As in [SafeNum], what the templates
    decide at compile time is computed by functions on types, and a comparison is C++'s
    own, with its promotions.  Bounds are those of [std::numeric_limits]; the
    floating-point specialisations are left out. *)

From S2P Require Import Prelude SafeNum.

(** ** Sizes and signs *)
Definition digits (t : ity) : Z := if is_signed t then 8 * sizeof t - 1 else 8 * sizeof t.
Definition MaxExponent (t : ity) : Z := digits t + 1.
Definition IntegerBitsPlusSign (t : ity) : Z := digits t + Z.b2z (is_signed t).
Definition make_signed (t : ity) : ity := signed_type (sizeof t).

Definition IsValueNegative (t : ity) (value : Z) : bool := is_signed t && (value <? 0).

(** [as_signed(value)] and [as_unsigned(value)]: the value at the same width. *)
Definition as_signed (t : ity) (value : Z) : Z := convert (make_signed t) value.
Definition as_unsigned (t : ity) (value : Z) : Z := convert (make_unsigned t) value.

(** The operands of a narrow type are promoted to [int], whose range the difference of two
    such operands cannot leave; the other types are unsigned and wrap. *)
Definition SafeUnsignedAbs (t : ity) (value : Z) : Z :=
  let u := make_unsigned t in
  if IsValueNegative t value
  then convert u (convert (common I32 u) (0 - convert u value))
  else convert u value.

Definition ConditionalNegate (t : ity) (x : Z) (is_negative : bool) : Z :=
  let s := make_signed t in let u := make_unsigned t in let c := common u s in
  convert s (convert c (Z.lxor (convert c (convert u x)) (convert c (- Z.b2z is_negative)) + Z.b2z is_negative)).

(** ** Static relations between the ranges of two types *)
Inductive NumericRangeRepresentation := NUMERIC_RANGE_NOT_CONTAINED | NUMERIC_RANGE_CONTAINED.

Definition StaticDstRangeRelationToSrcRange (dst src : ity) : NumericRangeRepresentation :=
  match is_signed dst, is_signed src with
  | true, true | false, false =>
      if MaxExponent src <=? MaxExponent dst then NUMERIC_RANGE_CONTAINED else NUMERIC_RANGE_NOT_CONTAINED
  | true, false =>
      if MaxExponent src <? MaxExponent dst then NUMERIC_RANGE_CONTAINED else NUMERIC_RANGE_NOT_CONTAINED
  | false, true => NUMERIC_RANGE_NOT_CONTAINED
  end.

Definition IsTypeInRangeForNumericType (dst src : ity) : bool :=
  match StaticDstRangeRelationToSrcRange dst src with
  | NUMERIC_RANGE_CONTAINED => true | NUMERIC_RANGE_NOT_CONTAINED => false
  end.

(** [class RangeCheck]. *)
Record RangeCheck := mkRangeCheck { is_underflow_ : bool; is_overflow_ : bool }.

Definition RangeCheck_new (is_in_lower_bound is_in_upper_bound : bool) : RangeCheck :=
  {| is_underflow_ := negb is_in_lower_bound; is_overflow_ := negb is_in_upper_bound |}.
Definition RC_IsValid (r : RangeCheck) : bool := negb (is_overflow_ r) && negb (is_underflow_ r).
Definition IsInvalid (r : RangeCheck) : bool := is_overflow_ r && is_underflow_ r.
Definition IsOverflow (r : RangeCheck) : bool := is_overflow_ r && negb (is_underflow_ r).
Definition IsUnderflow (r : RangeCheck) : bool := negb (is_overflow_ r) && is_underflow_ r.
Definition RC_eq (l r : RangeCheck) : bool :=
  Bool.eqb (is_underflow_ l) (is_underflow_ r) && Bool.eqb (is_overflow_ l) (is_overflow_ r).

(** [NarrowingRange<Dst, Src, Bounds>]. *)
Definition kShift (dst src : ity) : Z :=
  if (MaxExponent dst <? MaxExponent src) && (digits src <? digits dst) then digits dst - digits src else 0.
Definition Adjust (t : ity) (kShift value : Z) : Z :=
  let c := common (make_unsigned t) t in
  convert t (ConditionalNegate c
    (Z.land (convert c (SafeUnsignedAbs t value))
            (convert c (Z.lnot (convert (promote t) (Z.shiftl 1 kShift - 1)))))
    (IsValueNegative t value)).
Definition NarrowingRange_max (dst src : ity) : Z := Adjust dst (kShift dst src) (max_of dst).
Definition NarrowingRange_lowest (dst src : ity) : Z := Adjust dst (kShift dst src) (lowest dst).

(** [DstRangeRelationToSrcRange<Dst>(value)] and the five [DstRangeRelationToSrcRangeImpl]. *)
Definition DstRangeRelationToSrcRange (dst src : ity) (value : Z) : RangeCheck :=
  let hi := NarrowingRange_max dst src in let lo := NarrowingRange_lowest dst src in
  let p := common src dst in
  match StaticDstRangeRelationToSrcRange dst src with
  | NUMERIC_RANGE_CONTAINED =>
      RangeCheck_new (Op GeOp dst dst (convert dst (lowest src)) lo || Op GeOp dst dst (convert dst value) lo)
                     (Op LeOp dst dst (convert dst (max_of src)) hi || Op LeOp dst dst (convert dst value) hi)
  | NUMERIC_RANGE_NOT_CONTAINED =>
      match is_signed dst, is_signed src with
      | true, true => RangeCheck_new (Op GeOp src dst value lo) (Op LeOp src dst value hi)
      | false, false =>
          RangeCheck_new (Op EqOp dst dst lo 0 || Op GeOp src dst value lo) (Op LeOp src dst value hi)
      | true, false =>
          RangeCheck_new (Op LeOp dst dst lo 0 || Op GeOp p p (convert p value) (convert p lo))
                         (Op LeOp p p (convert p value) (convert p hi))
      | false, true =>
          RangeCheck_new (Op GeOp src src value 0 && (Op EqOp dst I32 lo 0 || Op GeOp dst dst (convert dst value) lo))
                         (Op LeOp p p (convert p (max_of src)) (convert p hi)
                          || Op LeOp p p (convert p value) (convert p hi))
      end
  end.

(** ** Promotions *)

(** The specialisations go up to 64 bits; nothing wider is asked for
    ([promotions_instantiated]). *)
Definition IntegerForDigitsAndSign (n : Z) (signed : bool) : ity :=
  if signed then (if n =? 8 then I8 else if n =? 16 then I16 else if n =? 32 then I32 else I64)
  else (if n =? 8 then U8 else if n =? 16 then U16 else if n =? 32 then U32 else U64).
Definition TwiceWiderInteger (t : ity) (signed : bool) : ity :=
  IntegerForDigitsAndSign (IntegerBitsPlusSign t * 2) signed.

Definition MaxExponentPromotion (l r : ity) : ity := if MaxExponent r <? MaxExponent l then l else r.

Definition LowestValuePromotion (l r : ity) : ity :=
  if is_signed l then (if is_signed r then (if MaxExponent r <? MaxExponent l then l else r) else l)
  else (if is_signed r then r else (if MaxExponent l <? MaxExponent r then l else r)).

(** [BigEnoughPromotion<Lhs, Rhs>]: its [type] and [is_contained]. *)
Definition BigEnoughPromotion (l r : ity) : ity * bool :=
  let m := MaxExponentPromotion l r in
  let is_intmax_type := IntegerBitsPlusSign m =? IntegerBitsPlusSign I64 in
  let is_max_exponent := IsTypeInRangeForNumericType m l && IsTypeInRangeForNumericType m r in
  if is_max_exponent then (m, true)
  else if is_intmax_type then (m, false)
  else (TwiceWiderInteger m (is_signed l || is_signed r), true).

Definition IsIntegerArithmeticSafe (t l r : ity) : bool :=
  implb (is_signed l) (is_signed t) && (2 * IntegerBitsPlusSign l <=? IntegerBitsPlusSign t) &&
  implb (is_signed r) (is_signed t) && (2 * IntegerBitsPlusSign r <=? IntegerBitsPlusSign t).

Definition is_promotion_possible (l r : ity) : bool :=
  let m := MaxExponentPromotion l r in
  IsIntegerArithmeticSafe (if is_signed l || is_signed r then I64 else U64) m m.
Definition FastIntegerArithmeticPromotion (l r : ity) : ity :=
  if is_promotion_possible l r
  then TwiceWiderInteger (MaxExponentPromotion l r) (is_signed l || is_signed r)
  else fst (BigEnoughPromotion l r).

(** ** Comparisons

    [IsLess], [IsLessOrEqual], [IsGreater], [IsGreaterOrEqual], [IsEqual], [IsNotEqual]. *)
Definition Test (op : cmp_op) (L R : ity) (lhs rhs : Z) : bool :=
  let l_range := DstRangeRelationToSrcRange R L lhs in
  let r_range := DstRangeRelationToSrcRange L R rhs in
  match op with
  | LtOp | LeOp => IsUnderflow l_range || IsOverflow r_range || (RC_eq l_range r_range && Op op L R lhs rhs)
  | GtOp | GeOp => IsOverflow l_range || IsUnderflow r_range || (RC_eq l_range r_range && Op op L R lhs rhs)
  | EqOp => RC_eq l_range r_range && Op op L R lhs rhs
  | NeOp => negb (RC_eq l_range r_range) || Op op L R lhs rhs
  end.

Definition SafeCompare (op : cmp_op) (L R : ity) (lhs rhs : Z) : bool :=
  let '(big, is_contained) := BigEnoughPromotion L R in
  if is_contained then Test op big big (convert big lhs) (convert big rhs) else Test op L R lhs rhs.

Definition IsMaxInRangeForNumericType (dst src : ity) : bool := Test GeOp dst src (max_of dst) (max_of src).
Definition IsMinInRangeForNumericType (dst src : ity) : bool := Test LeOp dst src (lowest dst) (lowest src).
Definition CommonMax (dst src : ity) : Z :=
  if negb (IsMaxInRangeForNumericType dst src) then max_of dst else convert dst (max_of src).
Definition CommonMin (dst src : ity) : Z :=
  if negb (IsMinInRangeForNumericType dst src) then lowest dst else convert dst (lowest src).
Definition CommonMaxOrMin (dst src : ity) (is_min : bool) : Z :=
  if is_min then CommonMin dst src else CommonMax dst src.

(** ** [safe_conversions.h] *)

(** [IsValueInRangeFastOp<Dst, Src>]: [None] when it is not supported. *)
Definition IsValueInRangeFastOp (dst src : ity) (value : Z) : option bool :=
  if IsTypeInRangeForNumericType dst src then None
  else match is_signed dst, is_signed src with
       | true, true => Some (Op EqOp src dst value (convert dst value))
       | false, true =>
           let u := make_unsigned src in
           Some (Op LeOp u u (as_unsigned src value) (as_unsigned src (CommonMax src dst)))
       | _, false => None
       end.

Definition IsValueInRangeForNumericType (dst src : ity) (value : Z) : bool :=
  match IsValueInRangeFastOp dst src value with
  | Some b => b
  | None => RC_IsValid (DstRangeRelationToSrcRange dst src value)
  end.

Definition checked_cast (dst src : ity) (value : Z) : res Z :=
  if IsValueInRangeForNumericType dst src value then Ok (convert dst value) else Crash.

(** [SaturationDefaultLimits<T>], for an integer type. *)
Definition NaN (t : ity) : Z := 0.
Definition Overflow (t : ity) : Z := max_of t.
Definition Underflow (t : ity) : Z := lowest t.

Definition saturated_cast_impl (dst : ity) (value : Z) (constraint : RangeCheck) : Z :=
  if negb (is_overflow_ constraint)
  then (if negb (is_underflow_ constraint) then convert dst value else Underflow dst)
  else Overflow dst.

Definition SaturateFastOp_Do (dst src : ity) (value : Z) : Z :=
  let saturated := CommonMaxOrMin dst src
    (IsMaxInRangeForNumericType dst src ||
     (negb (IsMinInRangeForNumericType dst src) && IsValueNegative src value)) in
  if IsValueInRangeForNumericType dst src value then convert dst value else saturated.

(** [is_constant] is what [IsCompileTimeConstant(value)] finds. *)
Definition saturated_cast (is_constant : bool) (dst src : ity) (value : Z) : Z :=
  if negb is_constant then SaturateFastOp_Do dst src value
  else saturated_cast_impl dst value (DstRangeRelationToSrcRange dst src value).

(** [strict_cast]: [None] when the static assertion rejects the types. *)
Definition strict_cast (dst src : ity) (value : Z) : option Z :=
  if IsTypeInRangeForNumericType dst src then Some (convert dst value) else None.

(** ** Laws *)

(** The nearest value a type can represent. *)
Definition clamp (t : ity) (z : Z) : Z := Z.max (lowest t) (Z.min z (max_of t)).

Lemma clamp_id t z : in_type t z -> clamp t z = z.
Proof. unfold clamp, in_type. lia. Qed.
Lemma clamp_low t z : z <= lowest t -> clamp t z = lowest t.
Proof. unfold clamp. lia. Qed.
Lemma range_order t : lowest t <= 0 <= max_of t /\ lowest t < max_of t.
Proof. destruct t; in_range. Qed.
Lemma clamp_high t z : max_of t <= z -> clamp t z = max_of t.
Proof. pose proof (range_order t). unfold clamp. lia. Qed.

Lemma convert_range t z : in_type t (convert t z).
Proof.
  unfold in_type, convert, lowest, max_of.
  assert (0 < 8 * sizeof t) as H by (destruct t; cbn; lia).
  destruct (is_signed t); [pose proof (wrapS_range (8 * sizeof t) z H)
    | pose proof (wrapU_range (8 * sizeof t) z ltac:(lia))]; unfold in_s, in_u in *; lia.
Qed.

(** Facts that hold for every combination of types, checked by enumeration. *)
Lemma for_types (P : ity -> bool) : forallb P types = true -> forall t, P t = true.
Proof. intros H t. rewrite forallb_forall in H. apply H, list_elem_of_In, types_all. Qed.
Lemma for_types2 (P : ity -> ity -> bool) :
  forallb (fun a => forallb (P a) types) types = true -> forall a b, P a b = true.
Proof. intros H a. apply for_types. exact (for_types _ H a). Qed.

Lemma promotions_instantiated l r :
  (let '(_, c) := BigEnoughPromotion l r in
   c && negb (IsTypeInRangeForNumericType (MaxExponentPromotion l r) l
              && IsTypeInRangeForNumericType (MaxExponentPromotion l r) r) || is_promotion_possible l r = true ->
   IntegerBitsPlusSign (MaxExponentPromotion l r) * 2 <= 64).
Proof. destruct l, r; vm_compute; intros; (done || congruence). Qed.

Lemma Narrowing_exact dst src :
  NarrowingRange_max dst src = max_of dst /\ NarrowingRange_lowest dst src = lowest dst.
Proof. split; destruct dst, src; vm_compute; reflexivity. Qed.

Lemma StaticRange_exact dst src :
  IsTypeInRangeForNumericType dst src = (lowest dst <=? lowest src) && (max_of src <=? max_of dst).
Proof. destruct dst, src; vm_compute; reflexivity. Qed.

(** What the type two operands are converted to can hold. *)
Lemma common_comm t1 t2 : common t1 t2 = common t2 t1.
Proof. destruct t1, t2; reflexivity. Qed.
Lemma common_nonneg t1 t2 z : in_type t1 z -> 0 <= z -> in_type (common t1 t2) z.
Proof. intros H Hz. destruct t1, t2; in_range. Qed.
Lemma common_same t1 t2 z : is_signed t1 = is_signed t2 -> in_type t1 z -> in_type (common t1 t2) z.
Proof. intros E H. destruct t1, t2; try discriminate E; in_range. Qed.
Lemma common_signed t1 t2 z : is_signed t1 = true -> max_of t2 < max_of t1 ->
  in_type t1 z -> in_type (common t1 t2) z.
Proof. intros E M H. destruct t1, t2; try discriminate E; try (vm_compute in M; discriminate M); in_range. Qed.

Lemma Op_nonneg op t1 t2 a b : in_type t1 a -> in_type t2 b -> 0 <= a -> 0 <= b -> Op op t1 t2 a b = holds op a b.
Proof. intros. apply Op_exact; [by apply common_nonneg|rewrite common_comm; by apply common_nonneg]. Qed.
Lemma Op_same op t1 t2 a b : is_signed t1 = is_signed t2 -> in_type t1 a -> in_type t2 b ->
  Op op t1 t2 a b = holds op a b.
Proof. intros. apply Op_exact; [by apply common_same|rewrite common_comm; by apply common_same]. Qed.

Ltac split_comparisons :=
  repeat match goal with
  | |- context [?x <? ?y] => destruct (Z.ltb_spec x y)
  | |- context [?x <=? ?y] => destruct (Z.leb_spec x y)
  | |- context [?x =? ?y] => destruct (Z.eqb_spec x y)
  end.
Ltac by_comparisons := cbn [holds orb andb]; split_comparisons; cbn; first [done | f_equal; done | lia].

Lemma in_zero t : in_type t 0.
Proof. destruct t; in_range. Qed.
Lemma lowest_unsigned t : is_signed t = false -> lowest t = 0.
Proof. unfold lowest. by intros ->. Qed.

(** The runtime check reports exactly on which side of the destination's range a value is. *)
Lemma DstRange_exact dst src v : in_type src v ->
  DstRangeRelationToSrcRange dst src v = mkRangeCheck (v <? lowest dst) (max_of dst <? v).
Proof.
  intros Hv. pose proof (range_order dst) as Hd. pose proof (range_order src) as Hs.
  pose proof (in_lowest dst) as Hl. pose proof (in_max dst) as Hm. pose proof (in_zero dst) as Hz.
  pose proof (in_lowest src) as Hsl. pose proof (in_max src) as Hsm. pose proof (in_zero src) as Hz'.
  pose proof (StaticRange_exact dst src) as Est. unfold IsTypeInRangeForNumericType in Est.
  unfold DstRangeRelationToSrcRange, RangeCheck_new. destruct (Narrowing_exact dst src) as [-> ->].
  symmetry in Est. destruct (StaticDstRangeRelationToSrcRange dst src).
  - apply andb_false_iff in Est.
    destruct (is_signed dst) eqn:Ed, (is_signed src) eqn:Es;
      try pose proof (lowest_unsigned dst Ed) as Ld; try pose proof (lowest_unsigned src Es) as Ls.
    + rewrite !Op_same by congruence. by_comparisons.
    + assert (0 <= v) by (unfold in_type in *; lia).
      assert (in_type (common src dst) v /\ in_type (common src dst) (max_of dst)) as [Hp Hp']
        by (split; [by apply common_nonneg|rewrite common_comm; apply common_nonneg; [done|lia]]).
      rewrite (Op_same LeOp dst dst) by done. rewrite (convert_id _ v), (convert_id _ (max_of dst)) by done.
      rewrite (Op_nonneg LeOp) by (done || lia). cbn [holds].
      rewrite (proj2 (Z.leb_le (lowest dst) 0)) by lia. by_comparisons.
    + rewrite Ld. assert (in_type (common src dst) (max_of src) /\ in_type (common src dst) (max_of dst)) as [Hp Hp']
        by (split; [apply common_nonneg|rewrite common_comm; apply common_nonneg]; done || lia).
      rewrite (Op_same GeOp src src), (Op_nonneg EqOp dst I32) by (done || apply in_zero).
      rewrite (convert_id _ (max_of src)), (convert_id _ (max_of dst)) by done.
      rewrite (Op_nonneg LeOp _ _ (max_of src)) by (done || lia).
      cbn [holds]. rewrite Z.eqb_refl. cbn [orb]. rewrite andb_true_r.
      destruct (Z.leb_spec (max_of src) (max_of dst)); [cbn [orb]; unfold in_type in *; by_comparisons|].
      assert (in_type (common src dst) v) by (apply common_signed; done).
      rewrite convert_id, Op_same by done. by_comparisons.
    + rewrite !Op_same by congruence. unfold in_type in *. by_comparisons.
  - bool_prop. assert (in_type dst v /\ in_type dst (lowest src) /\ in_type dst (max_of src)) as (? & ? & ?)
      by (unfold in_type in *; lia).
    rewrite !convert_id, !Op_same by done. unfold in_type in *. by_comparisons.
Qed.

Lemma Test_exact op L R l r : in_type L l -> in_type R r -> Test op L R l r = holds op l r.
Proof.
  intros Hl Hr. unfold Test. rewrite !DstRange_exact by done.
  destruct (decide (in_type R l /\ in_type L r)) as [[Hl' Hr']|Hn].
  - assert (Op op L R l r = holds op l r) as ->.
    { destruct (decide (is_signed L = is_signed R)) as [E|E]; [by apply Op_same|].
      apply Op_nonneg; try done; pose proof (lowest_unsigned L); pose proof (lowest_unsigned R);
        unfold in_type in *; destruct (is_signed L), (is_signed R); done || lia. }
    unfold IsUnderflow, IsOverflow, RC_eq, in_type in *. cbn. destruct op; by_comparisons.
  - assert (RC_eq (mkRangeCheck (l <? lowest R) (max_of R <? l)) (mkRangeCheck (r <? lowest L) (max_of L <? r)) = false) as ->.
    { unfold RC_eq, in_type in *. cbn. pose proof (range_order L). pose proof (range_order R). by_comparisons. }
    unfold IsUnderflow, IsOverflow, in_type in *. cbn. destruct op; by_comparisons.
Qed.

(** The promotion of a pair holds both types whenever it says so. *)
Lemma BigEnough_contains l r : let '(p, c) := BigEnoughPromotion l r in
  (c = true -> forall z, in_type l z \/ in_type r z -> in_type p z).
Proof.
  assert ((let '(p, c) := BigEnoughPromotion l r in implb c
     ((lowest p <=? lowest l) && (max_of l <=? max_of p) && (lowest p <=? lowest r) && (max_of r <=? max_of p))) = true) as E
    by (destruct l, r; vm_compute; reflexivity).
  destruct (BigEnoughPromotion l r) as [p c]. intros ->. cbn in E. bool_prop. unfold in_type. lia.
Qed.

Lemma SafeCompare_exact op L R l r : in_type L l -> in_type R r -> SafeCompare op L R l r = holds op l r.
Proof.
  intros Hl Hr. unfold SafeCompare. pose proof (BigEnough_contains L R) as H.
  destruct (BigEnoughPromotion L R) as [p []]; [|by apply Test_exact].
  rewrite !convert_id by auto. apply Test_exact; auto.
Qed.

Lemma CommonMax_exact dst src : CommonMax dst src = Z.min (max_of dst) (max_of src).
Proof.
  unfold CommonMax, IsMaxInRangeForNumericType. rewrite Test_exact by apply in_max. cbn [holds].
  pose proof (range_order dst). pose proof (range_order src). destruct (Z.leb_spec (max_of src) (max_of dst)); cbn; [|lia].
  rewrite convert_id; unfold in_type; lia.
Qed.
Lemma CommonMin_exact dst src : CommonMin dst src = Z.max (lowest dst) (lowest src).
Proof.
  unfold CommonMin, IsMinInRangeForNumericType. rewrite Test_exact by apply in_lowest. cbn [holds].
  pose proof (range_order dst). pose proof (range_order src). destruct (Z.leb_spec (lowest dst) (lowest src)); cbn; [|lia].
  rewrite convert_id; unfold in_type; lia.
Qed.
Lemma CommonMaxOrMin_self t b : CommonMaxOrMin t t b = if b then lowest t else max_of t.
Proof. unfold CommonMaxOrMin. rewrite CommonMax_exact, CommonMin_exact. destruct b; lia. Qed.

(** Reading a value of a signed type as an unsigned one of the same width. *)
Lemma as_unsigned_exact t z : in_type t z ->
  as_unsigned t z = (if is_signed t && (z <? 0) then z + 2 ^ (8 * sizeof t) else z).
Proof.
  intros H. assert (0 < 2 ^ (8 * sizeof t - 1) /\ 2 ^ (8 * sizeof t) = 2 * 2 ^ (8 * sizeof t - 1)) as [Hp E]
    by (destruct t; vm_compute; done).
  assert (as_unsigned t z = z mod 2 ^ (8 * sizeof t)) as -> by (by destruct t).
  unfold in_type, lowest, max_of in H. destruct (is_signed t); cbn [andb]; [destruct (Z.ltb_spec z 0)|].
  - rewrite <- (Z.mod_unique z (2 ^ (8 * sizeof t)) (-1) (z + 2 ^ (8 * sizeof t))); lia.
  - apply Z.mod_small. lia.
  - apply Z.mod_small. lia.
Qed.
Lemma as_unsigned_range t z : in_type (make_unsigned t) (as_unsigned t z).
Proof. apply convert_range. Qed.

Lemma IsValueInRange_exact dst src v : in_type src v ->
  IsValueInRangeForNumericType dst src v = bool_decide (in_type dst v).
Proof.
  intros Hv. apply eq_true_iff_eq. rewrite bool_decide_eq_true.
  unfold IsValueInRangeForNumericType, IsValueInRangeFastOp.
  assert (RC_IsValid (DstRangeRelationToSrcRange dst src v) = true <-> in_type dst v) as HR.
  { rewrite DstRange_exact by done. unfold RC_IsValid, in_type. cbn.
    rewrite andb_true_iff, !negb_true_iff, !Z.ltb_ge. lia. }
  pose proof (StaticRange_exact dst src) as E. destruct (IsTypeInRangeForNumericType dst src); [done|].
  destruct (is_signed dst) eqn:Ed, (is_signed src) eqn:Es; try done.
  - rewrite Op_same by (congruence || apply convert_range || done). cbn [holds]. rewrite Z.eqb_eq. split.
    + intros ->. apply convert_range.
    + intros H. by rewrite convert_id.
  - rewrite Op_same by (done || apply as_unsigned_range). cbn [holds]. rewrite CommonMax_exact, Z.leb_le.
    pose proof (range_order src). pose proof (range_order dst).
    rewrite !as_unsigned_exact by (done || unfold in_type; lia). rewrite Es. cbn [andb].
    rewrite (proj2 (Z.ltb_ge (Z.min (max_of src) (max_of dst)) 0)) by lia.
    assert (max_of src < 2 ^ (8 * sizeof src) + lowest src) as Hw by (destruct src; vm_compute; done).
    unfold in_type in *. rewrite (lowest_unsigned dst) by done. destruct (Z.ltb_spec v 0); lia.
Qed.

Lemma SaturateFastOp_exact dst src v : in_type src v -> SaturateFastOp_Do dst src v = clamp dst v.
Proof.
  intros Hv. unfold SaturateFastOp_Do. rewrite IsValueInRange_exact by done. case_bool_decide as Hin.
  { rewrite convert_id, clamp_id by done. done. }
  unfold CommonMaxOrMin. rewrite CommonMax_exact, CommonMin_exact.
  unfold IsMaxInRangeForNumericType, IsMinInRangeForNumericType, IsValueNegative.
  rewrite !Test_exact by (apply in_max || apply in_lowest). cbn [holds].
  pose proof (range_order src). pose proof (range_order dst). pose proof (lowest_unsigned src).
  unfold clamp, in_type in *. destruct (is_signed src); [|specialize (H1 eq_refl)]; cbn [andb];
    split_comparisons; cbn; lia.
Qed.

Lemma saturated_cast_exact c dst src v : in_type src v -> saturated_cast c dst src v = clamp dst v.
Proof.
  intros Hv. unfold saturated_cast. destruct c; cbn; [|by apply SaturateFastOp_exact].
  unfold saturated_cast_impl, Underflow, Overflow. rewrite DstRange_exact by done. cbn. unfold clamp.
  pose proof (range_order dst).
  destruct (Z.ltb_spec (max_of dst) v); [cbn; lia|]. destruct (Z.ltb_spec v (lowest dst)); cbn; [lia|].
  rewrite convert_id; unfold in_type; lia.
Qed.

(** The range test, the aborting, the saturating (by both of its paths) and the static
    conversion agree with the mathematical ones, and so do the comparisons of two values
    of any types. *)
Theorem base_conversions_exact dst src v w : in_type src v -> in_type dst w ->
  IsValueInRangeForNumericType dst src v = bool_decide (in_type dst v) /\
  checked_cast dst src v = (if bool_decide (in_type dst v) then Ok v else Crash) /\
  (forall is_constant, saturated_cast is_constant dst src v = clamp dst v) /\
  (forall z, strict_cast dst src v = Some z -> z = v) /\
  (forall op, SafeCompare op src dst v w = holds op v w).
Proof.
  intros Hv Hw. split_and!.
  - by apply IsValueInRange_exact.
  - unfold checked_cast. rewrite IsValueInRange_exact by done. case_bool_decide; by rewrite ?convert_id.
  - intros c. by apply saturated_cast_exact.
  - intros z. unfold strict_cast. pose proof (StaticRange_exact dst src) as E.
    destruct (IsTypeInRangeForNumericType dst src); intros [= <-]. symmetry in E. bool_prop.
    apply convert_id. unfold in_type in *. lia.
  - intros op. by apply SafeCompare_exact.
Qed.

Lemma base_conversions_exact_witness : saturated_cast false U8 I32 300 = 255 /\ SafeCompare LtOp I32 U8 300 7 = false.
Proof.
  destruct (base_conversions_exact U8 I32 300 7 ltac:(in_range) ltac:(in_range)) as (_ & _ & H & _ & H').
  split; [exact (H false)|exact (H' LtOp)].
Defined.
