(* ===== verification/CheckedMath.v ===== *)
(** * Checked arithmetic

    [base/numerics/checked_math_impl.h], [checked_math.h], [safe_math_shared_impl.h] and
    [safe_math_clang_gcc_impl.h] of [include/webrtc], on the integer types: the operations
    that compute a result together with its validity, by the compiler's overflow built-ins
    or by the portable promotions.  [CheckedNumeric] builds the class on them.
    Pointers are 64 bits wide; the assembler variants for 32-bit ARM are left out. *)

From S2P Require Import Prelude SafeNum Conversions.

(** What [safe_math_shared_impl.h] selects on: no built-ins, GCC's or Clang's. *)
Inductive toolchain := Portable | Gcc | Clang.

Inductive math_op := Add | Sub | Mul | Div | Mod | Lsh | Rsh | And_ | Or_ | Xor | Max | Min.

(** ** Machine arithmetic *)

(** The value of an arithmetic expression of type [p]: unsigned types wrap, a signed result
    out of range is undefined. *)
Definition value_of (p : ity) (z : Z) : res Z :=
  if is_signed p then (if bool_decide (in_type p z) then Ok z else Undef) else Ok (convert p z).
(** An operation on two operands of type [t], assigned back to a [t]. *)
Definition arith_in (t : ity) (z : Z) : res Z := v ← value_of (promote t) z; Ok (convert t v).

(** [!__builtin_*_overflow(x, y, result)]: whether the exact result fits, and the result
    stored. *)
Definition builtin_op (V : ity) (exact : Z) : bool * Z := (bool_decide (in_type V exact), convert V exact).

Definition has_builtins (tc : toolchain) : bool := match tc with Portable => false | _ => true end.
Definition CheckedMulFastOp_is_supported (tc : toolchain) (T U : ity) : bool :=
  match tc with
  | Portable => false
  | Gcc => true
  | Clang => (IsTypeInRangeForNumericType I64 T && IsTypeInRangeForNumericType I64 U) ||
             (IsTypeInRangeForNumericType U64 T && IsTypeInRangeForNumericType U64 U)
  end.

(** ** The unary wrappers of [safe_math_shared_impl.h] *)
Definition NegateWrapper (t : ity) (value : Z) : Z :=
  let u := make_unsigned t in convert t (convert (common u u) (0 - convert u value)).
Definition InvertWrapper (t : ity) (value : Z) : Z := convert (make_unsigned t) (Z.lnot value).
Definition AbsWrapper (t : ity) (value : Z) : Z := convert t (SafeUnsignedAbs t value).

(** ** The operations: validity, and [*result] *)
Definition CheckedAddImpl (t : ity) (x y : Z) : bool * Z :=
  let u := make_unsigned t in
  let ux := convert u x in let uy := convert u y in
  let uresult := convert u (ux + uy) in
  (if is_signed t
   then 0 <=? convert (make_signed t) (Z.land (Z.lxor uresult ux) (Z.lxor uresult uy))
   else uy <=? uresult,
   convert t uresult).

Definition CheckedSubImpl (t : ity) (x y : Z) : bool * Z :=
  let u := make_unsigned t in
  let ux := convert u x in let uy := convert u y in
  let uresult := convert u (ux - uy) in
  (if is_signed t
   then 0 <=? convert (make_signed t) (Z.land (Z.lxor uresult ux) (Z.lxor ux uy))
   else y <=? x,
   convert t uresult).

(** [ux * uy] on a narrow type is an [int] product. *)
Definition CheckedMulImpl (t : ity) (x y : Z) : res (bool * Z) :=
  let u := make_unsigned t in
  let ux := SafeUnsignedAbs t x in let uy := SafeUnsignedAbs t y in
  uresult ← arith_in u (ux * uy);
  let is_negative := is_signed t && (convert (make_signed t) (Z.lxor x y) <? 0) in
  let c := common t u in
  Ok (if uy <=? Z.b2z (negb (is_signed t) || is_negative) then true
      else ux <=? convert c (convert c (max_of t) + Z.b2z is_negative) / uy,
      convert t (if is_negative then convert (common I32 u) (0 - uresult) else uresult)).

(** Doubles the operand type up to a machine word. *)
Definition AddPromotion (T U : ity) : ity :=
  let fast := FastIntegerArithmeticPromotion T U in
  if IntegerBitsPlusSign I64 <? IntegerBitsPlusSign fast then fst (BigEnoughPromotion T U) else fast.

Definition CheckedAddOp (tc : toolchain) (T U V : ity) (x y result : Z) : res (bool * Z) :=
  if has_builtins tc then Ok (builtin_op V (x + y))
  else
    let P := AddPromotion T U in
    if negb (IsValueInRangeForNumericType P T x) || negb (IsValueInRangeForNumericType P U y)
    then Ok (false, result)
    else
      '(is_valid, presult) ←
        (if IsIntegerArithmeticSafe P T U
         then p ← arith_in P (convert P x + convert P y); Ok (true, p)
         else Ok (CheckedAddImpl P (convert P x) (convert P y)));
      Ok (is_valid && IsValueInRangeForNumericType V P presult, convert V presult).

Definition CheckedSubOp (tc : toolchain) (T U V : ity) (x y result : Z) : res (bool * Z) :=
  if has_builtins tc then Ok (builtin_op V (x - y))
  else
    let P := AddPromotion T U in
    if negb (IsValueInRangeForNumericType P T x) || negb (IsValueInRangeForNumericType P U y)
    then Ok (false, result)
    else
      '(is_valid, presult) ←
        (if IsIntegerArithmeticSafe P T U
         then p ← arith_in P (convert P x - convert P y); Ok (true, p)
         else Ok (CheckedSubImpl P (convert P x) (convert P y)));
      Ok (is_valid && IsValueInRangeForNumericType V P presult, convert V presult).

Definition CheckedMulOp (tc : toolchain) (T U V : ity) (x y result : Z) : res (bool * Z) :=
  if CheckedMulFastOp_is_supported tc T U then Ok (builtin_op V (x * y))
  else
    let P := FastIntegerArithmeticPromotion T U in
    if (negb (IsValueInRangeForNumericType P T x) || negb (IsValueInRangeForNumericType P U y))
       && negb (x =? 0) && negb (y =? 0)
    then Ok (false, result)
    else
      '(is_valid, presult) ←
        (if CheckedMulFastOp_is_supported tc P P then Ok (builtin_op P (convert P x * convert P y))
         else if IsIntegerArithmeticSafe P T U
         then p ← arith_in P (convert P x * convert P y); Ok (true, p)
         else CheckedMulImpl P (convert P x) (convert P y));
      Ok (is_valid && IsValueInRangeForNumericType V P presult, convert V presult).

Definition CheckedDivOp (T U V : ity) (x y result : Z) : res (bool * Z) :=
  if y =? 0 then Ok (false, result)
  else
    let P := fst (BigEnoughPromotion T U) in
    if is_signed T && is_signed U && IsTypeInRangeForNumericType T P &&
       (convert P x =? lowest P) && (y =? convert U (-1))
    then Ok (false, result)
    else if (negb (IsValueInRangeForNumericType P T x) || negb (IsValueInRangeForNumericType P U y)) && negb (x =? 0)
    then Ok (false, result)
    else
      _ ← defined (negb (convert P y =? 0));
      presult ← arith_in P (Z.quot (convert P x) (convert P y));
      Ok (IsValueInRangeForNumericType V P presult, convert V presult).

(** The remainder is undefined when the quotient is. *)
Definition CheckedModOp (T U V : ity) (x y result : Z) : res (bool * Z) :=
  let P := fst (BigEnoughPromotion T U) in
  if negb (y =? 0) then
    _ ← defined (negb (convert P y =? 0));
    _ ← arith_in P (Z.quot (convert P x) (convert P y));
    presult ← arith_in P (Z.rem (convert P x) (convert P y));
    Ok (IsValueInRangeForNumericType V P presult, convert V presult)
  else Ok (false, result).

Definition CheckedLshOp (T U V : ity) (x shift result : Z) : res (bool * Z) :=
  let us := as_unsigned U shift in let d := as_unsigned I32 (digits T) in
  if negb (IsValueNegative T x) && Op LtOp (make_unsigned U) U32 us d then
    v ← value_of (promote (make_unsigned T)) (Z.shiftl (as_unsigned T x) shift);
    Ok (Op EqOp (promote V) T (Z.shiftr (convert V v) shift) x, convert V v)
  else Ok (is_signed T && (x =? 0) && Op EqOp (make_unsigned U) U32 us d, result).

Definition CheckedRshOp (T U V : ity) (x shift result : Z) : res (bool * Z) :=
  if Op LtOp (make_unsigned U) I32 (as_unsigned U shift) (IntegerBitsPlusSign T) then
    let tmp := convert T (Z.shiftr x shift) in
    Ok (IsValueInRangeForNumericType V T tmp, convert V tmp)
  else Ok (false, result).

(** [CheckedAndOp], [CheckedOrOp] and [CheckedXorOp]. *)
Definition bitwise_type (T U : ity) : ity := make_unsigned (MaxExponentPromotion T U).
Definition CheckedBitOp (f : Z -> Z -> Z) (T U V : ity) (x y : Z) : bool * Z :=
  let r := bitwise_type T U in
  let tmp := convert r (f (convert r x) (convert r y)) in
  (IsValueInRangeForNumericType V r tmp, convert V tmp).

Definition CheckedMaxOp (T U V : ity) (x y : Z) : bool * Z :=
  let r := MaxExponentPromotion T U in
  let tmp := if Test GtOp T U x y then convert r x else convert r y in
  (IsValueInRangeForNumericType V r tmp, convert V tmp).
Definition CheckedMinOp (T U V : ity) (x y : Z) : bool * Z :=
  let r := LowestValuePromotion T U in
  let tmp := if Test LtOp T U x y then convert r x else convert r y in
  (IsValueInRangeForNumericType V r tmp, convert V tmp).

(** [M<T, U>::Do<V>(x, y, &result)] and [M<T, U>::result_type]. *)
Definition Do (tc : toolchain) (m : math_op) (T U V : ity) (x y result : Z) : res (bool * Z) :=
  match m with
  | Add => CheckedAddOp tc T U V x y result
  | Sub => CheckedSubOp tc T U V x y result
  | Mul => CheckedMulOp tc T U V x y result
  | Div => CheckedDivOp T U V x y result
  | Mod => CheckedModOp T U V x y result
  | Lsh => CheckedLshOp T U V x y result
  | Rsh => CheckedRshOp T U V x y result
  | And_ => Ok (CheckedBitOp Z.land T U V x y)
  | Or_ => Ok (CheckedBitOp Z.lor T U V x y)
  | Xor => Ok (CheckedBitOp Z.lxor T U V x y)
  | Max => Ok (CheckedMaxOp T U V x y)
  | Min => Ok (CheckedMinOp T U V x y)
  end.

Definition result_type (m : math_op) (T U : ity) : ity :=
  match m with
  | Add | Sub | Mul | Div | Mod | Max => MaxExponentPromotion T U
  | Lsh | Rsh => T
  | And_ | Or_ | Xor => bitwise_type T U
  | Min => LowestValuePromotion T U
  end.

(** ** Laws of the machine arithmetic *)
Lemma wrapS_sign w z : 0 < w -> (0 <=? wrapS w z) = negb (Z.testbit z (w - 1)).
Proof.
  intros Hw. pose proof (Z.testbit_spec' z (w - 1) ltac:(lia)) as H. unfold wrapS.
  assert (0 < 2 ^ (w - 1)) as HM by (apply Z.pow_pos_nonneg; lia).
  replace (2 ^ w) with (2 * 2 ^ (w - 1)) by (rewrite <- Z.pow_succ_r by lia; f_equal; lia).
  set (M := 2 ^ (w - 1)) in *. pose proof (Z.div_mod z M ltac:(lia)) as Hd.
  pose proof (Z.mod_pos_bound z M HM). pose proof (Z.div_mod (z / M) 2 ltac:(lia)) as Hq.
  pose proof (Z.mod_pos_bound (z / M) 2 ltac:(lia)).
  destruct (Z.testbit z (w - 1)); cbn [Z.b2z] in H; cbn [negb].
  - rewrite <- (Z.mod_unique (z + M) (2 * M) (z / M / 2 + 1) (z mod M)) by nia. apply Z.leb_gt. lia.
  - rewrite <- (Z.mod_unique (z + M) (2 * M) (z / M / 2) (M + z mod M)) by nia. apply Z.leb_le. lia.
Qed.

Lemma wrapU_wrapS w z : 0 < w -> wrapU w (wrapS w z) = wrapU w z.
Proof.
  intros Hw. unfold wrapU, wrapS.
  rewrite <- Zminus_mod_idemp_l, Z.mod_mod, Zminus_mod_idemp_l by (apply Z.pow_nonzero; lia). f_equal. lia.
Qed.

Lemma bits_pos t : 0 < 8 * sizeof t.
Proof. destruct t; cbn; lia. Qed.
Lemma convert_unsigned t z : convert (make_unsigned t) z = wrapU (8 * sizeof t) z.
Proof. by destruct t. Qed.
Lemma convert_make_signed t z : convert (make_signed t) z = wrapS (8 * sizeof t) z.
Proof. by destruct t. Qed.

(** Conversions to types of one width forget the same multiples of [2 ^ w]. *)
Lemma convert_convert_u t z : convert t (convert (make_unsigned t) z) = convert t z.
Proof.
  rewrite convert_unsigned. unfold convert. pose proof (bits_pos t).
  destruct (is_signed t); [by apply wrapS_wrapU|]. unfold wrapU. apply Z.mod_mod, Z.pow_nonzero; lia.
Qed.
Lemma convert_u_convert t z : convert (make_unsigned t) (convert t z) = convert (make_unsigned t) z.
Proof.
  rewrite !convert_unsigned. unfold convert. pose proof (bits_pos t).
  destruct (is_signed t); [by apply wrapU_wrapS|]. unfold wrapU. apply Z.mod_mod, Z.pow_nonzero; lia.
Qed.

Lemma unsigned_add t x y : let u := make_unsigned t in convert u (convert u x + convert u y) = convert u (x + y).
Proof. cbn. rewrite !convert_unsigned. unfold wrapU. by rewrite <- Zplus_mod. Qed.
Lemma unsigned_sub t x y : let u := make_unsigned t in convert u (convert u x - convert u y) = convert u (x - y).
Proof. cbn. rewrite !convert_unsigned. unfold wrapU. by rewrite <- Zminus_mod. Qed.

(** The top bit of a value read as unsigned is its sign. *)
Lemma sign_bit t z : is_signed t = true -> Z.testbit (convert (make_unsigned t) z) (8 * sizeof t - 1) = (convert t z <? 0).
Proof.
  intros E. pose proof (bits_pos t). assert (convert t z = wrapS (8 * sizeof t) z) as -> by (unfold convert; by rewrite E).
  rewrite convert_unsigned, <- (wrapS_wrapU (8 * sizeof t) z) by done. set (u := wrapU _ z).
  rewrite Z.ltb_antisym, wrapS_sign, negb_involutive by done. done.
Qed.

Lemma convert_signed_sum t z : is_signed t = true -> 2 * lowest t <= z <= 2 * max_of t + 1 ->
  convert t z = if z <? lowest t then z + 2 ^ (8 * sizeof t) else if max_of t <? z then z - 2 ^ (8 * sizeof t) else z.
Proof.
  intros E H. unfold convert, lowest, max_of in *. rewrite E in *. pose proof (bits_pos t).
  assert (2 ^ (8 * sizeof t) = 2 * 2 ^ (8 * sizeof t - 1)) as Ep by (rewrite <- Z.pow_succ_r by lia; f_equal; lia).
  unfold wrapS. rewrite Ep in *. set (M := 2 ^ _) in *.
  destruct (Z.ltb_spec z (- M)); [rewrite <- (Z.mod_unique (z + M) (2 * M) (-1) (z + 3 * M)); lia|].
  destruct (Z.ltb_spec (M - 1) z); [rewrite <- (Z.mod_unique (z + M) (2 * M) 1 (z - M)); lia|].
  rewrite Z.mod_small; lia.
Qed.

(** The sign of a sum or difference that may have wrapped. *)
Lemma wrapped_sign t z : is_signed t = true -> 2 * lowest t <= z <= 2 * max_of t + 1 ->
  lowest t = - (max_of t + 1) /\
  ((convert t z <? 0) = if bool_decide (in_type t z) then z <? 0 else 0 <=? z).
Proof.
  intros E H. rewrite convert_signed_sum by done.
  assert (2 ^ (8 * sizeof t) = 2 * (max_of t + 1) /\ lowest t = - (max_of t + 1)) as [-> El] by (by destruct t).
  split; [done|]. unfold in_type. rewrite El in *.
  destruct (Z.ltb_spec z (- (max_of t + 1))); [|destruct (Z.ltb_spec (max_of t) z)];
    case_bool_decide; split_comparisons; lia || done.
Qed.

Lemma CheckedAddImpl_exact t x y : in_type t x -> in_type t y ->
  CheckedAddImpl t x y = (bool_decide (in_type t (x + y)), convert t (x + y)).
Proof.
  intros Hx Hy. unfold CheckedAddImpl. rewrite unsigned_add, convert_convert_u. f_equal.
  destruct (is_signed t) eqn:E.
  - pose proof (bits_pos t). rewrite convert_make_signed, wrapS_sign, Z.land_spec, !Z.lxor_spec by done.
    rewrite !sign_bit, (convert_id t x), (convert_id t y) by done.
    destruct (wrapped_sign t (x + y) E) as [El ->]; [unfold in_type in *; lia|].
    unfold in_type in *. case_bool_decide; split_comparisons; cbn; done || lia.
  - assert (make_unsigned t = t) as -> by (by destruct t). rewrite (convert_id t y) by done.
    unfold convert, in_type, lowest, max_of in *. rewrite E in *. unfold wrapU.
    destruct (Z.ltb_spec (x + y) (2 ^ (8 * sizeof t))).
    + rewrite Z.mod_small, bool_decide_eq_true_2 by lia. apply Z.leb_le. lia.
    + rewrite <- (Z.mod_unique (x + y) (2 ^ (8 * sizeof t)) 1 (x + y - 2 ^ (8 * sizeof t))) by lia.
      rewrite bool_decide_eq_false_2 by lia. apply Z.leb_gt. lia.
Qed.

Lemma CheckedSubImpl_exact t x y : in_type t x -> in_type t y ->
  CheckedSubImpl t x y = (bool_decide (in_type t (x - y)), convert t (x - y)).
Proof.
  intros Hx Hy. unfold CheckedSubImpl. rewrite unsigned_sub, convert_convert_u. f_equal.
  destruct (is_signed t) eqn:E.
  - pose proof (bits_pos t). rewrite convert_make_signed, wrapS_sign, Z.land_spec, !Z.lxor_spec by done.
    rewrite !sign_bit, (convert_id t x), (convert_id t y) by done.
    assert (lowest t = - (max_of t + 1)) as El by (by destruct t).
    destruct (wrapped_sign t (x - y) E) as [_ ->]; [unfold in_type in *; lia|].
    unfold in_type in *. case_bool_decide; split_comparisons; cbn; done || lia.
  - unfold in_type in *. rewrite (lowest_unsigned t) in * by done. case_bool_decide; split_comparisons; done || lia.
Qed.

Lemma SafeUnsignedAbs_exact t v : in_type t v -> SafeUnsignedAbs t v = Z.abs v.
Proof.
  intros H. unfold SafeUnsignedAbs, IsValueNegative.
  assert (in_type (make_unsigned t) (Z.abs v)) as Ha by (destruct t; in_range).
  destruct (is_signed t) eqn:E; cbn [andb]; [destruct (Z.ltb_spec v 0)|].
  - replace (convert (make_unsigned t) (convert _ _)) with (convert (make_unsigned t) (0 - v)).
    { rewrite convert_id; [lia|]. by replace (0 - v) with (Z.abs v) by lia. }
    transitivity (convert (make_unsigned t) (0 - convert (make_unsigned t) v)).
    { rewrite !convert_unsigned. unfold wrapU. by rewrite Zminus_mod_idemp_r. }
    pose proof (convert_range (make_unsigned t) v) as Hr. destruct t; try discriminate E; cbn [make_unsigned] in *.
    1,2: rewrite (convert_id (common I32 _)) by in_range; done.
    1,2: symmetry; apply convert_id, convert_range.
  - rewrite convert_id; [lia|]. by replace v with (Z.abs v) by lia.
  - pose proof (lowest_unsigned t E). unfold in_type in H. rewrite convert_id; [lia|].
    by replace v with (Z.abs v) by lia.
Qed.

Lemma sign_xor t x y : is_signed t = true -> in_type t x -> in_type t y ->
  (convert (make_signed t) (Z.lxor x y) <? 0) = xorb (x <? 0) (y <? 0).
Proof.
  intros E Hx Hy. pose proof (bits_pos t).
  assert (forall z, in_type t z -> Z.testbit z (8 * sizeof t - 1) = (z <? 0)) as Hb.
  { intros z Hz. rewrite <- (negb_involutive (Z.testbit _ _)), <- wrapS_sign, Z.ltb_antisym by done. f_equal. f_equal.
    apply wrapS_id; [done|]. unfold in_s, in_type, lowest, max_of in *. rewrite E in Hz. lia. }
  rewrite convert_make_signed, Z.ltb_antisym, wrapS_sign, negb_involutive, Z.lxor_spec, !Hb by done. done.
Qed.

Lemma div_le a b n : 0 < b -> (a <=? n / b) = (a * b <=? n).
Proof.
  intros Hb. pose proof (Z.div_mod n b ltac:(lia)). pose proof (Z.mod_pos_bound n b Hb).
  destruct (Z.leb_spec a (n / b)), (Z.leb_spec (a * b) n); done || nia.
Qed.

Lemma CheckedMulImpl_exact t x y : 4 <= sizeof t -> in_type t x -> in_type t y ->
  CheckedMulImpl t x y = Ok (bool_decide (in_type t (x * y)), convert t (x * y)).
Proof.
  intros Hs Hx Hy. unfold CheckedMulImpl. rewrite !SafeUnsignedAbs_exact by done.
  assert (promote (make_unsigned t) = make_unsigned t /\ is_signed (make_unsigned t) = false /\
          common t (make_unsigned t) = make_unsigned t /\ common I32 (make_unsigned t) = make_unsigned t)
    as (Ep & Eu & Ec & Ei) by (destruct t; (cbn in Hs; lia) || done).
  unfold arith_in, value_of. rewrite Ep, Eu, Ec, Ei. cbn [mbind res_bind].
  set (neg := is_signed t && _).
  assert (neg = is_signed t && xorb (x <? 0) (y <? 0)) as En.
  { unfold neg. destruct (is_signed t) eqn:E; [|done]. by rewrite sign_xor. }
  clearbody neg. f_equal. f_equal.
  - rewrite (convert_id (make_unsigned t) (max_of t)) by (destruct t; in_range).
    rewrite convert_id by (destruct t, neg; in_range).
    assert (is_signed t = true -> lowest t = - (max_of t + 1)) as El by (by destruct t).
    pose proof (lowest_unsigned t). pose proof (range_order t).
    unfold in_type in *. destruct (Z.leb_spec (Z.abs y) (Z.b2z (negb (is_signed t) || neg))).
    + symmetry. apply bool_decide_eq_true_2. destruct (is_signed t) eqn:E; cbn in *;
        [destruct neg; cbn in *|]; destruct (Z.ltb_spec x 0), (Z.ltb_spec y 0); cbn in En; try discriminate En;
        assert (y = 0 \/ y = 1 \/ y = -1) as [-> | [-> | ->]] by lia; lia.
    + rewrite div_le by (destruct (negb (is_signed t)), neg; cbn in *; lia). apply eq_true_iff_eq.
      rewrite Z.leb_le, bool_decide_eq_true. rewrite <- Z.abs_mul. rewrite En in *.
      destruct (is_signed t) eqn:E; cbn in *; destruct (Z.ltb_spec x 0), (Z.ltb_spec y 0); cbn in *; nia.
  - assert (forall p, convert (make_unsigned t) (0 - convert (make_unsigned t) p) = convert (make_unsigned t) (- p)) as Hn.
    { intros p. rewrite !convert_unsigned. unfold wrapU. rewrite Zminus_mod_idemp_r. f_equal. }
    rewrite (convert_id _ (convert _ _)), Hn by apply convert_range.
    transitivity (convert t (if neg then - (Z.abs x * Z.abs y) else Z.abs x * Z.abs y));
      [destruct neg; apply convert_convert_u|]. f_equal. rewrite <- Z.abs_mul, En.
    pose proof (lowest_unsigned t). unfold in_type in *. destruct (is_signed t) eqn:E; cbn [andb]; [|specialize (H eq_refl); nia].
    destruct (Z.ltb_spec x 0), (Z.ltb_spec y 0); cbn [xorb]; nia.
Qed.

Lemma NegateWrapper_exact t v : NegateWrapper t v = convert t (- v).
Proof.
  unfold NegateWrapper. set (u := make_unsigned t).
  assert (convert (common u u) (0 - convert u v) = 0 - convert u v \/
          convert (common u u) (0 - convert u v) = convert u (0 - convert u v)) as [-> | ->].
  { pose proof (convert_range u v) as H. subst u. destruct t; cbn [make_unsigned] in *;
      try (left; apply convert_id; in_range); right; done. }
  2: unfold u; rewrite convert_convert_u; fold u.
  all: rewrite <- (convert_convert_u t (0 - _)), <- (convert_convert_u t (- v)); f_equal; unfold u;
    rewrite !convert_unsigned; unfold wrapU; rewrite Zminus_mod_idemp_r; f_equal; lia.
Qed.

(** ** The exact results *)
Definition exact (m : math_op) (x y : Z) : option Z :=
  match m with
  | Add => Some (x + y) | Sub => Some (x - y) | Mul => Some (x * y)
  | Div => if y =? 0 then None else Some (Z.quot x y)
  | Mod => if y =? 0 then None else Some (Z.rem x y)
  | Lsh => if y <? 0 then None else Some (x * 2 ^ y)
  | Rsh => if y <? 0 then None else Some (x / 2 ^ y)
  | And_ => Some (Z.land x y) | Or_ => Some (Z.lor x y) | Xor => Some (Z.lxor x y)
  | Max => Some (Z.max x y) | Min => Some (Z.min x y)
  end.

Definition fits (m : math_op) (V : ity) (x y : Z) : bool :=
  match exact m x y with Some z => bool_decide (in_type V z) | None => false end.

(** An operation is complete when it recognises every result that fits: the compiler's
    built-ins, the types of which one can hold both operands, and operands that are not
    negative (a difference apart). *)
Definition builtin (tc : toolchain) (m : math_op) (T U : ity) : bool :=
  match m with
  | Add | Sub => has_builtins tc
  | Mul => CheckedMulFastOp_is_supported tc T U
  | _ => false
  end.
Definition complete (tc : toolchain) (m : math_op) (T U : ity) (x y : Z) : bool :=
  builtin tc m T U || snd (BigEnoughPromotion T U) ||
  (match m with Sub => false | _ => true end && (0 <=? x) && (0 <=? y)).

Lemma arith_in_exact P z : in_type P z -> arith_in P z = Ok z.
Proof.
  intros H. unfold arith_in, value_of. pose proof (in_promote P z H) as Hp.
  destruct (is_signed (promote P)); [rewrite bool_decide_eq_true_2 by done|rewrite (convert_id (promote P)) by done];
    cbn; by rewrite convert_id.
Qed.

Lemma arith_in_wrap P z : is_signed P = false -> 4 <= sizeof P \/ in_type I32 z -> arith_in P z = Ok (convert P z).
Proof.
  intros E H. unfold arith_in, value_of, promote. destruct (Z.ltb_spec (sizeof P) 4) as [Hs|Hs].
  - destruct H as [H|H]; [lia|]. cbn [is_signed]. by rewrite bool_decide_eq_true_2.
  - rewrite E. cbn. by rewrite (convert_id P (convert P z)) by apply convert_range.
Qed.

(** Facts about the promotions, for all pairs of types. *)
Definition abs_max (t : ity) : Z := Z.max (- lowest t) (max_of t).
Definition promotion_facts (T U : ity) : bool :=
  let P := FastIntegerArithmeticPromotion T U in
  implb (snd (BigEnoughPromotion T U))
    ((lowest P <=? lowest T) && (lowest P <=? lowest U) && (max_of T <=? max_of P) && (max_of U <=? max_of P)) &&
  (if IsIntegerArithmeticSafe P T U
   then (lowest P <=? lowest T + lowest U) && (max_of T + max_of U <=? max_of P) &&
        (abs_max T * abs_max U <=? max_of P) &&
        (if is_signed P then (lowest P <=? lowest T - max_of U) && (max_of T - lowest U <=? max_of P)
         else (lowest T =? 0) && (lowest U =? 0) && (2 * Z.max (max_of T) (max_of U) <? 2 ^ (8 * sizeof P)) &&
              ((4 <=? sizeof P) || (Z.max (max_of T) (max_of U) <=? max_of I32)))
   else 4 <=? sizeof P).
Lemma promotion_facts_all T U : promotion_facts T U = true.
Proof. destruct T, U; vm_compute; reflexivity. Qed.

Lemma bounded_product a b A B : Z.abs a <= A -> Z.abs b <= B -> - (A * B) <= a * b <= A * B.
Proof. intros Ha Hb. assert (Z.abs (a * b) <= A * B) by (rewrite Z.abs_mul; apply Z.mul_le_mono_nonneg; lia). lia. Qed.

(** The outcome of an operation whose exact result is [z]: it is defined, a valid result is
    the exact one and fits, and when [c] holds every result that fits is valid. *)
Definition correct (o : res (bool * Z)) (V : ity) (z : option Z) (c : bool) : Prop :=
  exists b r, o = Ok (b, r) /\ (b = true -> z = Some r /\ in_type V r) /\
    (c = true -> b = match z with Some z => bool_decide (in_type V z) | None => false end).

Lemma correct_builtin V z c : correct (Ok (builtin_op V z)) V (Some z) c.
Proof.
  exists (bool_decide (in_type V z)), (convert V z). split_and!; [done| |done].
  intros H. apply bool_decide_eq_true in H. by rewrite convert_id.
Qed.

Lemma correct_rejected V z r (c : bool) : (c = true -> match z with Some z => ~ in_type V z | None => True end) ->
  correct (Ok (false, r)) V z c.
Proof.
  intros H. exists false, r. split_and!; [done..|]. intros Hc. specialize (H Hc). destruct z; [|done].
  by rewrite bool_decide_eq_false_2.
Qed.

(** The last step of the portable operations, on a promoted result that may have wrapped. *)
Lemma correct_promoted (P V : ity) (ok : bool) p z (c : bool) : in_type P p ->
  (ok = true -> p = z \/ ~ in_type V p) -> (c = true -> (ok = true -> p <> z -> ~ in_type V z) /\ (ok = false -> ~ in_type V z)) ->
  correct (Ok (ok && IsValueInRangeForNumericType V P p, convert V p)) V (Some z) c.
Proof.
  intros Hp Ht Hc. rewrite IsValueInRange_exact by done.
  exists (ok && bool_decide (in_type V p)), (convert V p). split_and!; [done|..].
  - intros H. apply andb_prop in H as [-> H]. apply bool_decide_eq_true in H. rewrite convert_id by done.
    destruct (Ht eq_refl) as [->|Hn]; done.
  - intros E. destruct (Hc E) as [H1 H2]. destruct ok; cbn; [|by rewrite bool_decide_eq_false_2 by auto].
    destruct (Ht eq_refl) as [->|Hn]; [done|]. destruct (decide (p = z)) as [->|Hne]; [done|].
    by rewrite !bool_decide_eq_false_2 by auto.
Qed.

(** The types a result is stored in: the left operand's for an assignment, the promoted one
    otherwise. *)
Definition assignable (m : math_op) (T U V : ity) : Prop := V = T \/ V = result_type m T U.

Definition result_facts (T U : ity) : bool :=
  let P := FastIntegerArithmeticPromotion T U in
  let ok V := (max_of V <=? max_of P) && (max_of V <=? Z.max (max_of T) (max_of U)) &&
              implb (snd (BigEnoughPromotion T U)) (lowest P <=? lowest V) in
  ok T && ok (MaxExponentPromotion T U) &&
  implb (negb (snd (BigEnoughPromotion T U))) (bool_decide (P = U64)).
Lemma result_facts_all T U : result_facts T U = true.
Proof. destruct T, U; vm_compute; reflexivity. Qed.
Lemma result_facts_V m T U V : result_type m T U = MaxExponentPromotion T U -> assignable m T U V ->
  let P := FastIntegerArithmeticPromotion T U in
  max_of V <= max_of P /\ max_of V <= Z.max (max_of T) (max_of U) /\
  (snd (BigEnoughPromotion T U) = true -> lowest P <= lowest V) /\
  (snd (BigEnoughPromotion T U) = false -> P = U64).
Proof.
  intros Er HV. cbn. pose proof (result_facts_all T U) as H. unfold result_facts in H. rewrite <- Er in H.
  destruct HV as [-> | ->]; destruct (snd (BigEnoughPromotion T U)); cbn in H; bool_prop; split_and!; try done.
Qed.

(** When an operation is complete its operands are representable in the promoted type. *)
Lemma promoted_operands T U x y : in_type T x -> in_type U y ->
  snd (BigEnoughPromotion T U) || (0 <=? x) && (0 <=? y) = true ->
  in_type (FastIntegerArithmeticPromotion T U) x /\ in_type (FastIntegerArithmeticPromotion T U) y.
Proof.
  intros Hx Hy H. pose proof (promotion_facts_all T U) as HP. unfold promotion_facts in HP.
  apply andb_prop in HP as [HP _].
  destruct (result_facts_V Add T U T eq_refl (or_introl eq_refl)) as (_ & _ & _ & E64).
  destruct (snd (BigEnoughPromotion T U)); cbn in *; bool_prop.
  - unfold in_type in *. lia.
  - rewrite E64 by done. split; [destruct T|destruct U]; in_range.
Qed.

Lemma AddPromotion_fast T U : AddPromotion T U = FastIntegerArithmeticPromotion T U.
Proof. by destruct T, U. Qed.

(** The exact sum and product when the promoted type is twice as wide, and a difference that
    may wrap. *)
Lemma safe_facts T U x y : let P := FastIntegerArithmeticPromotion T U in in_type T x -> in_type U y ->
  if IsIntegerArithmeticSafe P T U
  then in_type P (x + y) /\ in_type P (x * y) /\
       (in_type P (x - y) \/
        is_signed P = false /\ (4 <= sizeof P \/ in_type I32 (x - y)) /\ 0 <= x /\ 0 <= y /\
        2 * Z.max (max_of T) (max_of U) < 2 ^ (8 * sizeof P))
  else 4 <= sizeof P.
Proof.
  intros P Hx Hy. pose proof (promotion_facts_all T U) as H. unfold promotion_facts in H. fold P in H.
  apply andb_prop in H as [_ H].
  destruct (IsIntegerArithmeticSafe P T U); bool_prop; [|done].
  assert (Z.abs x <= abs_max T /\ Z.abs y <= abs_max U) as [Hax Hay] by (unfold abs_max, in_type in *; lia).
  pose proof (bounded_product _ _ _ _ Hax Hay) as Hm.
  assert (is_signed P = true -> lowest P = - (max_of P + 1)) as El by (by destruct P).
  destruct (is_signed P) eqn:E; bool_prop; unfold in_type in *.
  - specialize (El eq_refl). split_and!; lia.
  - rewrite (lowest_unsigned P) in * by done. split_and!; try nia.
    right. split_and!; [done| |lia..].
    match goal with H : _ || _ = true |- _ => apply orb_prop in H as [H|H]; bool_prop; [by left|right] end.
    assert (lowest I32 = - max_of I32 - 1) by done. lia.
Qed.

Lemma CheckedAddOp_correct tc T U V x y r0 : in_type T x -> in_type U y -> assignable Add T U V ->
  correct (CheckedAddOp tc T U V x y r0) V (Some (x + y)) (complete tc Add T U x y).
Proof.
  intros Hx Hy HV. unfold CheckedAddOp, complete, builtin. destruct (has_builtins tc); [apply correct_builtin|].
  cbn [orb andb]. destruct (result_facts_V Add T U V eq_refl HV) as (HV1 & HV2 & HV3 & HV4).
  pose proof (promoted_operands T U x y Hx Hy) as Hheld. pose proof (safe_facts T U x y Hx Hy) as Hsafe. cbn in Hsafe.
  rewrite AddPromotion_fast, !IsValueInRange_exact by done. set (P := FastIntegerArithmeticPromotion T U) in *.
  destruct (bool_decide (in_type P x)) eqn:Ex; [destruct (bool_decide (in_type P y)) eqn:Ey|]; cbn [negb orb].
  2,3: apply correct_rejected; intros Hc; destruct (Hheld Hc); bool_prop; done.
  bool_prop. rewrite !convert_id by done. destruct (IsIntegerArithmeticSafe P T U).
  - destruct Hsafe as (Hs & _). rewrite arith_in_exact by done. cbn [mbind res_bind].
    apply correct_promoted; auto. split; congruence.
  - rewrite CheckedAddImpl_exact by done. cbn [mbind res_bind]. apply correct_promoted; [apply convert_range|..].
    + intros H. bool_prop. left. by apply convert_id.
    + intros Hc. split; intros H; bool_prop; [intros Hn; exfalso; by rewrite convert_id in Hn|].
      destruct (snd (BigEnoughPromotion T U)); [specialize (HV3 eq_refl); unfold in_type in *; lia|].
      cbn in Hc. bool_prop. rewrite (HV4 eq_refl) in *. unfold in_type in *. change (lowest U64) with 0 in *. lia.
Qed.

Lemma CheckedSubOp_correct tc T U V x y r0 : in_type T x -> in_type U y -> assignable Sub T U V ->
  correct (CheckedSubOp tc T U V x y r0) V (Some (x - y)) (complete tc Sub T U x y).
Proof.
  intros Hx Hy HV. unfold CheckedSubOp, complete, builtin. destruct (has_builtins tc); [apply correct_builtin|].
  cbn [orb andb]. rewrite orb_false_r. destruct (result_facts_V Sub T U V eq_refl HV) as (HV1 & HV2 & HV3 & HV4).
  pose proof (promoted_operands T U x y Hx Hy) as Hheld. pose proof (safe_facts T U x y Hx Hy) as Hsafe. cbn in Hsafe.
  rewrite AddPromotion_fast, !IsValueInRange_exact by done. set (P := FastIntegerArithmeticPromotion T U) in *.
  destruct (bool_decide (in_type P x)) eqn:Ex; [destruct (bool_decide (in_type P y)) eqn:Ey|]; cbn [negb orb].
  2,3: apply correct_rejected; intros Hc; destruct Hheld; [by rewrite Hc|]; bool_prop; done.
  bool_prop. rewrite !convert_id by done. destruct (IsIntegerArithmeticSafe P T U).
  - destruct Hsafe as (_ & _ & [Hs|(Eu & Hi & Hx0 & Hy0 & Hw)]).
    { rewrite arith_in_exact by done. cbn [mbind res_bind]. apply correct_promoted; auto. split; congruence. }
    rewrite arith_in_wrap by done. cbn [mbind res_bind]. pose proof (lowest_unsigned P Eu) as El.
    assert (max_of P = 2 ^ (8 * sizeof P) - 1) as Em by (unfold max_of; by rewrite Eu).
    assert (x < y -> convert P (x - y) = x - y + 2 ^ (8 * sizeof P)) as Hwrap.
    { intros Hlt. unfold convert. rewrite Eu. unfold wrapU, in_type in *. symmetry. apply (Z.mod_unique _ _ (-1)); lia. }
    assert (y <= x -> convert P (x - y) = x - y) as Hid by (intros; apply convert_id; unfold in_type in *; lia).
    apply correct_promoted; [apply convert_range|..].
    + intros _. destruct (Z.lt_ge_cases x y) as [Hlt|Hge]; [right; rewrite Hwrap by done|left; auto]. unfold in_type in *. lia.
    + intros Hc. specialize (HV3 Hc). split; [|done]. intros _ Hne.
      destruct (Z.lt_ge_cases x y) as [Hlt|Hge]; [unfold in_type; lia|by rewrite Hid in Hne].
  - rewrite CheckedSubImpl_exact by done. cbn [mbind res_bind]. apply correct_promoted; [apply convert_range|..].
    + intros H. bool_prop. left. by apply convert_id.
    + intros Hc. specialize (HV3 Hc). split; intros H; bool_prop; [intros Hn; exfalso; by rewrite convert_id in Hn|].
      unfold in_type in *; lia.
Qed.

Lemma CheckedMulOp_correct tc T U V x y r0 : in_type T x -> in_type U y -> assignable Mul T U V ->
  correct (CheckedMulOp tc T U V x y r0) V (Some (x * y)) (complete tc Mul T U x y).
Proof.
  intros Hx Hy HV. unfold CheckedMulOp, complete, builtin.
  destruct (CheckedMulFastOp_is_supported tc T U); [apply correct_builtin|].
  cbn [orb andb]. destruct (result_facts_V Mul T U V eq_refl HV) as (HV1 & HV2 & HV3 & HV4).
  pose proof (promoted_operands T U x y Hx Hy) as Hheld. pose proof (safe_facts T U x y Hx Hy) as Hsafe. cbn in Hsafe.
  rewrite !IsValueInRange_exact by done. set (P := FastIntegerArithmeticPromotion T U) in *.
  destruct ((negb (bool_decide (in_type P x)) || negb (bool_decide (in_type P y))) && negb (x =? 0) && negb (y =? 0)) eqn:Eh.
  { apply correct_rejected. intros Hc. destruct (Hheld Hc). bool_prop. rewrite !bool_decide_eq_true_2 in * by done. done. }
  assert (convert P x * convert P y = x * y) as Ep.
  { rewrite !andb_false_iff, orb_false_iff, !negb_false_iff, !bool_decide_eq_true, !Z.eqb_eq in Eh.
    destruct Eh as [[[Hpx Hpy]| ->]| ->]; [by rewrite !convert_id|rewrite (convert_id P 0) by apply in_zero; lia..]. }
  rewrite Ep.
  match goal with |- correct ('(_, _) ← ?o; _) _ _ _ =>
    assert (o = Ok (bool_decide (in_type P (x * y)), convert P (x * y))) as -> end.
  { destruct (CheckedMulFastOp_is_supported tc P P); [done|]. destruct (IsIntegerArithmeticSafe P T U).
    - destruct Hsafe as (_ & Hs & _). rewrite arith_in_exact by done. cbn. by rewrite bool_decide_eq_true_2, convert_id.
    - rewrite CheckedMulImpl_exact, Ep by (done || apply convert_range). done. }
  cbn [mbind res_bind]. apply correct_promoted; [apply convert_range|..].
  - intros H. bool_prop. left. by apply convert_id.
  - intros Hc. split; intros H; bool_prop; [intros Hn; exfalso; by rewrite convert_id in Hn|].
    destruct (snd (BigEnoughPromotion T U)); [specialize (HV3 eq_refl); unfold in_type in *; lia|].
    cbn in Hc. bool_prop. rewrite (HV4 eq_refl) in *. unfold in_type in *. change (lowest U64) with 0 in *. nia.
Qed.

Definition big_facts (T U : ity) : bool :=
  let '(P, c) := BigEnoughPromotion T U in
  (max_of T <=? max_of P) && (max_of (MaxExponentPromotion T U) <=? max_of P) &&
  implb (is_signed T && is_signed U) c && implb (negb c) (bool_decide (P = U64)).
Lemma big_facts_all T U : big_facts T U = true.
Proof. destruct T, U; vm_compute; reflexivity. Qed.

Lemma quot_bound x y : Z.abs (Z.quot x y) <= Z.abs x.
Proof.
  destruct (decide (y = 0)) as [->|Hy]; [rewrite Z.quot_0_r_ext; lia|]. rewrite <- Z.quot_abs by done.
  pose proof (Z.quot_pos (Z.abs x) (Z.abs y)). pose proof (Z.mul_quot_le (Z.abs x) (Z.abs y)). nia.
Qed.

Lemma signed_lowest t : lowest t < 0 -> is_signed t = true /\ lowest t = - (max_of t + 1).
Proof. destruct t; vm_compute; intros H; done || discriminate H. Qed.
Lemma quot_minus_one x : Z.quot x (-1) = - x.
Proof. change (-1) with (- (1)). by rewrite Z.quot_opp_r, Z.quot_1_r. Qed.

(** A quotient of two values of a type leaves it in one case only. *)
Lemma quot_in_type P x y : in_type P x -> in_type P y -> y <> 0 -> ~ (x = lowest P /\ y = -1) -> in_type P (Z.quot x y).
Proof.
  intros Hx Hy Hy0 Hn. pose proof (quot_bound x y) as Hq. destruct (Z.lt_ge_cases (lowest P) 0) as [Hl|Hl].
  - destruct (signed_lowest P Hl) as [_ El]. unfold in_type in *.
    destruct (decide (x = lowest P)) as [->|Hx']; [|lia].
    destruct (decide (y = 1)) as [->|Hy1]; [rewrite Z.quot_1_r; lia|].
    assert (2 <= Z.abs y) as Hy2 by lia.
    assert (Z.abs (Z.quot (lowest P) y) <= max_of P); [|lia].
    rewrite <- Z.quot_abs by done. pose proof (Z.quot_pos (Z.abs (lowest P)) (Z.abs y)).
    pose proof (Z.mul_quot_le (Z.abs (lowest P)) (Z.abs y)). nia.
  - pose proof (range_order P). unfold in_type in *. pose proof (Z.quot_pos x y ltac:(lia) ltac:(lia)). lia.
Qed.

Lemma convert_U64_nonzero t y : in_type t y -> y <> 0 -> convert U64 y <> 0.
Proof.
  intros Hy Hy0 E. change (wrapU 64 y = 0) in E. unfold wrapU in E. apply Z.mod_divide in E; [|done]. destruct E as [k ->].
  unfold in_type in Hy. assert (- 2 ^ 64 < lowest t /\ max_of t < 2 ^ 64) by (by destruct t). nia.
Qed.

(** The guard against the one quotient that overflows. *)
Lemma quot_guarded T U P x y : in_type T x -> in_type U y -> in_type P x -> in_type P y -> y <> 0 ->
  is_signed T && is_signed U && IsTypeInRangeForNumericType T P && (convert P x =? lowest P) && (y =? convert U (-1)) = false ->
  in_type P (Z.quot x y).
Proof.
  intros Hx Hy Hpx Hpy Hy0 EG. apply quot_in_type; try done. intros [-> ->].
  destruct (signed_lowest P) as [EsP ElP]; [unfold in_type in *; lia|].
  destruct (signed_lowest T) as [EsT ElT]; [unfold in_type in *; lia|].
  destruct (signed_lowest U) as [EsU ElU]; [unfold in_type in *; lia|].
  assert (IsTypeInRangeForNumericType T P = true) as EtP.
  { rewrite StaticRange_exact. apply andb_true_iff. rewrite !Z.leb_le. unfold in_type in *. lia. }
  rewrite EsT, EsU, EtP, convert_id, Z.eqb_refl in EG by done. by destruct U.
Qed.

Lemma CheckedDivOp_correct T U V x y r0 tc : in_type T x -> in_type U y -> assignable Div T U V ->
  correct (CheckedDivOp T U V x y r0) V (exact Div x y) (complete tc Div T U x y).
Proof.
  intros Hx Hy HV. unfold CheckedDivOp, exact, complete, builtin. cbn [orb andb].
  destruct (Z.eqb_spec y 0) as [->|Hy0]; [by apply correct_rejected|].
  pose proof (big_facts_all T U) as HB. unfold big_facts in HB. pose proof (BigEnough_contains T U) as Hheld.
  pose proof (range_order T) as HT. pose proof (StaticRange_exact T (fst (BigEnoughPromotion T U))) as Est.
  destruct (BigEnoughPromotion T U) as [P c]. cbn [fst snd] in *. rewrite !IsValueInRange_exact by done.
  apply andb_prop in HB as [HB H64]. apply andb_prop in HB as [HB Hss]. apply andb_prop in HB as [HT1 HT2].
  apply Z.leb_le in HT1, HT2.
  assert (max_of V <= max_of P) as HVP by (destruct HV as [-> | ->]; done).
  destruct (is_signed T && is_signed U && IsTypeInRangeForNumericType T P && (convert P x =? lowest P) && (y =? convert U (-1))) eqn:EG.
  - rewrite !andb_true_iff, !Z.eqb_eq in EG. destruct EG as [[[[EsT EsU] EtP] Exl] Ey]. apply correct_rejected. intros _.
    assert (c = true) as -> by (by rewrite EsT, EsU in Hss). rewrite convert_id in Exl by auto.
    assert (lowest T < 0) as HlT by (by destruct T). rewrite EtP in Est. symmetry in Est. bool_prop.
    assert (y = -1) as -> by (subst y; by destruct U). rewrite quot_minus_one.
    pose proof (Hheld eq_refl (lowest T) (or_introl (in_lowest T))) as HlP.
    destruct (signed_lowest P) as [_ El]; [unfold in_type in *; lia|]. unfold in_type. lia.
  - destruct ((negb (bool_decide (in_type P x)) || negb (bool_decide (in_type P y))) && negb (x =? 0)) eqn:Eh.
    { apply correct_rejected. intros Hc. exfalso.
      assert (in_type P x /\ in_type P y) as [Hpx Hpy].
      { destruct c; [split; auto|]. cbn in *. bool_prop. subst P. split; [destruct T|destruct U]; in_range. }
      rewrite !bool_decide_eq_true_2 in Eh by done. done. }
    assert (convert P y <> 0) as Hcy.
    { destruct c; [by rewrite convert_id by auto|]. cbn in H64. bool_prop. subst P. by apply (convert_U64_nonzero U). }
    assert (convert P y <> 0 /\ Z.quot (convert P x) (convert P y) = Z.quot x y /\ in_type P (Z.quot x y)) as (Hd & Eq & Hq).
    { rewrite andb_false_iff, orb_false_iff, !negb_false_iff, !bool_decide_eq_true, Z.eqb_eq in Eh.
      destruct Eh as [[Hpx Hpy]| ->].
      - rewrite !convert_id by done. split_and!; [done..|]. by apply (quot_guarded T U).
      - rewrite (convert_id P 0) by apply in_zero. split_and!.
        + exact Hcy.
        + by rewrite !Z.quot_0_l.
        + rewrite Z.quot_0_l by done. apply in_zero. }
    unfold defined. rewrite (proj2 (Z.eqb_neq _ _) Hd). cbn [negb mbind res_bind]. rewrite Eq, arith_in_exact by done.
    cbn [mbind res_bind]. apply (correct_promoted P V true); auto. split; congruence.
Qed.

Lemma rem_in_type P x y : in_type P x -> in_type P (Z.rem x y).
Proof.
  intros Hx. pose proof (range_order P). unfold in_type in *.
  destruct (decide (y = 0)) as [->|Hy]; [by rewrite Z.rem_0_r_ext|].
  pose proof (Z.quot_rem' x y). pose proof (Z.rem_sign_mul x y Hy). pose proof (quot_bound x y).
  destruct (Z.le_gt_cases 0 x) as [Hs|Hs].
  - pose proof (Z.rem_le x (Z.abs y) Hs ltac:(lia)). pose proof (Z.rem_nonneg x y Hy Hs). rewrite Z.rem_abs_r in * by done. lia.
  - pose proof (Z.rem_le (- x) (Z.abs y) ltac:(lia) ltac:(lia)) as H3. pose proof (Z.rem_nonpos x y Hy ltac:(lia)).
    rewrite Z.rem_abs_r, Z.rem_opp_l in H3 by done. lia.
Qed.

(** The remainder, for types of which one holds both operands and away from the one
    quotient that does not exist. *)
Lemma CheckedModOp_correct T U V x y r0 : in_type T x -> in_type U y -> snd (BigEnoughPromotion T U) = true ->
  ~ (x = lowest (fst (BigEnoughPromotion T U)) /\ y = -1) ->
  correct (CheckedModOp T U V x y r0) V (exact Mod x y) true.
Proof.
  intros Hx Hy Hc Hn. unfold CheckedModOp, exact. destruct (Z.eqb_spec y 0) as [->|Hy0]; [by apply correct_rejected|].
  pose proof (BigEnough_contains T U) as Hheld. destruct (BigEnoughPromotion T U) as [P c]. cbn [fst snd negb] in *.
  subst c. rewrite !convert_id by auto. unfold defined. rewrite (proj2 (Z.eqb_neq _ _) Hy0). cbn [negb mbind res_bind].
  rewrite (arith_in_exact P (Z.quot x y)) by (apply quot_in_type; auto). cbn [mbind res_bind].
  rewrite arith_in_exact by (apply rem_in_type; auto). cbn [mbind res_bind].
  apply (correct_promoted P V true); [apply rem_in_type; auto|auto|]. split; congruence.
Qed.

(** ** Shifts *)
Lemma shift_guard op U d s : in_type U s -> 0 <= d <= 64 -> op = LtOp \/ op = EqOp ->
  (forall t, t = U32 \/ t = I32 -> Op op (make_unsigned U) t (as_unsigned U s) d = (0 <=? s) && holds op s d).
Proof.
  intros Hs Hd Hop t Ht. pose proof (as_unsigned_range U s) as Hr.
  assert (0 <= as_unsigned U s) by (unfold in_type in Hr; rewrite lowest_unsigned in Hr by (by destruct U); lia).
  rewrite Op_nonneg by (first [done | lia | destruct Ht as [-> | ->]; in_range]).
  rewrite as_unsigned_exact by done. pose proof (lowest_unsigned U). unfold in_type in Hs.
  assert (is_signed U = true -> 64 < lowest U + 2 ^ (8 * sizeof U)) as Hw by (by destruct U).
  destruct (is_signed U); [specialize (Hw eq_refl); destruct (Z.ltb_spec s 0)|specialize (H0 eq_refl)]; cbn [andb];
    destruct Hop as [-> | ->]; cbn [holds]; split_comparisons; try done; lia.
Qed.

Lemma digits_range t : 0 < digits t <= 64 /\ 0 < IntegerBitsPlusSign t <= 64 /\ digits t <= IntegerBitsPlusSign t.
Proof. destruct t; vm_compute; split_and!; (done || (intros ?; done)). Qed.

Lemma shiftr_in_type t z s : in_type t z -> 0 <= s -> in_type t (Z.shiftr z s).
Proof.
  intros Hz Hs. rewrite Z.shiftr_div_pow2 by done. pose proof (range_order t). unfold in_type in *.
  assert (0 < 2 ^ s) by (apply Z.pow_pos_nonneg; lia).
  split; [apply Z.div_le_lower_bound; nia|apply Z.div_le_upper_bound; nia].
Qed.

(** The right shift is floor division by a power of two, and fails exactly for amounts
    outside the width. *)
Lemma CheckedRshOp_exact T U x s r0 : in_type T x -> in_type U s ->
  CheckedRshOp T U T x s r0 =
    Ok (if (0 <=? s) && (s <? IntegerBitsPlusSign T) then (true, x / 2 ^ s) else (false, r0)).
Proof.
  intros Hx Hs. unfold CheckedRshOp. destruct (digits_range T) as (_ & ? & _).
  rewrite (shift_guard LtOp) by (auto; lia). cbn [holds]. destruct (Z.leb_spec 0 s); [|done].
  cbn [andb]. destruct (s <? IntegerBitsPlusSign T); [|done]. pose proof (shiftr_in_type T x s Hx ltac:(done)).
  rewrite (convert_id T (Z.shiftr x s)), IsValueInRange_exact, bool_decide_eq_true_2, convert_id by done.
  by rewrite Z.shiftr_div_pow2.
Qed.

Lemma convert_mod t z : exists k, convert t z = z + k * 2 ^ (8 * sizeof t).
Proof.
  assert (0 < 2 ^ (8 * sizeof t)) by (apply Z.pow_pos_nonneg; destruct t; cbn; lia).
  unfold convert, wrapS, wrapU. destruct (is_signed t).
  - exists (- ((z + 2 ^ (8 * sizeof t - 1)) / 2 ^ (8 * sizeof t))). rewrite Z.mod_eq by lia. lia.
  - exists (- (z / 2 ^ (8 * sizeof t))). rewrite Z.mod_eq by lia. lia.
Qed.

(** Undoing a left shift detects the bits it lost. *)
Lemma lsh_reversible t x s : 0 <= s < 8 * sizeof t ->
  (convert t (x * 2 ^ s) / 2 ^ s =? x) = bool_decide (in_type t (x * 2 ^ s)).
Proof.
  intros Hs. assert (0 < 2 ^ s) as Hp by (apply Z.pow_pos_nonneg; lia).
  destruct (bool_decide (in_type t (x * 2 ^ s))) eqn:E; bool_prop.
  - rewrite convert_id, Z.div_mul by (done || lia). apply Z.eqb_refl.
  - apply Z.eqb_neq. intros Hd. apply E. destruct (convert_mod t (x * 2 ^ s)) as [k Hk].
    pose proof (convert_range t (x * 2 ^ s)) as Hr. rewrite Hk in *.
    pose proof (Z.div_mod (x * 2 ^ s + k * 2 ^ (8 * sizeof t)) (2 ^ s) ltac:(lia)) as Hdm.
    pose proof (Z.mod_pos_bound (x * 2 ^ s + k * 2 ^ (8 * sizeof t)) (2 ^ s) Hp).
    assert (2 ^ s < 2 ^ (8 * sizeof t)) by (apply Z.pow_lt_mono_r; lia).
    assert (k = 0) as -> by nia. by rewrite Z.mul_0_l, Z.add_0_r in Hr.
Qed.

Lemma lsh_value T x s : in_type T x -> 0 <= s < digits T ->
  exists v, value_of (promote (make_unsigned T)) (Z.shiftl (as_unsigned T x) s) = Ok v /\
            convert T v = convert T (x * 2 ^ s).
Proof.
  intros Hx Hs. rewrite Z.shiftl_mul_pow2 by lia. assert (0 < 2 ^ s) as Hp by (apply Z.pow_pos_nonneg; lia).
  assert (2 ^ s <= 2 ^ (digits T - 1)) as Hle by (apply Z.pow_le_mono_r; lia).
  assert (convert T (as_unsigned T x * 2 ^ s) = convert T (x * 2 ^ s)) as E.
  { rewrite <- (convert_convert_u T (as_unsigned T x * 2 ^ s)), <- (convert_convert_u T (x * 2 ^ s)). f_equal.
    unfold as_unsigned. rewrite !convert_unsigned. unfold wrapU. by rewrite Zmult_mod_idemp_l. }
  unfold value_of, promote. destruct (Z.ltb_spec (sizeof (make_unsigned T)) 4) as [Hn|Hw].
  - exists (as_unsigned T x * 2 ^ s). cbn [is_signed]. rewrite bool_decide_eq_true_2; [done|].
    pose proof (as_unsigned_range T x) as Hr.
    assert (max_of (make_unsigned T) * 2 ^ (digits T - 1) <= max_of I32 /\ lowest (make_unsigned T) = 0 /\ lowest I32 <= 0)
      by (destruct T; try (cbn in Hn; lia); done).
    unfold in_type in *. nia.
  - assert (is_signed (make_unsigned T) = false) as -> by (by destruct T). eexists; split; [done|].
    by rewrite convert_convert_u.
Qed.

Lemma IsValueNegative_exact T x : in_type T x -> IsValueNegative T x = (x <? 0).
Proof.
  intros Hx. unfold IsValueNegative. pose proof (lowest_unsigned T) as H. unfold in_type in Hx.
  destruct (is_signed T); [done|]. symmetry. apply Z.ltb_ge. specialize (H eq_refl). lia.
Qed.

(** Comparing a promoted value of a type with one of the same type. *)
Lemma Op_promoted op t a b : in_type t a -> in_type t b -> Op op (promote t) t a b = holds op a b.
Proof.
  intros Ha Hb. pose proof (lowest_unsigned t) as Hlu. destruct (is_signed t) eqn:E.
  - apply Op_same; [by destruct t|by apply in_promote|done].
  - specialize (Hlu eq_refl). apply Op_nonneg; [by apply in_promote|done|unfold in_type in *; lia..].
Qed.

Lemma CheckedLshOp_correct T U x s : in_type T x -> in_type U s ->
  correct (CheckedLshOp T U T x s 0) T (exact Lsh x s) ((0 <=? x) && (s <? digits T)).
Proof.
  intros Hx Hs. unfold CheckedLshOp, exact. destruct (digits_range T) as (Hd & _ & _).
  assert (as_unsigned I32 (digits T) = digits T) as -> by (by destruct T).
  rewrite !(shift_guard _ U (digits T) s Hs ltac:(lia)) by auto. cbn [holds].
  rewrite IsValueNegative_exact by done.
  destruct (Z.ltb_spec s 0); [destruct (Z.leb_spec 0 s); [lia|]; cbn [andb]; rewrite !andb_false_r; by apply correct_rejected|].
  destruct (Z.leb_spec 0 s); [|lia]. cbn [andb].
  destruct (negb (x <? 0) && (s <? digits T)) eqn:EG.
  - bool_prop. assert (digits T <= 8 * sizeof T) by (by destruct T).
    destruct (lsh_value T x s Hx ltac:(lia)) as (v & -> & Ev). cbn [mbind res_bind].
    rewrite Op_promoted by (done || (apply shiftr_in_type; [apply convert_range|done])). cbn [holds].
    rewrite Z.shiftr_div_pow2, Ev, lsh_reversible by lia. eexists _, _. split; [done|]. split.
    + intros H'. bool_prop. by rewrite convert_id.
    + done.
  - exists (is_signed T && (x =? 0) && (s =? digits T)), 0. split; [done|]. split.
    + intros H'. bool_prop. subst. split; [f_equal; lia|apply in_zero].
    + intros Hc. bool_prop. rewrite (proj2 (Z.ltb_ge x 0)), (proj2 (Z.ltb_lt s (digits T))) in EG by lia. done.
Qed.

(** ** Maximum, minimum and the bitwise operations *)
Lemma MaxExponent_holds T U x y : in_type T x -> in_type U y -> in_type (MaxExponentPromotion T U) (Z.max x y).
Proof. intros Hx Hy. destruct T, U; match goal with |- in_type ?t _ => evaluate t end; in_range. Qed.
Lemma LowestValue_holds T U x y : in_type T x -> in_type U y -> in_type (LowestValuePromotion T U) (Z.min x y).
Proof. intros Hx Hy. destruct T, U; match goal with |- in_type ?t _ => evaluate t end; in_range. Qed.

Lemma CheckedMaxOp_exact T U x y : in_type T x -> in_type U y ->
  CheckedMaxOp T U (MaxExponentPromotion T U) x y = (true, Z.max x y).
Proof.
  intros Hx Hy. unfold CheckedMaxOp. rewrite Test_exact by done. cbn [holds].
  pose proof (MaxExponent_holds T U x y Hx Hy) as Hm. set (r := MaxExponentPromotion T U) in *.
  assert ((if y <? x then convert r x else convert r y) = Z.max x y) as ->.
  { destruct (Z.ltb_spec y x); [rewrite Z.max_l in * by lia|rewrite Z.max_r in * by lia]; by apply convert_id. }
  by rewrite IsValueInRange_exact, bool_decide_eq_true_2, convert_id.
Qed.
Lemma CheckedMinOp_exact T U x y : in_type T x -> in_type U y ->
  CheckedMinOp T U (LowestValuePromotion T U) x y = (true, Z.min x y).
Proof.
  intros Hx Hy. unfold CheckedMinOp. rewrite Test_exact by done. cbn [holds].
  pose proof (LowestValue_holds T U x y Hx Hy) as Hm. set (r := LowestValuePromotion T U) in *.
  assert ((if x <? y then convert r x else convert r y) = Z.min x y) as ->.
  { destruct (Z.ltb_spec x y); [rewrite Z.min_l in * by lia|rewrite Z.min_r in * by lia]; by apply convert_id. }
  by rewrite IsValueInRange_exact, bool_decide_eq_true_2, convert_id.
Qed.

(** A function on integers that acts on each bit separately and keeps zero bits zero. *)
Definition bitwise (f : Z -> Z -> Z) : Prop :=
  exists g, g false false = false /\ forall a b n, 0 <= n -> Z.testbit (f a b) n = g (Z.testbit a n) (Z.testbit b n).
Lemma bitwise_land : bitwise Z.land.
Proof. exists andb. split; [done|]. intros. apply Z.land_spec. Qed.
Lemma bitwise_lor : bitwise Z.lor.
Proof. exists orb. split; [done|]. intros. apply Z.lor_spec. Qed.
Lemma bitwise_lxor : bitwise Z.lxor.
Proof. exists xorb. split; [done|]. intros. apply Z.lxor_spec. Qed.

Lemma bitwise_wrap f w a b : bitwise f -> 0 <= w -> wrapU w (f (wrapU w a) (wrapU w b)) = f (wrapU w a) (wrapU w b).
Proof.
  intros (g & Hg & Hf) Hw. unfold wrapU. apply Z.bits_inj'. intros n Hn. destruct (Z.lt_ge_cases n w).
  - by rewrite Z.mod_pow2_bits_low.
  - rewrite Z.mod_pow2_bits_high, Hf by lia. by rewrite !Z.mod_pow2_bits_high by lia.
Qed.

(** The bitwise operations are total: they act on the operands reduced to the unsigned
    result type, so exactly on unsigned operands. *)
Lemma CheckedBitOp_exact f T U x y : bitwise f -> in_type T x -> in_type U y ->
  let r := bitwise_type T U in
  CheckedBitOp f T U r x y = (true, f (convert r x) (convert r y)) /\
  (is_signed T = false -> is_signed U = false -> convert r x = x /\ convert r y = y).
Proof.
  intros Hf Hx Hy r. split.
  - unfold CheckedBitOp. fold r. assert (convert r (f (convert r x) (convert r y)) = f (convert r x) (convert r y)) as E.
    { unfold r, bitwise_type. rewrite !convert_unsigned. apply bitwise_wrap; [done|]. pose proof (bits_pos (MaxExponentPromotion T U)). lia. }
    rewrite E, IsValueInRange_exact, bool_decide_eq_true_2 by (rewrite <- E; apply convert_range). by rewrite E.
  - intros E1 E2. split; apply convert_id; unfold r; destruct T, U; try discriminate E1; try discriminate E2;
      match goal with |- in_type ?t _ => evaluate t end; in_range.
Qed.

(** ** The operations together *)
Definition arithmetic (m : math_op) : bool := match m with Add | Sub | Mul | Div => true | _ => false end.

Lemma Do_correct tc m T U V x y : arithmetic m = true -> in_type T x -> in_type U y -> assignable m T U V ->
  correct (Do tc m T U V x y 0) V (exact m x y) (complete tc m T U x y).
Proof.
  intros Hm Hx Hy HV. destruct m; try discriminate Hm; cbn [Do].
  - by apply CheckedAddOp_correct.
  - by apply CheckedSubOp_correct.
  - by apply CheckedMulOp_correct.
  - by apply CheckedDivOp_correct.
Qed.
