(* ===== verification/CheckedNumeric.v ===== *)
(** * Numbers that carry their validity

    [CheckedNumeric] of [base/numerics/checked_math.h] of [include/webrtc], with its state
    ([checked_math_impl.h]), on the integer types: constructors and accessors, the unary and
    binary operators, the variadic functions and the pointer arithmetic. *)

From S2P Require Import Prelude SafeNum Conversions CheckedMath.

(** ** [CheckedNumericState<T>] and [CheckedNumeric<T>]

    The type parameter is an argument of the operations. *)
Record CheckedNumeric := mkChecked { is_valid_ : bool; value_ : Z }.

(** An operand: a plain (or strict) number, or a [CheckedNumeric]. *)
Inductive operand := Plain (v : Z) | Checked (c : CheckedNumeric).

Definition CheckedNumeric_default : CheckedNumeric := {| is_valid_ := true; value_ := 0 |}.
Definition State_new (T Src : ity) (value : Z) (is_valid : bool) : CheckedNumeric :=
  {| is_valid_ := is_valid && IsValueInRangeForNumericType T Src value; value_ := convert T value |}.
Definition CheckedNumeric_new (T Src : ity) (value : Z) : CheckedNumeric :=
  {| is_valid_ := IsValueInRangeForNumericType T Src value; value_ := convert T value |}.

(** [IsValid<Dst>()] of a [CheckedNumeric<T>]. *)
Definition IsValid (Dst T : ity) (c : CheckedNumeric) : bool :=
  is_valid_ c && IsValueInRangeForNumericType Dst T (value_ c).
(** [AssignIfValid(Dst* result)]. *)
Definition AssignIfValid (Dst T : ity) (c : CheckedNumeric) (result : Z) : bool * Z :=
  if IsValid Dst T c then (true, convert Dst (value_ c)) else (false, result).
Definition ValueOrDie (Dst T : ity) (c : CheckedNumeric) : res Z :=
  if IsValid Dst T c then Ok (convert Dst (value_ c)) else Crash.
Definition ValueOrDefault (Dst T Src : ity) (c : CheckedNumeric) (default_value : Z) : res Z :=
  if IsValid Dst T c then Ok (convert Dst (value_ c)) else checked_cast Dst Src default_value.
(** The converting constructor, and [Cast<Dst>()]. *)
Definition Cast (Dst T : ity) (c : CheckedNumeric) : CheckedNumeric :=
  State_new Dst T (value_ c) (IsValid T T c).

(** [Wrapper<Src>]. *)
Definition Wrapper_is_valid (t : ity) (o : operand) : bool :=
  match o with Plain _ => true | Checked c => IsValid t t c end.
Definition Wrapper_value (o : operand) : Z := match o with Plain v => v | Checked c => value_ c end.

(** [CheckedNumeric<T>::MathOp<M>(lhs, rhs)]. *)
Definition MathOp (tc : toolchain) (m : math_op) (T L R : ity) (lhs rhs : operand) : res CheckedNumeric :=
  '(is_valid, result) ←
    (if Wrapper_is_valid L lhs && Wrapper_is_valid R rhs
     then Do tc m L R T (Wrapper_value lhs) (Wrapper_value rhs) 0 else Ok (false, 0));
  Ok (State_new T T result is_valid).
(** [c.MathOp<M>(rhs)], the assignment operators. *)
Definition MathOp_assign (tc : toolchain) (m : math_op) (T R : ity) (c : CheckedNumeric) (rhs : operand)
  : res CheckedNumeric :=
  '(is_valid, result) ←
    (if is_valid_ c && Wrapper_is_valid R rhs
     then Do tc m T R T (value_ c) (Wrapper_value rhs) 0 else Ok (false, 0));
  Ok (State_new T T result is_valid).

Definition FastRuntimeNegate (tc : toolchain) (T : ity) (c : CheckedNumeric) : res CheckedNumeric :=
  '(success, result) ← CheckedSubOp tc T T T 0 (value_ c) 0;
  Ok (State_new T T result (IsValid T T c && success)).

(** [operator-]; [is_constant] is what [MustTreatAsConstexpr] finds. *)
Definition operator_minus (tc : toolchain) (is_constant : bool) (T : ity) (c : CheckedNumeric) : res CheckedNumeric :=
  if is_constant || negb (is_signed T)
  then Ok (State_new T T (NegateWrapper T (value_ c))
             (IsValid T T c && (negb (is_signed T) || negb (NegateWrapper T (value_ c) =? lowest T))))
  else FastRuntimeNegate tc T c.

(** [operator~] converts the unsigned complement back to [T]. *)
Definition operator_invert (T : ity) (c : CheckedNumeric) : CheckedNumeric :=
  let u := make_unsigned T in Cast T u (State_new u u (InvertWrapper T (value_ c)) (IsValid T T c)).

Definition Abs (tc : toolchain) (is_constant : bool) (T : ity) (c : CheckedNumeric) : res CheckedNumeric :=
  if negb (IsValueNegative T (value_ c)) then Ok c else operator_minus tc is_constant T c.

Definition CN_Max (T R : ity) (c : CheckedNumeric) (rhs : operand) : CheckedNumeric :=
  let r := MaxExponentPromotion T R in
  State_new r r (convert r (if Test GtOp T R (value_ c) (Wrapper_value rhs) then value_ c else Wrapper_value rhs))
    (is_valid_ c && Wrapper_is_valid R rhs).
Definition CN_Min (T R : ity) (c : CheckedNumeric) (rhs : operand) : CheckedNumeric :=
  let r := LowestValuePromotion T R in
  State_new r r (convert r (if Test LtOp T R (value_ c) (Wrapper_value rhs) then value_ c else Wrapper_value rhs))
    (is_valid_ c && Wrapper_is_valid R rhs).

Definition UnsignedAbs (T : ity) (c : CheckedNumeric) : CheckedNumeric :=
  let u := make_unsigned T in State_new u u (SafeUnsignedAbs T (value_ c)) (is_valid_ c).

Definition pre_increment (tc : toolchain) (T : ity) (c : CheckedNumeric) : res CheckedNumeric :=
  MathOp_assign tc Add T I32 c (Plain 1).
Definition pre_decrement (tc : toolchain) (T : ity) (c : CheckedNumeric) : res CheckedNumeric :=
  MathOp_assign tc Sub T I32 c (Plain 1).
(** [c++] and [c--]: the old value, and the new one. *)
Definition post_increment (tc : toolchain) (T : ity) (c : CheckedNumeric) : res (CheckedNumeric * CheckedNumeric) :=
  c' ← MathOp_assign tc Add T I32 c (Plain 1); Ok (c, c').
Definition post_decrement (tc : toolchain) (T : ity) (c : CheckedNumeric) : res (CheckedNumeric * CheckedNumeric) :=
  c' ← MathOp_assign tc Sub T I32 c (Plain 1); Ok (c, c').

(** The binary operators and [CheckMathOp<M>(lhs, rhs)]: operands and result with their types. *)
Definition typed : Type := ity * operand.
Definition CheckMathOp (tc : toolchain) (m : math_op) (lhs rhs : typed) : res typed :=
  let t := result_type m lhs.1 rhs.1 in
  c ← MathOp tc m t lhs.1 rhs.1 lhs.2 rhs.2; Ok (t, Checked c).
(** The variadic [CheckMathOp<M>(lhs, rhs, args...)]. *)
Fixpoint CheckMathOps (tc : toolchain) (m : math_op) (lhs rhs : typed) (args : list typed) : res typed :=
  c ← CheckMathOp tc m lhs rhs;
  match args with [] => Ok c | a :: args => CheckMathOps tc m c a args end.

(** [L* operator+(L*, StrictNumeric<R>)] and [operator-], on addresses; [sz] is [sizeof(L)]. *)
Definition pointer_op (tc : toolchain) (m : math_op) (sz lhs : Z) (R : ity) (rhs : Z) : res Z :=
  offset ← CheckMathOp tc Mul (U64, Plain sz) (R, Plain rhs);
  '(t, o) ← CheckMathOp tc m (U64, Plain lhs) offset;
  match o with Checked c => ValueOrDie U64 t c | Plain v => Ok v end.

(** ** Laws *)
Definition wf (T : ity) (o : operand) : Prop := in_type T (Wrapper_value o).

Lemma State_new_value T S v b : in_type T (value_ (State_new T S v b)).
Proof. apply convert_range. Qed.
Lemma State_new_valid T v b : in_type T v -> State_new T T v b = mkChecked b v.
Proof. intros H. unfold State_new. by rewrite IsValueInRange_exact, bool_decide_eq_true_2, andb_true_r, convert_id. Qed.
Lemma IsValid_self T c : in_type T (value_ c) -> IsValid T T c = is_valid_ c.
Proof. intros H. unfold IsValid. by rewrite IsValueInRange_exact, bool_decide_eq_true_2, andb_true_r. Qed.

Lemma correct_state o T z c : correct o T z c ->
  exists n, ('(is_valid, result) ← o; Ok (State_new T T result is_valid)) = Ok n /\ in_type T (value_ n) /\
    (is_valid_ n = true -> z = Some (value_ n)) /\
    (c = true -> is_valid_ n = match z with Some z => bool_decide (in_type T z) | None => false end).
Proof.
  intros (b & r & -> & Hs & Hc). cbn. eexists. split; [done|]. split; [apply State_new_value|]. destruct b.
  - destruct (Hs eq_refl) as [-> Hr]. rewrite State_new_valid by done. cbn in *. auto.
  - cbn. done.
Qed.

(** The binary operators: the result is in the type, a valid result is the exact one of
    valid operands, and a complete operation on valid operands is valid when it fits. *)
Lemma MathOp_correct tc m T L R l r : arithmetic m = true -> wf L l -> wf R r -> assignable m L R T ->
  exists n, MathOp tc m T L R l r = Ok n /\ wf T (Checked n) /\
    (is_valid_ n = true -> Wrapper_is_valid L l = true /\ Wrapper_is_valid R r = true /\
       exact m (Wrapper_value l) (Wrapper_value r) = Some (value_ n)) /\
    (complete tc m L R (Wrapper_value l) (Wrapper_value r) = true ->
       Wrapper_is_valid L l = true -> Wrapper_is_valid R r = true ->
       is_valid_ n = fits m T (Wrapper_value l) (Wrapper_value r)).
Proof.
  intros Hm Hl Hr HT. unfold MathOp. destruct (Wrapper_is_valid L l && Wrapper_is_valid R r) eqn:E.
  - bool_prop. destruct (correct_state _ _ _ _ (Do_correct tc m L R T _ _ Hm Hl Hr HT)) as (n & -> & Hn & Hs & Hc).
    exists n. split_and!; auto.
  - cbn. eexists. split; [done|]. split; [apply State_new_value|]. cbn. split; [done|]. intros _ H1 H2. by rewrite H1, H2 in E.
Qed.

Lemma MathOp_assign_as_MathOp tc m T R c r : in_type T (value_ c) ->
  MathOp_assign tc m T R c r = MathOp tc m T T R (Checked c) r.
Proof. intros H. unfold MathOp_assign, MathOp. cbn. by rewrite IsValid_self. Qed.

(** The exact value of a chain of operations, evaluated from the left. *)
Definition exact_chain (m : math_op) (l r : typed) (args : list typed) : option Z :=
  foldl (fun acc a => z ← acc; exact m z (Wrapper_value a.2)) (exact m (Wrapper_value l.2) (Wrapper_value r.2)) args.
Definition typed_wf (a : typed) : Prop := wf a.1 a.2.
Definition typed_valid (a : typed) : Prop := Wrapper_is_valid a.1 a.2 = true.

(** C35: a chain of checked additions, subtractions, multiplications or divisions over any
    integer types never has undefined behaviour, and a result it calls valid is the exact
    integer value of the chain, computed from operands that were all valid: an overflow,
    a division by zero or an invalid operand anywhere is never lost. *)
Theorem CheckMathOps_exact tc m l r args : arithmetic m = true -> Forall typed_wf (l :: r :: args) ->
  exists t c, CheckMathOps tc m l r args = Ok (t, Checked c) /\ in_type t (value_ c) /\
    (IsValid t t c = true -> Forall typed_valid (l :: r :: args) /\ exact_chain m l r args = Some (value_ c)).
Proof.
  intros Hm. unfold exact_chain. revert l r. induction args as [|a args IH]; intros l r Hw; inversion Hw as [|? ? Hl Hw']; subst;
    inversion Hw' as [|? ? Hr Ha]; subst; cbn [CheckMathOps]; unfold CheckMathOp at 1;
    destruct (MathOp_correct tc m (result_type m l.1 r.1) l.1 r.1 l.2 r.2 Hm Hl Hr (or_intror eq_refl)) as (n & -> & Hn & Hs & _);
    cbn [mbind res_bind].
  - exists (result_type m l.1 r.1), n. split_and!; [done..|]. intros Hv. rewrite IsValid_self in Hv by done.
    destruct (Hs Hv) as (? & ? & ?). split; [by repeat constructor|done].
  - destruct (IH (result_type m l.1 r.1, Checked n) a) as (t & c & -> & Ht & Hv); [constructor; [exact Hn|exact Ha]|].
    exists t, c. split_and!; [done..|]. intros Hc. destruct (Hv Hc) as [HF HE].
    inversion HF as [|? ? Hnv HF']; subst. unfold typed_valid in Hnv. cbn in Hnv. rewrite IsValid_self in Hnv by done.
    destruct (Hs Hnv) as (? & ? & Ee). split; [constructor; [done|by constructor]|]. cbn [foldl]. rewrite Ee. exact HE.
Qed.

(** C36: the three builds of the checked arithmetic cannot be told apart: whenever one integer
    type can hold both operands, the portable promotions, GCC's built-ins and Clang's give
    results that are valid for the same inputs, and any accessor reads the same value. *)
Theorem checked_toolchains_agree tc1 tc2 m T L R l r : arithmetic m = true -> wf L l -> wf R r ->
  assignable m L R T -> snd (BigEnoughPromotion L R) = true ->
  exists n1 n2, MathOp tc1 m T L R l r = Ok n1 /\ MathOp tc2 m T L R l r = Ok n2 /\
    is_valid_ n1 = (Wrapper_is_valid L l && Wrapper_is_valid R r && fits m T (Wrapper_value l) (Wrapper_value r)) /\
    (forall Dst, IsValid Dst T n1 = IsValid Dst T n2 /\ ValueOrDie Dst T n1 = ValueOrDie Dst T n2).
Proof.
  intros Hm Hl Hr HT Hb.
  assert (forall tc, complete tc m L R (Wrapper_value l) (Wrapper_value r) = true) as Hc
    by (intros; unfold complete; rewrite Hb; apply orb_true_iff; left; apply orb_true_r).
  destruct (MathOp_correct tc1 m T L R l r Hm Hl Hr HT) as (n1 & E1 & W1 & S1 & C1).
  destruct (MathOp_correct tc2 m T L R l r Hm Hl Hr HT) as (n2 & E2 & W2 & S2 & C2).
  specialize (C1 (Hc tc1)). specialize (C2 (Hc tc2)). exists n1, n2.
  assert (forall n, (is_valid_ n = true -> Wrapper_is_valid L l = true /\ Wrapper_is_valid R r = true /\
              exact m (Wrapper_value l) (Wrapper_value r) = Some (value_ n)) ->
            (Wrapper_is_valid L l = true -> Wrapper_is_valid R r = true ->
              is_valid_ n = fits m T (Wrapper_value l) (Wrapper_value r)) ->
            is_valid_ n = Wrapper_is_valid L l && Wrapper_is_valid R r && fits m T (Wrapper_value l) (Wrapper_value r)) as Hflag.
  { intros n S C. destruct (Wrapper_is_valid L l), (Wrapper_is_valid R r); cbn; auto;
      destruct (is_valid_ n); auto; destruct (S eq_refl) as (? & ? & _); done. }
  pose proof (Hflag n1 S1 C1) as F1. pose proof (Hflag n2 S2 C2) as F2. split_and!; [done..|]. intros Dst.
  unfold ValueOrDie, IsValid. rewrite F2, <- F1. destruct (is_valid_ n1) eqn:V1; [|done].
  assert (is_valid_ n2 = true) as V2 by congruence. destruct (S1 eq_refl) as (_ & _ & X1), (S2 V2) as (_ & _ & X2).
  by replace (value_ n2) with (value_ n1) by congruence.
Qed.

(** Outside that, only Clang and the portable build give up on results that would fit. *)
Lemma checked_toolchains_differ :
  MathOp Gcc Add U64 I64 U64 (Plain (-1)) (Plain 2) = Ok (mkChecked true 1) /\
  MathOp Portable Add U64 I64 U64 (Plain (-1)) (Plain 2) = Ok (mkChecked false 0) /\
  MathOp Gcc Mul I64 I64 U64 (Plain (-1)) (Plain 2) = Ok (mkChecked true (-2)) /\
  MathOp Clang Mul I64 I64 U64 (Plain (-1)) (Plain 2) = Ok (mkChecked false 0).
Proof. vm_compute. done. Qed.

(** [CheckMod] has no guard for the one quotient that does not exist, and converts a negative
    operand to the unsigned type it computes in. *)
Lemma CheckMod_unguarded tc :
  MathOp tc Mod I32 I32 I32 (Plain (-2147483648)) (Plain (-1)) = Undef /\
  MathOp tc Mod I64 I64 U64 (Plain (-5)) (Plain 3) = Ok (mkChecked true 2) /\ exact Mod (-5) 3 = Some (-2).
Proof. by vm_compute. Qed.

(** ** Unary operations *)
Lemma operator_minus_signed tc k T c : is_signed T = true -> in_type T (value_ c) ->
  exists n, operator_minus tc k T c = Ok n /\ in_type T (value_ n) /\
    is_valid_ n = is_valid_ c && bool_decide (in_type T (- value_ c)) /\ (is_valid_ n = true -> value_ n = - value_ c).
Proof.
  intros E Hc. unfold operator_minus, FastRuntimeNegate. rewrite E, IsValid_self by done. cbn [negb orb].
  destruct k; cbn [orb].
  - eexists; split; [done|]. split; [apply State_new_value|]. rewrite NegateWrapper_exact.
    rewrite State_new_valid by apply convert_range. cbn.
    assert (negb (convert T (- value_ c) =? lowest T) = bool_decide (in_type T (- value_ c))) as ->.
    { assert (lowest T = - (max_of T + 1)) as El by (by destruct T). pose proof (range_order T).
      assert (2 ^ (8 * sizeof T) = 2 * (max_of T + 1)) as Ew by (by destruct T).
      rewrite convert_signed_sum by (done || unfold in_type in *; lia). unfold in_type in *.
      destruct (Z.ltb_spec (- value_ c) (lowest T)); [lia|]. case_bool_decide;
        destruct (Z.ltb_spec (max_of T) (- value_ c)); split_comparisons; cbn; done || lia. }
    split; [done|]. intros H. bool_prop. by apply convert_id.
  - destruct (CheckedSubOp_correct tc T T T 0 (value_ c) 0 (in_zero T) Hc (or_introl eq_refl)) as (b & r & -> & Hs & Hf).
    assert (complete tc Sub T T 0 (value_ c) = true) as Hcp by (unfold complete; destruct T; cbn; by rewrite !orb_true_r).
    specialize (Hf Hcp). rewrite Z.sub_0_l in *. cbn [mbind res_bind]. eexists; split; [done|]. split; [apply State_new_value|].
    destruct b.
    + destruct (Hs eq_refl) as [[= <-] Hr]. rewrite State_new_valid, <- Hf, andb_true_r by done. done.
    + cbn. rewrite <- Hf, andb_false_r. done.
Qed.

Lemma Abs_exact tc k T c : in_type T (value_ c) ->
  exists n, Abs tc k T c = Ok n /\ is_valid_ n = is_valid_ c && bool_decide (in_type T (Z.abs (value_ c))) /\
     (is_valid_ n = true -> value_ n = Z.abs (value_ c)).
Proof.
  intros Hc. unfold Abs, IsValueNegative. destruct (is_signed T && (value_ c <? 0)) eqn:E; cbn [negb].
  - bool_prop. destruct (operator_minus_signed tc k T c H Hc) as (n & -> & _ & Hv & Hx). exists n.
    by rewrite <- Z.abs_neq in Hv, Hx by lia.
  - exists c. split; [done|]. assert (Z.abs (value_ c) = value_ c) as ->.
    { apply Z.abs_eq. pose proof (lowest_unsigned T) as Hl. unfold in_type in Hc.
      destruct (is_signed T); [cbn in E; bool_prop; done|specialize (Hl eq_refl); lia]. }
    by rewrite bool_decide_eq_true_2, andb_true_r.
Qed.

Lemma Cast_exact Dst T c : in_type T (value_ c) ->
  Cast Dst T c = mkChecked (is_valid_ c && bool_decide (in_type Dst (value_ c))) (convert Dst (value_ c)).
Proof. intros Hc. unfold Cast, State_new. by rewrite IsValid_self, IsValueInRange_exact. Qed.

Lemma operator_invert_valid T c : in_type T (value_ c) ->
  is_valid_ (operator_invert T c) = is_valid_ c && (negb (is_signed T) || (value_ c <? 0)).
Proof.
  intros Hc. unfold operator_invert. assert (in_type (make_unsigned T) (InvertWrapper T (value_ c))) as Hi by apply convert_range.
  rewrite State_new_valid, IsValid_self, Cast_exact by done. cbn. f_equal. unfold InvertWrapper.
  change (convert (make_unsigned T) (Z.lnot (value_ c))) with (as_unsigned T (Z.lnot (value_ c))) in *.
  unfold Z.lnot in *. destruct (is_signed T) eqn:E; cbn [negb orb].
  - assert (lowest T = - (max_of T + 1) /\ 2 ^ (8 * sizeof T) = 2 * (max_of T + 1)) as [El Ew] by (by destruct T).
    rewrite as_unsigned_exact, E by (unfold in_type in *; lia). cbn [andb]. unfold in_type in *.
    destruct (Z.ltb_spec (Z.pred (- value_ c)) 0); case_bool_decide; split_comparisons; done || lia.
  - rewrite bool_decide_eq_true_2; [done|]. replace T with (make_unsigned T) at 1 by (by destruct T). done.
Qed.

(** Negation, absolute values, complement and casts: on a signed type the negation and the
    absolute value are valid exactly when they are representable, on both of the paths of the
    negation; on an unsigned type the negation wraps and stays valid; the unsigned absolute
    value always exists; the complement of a signed number is valid when it is not negative. *)
Theorem checked_unary tc k T c : in_type T (value_ c) ->
  (exists n, operator_minus tc k T c = Ok n /\ in_type T (value_ n) /\
     if is_signed T
     then is_valid_ n = is_valid_ c && bool_decide (in_type T (- value_ c)) /\ (is_valid_ n = true -> value_ n = - value_ c)
     else n = mkChecked (is_valid_ c) (convert T (- value_ c))) /\
  (exists n, Abs tc k T c = Ok n /\ is_valid_ n = is_valid_ c && bool_decide (in_type T (Z.abs (value_ c))) /\
     (is_valid_ n = true -> value_ n = Z.abs (value_ c))) /\
  UnsignedAbs T c = mkChecked (is_valid_ c) (Z.abs (value_ c)) /\
  is_valid_ (operator_invert T c) = is_valid_ c && (negb (is_signed T) || (value_ c <? 0)) /\
  (forall Dst, is_valid_ (Cast Dst T c) = is_valid_ c && bool_decide (in_type Dst (value_ c)) /\
     (is_valid_ (Cast Dst T c) = true -> value_ (Cast Dst T c) = value_ c)).
Proof.
  intros Hc. split_and!.
  - destruct (is_signed T) eqn:E.
    + destruct (operator_minus_signed tc k T c E Hc) as (n & ? & ? & ? & ?). eauto 10.
    + unfold operator_minus. rewrite E, orb_true_r, IsValid_self, NegateWrapper_exact, State_new_valid by
        (done || apply convert_range). cbn [negb orb]. rewrite andb_true_r. eexists; split_and!; [done|apply convert_range|done].
  - by apply Abs_exact.
  - unfold UnsignedAbs. rewrite SafeUnsignedAbs_exact by done. apply State_new_valid. destruct T; in_range.
  - by apply operator_invert_valid.
  - intros Dst. rewrite Cast_exact by done. cbn. split; [done|]. intros H. bool_prop. by apply convert_id.
Qed.

Lemma CheckMathOp_valid tc m l r : arithmetic m = true -> typed_wf l -> typed_wf r ->
  exists n, CheckMathOp tc m l r = Ok (result_type m l.1 r.1, Checked n) /\ in_type (result_type m l.1 r.1) (value_ n) /\
    (is_valid_ n = true -> Wrapper_is_valid l.1 l.2 && Wrapper_is_valid r.1 r.2 = true /\
       exact m (Wrapper_value l.2) (Wrapper_value r.2) = Some (value_ n)) /\
    (complete tc m l.1 r.1 (Wrapper_value l.2) (Wrapper_value r.2) = true ->
       Wrapper_is_valid l.1 l.2 && Wrapper_is_valid r.1 r.2 = true ->
       is_valid_ n = fits m (result_type m l.1 r.1) (Wrapper_value l.2) (Wrapper_value r.2)).
Proof.
  intros Hm Hl Hr. unfold CheckMathOp.
  destruct (MathOp_correct tc m (result_type m l.1 r.1) l.1 r.1 l.2 r.2 Hm Hl Hr (or_intror eq_refl)) as (n & -> & Hn & Hs & Hc).
  cbn. exists n. split_and!; [done..| |].
  - intros Hv. destruct (Hs Hv) as (-> & -> & ?). done.
  - intros H1 H2. bool_prop. auto.
Qed.

(** Pointer arithmetic with a checked offset either yields exactly the address
    [lhs + sizeof(L) * rhs] (or [lhs - sizeof(L) * rhs]) or aborts: it aborts for every
    negative offset and whenever the product or the address leaves the address space. *)
Theorem pointer_op_exact tc m sz lhs R rhs : m = Add \/ m = Sub -> 0 < sz <= max_of U64 -> in_type U64 lhs -> in_type R rhs ->
  let a := match m with Add => lhs + sz * rhs | _ => lhs - sz * rhs end in
  pointer_op tc m sz lhs R rhs = if (0 <=? rhs) && bool_decide (in_type U64 a) then Ok a else Crash.
Proof.
  intros Hm Hsz Hl Hr a. assert (forall m', arithmetic m' = true -> result_type m' U64 R = U64) as Et
    by (intros [] He; try discriminate He; by destruct R).
  assert (lowest U64 = 0) as E0 by done. unfold pointer_op.
  assert (typed_wf (U64, Plain sz)) as Hw by (unfold typed_wf, wf, in_type; cbn [Wrapper_value fst snd]; lia).
  destruct (CheckMathOp_valid tc Mul (U64, Plain sz) (R, Plain rhs) eq_refl Hw Hr) as (n & -> & Hn & Hs & Hc).
  cbn [fst snd Wrapper_value Wrapper_is_valid] in *. rewrite Et in * by done. cbn [mbind res_bind].
  assert (is_valid_ n = (0 <=? rhs) && bool_decide (in_type U64 (sz * rhs)) /\ (is_valid_ n = true -> value_ n = sz * rhs)) as [Hv Hx].
  { split; [|intros H; destruct (Hs H) as [_ [= ->]]; done]. destruct (Z.leb_spec 0 rhs).
    - apply Hc; [|done]. unfold complete. apply orb_true_iff. right. cbn [andb]. apply andb_true_iff. rewrite !Z.leb_le. lia.
    - destruct (is_valid_ n); [|done]. destruct (Hs eq_refl) as [_ [= Ev]]. rewrite <- Ev in Hn. unfold in_type in Hn. nia. }
  clear Hs Hc. destruct (CheckMathOp_valid tc m (U64, Plain lhs) (U64, Checked n)) as (n2 & -> & Hn2 & Hs & Hc);
    [by destruct Hm as [-> | ->]|done..|]. cbn [fst snd Wrapper_value Wrapper_is_valid andb mbind res_bind] in *.
  rewrite IsValid_self in * by done.
  assert (result_type m U64 U64 = U64) as Et2 by (by destruct Hm as [-> | ->]). rewrite Et2 in *.
  unfold ValueOrDie. rewrite IsValid_self by done.
  assert (complete tc m U64 U64 lhs (value_ n) = true) as Hcp by (unfold complete; destruct m; cbn; by rewrite ?orb_true_r).
  specialize (Hc Hcp). destruct (is_valid_ n) eqn:En.
  - symmetry in Hv. bool_prop. rewrite (proj2 (Z.leb_le 0 rhs)), Hc, Hx in * by done. cbn [andb].
    destruct Hm as [-> | ->]; unfold fits in *; cbn [exact] in *; unfold a;
      (case_bool_decide; [|done]); destruct (Hs eq_refl) as [_ [= <-]]; by rewrite convert_id.
  - destruct (is_valid_ n2); [destruct (Hs eq_refl) as [? _]; done|].
    destruct (Z.leb_spec 0 rhs); [|done]. cbn [andb] in *. symmetry in Hv. bool_prop.
    rewrite bool_decide_eq_false_2; [done|]. unfold a, in_type in *. destruct Hm as [-> | ->]; nia.
Qed.

Lemma CheckMathOps_exact_witness :
  CheckMathOps Portable Add (U8, Plain 200) (U8, Plain 55) [(I16, Plain 5)] = Ok (I16, Checked (mkChecked true 260)) /\
  exact_chain Add (U8, Plain 200) (U8, Plain 55) [(I16, Plain 5)] = Some 260.
Proof.
  destruct (CheckMathOps_exact Portable Add (U8, Plain 200) (U8, Plain 55) [(I16, Plain 5)]) as (t & c & E & _ & H);
    [reflexivity|repeat constructor; vm_compute; discriminate|].
  vm_compute in E. injection E as <- <-. split; [reflexivity|]. exact (proj2 (H eq_refl)).
Defined.

Lemma checked_toolchains_agree_witness :
  exists n1 n2, MathOp Portable Mul I32 I32 U16 (Plain (-70000)) (Plain 65535) = Ok n1 /\
    MathOp Clang Mul I32 I32 U16 (Plain (-70000)) (Plain 65535) = Ok n2 /\ is_valid_ n1 = false.
Proof.
  destruct (checked_toolchains_agree Portable Clang Mul I32 I32 U16 (Plain (-70000)) (Plain 65535)) as (n1 & n2 & E1 & E2 & E3 & _);
    [reflexivity|unfold wf; cbn; in_range|unfold wf; cbn; in_range|left; reflexivity|reflexivity|].
  exists n1, n2. split; [exact E1|]. split; [exact E2|]. rewrite E3. reflexivity.
Defined.

Lemma pointer_op_exact_witness :
  pointer_op Clang Add 8 4096 U32 3 = Ok 4120 /\ pointer_op Clang Add 8 4096 I32 (-1) = Crash.
Proof.
  split; [rewrite (pointer_op_exact Clang Add 8 4096 U32 3)|rewrite (pointer_op_exact Clang Add 8 4096 I32 (-1))];
    try reflexivity; try (left; reflexivity); vm_compute; split; congruence.
Defined.
