(* ===== verification/ClampedMath.v ===== *)
(** * Saturating arithmetic

    [base/numerics/clamped_math_impl.h] and [clamped_math.h] of [include/webrtc], on the
    integer types: operations that return the nearest representable value instead of
    overflowing, built on the checked ones, and [ClampedNumeric].  The assembler variants
    for 32-bit ARM are left out, so that the additions, subtractions and multiplications
    take the portable path on every toolchain. *)

From S2P Require Import Prelude SafeNum Conversions CheckedMath.

(** ** Unary wrappers *)

(** [ClampedNegFastOp<T>::Do], with the built-in subtraction. *)
Definition ClampedNegFastOp_Do (T : ity) (value : Z) : Z :=
  let '(ok, result) := builtin_op T (0 - value) in if ok then result else max_of T.
(** [is_constant] is what [MustTreatAsConstexpr] finds. *)
Definition SaturatedNegWrapper (tc : toolchain) (is_constant : bool) (T : ity) (value : Z) : Z :=
  if is_signed T
  then (if is_constant || negb (has_builtins tc)
        then (if negb (NegateWrapper T value =? lowest T) then NegateWrapper T value else max_of T)
        else ClampedNegFastOp_Do T value)
  else 0.

Definition SaturatedAbsWrapper (T : ity) (value : Z) : Z :=
  let u := make_unsigned T in let a := SafeUnsignedAbs T value in
  convert T (convert (common u I32) (a - Z.b2z (IsValueNegative T (convert T a)))).

(** ** The operations *)

(** The result of a checked operation, or the saturated value. *)
Definition or_else (checked : bool * Z) (saturated : Z) : Z := if fst checked then snd checked else saturated.

Definition ClampedAddOp (tc : toolchain) (T U V : ity) (x y : Z) : res Z :=
  let saturated := CommonMaxOrMin V V (IsValueNegative U y) in
  r ← CheckedAddOp tc T U V x y 0; Ok (or_else r saturated).
Definition ClampedSubOp (tc : toolchain) (T U V : ity) (x y : Z) : res Z :=
  let saturated := CommonMaxOrMin V V (negb (IsValueNegative U y)) in
  r ← CheckedSubOp tc T U V x y 0; Ok (or_else r saturated).
Definition ClampedMulOp (tc : toolchain) (T U V : ity) (x y : Z) : res Z :=
  let saturated := CommonMaxOrMin V V (xorb (IsValueNegative T x) (IsValueNegative U y)) in
  r ← CheckedMulOp tc T U V x y 0; Ok (or_else r saturated).
Definition ClampedDivOp (T U V : ity) (x y : Z) : res Z :=
  r ← CheckedDivOp T U V x y 0;
  Ok (or_else r (if negb (x =? 0) then CommonMaxOrMin V V (xorb (IsValueNegative T x) (IsValueNegative U y)) else NaN V)).
Definition ClampedModOp (T U V : ity) (x y : Z) : res Z :=
  r ← CheckedModOp T U V x y 0; Ok (or_else r (convert V x)).

(** Shift amounts are of an unsigned type. *)
Definition ClampedLshOp (T U V : ity) (x shift : Z) : res Z :=
  let saturated := if negb (x =? 0) then CommonMaxOrMin V V (IsValueNegative T x) else 0 in
  if Op LtOp U I32 shift (digits T) then
    v ← value_of (promote (make_unsigned T)) (Z.shiftl (as_unsigned T x) shift);
    let result := convert V v in
    Ok (if Op EqOp (promote V) T (Z.shiftr result shift) x then result else saturated)
  else Ok saturated.
Definition ClampedRshOp (is_constant : bool) (T U V : ity) (x shift : Z) : Z :=
  let saturated := convert V (convert (common (make_unsigned V) I32) (as_unsigned V 0 - Z.b2z (IsValueNegative T x))) in
  if Op LtOp U I32 shift (IntegerBitsPlusSign T)
  then saturated_cast is_constant V (promote T) (Z.shiftr x shift) else saturated.

(** [ClampedAndOp], [ClampedOrOp] and [ClampedXorOp]. *)
Definition ClampedBitOp (f : Z -> Z -> Z) (T U V : ity) (x y : Z) : Z :=
  let r := bitwise_type T U in convert V (f (convert r x) (convert r y)).
Definition ClampedMaxOp (is_constant : bool) (T U V : ity) (x y : Z) : Z :=
  if Test GtOp T U x y then saturated_cast is_constant V T x else saturated_cast is_constant V U y.
Definition ClampedMinOp (is_constant : bool) (T U V : ity) (x y : Z) : Z :=
  if Test LtOp T U x y then saturated_cast is_constant V T x else saturated_cast is_constant V U y.

(** [M<T, U>::Do<V>(x, y)]; the result types are those of the checked operations. *)
Definition Clamped_Do (tc : toolchain) (is_constant : bool) (m : math_op) (T U V : ity) (x y : Z) : res Z :=
  match m with
  | Add => ClampedAddOp tc T U V x y
  | Sub => ClampedSubOp tc T U V x y
  | Mul => ClampedMulOp tc T U V x y
  | Div => ClampedDivOp T U V x y
  | Mod => ClampedModOp T U V x y
  | Lsh => ClampedLshOp T U V x y
  | Rsh => Ok (ClampedRshOp is_constant T U V x y)
  | And_ => Ok (ClampedBitOp Z.land T U V x y)
  | Or_ => Ok (ClampedBitOp Z.lor T U V x y)
  | Xor => Ok (ClampedBitOp Z.lxor T U V x y)
  | Max => Ok (ClampedMaxOp is_constant T U V x y)
  | Min => Ok (ClampedMinOp is_constant T U V x y)
  end.

(** ** [ClampedNumeric<T>]: a value of [T], the type an argument of the operations *)
Definition ClampedNumeric_new (k : bool) (T Src : ity) (value : Z) : Z := saturated_cast k T Src value.
(** The converting constructor, [Cast<Dst>()] and the conversion operator. *)
Definition Clamped_Cast (k : bool) (Dst T : ity) (value : Z) : Z := saturated_cast k Dst T value.

Definition Clamped_minus (tc : toolchain) (k : bool) (T : ity) (value : Z) : Z :=
  ClampedNumeric_new k T T (SaturatedNegWrapper tc k T value).
Definition Clamped_invert (k : bool) (T : ity) (value : Z) : Z :=
  let u := make_unsigned T in Clamped_Cast k T u (ClampedNumeric_new k u u (InvertWrapper T value)).
Definition Clamped_Abs (k : bool) (T : ity) (value : Z) : Z := ClampedNumeric_new k T T (SaturatedAbsWrapper T value).
Definition Clamped_Max (k : bool) (T U : ity) (value rhs : Z) : Z :=
  let r := MaxExponentPromotion T U in ClampedNumeric_new k r r (ClampedMaxOp k T U r value rhs).
Definition Clamped_Min (k : bool) (T U : ity) (value rhs : Z) : Z :=
  let r := LowestValuePromotion T U in ClampedNumeric_new k r r (ClampedMinOp k T U r value rhs).
Definition Clamped_UnsignedAbs (k : bool) (T : ity) (value : Z) : Z :=
  let u := make_unsigned T in ClampedNumeric_new k u u (SafeUnsignedAbs T value).

(** [ClampedNumeric<T>::MathOp<M>(lhs, rhs)], and [c.MathOp<M>(rhs)] for the assignments. *)
Definition Clamped_MathOp (tc : toolchain) (k : bool) (m : math_op) (T L R : ity) (lhs rhs : Z) : res Z :=
  v ← Clamped_Do tc k m L R T lhs rhs; Ok (ClampedNumeric_new k T T v).
Definition Clamped_MathOp_assign (tc : toolchain) (k : bool) (m : math_op) (T R : ity) (value rhs : Z) : res Z :=
  v ← Clamped_Do tc k m T R T value rhs; Ok (ClampedNumeric_new k T T v).
Definition Clamped_increment (tc : toolchain) (k : bool) (T : ity) (value : Z) : res Z :=
  Clamped_MathOp_assign tc k Add T I32 value 1.
Definition Clamped_decrement (tc : toolchain) (k : bool) (T : ity) (value : Z) : res Z :=
  Clamped_MathOp_assign tc k Sub T I32 value 1.
Definition ClampMathOp (tc : toolchain) (k : bool) (m : math_op) (L R : ity) (lhs rhs : Z) : res (ity * Z) :=
  let t := result_type m L R in v ← Clamped_MathOp tc k m t L R lhs rhs; Ok (t, v).
(** The variadic [ClampMathOp<M>(lhs, rhs, args...)]. *)
Fixpoint ClampMathOps (tc : toolchain) (k : bool) (m : math_op) (lhs rhs : ity * Z) (args : list (ity * Z)) : res (ity * Z) :=
  c ← ClampMathOp tc k m lhs.1 rhs.1 lhs.2 rhs.2;
  match args with [] => Ok c | a :: args => ClampMathOps tc k m c a args end.

(** ** Laws *)

(** What saturation means: the nearest value the type holds, a quotient by zero being infinite
    with the sign of the dividend, and zero for a zero dividend. *)
Definition saturating (m : math_op) (V : ity) (x y : Z) : Z :=
  match m, exact m x y with
  | Div, None => if x =? 0 then 0 else if x <? 0 then lowest V else max_of V
  | _, Some z => clamp V z
  | _, None => clamp V x
  end.

(** What an operation leaves when the checked one fails is right when the exact result is on
    the side chosen. *)
Lemma saturate o V z (s : bool) :
  correct o V (Some z) true -> (~ in_type V z -> if s then z < lowest V else max_of V < z) ->
  (r ← o; Ok (or_else r (CommonMaxOrMin V V s))) = Ok (clamp V z).
Proof.
  intros (b & r & -> & Hs & Hc) Hside. specialize (Hc eq_refl). cbn. f_equal. destruct b.
  - destruct (Hs eq_refl) as [[= ->] Hr]. by rewrite clamp_id.
  - symmetry in Hc. bool_prop. specialize (Hside Hc). rewrite CommonMaxOrMin_self.
    destruct s; [rewrite clamp_low|rewrite clamp_high]; done || lia.
Qed.

Definition side_facts (T U : ity) : bool :=
  let ok V := (max_of T <=? max_of V) && ((lowest V <=? lowest T) || (lowest U =? 0)) in
  ok T && ok (MaxExponentPromotion T U).
Lemma side_facts_all T U : side_facts T U = true.
Proof. destruct T, U; vm_compute; reflexivity. Qed.
Lemma assignable_side m T U V : result_type m T U = MaxExponentPromotion T U -> assignable m T U V ->
  max_of T <= max_of V /\ (lowest V <= lowest T \/ lowest U = 0).
Proof.
  intros Er HV. pose proof (side_facts_all T U) as H. unfold side_facts in H. rewrite <- Er in H.
  destruct HV as [-> | ->]; bool_prop; (split; [done|]);
    match goal with H : _ || _ = true |- _ => apply orb_prop in H as [?|?] end; bool_prop; first [lia | auto].
Qed.

Lemma complete_correct o V z c : correct o V z c -> c = true -> correct o V z true.
Proof. by intros H ->. Qed.

Lemma quot_sign x y : y <> 0 -> if xorb (x <? 0) (y <? 0) then Z.quot x y <= 0 else 0 <= Z.quot x y.
Proof.
  intros Hy. destruct (Z.ltb_spec x 0), (Z.ltb_spec y 0); cbn.
  - rewrite <- Z.quot_opp_opp by done. apply Z.quot_pos; lia.
  - pose proof (Z.quot_pos (- x) y ltac:(lia) ltac:(lia)). rewrite Z.quot_opp_l in * by done. lia.
  - pose proof (Z.quot_pos x (- y) ltac:(lia) ltac:(lia)). rewrite Z.quot_opp_r in * by done. lia.
  - apply Z.quot_pos; lia.
Qed.

Lemma Clamped_Do_exact tc k m T U V x y : arithmetic m = true -> in_type T x -> in_type U y -> assignable m T U V ->
  complete tc m T U x y = true -> (m = Add -> in_type V x) ->
  Clamped_Do tc k m T U V x y = Ok (saturating m V x y).
Proof.
  intros Hm Hx Hy HV Hc HA. pose proof (range_order V) as Ho.
  assert (result_type m T U = MaxExponentPromotion T U) as Er by (by destruct m).
  destruct (assignable_side m T U V Er HV) as [Hmax Hlow].
  pose proof (complete_correct _ _ _ _ (Do_correct tc m T U V x y Hm Hx Hy HV) Hc) as HD.
  destruct m; try discriminate Hm; cbn [Clamped_Do Do exact saturating] in *.
  - unfold ClampedAddOp. rewrite IsValueNegative_exact by done. apply saturate; [done|]. intros Hn.
    specialize (HA eq_refl). unfold in_type in *. destruct (Z.ltb_spec y 0); lia.
  - unfold ClampedSubOp. rewrite IsValueNegative_exact by done. apply saturate; [done|]. intros Hn.
    unfold in_type in *. destruct (Z.ltb_spec y 0); cbn [negb]; lia.
  - unfold ClampedMulOp. rewrite !IsValueNegative_exact by done. apply saturate; [done|]. intros Hn.
    unfold in_type in *. destruct (Z.ltb_spec x 0), (Z.ltb_spec y 0); cbn [xorb]; nia.
  - unfold ClampedDivOp. rewrite !IsValueNegative_exact by done. destruct (Z.eqb_spec y 0) as [->|Hy0].
    + destruct HD as (b & r & -> & Hs & Hf). specialize (Hf eq_refl). cbn in Hf. subst b. cbn. rewrite CommonMaxOrMin_self.
      rewrite xorb_false_r. destruct (x =? 0), (x <? 0); done.
    + destruct (Z.eqb_spec x 0) as [->|Hx0]; cbn [negb].
      * rewrite Z.quot_0_l in * by done. destruct HD as (b & r & -> & Hs & Hf). specialize (Hf eq_refl).
        rewrite bool_decide_eq_true_2 in Hf by apply in_zero. subst b. destruct (Hs eq_refl) as [[= <-] Hr].
        cbn. by rewrite clamp_id.
      * apply saturate; [done|]. intros Hn. pose proof (quot_sign x y Hy0) as Hq. unfold in_type in Hn.
        destruct (xorb (x <? 0) (y <? 0)); lia.
Qed.

(** ** Shifts, remainders, bitwise operations, maximum and minimum *)

(** Shifting left saturates in the direction of the sign. *)
Lemma ClampedLshOp_exact T U x s : is_signed U = false -> in_type T x -> in_type U s ->
  ClampedLshOp T U T x s = Ok (clamp T (x * 2 ^ s)).
Proof.
  intros EU Hx Hs. assert (0 <= s) as Hs0 by (pose proof (lowest_unsigned U EU); unfold in_type in Hs; lia).
  destruct (digits_range T) as (Hd & _ & _). unfold ClampedLshOp. rewrite IsValueNegative_exact, CommonMaxOrMin_self by done.
  rewrite Op_nonneg by (first [done | lia | in_range]). cbn [holds].
  assert (max_of T = 2 ^ digits T - 1 /\ (lowest T = 0 \/ lowest T = - 2 ^ digits T)) as [Em El] by (destruct T; auto).
  assert (0 < 2 ^ s) as Hp by (apply Z.pow_pos_nonneg; lia).
  assert (forall z, (~ in_type T z -> (0 < x -> max_of T <= z) /\ (x < 0 -> z <= lowest T)) -> x <> 0 -> ~ in_type T z ->
     (if negb (x =? 0) then if x <? 0 then lowest T else max_of T else 0) = clamp T z) as Hsat.
  { intros z Hz Hx0 Hn. destruct (Hz Hn). rewrite (proj2 (Z.eqb_neq x 0) Hx0). cbn [negb].
    destruct (Z.ltb_spec x 0); symmetry; [apply clamp_low|apply clamp_high]; lia. }
  destruct (Z.ltb_spec s (digits T)) as [Hlt|Hge].
  - assert (digits T <= 8 * sizeof T) by (by destruct T).
    destruct (lsh_value T x s Hx ltac:(lia)) as (v & -> & Ev). cbn [mbind res_bind].
    rewrite Op_promoted by (done || (apply shiftr_in_type; [apply convert_range|done])). cbn [holds].
    rewrite Z.shiftr_div_pow2, Ev, lsh_reversible by lia. f_equal. case_bool_decide as Hin.
    { by rewrite convert_id, clamp_id. }
    apply Hsat; [|intros ->; by apply Hin, in_zero|done]. pose proof (range_order T). unfold in_type in *. split; intros; nia.
  - f_equal. assert (2 ^ digits T <= 2 ^ s) by (apply Z.pow_le_mono_r; lia).
    destruct (Z.eqb_spec x 0) as [->|Hx0]; cbn [negb]; [by rewrite clamp_id by apply in_zero|].
    unfold in_type in Hx. destruct (Z.ltb_spec x 0); symmetry; [apply clamp_low|apply clamp_high]; nia.
Qed.

(** Shifting right is floor division for every amount. *)
Lemma ClampedRshOp_exact k T U x s : is_signed U = false -> in_type T x -> in_type U s ->
  ClampedRshOp k T U T x s = x / 2 ^ s.
Proof.
  intros EU Hx Hs. assert (0 <= s) as Hs0 by (pose proof (lowest_unsigned U EU); unfold in_type in Hs; lia).
  destruct (digits_range T) as (Hd & Hb & _). unfold ClampedRshOp. rewrite IsValueNegative_exact by done.
  rewrite Op_nonneg by (first [done | lia | in_range]). cbn [holds].
  destruct (Z.ltb_spec s (IntegerBitsPlusSign T)) as [Hlt|Hge].
  - pose proof (shiftr_in_type T x s Hx Hs0) as Hr.
    rewrite saturated_cast_exact, clamp_id by auto using in_promote. by apply Z.shiftr_div_pow2.
  - assert (2 ^ IntegerBitsPlusSign T <= 2 ^ s) as Hp by (apply Z.pow_le_mono_r; lia).
    assert (max_of T < 2 ^ IntegerBitsPlusSign T /\ - 2 ^ IntegerBitsPlusSign T <= lowest T) as [Hm Hl] by (by destruct T).
    unfold in_type in Hx. destruct (Z.ltb_spec x 0); cbn [Z.b2z].
    + rewrite <- (Z.div_unique x (2 ^ s) (-1) (x + 2 ^ s)) by lia.
      destruct (is_signed T) eqn:ET; [clear - ET; by destruct T|pose proof (lowest_unsigned T ET); lia].
    + rewrite Z.div_small by lia. clear. destruct T; reflexivity.
Qed.

Lemma ClampedMaxOp_exact k T U x y : in_type T x -> in_type U y ->
  ClampedMaxOp k T U (MaxExponentPromotion T U) x y = Z.max x y.
Proof.
  intros Hx Hy. unfold ClampedMaxOp. rewrite Test_exact, !saturated_cast_exact by done. cbn [holds].
  rewrite <- (clamp_id _ _ (MaxExponent_holds T U x y Hx Hy)). destruct (Z.ltb_spec y x); f_equal; lia.
Qed.
Lemma ClampedMinOp_exact k T U x y : in_type T x -> in_type U y ->
  ClampedMinOp k T U (LowestValuePromotion T U) x y = Z.min x y.
Proof.
  intros Hx Hy. unfold ClampedMinOp. rewrite Test_exact, !saturated_cast_exact by done. cbn [holds].
  rewrite <- (clamp_id _ _ (LowestValue_holds T U x y Hx Hy)). destruct (Z.ltb_spec x y); f_equal; lia.
Qed.

(** ** Unary operations *)
Lemma SaturatedNegWrapper_exact tc k T v : in_type T v -> SaturatedNegWrapper tc k T v = clamp T (- v).
Proof.
  intros Hv. unfold SaturatedNegWrapper. destruct (is_signed T) eqn:E.
  - assert (lowest T = - (max_of T + 1)) as El by (by destruct T).
    assert (2 ^ (8 * sizeof T) = 2 * (max_of T + 1)) as Ew by (by destruct T). pose proof (range_order T).
    unfold ClampedNegFastOp_Do, builtin_op. rewrite Z.sub_0_l, NegateWrapper_exact. unfold in_type in *.
    destruct (decide (v = lowest T)) as [->|Hn].
    + rewrite bool_decide_eq_false_2, clamp_high by lia. rewrite convert_signed_sum by (done || lia).
      destruct (Z.ltb_spec (- lowest T) (lowest T)); [lia|]. destruct (Z.ltb_spec (max_of T) (- lowest T)); [|lia].
      rewrite (proj2 (Z.eqb_eq (- lowest T - 2 ^ (8 * sizeof T)) (lowest T))) by lia. by destruct (k || negb (has_builtins tc)).
    + rewrite bool_decide_eq_true_2, convert_id, clamp_id by (unfold in_type; lia).
      rewrite (proj2 (Z.eqb_neq (- v) (lowest T))) by lia. by destruct (k || negb (has_builtins tc)).
  - pose proof (lowest_unsigned T E). unfold in_type in Hv. rewrite clamp_low; lia.
Qed.

Lemma SaturatedAbsWrapper_exact T v : in_type T v -> SaturatedAbsWrapper T v = clamp T (Z.abs v).
Proof.
  intros Hv. unfold SaturatedAbsWrapper. rewrite SafeUnsignedAbs_exact by done.
  rewrite IsValueNegative_exact by apply convert_range. pose proof (range_order T).
  destruct (decide (in_type T (Z.abs v))) as [Ha|Ha].
  - rewrite (convert_id T (Z.abs v)), clamp_id by done. rewrite (proj2 (Z.ltb_ge (Z.abs v) 0)), Z.sub_0_r by lia.
    rewrite (convert_id (common _ _)); [by apply convert_id|]. apply common_nonneg; [|lia]. destruct T; in_range.
  - assert (is_signed T = true) as E.
    { destruct (is_signed T) eqn:E; [done|]. pose proof (lowest_unsigned T E). unfold in_type in *. lia. }
    assert (lowest T = - (max_of T + 1) /\ 2 ^ (8 * sizeof T) = 2 * (max_of T + 1)) as [El Ew] by (clear - E; by destruct T).
    assert (Z.abs v = max_of T + 1) as Ev by (unfold in_type in *; lia). rewrite Ev, clamp_high by lia.
    rewrite (convert_signed_sum T (max_of T + 1)) by (done || lia). destruct (Z.ltb_spec (max_of T + 1) (lowest T)); [lia|].
    destruct (Z.ltb_spec (max_of T) (max_of T + 1)); [|lia]. rewrite (proj2 (Z.ltb_lt _ 0)) by lia. cbn [Z.b2z].
    replace (max_of T + 1 - 1) with (max_of T) by lia. clear. destruct T; reflexivity.
Qed.

Lemma new_id k T v : in_type T v -> ClampedNumeric_new k T T v = v.
Proof. intros H. unfold ClampedNumeric_new. by rewrite saturated_cast_exact, clamp_id. Qed.
Lemma clamp_in_type t z : in_type t (clamp t z).
Proof. pose proof (range_order t). unfold clamp, in_type. lia. Qed.

(** Negation, absolute value, shifts, maximum, minimum and conversion of a saturating number
    are the exact ones clamped to the type, on every path. *)
Theorem clamped_unary tc k T U x y : in_type T x -> in_type U y ->
  Clamped_minus tc k T x = clamp T (- x) /\
  Clamped_Abs k T x = clamp T (Z.abs x) /\
  Clamped_UnsignedAbs k T x = Z.abs x /\
  Clamped_Max k T U x y = Z.max x y /\ Clamped_Min k T U x y = Z.min x y /\
  Clamped_Cast k U T x = clamp U x /\
  (is_signed U = false -> Clamped_MathOp_assign tc k Lsh T U x y = Ok (clamp T (x * 2 ^ y)) /\
     Clamped_MathOp_assign tc k Rsh T U x y = Ok (x / 2 ^ y)).
Proof.
  intros Hx Hy. split_and!.
  - unfold Clamped_minus. rewrite SaturatedNegWrapper_exact by done. apply new_id, clamp_in_type.
  - unfold Clamped_Abs. rewrite SaturatedAbsWrapper_exact by done. apply new_id, clamp_in_type.
  - unfold Clamped_UnsignedAbs. rewrite SafeUnsignedAbs_exact by done. apply new_id. destruct T; in_range.
  - unfold Clamped_Max. rewrite ClampedMaxOp_exact by done. by apply new_id, MaxExponent_holds.
  - unfold Clamped_Min. rewrite ClampedMinOp_exact by done. by apply new_id, LowestValue_holds.
  - by apply saturated_cast_exact.
  - intros EU. unfold Clamped_MathOp_assign. cbn [Clamped_Do]. rewrite ClampedLshOp_exact, ClampedRshOp_exact by done.
    cbn. rewrite !new_id; [done| |apply clamp_in_type].
    assert (0 <= y) by (pose proof (lowest_unsigned U EU); unfold in_type in Hy; lia).
    rewrite <- Z.shiftr_div_pow2 by done. by apply shiftr_in_type.
Qed.

(** C37: saturating addition, subtraction, multiplication and division over any integer types
    return the value of the result type nearest to the exact result (a quotient by zero
    being infinite with the sign of the dividend), whenever the checked operation under them
    is complete and, for an addition, the left operand is in the result type: in particular
    for the assignment operators on any two types that some integer type contains. *)
Theorem clamped_exact tc k m T L R x y : arithmetic m = true -> in_type L x -> in_type R y -> assignable m L R T ->
  complete tc m L R x y = true -> (m = Add -> in_type T x) ->
  Clamped_MathOp tc k m T L R x y = Ok (saturating m T x y).
Proof.
  intros. unfold Clamped_MathOp. rewrite Clamped_Do_exact by done. cbn. f_equal. apply new_id.
  unfold saturating. pose proof (range_order T). pose proof (in_zero T). pose proof (in_lowest T). pose proof (in_max T).
  destruct m, (exact _ _ _); try apply clamp_in_type. destruct (x =? 0), (x <? 0); done.
Qed.

(** Without those conditions: an unsigned sum that is negative saturates to the maximum, a
    negative multiple of an unsigned 64-bit number saturates under Clang although it fits,
    and a remainder that does not fit becomes the dividend, converted. *)
Lemma clamped_wrong_side k :
  ClampMathOp Gcc k Add I32 U32 (-5) 3 = Ok (U32, 4294967295) /\ clamp U32 (-5 + 3) = 0 /\
  Clamped_MathOp_assign Clang k Mul I64 U64 (-1) 2 = Ok (lowest I64) /\ clamp I64 (-1 * 2) = -2 /\
  ClampMathOp Gcc k Mod I32 U32 (-5) 3 = Ok (U32, 4294967291) /\ clamp U32 (Z.rem (-5) 3) = 0.
Proof. destruct k; vm_compute; done. Qed.

Lemma clamped_exact_witness : Clamped_MathOp Clang false Add I8 I8 I32 100 1000 = Ok 127.
Proof.
  rewrite (clamped_exact Clang false Add I8 I8 I32 100 1000); [reflexivity|reflexivity|in_range|in_range|left; reflexivity|reflexivity|intros _; in_range].
Defined.
