(* ===== verification/PacketQueue.v ===== *)
(** * The packet queue

    [PacketNumberIndexedQueue<T>] of
    [modules/congestion_controller/bbr/packet_number_indexed_queue.h] of
    [include/webrtc], built with [RTC_DCHECK_IS_ON]: a deque of slots, present or not,
    that starts at the lowest present packet number.  It refines a finite map. *)

From S2P Require Import Prelude.

Record EntryWrapper (T : Type) := mkEntry { data : T; present : bool }.
Arguments mkEntry {T} data present.
Arguments data {T} _.
Arguments present {T} _.

Record PacketNumberIndexedQueue (T : Type) := mkPQ {
  entries_ : list (EntryWrapper T); number_of_present_entries_ : Z; first_packet_ : Z
}.
Arguments mkPQ {T} _ _ _.
Arguments entries_ {T} _.
Arguments number_of_present_entries_ {T} _.
Arguments first_packet_ {T} _.

Section PacketQueue.
(** [T()] fills the slots that [resize] adds. *)
Context {T : Type} (blank : T).
Implicit Types (q : PacketNumberIndexedQueue T) (es : list (EntryWrapper T)).

Definition PQ_new : PacketNumberIndexedQueue T := mkPQ [] 0 0.

Definition IsEmpty q : bool := number_of_present_entries_ q =? 0.
Definition entry_slots_used q : Z := Z.of_nat (length (entries_ q)).

(** [size_t] arithmetic, then the conversion to [int64_t]. *)
Definition last_packet q : Z :=
  if IsEmpty q then 0 else i64 (u64 (u64 (first_packet_ q) + entry_slots_used q - 1)).

(** The index of the entry, if it is present. *)
Definition GetEntryWrapper q (offset : Z) : res (option nat) :=
  if offset <? first_packet_ q then Ok None else
  offset ← arith 64 (offset - first_packet_ q);
  if entry_slots_used q <=? offset then Ok None else
  match entries_ q !! Z.to_nat offset with
  | Some e => Ok (if present e then Some (Z.to_nat offset) else None)
  | None => Undef
  end.

Definition GetEntry q (packet_number : Z) : res (option T) :=
  o ← GetEntryWrapper q packet_number;
  Ok (i ← o; data <$> entries_ q !! i).

Definition Emplace q (packet_number : Z) (x : T) : res (bool * PacketNumberIndexedQueue T) :=
  if IsEmpty q then
    _ ← assert_ (bool_decide (length (entries_ q) = 0%nat));
    _ ← assert_ (first_packet_ q =? 0);
    Ok (true, mkPQ (entries_ q ++ [mkEntry x true]) 1 packet_number)
  else if packet_number <=? last_packet q then Ok (false, q) else
    offset ← arith 64 (packet_number - first_packet_ q);
    let es := if entry_slots_used q <? offset
              then entries_ q ++ replicate (Z.to_nat offset - length (entries_ q)) (mkEntry blank false)
              else entries_ q in
    let q' := mkPQ (es ++ [mkEntry x true]) (u64 (number_of_present_entries_ q + 1)) (first_packet_ q) in
    _ ← assert_ (packet_number =? last_packet q');
    Ok (true, q').

(** The loop of [Cleanup]. *)
Fixpoint cleanup_loop es (first : Z) : res (list (EntryWrapper T) * Z) :=
  match es with
  | e :: es' => if present e then Ok (es, first) else f ← arith 64 (first + 1); cleanup_loop es' f
  | [] => Ok ([], first)
  end.

Definition Cleanup q : res (PacketNumberIndexedQueue T) :=
  '(es, first) ← cleanup_loop (entries_ q) (first_packet_ q);
  Ok (mkPQ es (number_of_present_entries_ q) (match es with [] => 0 | _ => first end)).

Definition Remove q (packet_number : Z) : res (bool * PacketNumberIndexedQueue T) :=
  o ← GetEntryWrapper q packet_number;
  match o with
  | None => Ok (false, q)
  | Some i =>
      let q := mkPQ (alter (fun e => mkEntry (data e) false) i (entries_ q))
                    (u64 (number_of_present_entries_ q - 1)) (first_packet_ q) in
      q ← (if packet_number =? first_packet_ q then Cleanup q else Ok q);
      Ok (true, q)
  end.

(** ** The map it implements *)
Fixpoint to_map es (first : Z) : gmap Z T :=
  match es with
  | [] => ∅
  | e :: es => let m := to_map es (first + 1) in if present e then <[first := data e]> m else m
  end.

Definition contents_map q : gmap Z T := to_map (entries_ q) (first_packet_ q).

Lemma to_map_lookup es first k : to_map es first !! k =
  if first <=? k then e ← es !! Z.to_nat (k - first); if present e then Some (data e) else None else None.
Proof.
  revert first. induction es as [|e es IH]; intros first; cbn [to_map].
  { rewrite lookup_empty. by destruct (first <=? k). }
  assert (to_map es (first + 1) !! k = (if first <? k then (e0 ← es !! Z.to_nat (k - first - 1);
    if present e0 then Some (data e0) else None) else None)) as E.
  { rewrite IH. replace (k - (first + 1)) with (k - first - 1) by lia.
    by destruct (Z.leb_spec (first + 1) k), (Z.ltb_spec first k); try lia. }
  destruct (Z.lt_trichotomy k first) as [H|[->|H]].
  - rewrite (proj2 (Z.ltb_ge first k)) in E by lia. destruct (Z.leb_spec first k); [lia|].
    destruct (present e); [rewrite lookup_insert_ne by lia|]; done.
  - rewrite Z.ltb_irrefl in E. rewrite Z.leb_refl, Z.sub_diag. change ((e :: es) !! Z.to_nat 0) with (Some e).
    cbn [mbind option_bind]. destruct (present e); [by rewrite lookup_insert_eq|done].
  - rewrite (proj2 (Z.ltb_lt first k)) in E by lia. destruct (Z.leb_spec first k); [|lia].
    replace (Z.to_nat (k - first)) with (S (Z.to_nat (k - first - 1))) by lia.
    change ((e :: es) !! S (Z.to_nat (k - first - 1))) with (es !! Z.to_nat (k - first - 1)).
    destruct (present e); [rewrite lookup_insert_ne by lia|]; done.
Qed.

Lemma to_map_size es first : Z.of_nat (size (to_map es first)) = Z.of_nat (length (filter (fun e => present e = true) es)).
Proof.
  revert first. induction es as [|e es IH]; intros first; cbn [to_map]; [by rewrite map_size_empty|].
  rewrite filter_cons. destruct (present e) eqn:P.
  - rewrite decide_True by done. rewrite map_size_insert_None; [cbn [length]; specialize (IH (first + 1)); lia|].
    rewrite to_map_lookup. by destruct (Z.leb_spec (first + 1) first); [lia|].
  - by rewrite decide_False by done.
Qed.

Lemma to_map_snoc es first x :
  to_map (es ++ [mkEntry x true]) first = <[first + Z.of_nat (length es) := x]> (to_map es first).
Proof.
  revert first. induction es as [|e es IH]; intros first; cbn [to_map app length].
  - cbn. by rewrite Z.add_0_r.
  - rewrite IH. replace (first + 1 + Z.of_nat (length es)) with (first + Z.of_nat (S (length es))) by lia.
    destruct (present e); [|done]. apply insert_insert_ne. lia.
Qed.

Lemma to_map_blanks es first n : to_map (es ++ replicate n (mkEntry blank false)) first = to_map es first.
Proof.
  revert first. induction es as [|e es IH]; intros first; cbn [to_map app]; [|by rewrite IH].
  revert first. induction n as [|n IHn]; intros first; cbn; [done|apply IHn].
Qed.

Lemma to_map_absent es first i : (i < length es)%nat ->
  to_map (alter (fun e => mkEntry (data e) false) i es) first = delete (first + Z.of_nat i) (to_map es first).
Proof.
  intros Hi. apply map_eq. intros k. rewrite to_map_lookup.
  destruct (decide (k = first + Z.of_nat i)) as [->|Hne].
  - rewrite lookup_delete_eq. destruct (Z.leb_spec first (first + Z.of_nat i)); [|done].
    replace (Z.to_nat (first + Z.of_nat i - first)) with i by lia. rewrite list_lookup_alter_eq.
    by destruct (es !! i).
  - rewrite lookup_delete_ne by done. rewrite to_map_lookup. destruct (Z.leb_spec first k); [|done].
    rewrite list_lookup_alter_ne by lia. done.
Qed.

Lemma cleanup_map es first : - 2 ^ 62 < first -> first + Z.of_nat (length es) < 2 ^ 62 ->
  exists es' first', cleanup_loop es first = Ok (es', first') /\ to_map es' first' = to_map es first /\
    first' + Z.of_nat (length es') = first + Z.of_nat (length es) /\ first <= first' /\
    match es' with [] => True | e :: _ => present e = true end.
Proof.
  revert first. induction es as [|e es IH]; intros first H1 H2; cbn [cleanup_loop to_map length] in *.
  { exists [], first. by split_and!. }
  destruct (present e) eqn:P.
  - exists (e :: es), first. cbn [to_map]. rewrite P. by split_and!.
  - unfold arith. rewrite bool_decide_eq_true_2 by (unfold in_s; lia). cbn [mbind res_bind].
    destruct (IH (first + 1)) as (es' & first' & E & Em & El & Hf & Hh); [lia|lia|].
    exists es', first'. split_and!; try done; lia.
Qed.

Record pq_wf q : Prop := {
  pq_count : number_of_present_entries_ q = Z.of_nat (size (contents_map q));
  pq_head : match entries_ q with [] => first_packet_ q = 0 | e :: _ => present e = true end;
  pq_low : - 2 ^ 62 < first_packet_ q;
  pq_high : first_packet_ q + Z.of_nat (length (entries_ q)) < 2 ^ 62
}.

Lemma pq_size q : Z.of_nat (size (contents_map q)) <= Z.of_nat (length (entries_ q)).
Proof. unfold contents_map. rewrite to_map_size. pose proof (length_filter (fun e => present e = true) (entries_ q)). lia. Qed.

Lemma IsEmpty_spec q : pq_wf q -> if IsEmpty q then entries_ q = [] /\ first_packet_ q = 0 /\ contents_map q = ∅
                                  else entries_ q <> [] /\ contents_map q <> ∅.
Proof.
  intros [Hc Hh _ _]. unfold IsEmpty. rewrite Hc.
  destruct (Z.eqb_spec (Z.of_nat (size (contents_map q))) 0) as [E|E].
  - assert (contents_map q = ∅) as Em by (apply map_size_empty_inv; lia).
    split_and!; [..|done]; unfold contents_map in Em; (destruct (entries_ q) as [|e es]; [done|]);
      cbn [to_map] in Em; rewrite Hh in Em; by apply insert_non_empty in Em.
  - split.
    + intros H. apply E. unfold contents_map. rewrite H. cbn [to_map]. by rewrite map_size_empty.
    + intros H. apply E. rewrite H. by rewrite map_size_empty.
Qed.

Lemma last_packet_spec q : pq_wf q -> IsEmpty q = false ->
  last_packet q = first_packet_ q + Z.of_nat (length (entries_ q)) - 1.
Proof.
  intros Hwf He. pose proof Hwf as [_ _ Hl Hh]. pose proof (IsEmpty_spec q Hwf) as H. rewrite He in H.
  destruct H as [H _]. unfold last_packet, entry_slots_used. rewrite He.
  assert (0 < Z.of_nat (length (entries_ q))) by (destruct (entries_ q); [done|cbn; lia]).
  rewrite wrapS_wrapU, <- Z.add_sub_assoc by lia. rewrite <- (wrapS_wrapU 64 (u64 _ + _)) by lia.
  unfold wrapU. rewrite Zplus_mod_idemp_l. change (_ mod 2 ^ 64) with (u64 (first_packet_ q + (Z.of_nat (length (entries_ q)) - 1))).
  rewrite wrapS_wrapU, wrapS_id; unfold in_s; lia.
Qed.

Lemma GetEntryWrapper_spec q n : pq_wf q -> Z.abs n < 2 ^ 62 ->
  exists o, GetEntryWrapper q n = Ok o /\
    match o with
    | Some i => n = first_packet_ q + Z.of_nat i /\
        exists e, entries_ q !! i = Some e /\ contents_map q !! n = Some (data e)
    | None => contents_map q !! n = None
    end.
Proof.
  intros [_ _ Hl Hh] Hn. unfold GetEntryWrapper, contents_map, entry_slots_used. rewrite to_map_lookup.
  destruct (Z.ltb_spec n (first_packet_ q)); destruct (Z.leb_spec (first_packet_ q) n); try lia; [by exists None|].
  unfold arith. rewrite bool_decide_eq_true_2 by (unfold in_s; lia). cbn [mbind res_bind].
  destruct (Z.leb_spec (Z.of_nat (length (entries_ q))) (n - first_packet_ q)).
  - exists None. split; [done|]. by rewrite lookup_ge_None_2 by lia.
  - destruct (lookup_lt_is_Some_2 (entries_ q) (Z.to_nat (n - first_packet_ q)) ltac:(lia)) as [e E].
    rewrite E. eexists. split; [reflexivity|]. cbn [mbind option_bind].
    destruct (present e); [|done]. split; [lia|]. by exists e.
Qed.

(** ** One call *)
Lemma GetEntry_spec q n : pq_wf q -> Z.abs n < 2 ^ 62 -> GetEntry q n = Ok (contents_map q !! n).
Proof.
  intros Hwf Hn. unfold GetEntry. destruct (GetEntryWrapper_spec q n Hwf Hn) as ([i|] & -> & H); cbn [mbind res_bind].
  - destruct H as (_ & e & E & ->). cbn. by rewrite E.
  - by rewrite H.
Qed.

(** The blank entries up to a packet beyond the last. *)
Lemma fill_spec q n : pq_wf q -> entries_ q <> [] -> first_packet_ q + Z.of_nat (length (entries_ q)) <= n ->
  let es := if entry_slots_used q <? n - first_packet_ q
            then entries_ q ++ replicate (Z.to_nat (n - first_packet_ q) - length (entries_ q)) (mkEntry blank false)
            else entries_ q in
  Z.of_nat (length es) = n - first_packet_ q /\ to_map es (first_packet_ q) = contents_map q /\
  match es with [] => False | e :: _ => present e = true end.
Proof.
  intros [Hc Hh Hl Hhi] Hne Hle. cbn zeta. unfold entry_slots_used.
  destruct (Z.ltb_spec (Z.of_nat (length (entries_ q))) (n - first_packet_ q)).
  - rewrite length_app, length_replicate, to_map_blanks. split_and!; [lia|done|]. by destruct (entries_ q).
  - split_and!; [lia|done|]. by destruct (entries_ q).
Qed.

Lemma Emplace_spec q n x : pq_wf q -> Z.abs n < 2 ^ 62 - 1 ->
  exists b q', Emplace q n x = Ok (b, q') /\ pq_wf q' /\
    b = bool_decide (contents_map q = ∅ \/ last_packet q < n) /\
    contents_map q' = (if b then <[n := x]> (contents_map q) else contents_map q) /\
    last_packet q' = (if b then n else last_packet q).
Proof.
  intros Hwf Hn. pose proof (IsEmpty_spec q Hwf) as He. unfold Emplace. destruct (IsEmpty q) eqn:Ee.
  - destruct He as (E1 & E2 & E3). rewrite E1, E2, E3. cbn. do 2 eexists. split; [reflexivity|].
    assert (contents_map (mkPQ [mkEntry x true] 1 n) = <[n:=x]> ∅) as Em by done.
    assert (pq_wf (mkPQ [mkEntry x true] 1 n)) as Hwf'
      by (split; cbn [entries_ first_packet_ number_of_present_entries_]; rewrite ?Em; [by rewrite insert_empty, map_size_singleton|done|lia|cbn; lia]).
    rewrite bool_decide_eq_true_2 by auto. split_and!; [done..|].
    rewrite last_packet_spec by done. cbn. lia.
  - destruct He as [E1 E2]. pose proof (last_packet_spec q Hwf Ee) as Hlast. pose proof Hwf as [Hc Hh Hl Hhi].
    pose proof (pq_size q) as Hsz.
    destruct (Z.leb_spec n (last_packet q)) as [Hle|Hgt].
    { exists false, q. rewrite bool_decide_eq_false_2 by (intros [?|?]; [done|lia]). by split_and!. }
    unfold arith. rewrite bool_decide_eq_true_2 by (unfold in_s; lia). cbn [mbind res_bind].
    set (es := if entry_slots_used q <? n - first_packet_ q then _ else _).
    destruct (fill_spec q n Hwf) as (Hlen & Hm & Hhead); [done|lia|]. fold es in Hlen, Hm, Hhead.
    set (q' := mkPQ (es ++ [mkEntry x true]) _ (first_packet_ q)).
    assert (contents_map q' = <[n:=x]> (contents_map q)) as Em.
    { unfold contents_map at 1, q'. cbn [entries_ first_packet_]. rewrite to_map_snoc, Hm. f_equal. lia. }
    assert (contents_map q !! n = None) as Hnone.
    { unfold contents_map. rewrite to_map_lookup. destruct (Z.leb_spec (first_packet_ q) n); [|done].
      by rewrite lookup_ge_None_2 by lia. }
    assert (pq_wf q') as Hwf'.
    { split; [|subst q'; cbn..].
      - rewrite Em, map_size_insert_None by done. subst q'. cbn [number_of_present_entries_].
        rewrite wrapU_id by (unfold in_u; lia). lia.
      - by destruct es.
      - done.
      - rewrite length_app. cbn. lia. }
    assert (IsEmpty q' = false) as Ee'.
    { unfold IsEmpty, q'. cbn [number_of_present_entries_]. rewrite wrapU_id by (unfold in_u; lia). apply Z.eqb_neq. lia. }
    assert (last_packet q' = n) as Hlast'.
    { rewrite last_packet_spec by done. subst q'. cbn. rewrite length_app. cbn. lia. }
    rewrite Hlast', Z.eqb_refl. cbn. exists true, q'. rewrite bool_decide_eq_true_2 by auto. by split_and!.
Qed.

Lemma Remove_map_spec q n : pq_wf q -> Z.abs n < 2 ^ 62 ->
  exists b q', Remove q n = Ok (b, q') /\ pq_wf q' /\
    b = bool_decide (is_Some (contents_map q !! n)) /\ contents_map q' = delete n (contents_map q) /\
    (contents_map q' <> ∅ -> last_packet q' = last_packet q).
Proof.
  intros Hwf Hn. unfold Remove. destruct (GetEntryWrapper_spec q n Hwf Hn) as ([i|] & -> & H); cbn [mbind res_bind].
  2:{ exists false, q. rewrite bool_decide_eq_false_2 by (rewrite H; by intros [? ?]).
      split_and!; try done. symmetry. by apply delete_id. }
  destruct H as (-> & e & Ei & Em). pose proof (lookup_lt_Some _ _ _ Ei) as Hi.
  pose proof Hwf as [Hc Hh Hl Hhi]. pose proof (pq_size q) as Hsz.
  set (q1 := mkPQ _ _ _). cbn [first_packet_].
  assert (contents_map q1 = delete (first_packet_ q + Z.of_nat i) (contents_map q)) as Em1 by by apply to_map_absent.
  assert (number_of_present_entries_ q1 = Z.of_nat (size (contents_map q1))) as Hc1.
  { rewrite Em1, map_size_delete_Some by done. subst q1. cbn [number_of_present_entries_].
    assert (size (contents_map q) <> 0%nat) by (intros E%map_size_empty_inv; by rewrite E in Em).
    rewrite wrapU_id by (unfold in_u; lia). lia. }
  assert (IsEmpty q = false) as Ee.
  { unfold IsEmpty. rewrite Hc. apply Z.eqb_neq. intros E. assert (size (contents_map q) = 0%nat) as E0 by lia.
    apply map_size_empty_inv in E0. by rewrite E0 in Em. }
  rewrite bool_decide_eq_true_2 by by rewrite Em.
  assert (exists q', (if first_packet_ q + Z.of_nat i =? first_packet_ q1 then Cleanup q1 else Ok q1) = Ok q' /\
    pq_wf q' /\ contents_map q' = contents_map q1 /\
    (contents_map q' <> ∅ -> first_packet_ q' + Z.of_nat (length (entries_ q')) =
       first_packet_ q + Z.of_nat (length (entries_ q)))) as (q' & -> & Hwf' & Em' & Hlast).
  { change (first_packet_ q1) with (first_packet_ q).
    destruct (Z.eqb_spec (first_packet_ q + Z.of_nat i) (first_packet_ q)) as [E|E].
    - unfold Cleanup. destruct (cleanup_map (entries_ q1) (first_packet_ q1)) as (es & f & -> & Em2 & El & Hf & Hhd);
        [done|subst q1; cbn; rewrite length_alter; lia|]. cbn [mbind res_bind].
      subst q1. cbn [entries_ first_packet_ number_of_present_entries_] in *. rewrite length_alter in El.
      assert (to_map es (match es with [] => 0 | _ => f end) = to_map es f) as Eq by by destruct es.
      eexists. split; [reflexivity|]. split_and!.
      + split; unfold contents_map in *; cbn [entries_ first_packet_ number_of_present_entries_] in *;
          [by rewrite Eq, Em2|by destruct es|destruct es; lia|destruct es; cbn in *; lia].
      + unfold contents_map in *; cbn [entries_ first_packet_] in *. by rewrite Eq, Em2.
      + unfold contents_map; cbn [entries_ first_packet_]. intros Hne. destruct es; [done|lia].
    - exists q1. split_and!; try done.
      + split; [done| |done|subst q1; cbn; rewrite length_alter; lia].
        subst q1. cbn. destruct i as [|i]; [lia|]. by destruct (entries_ q).
      + intros _. subst q1. cbn. by rewrite length_alter. }
  cbn [mbind res_bind]. exists true, q'. split_and!; [done..|by rewrite Em'|].
  intros Hne. assert (IsEmpty q' = false) as Ee'.
  { pose proof (IsEmpty_spec q' Hwf') as H. destruct (IsEmpty q'); [|done]. by destruct H as (_ & _ & H). }
  rewrite !last_packet_spec by done. rewrite Hlast by done. done.
Qed.

(** ** Sequences of calls *)
Inductive pop := PEmplace (n : Z) (x : T) | PRemove (n : Z) | PGet (n : Z).
Inductive pobs := Did (b : bool) | Got (o : option T).

Definition pstep (o : pop) q : res (pobs * PacketNumberIndexedQueue T) :=
  match o with
  | PEmplace n x => '(b, q) ← Emplace q n x; Ok (Did b, q)
  | PRemove n => '(b, q) ← Remove q n; Ok (Did b, q)
  | PGet n => o ← GetEntry q n; Ok (Got o, q)
  end.
Fixpoint prun (ops : list pop) q : res (list pobs * PacketNumberIndexedQueue T) :=
  match ops with
  | [] => Ok ([], q)
  | o :: ops => '(a, q) ← pstep o q; '(outs, q) ← prun ops q; Ok (a :: outs, q)
  end.

(** A finite map and the last number emplaced: only larger numbers can be added, unless
    the map is empty. *)
Definition mapstep (o : pop) (s : gmap Z T * Z) : pobs * (gmap Z T * Z) :=
  let '(m, hi) := s in
  match o with
  | PEmplace n x => if bool_decide (m = ∅ \/ hi < n) then (Did true, (<[n := x]> m, n)) else (Did false, s)
  | PRemove n => (Did (bool_decide (is_Some (m !! n))), (delete n m, hi))
  | PGet n => (Got (m !! n), s)
  end.
Fixpoint maprun (ops : list pop) (s : gmap Z T * Z) : list pobs * (gmap Z T * Z) :=
  match ops with
  | [] => ([], s)
  | o :: ops => let '(a, s) := mapstep o s in let '(outs, s) := maprun ops s in (a :: outs, s)
  end.

Definition pop_number (o : pop) : Z := match o with PEmplace n _ | PRemove n | PGet n => n end.
Definition pop_ok (o : pop) : Prop := Z.abs (pop_number o) < 2 ^ 62 - 1.

(** The state of the map the queue stands for. *)
Definition stands q (s : gmap Z T * Z) : Prop :=
  pq_wf q /\ contents_map q = fst s /\ (fst s <> ∅ -> last_packet q = snd s).

Lemma pstep_refines o q s : stands q s -> pop_ok o ->
  exists a q' s', pstep o q = Ok (a, q') /\ mapstep o s = (a, s') /\ stands q' s'.
Proof.
  destruct s as [m hi]. intros (Hwf & Hm & Hhi) Ho. cbn [fst snd] in *. unfold pop_ok in Ho.
  destruct o as [n x|n|n]; cbn [pop_number pstep mapstep] in *.
  - destruct (Emplace_spec q n x Hwf Ho) as (b & q' & -> & Hwf' & Hb & Hm' & Hl'). cbn [mbind res_bind].
    rewrite Hm in *.
    assert (b = bool_decide (m = ∅ \/ hi < n)) as Eb.
    { rewrite Hb. destruct (decide (m = ∅)) as [->|Hne]; [by rewrite !bool_decide_eq_true_2 by auto|].
      by rewrite (Hhi Hne). }
    rewrite <- Eb. destruct b; do 3 eexists; (split; [reflexivity|]); (split; [reflexivity|]);
      split_and!; try done. intros Hne. cbn in *. by rewrite Hl', Hhi.
  - destruct (Remove_map_spec q n Hwf ltac:(lia)) as (b & q' & -> & Hwf' & -> & Hm' & Hl'). cbn [mbind res_bind].
    rewrite Hm in *. do 3 eexists. split; [reflexivity|]. split; [reflexivity|]. split_and!; [done|done|].
    cbn. intros Hne. rewrite Hl' by congruence. apply Hhi. intros ->. by rewrite delete_empty in Hne.
  - rewrite GetEntry_spec by (done || lia). cbn [mbind res_bind]. rewrite Hm.
    do 3 eexists. split; [reflexivity|]. split; [reflexivity|]. by split_and!.
Qed.

Lemma prun_refines ops q s : stands q s -> Forall pop_ok ops ->
  exists outs q' s', prun ops q = Ok (outs, q') /\ maprun ops s = (outs, s') /\ stands q' s'.
Proof.
  intros Hs Hops. revert q s Hs. induction Hops as [|o ops Ho _ IH]; intros q s Hs; cbn [prun maprun]; [by exists [], q, s|].
  destruct (pstep_refines o q s Hs Ho) as (a & q1 & s1 & -> & -> & Hs1). cbn [mbind res_bind].
  destruct (IH q1 s1 Hs1) as (outs & q2 & s2 & -> & -> & Hs2). cbn [mbind res_bind]. by do 3 eexists.
Qed.

(** The packet queue is a finite map whose keys are added in increasing order: for any
    sequence of insertions, removals and look-ups with packet numbers below [2^62] in
    size, no check fails and nothing overflows, every call answers what the map answers,
    and the number of present entries is the map's size. *)
Theorem PacketQueue_refines ops : Forall pop_ok ops ->
  exists outs q m hi, prun ops PQ_new = Ok (outs, q) /\ maprun ops (∅, 0) = (outs, (m, hi)) /\
    contents_map q = m /\ number_of_present_entries_ q = Z.of_nat (size m) /\
    (IsEmpty q = true -> q = PQ_new).
Proof.
  intros Hops. assert (stands PQ_new (∅, 0)) as Hs.
  { split_and!; [|done|done]. split; cbn; try done; try lia. }
  destruct (prun_refines ops PQ_new (∅, 0) Hs Hops) as (outs & q & [m hi] & E1 & E2 & Hwf & Hm & _).
  exists outs, q, m, hi. cbn in Hm. split_and!; [done..| |].
  - destruct Hwf. by rewrite <- Hm.
  - intros He. pose proof (IsEmpty_spec q Hwf) as H. rewrite He in H. destruct H as (H1 & H2 & _).
    apply Z.eqb_eq in He. destruct q; cbn in *. by subst.
Qed.

End PacketQueue.

Arguments PEmplace {T} n x.
Arguments PRemove {T} n.
Arguments PGet {T} n.
Arguments Did {T} b.
Arguments Got {T} o.

Lemma PacketQueue_refines_witness : exists q,
  prun 0 [PEmplace 7 70; PEmplace 9 90; PEmplace 8 80; PRemove 7; PGet 9; PGet 8; PRemove 9; PEmplace 3 30] PQ_new =
    Ok ([Did true; Did true; Did false; Did true; Got (Some 90); Got None; Did true; Did true], q) /\
  number_of_present_entries_ q = 1.
Proof.
  destruct (PacketQueue_refines 0
    [PEmplace 7 70; PEmplace 9 90; PEmplace 8 80; PRemove 7; PGet 9; PGet 8; PRemove 9; PEmplace 3 30])
    as (outs & q & m & hi & E1 & E2 & _ & E4 & _).
  - repeat constructor; vm_compute; reflexivity.
  - vm_compute in E2. injection E2 as <- <- <-. exists q. by split; [|rewrite E4].
Defined.
