(* ===== verification/ArrayView.v ===== *)
(** * Array views

    [ArrayView<T, Size>] of [api/array_view.h] of [include/webrtc], built with
    [RTC_DCHECK_IS_ON].  A view points into an array it does not own: the array is the
    shared memory, a list, and a pointer is an index into it or null.  Sizes are bounded
    by the array's, so they are naturals here. *)

From S2P Require Import Prelude.

(** The template argument [Size]. *)
Inductive ViewSize := FixedSize (n : nat) | VarSize.

Record ArrayView := mkView { view_data : option nat; view_size : nat }.

(** [ArrayViewBase(data, size)] of the three base classes. *)
Definition ArrayViewBase (Size : ViewSize) (data : option nat) (size : nat) : ArrayView :=
  match Size with
  | FixedSize 0 => mkView None 0
  | FixedSize n => mkView data n
  | VarSize => mkView (if bool_decide (size = 0%nat) then None else data) size
  end.

(** [ArrayView(data, size)] with its three checks. *)
Definition ArrayView_new (Size : ViewSize) (data : option nat) (size : nat) : res ArrayView :=
  let v := ArrayViewBase Size data size in
  _ ← assert_ (bool_decide ((if bool_decide (size = 0%nat) then None else data) = view_data v));
  _ ← assert_ (bool_decide (size = view_size v));
  _ ← assert_ (Bool.eqb (bool_decide (view_data v = None)) (bool_decide (view_size v = 0%nat)));
  Ok v.

Definition ArrayView_empty (Size : ViewSize) : res ArrayView := ArrayView_new Size None 0.

Definition empty (v : ArrayView) : bool := bool_decide (view_size v = 0%nat).

Definition subview (v : ArrayView) (offset size : nat) : res ArrayView :=
  if bool_decide (offset < view_size v)%nat
  then ArrayView_new VarSize ((fun p => (p + offset)%nat) <$> view_data v) (Nat.min size (view_size v - offset))
  else ArrayView_empty VarSize.
Definition subview_from (v : ArrayView) (offset : nat) : res ArrayView := subview v offset (view_size v).

(** [operator==]: the pointers and the sizes, not the elements. *)
Definition view_eqb (a b : ArrayView) : bool :=
  bool_decide (view_data a = view_data b) && bool_decide (view_size a = view_size b).

Section Memory.
Context {A : Type}.
Implicit Types mem : list A.

(** [operator[]], read and written through. *)
Definition view_at (v : ArrayView) (idx : nat) : res nat :=
  _ ← assert_ (bool_decide (idx < view_size v)%nat);
  match view_data v with Some p => Ok (p + idx)%nat | None => Crash end.
Definition view_get mem (v : ArrayView) (idx : nat) : res A :=
  i ← view_at v idx; match mem !! i with Some x => Ok x | None => Undef end.
Definition view_put mem (v : ArrayView) (idx : nat) (x : A) : res (list A) :=
  i ← view_at v idx; if bool_decide (i < length mem)%nat then Ok (<[i:=x]> mem) else Undef.

(** ** What a view shows *)
Definition elems mem (v : ArrayView) : list A :=
  match view_data v with Some p => take (view_size v) (drop p mem) | None => [] end.

(** The view is null exactly when it is empty, and lies inside the array. *)
Definition view_ok mem (v : ArrayView) : Prop :=
  match view_data v with
  | Some p => (0 < view_size v)%nat /\ (p + view_size v <= length mem)%nat
  | None => view_size v = 0%nat
  end.

Lemma elems_length mem v : view_ok mem v -> length (elems mem v) = view_size v.
Proof.
  unfold view_ok, elems. destruct (view_data v); cbn; [|done]. intros [_ H].
  rewrite length_take, length_drop. lia.
Qed.

Lemma elems_lookup mem v p i : view_data v = Some p -> (i < view_size v)%nat -> elems mem v !! i = mem !! (p + i)%nat.
Proof. intros E Hi. unfold elems. rewrite E, lookup_take_lt by done. apply lookup_drop. Qed.

Lemma ArrayView_var_new p n : ArrayView_new VarSize (Some p) n = Ok (mkView (if bool_decide (n = 0%nat) then None else Some p) n).
Proof.
  unfold ArrayView_new, ArrayViewBase. destruct n as [|n]; [done|]. cbn [view_data view_size].
  rewrite (bool_decide_eq_false_2 (S n = 0%nat)) by done.
  rewrite (bool_decide_eq_true_2 (Some p = Some p)), (bool_decide_eq_true_2 (S n = S n)) by done.
  by rewrite (bool_decide_eq_false_2 (Some p = None)) by done.
Qed.

Lemma subview_spec mem v offset n : view_ok mem v ->
  exists s, subview v offset n = Ok s /\ view_ok mem s /\ elems mem s = take n (drop offset (elems mem v)) /\
    forall p i, view_data s = Some p -> (i < view_size s)%nat ->
      exists q, view_data v = Some q /\ (p + i = q + (offset + i))%nat /\ (offset + i < view_size v)%nat.
Proof.
  intros Hv. unfold subview. case_bool_decide as Ho.
  - unfold view_ok in Hv. destruct (view_data v) as [q|] eqn:Ed; [|lia]. cbn [fmap option_fmap option_map].
    rewrite ArrayView_var_new. eexists. split; [reflexivity|]. unfold view_ok, elems. cbn [view_data view_size].
    rewrite Ed. case_bool_decide as Hz; cbn [view_data view_size].
    + split; [done|]. split; [|done]. destruct n as [|n]; [done|lia].
    + split; [lia|]. split.
      * rewrite skipn_firstn_comm, take_take, drop_drop. done.
      * intros p i [= <-] Hi. exists q. split; [done|]. lia.
  - eexists. split; [reflexivity|]. split_and!; [done| |done].
    rewrite drop_ge by (rewrite elems_length by done; lia). by rewrite take_nil.
Qed.

(** A sub-view shows exactly the window it names: it is cut to the part inside the
    view, so no check fails and every element it shows lies in the array; reading through
    it reads the view's elements, an index past its end aborts, and a write through it
    changes that one element of the view and nothing outside the view. *)
Theorem subview_window mem v offset n i x :
  view_ok mem v ->
  exists s, subview v offset n = Ok s /\ elems mem s = take n (drop offset (elems mem v)) /\
    (view_size s <= i -> view_get mem s i = Crash)%nat /\
    ((i < view_size s)%nat -> exists y mem', view_get mem s i = Ok y /\ elems mem v !! (offset + i)%nat = Some y /\
       view_put mem s i x = Ok mem' /\ view_ok mem' v /\ elems mem' v = <[(offset + i)%nat := x]> (elems mem v) /\
       forall j, (match view_data v with Some p => j < p \/ p + view_size v <= j | None => True end)%nat ->
         mem' !! j = mem !! j).
Proof.
  intros Hv. destruct (subview_spec mem v offset n Hv) as (s & E & Hs & Hel & Hptr).
  exists s. split_and!; [done..| |].
  - intros Hi. unfold view_get, view_at. by rewrite bool_decide_eq_false_2 by lia.
  - intros Hi. unfold view_ok in Hs. destruct (view_data s) as [p|] eqn:Ep; [|lia].
    destruct (Hptr p i eq_refl Hi) as (q & Eq & Epq & Ho).
    destruct (lookup_lt_is_Some_2 mem (p + i) ltac:(lia)) as [y Ey].
    assert (view_ok mem v) as Hv' by done. unfold view_ok in Hv'. rewrite Eq in Hv'.
    exists y, (<[(p + i)%nat:=x]> mem). unfold view_get, view_put, view_at. rewrite Ep.
    rewrite !bool_decide_eq_true_2 by lia. cbn [assert_ mbind res_bind]. rewrite Ey.
    rewrite bool_decide_eq_true_2 by lia. split_and!; try done.
    + rewrite (elems_lookup mem v q) by done. by rewrite <- Epq.
    + unfold view_ok. rewrite Eq, length_insert. done.
    + unfold elems. rewrite Eq. apply list_eq. intros k.
      destruct (decide (k = offset + i)%nat) as [->|Hne].
      * rewrite list_lookup_insert_eq by (rewrite length_take, length_drop; lia).
        rewrite lookup_take_lt, lookup_drop, <- Epq by done. apply list_lookup_insert_eq. lia.
      * rewrite list_lookup_insert_ne by done. destruct (decide (k < view_size v)%nat).
        -- rewrite !lookup_take_lt, !lookup_drop, list_lookup_insert_ne by lia. done.
        -- rewrite !lookup_take_ge by lia. done.
    + rewrite Eq. intros j Hj. apply list_lookup_insert_ne. lia.
Qed.

End Memory.

Lemma subview_window_witness :
  exists s, subview (mkView (Some 1%nat) 3) 1 9 = Ok s /\ elems [10; 11; 12; 13; 14] s = [12; 13].
Proof.
  destruct (subview_window [10; 11; 12; 13; 14] (mkView (Some 1%nat) 3) 1 9 0 0) as (s & E & H & _).
  - vm_compute. lia.
  - exists s. split; [exact E|exact H].
Defined.
