(* ===== verification/RefCount.v ===== *)
(** * Reference counting

    [rtc::scoped_refptr] ([api/scoped_refptr.h]), [RefCounter] ([rtc_base/ref_counter.h]),
    [RefCountedObject] ([rtc_base/ref_counted_object.h]) and the atomic counters of
    [rtc_base/atomic_ops.h], of [include/webrtc].  The capturer, the track source, the
    factory and the connection of the publisher are held through them.

    The store maps the live objects to their counts; the program's smart pointers are
    variables, each holding an object or null.  Touching an object that has been deleted
    is undefined.  The atomic operations are single steps, so a concurrent execution is
    an interleaving of the operations below. *)

From S2P Require Import Prelude.

Abbreviation loc := nat.

Record store := mkStore { counts : gmap loc Z; freed : list loc; next : loc }.

(** ** Counters and objects *)

(** [__sync_add_and_fetch] and [__sync_sub_and_fetch] on an [int]. *)
Definition Increment (i : Z) : Z := i32 (i + 1).
Definition Decrement (i : Z) : Z := i32 (i - 1).

Inductive RefCountReleaseStatus := kDroppedLastRef | kOtherRefsRemained.

Definition IncRef (ref_count : Z) : Z := Increment ref_count.
Definition DecRef (ref_count : Z) : RefCountReleaseStatus * Z :=
  let c := Decrement ref_count in ((if c =? 0 then kDroppedLastRef else kOtherRefsRemained), c).

(** [new RefCountedObject<T>(...)]: the count is zero. *)
Definition new_object (s : store) : loc * store :=
  (next s, mkStore (<[next s := 0]> (counts s)) (freed s) (S (next s))).

Definition AddRef (s : store) (p : loc) : res store :=
  match counts s !! p with
  | Some c => Ok (mkStore (<[p := IncRef c]> (counts s)) (freed s) (next s))
  | None => Undef
  end.

Definition Release (s : store) (p : loc) : res (RefCountReleaseStatus * store) :=
  match counts s !! p with
  | Some c =>
      let '(status, c) := DecRef c in
      Ok (status, match status with
                  | kDroppedLastRef => mkStore (delete p (counts s)) (p :: freed s) (next s)
                  | kOtherRefsRemained => mkStore (<[p := c]> (counts s)) (freed s) (next s)
                  end)
  | None => Undef
  end.

Definition HasOneRef (s : store) (p : loc) : res bool :=
  match counts s !! p with Some c => Ok (c =? 1) | None => Undef end.

(** ** [scoped_refptr] *)

Abbreviation ptr := (option loc).

Definition add_ref (s : store) (p : ptr) : res store := match p with Some l => AddRef s l | None => Ok s end.
Definition drop_ref (s : store) (p : ptr) : res store :=
  match p with Some l => '(_, s) ← Release s l; Ok s | None => Ok s end.

(** The constructors from a raw pointer and from another smart pointer. *)
Definition refptr_from (s : store) (p : ptr) : res (ptr * store) := s ← add_ref s p; Ok (p, s).
Definition refptr_copy (s : store) (r : ptr) : res (ptr * store) := s ← add_ref s r; Ok (r, s).

(** [release()]: the pointer, and the variable afterwards. *)
Definition release (r : ptr) : ptr * ptr := (r, None).
(** The move constructor: the new variable and the old one. *)
Definition refptr_move (r : ptr) : ptr * ptr := release r.

Definition refptr_delete (s : store) (this : ptr) : res store := drop_ref s this.

(** [operator=(T* p)]. *)
Definition refptr_set (s : store) (this p : ptr) : res (ptr * store) :=
  s ← add_ref s p; s ← drop_ref s this; Ok (p, s).

(** [swap]: both variables. *)
Definition refptr_swap (this r : ptr) : ptr * ptr := (r, this).

(** ** Programs

    Operations on the variables, by index; [PNew] and the copies and moves that
    construct a variable add one at the end. *)
Record state := mkState { heap : store; vars : list ptr }.

Inductive pointer_op :=
| PNew                       (* scoped_refptr<T> v(new RefCountedObject<T>()) *)
| PCopy (i : nat)            (* scoped_refptr<T> v(vars[i]) *)
| PMove (i : nat)            (* scoped_refptr<T> v(std::move(vars[i])) *)
| PAssign (i j : nat)        (* vars[i] = vars[j] *)
| PMoveAssign (i j : nat)    (* vars[i] = std::move(vars[j]) *)
| PReset (i : nat)           (* vars[i] = nullptr *)
| PSwap (i j : nat)          (* vars[i].swap(vars[j]) *)
| PDestroy (i : nat).        (* the end of vars[i]'s lifetime *)

Definition var (vs : list ptr) (i : nat) : res ptr :=
  match vs !! i with Some p => Ok p | None => Undef end.

Definition pointer_step (o : pointer_op) (s : state) : res state :=
  match o with
  | PNew =>
      let '(l, h) := new_object (heap s) in
      '(p, h) ← refptr_from h (Some l); Ok (mkState h (vars s ++ [p]))
  | PCopy i =>
      r ← var (vars s) i; '(p, h) ← refptr_copy (heap s) r; Ok (mkState h (vars s ++ [p]))
  | PMove i =>
      r ← var (vars s) i;
      let '(p, r) := refptr_move r in Ok (mkState (heap s) (<[i := r]> (vars s) ++ [p]))
  | PAssign i j =>
      this ← var (vars s) i; r ← var (vars s) j;
      '(p, h) ← refptr_set (heap s) this r; Ok (mkState h (<[i := p]> (vars s)))
  | PMoveAssign i j =>
      r ← var (vars s) j;
      let '(temp, r) := refptr_move r in
      let vs := <[j := r]> (vars s) in
      this ← var vs i;
      let '(temp, this) := refptr_swap temp this in
      h ← refptr_delete (heap s) temp; Ok (mkState h (<[i := this]> vs))
  | PReset i =>
      this ← var (vars s) i; '(p, h) ← refptr_set (heap s) this None; Ok (mkState h (<[i := p]> (vars s)))
  | PSwap i j =>
      this ← var (vars s) i; r ← var (vars s) j;
      let '(this, r) := refptr_swap this r in Ok (mkState (heap s) (<[j := r]> (<[i := this]> (vars s))))
  | PDestroy i =>
      this ← var (vars s) i; h ← refptr_delete (heap s) this; Ok (mkState h (<[i := None]> (vars s)))
  end.

Fixpoint pointer_run (ops : list pointer_op) (s : state) : res state :=
  match ops with [] => Ok s | o :: ops => s ← pointer_step o s; pointer_run ops s end.

Definition start : state := mkState (mkStore ∅ [] 0) [].

(** ** Counting the pointers *)
Definition holds_ref (l : loc) (p : ptr) : Z := if bool_decide (p = Some l) then 1 else 0.

(** How many variables point to an object. *)
Fixpoint refs (vs : list ptr) (l : loc) : Z :=
  match vs with [] => 0 | p :: vs => holds_ref l p + refs vs l end.

Lemma holds_ref_bounds l p : 0 <= holds_ref l p <= 1.
Proof. unfold holds_ref. case_bool_decide; lia. Qed.

Lemma refs_bounds vs l : 0 <= refs vs l <= Z.of_nat (length vs).
Proof. induction vs as [|p vs IH]; cbn; [lia|]. pose proof (holds_ref_bounds l p). lia. Qed.

Lemma refs_snoc vs p l : refs (vs ++ [p]) l = refs vs l + holds_ref l p.
Proof. induction vs as [|q vs IH]; cbn; lia. Qed.

Lemma refs_insert vs i old p l : vs !! i = Some old -> refs (<[i := p]> vs) l = refs vs l - holds_ref l old + holds_ref l p.
Proof.
  revert i. induction vs as [|q vs IH]; intros [|i] E; try done.
  - injection E as ->. cbn. lia.
  - change (<[S i := p]> (q :: vs)) with (q :: <[i := p]> vs). cbn [refs]. rewrite (IH i E). lia.
Qed.

Lemma refs_lookup vs i l : vs !! i = Some (Some l) -> 0 < refs vs l.
Proof.
  revert i. induction vs as [|q vs IH]; intros [|i] E; cbn in *; try done.
  - injection E as ->. unfold holds_ref. rewrite bool_decide_eq_true_2 by done. pose proof (refs_bounds vs l). lia.
  - pose proof (IH i E). pose proof (holds_ref_bounds l q). lia.
Qed.

(** The store agrees with a number of owners per object: the objects with owners are
    alive and count them, the others have been deleted, each once. *)
Record owned (h : store) (f : loc -> Z) : Prop := {
  own_count : forall l, counts h !! l = if f l =? 0 then None else Some (f l);
  own_freed : forall l, l ∈ freed h <-> (l < next h)%nat /\ f l = 0;
  own_once : NoDup (freed h);
  own_new : forall l, (next h <= l)%nat -> f l = 0;
  own_pos : forall l, 0 <= f l
}.

Lemma owned_ext h f g : owned h f -> (forall l, f l = g l) -> owned h g.
Proof.
  intros [H1 H2 H3 H4 H5] E. split; [intros l; by rewrite H1, E| |done|intros; rewrite <- E; auto|intros; rewrite <- E; auto].
  intros l. by rewrite H2, E.
Qed.

Lemma add_ref_owned h f p : owned h f -> (forall l, p = Some l -> 0 < f l /\ f l + 1 < 2 ^ 31) ->
  exists h', add_ref h p = Ok h' /\ owned h' (fun l => f l + holds_ref l p).
Proof.
  intros [H1 H2 H3 H4 H5] Hp. destruct p as [l|]; cbn.
  - destruct (Hp l eq_refl) as [Hf Hb]. unfold AddRef. rewrite H1. destruct (Z.eqb_spec (f l) 0); [lia|].
    eexists. split; [reflexivity|]. unfold IncRef, Increment. rewrite wrapS_id by (unfold in_s; lia).
    assert (l < next h)%nat as Hl by (destruct (le_lt_dec (next h) l) as [Hn|]; [rewrite H4 in Hf by done; lia|done]).
    split; cbn [counts freed next].
    + intros k. unfold holds_ref. case_bool_decide as E.
      * injection E as ->. rewrite lookup_insert_eq. by destruct (Z.eqb_spec (f k + 1) 0); [lia|].
      * rewrite lookup_insert_ne by congruence. by rewrite H1, Z.add_0_r.
    + intros k. rewrite H2. unfold holds_ref. case_bool_decide as E; [injection E as ->|]; split; intros [? ?]; split; try done; lia.
    + done.
    + intros k Hk. unfold holds_ref. rewrite bool_decide_eq_false_2 by (intros [= ->]; lia). rewrite H4 by done. lia.
    + intros k. pose proof (H5 k). pose proof (holds_ref_bounds k (Some l)). lia.
  - exists h. split; [done|]. eapply owned_ext; [by split|]. intros l. unfold holds_ref.
    rewrite bool_decide_eq_false_2 by done. lia.
Qed.

Lemma drop_ref_owned h f p : owned h f -> (forall l, p = Some l -> 0 < f l < 2 ^ 31) ->
  exists h', drop_ref h p = Ok h' /\ owned h' (fun l => f l - holds_ref l p).
Proof.
  intros [H1 H2 H3 H4 H5] Hp. destruct p as [l|]; cbn.
  - specialize (Hp l eq_refl). unfold Release. rewrite H1. destruct (Z.eqb_spec (f l) 0) as [|Hne]; [lia|].
    unfold DecRef, Decrement. rewrite wrapS_id by (unfold in_s; lia).
    assert (l < next h)%nat as Hl by (destruct (le_lt_dec (next h) l) as [Hn|]; [rewrite H4 in Hp by done; lia|done]).
    destruct (Z.eqb_spec (f l - 1) 0) as [E1|E1]; cbn; eexists; (split; [reflexivity|]); split; cbn [counts freed next].
    + intros k. unfold holds_ref. case_bool_decide as E.
      * injection E as ->. rewrite lookup_delete_eq, E1. done.
      * rewrite lookup_delete_ne by congruence. by rewrite H1, Z.sub_0_r.
    + intros k. rewrite elem_of_cons, H2. unfold holds_ref. case_bool_decide as E; [injection E as ->|].
      * split; [intros _; lia|by left].
      * rewrite Z.sub_0_r. split; [intros [->|?]; done|by right].
    + constructor; [|done]. rewrite H2. lia.
    + intros k Hk. unfold holds_ref. rewrite bool_decide_eq_false_2 by (intros [= ->]; lia). rewrite H4 by done. lia.
    + intros k. unfold holds_ref. pose proof (H5 k). case_bool_decide as E; [injection E as ->|]; lia.
    + intros k. unfold holds_ref. case_bool_decide as E.
      * injection E as ->. rewrite lookup_insert_eq. by destruct (Z.eqb_spec (f k - 1) 0); [lia|].
      * rewrite lookup_insert_ne by congruence. by rewrite H1, Z.sub_0_r.
    + intros k. rewrite H2. unfold holds_ref. case_bool_decide as E; [injection E as ->|]; split; intros [? ?]; split; try done; lia.
    + done.
    + intros k Hk. unfold holds_ref. rewrite bool_decide_eq_false_2 by (intros [= ->]; lia). rewrite H4 by done. lia.
    + intros k. unfold holds_ref. pose proof (H5 k). case_bool_decide as E; [injection E as ->|]; lia.
  - exists h. split; [done|]. eapply owned_ext; [by split|]. intros l. unfold holds_ref.
    rewrite bool_decide_eq_false_2 by done. lia.
Qed.

Lemma new_ref_owned h f : owned h f ->
  let '(l, h1) := new_object h in
  exists h', add_ref h1 (Some l) = Ok h' /\ owned h' (fun k => f k + holds_ref k (Some l)).
Proof.
  intros [H1 H2 H3 H4 H5]. cbn. unfold AddRef. cbn [counts]. rewrite lookup_insert_eq.
  eexists. split; [reflexivity|]. rewrite insert_insert_eq. change (IncRef 0) with 1.
  pose proof (H4 (next h) (le_n _)) as H0. split; cbn [counts freed next].
  - intros k. unfold holds_ref. case_bool_decide as E.
    + injection E as <-. rewrite lookup_insert_eq, H0. done.
    + rewrite lookup_insert_ne by congruence. by rewrite H1, Z.add_0_r.
  - intros k. rewrite H2. unfold holds_ref. case_bool_decide as E; [injection E as <-|]; split; intros [? ?]; split; try lia.
    assert (k <> next h) by congruence. lia.
  - done.
  - intros k Hk. unfold holds_ref. rewrite bool_decide_eq_false_2 by (intros [= E]; lia). rewrite H4 by lia. lia.
  - intros k. pose proof (H5 k). pose proof (holds_ref_bounds k (Some (next h))). lia.
Qed.

(** ** Programs *)
Definition adds_var (o : pointer_op) : bool := match o with PNew | PCopy _ | PMove _ => true | _ => false end.

(** The operation names existing variables only. *)
Definition op_scoped (n : nat) (o : pointer_op) : Prop :=
  match o with
  | PNew => True
  | PCopy i | PMove i | PReset i | PDestroy i => (i < n)%nat
  | PAssign i j | PMoveAssign i j | PSwap i j => (i < n)%nat /\ (j < n)%nat
  end.
Fixpoint scoped (n : nat) (ops : list pointer_op) : Prop :=
  match ops with
  | [] => True
  | o :: ops => op_scoped n o /\ scoped (if adds_var o then S n else n) ops
  end.

Definition state_ok (s : state) : Prop := owned (heap s) (refs (vars s)).

Lemma var_Ok vs i : (i < length vs)%nat -> exists p, vs !! i = Some p /\ var vs i = Ok p.
Proof. intros H. destruct (lookup_lt_is_Some_2 vs i H) as [p E]. exists p. unfold var. by rewrite E. Qed.

(** A variable's object has an owner, and no object has more than there are variables. *)
Lemma var_owner s i p : vars s !! i = Some p -> Z.of_nat (length (vars s)) + 1 < 2 ^ 31 ->
  forall l, p = Some l -> 0 < refs (vars s) l /\ refs (vars s) l + 1 < 2 ^ 31.
Proof.
  intros E Hl l ->. split; [by eapply refs_lookup|]. pose proof (refs_bounds (vars s) l). lia.
Qed.

Lemma refptr_set_ok s i this p : state_ok s -> vars s !! i = Some this ->
  Z.of_nat (length (vars s)) + 1 < 2 ^ 31 ->
  (forall l, p = Some l -> 0 < refs (vars s) l) ->
  exists h, refptr_set (heap s) this p = Ok (p, h) /\ owned h (refs (<[i := p]> (vars s))).
Proof.
  intros Hs Ei Hl Hp. unfold refptr_set.
  destruct (add_ref_owned (heap s) _ p Hs) as (h1 & -> & H1).
  { intros l El. split; [by apply Hp|]. pose proof (refs_bounds (vars s) l). lia. }
  cbn [mbind res_bind]. destruct (drop_ref_owned h1 _ this H1) as (h2 & -> & H2).
  { intros l ->. pose proof (refs_lookup _ _ _ Ei). pose proof (refs_bounds (vars s) l).
    pose proof (holds_ref_bounds l p). lia. }
  cbn [mbind res_bind]. exists h2. split; [done|]. eapply owned_ext; [exact H2|]. intros l. cbn beta.
  rewrite (refs_insert _ _ _ _ _ Ei). lia.
Qed.

(** Moving from [j] and assigning to [i]: the reference changes hands, the old one goes. *)
Lemma move_assign_ok s i j this r : state_ok s -> Z.of_nat (length (vars s)) + 1 < 2 ^ 31 -> vars s !! j = Some r -> <[j := None]> (vars s) !! i = Some this ->
  exists h, refptr_delete (heap s) this = Ok h /\ owned h (refs (<[i := r]> (<[j := None]> (vars s)))).
Proof.
  intros Hs Hlen Ej Ei. unfold refptr_delete. destruct (drop_ref_owned (heap s) _ this Hs) as (h & -> & H).
  { intros l ->. pose proof (refs_lookup _ _ _ Ei) as Hr. rewrite (refs_insert _ _ _ _ _ Ej) in Hr.
    unfold holds_ref at 2 in Hr. rewrite bool_decide_eq_false_2 in Hr by done.
    pose proof (holds_ref_bounds l r). pose proof (refs_bounds (vars s) l). lia. }
  exists h. split; [done|]. eapply owned_ext; [exact H|]. intros l. cbn beta.
  rewrite (refs_insert _ _ _ _ _ Ei), (refs_insert _ _ _ _ _ Ej). assert (holds_ref l None = 0) as -> by done. lia.
Qed.

Lemma refs_swap vs i j this r l : vs !! i = Some this -> vs !! j = Some r -> refs (<[j := this]> (<[i := r]> vs)) l = refs vs l.
Proof.
  intros Ei Ej. destruct (decide (i = j)) as [->|Hne].
  - rewrite Ei in Ej. injection Ej as ->. rewrite list_insert_insert_eq, (refs_insert _ _ _ _ _ Ei). lia.
  - rewrite (refs_insert _ j r) by by rewrite list_lookup_insert_ne. rewrite (refs_insert _ _ _ _ _ Ei). lia.
Qed.

Lemma pointer_step_ok o s : state_ok s -> op_scoped (length (vars s)) o ->
  Z.of_nat (length (vars s)) + 1 < 2 ^ 31 ->
  exists s', pointer_step o s = Ok s' /\ state_ok s' /\
    length (vars s') = (if adds_var o then S (length (vars s)) else length (vars s)).
Proof.
  intros Hs Ho Hl. destruct o as [|i|i|i j|i j|i|i j|i]; cbn [op_scoped pointer_step adds_var] in *.
  - pose proof (new_ref_owned (heap s) _ Hs) as H. destruct (new_object (heap s)) as [l h1].
    destruct H as (h & E & H). unfold refptr_from. rewrite E. cbn [mbind res_bind]. eexists. split; [reflexivity|].
    split; [|cbn [vars]; rewrite length_app; cbn; lia]. eapply owned_ext; [exact H|]. intros k. cbn. by rewrite refs_snoc.
  - destruct (var_Ok _ _ Ho) as (p & Ei & ->). cbn [mbind res_bind]. unfold refptr_copy.
    destruct (add_ref_owned (heap s) _ p Hs (var_owner s i p Ei Hl)) as (h & -> & H). cbn [mbind res_bind].
    eexists. split; [reflexivity|]. split; [|cbn; rewrite length_app; cbn; lia].
    eapply owned_ext; [exact H|]. intros k. cbn. by rewrite refs_snoc.
  - destruct (var_Ok _ _ Ho) as (p & Ei & ->). cbn [mbind res_bind refptr_move release].
    eexists. split; [reflexivity|]. split; [|cbn [vars]; rewrite length_app, length_insert; cbn; lia].
    eapply owned_ext; [exact Hs|]. intros k. cbn [vars]. rewrite refs_snoc, (refs_insert _ _ _ _ _ Ei).
    unfold holds_ref at 2. rewrite bool_decide_eq_false_2 by done. lia.
  - destruct Ho as [Hi Hj]. destruct (var_Ok _ _ Hi) as (this & Ei & ->), (var_Ok _ _ Hj) as (r & Ej & ->).
    cbn [mbind res_bind]. destruct (refptr_set_ok s i this r Hs Ei Hl) as (h & -> & H).
    { intros l ->. by eapply refs_lookup. }
    cbn [mbind res_bind]. eexists. split; [reflexivity|]. split; [exact H|cbn; by rewrite length_insert].
  - destruct Ho as [Hi Hj]. destruct (var_Ok _ _ Hj) as (r & Ej & ->). cbn [mbind res_bind refptr_move release].
    destruct (var_Ok (<[j := None]> (vars s)) i) as (this & Ei & ->); [by rewrite length_insert|].
    cbn [mbind res_bind refptr_swap]. destruct (move_assign_ok s i j this r Hs Hl Ej Ei) as (h & -> & H).
    cbn [mbind res_bind]. eexists. split; [reflexivity|]. split; [exact H|cbn [vars]; by rewrite !length_insert].
  - destruct (var_Ok _ _ Ho) as (this & Ei & ->). cbn [mbind res_bind].
    destruct (refptr_set_ok s i this None Hs Ei Hl) as (h & -> & H); [done|].
    cbn [mbind res_bind]. eexists. split; [reflexivity|]. split; [exact H|cbn; by rewrite length_insert].
  - destruct Ho as [Hi Hj]. destruct (var_Ok _ _ Hi) as (this & Ei & ->), (var_Ok _ _ Hj) as (r & Ej & ->).
    cbn [mbind res_bind refptr_swap]. eexists. split; [reflexivity|].
    split; [|cbn [vars]; by rewrite !length_insert]. eapply owned_ext; [exact Hs|]. intros l. cbn [vars]. by rewrite (refs_swap _ i j this r).
  - destruct (var_Ok _ _ Ho) as (this & Ei & ->). cbn [mbind res_bind]. unfold refptr_delete.
    destruct (drop_ref_owned (heap s) _ this Hs) as (h & -> & H).
    { intros l El. pose proof (var_owner s i this Ei Hl l El). lia. }
    cbn [mbind res_bind]. eexists. split; [reflexivity|]. split; [|cbn; by rewrite length_insert].
    eapply owned_ext; [exact H|]. intros l. cbn [vars]. rewrite (refs_insert _ _ _ _ _ Ei).
    assert (holds_ref l None = 0) as -> by done. lia.
Qed.

Lemma pointer_run_ok ops s : state_ok s -> scoped (length (vars s)) ops ->
  Z.of_nat (length (vars s)) + Z.of_nat (length ops) + 1 < 2 ^ 31 ->
  exists s', pointer_run ops s = Ok s' /\ state_ok s'.
Proof.
  revert s. induction ops as [|o ops IH]; intros s Hs Hsc Hl; cbn [pointer_run]; [by exists s|].
  destruct Hsc as [Ho Hsc]. cbn [length] in Hl.
  destruct (pointer_step_ok o s Hs Ho ltac:(lia)) as (s1 & -> & Hs1 & Hl1). cbn [mbind res_bind].
  apply IH; [done|by rewrite Hl1|rewrite Hl1; destruct (adds_var o); lia].
Qed.


