(* ===== verification/CowBuffer.v ===== *)
(** * Copy-on-write buffers

    [CopyOnWriteBuffer] of [rtc_base/copy_on_write_buffer.h] of [include/webrtc], which
    holds an encoded image's bytes.  Several buffers share one block through
    [scoped_refptr]; the state is the store of blocks and the buffers' pointers.  A
    block's reference count is the number of buffers that point to it (see RefCount).

    [CloneDataIfReferenced] is not in the header; it is a parameter, with what the header
    documents of it as its law. *)

From S2P Require Import Prelude.
From S2P Require Import CppString.
From S2P Require Import Buffer.
From S2P Require Import RefCount.

Record cow := mkCow { blocks : gmap loc Buffer; bufs : list ptr }.

(** The block a buffer points to. *)
Definition buffer_of (s : cow) (i : nat) : res (option (loc * Buffer)) :=
  p ← var (bufs s) i;
  match p with
  | None => Ok None
  | Some l => match blocks s !! l with Some b => Ok (Some (l, b)) | None => Undef end
  end.

Definition Cow_HasOneRef (s : cow) (l : loc) : bool := refs (bufs s) l =? 1.

Definition Cow_IsConsistent (s : cow) (i : nat) : res bool :=
  o ← buffer_of s i;
  match o with None => Ok true | Some (_, b) => c ← Buffer_capacity b; Ok (0 <? c) end.

Definition cow_check (s : cow) (i : nat) : res unit := ok ← Cow_IsConsistent s i; assert_ ok.

Definition Cow_size (s : cow) (i : nat) : res Z :=
  _ ← cow_check s i; o ← buffer_of s i;
  match o with None => Ok 0 | Some (_, b) => Buffer_size b end.
Definition Cow_capacity (s : cow) (i : nat) : res Z :=
  _ ← cow_check s i; o ← buffer_of s i;
  match o with None => Ok 0 | Some (_, b) => Buffer_capacity b end.

(** [buffer_ = new RefCountedObject<Buffer>(...)] and an update of the block in place. *)
Definition point_to_new (s : cow) (i : nat) (b : Buffer) : cow :=
  let l := fresh (dom (blocks s)) in mkCow (<[l := b]> (blocks s)) (<[i := Some l]> (bufs s)).
Definition put_block (s : cow) (l : loc) (b : Buffer) : cow := mkCow (<[l := b]> (blocks s)) (bufs s).

(** [operator=] from another buffer. *)
Definition Cow_assign (s : cow) (i j : nat) : res cow :=
  _ ← cow_check s i; _ ← cow_check s j;
  if bool_decide (i = j) then Ok s else
  r ← var (bufs s) j; Ok (mkCow (blocks s) (<[i := r]> (bufs s))).

Definition Cow_move_assign (s : cow) (i j : nat) : res cow :=
  _ ← cow_check s i; _ ← cow_check s j;
  r ← var (bufs s) j; Ok (mkCow (blocks s) (<[i := r]> (<[j := None]> (bufs s)))).

Definition Cow_swap (s : cow) (i j : nat) : res cow :=
  a ← var (bufs s) i; b ← var (bufs s) j; Ok (mkCow (blocks s) (<[j := a]> (<[i := b]> (bufs s)))).

Definition Cow_SetData (s : cow) (i : nat) (data : str) : res cow :=
  _ ← cow_check s i;
  o ← buffer_of s i;
  s ← match o with
      | None =>
          if 0 <? size data then b ← Buffer_from data (size data); Ok (point_to_new s i b) else Ok s
      | Some (l, b) =>
          if negb (Cow_HasOneRef s l)
          then c ← Buffer_capacity b; b ← Buffer_from data c; Ok (point_to_new s i b)
          else '(b, _) ← SetData false b data; Ok (put_block s l b)
      end;
  _ ← cow_check s i; Ok s.

(** ** What a buffer shows *)
Definition shows (s : cow) (i : nat) : block :=
  match bufs s !! i with
  | Some (Some l) => match blocks s !! l with Some b => content b | None => [] end
  | _ => []
  end.

(** Every buffer is null or points to a block with room in it. *)
Definition cow_ok (s : cow) : Prop :=
  forall i l, bufs s !! i = Some (Some l) -> exists b, blocks s !! l = Some b /\ wf b /\ 0 < capacity_ b.

(** ** Laws *)
Lemma refs_two vs i j l : i <> j -> vs !! i = Some (Some l) -> vs !! j = Some (Some l) -> 2 <= refs vs l.
Proof.
  intros Hne Ei Ej. pose proof (refs_insert vs i (Some l) None l Ei) as H.
  assert (0 < refs (<[i := None]> vs) l) by (eapply (refs_lookup _ j); by rewrite list_lookup_insert_ne).
  unfold holds_ref in H. rewrite bool_decide_eq_true_2, bool_decide_eq_false_2 in H by done. lia.
Qed.

Lemma refs_pos vs l : 0 < refs vs l -> exists i, vs !! i = Some (Some l).
Proof.
  induction vs as [|p vs IH]; cbn; [lia|]. intros H. unfold holds_ref in H. case_bool_decide as E.
  - exists 0%nat. cbn. by rewrite E.
  - destruct (IH ltac:(lia)) as [i Ei]. by exists (S i).
Qed.

Lemma Buffer_from_spec data c : 0 <= c < 2 ^ 64 -> size data < 2 ^ 64 ->
  exists b, Buffer_from data c = Ok b /\ wf b /\ content b = map Some data /\ capacity_ b = Z.max (size data) c.
Proof.
  intros Hc Hd. unfold Buffer_from, Buffer_sized. unfold size in *. set (n := length data) in *.
  set (cap := Z.max (Z.of_nat n) c).
  set (b0 := mkBuffer _ cap _).
  assert (cells b0 = replicate (Z.to_nat cap) None) as Hcells.
  { unfold cells, b0. cbn. destruct (Z.ltb_spec 0 cap); [done|]. by replace cap with 0 by lia. }
  assert (wf b0) as Hw by (split; rewrite ?Hcells, ?length_replicate; subst b0; cbn; lia).
  rewrite checked_wf by done. cbn [mbind res_bind].
  rewrite write_at_Ok by (rewrite Hcells, length_replicate, length_map; lia). cbn [mbind res_bind].
  set (c1 := take 0 (cells b0) ++ _).
  assert (length c1 = length (cells b0)) as Hl
    by (subst c1; rewrite take_0, app_nil_l, length_app, length_drop, length_map, Hcells, length_replicate; lia).
  exists (set_cells b0 c1). split; [reflexivity|].
  assert (cells (set_cells b0 c1) = c1) as Hc1 by by apply cells_set_cells.
  split_and!; [|unfold content; rewrite Hc1|done].
  - destruct Hw as [H1 H2 H3]. split; [by rewrite Hc1, Hl|done|done].
  - subst c1. rewrite take_0. cbn [app size_ set_cells]. subst b0. cbn [size_].
    rewrite Nat2Z.id, take_app_le, take_ge by (rewrite length_map; done). done.
Qed.

Lemma buffer_of_Ok s i : cow_ok s -> (i < length (bufs s))%nat ->
  (bufs s !! i = Some None /\ buffer_of s i = Ok None) \/
  exists l b, bufs s !! i = Some (Some l) /\ blocks s !! l = Some b /\ wf b /\ 0 < capacity_ b /\
    buffer_of s i = Ok (Some (l, b)).
Proof.
  intros Hs Hi. destruct (lookup_lt_is_Some_2 _ _ Hi) as [[l|] E]; unfold buffer_of, var; rewrite E; cbn [mbind res_bind].
  - right. destruct (Hs i l E) as (b & Eb & Hw & Hc). exists l, b. by rewrite Eb.
  - by left.
Qed.

Lemma cow_check_Ok s i : cow_ok s -> (i < length (bufs s))%nat -> cow_check s i = Ok ().
Proof.
  intros Hs Hi. unfold cow_check, Cow_IsConsistent.
  destruct (buffer_of_Ok s i Hs Hi) as [(E & ->)|(l & b & E & Eb & Hw & Hc & ->)]; cbn [mbind res_bind]; [done|].
  unfold Buffer_capacity. rewrite checked_wf by done. cbn [mbind res_bind]. by destruct (Z.ltb_spec 0 (capacity_ b)); [|lia].
Qed.

(** A new block touches no other buffer. *)
Lemma point_to_new_ok s i b : cow_ok s -> (i < length (bufs s))%nat -> wf b -> 0 < capacity_ b ->
  cow_ok (point_to_new s i b) /\ shows (point_to_new s i b) i = content b /\
  (forall j, j <> i -> shows (point_to_new s i b) j = shows s j).
Proof.
  intros Hs Hi Hw Hc. pose proof (is_fresh (dom (blocks s))) as Hf. apply not_elem_of_dom in Hf.
  set (l := fresh (dom (blocks s))) in *. unfold point_to_new, shows, cow_ok. fold l. cbn [bufs blocks].
  assert (forall l', is_Some (blocks s !! l') -> <[l := b]> (blocks s) !! l' = blocks s !! l') as Hold
    by (intros l' [x Ex]; apply lookup_insert_ne; intros ->; congruence).
  split_and!.
  - intros j k E. destruct (decide (i = j)) as [->|Hne].
    + rewrite list_lookup_insert_eq in E by done. injection E as <-. exists b. by rewrite lookup_insert_eq.
    + rewrite list_lookup_insert_ne in E by done. destruct (Hs j k E) as (b' & Eb & H). exists b'. by rewrite Hold, Eb.
  - rewrite list_lookup_insert_eq by done. by rewrite lookup_insert_eq.
  - intros j Hne. rewrite list_lookup_insert_ne by done. destruct (bufs s !! j) as [[k|]|] eqn:E; try done.
    destruct (Hs j k E) as (b' & Eb & _). by rewrite Hold.
Qed.

(** A block nobody else points to can be changed in place. *)
Lemma put_block_ok s i l b : cow_ok s -> bufs s !! i = Some (Some l) -> refs (bufs s) l = 1 ->
  wf b -> 0 < capacity_ b ->
  cow_ok (put_block s l b) /\ shows (put_block s l b) i = content b /\
  (forall j, j <> i -> shows (put_block s l b) j = shows s j).
Proof.
  intros Hs Ei Hr Hw Hc. unfold put_block, shows, cow_ok. cbn [bufs blocks]. rewrite Ei. split_and!.
  - intros j k E. destruct (decide (k = l)) as [->|Hne]; [exists b; by rewrite lookup_insert_eq|].
    rewrite lookup_insert_ne by done. by apply Hs with j.
  - by rewrite lookup_insert_eq.
  - intros j Hne. destruct (bufs s !! j) as [[k|]|] eqn:E; try done.
    rewrite lookup_insert_ne; [done|]. intros ->. pose proof (refs_two _ _ _ _ Hne E Ei). lia.
Qed.

Lemma SetData_in_place b data : wf b -> size data < 2 ^ 64 ->
  exists b' f, SetData false b data = Ok (b', f) /\ wf b' /\ content b' = map Some data /\ capacity_ b <= capacity_ b'.
Proof.
  intros Hw Hd. unfold SetData. rewrite checked_wf by done. cbn [mbind res_bind]. pose proof (wf_size b Hw).
  destruct (AppendData_spec false (set_size b 0) data 0 (wf_set_size b 0 Hw ltac:(lia)) ltac:(cbn; lia) ltac:(done)
    ltac:(cbn; lia)) as (b' & f & -> & Hw' & _ & _ & Hct & _ & Hcap). cbn [mbind res_bind zero_shrunk andb].
  exists b', f. split_and!; try done.
Qed.

(** What the header says of [CloneDataIfReferenced]: a copy of the data is made if it is
    referenced from other buffers, with the new capacity. *)
Class Clone (CloneDataIfReferenced : cow -> nat -> Z -> res cow) : Prop := {
  clone_alone : forall s i l b c, bufs s !! i = Some (Some l) -> blocks s !! l = Some b -> refs (bufs s) l = 1 ->
    CloneDataIfReferenced s i c = Ok s;
  clone_shared : forall s i l b c, bufs s !! i = Some (Some l) -> blocks s !! l = Some b -> refs (bufs s) l <> 1 ->
    wf b -> capacity_ b <= c < 2 ^ 64 ->
    exists b', CloneDataIfReferenced s i c = Ok (point_to_new s i b') /\ wf b' /\
      content b' = content b /\ size_ b' = size_ b /\ capacity_ b' = c
}.

Section Cow.
Context (CloneDataIfReferenced : cow -> nat -> Z -> res cow) {HC : Clone CloneDataIfReferenced}.

Definition Cow_AppendData (s : cow) (i : nat) (data : str) : res cow :=
  _ ← cow_check s i;
  o ← buffer_of s i;
  match o with
  | None =>
      b ← Buffer_from data (size data);
      let s := point_to_new s i b in
      _ ← cow_check s i; Ok s
  | Some (l, b) =>
      c ← Buffer_capacity b; n ← Buffer_size b;
      s ← CloneDataIfReferenced s i (Z.max c (u64 (n + size data)));
      o ← buffer_of s i;
      match o with
      | None => Undef
      | Some (l, b) =>
          '(b, _) ← AppendData false b data;
          let s := put_block s l b in
          _ ← cow_check s i; Ok s
      end
  end.

(** [data()]: the writable pointer, after which the block is the buffer's own. *)
Definition Cow_data (s : cow) (i : nat) : res (option loc * cow) :=
  _ ← cow_check s i;
  o ← buffer_of s i;
  match o with
  | None => Ok (None, s)
  | Some (_, b) =>
      c ← Buffer_capacity b; s ← CloneDataIfReferenced s i c;
      p ← var (bufs s) i; Ok (p, s)
  end.

(** A write through [operator[]]. *)
Definition Cow_put (s : cow) (i : nat) (index : Z) (x : ascii) : res cow :=
  n ← Cow_size s i;
  _ ← assert_ (index <? n);
  '(p, s) ← Cow_data s i;
  match p with
  | Some l => match blocks s !! l with
              | Some b => c ← write_at (cells b) (Z.to_nat index) [Some x]; Ok (put_block s l (set_cells b c))
              | None => Undef
              end
  | None => Undef
  end.
Lemma Cow_SetData_spec s i data : cow_ok s -> (i < length (bufs s))%nat -> size data < 2 ^ 64 ->
  exists s', Cow_SetData s i data = Ok s' /\ cow_ok s' /\ shows s' i = map Some data /\
    forall j, j <> i -> shows s' j = shows s j.
Proof.
  intros Hs Hi Hd. unfold Cow_SetData. rewrite cow_check_Ok by done. cbn [mbind res_bind].
  destruct (buffer_of_Ok s i Hs Hi) as [(E & ->)|(l & b & E & Eb & Hw & Hc & ->)]; cbn [mbind res_bind].
  - destruct (Z.ltb_spec 0 (size data)) as [Hp|Hz].
    + destruct (Buffer_from_spec data (size data) ltac:(lia) Hd) as (b & -> & Hw & Hct & Hcap). cbn [mbind res_bind].
      destruct (point_to_new_ok s i b Hs Hi Hw ltac:(lia)) as (Hs' & H1 & H2).
      rewrite cow_check_Ok by (done || by cbn; rewrite length_insert). eexists. split; [reflexivity|].
      by rewrite H1, Hct.
    + cbn [mbind res_bind]. rewrite cow_check_Ok by done. exists s. split_and!; try done.
      assert (data = []) as -> by (destruct data; [done|unfold size in Hz; cbn in Hz; lia]).
      unfold shows. by rewrite E.
  - unfold Cow_HasOneRef. destruct (Z.eqb_spec (refs (bufs s) l) 1) as [Hr|Hr]; cbn [negb].
    + destruct (SetData_in_place b data Hw Hd) as (b' & f & -> & Hw' & Hct & Hcap). cbn [mbind res_bind].
      destruct (put_block_ok s i l b' Hs E Hr Hw' ltac:(lia)) as (Hs' & H1 & H2).
      rewrite cow_check_Ok by done. eexists. split; [reflexivity|]. by rewrite H1, Hct.
    + unfold Buffer_capacity. rewrite checked_wf by done. cbn [mbind res_bind]. pose proof (wf_capacity b Hw).
      destruct (Buffer_from_spec data (capacity_ b) ltac:(lia) Hd) as (b' & -> & Hw' & Hct & Hcap). cbn [mbind res_bind].
      destruct (point_to_new_ok s i b' Hs Hi Hw' ltac:(lia)) as (Hs' & H1 & H2).
      rewrite cow_check_Ok by (done || by cbn; rewrite length_insert). eexists. split; [reflexivity|].
      by rewrite H1, Hct.
Qed.

Lemma append_own_block s i l b data : cow_ok s -> bufs s !! i = Some (Some l) -> blocks s !! l = Some b ->
  refs (bufs s) l = 1 -> size_ b + size data < 2 ^ 64 ->
  exists s', (o ← buffer_of s i;
      match o with
      | None => Undef
      | Some (l, b) => '(b, _) ← AppendData false b data; let s := put_block s l b in _ ← cow_check s i; Ok s
      end) = Ok s' /\ cow_ok s' /\ shows s' i = content b ++ map Some data /\ forall j, j <> i -> shows s' j = shows s j.
Proof.
  intros Hs Ei Eb Hr Hsz. pose proof (lookup_lt_Some _ _ _ Ei) as Hi.
  destruct (buffer_of_Ok s i Hs Hi) as [(E & _)|(l' & b' & E & Eb' & Hw & Hc & ->)]; [congruence|].
  assert (l' = l) as -> by congruence. assert (b' = b) as -> by congruence. cbn [mbind res_bind].
  destruct (AppendData_spec false b data (size_ b) Hw ltac:(lia) ltac:(done) Hsz)
    as (b' & f & -> & Hw' & _ & _ & Hct & _ & Hcap). cbn [mbind res_bind].
  destruct (put_block_ok s i l b' Hs Ei Hr Hw' ltac:(lia)) as (Hs' & H1 & H2).
  rewrite cow_check_Ok by done. eexists. split; [reflexivity|]. by rewrite H1, Hct.
Qed.

(** After cloning, the buffer's block is its own. *)
Lemma clone_owns s i l b c : cow_ok s -> bufs s !! i = Some (Some l) -> blocks s !! l = Some b ->
  capacity_ b <= c < 2 ^ 64 ->
  exists s' l' b', CloneDataIfReferenced s i c = Ok s' /\ cow_ok s' /\ bufs s' !! i = Some (Some l') /\
    blocks s' !! l' = Some b' /\ refs (bufs s') l' = 1 /\ content b' = content b /\ size_ b' = size_ b /\
    forall j, j <> i -> shows s' j = shows s j.
Proof.
  intros Hs E Eb Hc. destruct (Hs i l E) as (b0 & Eb0 & Hw & Hcap). assert (b0 = b) as -> by congruence.
  pose proof (lookup_lt_Some _ _ _ E) as Hi.
  destruct (decide (refs (bufs s) l = 1)) as [Hr|Hr].
  { exists s, l, b. split; [by apply (clone_alone s i l b)|]. by split_and!. }
  destruct (clone_shared s i l b c E Eb Hr Hw Hc) as (b' & -> & Hw' & Hct & Hsz & Hcap').
  destruct (point_to_new_ok s i b' Hs Hi Hw' ltac:(lia)) as (Hs' & _ & H2).
  pose proof (is_fresh (dom (blocks s))) as Hf. apply not_elem_of_dom in Hf.
  exists (point_to_new s i b'), (fresh (dom (blocks s))), b'. split; [done|]. split; [done|].
  unfold point_to_new in *. cbn [bufs blocks] in *. split_and!; try done.
  - by rewrite list_lookup_insert_eq.
  - by rewrite lookup_insert_eq.
  - rewrite (refs_insert _ _ _ _ _ E). set (l' := fresh (dom (blocks s))) in *.
    assert (refs (bufs s) l' = 0) as Hz.
    { pose proof (refs_bounds (bufs s) l') as Hb. destruct (Z.eq_dec (refs (bufs s) l') 0) as [|Hne]; [done|].
      destruct (refs_pos (bufs s) l' ltac:(lia)) as [k Ek]. destruct (Hs k l' Ek) as (x & Ex & _). congruence. }
    assert (l <> l') as Hll by (intros ->; congruence).
    unfold holds_ref. rewrite bool_decide_eq_false_2, bool_decide_eq_true_2 by congruence. lia.
Qed.

Lemma Cow_AppendData_spec s i data : cow_ok s -> (i < length (bufs s))%nat -> size data < 2 ^ 62 ->
  Z.of_nat (length (shows s i)) < 2 ^ 62 -> data <> [] \/ bufs s !! i <> Some None ->
  exists s', Cow_AppendData s i data = Ok s' /\ cow_ok s' /\ shows s' i = shows s i ++ map Some data /\
    forall j, j <> i -> shows s' j = shows s j.
Proof.
  intros Hs Hi Hd Hn Hor. unfold Cow_AppendData. rewrite cow_check_Ok by done. cbn [mbind res_bind].
  destruct (buffer_of_Ok s i Hs Hi) as [(E & ->)|(l & b & E & Eb & Hw & Hc & ->)]; cbn [mbind res_bind].
  - assert (0 < size data) as Hp by (destruct Hor; [|done]; destruct data; [done|unfold size; cbn; lia]).
    destruct (Buffer_from_spec data (size data) ltac:(lia) ltac:(lia)) as (b & -> & Hw & Hct & Hcap). cbn [mbind res_bind].
    destruct (point_to_new_ok s i b Hs Hi Hw ltac:(lia)) as (Hs' & H1 & H2).
    rewrite cow_check_Ok by (done || by cbn; rewrite length_insert). eexists. split; [reflexivity|].
    assert (shows s i = []) as -> by (unfold shows; by rewrite E). by rewrite H1, Hct.
  - pose proof (wf_capacity b Hw). pose proof (wf_size b Hw). pose proof (wf_cells b Hw) as Hcl.
    assert (shows s i = content b) as Hsh by (unfold shows; by rewrite E, Eb).
    assert (size_ b < 2 ^ 62) as Hsb
      by (rewrite Hsh in Hn; unfold content in Hn; rewrite length_take in Hn; lia).
    unfold Buffer_capacity, Buffer_size. rewrite checked_wf by done. cbn [mbind res_bind].
    unfold size in *. rewrite wrapU_id by (unfold in_u; lia). rewrite Hsh.
    destruct (clone_owns s i l b (Z.max (capacity_ b) (size_ b + Z.of_nat (length data))) Hs E Eb ltac:(lia))
      as (s1 & l1 & b1 & -> & Hs1 & E1 & Eb1 & Hr1 & Hct & Hsz & Hj1). cbn [mbind res_bind].
    destruct (append_own_block s1 i l1 b1 data Hs1 E1 Eb1 Hr1 ltac:(unfold size; lia)) as (s' & E' & Hs' & Hi' & Hj').
    exists s'. split; [exact E'|]. rewrite Hi', Hct. split_and!; try done. intros j Hne. by rewrite Hj', Hj1.
Qed.

(** One byte of a block nobody else points to. *)
Lemma put_own_byte s i l b index x : cow_ok s -> bufs s !! i = Some (Some l) -> blocks s !! l = Some b ->
  refs (bufs s) l = 1 -> 0 <= index < size_ b ->
  exists s', (c ← write_at (cells b) (Z.to_nat index) [Some x]; Ok (put_block s l (set_cells b c))) = Ok s' /\
    cow_ok s' /\ shows s' i = <[Z.to_nat index := Some x]> (content b) /\ forall j, j <> i -> shows s' j = shows s j.
Proof.
  intros Hs Ei Eb Hr Hx. destruct (Hs i l Ei) as (b' & Eb' & Hw & Hc). assert (b' = b) as -> by congruence.
  pose proof Hw as [H1 H2 H3]. rewrite write_at_Ok by (cbn; lia). cbn [mbind res_bind length].
  assert (take (Z.to_nat index) (cells b) ++ [Some x] ++ drop (Z.to_nat index + 1) (cells b) =
    <[Z.to_nat index := Some x]> (cells b)) as -> by (rewrite insert_take_drop by lia; by rewrite Nat.add_1_r).
  set (b1 := set_cells b _).
  assert (cells b1 = <[Z.to_nat index := Some x]> (cells b)) as Hb1 by (apply cells_set_cells; apply length_insert).
  assert (wf b1) as Hw1 by (split; [by rewrite Hb1, length_insert|done|done]).
  destruct (put_block_ok s i l b1 Hs Ei Hr Hw1 Hc) as (Hs' & Hi & Hj). eexists. split; [reflexivity|].
  rewrite Hi. unfold content. rewrite Hb1. change (size_ b1) with (size_ b).
  split_and!; try done. apply take_insert_lt. lia.
Qed.

Lemma Cow_put_spec s i index x : cow_ok s -> (i < length (bufs s))%nat -> 0 <= index < Z.of_nat (length (shows s i)) ->
  exists s', Cow_put s i index x = Ok s' /\ cow_ok s' /\ shows s' i = <[Z.to_nat index := Some x]> (shows s i) /\
    forall j, j <> i -> shows s' j = shows s j.
Proof.
  intros Hs Hi Hx. unfold Cow_put, Cow_size, Cow_data. rewrite cow_check_Ok by done. cbn [mbind res_bind].
  destruct (buffer_of_Ok s i Hs Hi) as [(E & ->)|(l & b & E & Eb & Hw & Hc & ->)]; cbn [mbind res_bind].
  { unfold shows in Hx. rewrite E in Hx. cbn in Hx. lia. }
  pose proof Hw as [H1 H2 H3]. assert (shows s i = content b) as Hsh by (unfold shows; by rewrite E, Eb).
  rewrite Hsh in *. assert (Z.of_nat (length (content b)) = size_ b) as Hl by (unfold content; rewrite length_take; lia).
  unfold Buffer_size, Buffer_capacity. rewrite checked_wf by done. cbn [mbind res_bind].
  destruct (Z.ltb_spec index (size_ b)); [|lia]. cbn [assert_ mbind res_bind].
  destruct (clone_owns s i l b (capacity_ b) Hs E Eb ltac:(lia)) as (s1 & l1 & b1 & -> & Hs1 & E1 & Eb1 & Hr1 & Hct & Hsz & Hj1).
  cbn [mbind res_bind]. unfold var. rewrite E1. cbn [mbind res_bind]. rewrite Eb1.
  destruct (put_own_byte s1 i l1 b1 index x Hs1 E1 Eb1 Hr1 ltac:(lia)) as (s' & E' & Hs' & Hi' & Hj').
  exists s'. rewrite E', Hi', Hct. split_and!; try done. intros j Hne. by rewrite Hj', Hj1.
Qed.

(** C29: sharing is invisible: for any number of buffers that share blocks in any way,
    [SetData] replaces the bytes of the one buffer, [AppendData] (of at least one byte, or
    to a buffer that has a block) adds to them, and a write through [operator[]] changes
    that byte; no check fails, and every other buffer shows what it showed before. *)
Theorem Cow_isolated s i data index x :
  cow_ok s -> (i < length (bufs s))%nat -> size data < 2 ^ 62 -> Z.of_nat (length (shows s i)) < 2 ^ 62 ->
  (exists s', Cow_SetData s i data = Ok s' /\ cow_ok s' /\ shows s' i = map Some data /\
     forall j, j <> i -> shows s' j = shows s j) /\
  (data <> [] \/ bufs s !! i <> Some None ->
   exists s', Cow_AppendData s i data = Ok s' /\ cow_ok s' /\ shows s' i = shows s i ++ map Some data /\
     forall j, j <> i -> shows s' j = shows s j) /\
  (0 <= index < Z.of_nat (length (shows s i)) ->
   exists s', Cow_put s i index x = Ok s' /\ cow_ok s' /\ shows s' i = <[Z.to_nat index := Some x]> (shows s i) /\
     forall j, j <> i -> shows s' j = shows s j).
Proof.
  intros Hs Hi Hd Hn. split_and!; [apply Cow_SetData_spec; (done || lia)| |intros Hx; by apply Cow_put_spec].
  intros Hor. by apply Cow_AppendData_spec.
Qed.

(** The exception: appending no bytes to a buffer that has no block allocates an empty
    block, which violates the class's invariant, and the check at the end of [AppendData]
    fails; [SetData] tests for this case and does not. *)
Theorem Cow_append_nothing s i :
  cow_ok s -> bufs s !! i = Some None ->
  Cow_AppendData s i [] = Crash /\ Cow_SetData s i [] = Ok s.
Proof.
  intros Hs Ei. pose proof (lookup_lt_Some _ _ _ Ei) as Hi.
  unfold Cow_AppendData, Cow_SetData. rewrite cow_check_Ok by done.
  destruct (buffer_of_Ok s i Hs Hi) as [(_ & ->)|(l & b & E & _)]; [|congruence]. cbn [mbind res_bind].
  split; [|change (0 <? size []) with false; cbn [mbind res_bind]; by rewrite cow_check_Ok].
  change (Buffer_from [] (size [])) with (Ok (mkBuffer 0 0 None)). cbn [mbind res_bind].
  unfold cow_check, Cow_IsConsistent, buffer_of, var, point_to_new. cbn [bufs blocks].
  rewrite list_lookup_insert_eq by done. cbn [mbind res_bind]. by rewrite lookup_insert_eq.
Qed.
End Cow.

(** A cloning routine as the header describes it. *)
Definition clone_copy (s : cow) (i : nat) (c : Z) : res cow :=
  o ← buffer_of s i;
  match o with
  | None => Ok s
  | Some (l, b) =>
      if Cow_HasOneRef s l then Ok s else
      new_data ← write_at (replicate (Z.to_nat c) None) 0 (content b);
      Ok (point_to_new s i (mkBuffer (size_ b) c (Some new_data)))
  end.

Lemma clone_copy_law : Clone clone_copy.
Proof.
  split; intros s i l b c Ei Eb Hr; unfold clone_copy, buffer_of, var, Cow_HasOneRef; rewrite Ei; cbn [mbind res_bind];
    rewrite Eb; cbn [mbind res_bind].
  - by rewrite Hr.
  - intros Hw Hc. destruct (Z.eqb_spec (refs (bufs s) l) 1) as [|_]; [done|].
    pose proof Hw as [H1 H2 H3].
    assert (length (content b) = Z.to_nat (size_ b)) as Hl by (unfold content; rewrite length_take; lia).
    rewrite write_at_Ok by (rewrite length_replicate; lia). cbn [mbind res_bind]. rewrite take_0. cbn [app].
    eexists. split; [reflexivity|]. split_and!; [|unfold content at 1|done|done].
    + split; unfold cells; cbn; [|lia|lia]. rewrite length_app, length_drop, length_replicate. lia.
    + unfold cells. cbn. rewrite take_app_le, take_ge by lia. done.
Qed.

Lemma Cow_isolated_witness : exists s',
  Cow_AppendData clone_copy
    (mkCow {[0%nat := mkBuffer 1 2 (Some [Some "a"%char; None])]} [Some 0%nat; Some 0%nat]) 0 (lit "b") = Ok s' /\
  shows s' 0 = map Some (lit "ab") /\ shows s' 1 = map Some (lit "a").
Proof.
  destruct (@Cow_isolated clone_copy clone_copy_law
    (mkCow {[0%nat := mkBuffer 1 2 (Some [Some "a"%char; None])]} [Some 0%nat; Some 0%nat]) 0 (lit "b") 0 NUL)
    as (_ & H & _).
  - intros i l E. assert (l = 0%nat) as -> by (by destruct i as [|[|[|i]]]; simplify_eq/=).
    eexists. split; [reflexivity|]. split; [split; cbn; lia|cbn; lia].
  - cbn. lia.
  - vm_compute; reflexivity.
  - vm_compute; reflexivity.
  - destruct H as (s' & E & _ & H1 & H2); [by left|]. exists s'. split; [exact E|]. split; [exact H1|].
    exact (H2 1%nat ltac:(lia)).
Defined.

Lemma Cow_append_nothing_witness : Cow_AppendData clone_copy (mkCow ∅ [None]) 0 [] = Crash.
Proof.
  refine (proj1 (Cow_append_nothing clone_copy (mkCow ∅ [None]) 0 _ _)); [|reflexivity].
  intros [|[|i]] l E; simplify_eq/=.
Defined.
