(* ===== verification/FixedPoint.v ===== *)
(** * Bits and fixed-point arithmetic

    [base/bits.h] and [common_audio/signal_processing/include/spl_inl.h] of
    [include/webrtc], in their GCC branches on a machine that is neither ARMv7 nor MIPS. *)

From S2P Require Import Prelude.

(** [__builtin_clz] and [__builtin_ctz] on [w] bits: undefined for zero. *)
Definition builtin_clz (w n : Z) : res Z := _ ← defined (negb (n =? 0)); Ok (w - 1 - Z.log2 n).

(** ** [base/bits.h] *)
Definition IsPowerOfTwo (value : Z) : bool := (0 <? value) && (Z.land value (value - 1) =? 0).

Definition Align (size alignment : Z) : res Z :=
  _ ← assert_ (IsPowerOfTwo alignment);
  Ok (Z.land (u64 (u64 (size + alignment) - 1)) (u64 (Z.lnot (alignment - 1)))).

Definition AlignDown (size alignment : Z) : res Z :=
  _ ← assert_ (IsPowerOfTwo alignment);
  Ok (Z.land size (u64 (Z.lnot (alignment - 1)))).

Definition CountLeadingZeroBits (bits value : Z) : res Z :=
  if negb (value =? 0) then
    if bits =? 64 then builtin_clz 64 value
    else c ← builtin_clz 32 value; Ok (c - (32 - bits))
  else Ok bits.

Definition CountLeadingZeroBits32 (x : Z) : res Z := CountLeadingZeroBits 32 x.
Definition CountLeadingZeroBits64 (x : Z) : res Z := CountLeadingZeroBits 64 x.

(** The subtraction is unsigned and the result is converted to [int]. *)
Definition Log2Floor (n : Z) : res Z := c ← CountLeadingZeroBits 32 n; Ok (i32 (u32 (31 - c))).
Definition Log2Ceiling (n : Z) : res Z :=
  c ← CountLeadingZeroBits 32 (u32 (n - 1));
  Ok (i32 (u32 (u32 (if negb (n =? 0) then 32 else -1) - c))).

(** ** [spl_inl.h] *)
Definition WebRtcSpl_CountLeadingZeros32 (n : Z) : res Z := if n =? 0 then Ok 32 else builtin_clz 32 n.
Definition WebRtcSpl_CountLeadingZeros64 (n : Z) : res Z := if n =? 0 then Ok 64 else builtin_clz 64 n.

Definition WebRtcSpl_SatW32ToW16 (value32 : Z) : Z :=
  if 32767 <? value32 then 32767 else if value32 <? -32768 then -32768 else i16 value32.

Definition WebRtcSpl_AddSatW32 (a b : Z) : Z :=
  let sum := i32 (u32 (u32 a + u32 b)) in
  if Bool.eqb (a <? 0) (b <? 0) && negb (Bool.eqb (a <? 0) (sum <? 0))
  then (if sum <? 0 then 2 ^ 31 - 1 else - 2 ^ 31) else sum.

Definition WebRtcSpl_SubSatW32 (a b : Z) : Z :=
  let diff := i32 (u32 (u32 a - u32 b)) in
  if negb (Bool.eqb (a <? 0) (b <? 0)) && negb (Bool.eqb (a <? 0) (diff <? 0))
  then (if diff <? 0 then 2 ^ 31 - 1 else - 2 ^ 31) else diff.

Definition WebRtcSpl_AddSatW16 (a b : Z) : Z := WebRtcSpl_SatW32ToW16 (a + b).
Definition WebRtcSpl_SubSatW16 (var1 var2 : Z) : Z := WebRtcSpl_SatW32ToW16 (var1 - var2).

Definition WebRtcSpl_GetSizeInBits (n : Z) : res Z := c ← WebRtcSpl_CountLeadingZeros32 n; Ok (i16 (32 - c)).
Definition WebRtcSpl_NormW32 (a : Z) : res Z :=
  if a =? 0 then Ok 0 else
  c ← WebRtcSpl_CountLeadingZeros32 (u32 (if a <? 0 then Z.lnot a else a)); Ok (i16 (c - 1)).
Definition WebRtcSpl_NormU32 (a : Z) : res Z :=
  if a =? 0 then Ok 0 else c ← WebRtcSpl_CountLeadingZeros32 a; Ok (i16 c).
Definition WebRtcSpl_NormW16 (a : Z) : res Z :=
  if a =? 0 then Ok 0 else
  c ← WebRtcSpl_CountLeadingZeros32 (u32 (if a <? 0 then Z.lnot a else a)); Ok (i16 (c - 17)).
Definition WebRtc_MulAccumW16 (a b c : Z) : res Z := arith 32 (a * b + c).

(** ** Laws *)
Lemma IsPowerOfTwo_iff v : IsPowerOfTwo v = true <-> exists k, 0 <= k /\ v = 2 ^ k.
Proof.
  unfold IsPowerOfTwo. rewrite andb_true_iff, Z.ltb_lt, Z.eqb_eq. split.
  - intros [Hv E]. exists (Z.log2 v). pose proof (Z.log2_nonneg v) as Hk. split; [done|].
    destruct (Z.log2_spec v Hv) as [H1 H2]. destruct (Z.eq_dec v (2 ^ Z.log2 v)) as [|Hne]; [done|exfalso].
    assert (Z.testbit (Z.land v (v - 1)) (Z.log2 v) = true) as Ht.
    { rewrite Z.land_spec, !testbit_top by (rewrite ?Z.add_1_r; lia).
      rewrite !(proj2 (Z.leb_le _ _)) by lia. done. }
    by rewrite E, Z.bits_0 in Ht.
  - intros (k & Hk & ->). assert (0 < 2 ^ k) by (apply Z.pow_pos_nonneg; lia). split; [done|].
    replace (2 ^ k - 1) with (Z.ones k) by (rewrite Z.ones_equiv; lia).
    rewrite Z.land_ones by done. apply Z_mod_same_full.
Qed.

(** Clearing the low bits rounds down. *)
Lemma land_lnot x k : in_u 64 x -> 0 <= k < 64 -> Z.land x (u64 (Z.lnot (2 ^ k - 1))) = x / 2 ^ k * 2 ^ k.
Proof.
  intros Hx Hk. unfold wrapU. rewrite <- Z.land_ones, Z.land_comm, <- Z.land_assoc by lia.
  rewrite (Z.land_comm (Z.ones 64)), Z.land_ones by lia. rewrite (Z.mod_small x) by done.
  rewrite Z.land_comm. replace (2 ^ k - 1) with (Z.ones k) by (rewrite Z.ones_equiv; lia).
  rewrite <- Z.ldiff_land, Z.ldiff_ones_r, Z.shiftl_mul_pow2, Z.shiftr_div_pow2 by lia. done.
Qed.

(** Alignment: for a power of two and a size that does not wrap around, [Align] is the
    least multiple not below the size and [AlignDown] the greatest not above it; for
    anything but a power of two both abort. *)
Theorem Align_exact size alignment :
  0 <= size -> 0 < alignment -> size + alignment < 2 ^ 64 ->
  (IsPowerOfTwo alignment = true -> exists up down, Align size alignment = Ok up /\ AlignDown size alignment = Ok down /\
     (alignment | up) /\ (alignment | down) /\ size <= up < size + alignment /\ down <= size < down + alignment) /\
  (IsPowerOfTwo alignment = false -> Align size alignment = Crash /\ AlignDown size alignment = Crash) /\
  (IsPowerOfTwo alignment = true <-> exists k, 0 <= k /\ alignment = 2 ^ k).
Proof.
  intros Hs Ha Hb. split_and!; [| |apply IsPowerOfTwo_iff].
  - intros Hp. unfold Align, AlignDown. rewrite Hp. cbn [assert_ mbind res_bind].
    apply IsPowerOfTwo_iff in Hp as (k & Hk & ->). assert (k < 64) by (apply (Z.pow_lt_mono_r_iff 2); lia).
    rewrite (wrapU_id 64 (size + _)), (wrapU_id 64 (_ - 1)) by (unfold in_u; lia).
    rewrite !land_lnot by (unfold in_u; lia). do 2 eexists. split; [reflexivity|]. split; [reflexivity|].
    split_and!; [by eexists|by eexists| | | |].
    + pose proof (Z.mod_pos_bound (size + 2 ^ k - 1) (2 ^ k) ltac:(lia)). pose proof (Z.div_mod (size + 2 ^ k - 1) (2 ^ k)). lia.
    + pose proof (Z.mod_pos_bound (size + 2 ^ k - 1) (2 ^ k) ltac:(lia)). pose proof (Z.div_mod (size + 2 ^ k - 1) (2 ^ k)). lia.
    + pose proof (Z.mod_pos_bound size (2 ^ k) ltac:(lia)). pose proof (Z.div_mod size (2 ^ k)). lia.
    + pose proof (Z.mod_pos_bound size (2 ^ k) ltac:(lia)). pose proof (Z.div_mod size (2 ^ k)). lia.
  - intros Hp. unfold Align, AlignDown. by rewrite Hp.
Qed.

Lemma Align_exact_witness : exists up down, Align 13 8 = Ok up /\ AlignDown 13 8 = Ok down /\ 13 <= up < 21 /\ down <= 13.
Proof.
  destruct (proj1 (Align_exact 13 8 ltac:(lia) ltac:(lia) ltac:(lia)) eq_refl) as (up & down & E1 & E2 & _ & _ & H1 & H2).
  exists up, down. split; [exact E1|]. split; [exact E2|]. split; [exact H1|exact (proj1 H2)].
Defined.

Lemma log2_bound n w : 0 < n < 2 ^ w -> 0 <= Z.log2 n < w.
Proof.
  intros Hn. split; [apply Z.log2_nonneg|]. apply Z.log2_lt_pow2; lia.
Qed.

Lemma CountLeadingZeroBits_32 n : in_u 32 n -> CountLeadingZeroBits 32 n = Ok (if n =? 0 then 32 else 31 - Z.log2 n).
Proof.
  intros Hn. unfold CountLeadingZeroBits. destruct (Z.eqb_spec n 0) as [->|Hne]; [done|]. cbn [negb].
  change (32 =? 64) with false. cbn iota. unfold builtin_clz. destruct (Z.eqb_spec n 0); [lia|]. cbn. f_equal. lia.
Qed.

(** The integer logarithms: for a positive 32-bit number [Log2Floor] is the largest
    [i] with [2^i <= n] and [Log2Ceiling] the smallest with [n <= 2^i]; both are -1 for
    zero, in spite of the unsigned arithmetic. *)
Theorem Log2_exact n : in_u 32 n ->
  exists f c, Log2Floor n = Ok f /\ Log2Ceiling n = Ok c /\
    (n = 0 -> f = -1 /\ c = -1) /\
    (0 < n -> 2 ^ f <= n < 2 ^ (f + 1) /\ n <= 2 ^ c /\ forall i, 0 <= i < c -> 2 ^ i < n).
Proof.
  intros Hn. unfold Log2Floor, Log2Ceiling. unfold in_u in Hn.
  rewrite !CountLeadingZeroBits_32 by (done || apply wrapU_range; lia). cbn [mbind res_bind].
  rewrite wrapS_wrapU by lia.
  destruct (Z.eqb_spec n 0) as [->|Hne]; cbn [negb].
  { do 2 eexists. split; [reflexivity|]. split; [reflexivity|]. by split; [|lia]. }
  rewrite (wrapU_id 32 (n - 1)) by (unfold in_u; lia). rewrite (wrapU_id 32 32) by (unfold in_u; lia).
  rewrite (wrapS_wrapU 32 (32 - _)) by lia.
  pose proof (log2_bound n 32 ltac:(lia)) as Hl. destruct (Z.log2_spec n ltac:(lia)) as [H1 H2].
  replace (31 - (31 - Z.log2 n)) with (Z.log2 n) by lia. rewrite wrapS_id by (unfold in_s; lia).
  do 2 eexists. split; [reflexivity|]. split; [reflexivity|]. split; [lia|]. intros _.
  rewrite Z.add_1_r. split; [done|]. destruct (Z.eqb_spec (n - 1) 0) as [E|E].
  - assert (n = 1) as -> by lia. rewrite wrapS_id by (unfold in_s; lia). split; [cbn; lia|intros; lia].
  - pose proof (log2_bound (n - 1) 32 ltac:(lia)) as Hl'. destruct (Z.log2_spec (n - 1) ltac:(lia)) as [H3 H4].
    replace (32 - (31 - Z.log2 (n - 1))) with (Z.succ (Z.log2 (n - 1))) by lia. rewrite wrapS_id by (unfold in_s; lia).
    split; [lia|]. intros i Hi. assert (2 ^ i <= 2 ^ Z.log2 (n - 1)) by (apply Z.pow_le_mono_r; lia). lia.
Qed.

Lemma Log2_exact_witness : exists f c, Log2Floor 5 = Ok f /\ Log2Ceiling 5 = Ok c /\ 2 ^ f <= 5 < 2 ^ (f + 1) /\ 5 <= 2 ^ c.
Proof.
  destruct (Log2_exact 5 ltac:(unfold in_u; lia)) as (f & c & E1 & E2 & _ & H). exists f, c.
  destruct (H ltac:(lia)) as (H1 & H2 & _). split; [exact E1|]. split; [exact E2|]. by split.
Defined.

Lemma wrap_sum op a b : (op = Z.add \/ op = Z.sub) ->
  i32 (u32 (op (u32 a) (u32 b))) = wrapS 32 (op a b).
Proof.
  intros Hop. rewrite wrapS_wrapU by lia. unfold wrapS, wrapU. f_equal.
  destruct Hop as [-> | ->].
  - rewrite <- (Zplus_mod_idemp_l (a mod 2 ^ 32 + b mod 2 ^ 32)), <- Zplus_mod, Zplus_mod_idemp_l. done.
  - rewrite <- (Zplus_mod_idemp_l (a mod 2 ^ 32 - b mod 2 ^ 32)), <- Zminus_mod, Zplus_mod_idemp_l. done.
Qed.

(** One wrap-around at most. *)
Lemma wrapS_32 z : - 2 ^ 32 <= z < 2 ^ 32 ->
  wrapS 32 z = if z <? - 2 ^ 31 then z + 2 ^ 32 else if z <? 2 ^ 31 then z else z - 2 ^ 32.
Proof.
  intros Hz. unfold wrapS. change (32 - 1) with 31. destruct (Z.ltb_spec z (- 2 ^ 31)); [|destruct (Z.ltb_spec z (2 ^ 31))].
  - rewrite <- (Z_mod_plus_full _ 1), Z.mod_small; lia.
  - rewrite Z.mod_small; lia.
  - rewrite <- (Z_mod_plus_full _ (-1)), Z.mod_small; lia.
Qed.

Definition clamp (lo hi z : Z) : Z := Z.max lo (Z.min z hi).

(** The saturating operations compute the mathematical result cut to the type's range:
    on 32 bits although the sum is formed with wrap-around and the overflow is read off
    the signs, on 16 bits through [int32_t]. *)
Theorem Sat_exact a b : in_s 32 a -> in_s 32 b ->
  WebRtcSpl_AddSatW32 a b = clamp (- 2 ^ 31) (2 ^ 31 - 1) (a + b) /\
  WebRtcSpl_SubSatW32 a b = clamp (- 2 ^ 31) (2 ^ 31 - 1) (a - b) /\
  WebRtcSpl_SatW32ToW16 a = clamp (-32768) 32767 a /\
  WebRtcSpl_AddSatW16 a b = clamp (-32768) 32767 (a + b) /\
  WebRtcSpl_SubSatW16 a b = clamp (-32768) 32767 (a - b).
Proof.
  intros Ha Hb. unfold in_s in Ha, Hb. change (32 - 1) with 31 in *.
  assert (forall z, WebRtcSpl_SatW32ToW16 z = clamp (-32768) 32767 z) as Hsat.
  { intros z. unfold WebRtcSpl_SatW32ToW16, clamp. destruct (Z.ltb_spec 32767 z); [lia|].
    destruct (Z.ltb_spec z (-32768)); [lia|]. rewrite wrapS_id by (unfold in_s; lia). lia. }
  unfold WebRtcSpl_AddSatW32, WebRtcSpl_SubSatW32, WebRtcSpl_AddSatW16, WebRtcSpl_SubSatW16.
  rewrite (wrap_sum Z.add), (wrap_sum Z.sub), !wrapS_32 by (auto || lia). unfold clamp in *.
  split_and!; try apply Hsat.
  - destruct (Z.ltb_spec (a + b) (- 2 ^ 31)); [|destruct (Z.ltb_spec (a + b) (2 ^ 31))];
      destruct (Z.ltb_spec a 0), (Z.ltb_spec b 0);
      repeat match goal with |- context [?x <? 0] => destruct (Z.ltb_spec x 0) end; cbn [Bool.eqb negb andb]; lia.
  - destruct (Z.ltb_spec (a - b) (- 2 ^ 31)); [|destruct (Z.ltb_spec (a - b) (2 ^ 31))];
      destruct (Z.ltb_spec a 0), (Z.ltb_spec b 0);
      repeat match goal with |- context [?x <? 0] => destruct (Z.ltb_spec x 0) end; cbn [Bool.eqb negb andb]; lia.
Qed.

Lemma Sat_exact_witness : WebRtcSpl_AddSatW32 (2 ^ 31 - 1) 1 = 2 ^ 31 - 1 /\ WebRtcSpl_SubSatW32 (- 2 ^ 31) 1 = - 2 ^ 31.
Proof.
  split.
  - exact (proj1 (Sat_exact (2 ^ 31 - 1) 1 ltac:(unfold in_s; lia) ltac:(unfold in_s; lia))).
  - exact (proj1 (proj2 (Sat_exact (- 2 ^ 31) 1 ltac:(unfold in_s; lia) ltac:(unfold in_s; lia)))).
Defined.

(** The headroom of a non-zero number: how far it can be shifted left. *)
Lemma clz_headroom m w : 0 <= m < 2 ^ (w - 1) -> 1 <= w <= 32 ->
  exists c, WebRtcSpl_CountLeadingZeros32 m = Ok c /\ 0 <= c - 1 - (32 - w) <= 31 /\
    (m + 1) * 2 ^ (c - 1 - (32 - w)) <= 2 ^ (w - 1) /\ (0 < m -> 2 ^ (w - 1) <= m * 2 ^ (c - 1 - (32 - w) + 1)) /\
    (m = 0 -> c = 32).
Proof.
  intros Hm Hw. unfold WebRtcSpl_CountLeadingZeros32, builtin_clz. destruct (Z.eqb_spec m 0) as [->|Hne].
  - exists 32. split; [done|]. replace (32 - 1 - (32 - w)) with (w - 1) by lia. split_and!; lia.
  - cbn. eexists. split; [reflexivity|]. destruct (Z.log2_spec m ltac:(lia)) as [H1 H2].
    pose proof (log2_bound m (w - 1) ltac:(lia)) as Hl.
    replace (32 - 1 - Z.log2 m - 1 - (32 - w)) with (w - 2 - Z.log2 m) by lia. split; [lia|].
    assert (0 < 2 ^ (w - 2 - Z.log2 m)) by (apply Z.pow_pos_nonneg; lia).
    assert (2 ^ (w - 1) = 2 ^ Z.succ (Z.log2 m) * 2 ^ (w - 2 - Z.log2 m)) as E by (rewrite <- Z.pow_add_r by lia; f_equal; lia).
    rewrite Z.pow_succ_r in E, H2 by lia. rewrite Z.pow_add_r, E by lia. split_and!; [|intros _|lia].
    + apply Z.mul_le_mono_nonneg_r; lia.
    + change (2 ^ 1) with 2. nia.
Qed.

(** Shifting a signed number of [w] bits by its headroom, and by one more. *)
Lemma norm_headroom a w : in_s w a -> a <> 0 -> 1 <= w <= 32 ->
  exists c, WebRtcSpl_CountLeadingZeros32 (u32 (if a <? 0 then Z.lnot a else a)) = Ok c /\
    0 <= c - 1 - (32 - w) <= 31 /\ in_s w (a * 2 ^ (c - 1 - (32 - w))) /\ ~ in_s w (a * 2 ^ (c - 1 - (32 - w) + 1)).
Proof.
  intros Ha Hne Hw. unfold in_s in *. set (m := if a <? 0 then Z.lnot a else a).
  assert (2 ^ (w - 1) <= 2 ^ 31) by (apply Z.pow_le_mono_r; lia).
  assert (0 <= m < 2 ^ (w - 1)) as Hm by (unfold m, Z.lnot; destruct (Z.ltb_spec a 0); lia).
  rewrite wrapU_id by (unfold in_u; lia).
  destruct (clz_headroom m w Hm Hw) as (c & E & Hc & H1 & H2 & H3). exists c. split; [done|]. split; [done|].
  set (k := c - 1 - (32 - w)) in *. assert (0 < 2 ^ k) as Hp by (apply Z.pow_pos_nonneg; lia).
  assert (2 ^ (k + 1) = 2 * 2 ^ k) as E2 by (rewrite Z.pow_add_r by lia; lia). rewrite E2 in *.
  unfold m, Z.lnot in *. destruct (Z.ltb_spec a 0).
  - split; [nia|]. destruct (Z.eq_dec a (-1)) as [->|].
    + assert (k = w - 1) as -> by (unfold k; rewrite H3 by lia; lia). lia.
    + specialize (H2 ltac:(lia)). nia.
  - specialize (H2 ltac:(lia)). split; nia.
Qed.

(** The normalization shifts are maximal: for a non-zero 32-bit (16-bit) number the
    number can be shifted left by [WebRtcSpl_NormW32] ([WebRtcSpl_NormW16]) places without
    leaving the type, and not by one more, down to the most negative one. *)
Theorem Norm_maximal a b : in_s 32 a -> a <> 0 -> in_s 16 b -> b <> 0 ->
  (exists k, WebRtcSpl_NormW32 a = Ok k /\ 0 <= k /\ in_s 32 (a * 2 ^ k) /\ ~ in_s 32 (a * 2 ^ (k + 1))) /\
  (exists k, WebRtcSpl_NormW16 b = Ok k /\ 0 <= k /\ in_s 16 (b * 2 ^ k) /\ ~ in_s 16 (b * 2 ^ (k + 1))).
Proof.
  intros Ha Hna Hb Hnb. unfold WebRtcSpl_NormW32, WebRtcSpl_NormW16.
  rewrite (proj2 (Z.eqb_neq a 0)), (proj2 (Z.eqb_neq b 0)) by done. split.
  - destruct (norm_headroom a 32 Ha Hna ltac:(lia)) as (c & -> & Hc & H1 & H2). cbn [mbind res_bind].
    replace (c - 1 - (32 - 32)) with (c - 1) in * by lia. exists (c - 1).
    rewrite wrapS_id by (unfold in_s; lia). split_and!; [done|lia|done|done].
  - destruct (norm_headroom b 16 Hb Hnb ltac:(lia)) as (c & -> & Hc & H1 & H2). cbn [mbind res_bind].
    replace (c - 1 - (32 - 16)) with (c - 17) in * by lia. exists (c - 17).
    rewrite wrapS_id by (unfold in_s; lia). split_and!; [done|lia|done|done].
Qed.

Lemma Norm_maximal_witness : exists k, WebRtcSpl_NormW32 (-5) = Ok k /\ in_s 32 (-5 * 2 ^ k).
Proof.
  destruct (proj1 (Norm_maximal (-5) 3 ltac:(unfold in_s; lia) ltac:(lia) ltac:(unfold in_s; lia) ltac:(lia)))
    as (k & E & _ & H & _). exists k. by split.
Defined.
