(* ===== verification/IntrusiveHeap.v ===== *)
(** * The intrusive heap

    [IntrusiveHeap<T>] of [base/task/common/intrusive_heap.h] of [include/webrtc], built
    with its checks on.  An element is a value and the handle the heap stores in it, zero
    when it has none; a slot of the vector holds an element, or nothing when it is
    default-constructed or moved from, which the code must not read.  Indices stay below
    the vector's size, so they are naturals; loops are bounded by the number of levels,
    for which the index itself is enough. *)

From Stdlib Require Import ZifyNat.
From S2P Require Import Prelude.

(** Lets [lia] reason on halves. *)
Ltac Zify.zify_post_hook ::= Z.to_euclidean_division_equations.

Record node (V : Type) := mkNode { value : V; heap_handle : nat }.
Arguments mkNode {V} value heap_handle.
Arguments value {V} _.
Arguments heap_handle {V} _.

Record IntrusiveHeap (V : Type) := mkHeap { nodes_ : list (option (node V)); size_ : nat }.
Arguments mkHeap {V} nodes_ size_.
Arguments nodes_ {V} _.
Arguments size_ {V} _.

Section Heap.
(** [operator<=] of the elements. *)
Context {V : Type} (leb : V -> V -> bool).
Implicit Types (h : IntrusiveHeap V) (x e : node V).

Definition kMinimumHeapSize : nat := 4.

Definition Heap_new : IntrusiveHeap V := mkHeap (replicate kMinimumHeapSize None) 0.

Definition Heap_empty h : bool := bool_decide (size_ h = 0%nat).

Definition node_at h (i : nat) : res (node V) :=
  match nodes_ h !! i with Some (Some x) => Ok x | _ => Undef end.

(** A position in the tree, as the checks have it. *)
Definition check_pos h (i : nat) : res unit :=
  _ ← assert_ (bool_decide (0 < i)%nat); assert_ (bool_decide (i <= size_ h)%nat).

Definition MoveHole h (new_hole_pos old_hole_pos : nat) : res (IntrusiveHeap V * nat) :=
  _ ← check_pos h new_hole_pos;
  _ ← assert_ (bool_decide (old_hole_pos <> new_hole_pos));
  x ← node_at h new_hole_pos;
  Ok (mkHeap (<[old_hole_pos := Some (mkNode (value x) old_hole_pos)]> (<[new_hole_pos := None]> (nodes_ h)))
        (size_ h), new_hole_pos).

Definition MakeHole h (index : nat) : res (IntrusiveHeap V) :=
  _ ← check_pos h index;
  x ← node_at h index;
  Ok (mkHeap (<[index := Some (mkNode (value x) 0)]> (nodes_ h)) (size_ h)).

(** [std::is_heap] with [CompareNodes]: no parent is greater than its child. *)
Definition is_heap h : bool :=
  forallb (fun i => match nodes_ h !! (i / 2)%nat, nodes_ h !! i with
                    | Some (Some p), Some (Some c) => leb (value p) (value c)
                    | _, _ => false
                    end) (seq 2 (size_ h - 1)).

Definition FillHole h (hole : nat) (v : V) : res (IntrusiveHeap V) :=
  _ ← check_pos h hole;
  let h := mkHeap (<[hole := Some (mkNode v hole)]> (nodes_ h)) (size_ h) in
  _ ← assert_ (is_heap h);
  Ok h.

Fixpoint up_loop (fuel : nat) h (hole : nat) (v : V) : res (IntrusiveHeap V * nat) :=
  match fuel with
  | O => Undef
  | S fuel =>
      if bool_decide (2 <= hole)%nat then
        p ← node_at h (hole / 2);
        if leb (value p) v then Ok (h, hole)
        else '(h, hole) ← MoveHole h (hole / 2) hole; up_loop fuel h hole v
      else Ok (h, hole)
  end.

Definition MoveHoleUpAndFillWithElement h (hole : nat) (v : V) : res (IntrusiveHeap V) :=
  _ ← check_pos h hole;
  '(h, hole) ← up_loop hole h hole v;
  FillHole h hole v.

(** The smaller child, the second one if they are equal. *)
Definition smaller_child h (child_pos : nat) : res nat :=
  a ← node_at h (child_pos + 1); b ← node_at h child_pos;
  Ok (if leb (value a) (value b) then (child_pos + 1)%nat else child_pos).

Fixpoint down_loop (fuel : nat) h (hole child_pos : nat) (v : V) : res (IntrusiveHeap V * nat * nat) :=
  match fuel with
  | O => Undef
  | S fuel =>
      if bool_decide (child_pos < size_ h)%nat then
        child_pos ← smaller_child h child_pos;
        c ← node_at h child_pos;
        if leb v (value c) then Ok (h, hole, child_pos)
        else '(h, hole) ← MoveHole h child_pos hole; down_loop fuel h hole (child_pos * 2) v
      else Ok (h, hole, child_pos)
  end.

Definition MoveHoleDownAndFillWithElement h (hole : nat) (v : V) : res (IntrusiveHeap V) :=
  _ ← check_pos h hole;
  '(h, hole, child_pos) ← down_loop (S (size_ h)) h hole (hole * 2) v;
  '(h, hole) ← (if bool_decide (child_pos = size_ h) then
                  c ← node_at h child_pos;
                  if leb v (value c) then Ok (h, hole) else MoveHole h child_pos hole
                else Ok (h, hole));
  FillHole h hole v.

Fixpoint leaf_loop (fuel : nat) h (hole child_pos : nat) : res (IntrusiveHeap V * nat * nat) :=
  match fuel with
  | O => Undef
  | S fuel =>
      if bool_decide (child_pos < size_ h)%nat then
        child_pos ← smaller_child h child_pos;
        '(h, hole) ← MoveHole h child_pos hole; leaf_loop fuel h hole (child_pos * 2)
      else Ok (h, hole, child_pos)
  end.

Definition MoveHoleDownAndFillWithLeafElement h (hole : nat) (v : V) : res (IntrusiveHeap V) :=
  _ ← check_pos h hole;
  '(h, hole, child_pos) ← leaf_loop (S (size_ h)) h hole (hole * 2);
  '(h, hole) ← (if bool_decide (child_pos = size_ h) then MoveHole h child_pos hole else Ok (h, hole));
  MoveHoleUpAndFillWithElement h hole v.

Fixpoint make_holes h (i n : nat) : res (IntrusiveHeap V) :=
  match n with O => Ok h | S n => h ← MakeHole h i; make_holes h (S i) n end.

Definition Clear h : res (IntrusiveHeap V) :=
  h ← make_holes h 1 (size_ h);
  Ok (mkHeap (take kMinimumHeapSize (nodes_ h) ++ replicate (kMinimumHeapSize - length (nodes_ h)) None) 0).

Definition Min h : res V :=
  _ ← assert_ (bool_decide (1 <= size_ h)%nat); x ← node_at h 1; Ok (value x).

(** The slot [i] after its element was moved away.  [nodes_[top_index]] is past the new
    size in [Pop] and [erase]: no step reads or writes it before it is moved into its
    place. *)
Definition vacate h (i : nat) : IntrusiveHeap V := mkHeap (<[i := None]> (nodes_ h)) (size_ h).

Definition Pop h : res (IntrusiveHeap V) :=
  _ ← assert_ (bool_decide (1 <= size_ h)%nat);
  h ← MakeHole h 1;
  let top_index := size_ h in
  let h := mkHeap (nodes_ h) (size_ h - 1) in
  if Heap_empty h then Ok h else
  x ← node_at h top_index;
  h ← MoveHoleDownAndFillWithLeafElement h 1 (value x);
  Ok (vacate h top_index).

Definition Heap_insert h (v : V) : res (IntrusiveHeap V) :=
  let n := S (size_ h) in
  let nodes := if bool_decide (length (nodes_ h) <= n)%nat
               then nodes_ h ++ replicate (length (nodes_ h)) None else nodes_ h in
  MoveHoleUpAndFillWithElement (mkHeap nodes n) n v.

Definition Heap_erase h (handle : nat) : res (IntrusiveHeap V) :=
  _ ← check_pos h handle;
  h ← MakeHole h handle;
  let top_index := size_ h in
  let h := mkHeap (nodes_ h) (size_ h - 1) in
  if Heap_empty h || bool_decide (top_index = handle) then Ok h else
  a ← node_at h handle; b ← node_at h top_index;
  h ← (if leb (value a) (value b)
       then MoveHoleDownAndFillWithLeafElement h handle (value b)
       else MoveHoleUpAndFillWithElement h handle (value b));
  Ok (vacate h top_index).

Definition ReplaceMin h (v : V) : res (IntrusiveHeap V) := MoveHoleDownAndFillWithElement h 1 v.

Definition ChangeKey h (handle : nat) (v : V) : res (IntrusiveHeap V) :=
  a ← node_at h handle;
  if leb (value a) v then MoveHoleDownAndFillWithLeafElement h handle v
  else MoveHoleUpAndFillWithElement h handle v.

(** ** The invariant *)
Context (leb_total : forall a b, leb a b = true \/ leb b a = true)
        (leb_trans : forall a b c, leb a b = true -> leb b c = true -> leb a c = true).

Definition val h (i : nat) : option V := x ← nodes_ h !! i; value <$> x.

Definition le (a b : option V) : Prop :=
  match a, b with Some a, Some b => leb a b = true | _, _ => False end.

Lemma le_trans a b c : le a b -> le b c -> le a c.
Proof. destruct a, b, c; cbn; try done. apply leb_trans. Qed.

(** All positions but the hole are filled with elements that know their place, a parent
    is not greater than its child, and neither is the hole's parent than its children. *)
Record holed h (hole : nat) : Prop := {
  h_room : (size_ h < length (nodes_ h))%nat;
  h_filled : forall i, (1 <= i <= size_ h)%nat -> i <> hole -> exists v, nodes_ h !! i = Some (Some (mkNode v i));
  h_order : forall i, (2 <= i <= size_ h)%nat -> i <> hole -> (i / 2 <> hole)%nat -> le (val h (i / 2)) (val h i);
  h_skip : forall i, (i <= size_ h)%nat -> (i / 2 = hole)%nat -> (2 <= hole)%nat -> le (val h (hole / 2)) (val h i)
}.

(** A heap without a hole. *)
Definition heap_ok h : Prop := holed h 0.

Definition others h (hole : nat) : list V :=
  omap (fun i => if bool_decide (i = hole) then None else val h i) (seq 1 (size_ h)).
Definition heap_contents h : list V := others h 0.

(** The value fits below the hole, and above it. *)
Definition fits_below h (hole : nat) (v : V) : Prop :=
  forall i, (i <= size_ h)%nat -> (1 <= i)%nat -> (i / 2 = hole)%nat -> le (Some v) (val h i).
Definition fits_above h (hole : nat) (v : V) : Prop := (2 <= hole)%nat -> le (val h (hole / 2)) (Some v).

Lemma holed_node h hole i : holed h hole -> (1 <= i <= size_ h)%nat -> i <> hole ->
  exists v, node_at h i = Ok (mkNode v i) /\ val h i = Some v /\ nodes_ h !! i = Some (Some (mkNode v i)).
Proof.
  intros Hh Hi Hne. destruct (h_filled h hole Hh i Hi Hne) as [v E]. exists v. unfold node_at, val. by rewrite E.
Qed.

Lemma check_pos_Ok h i : (1 <= i <= size_ h)%nat -> check_pos h i = Ok ().
Proof. intros H. unfold check_pos. by rewrite !bool_decide_eq_true_2 by lia. Qed.

(** Exchanging the results at two indices permutes the results. *)
Lemma omap_exchange (f g : nat -> option V) l a b : NoDup l -> a ∈ l -> b ∈ l -> a <> b ->
  f a = g b -> f b = g a -> (forall i, i <> a -> i <> b -> f i = g i) -> omap f l ≡ₚ omap g l.
Proof.
  intros Hnd Ha Hb Hab E1 E2 E. apply elem_of_Permutation in Ha as [l1 H1].
  assert (b ∈ l1) as Hb1 by (rewrite H1 in Hb; set_solver). apply elem_of_Permutation in Hb1 as [l2 H2].
  rewrite H2 in H1. rewrite H1 in Hnd |- *. apply list.NoDup_cons in Hnd as [Ha Hnd]. apply list.NoDup_cons in Hnd as [Hb' _].
  assert (omap f l2 = omap g l2) as E3.
  { clear -E Ha Hb'. induction l2 as [|i l2 IH]; [done|]. cbn. rewrite IH by set_solver.
    by rewrite (E i) by set_solver. }
  cbn. rewrite E1, E2, E3. destruct (g a), (g b); try done. by apply Permutation_swap.
Qed.

Lemma MoveHole_spec h new hole : holed h hole -> (1 <= new <= size_ h)%nat -> (1 <= hole <= size_ h)%nat -> new <> hole ->
  exists h', MoveHole h new hole = Ok (h', new) /\ size_ h' = size_ h /\ length (nodes_ h') = length (nodes_ h) /\
    (forall i, (1 <= i <= size_ h)%nat -> i <> new -> exists v, nodes_ h' !! i = Some (Some (mkNode v i))) /\
    (forall i, val h' i = if bool_decide (i = hole) then val h new else if bool_decide (i = new) then None else val h i) /\
    others h' new ≡ₚ others h hole.
Proof.
  intros Hh Hn Ho Hne. unfold MoveHole. rewrite check_pos_Ok by done. cbn [mbind res_bind].
  rewrite bool_decide_eq_true_2 by done. cbn [assert_ mbind res_bind]. pose proof (h_room h hole Hh) as Hroom.
  destruct (holed_node h hole new Hh Hn Hne) as (v & -> & Hv & En). cbn [mbind res_bind value].
  eexists. split; [reflexivity|]. cbn [size_ nodes_].
  set (h' := mkHeap _ _).
  assert (forall i, nodes_ h' !! i = if bool_decide (i = hole) then Some (Some (mkNode v hole))
    else if bool_decide (i = new) then Some None else nodes_ h !! i) as Hlk.
  { intros i. subst h'. cbn [nodes_]. case_bool_decide as E1; [subst i; apply list_lookup_insert_eq; rewrite length_insert; lia|].
    rewrite list_lookup_insert_ne by done. case_bool_decide as E2; [subst i; apply list_lookup_insert_eq; lia|].
    by rewrite list_lookup_insert_ne by done. }
  assert (forall i, val h' i = if bool_decide (i = hole) then val h new
    else if bool_decide (i = new) then None else val h i) as Hval.
  { intros i. unfold val at 1. rewrite Hlk. case_bool_decide; [by rewrite Hv|]. by case_bool_decide. }
  split_and!; [done|by rewrite !length_insert| |exact Hval|].
  - intros i Hi Hni. change (nodes_ h') with (nodes_ h'). rewrite Hlk. case_bool_decide as E; [subst i; by exists v|].
    rewrite bool_decide_eq_false_2 by done. by apply (h_filled h hole Hh).
  - unfold others. change (size_ h') with (size_ h).
    apply (omap_exchange _ _ _ hole new); [apply NoDup_seq|apply elem_of_seq; lia|apply elem_of_seq; lia|done|..];
      rewrite ?Hval; repeat case_bool_decide; try done. intros i Hi1 Hi2. rewrite Hval.
    by repeat case_bool_decide.
Qed.

(** ** Moving the hole *)
Lemma move_up h hole h' : holed h hole -> (2 <= hole <= size_ h)%nat -> size_ h' = size_ h ->
  length (nodes_ h') = length (nodes_ h) ->
  (forall i, (1 <= i <= size_ h)%nat -> i <> (hole / 2)%nat -> exists v, nodes_ h' !! i = Some (Some (mkNode v i))) ->
  (forall i, val h' i = if bool_decide (i = hole) then val h (hole / 2)
     else if bool_decide (i = (hole / 2)%nat) then None else val h i) ->
  holed h' (hole / 2).
Proof.
  intros Hh Hs Es El Hf Hv. pose proof Hh as [Hr _ Ho Hsk]. split; rewrite ?Es, ?El; try done.
  - intros i Hi Hne Hp. rewrite !Hv.
    rewrite (bool_decide_eq_false_2 (i = hole)) by (intros ->; done).
    rewrite (bool_decide_eq_false_2 (i = (hole / 2)%nat)), (bool_decide_eq_false_2 ((i / 2)%nat = (hole / 2)%nat)) by done.
    case_bool_decide as E; [apply Hsk; lia|]. apply Ho; [done| |done]. intros ->. done.
  - intros i Hi Hp Hp2. rewrite !Hv.
    rewrite (bool_decide_eq_false_2 ((hole / 2 / 2)%nat = hole)), (bool_decide_eq_false_2 ((hole / 2 / 2)%nat = (hole / 2)%nat)) by lia.
    assert (le (val h (hole / 2 / 2)) (val h (hole / 2))) as Hpp by (apply Ho; lia).
    case_bool_decide as E; [done|]. rewrite bool_decide_eq_false_2 by lia.
    eapply le_trans; [exact Hpp|]. rewrite <- Hp. apply Ho; lia.
Qed.

Lemma move_down h hole c h' : holed h hole -> (1 <= hole)%nat -> (c <= size_ h)%nat -> (c / 2 = hole)%nat ->
  (forall i, (i <= size_ h)%nat -> (i / 2 = hole)%nat -> le (val h c) (val h i)) ->
  size_ h' = size_ h -> length (nodes_ h') = length (nodes_ h) ->
  (forall i, (1 <= i <= size_ h)%nat -> i <> c -> exists v, nodes_ h' !! i = Some (Some (mkNode v i))) ->
  (forall i, val h' i = if bool_decide (i = hole) then val h c else if bool_decide (i = c) then None else val h i) ->
  holed h' c.
Proof.
  intros Hh Hs Hc Hch Hmin Es El Hf Hv. pose proof Hh as [Hr _ Ho Hsk]. split; rewrite ?Es, ?El; try done.
  - intros i Hi Hne Hp. rewrite !Hv. rewrite (bool_decide_eq_false_2 (i = c)), (bool_decide_eq_false_2 ((i / 2)%nat = c)) by done.
    destruct (decide (i = hole)) as [->|Hih].
    + rewrite (bool_decide_eq_true_2 (hole = hole)) by done. rewrite (bool_decide_eq_false_2 ((hole / 2)%nat = hole)) by lia. apply Hsk; lia.
    + rewrite (bool_decide_eq_false_2 (i = hole)) by done. case_bool_decide as E; [apply Hmin; lia|]. by apply Ho.
  - intros i Hi Hp Hp2. rewrite !Hv. rewrite Hch. rewrite (bool_decide_eq_true_2 (hole = hole)) by done.
    rewrite (bool_decide_eq_false_2 (i = hole)), (bool_decide_eq_false_2 (i = c)) by lia. rewrite <- Hp. apply Ho; lia.
Qed.

(** What the moves of a hole keep. *)
Record moved h (hole : nat) h' (hole' : nat) : Prop := {
  m_holed : holed h' hole';
  m_in : (1 <= hole' <= size_ h)%nat;
  m_size : size_ h' = size_ h;
  m_room : length (nodes_ h') = length (nodes_ h);
  m_others : others h' hole' ≡ₚ others h hole
}.

Lemma moved_refl h hole : holed h hole -> (1 <= hole <= size_ h)%nat -> moved h hole h hole.
Proof. intros. by split. Qed.

Lemma moved_trans h hole h1 hole1 h2 hole2 : moved h hole h1 hole1 -> moved h1 hole1 h2 hole2 -> moved h hole h2 hole2.
Proof. intros [? ? E1 ? P1] [? ? E2 ? P2]. rewrite E1 in *. split; [done|done|congruence|congruence|by rewrite P2, P1]. Qed.

Lemma MoveHole_up h hole : holed h hole -> (2 <= hole <= size_ h)%nat ->
  exists h', MoveHole h (hole / 2) hole = Ok (h', (hole / 2)%nat) /\ moved h hole h' (hole / 2) /\
    (forall i, val h' i = if bool_decide (i = hole) then val h (hole / 2)
       else if bool_decide (i = (hole / 2)%nat) then None else val h i).
Proof.
  intros Hh Hs. destruct (MoveHole_spec h (hole / 2) hole Hh) as (h' & E & E1 & E2 & Hf & Hv & Hp); [lia..|].
  exists h'. split_and!; [done| |done]. split; [by eapply move_up|lia|done..].
Qed.

Lemma MoveHole_down h hole c : holed h hole -> (1 <= hole <= size_ h)%nat -> (c <= size_ h)%nat -> (c / 2 = hole)%nat ->
  (forall i, (i <= size_ h)%nat -> (i / 2 = hole)%nat -> le (val h c) (val h i)) ->
  exists h', MoveHole h c hole = Ok (h', c) /\ moved h hole h' c /\
    (forall i, val h' i = if bool_decide (i = hole) then val h c else if bool_decide (i = c) then None else val h i).
Proof.
  intros Hh Hs Hc Hch Hmin. destruct (MoveHole_spec h c hole Hh) as (h' & E & E1 & E2 & Hf & Hv & Hp); [lia..|].
  exists h'. split_and!; [done| |done]. split; [eapply (move_down h hole c h'); eauto; lia|lia|done..].
Qed.

Lemma le_refl a : le (Some a) (Some a).
Proof. cbn. by destruct (leb_total a a). Qed.

Lemma not_leb a b : leb a b = false -> leb b a = true.
Proof. destruct (leb_total a b); congruence. Qed.

Lemma smaller_child_spec h hole : holed h hole -> (1 <= hole)%nat -> (hole * 2 < size_ h)%nat ->
  exists c, smaller_child h (hole * 2) = Ok c /\ (c <= size_ h)%nat /\ (c / 2 = hole)%nat /\
    (forall i, (i <= size_ h)%nat -> (i / 2 = hole)%nat -> le (val h c) (val h i)).
Proof.
  intros Hh H1 H2. unfold smaller_child.
  destruct (holed_node h hole (hole * 2 + 1) Hh) as (a & -> & Ea & _); [lia..|].
  destruct (holed_node h hole (hole * 2) Hh) as (b & -> & Eb & _); [lia..|]. cbn [mbind res_bind value].
  eexists. split; [reflexivity|].
  assert (forall i, (i / 2 = hole)%nat -> i = (hole * 2)%nat \/ i = (hole * 2 + 1)%nat) as Hi by lia.
  destruct (leb a b) eqn:E; (split; [lia|split; [lia|]]); intros i _ Hp; destruct (Hi i Hp) as [->| ->];
    rewrite ?Ea, ?Eb; auto using le_refl, not_leb; cbn; auto using not_leb. 
Qed.

(** ** The loops *)
Lemma up_loop_spec fuel h hole v : holed h hole -> (1 <= hole <= size_ h)%nat -> (hole <= fuel)%nat -> fits_below h hole v ->
  exists h' hole', up_loop fuel h hole v = Ok (h', hole') /\ moved h hole h' hole' /\
    fits_below h' hole' v /\ fits_above h' hole' v.
Proof.
  revert h hole. induction fuel as [|fuel IH]; intros h hole Hh Hs Hf Hb; [lia|]. cbn [up_loop].
  case_bool_decide as E2; [|exists h, hole; split_and!; [done|by apply moved_refl|done|intros ?; lia]].
  destruct (holed_node h hole (hole / 2) Hh) as (p & -> & Ep & _); [lia..|]. cbn [mbind res_bind value].
  destruct (leb p v) eqn:El.
  { exists h, hole. split_and!; [done|by apply moved_refl|done|]. intros _. by rewrite Ep. }
  destruct (MoveHole_up h hole Hh) as (h1 & -> & Hm & Hv); [lia|]. cbn [mbind res_bind].
  destruct (IH h1 (hole / 2)%nat) as (h2 & hole2 & -> & Hm2 & ? & ?).
  - by apply (m_holed _ _ _ _ Hm).
  - rewrite (m_size _ _ _ _ Hm). lia.
  - lia.
  - intros i Hi Hi1 Hp. rewrite (m_size _ _ _ _ Hm) in Hi. rewrite Hv.
    assert (le (Some v) (val h (hole / 2))) as Hle by (rewrite Ep; by apply not_leb).
    case_bool_decide as E; [done|]. rewrite bool_decide_eq_false_2 by lia.
    eapply le_trans; [exact Hle|]. rewrite <- Hp. apply (h_order h hole Hh); lia.
  - exists h2, hole2. split_and!; [done|by eapply moved_trans|done..].
Qed.

Lemma leaf_loop_spec fuel h hole : holed h hole -> (1 <= hole <= size_ h)%nat -> (size_ h - hole < fuel)%nat ->
  exists h' hole', leaf_loop fuel h hole (hole * 2) = Ok (h', hole', (hole' * 2)%nat) /\
    moved h hole h' hole' /\ (size_ h <= hole' * 2)%nat.
Proof.
  revert h hole. induction fuel as [|fuel IH]; intros h hole Hh Hs Hf; [lia|]. cbn [leaf_loop].
  case_bool_decide as E; [|exists h, hole; split_and!; [done|by apply moved_refl|lia]].
  destruct (smaller_child_spec h hole Hh) as (c & -> & Hc & Hc2 & Hmin); [lia..|]. cbn [mbind res_bind].
  destruct (MoveHole_down h hole c Hh Hs Hc Hc2 Hmin) as (h1 & -> & Hm & _). cbn [mbind res_bind].
  destruct (IH h1 c) as (h2 & hole2 & -> & Hm2 & Hl); [apply (m_holed _ _ _ _ Hm)|rewrite (m_size _ _ _ _ Hm); lia..|].
  exists h2, hole2. rewrite (m_size _ _ _ _ Hm) in Hl. split_and!; [done|by eapply moved_trans|done].
Qed.

Lemma down_loop_spec fuel h hole v : holed h hole -> (1 <= hole <= size_ h)%nat -> (size_ h - hole < fuel)%nat ->
  fits_above h hole v ->
  exists h' hole' c, down_loop fuel h hole (hole * 2) v = Ok (h', hole', c) /\ moved h hole h' hole' /\
    fits_above h' hole' v /\
    (c = (hole' * 2)%nat /\ (size_ h <= c)%nat \/
     fits_below h' hole' v /\ (1 <= c <= size_ h)%nat /\ c <> hole' /\ le (Some v) (val h' c)).
Proof.
  revert h hole. induction fuel as [|fuel IH]; intros h hole Hh Hs Hf Ha; [lia|]. cbn [down_loop].
  case_bool_decide as E; [|exists h, hole, (hole * 2)%nat; split_and!; [done|by apply moved_refl|done|left; lia]].
  destruct (smaller_child_spec h hole Hh) as (c & -> & Hc & Hc2 & Hmin); [lia..|]. cbn [mbind res_bind].
  destruct (holed_node h hole c Hh) as (x & -> & Ex & _); [lia..|]. cbn [mbind res_bind value].
  destruct (leb v x) eqn:El.
  { exists h, hole, c. split_and!; [done|by apply moved_refl|done|right]. rewrite Ex. split_and!; [|lia|lia|lia|done].
    intros i Hi _ Hp. eapply le_trans; [|by apply Hmin]. by rewrite Ex. }
  destruct (MoveHole_down h hole c Hh Hs Hc Hc2 Hmin) as (h1 & -> & Hm & Hv). cbn [mbind res_bind].
  destruct (IH h1 c) as (h2 & hole2 & c2 & -> & Hm2 & Ha2 & Hl); [apply (m_holed _ _ _ _ Hm)|rewrite (m_size _ _ _ _ Hm); lia..| |].
  - intros _. rewrite Hc2, Hv, bool_decide_eq_true_2 by done. rewrite Ex. by apply not_leb.
  - exists h2, hole2, c2. rewrite (m_size _ _ _ _ Hm) in Hl. split_and!; [done|by eapply moved_trans|done|done].
Qed.

(** ** Filling the hole *)
Lemma omap_fill (f g : nat -> option V) l a v : NoDup l -> a ∈ l -> f a = Some v -> g a = None ->
  (forall i, i ∈ l -> i <> a -> f i = g i) -> omap f l ≡ₚ v :: omap g l.
Proof.
  intros Hnd Ha E1 E2 E. apply elem_of_Permutation in Ha as [l1 H1].
  rewrite H1 in Hnd |- *. apply list.NoDup_cons in Hnd as [Ha Hnd]. cbn. rewrite E1, E2. f_equiv.
  assert (forall i, i ∈ l1 -> f i = g i) as E3.
  { intros i Hi. apply E; [rewrite H1; by right|]. intros ->. done. }
  clear -E3. induction l1 as [|i l1 IH]; [done|]. cbn. rewrite (E3 i) by (by left).
  assert (omap f l1 ≡ₚ omap g l1) as E by (apply IH; intros; apply E3; by right).
  destruct (g i); [by f_equiv|done].
Qed.

Lemma heap_ok_is_heap h : heap_ok h -> is_heap h = true.
Proof.
  intros Hh. apply forallb_forall. intros i [H1 H2]%in_seq.
  assert (le (val h (i / 2)) (val h i)) as Hle by (apply (h_order h 0 Hh); lia). unfold val in Hle.
  destruct (nodes_ h !! (i / 2)%nat) as [[p|]|], (nodes_ h !! i) as [[c|]|]; by cbn in Hle.
Qed.

Lemma FillHole_spec h hole v : holed h hole -> (1 <= hole <= size_ h)%nat -> fits_below h hole v -> fits_above h hole v ->
  exists h', FillHole h hole v = Ok h' /\ heap_ok h' /\ size_ h' = size_ h /\ length (nodes_ h') = length (nodes_ h) /\
    heap_contents h' ≡ₚ v :: others h hole.
Proof.
  intros Hh Hs Hb Ha. pose proof Hh as [Hr Hf Ho _]. unfold FillHole. rewrite check_pos_Ok by done. cbn [mbind res_bind].
  set (h' := mkHeap _ _).
  assert (forall i, nodes_ h' !! i = if bool_decide (i = hole) then Some (Some (mkNode v hole)) else nodes_ h !! i) as Hlk.
  { intros i. subst h'. cbn [nodes_]. case_bool_decide as E; [subst i; apply list_lookup_insert_eq; lia|].
    by rewrite list_lookup_insert_ne. }
  assert (forall i, val h' i = if bool_decide (i = hole) then Some v else val h i) as Hv.
  { intros i. unfold val at 1. rewrite Hlk. by case_bool_decide. }
  assert (heap_ok h') as Hok.
  { split; [subst h'; cbn; rewrite length_insert; lia| | |intros; lia]; change (size_ h') with (size_ h).
    - intros i Hi _. rewrite Hlk. case_bool_decide as E; [subst i; by exists v|]. by apply Hf.
    - intros i Hi _ _. rewrite !Hv. do 2 case_bool_decide; [lia|apply Hb; lia|subst i; apply Ha; lia|by apply Ho]. }
  rewrite heap_ok_is_heap by done. exists h'.
  split_and!; [done|done|done|subst h'; cbn; by rewrite length_insert|].
  unfold heap_contents, others. change (size_ h') with (size_ h).
  apply (omap_fill _ _ _ hole); [apply NoDup_seq|apply elem_of_seq; lia|..].
  - rewrite bool_decide_eq_false_2 by lia. rewrite Hv. by case_bool_decide.
  - by case_bool_decide.
  - intros i [H1 _]%elem_of_seq Hne. rewrite bool_decide_eq_false_2 by lia. rewrite Hv. by rewrite !bool_decide_eq_false_2.
Qed.

(** What filling the hole of [h] with [v] gives. *)
Definition fills h (hole : nat) (v : V) (r : res (IntrusiveHeap V)) : Prop :=
  exists h', r = Ok h' /\ heap_ok h' /\ size_ h' = size_ h /\ heap_contents h' ≡ₚ v :: others h hole.

Lemma FillHole_moved h hole h1 hole1 v : moved h hole h1 hole1 -> fits_below h1 hole1 v -> fits_above h1 hole1 v ->
  fills h hole v (FillHole h1 hole1 v).
Proof.
  intros [Hh Hi Es El Hp] Hb Ha. destruct (FillHole_spec h1 hole1 v Hh) as (h' & E & Hok & E1 & E2 & P); [lia|done..|].
  exists h'. split_and!; [done|done|lia|by rewrite P, Hp].
Qed.

Lemma fills_moved h hole h1 hole1 v r : moved h hole h1 hole1 -> fills h1 hole1 v r -> fills h hole v r.
Proof. intros Hm (h' & E & Hok & Es & P). exists h'. destruct Hm. split_and!; [done|done|lia|]. by rewrite P, m_others0. Qed.

Lemma MoveHoleUp_fills h hole v : holed h hole -> (1 <= hole <= size_ h)%nat -> fits_below h hole v ->
  fills h hole v (MoveHoleUpAndFillWithElement h hole v).
Proof.
  intros Hh Hs Hb. unfold MoveHoleUpAndFillWithElement. rewrite check_pos_Ok by done. cbn [mbind res_bind].
  destruct (up_loop_spec hole h hole v) as (h1 & hole1 & -> & ? & ? & ?); [done..|]. by apply FillHole_moved.
Qed.

Lemma MoveHoleLeaf_fills h hole v : holed h hole -> (1 <= hole <= size_ h)%nat ->
  fills h hole v (MoveHoleDownAndFillWithLeafElement h hole v).
Proof.
  intros Hh Hs. unfold MoveHoleDownAndFillWithLeafElement. rewrite check_pos_Ok by done. cbn [mbind res_bind].
  destruct (leaf_loop_spec (S (size_ h)) h hole) as (h1 & hole1 & -> & Hm & Hl); [done|lia..|]. cbn [mbind res_bind].
  pose proof Hm as [Hh1 Hi1 Es1 _ _].
  assert (forall h2 hole2, moved h1 hole1 h2 hole2 -> (size_ h < hole2 * 2)%nat ->
    fills h hole v (MoveHoleUpAndFillWithElement h2 hole2 v)) as Hup.
  { intros h2 hole2 Hm2 Hl2. eapply fills_moved; [exact Hm|]. eapply fills_moved; [exact Hm2|].
    destruct Hm2 as [Hh2 Hi2 Es2 _ _]. apply MoveHoleUp_fills; [done|lia|]. intros i ? ? ?. lia. }
  case_bool_decide as E; [|apply Hup; [by apply moved_refl; [|lia]|lia]].
  destruct (MoveHole_down h1 hole1 (hole1 * 2)) as (h2 & -> & Hm2 & _); [done|lia|lia|lia| |by apply Hup; [|lia]].
  intros i Hi Hp. assert (i = (hole1 * 2)%nat) as -> by lia.
  destruct (holed_node h1 hole1 (hole1 * 2) Hh1) as (x & _ & -> & _); [lia..|]. apply le_refl.
Qed.

Lemma MoveHoleDown_fills h hole v : holed h hole -> (1 <= hole <= size_ h)%nat -> fits_above h hole v ->
  fills h hole v (MoveHoleDownAndFillWithElement h hole v).
Proof.
  intros Hh Hs Ha. unfold MoveHoleDownAndFillWithElement. rewrite check_pos_Ok by done. cbn [mbind res_bind].
  destruct (down_loop_spec (S (size_ h)) h hole v) as (h1 & hole1 & c & -> & Hm & Ha1 & Hc); [done|lia|lia|done|]. cbn [mbind res_bind].
  pose proof Hm as [Hh1 Hi1 Es1 _ _].
  case_bool_decide as E; cycle 1.
  { cbn [mbind res_bind]. apply FillHole_moved; [done| |done]. destruct Hc as [[-> Hl]|(Hb & _)]; [|done]. intros i ? ? ?. lia. }
  destruct (holed_node h1 hole1 c Hh1) as (x & -> & Ex & _); [lia..|]. cbn [mbind res_bind value].
  destruct Hc as [[Ec Hl]|(Hb & _ & _ & Hle)]; cycle 1.
  { rewrite Ex in Hle. cbn in Hle. rewrite Hle. cbn [mbind res_bind]. by apply FillHole_moved. }
  assert (forall i, (i <= size_ h1)%nat -> (i / 2 = hole1)%nat -> i = c) as Hc1 by lia.
  destruct (leb v x) eqn:El.
  { cbn [mbind res_bind]. apply FillHole_moved; [done| |done]. intros i Hi _ Hp. by rewrite (Hc1 i), Ex. }
  destruct (MoveHole_down h1 hole1 c Hh1) as (h2 & -> & Hm2 & Hv); [lia|lia|lia| |].
  { intros i Hi Hp. rewrite (Hc1 i) by done. rewrite Ex. apply le_refl. }
  cbn [mbind res_bind]. pose proof (m_size _ _ _ _ Hm2). apply FillHole_moved; [by eapply moved_trans|intros i ? ? ?; lia|].
  intros _. replace (c / 2)%nat with hole1 by lia. rewrite Hv, bool_decide_eq_true_2 by done. rewrite Ex. by apply not_leb.
Qed.

(** ** The operations *)

(** Slots that agree below the size and off the hole. *)
Lemma holed_ext h h' hole : (size_ h' <= size_ h)%nat -> (size_ h' < length (nodes_ h'))%nat ->
  (forall i, (1 <= i <= size_ h')%nat -> i <> hole -> nodes_ h' !! i = nodes_ h !! i) -> holed h hole -> holed h' hole.
Proof.
  intros Hs Hl E Hh. pose proof Hh as [_ Hf Ho Hk].
  assert (forall i, (1 <= i <= size_ h')%nat -> i <> hole -> val h' i = val h i) as Ev by (intros; unfold val; by rewrite E).
  split; [done|..].
  - intros i Hi Hne. rewrite E by done. apply Hf; lia.
  - intros i Hi H1 H2. rewrite !Ev by lia. apply Ho; lia.
  - intros i Hi H1 H2. rewrite !Ev by lia. apply Hk; lia.
Qed.

Lemma others_ext h h' hole : size_ h' = size_ h ->
  (forall i, (1 <= i <= size_ h)%nat -> i <> hole -> nodes_ h' !! i = nodes_ h !! i) -> others h' hole = others h hole.
Proof.
  intros Es E. unfold others. rewrite Es. apply list_omap_ext, Forall2_same_length_lookup_2; [done|].
  intros j i1 i2 Hi1 Hi2. assert (i1 = i2) as <- by congruence. apply lookup_seq in Hi1. case_bool_decide; [done|].
  unfold val. rewrite E by lia. done.
Qed.

Lemma heap_ok_holed h i : heap_ok h -> (1 <= i <= size_ h)%nat -> holed h i.
Proof.
  intros Hh Hi. pose proof Hh as [Hr Hf Ho _]. split; [done|intros; apply Hf; lia|intros; apply Ho; lia|].
  intros j Hj Hp H2. eapply le_trans; [apply Ho; lia|]. rewrite <- Hp. apply Ho; lia.
Qed.

Lemma heap_ok_val h i : heap_ok h -> (1 <= i <= size_ h)%nat -> exists v, val h i = Some v /\ node_at h i = Ok (mkNode v i).
Proof. intros Hh Hi. destruct (holed_node h 0 i Hh) as (v & ? & ? & _); [lia..|eauto]. Qed.

Lemma contents_others h i v : heap_ok h -> (1 <= i <= size_ h)%nat -> val h i = Some v -> heap_contents h ≡ₚ v :: others h i.
Proof.
  intros Hh Hi E. apply (omap_fill _ _ _ i); [apply NoDup_seq|apply elem_of_seq; lia|..].
  - by rewrite bool_decide_eq_false_2 by lia.
  - by case_bool_decide.
  - intros j [? _]%elem_of_seq Hne. by rewrite !bool_decide_eq_false_2 by lia.
Qed.

(** The heap with one element fewer, the last slot out of reach. *)
Definition shrink h : IntrusiveHeap V := mkHeap (nodes_ h) (size_ h - 1).

Lemma others_shrink h i w : (1 <= i < size_ h)%nat -> val h (size_ h) = Some w -> others h i ≡ₚ w :: others (shrink h) i.
Proof.
  intros Hi E. unfold others. destruct (size_ h) as [|n] eqn:En; [lia|]. rewrite seq_S, omap_app. cbn.
  rewrite En. rewrite bool_decide_eq_false_2 by lia. change (1 + n)%nat with (S n). rewrite E.
  replace (S n - 1)%nat with n by lia. by rewrite Permutation_app_comm.
Qed.

Lemma others_shrink_last h : (1 <= size_ h)%nat -> others h (size_ h) = heap_contents (shrink h).
Proof.
  intros Hi. unfold heap_contents, others. destruct (size_ h) as [|n] eqn:En; [lia|]. rewrite seq_S, omap_app. cbn.
  rewrite En, bool_decide_eq_true_2 by done. rewrite app_nil_r. replace (S n - 1)%nat with n by lia.
  apply list_omap_ext, Forall2_same_length_lookup_2; [done|].
  intros j i1 i2 Hi1 Hi2. assert (i1 = i2) as <- by congruence. apply lookup_seq in Hi1.
  by rewrite !bool_decide_eq_false_2 by lia.
Qed.

Lemma MakeHole_spec h i v : heap_ok h -> (1 <= i <= size_ h)%nat -> val h i = Some v ->
  exists h1, MakeHole h i = Ok h1 /\ size_ h1 = size_ h /\ length (nodes_ h1) = length (nodes_ h) /\
    (forall j, j <> i -> nodes_ h1 !! j = nodes_ h !! j) /\ (forall j, val h1 j = val h j) /\ holed h1 i /\
    heap_contents h ≡ₚ v :: others h1 i.
Proof.
  intros Hh Hi Ev. pose proof (h_room h 0 Hh) as Hr. unfold MakeHole. rewrite check_pos_Ok by done. cbn [mbind res_bind].
  destruct (heap_ok_val h i Hh Hi) as (v' & Ev' & ->). cbn [mbind res_bind value]. eexists. split; [reflexivity|].
  set (h1 := mkHeap _ _).
  assert (forall j, j <> i -> nodes_ h1 !! j = nodes_ h !! j) as Hlk by (intros; by apply list_lookup_insert_ne).
  split_and!; [done|by apply length_insert|done| |..].
  - intros j. destruct (decide (j = i)) as [->|Hne]; [|unfold val; by rewrite Hlk].
    rewrite Ev'. unfold val, h1. cbn [nodes_]. by rewrite list_lookup_insert_eq by lia.
  - apply (holed_ext h); [done|unfold h1; cbn; rewrite length_insert; lia|auto|by apply heap_ok_holed].
  - rewrite (others_ext h h1) by auto. by apply contents_others.
Qed.

(** What removing the element [v] gives. *)
Definition removes h (v : V) (r : res (IntrusiveHeap V)) : Prop :=
  exists h', r = Ok h' /\ heap_ok h' /\ S (size_ h') = size_ h /\ heap_contents h ≡ₚ v :: heap_contents h'.

Lemma fills_vacate h hole v w r i : (size_ h < i)%nat -> fills h hole v r ->
  exists h', (h ← r; Ok (vacate h i)) = Ok h' /\ heap_ok h' /\ size_ h' = size_ h /\ w :: heap_contents h' ≡ₚ w :: v :: others h hole.
Proof.
  intros Hi (h' & -> & Hok & Es & P). exists (vacate h' i). cbn [mbind res_bind]. pose proof (h_room h' 0 Hok).
  assert (forall j, (1 <= j <= size_ h')%nat -> j <> 0%nat -> nodes_ (vacate h' i) !! j = nodes_ h' !! j) as Hlk.
  { intros j Hj _. apply list_lookup_insert_ne. lia. }
  split_and!; [done| |done|].
  - apply (holed_ext h'); [done|cbn; rewrite length_insert; lia|exact Hlk|done].
  - unfold heap_contents. rewrite (others_ext h' (vacate h' i)) by done. by f_equiv.
Qed.

(** The hole that [MakeHole] leaves, once the last slot is out of reach. *)
Lemma make_hole_last h h1 v : holed h1 (size_ h) -> size_ h1 = size_ h -> (1 <= size_ h)%nat ->
  heap_contents h ≡ₚ v :: others h1 (size_ h) -> removes h v (Ok (shrink h1)).
Proof.
  intros Hh E H1 P. exists (shrink h1). pose proof (h_room _ _ Hh) as Hr. split_and!; [done| |cbn; lia|].
  - split; cbn [size_ nodes_ shrink]; [lia|intros i Hi _; apply (h_filled _ _ Hh); lia| |intros; lia].
    intros i Hi _ _. apply (h_order _ _ Hh); lia.
  - rewrite P, <- E. by rewrite others_shrink_last by lia.
Qed.

Lemma make_hole_inner h h1 i v : heap_ok h -> holed h1 i -> size_ h1 = size_ h -> (1 <= i < size_ h)%nat ->
  (forall j, val h1 j = val h j) -> heap_contents h ≡ₚ v :: others h1 i ->
  exists w, node_at (shrink h1) (size_ h) = Ok (mkNode w (size_ h)) /\ holed (shrink h1) i /\
    heap_contents h ≡ₚ v :: w :: others (shrink h1) i.
Proof.
  intros Hok Hh E Hi Hv P. destruct (heap_ok_val h (size_ h) Hok) as (w & Ew & _); [lia|]. exists w.
  destruct (holed_node h1 i (size_ h) Hh) as (w' & En & Ew' & _); [lia..|].
  rewrite Hv, Ew in Ew'. injection Ew' as <-. pose proof (h_room _ _ Hh) as Hr. split_and!; [exact En| |].
  - apply (holed_ext h1); cbn; [lia|lia|done|done].
  - rewrite P. f_equiv. apply others_shrink; [lia|]. by rewrite E, Hv.
Qed.

Lemma fits_below_top h i v w hole : heap_ok h -> (forall j, val hole j = val h j) -> (size_ hole <= size_ h)%nat ->
  (1 <= i)%nat -> val h i = Some v -> leb w v = true -> fits_below hole i w.
Proof.
  intros Hok Hv Hs Hi E Hle j Hj Hj1 Hp. eapply (le_trans _ (Some v)); [exact Hle|]. rewrite <- E, Hv, <- Hp.
  apply (h_order h 0 Hok); lia.
Qed.

Lemma Heap_erase_removes h i v : heap_ok h -> (1 <= i <= size_ h)%nat -> val h i = Some v -> removes h v (Heap_erase h i).
Proof.
  intros Hok Hi E. unfold Heap_erase. rewrite check_pos_Ok by done. cbn [mbind res_bind].
  destruct (MakeHole_spec h i v Hok Hi E) as (h1 & -> & Es & El & Hlk & Hv & Hh & P). cbn [mbind res_bind].
  fold (shrink h1). unfold Heap_empty. cbn [size_ shrink]. rewrite Es.
  destruct (decide (i = size_ h)) as [->|Hne].
  { rewrite (bool_decide_eq_true_2 (size_ h = size_ h)), orb_true_r by done. apply make_hole_last; [done|done|lia|done]. }
  rewrite !bool_decide_eq_false_2 by lia. cbn [orb].
  assert (node_at (shrink h1) i = node_at h1 i) as -> by done.
  destruct (make_hole_inner h h1 i v Hok Hh Es ltac:(lia) Hv P) as (w & -> & Hh2 & P2).
  assert (exists k, node_at h1 i = Ok (mkNode v k)) as [k ->].
  { pose proof (Hv i) as Hvi. rewrite E in Hvi. unfold val in Hvi. unfold node_at.
    destruct (nodes_ h1 !! i) as [[[v' k]|]|]; cbn in Hvi; try done. injection Hvi as ->. by exists k. }
  cbn [mbind res_bind value].
  assert (fills (shrink h1) i w (if leb v w then MoveHoleDownAndFillWithLeafElement (shrink h1) i w
    else MoveHoleUpAndFillWithElement (shrink h1) i w)) as Hf.
  { destruct (leb v w) eqn:Evw; [apply MoveHoleLeaf_fills; [done|cbn; lia]|].
    apply MoveHoleUp_fills; [done|cbn; lia|]. apply (fits_below_top h _ v); [done|done|cbn; lia|lia|done|by apply not_leb]. }
  destruct (fills_vacate (shrink h1) _ _ v _ (size_ h) ltac:(cbn; lia) Hf) as (h' & -> & Hok' & Es' & P').
  exists h'. split_and!; [done|done|rewrite Es'; cbn; lia|by rewrite P2, P'].
Qed.

Lemma Pop_removes h v : heap_ok h -> (1 <= size_ h)%nat -> val h 1 = Some v -> removes h v (Pop h).
Proof.
  intros Hok Hi E. unfold Pop. rewrite bool_decide_eq_true_2 by done. cbn [assert_ mbind res_bind].
  destruct (MakeHole_spec h 1 v Hok ltac:(lia) E) as (h1 & -> & Es & El & Hlk & Hv & Hh & P). cbn [mbind res_bind].
  fold (shrink h1). unfold Heap_empty. cbn [size_ shrink]. rewrite Es. case_bool_decide as E1.
  { assert (size_ h = 1%nat) as E2 by lia. apply make_hole_last; rewrite ?E2; try done; lia. }
  destruct (make_hole_inner h h1 1 v Hok Hh Es ltac:(lia) Hv P) as (w & -> & Hh2 & P2). cbn [mbind res_bind value].
  pose proof (MoveHoleLeaf_fills (shrink h1) 1 w Hh2 ltac:(cbn; lia)) as Hf.
  destruct (fills_vacate (shrink h1) _ _ v _ (size_ h) ltac:(cbn; lia) Hf) as (h' & -> & Hok' & Es' & P').
  exists h'. split_and!; [done|done|rewrite Es'; cbn; lia|by rewrite P2, P'].
Qed.

Lemma Heap_insert_adds h v : heap_ok h ->
  exists h', Heap_insert h v = Ok h' /\ heap_ok h' /\ size_ h' = S (size_ h) /\ heap_contents h' ≡ₚ v :: heap_contents h.
Proof.
  intros Hok. pose proof Hok as [Hr Hf Ho _]. unfold Heap_insert. set (nodes := if bool_decide _ then _ else _).
  set (h0 := mkHeap nodes (S (size_ h))).
  assert (forall i, (1 <= i <= size_ h)%nat -> nodes !! i = nodes_ h !! i) as Hlk.
  { intros i Hi. subst nodes. case_bool_decide; [apply lookup_app_l; lia|done]. }
  assert (S (size_ h) < length nodes)%nat as Hl.
  { subst nodes. case_bool_decide; [rewrite length_app, length_replicate|]; lia. }
  assert (forall i, (1 <= i <= size_ h)%nat -> val h0 i = val h i) as Hv by (intros i Hi; unfold val; cbn; by rewrite Hlk).
  assert (holed h0 (S (size_ h))) as Hh.
  { split; cbn [size_ nodes_ h0]; [done|..].
    - intros i Hi Hne. rewrite Hlk by lia. apply Hf; lia.
    - intros i Hi H1 H2. fold h0. rewrite !Hv by lia. apply Ho; lia.
    - intros i Hi H1 H2. lia. }
  destruct (MoveHoleUp_fills h0 (S (size_ h)) v Hh) as (h' & -> & Hok' & Es & P); [cbn; lia|intros i Hi; cbn in Hi; lia|].
  exists h'. split_and!; [done|done|done|]. rewrite P. f_equiv.
  change (S (size_ h)) with (size_ h0) at 1. rewrite others_shrink_last by (cbn; lia).
  unfold heap_contents. rewrite (others_ext h (shrink h0)); [done|cbn; lia|]. intros i Hi _. by apply Hlk.
Qed.

Lemma ReplaceMin_fills h v : heap_ok h -> (1 <= size_ h)%nat -> fills h 1 v (ReplaceMin h v).
Proof.
  intros Hok Hs. apply MoveHoleDown_fills; [apply heap_ok_holed; [done|lia]|lia|]. intros ?. lia.
Qed.

Lemma ChangeKey_fills h i v : heap_ok h -> (1 <= i <= size_ h)%nat -> fills h i v (ChangeKey h i v).
Proof.
  intros Hok Hi. unfold ChangeKey. destruct (heap_ok_val h i Hok Hi) as (x & Ex & ->). cbn [mbind res_bind value].
  pose proof (heap_ok_holed h i Hok Hi) as Hh.
  destruct (leb x v) eqn:E; [by apply MoveHoleLeaf_fills|]. apply MoveHoleUp_fills; [done..|].
  apply (fits_below_top h _ x); [done|done|done|lia|done|by apply not_leb].
Qed.

Lemma top_le h i : heap_ok h -> (1 <= i <= size_ h)%nat -> le (val h 1) (val h i).
Proof.
  intros Hok. induction i as [i IH] using lt_wf_ind. intros Hi. destruct (decide (i = 1%nat)) as [->|Hne].
  - destruct (heap_ok_val h 1 Hok Hi) as (v & -> & _). apply le_refl.
  - eapply le_trans; [apply (IH (i / 2)%nat); lia|]. apply (h_order h 0 Hok); lia.
Qed.

Lemma Min_least h : heap_ok h -> (1 <= size_ h)%nat ->
  exists m, Min h = Ok m /\ val h 1 = Some m /\ forall u, u ∈ heap_contents h -> leb m u = true.
Proof.
  intros Hok Hs. destruct (heap_ok_val h 1 Hok ltac:(lia)) as (m & Em & En). exists m. unfold Min.
  rewrite bool_decide_eq_true_2 by done. cbn [assert_ mbind res_bind]. rewrite En. split_and!; [done|done|].
  intros u (i & Hi%elem_of_seq & Hx)%list_elem_of_omap. rewrite bool_decide_eq_false_2 in Hx by lia.
  pose proof (top_le h i Hok ltac:(lia)) as Hle. by rewrite Em, Hx in Hle.
Qed.

Lemma Heap_new_ok : heap_ok Heap_new /\ heap_contents Heap_new = [].
Proof. split; [|done]. split; cbn; [lia|intros; lia..]. Qed.

Lemma make_holes_spec n h i : (1 <= i)%nat -> (i + n <= S (size_ h))%nat -> (size_ h < length (nodes_ h))%nat ->
  (forall j, (i <= j < i + n)%nat -> exists x, nodes_ h !! j = Some (Some x)) ->
  exists h', make_holes h i n = Ok h' /\ size_ h' = size_ h /\ length (nodes_ h') = length (nodes_ h).
Proof.
  revert h i. induction n as [|n IH]; intros h i Hi Hs Hl Hf; [by exists h|]. cbn [make_holes]. unfold MakeHole.
  rewrite check_pos_Ok by lia. destruct (Hf i) as [x Ex]; [lia|]. unfold node_at. rewrite Ex. cbn [mbind res_bind].
  match goal with |- context [make_holes ?h1 _ _] =>
    destruct (IH h1 (S i)) as (h' & -> & Es & El); cbn [size_ nodes_]; rewrite ?length_insert; try lia end.
  - intros j Hj. rewrite list_lookup_insert_ne by lia. apply Hf. lia.
  - exists h'. cbn in Es, El. rewrite length_insert in El. done.
Qed.

Lemma Clear_empties h : heap_ok h -> exists h', Clear h = Ok h' /\ heap_ok h' /\ heap_contents h' = [].
Proof.
  intros Hok. pose proof (h_room h 0 Hok). unfold Clear.
  destruct (make_holes_spec (size_ h) h 1) as (h' & -> & Es & El); [lia..| |].
  { intros j Hj. destruct (h_filled h 0 Hok j) as [v E]; [lia..|eauto]. }
  cbn [mbind res_bind]. eexists. split_and!; [done| |done].
  split; cbn [size_ nodes_]; [rewrite length_app, length_take, length_replicate; unfold kMinimumHeapSize; lia|intros; lia..].
Qed.
End Heap.

(** ** The heap is a priority queue with handles *)

(** The calls of a client. *)
Inductive heap_op (V : Type) :=
  | OpInsert (v : V) | OpPop | OpErase (handle : nat) | OpReplaceMin (v : V) | OpChangeKey (handle : nat) (v : V) | OpClear.
Arguments OpInsert {V} v.
Arguments OpPop {V}.
Arguments OpErase {V} handle.
Arguments OpReplaceMin {V} v.
Arguments OpChangeKey {V} handle v.
Arguments OpClear {V}.

Definition heap_step {V} (leb : V -> V -> bool) (h : IntrusiveHeap V) (o : heap_op V) : res (IntrusiveHeap V) :=
  match o with
  | OpInsert v => Heap_insert leb h v
  | OpPop => Pop leb h
  | OpErase i => Heap_erase leb h i
  | OpReplaceMin v => ReplaceMin leb h v
  | OpChangeKey i v => ChangeKey leb h i v
  | OpClear => Clear h
  end.

(** What a client may call: the operations that need an element have one, and the handle
    is that of an element, as the checks demand. *)
Definition heap_pre {V} (h : IntrusiveHeap V) (o : heap_op V) : bool :=
  match o with
  | OpPop | OpReplaceMin _ => bool_decide (1 <= size_ h)%nat
  | OpErase i | OpChangeKey i _ => bool_decide (1 <= i <= size_ h)%nat
  | _ => true
  end.

(** A client that makes legal calls only. *)
Definition heap_run {V} (leb : V -> V -> bool) (os : list (heap_op V)) (r : res (IntrusiveHeap V)) : res (IntrusiveHeap V) :=
  fold_left (fun r o => h ← r; _ ← assert_ (heap_pre h o); heap_step leb h o) os r.

(** What a call does to the contents, as multisets. *)
Definition heap_post {V} (h : IntrusiveHeap V) (o : heap_op V) (h' : IntrusiveHeap V) : Prop :=
  match o with
  | OpInsert v => heap_contents h' ≡ₚ v :: heap_contents h
  | OpPop => exists m, val h 1 = Some m /\ heap_contents h ≡ₚ m :: heap_contents h'
  | OpErase i => exists x, val h i = Some x /\ heap_contents h ≡ₚ x :: heap_contents h'
  | OpReplaceMin v => exists m r, val h 1 = Some m /\ heap_contents h ≡ₚ m :: r /\ heap_contents h' ≡ₚ v :: r
  | OpChangeKey i v => exists x r, val h i = Some x /\ heap_contents h ≡ₚ x :: r /\ heap_contents h' ≡ₚ v :: r
  | OpClear => heap_contents h' = []
  end.

Section Queue.
Context {V : Type} (leb : V -> V -> bool).
Context (leb_total : forall a b, leb a b = true \/ leb b a = true)
        (leb_trans : forall a b c, leb a b = true -> leb b c = true -> leb a c = true).

Lemma fills_post (h : IntrusiveHeap V) i v r : heap_ok leb h -> (1 <= i <= size_ h)%nat -> fills leb h i v r ->
  exists h', r = Ok h' /\ heap_ok leb h' /\
    exists x l, val h i = Some x /\ heap_contents h ≡ₚ x :: l /\ heap_contents h' ≡ₚ v :: l.
Proof.
  intros Hok Hi (h' & -> & Hok' & _ & P). exists h'. split_and!; [done|done|].
  destruct (heap_ok_val leb h i Hok Hi) as (x & Ex & _). exists x, (others h i). split_and!; [done| |done].
  by apply (contents_others leb).
Qed.

Lemma heap_step_ok h o : heap_ok leb h -> heap_pre h o = true ->
  exists h', heap_step leb h o = Ok h' /\ heap_ok leb h' /\ heap_post h o h'.
Proof.
  intros Hok Hpre. destruct o; cbn [heap_step heap_pre heap_post] in *; try apply bool_decide_eq_true_1 in Hpre.
  - destruct (Heap_insert_adds leb leb_total leb_trans h v Hok) as (h' & E & ? & _ & ?); eauto.
  - destruct (heap_ok_val leb h 1 Hok ltac:(lia)) as (m & Em & _).
    destruct (Pop_removes leb leb_total leb_trans h m Hok Hpre Em) as (h' & E & ? & _ & ?); eauto 10.
  - destruct (heap_ok_val leb h handle Hok Hpre) as (m & Em & _).
    destruct (Heap_erase_removes leb leb_total leb_trans h handle m Hok Hpre Em) as (h' & E & ? & _ & ?); eauto 10.
  - apply fills_post; [done|lia|]. by apply ReplaceMin_fills.
  - apply fills_post; [done|done|]. by apply ChangeKey_fills.
  - by apply Clear_empties.
Qed.

(** C23: [IntrusiveHeap] is a priority queue with removal by handle.  Any sequence of
    calls that respects the checks' conditions, from a new heap, runs through without a
    failed check ([FillHole]'s own [is_heap] check among them) and without touching an
    empty or moved-from slot; every element then stands where its handle says, the
    minimum is at the front and not greater than any element, and one more legal call
    changes the contents as its name says. *)
Theorem IntrusiveHeap_queue os h :
  heap_run leb os (Ok Heap_new) = Ok h ->
  (forall i, (1 <= i <= size_ h)%nat -> exists v, nodes_ h !! i = Some (Some (mkNode v i))) /\
  ((1 <= size_ h)%nat -> exists m, Min h = Ok m /\ m ∈ heap_contents h /\ forall u, u ∈ heap_contents h -> leb m u = true) /\
  (forall o, heap_pre h o = true -> exists h', heap_step leb h o = Ok h' /\ heap_post h o h').
Proof.
  intros E. enough (heap_ok leb h) as Hok.
  { split_and!.
    - intros i Hi. apply (h_filled leb h 0 Hok); lia.
    - intros Hs. destruct (Min_least leb leb_total leb_trans h Hok Hs) as (m & Em & Ev & Hm). exists m. split_and!; [done| |done].
      rewrite (contents_others leb h 1 m Hok ltac:(lia) Ev). by left.
    - intros o Hp. destruct (heap_step_ok h o Hok Hp) as (h' & ? & _ & ?). eauto. }
  assert (forall os r, (forall h0, r = Ok h0 -> heap_ok leb h0) ->
    heap_run leb os r = Ok h -> heap_ok leb h) as Hrun; cycle 1.
  { eapply Hrun; [|exact E]. intros h0 [= <-]. apply Heap_new_ok. }
  clear E os. induction os as [|o os IH]; intros r Hr; cbn [heap_run fold_left]; [by apply Hr|]. apply IH.
  intros h0 E0. destruct r as [h1| | |]; try done. cbn [mbind res_bind] in E0.
  destruct (heap_pre h1 o) eqn:Ep; [|done]. cbn [assert_ mbind res_bind] in E0.
  destruct (heap_step_ok h1 o (Hr h1 eq_refl) Ep) as (h' & Eh & ? & _). congruence.
Qed.
End Queue.

Lemma IntrusiveHeap_queue_witness : exists h : IntrusiveHeap Z,
  heap_run Z.leb
    [OpInsert 5; OpInsert 2; OpInsert 8; OpInsert 1; OpInsert 9; OpErase 2; OpPop; OpChangeKey 1 7; OpReplaceMin 10] (Ok Heap_new) = Ok h /\
  exists m, Min h = Ok m /\ m ∈ heap_contents h /\ forall u, u ∈ heap_contents h -> Z.leb m u = true.
Proof.
  eexists. split; [vm_compute; reflexivity|].
  refine (proj1 (proj2 (IntrusiveHeap_queue Z.leb _ _
    [OpInsert 5; OpInsert 2; OpInsert 8; OpInsert 1; OpInsert 9; OpErase 2; OpPop; OpChangeKey 1 7; OpReplaceMin 10] _ _)) _).
  - intros a b. rewrite !Z.leb_le. lia.
  - intros a b c. rewrite !Z.leb_le. lia.
  - vm_compute. reflexivity.
  - cbn. lia.
Defined.
