(* ===== verification/Deque.v ===== *)
(** * The circular deque

    [VectorBuffer<T>] of [base/containers/vector_buffer.h] and [circular_deque<T>] of
    [base/containers/circular_deque.h] of [include/webrtc], built with the checks on.
    A slot of the buffer holds a constructed element or raw memory.  Destroying or moving
    raw memory is undefined; constructing over an element, or freeing a block that holds
    one, would lose it, and the model refuses both.  A request whose size in bytes does
    not fit a [size_t] aborts; [max_count] is the largest count that fits.

    Iterators are those of the deque the call is made on, so the comparisons of their
    parents hold.  Indices are below the capacity and sizes fit a [size_t], so both are
    naturals. *)

From Stdlib Require Import ZifyNat.
From S2P Require Import Prelude.

(** ** [VectorBuffer] *)
Section VectorBuffer.
Context {T : Type} (max_count : nat).
Implicit Types (buf from to : list (option T)).

Definition VectorBuffer_new (count : nat) : res (list (option T)) :=
  _ ← assert_ (bool_decide (count <= max_count)%nat); Ok (replicate count None).

(** [operator\[\]], which also accepts the end. *)
Definition slot buf (i : nat) : res unit := assert_ (bool_decide (i <= length buf)%nat).

(** [new (&buffer_\[i\]) T(v)]. *)
Definition construct buf (i : nat) (v : T) : res (list (option T)) :=
  _ ← slot buf i;
  match buf !! i with Some None => Ok (<[i := Some v]> buf) | _ => Undef end.

(** The loop of [DestructRange], over [n] elements from index [b]. *)
Fixpoint destruct_loop buf (b n : nat) : res (list (option T)) :=
  match n with
  | O => Ok buf
  | S n => match buf !! b with
           | Some (Some _) => destruct_loop (<[b := None]> buf) (S b) n
           | _ => Undef
           end
  end.

Definition VB_DestructRange buf (b e : nat) : res (list (option T)) :=
  _ ← slot buf b; _ ← slot buf e; _ ← assert_ (bool_decide (b <= e)%nat);
  destruct_loop buf b (e - b).

(** The loop of [MoveRange] into another block. *)
Fixpoint move_loop from (b n : nat) to (t : nat) : res (list (option T) * list (option T)) :=
  match n with
  | O => Ok (from, to)
  | S n => match from !! b, to !! t with
           | Some (Some v), Some None => move_loop (<[b := None]> from) (S b) n (<[t := Some v]> to) (S t)
           | _, _ => Undef
           end
  end.

Definition MoveRange from (b e : nat) to (t : nat) : res (list (option T) * list (option T)) :=
  _ ← slot from b; _ ← slot from e; _ ← slot to t; move_loop from b (e - b) to t.

(** [MoveRange(&buffer_\[s\], &buffer_\[s + 1\], &buffer_\[t\])] inside one block: the ranges
    overlap exactly when [s = t]. *)
Definition MoveOne buf (s t : nat) : res (list (option T)) :=
  _ ← slot buf s; _ ← slot buf (s + 1); _ ← slot buf t;
  _ ← assert_ (negb (bool_decide (s = t)));
  match buf !! s, buf !! t with
  | Some (Some v), Some None => Ok (<[s := None]> (<[t := Some v]> buf))
  | _, _ => Undef
  end.

(** [free(buffer_)] of a block without elements. *)
Definition free_block buf : res unit := defined (forallb (fun o => negb (bool_decide (is_Some o))) buf).
End VectorBuffer.

Record circular_deque (T : Type) := mkDeque {
  buffer_ : list (option T); begin_ : nat; end_ : nat; generation_ : Z
}.
Arguments mkDeque {T} buffer_ begin_ end_ generation_.
Arguments buffer_ {T} _.
Arguments begin_ {T} _.
Arguments end_ {T} _.
Arguments generation_ {T} _.

(** [circular_deque_const_iterator]: an index into the buffer and the generation of the
    deque when it was made. *)
Record iterator := mkIter { index_ : nat; created_generation_ : Z }.

Definition kCircularBufferInitialCapacity : nat := 3.

Section Deque.
Context {T : Type} (max_count : nat).
Implicit Types (d : circular_deque T) (v : T) (it : iterator).

Definition cap d : nat := length (buffer_ d).

Definition Deque_new : circular_deque T := mkDeque [] 0 0 0.

Definition capacity d : nat := if bool_decide (cap d = 0%nat) then 0 else cap d - 1.
Definition Deque_empty d : bool := bool_decide (begin_ d = end_ d).
Definition Deque_size d : nat :=
  if bool_decide (begin_ d <= end_ d)%nat then end_ d - begin_ d else cap d - begin_ d + end_ d.

Definition IncrementGeneration d : circular_deque T :=
  mkDeque (buffer_ d) (begin_ d) (end_ d) (u64 (generation_ d + 1)).

(** ** Checks *)
Definition CheckValidIndex d (i : nat) : res unit :=
  assert_ (if bool_decide (begin_ d <= end_ d)%nat
           then bool_decide (begin_ d <= i)%nat && bool_decide (i < end_ d)%nat
           else bool_decide (begin_ d <= i)%nat && bool_decide (i < cap d)%nat || bool_decide (i < end_ d)%nat).

Definition CheckValidIndexOrEnd d (i : nat) : res unit :=
  if bool_decide (i = end_ d) then Ok tt else CheckValidIndex d i.

Definition CheckUnstableUsage d it : res unit := assert_ (created_generation_ it =? generation_ d).
Definition CheckComparable (a b : iterator) : res unit := assert_ (created_generation_ a =? created_generation_ b).

(** ** Iterators *)
Definition iter_at d (i : nat) : iterator := mkIter i (generation_ d).
Definition Deque_begin d : iterator := iter_at d (begin_ d).
Definition Deque_end d : iterator := iter_at d (end_ d).

Definition OffsetFromBegin d (i : nat) : nat :=
  if bool_decide (begin_ d <= i)%nat then i - begin_ d else cap d - begin_ d + i.

Definition deref d it : res T :=
  _ ← CheckUnstableUsage d it; _ ← CheckValidIndex d (index_ it);
  _ ← slot (buffer_ d) (index_ it);
  match buffer_ d !! index_ it with Some (Some v) => Ok v | _ => Undef end.

Definition Increment d it : res iterator :=
  _ ← CheckUnstableUsage d it; _ ← CheckValidIndex d (index_ it);
  let i := (index_ it + 1)%nat in
  Ok (mkIter (if bool_decide (i = cap d) then 0 else i) (created_generation_ it)).

Definition Decrement d it : res iterator :=
  _ ← CheckUnstableUsage d it; _ ← CheckValidIndexOrEnd d (index_ it);
  Ok (mkIter (if bool_decide (index_ it = 0%nat) then cap d - 1 else index_ it - 1) (created_generation_ it)).

Definition Add d it (delta : Z) : res iterator :=
  _ ← CheckUnstableUsage d it;
  _ ← (if delta <=? 0 then CheckValidIndexOrEnd d (index_ it) else CheckValidIndex d (index_ it));
  if delta =? 0 then Ok it else
  let new_offset := Z.of_nat (OffsetFromBegin d (index_ it)) + delta in
  _ ← assert_ ((0 <=? new_offset) && (new_offset <=? Z.of_nat (Deque_size d)));
  _ ← defined (negb (bool_decide (cap d = 0%nat)));
  Ok (mkIter ((Z.to_nat new_offset + begin_ d) mod cap d) (created_generation_ it)).

Definition iter_diff d (a b : iterator) : res Z :=
  _ ← CheckComparable a b; Ok (Z.of_nat (OffsetFromBegin d (index_ a)) - Z.of_nat (OffsetFromBegin d (index_ b))).
Definition iter_eq (a b : iterator) : res bool :=
  _ ← CheckComparable a b; Ok (bool_decide (index_ a = index_ b)).
Definition iter_lt d (a b : iterator) : res bool :=
  _ ← CheckComparable a b; Ok (bool_decide (OffsetFromBegin d (index_ a) < OffsetFromBegin d (index_ b))%nat).
Definition iter_gt d (a b : iterator) : res bool :=
  _ ← CheckComparable a b; Ok (bool_decide (OffsetFromBegin d (index_ b) < OffsetFromBegin d (index_ a))%nat).
Definition iter_le d (a b : iterator) : res bool := r ← iter_gt d a b; Ok (negb r).
Definition iter_ge d (a b : iterator) : res bool := r ← iter_lt d a b; Ok (negb r).

Definition ValidateIterator d it : res unit := CheckUnstableUsage d it.

(** ** Memory management *)
Definition MoveBuffer (from : list (option T)) (from_begin from_end : nat) (to : list (option T))
  : res (list (option T) * list (option T) * nat * nat) :=
  if bool_decide (from_begin < from_end)%nat then
    '(from, to) ← MoveRange from from_begin from_end to 0;
    Ok (from, to, 0%nat, (from_end - from_begin)%nat)
  else if bool_decide (from_end < from_begin)%nat then
    '(from, to) ← MoveRange from from_begin (length from) to 0;
    let right_size := (length from - from_begin)%nat in
    '(from, to) ← MoveRange from 0 from_end to right_size;
    Ok (from, to, 0%nat, (right_size + from_end)%nat)
  else Ok (from, to, 0%nat, 0%nat).

Definition SetCapacityTo d (new_capacity : nat) : res (circular_deque T) :=
  new_buffer ← VectorBuffer_new max_count (new_capacity + 1);
  '(from, to, b, e) ← MoveBuffer (buffer_ d) (begin_ d) (end_ d) new_buffer;
  _ ← free_block from;
  Ok (mkDeque to b e (generation_ d)).

Definition ExpandCapacityIfNecessary d (additional_elts : nat) : res (circular_deque T) :=
  let min_new_capacity := (Deque_size d + additional_elts)%nat in
  if bool_decide (min_new_capacity <= capacity d)%nat then Ok d else
  let min_new_capacity := Nat.max min_new_capacity kCircularBufferInitialCapacity in
  SetCapacityTo d (Nat.max min_new_capacity (capacity d + capacity d / 4)).

Definition ShrinkCapacityIfNecessary d : res (circular_deque T) :=
  if bool_decide (capacity d <= kCircularBufferInitialCapacity)%nat then Ok d else
  let sz := Deque_size d in
  let empty_spaces := (capacity d - sz)%nat in
  if bool_decide (empty_spaces < sz)%nat then Ok d else
  let new_capacity := Nat.max kCircularBufferInitialCapacity (sz + sz / 4) in
  if bool_decide (new_capacity < capacity d)%nat then SetCapacityTo d new_capacity else Ok d.

Definition DestructRange d (b e : nat) : res (circular_deque T) :=
  let set buf := mkDeque buf (begin_ d) (end_ d) (generation_ d) in
  if bool_decide (e = b) then Ok d
  else if bool_decide (b < e)%nat then
    buf ← VB_DestructRange (buffer_ d) b e; Ok (set buf)
  else
    buf ← VB_DestructRange (buffer_ d) b (cap d);
    buf ← VB_DestructRange buf 0 e; Ok (set buf).

Definition ClearRetainCapacity d : res (circular_deque T) :=
  d ← DestructRange d (begin_ d) (end_ d);
  Ok (IncrementGeneration (mkDeque (buffer_ d) 0 0 (generation_ d))).

Definition reserve d (new_capacity : nat) : res (circular_deque T) :=
  if bool_decide (capacity d < new_capacity)%nat then SetCapacityTo d new_capacity else Ok d.

(** An empty deque keeps [begin_] and [end_] although its buffer is gone. *)
Definition shrink_to_fit d : res (circular_deque T) :=
  if Deque_empty d then
    if bool_decide (cap d = 0%nat) then Ok d
    else _ ← free_block (buffer_ d); Ok (mkDeque [] (begin_ d) (end_ d) (generation_ d))
  else SetCapacityTo d (Deque_size d).

Definition Deque_clear d : res (circular_deque T) :=
  d ← ClearRetainCapacity d; _ ← free_block (buffer_ d); Ok (mkDeque [] (begin_ d) (end_ d) (generation_ d)).

(** ** Accessors *)
Definition at_ d (i : nat) : res T :=
  _ ← assert_ (bool_decide (i < Deque_size d)%nat);
  let right_size := (cap d - begin_ d)%nat in
  let j := if bool_decide (begin_ d <= end_ d)%nat || bool_decide (i < right_size)%nat
           then (begin_ d + i)%nat else (i - right_size)%nat in
  _ ← slot (buffer_ d) j;
  match buffer_ d !! j with Some (Some v) => Ok v | _ => Undef end.

Definition front d : res T :=
  _ ← assert_ (negb (Deque_empty d)); _ ← slot (buffer_ d) (begin_ d);
  match buffer_ d !! begin_ d with Some (Some v) => Ok v | _ => Undef end.

Definition back d : res T :=
  _ ← assert_ (negb (Deque_empty d)); it ← Decrement d (Deque_end d); deref d it.

(** ** Begin and end *)

(** Both return the new element. *)
Definition emplace_front d v : res (circular_deque T) :=
  d ← ExpandCapacityIfNecessary d 1;
  let b := if bool_decide (begin_ d = 0%nat) then (cap d - 1)%nat else (begin_ d - 1)%nat in
  let d := IncrementGeneration (mkDeque (buffer_ d) b (end_ d) (generation_ d)) in
  buf ← construct (buffer_ d) b v;
  let d := mkDeque buf b (end_ d) (generation_ d) in
  _ ← front d;
  Ok d.

Definition emplace_back d v : res (circular_deque T) :=
  d ← ExpandCapacityIfNecessary d 1;
  buf ← construct (buffer_ d) (end_ d) v;
  let e := if bool_decide (end_ d = (cap d - 1)%nat) then 0%nat else (end_ d + 1)%nat in
  let d := IncrementGeneration (mkDeque buf (begin_ d) e (generation_ d)) in
  _ ← back d;
  Ok d.

Definition push_front d v : res (circular_deque T) := emplace_front d v.
Definition push_back d v : res (circular_deque T) := emplace_back d v.

Definition pop_front d : res (circular_deque T) :=
  _ ← assert_ (negb (bool_decide (Deque_size d = 0%nat)));
  buf ← VB_DestructRange (buffer_ d) (begin_ d) (begin_ d + 1);
  let b := (begin_ d + 1)%nat in
  let b := if bool_decide (b = length buf) then 0%nat else b in
  d ← ShrinkCapacityIfNecessary (mkDeque buf b (end_ d) (generation_ d));
  Ok (IncrementGeneration d).

Definition pop_back d : res (circular_deque T) :=
  _ ← assert_ (negb (bool_decide (Deque_size d = 0%nat)));
  let e := if bool_decide (end_ d = 0%nat) then (cap d - 1)%nat else (end_ d - 1)%nat in
  buf ← VB_DestructRange (buffer_ d) e (e + 1);
  d ← ShrinkCapacityIfNecessary (mkDeque buf (begin_ d) e (generation_ d));
  Ok (IncrementGeneration d).

(** ** Size and assignment *)

(** [emplace_back] or [push_front] for each of the values. *)
Fixpoint emplace_backs d (vs : list T) : res (circular_deque T) :=
  match vs with [] => Ok d | v :: vs => d ← emplace_back d v; emplace_backs d vs end.
Fixpoint push_fronts d (vs : list T) : res (circular_deque T) :=
  match vs with [] => Ok d | v :: vs => d ← push_front d v; push_fronts d vs end.

(** [while (size() < count) emplace_back(value)]: every round adds one element. *)
Fixpoint resize_loop (fuel : nat) d (count : nat) v : res (circular_deque T) :=
  match fuel with
  | O => Undef
  | S fuel => if bool_decide (Deque_size d < count)%nat
              then d ← emplace_back d v; resize_loop fuel d count v else Ok d
  end.

Definition resize d (count : nat) v : res (circular_deque T) :=
  d ← (if bool_decide (Deque_size d < count)%nat then
         d ← ExpandCapacityIfNecessary d (count - Deque_size d);
         resize_loop (S count) d count v
       else if bool_decide (count < Deque_size d)%nat then
         _ ← defined (negb (bool_decide (cap d = 0%nat)));
         let new_end := ((begin_ d + count) mod cap d)%nat in
         d ← DestructRange d new_end (end_ d);
         ShrinkCapacityIfNecessary (mkDeque (buffer_ d) (begin_ d) new_end (generation_ d))
       else Ok d);
  Ok (IncrementGeneration d).

Definition assign_fill d (count : nat) v : res (circular_deque T) :=
  d ← ClearRetainCapacity d;
  d ← reserve d count;
  d ← emplace_backs d (replicate count v);
  Ok (IncrementGeneration d).

Definition assign_range d (vs : list T) : res (circular_deque T) :=
  d ← ClearRetainCapacity d;
  d ← emplace_backs d vs;
  Ok (IncrementGeneration d).

(** ** Insertion and removal *)

(** The loop of [MakeRoomFor], from right to left. *)
Fixpoint room_loop (fuel : nat) d (src dest insert_begin : iterator) : res (circular_deque T) :=
  match fuel with
  | O => Undef
  | S fuel =>
      stop ← iter_eq src insert_begin;
      if (stop : bool) then Ok d else
      src ← Decrement d src;
      dest ← Decrement d dest;
      buf ← MoveOne (buffer_ d) (index_ src) (index_ dest);
      room_loop fuel (mkDeque buf (begin_ d) (end_ d) (generation_ d)) src dest insert_begin
  end.

(** The deque, and the begin and the end of the opened positions. *)
Definition MakeRoomFor d (count : nat) (insert_begin : iterator) : res (circular_deque T * iterator * iterator) :=
  if bool_decide (count = 0%nat) then Ok (d, insert_begin, insert_begin) else
  let begin_offset := OffsetFromBegin d (index_ insert_begin) in
  d ← ExpandCapacityIfNecessary d count;
  _ ← defined (negb (bool_decide (cap d = 0%nat)));
  let insert_begin := mkIter ((begin_ d + begin_offset) mod cap d) (created_generation_ insert_begin) in
  let insert_end := iter_at d ((index_ insert_begin + count) mod cap d) in
  let src := Deque_end d in
  let d := mkDeque (buffer_ d) (begin_ d) ((end_ d + count) mod cap d) (generation_ d) in
  let dest := Deque_end d in
  d ← room_loop (S (cap d)) d src dest insert_begin;
  Ok (d, insert_begin, insert_end).

(** [while (insert_cur < insert_end)], which constructs the values in turn; it needs no
    more of them than it is given. *)
Fixpoint fill_loop d (insert_cur insert_end : iterator) (vs : list T) : res (circular_deque T) :=
  more ← iter_lt d insert_cur insert_end;
  if negb more then Ok d else
  match vs with
  | [] => Undef
  | v :: vs =>
      buf ← construct (buffer_ d) (index_ insert_cur) v;
      let d := mkDeque buf (begin_ d) (end_ d) (generation_ d) in
      insert_cur ← Increment d insert_cur;
      fill_loop d insert_cur insert_end vs
  end.

Definition insert_fill d (pos : iterator) (count : nat) v : res (circular_deque T) :=
  _ ← ValidateIterator d pos;
  first ← iter_eq pos (Deque_begin d);
  if (first : bool) then
    d ← ExpandCapacityIfNecessary d count; push_fronts d (replicate count v)
  else
    '(d, insert_cur, insert_end) ← MakeRoomFor d count (iter_at d (index_ pos));
    d ← fill_loop d insert_cur insert_end (replicate count v);
    Ok (IncrementGeneration d).

Definition insert_range d (pos : iterator) (vs : list T) : res (circular_deque T) :=
  _ ← ValidateIterator d pos;
  let inserted_items := length vs in
  if bool_decide (inserted_items = 0%nat) then Ok d else
  first ← iter_eq pos (Deque_begin d);
  '(d, insert_cur, insert_end) ←
    (if (first : bool) then
       d ← ExpandCapacityIfNecessary d inserted_items;
       let insert_end := Deque_begin d in
       _ ← defined (negb (bool_decide (cap d = 0%nat)));
       let d := mkDeque (buffer_ d) ((begin_ d + cap d - inserted_items) mod cap d) (end_ d) (generation_ d) in
       Ok (d, Deque_begin d, insert_end)
     else MakeRoomFor d inserted_items (iter_at d (index_ pos)));
  d ← fill_loop d insert_cur insert_end vs;
  Ok (IncrementGeneration d).

Definition emplace d (pos : iterator) v : res (circular_deque T * iterator) :=
  _ ← ValidateIterator d pos;
  first ← iter_eq pos (Deque_begin d);
  if (first : bool) then d ← emplace_front d v; Ok (d, Deque_begin d)
  else
    let d := IncrementGeneration d in
    '(d, insert_begin, _) ← MakeRoomFor d 1 (iter_at d (index_ pos));
    buf ← construct (buffer_ d) (index_ insert_begin) v;
    Ok (mkDeque buf (begin_ d) (end_ d) (generation_ d), insert_begin).

(** The loop of [erase], from left to right; the deque and [move_dest]. *)
Fixpoint erase_loop (fuel : nat) d (move_src move_src_end move_dest : iterator) : res (circular_deque T * iterator) :=
  match fuel with
  | O => Undef
  | S fuel =>
      more ← iter_lt d move_src move_src_end;
      if negb more then Ok (d, move_dest) else
      buf ← MoveOne (buffer_ d) (index_ move_src) (index_ move_dest);
      let d := mkDeque buf (begin_ d) (end_ d) (generation_ d) in
      move_src ← Increment d move_src;
      move_dest ← Increment d move_dest;
      erase_loop fuel d move_src move_src_end move_dest
  end.

Definition erase_range d (first last : iterator) : res (circular_deque T * iterator) :=
  _ ← ValidateIterator d first;
  _ ← ValidateIterator d last;
  let d := IncrementGeneration d in
  let with_buffer buf := mkDeque buf (begin_ d) (end_ d) (generation_ d) in
  if bool_decide (index_ first = index_ last) then Ok (d, iter_at d (index_ first)) else
  buf ← (if bool_decide (index_ first < index_ last)%nat then VB_DestructRange (buffer_ d) (index_ first) (index_ last)
         else buf ← VB_DestructRange (buffer_ d) (index_ first) (cap d); VB_DestructRange buf 0 (index_ last));
  let d := with_buffer buf in
  if bool_decide (index_ first = begin_ d) then
    Ok (mkDeque (buffer_ d) (index_ last) (end_ d) (generation_ d), iter_at d (index_ last))
  else
    '(d, move_dest) ← erase_loop (S (cap d)) d (iter_at d (index_ last)) (Deque_end d) (iter_at d (index_ first));
    let d := mkDeque (buffer_ d) (begin_ d) (index_ move_dest) (generation_ d) in
    Ok (d, iter_at d (index_ first)).

Definition erase d (pos : iterator) : res (circular_deque T * iterator) :=
  last ← Add d pos 1; erase_range d pos last.

(** ** Whole deques *)

(** Reading a deque through its iterators: [for (; first != last; ++first) *first]. *)
Fixpoint read_loop (fuel : nat) d (first last : iterator) : res (list T) :=
  match fuel with
  | O => Undef
  | S fuel =>
      stop ← iter_eq first last;
      if (stop : bool) then Ok [] else
      v ← deref d first; first ← Increment d first;
      vs ← read_loop fuel d first last; Ok (v :: vs)
  end.
Definition read d : res (list T) := read_loop (S (cap d)) d (Deque_begin d) (Deque_end d).

Definition Deque_copy (other : circular_deque T) : res (circular_deque T) :=
  buf ← VectorBuffer_new max_count (Deque_size other + 1);
  vs ← read other;
  assign_range (mkDeque buf 0 0 0) vs.

(** The new deque, and what is left of the other. *)
Definition Deque_move (other : circular_deque T) : circular_deque T * circular_deque T :=
  (mkDeque (buffer_ other) (begin_ other) (end_ other) 0, mkDeque [] 0 0 (generation_ other)).

Definition Deque_assign d (other : circular_deque T) : res (circular_deque T) :=
  d ← reserve d (Deque_size other);
  vs ← read other;
  assign_range d vs.

Definition Deque_move_assign d (other : circular_deque T) : res (circular_deque T * circular_deque T) :=
  d ← ClearRetainCapacity d;
  _ ← free_block (buffer_ d);
  Ok (IncrementGeneration (mkDeque (buffer_ other) (begin_ other) (end_ other) (generation_ d)),
      mkDeque [] 0 0 (generation_ other)).

Definition Deque_swap d (other : circular_deque T) : circular_deque T * circular_deque T :=
  (IncrementGeneration (mkDeque (buffer_ other) (begin_ other) (end_ other) (generation_ d)),
   mkDeque (buffer_ d) (begin_ d) (end_ d) (generation_ other)).

Definition Deque_delete d : res unit :=
  d ← DestructRange d (begin_ d) (end_ d); free_block (buffer_ d).
End Deque.

(** ** Positions

    A logical position [k], counted from the beginning, is the index [wrap c (b + k)] of
    the buffer; [off c b i] is the logical position of index [i]. *)
Definition wrap (c n : nat) : nat := if bool_decide (n < c)%nat then n else n - c.
Definition off (c b i : nat) : nat := if bool_decide (b <= i)%nat then i - b else c - b + i.

Ltac positions := unfold wrap, off in *; repeat case_bool_decide; try lia.

Lemma mod_wrap c n : (0 < c)%nat -> (n < 2 * c)%nat -> (n mod c)%nat = wrap c n.
Proof.
  intros Hc Hn. unfold wrap. case_bool_decide; [by apply Nat.mod_small|].
  rewrite <- (Nat.mod_small (n - c) c) by lia. replace n with ((n - c) + 1 * c)%nat at 1 by lia.
  by rewrite Nat.Div0.mod_add.
Qed.

Lemma off_wrap c b k : (b < c)%nat -> (k < c)%nat -> off c b (wrap c (b + k)) = k.
Proof. intros. positions. Qed.
Lemma wrap_off c b i : (b < c)%nat -> (i < c)%nat -> wrap c (b + off c b i) = i.
Proof. intros. positions. Qed.
Lemma off_lt c b i : (b < c)%nat -> (i < c)%nat -> (off c b i < c)%nat.
Proof. intros. positions. Qed.
Lemma wrap_lt c b k : (b < c)%nat -> (k < c)%nat -> (wrap c (b + k) < c)%nat.
Proof. intros. positions. Qed.
Lemma off_shift c b n i : (b < c)%nat -> (i < c)%nat -> (n < c)%nat ->
  off c b i = wrap c (off c (wrap c (b + n)) i + n).
Proof. intros. positions. Qed.
Lemma wrap_inj c b j k : (b < c)%nat -> (j < c)%nat -> (k < c)%nat -> wrap c (b + j) = wrap c (b + k) -> j = k.
Proof. intros. positions. Qed.

Section Memory.
Context {T : Type}.
Implicit Types (buf from to : list (option T)).

Lemma slot_Ok buf i : (i <= length buf)%nat -> slot buf i = Ok tt.
Proof. intros. unfold slot. by rewrite bool_decide_eq_true_2. Qed.

Lemma construct_Ok buf i v : buf !! i = Some None -> construct buf i v = Ok (<[i := Some v]> buf).
Proof.
  intros E. unfold construct. rewrite slot_Ok by (apply lookup_lt_Some in E; lia). cbn [mbind res_bind]. by rewrite E.
Qed.

Lemma destruct_loop_spec n buf b : (forall i, (b <= i < b + n)%nat -> exists v, buf !! i = Some (Some v)) ->
  exists buf', destruct_loop buf b n = Ok buf' /\ length buf' = length buf /\
    forall i, buf' !! i = if bool_decide (b <= i < b + n)%nat then Some None else buf !! i.
Proof.
  revert buf b. induction n as [|n IH]; intros buf b H.
  - exists buf. split_and!; [done|done|]. intros i. by rewrite bool_decide_eq_false_2 by lia.
  - destruct (H b) as [v E]; [lia|]. cbn [destruct_loop]. rewrite E. pose proof (lookup_lt_Some _ _ _ E).
    destruct (IH (<[b := None]> buf) (S b)) as (buf' & -> & El & Hl).
    { intros i Hi. rewrite list_lookup_insert_ne by lia. apply H. lia. }
    rewrite length_insert in El. exists buf'. split_and!; [done|done|]. intros i. rewrite Hl.
    destruct (decide (i = b)) as [->|Hne].
    + rewrite list_lookup_insert_eq by lia. repeat case_bool_decide; try done; lia.
    + rewrite list_lookup_insert_ne by done. repeat case_bool_decide; try done; lia.
Qed.

Lemma VB_DestructRange_spec buf b e : (b <= e <= length buf)%nat ->
  (forall i, (b <= i < e)%nat -> exists v, buf !! i = Some (Some v)) ->
  exists buf', VB_DestructRange buf b e = Ok buf' /\ length buf' = length buf /\
    forall i, buf' !! i = if bool_decide (b <= i < e)%nat then Some None else buf !! i.
Proof.
  intros Hb H. unfold VB_DestructRange. rewrite !slot_Ok by lia. cbn [mbind res_bind].
  rewrite bool_decide_eq_true_2 by lia. cbn [assert_ mbind res_bind].
  destruct (destruct_loop_spec (e - b) buf b) as (buf' & -> & El & Hl); [intros; apply H; lia|].
  exists buf'. split_and!; [done|done|]. intros i. rewrite Hl. by replace (b + (e - b))%nat with e by lia.
Qed.

Lemma move_loop_spec n from b to t : (forall i, (i < n)%nat -> exists v, from !! (b + i)%nat = Some (Some v)) ->
  (forall i, (i < n)%nat -> to !! (t + i)%nat = Some None) ->
  exists from' to', move_loop from b n to t = Ok (from', to') /\ length from' = length from /\ length to' = length to /\
    (forall i, from' !! i = if bool_decide (b <= i < b + n)%nat then Some None else from !! i) /\
    (forall i, to' !! i = if bool_decide (t <= i < t + n)%nat then from !! (b + (i - t))%nat else to !! i).
Proof.
  revert from b to t. induction n as [|n IH]; intros from b to t Hf Ht.
  - exists from, to. split_and!; try done; intros i; by rewrite bool_decide_eq_false_2 by lia.
  - destruct (Hf 0%nat) as [v Ev]; [lia|]. pose proof (Ht 0%nat ltac:(lia)) as Et. rewrite Nat.add_0_r in Ev, Et.
    pose proof (lookup_lt_Some _ _ _ Ev). pose proof (lookup_lt_Some _ _ _ Et). cbn [move_loop]. rewrite Ev, Et.
    destruct (IH (<[b := None]> from) (S b) (<[t := Some v]> to) (S t)) as (from' & to' & -> & E1 & E2 & H1 & H2).
    { intros i Hi. rewrite list_lookup_insert_ne by lia. replace (S b + i)%nat with (b + S i)%nat by lia. apply Hf. lia. }
    { intros i Hi. rewrite list_lookup_insert_ne by lia. replace (S t + i)%nat with (t + S i)%nat by lia. apply Ht. lia. }
    rewrite length_insert in E1, E2. exists from', to'. split_and!; [done..| |]; intros i.
    + rewrite H1. destruct (decide (i = b)) as [->|Hne].
      * rewrite list_lookup_insert_eq by lia. repeat case_bool_decide; try done; lia.
      * rewrite list_lookup_insert_ne by done. repeat case_bool_decide; try done; lia.
    + rewrite H2. destruct (decide (i = t)) as [->|Hne].
      * rewrite bool_decide_eq_false_2, bool_decide_eq_true_2 by lia. rewrite list_lookup_insert_eq by lia.
        by rewrite Nat.sub_diag, Nat.add_0_r.
      * rewrite (list_lookup_insert_ne to) by done. repeat case_bool_decide; try done; try lia.
        rewrite list_lookup_insert_ne by lia. f_equal. lia.
Qed.

Lemma move_loop_length n from b to t from' to' : move_loop from b n to t = Ok (from', to') -> length from' = length from.
Proof.
  revert from b to t. induction n as [|n IH]; intros from b to t E; cbn [move_loop] in E; [by simplify_eq|].
  destruct (from !! b) as [[v|]|], (to !! t) as [[]|]; try done. apply IH in E. by rewrite length_insert in E.
Qed.

Lemma MoveRange_length from b e to t from' to' : MoveRange from b e to t = Ok (from', to') -> length from' = length from.
Proof. unfold MoveRange. intros E. inv_res. by eapply move_loop_length. Qed.
End Memory.

(** ** The deque as a list *)
Section Spec.
Context {T : Type} (max_count : nat).
Implicit Types (d : circular_deque T) (l vs : list T) (f : nat -> option T).

(** The deque has [n] elements. *)
Definition frame d (n : nat) : Prop :=
  (begin_ d < cap d)%nat /\ (n < cap d)%nat /\ end_ d = wrap (cap d) (begin_ d + n).

(** What the logical positions hold, those past the end included. *)
Definition view d f : Prop := forall i, (i < cap d)%nat -> buffer_ d !! i = Some (f (off (cap d) (begin_ d) i)).

(** The deque holds [l], and its other slots are raw memory. *)
Definition rep d l : Prop :=
  (cap d <= max_count)%nat /\
  (cap d = 0%nat /\ l = [] /\ begin_ d = end_ d \/ frame d (length l) /\ view d (fun k => l !! k)).

Lemma view_at d f k : (begin_ d < cap d)%nat -> view d f -> (k < cap d)%nat ->
  buffer_ d !! wrap (cap d) (begin_ d + k) = Some (f k).
Proof. intros Hb Hv Hk. rewrite Hv by (by apply wrap_lt). by rewrite off_wrap. Qed.

Lemma view_ext d f g : (begin_ d < cap d)%nat -> view d f -> (forall k, (k < cap d)%nat -> f k = g k) -> view d g.
Proof. intros Hb Hv E i Hi. rewrite Hv by done. by rewrite E by (by apply off_lt). Qed.

(** One slot changes. *)
Lemma view_insert d f k o : (begin_ d < cap d)%nat -> view d f -> (k < cap d)%nat ->
  view (mkDeque (<[wrap (cap d) (begin_ d + k) := o]> (buffer_ d)) (begin_ d) (end_ d) (generation_ d))
    (fun j => if bool_decide (j = k) then o else f j).
Proof.
  intros Hb Hv Hk i. set (d' := mkDeque _ _ _ _). assert (cap d' = cap d) as -> by (unfold cap; cbn; apply length_insert).
  cbn [buffer_ begin_ d']. intros Hi. case_bool_decide as E.
  - subst k. rewrite wrap_off by done. by apply list_lookup_insert_eq.
  - rewrite list_lookup_insert_ne by (intros <-; apply E; by rewrite off_wrap). by apply Hv.
Qed.

(** The beginning moves by [n] positions. *)
Lemma view_shift d f n e g : (begin_ d < cap d)%nat -> view d f -> (n < cap d)%nat ->
  view (mkDeque (buffer_ d) (wrap (cap d) (begin_ d + n)) e g) (fun k => f (wrap (cap d) (k + n))).
Proof.
  intros Hb Hv Hn i Hi. unfold cap in *. cbn [buffer_ begin_] in *. rewrite Hv by done. unfold cap. by rewrite <- off_shift.
Qed.

Lemma frame_size d n : frame d n -> Deque_size d = n.
Proof. intros (Hb & Hn & He). unfold Deque_size. rewrite He. positions. Qed.

Lemma rep_size d l : rep d l -> Deque_size d = length l.
Proof.
  intros [_ [(Hc & -> & E)|[Hf _]]]; [|by apply frame_size]. unfold Deque_size. rewrite E.
  rewrite bool_decide_eq_true_2 by lia. cbn. lia.
Qed.

Lemma rep_empty d l : rep d l -> Deque_empty d = bool_decide (l = []).
Proof.
  intros [_ [(Hc & -> & E)|[(Hb & Hn & He) _]]]; unfold Deque_empty.
  - by rewrite E, !bool_decide_eq_true_2.
  - apply bool_decide_ext. rewrite He. destruct l; cbn [length] in *; [split; [done|]; positions|split; [|done]; positions].
Qed.

Lemma rep_capacity d l : rep d l -> (length l <= capacity d)%nat.
Proof.
  intros [_ [(Hc & -> & E)|[(Hb & Hn & He) _]]]; unfold capacity; [cbn; lia|]. rewrite bool_decide_eq_false_2; lia.
Qed.

Lemma new_rep : rep Deque_new [].
Proof. split; [cbn; lia|]. by left. Qed.

(** Reallocation. *)
Lemma view_live d l i : view d (fun k => l !! k) -> (i < cap d)%nat -> (off (cap d) (begin_ d) i < length l)%nat ->
  exists v, buffer_ d !! i = Some (Some v).
Proof. intros Hv Hi Ho. rewrite Hv by done. destruct (lookup_lt_is_Some_2 l _ Ho) as [v ->]. by exists v. Qed.

Lemma view_raw d l i o : view d (fun k => l !! k) -> buffer_ d !! i = Some o ->
  (length l <= off (cap d) (begin_ d) i)%nat -> o = None.
Proof.
  intros Hv Ho Hge. pose proof (lookup_lt_Some _ _ _ Ho) as Hi. rewrite Hv in Ho by done. injection Ho as <-.
  by apply lookup_ge_None_2.
Qed.

(** What [MoveBuffer] must give. *)
Definition moved_to (to : list (option T)) l (r : res (list (option T) * list (option T) * nat * nat)) : Prop :=
  exists from' to', r = Ok (from', to', 0%nat, length l) /\ length to' = length to /\
    (forall i o, from' !! i = Some o -> o = None) /\ forall i, (i < length to)%nat -> to' !! i = Some (l !! i).

Lemma MoveBuffer_contiguous d l to : frame d (length l) -> view d (fun k => l !! k) -> (length l < length to)%nat ->
  (forall i, (i < length to)%nat -> to !! i = Some None) -> (begin_ d < end_ d)%nat ->
  moved_to to l ('(from, to) ← MoveRange (buffer_ d) (begin_ d) (end_ d) to 0; Ok (from, to, 0%nat, (end_ d - begin_ d)%nat)).
Proof.
  intros (Hb & Hn & He) Hv Hlt Hto E1. unfold MoveRange. rewrite !slot_Ok by (fold (cap d); positions). cbn [mbind res_bind].
  destruct (move_loop_spec (end_ d - begin_ d) (buffer_ d) (begin_ d) to 0) as (from' & to' & -> & L1 & L2 & H1 & H2).
  { intros i Hi. apply (view_live d l); [done|positions..]. }
  { intros i Hi. apply Hto. positions. }
  cbn [mbind res_bind]. exists from', to'. split_and!; [repeat f_equal; positions|done| |].
  - intros i o. rewrite H1. case_bool_decide; [congruence|]. intros Ho. eapply view_raw; [exact Hv|exact Ho|].
    pose proof (lookup_lt_Some _ _ _ Ho). fold (cap d) in *. positions.
  - intros i Hi. rewrite H2. case_bool_decide as Hc.
    + rewrite Hv by (positions). do 2 f_equal. positions.
    + rewrite Hto by done. f_equal. symmetry. apply lookup_ge_None_2. positions.
Qed.

Lemma MoveBuffer_wrapped d l to : frame d (length l) -> view d (fun k => l !! k) -> (length l < length to)%nat ->
  (forall i, (i < length to)%nat -> to !! i = Some None) -> (end_ d < begin_ d)%nat ->
  moved_to to l ('(from, to) ← MoveRange (buffer_ d) (begin_ d) (cap d) to 0;
    '(from, to) ← MoveRange from 0 (end_ d) to (cap d - begin_ d);
    Ok (from, to, 0%nat, (cap d - begin_ d + end_ d)%nat)).
Proof.
  intros (Hb & Hn & He) Hv Hlt Hto E2. unfold MoveRange. rewrite !slot_Ok by (fold (cap d); positions). cbn [mbind res_bind].
  destruct (move_loop_spec (cap d - begin_ d) (buffer_ d) (begin_ d) to 0) as (from' & to' & -> & L1 & L2 & H1 & H2).
  { intros i Hi. apply (view_live d l); [done|positions..]. }
  { intros i Hi. apply Hto. positions. }
  cbn [mbind res_bind]. rewrite !slot_Ok by (rewrite ?L1, ?L2; fold (cap d); positions). cbn [mbind res_bind].
  destruct (move_loop_spec (end_ d - 0) from' 0 to' (cap d - begin_ d)) as (from2 & to2 & -> & L3 & L4 & H3 & H4).
  { intros i Hi. rewrite H1, bool_decide_eq_false_2 by positions. apply (view_live d l); [done|positions..]. }
  { intros i Hi. rewrite H2, bool_decide_eq_false_2 by positions. apply Hto. positions. }
  cbn [mbind res_bind]. exists from2, to2. split_and!; [repeat f_equal; positions|by rewrite L4| |].
  - intros i o. rewrite H3, H1. do 2 (case_bool_decide; [congruence|]). intros Ho. eapply view_raw; [exact Hv|exact Ho|].
    pose proof (lookup_lt_Some _ _ _ Ho). fold (cap d) in *. positions.
  - intros i Hi. rewrite H4, H2, H1. case_bool_decide as Hc.
    + rewrite bool_decide_eq_false_2 by positions. rewrite Hv by positions. do 2 f_equal. positions.
    + case_bool_decide; [rewrite Hv by positions; do 2 f_equal; positions|]. rewrite Hto by done.
      f_equal. symmetry. apply lookup_ge_None_2. positions.
Qed.

Lemma MoveBuffer_spec d l (to : list (option T)) : rep d l -> (length l < length to)%nat -> to = replicate (length to) None ->
  moved_to to l (MoveBuffer (buffer_ d) (begin_ d) (end_ d) to).
Proof.
  intros [_ Hr] Hlt Eto.
  assert (forall i, (i < length to)%nat -> to !! i = Some None) as Hto.
  { intros i Hi. rewrite Eto. by apply lookup_replicate_2. }
  destruct Hr as [(Hc & -> & E)|[Hf Hv]].
  { exists (buffer_ d), to. unfold MoveBuffer. rewrite E, !bool_decide_eq_false_2 by lia. split_and!; [done|done| |by apply Hto].
    intros i o Ho. apply lookup_lt_Some in Ho. unfold cap in Hc. lia. }
  unfold MoveBuffer. case_bool_decide as E1; [by apply MoveBuffer_contiguous|].
  case_bool_decide as E2; [|exists (buffer_ d), to; pose proof Hf as (Hb & Hn & He); split_and!; [repeat f_equal; positions|done| |]].
  - pose proof (MoveBuffer_wrapped d l to Hf Hv Hlt Hto E2) as (from & to' & E & H). exists from, to'. split; [|exact H].
    rewrite <- E. fold (cap d). destruct (MoveRange (buffer_ d) (begin_ d) (cap d) to 0) as [[f1 t1]| | |] eqn:Em; try done.
    cbn [mbind res_bind]. assert (length f1 = cap d) as -> by (by eapply MoveRange_length). done.
  - intros i o Ho. eapply view_raw; [exact Hv|exact Ho|]. positions.
  - intros i Hi. rewrite Hto by done. f_equal. symmetry. apply lookup_ge_None_2. positions.
Qed.

Lemma free_block_Ok (buf : list (option T)) : (forall i o, buf !! i = Some o -> o = None) -> free_block buf = Ok tt.
Proof.
  intros H. unfold free_block. destruct (forallb _ buf) eqn:E; [done|]. exfalso. revert E. apply not_false_iff_true.
  apply forallb_forall. intros o Ho. apply list_elem_of_In, list_elem_of_lookup in Ho as [i Hi]. by rewrite (H i o Hi).
Qed.

(** The same contents, in the same generation, with the elements at the front. *)
Lemma SetCapacityTo_spec d l n : rep d l -> (length l <= n)%nat -> (n < max_count)%nat ->
  exists d', SetCapacityTo max_count d n = Ok d' /\ rep d' l /\ cap d' = S n /\ generation_ d' = generation_ d /\ begin_ d' = 0%nat.
Proof.
  intros Hr Hl Hn. unfold SetCapacityTo, VectorBuffer_new. rewrite bool_decide_eq_true_2 by lia. cbn [assert_ mbind res_bind].
  destruct (MoveBuffer_spec d l (replicate (n + 1) None) Hr) as (from & to & -> & El & Hf & Ht);
    [rewrite length_replicate; lia|by rewrite length_replicate|]. cbn [mbind res_bind].
  rewrite free_block_Ok by done. cbn [mbind res_bind]. rewrite length_replicate in El, Ht. eexists. split; [done|].
  unfold rep, frame, view, cap. cbn [buffer_ begin_ end_ generation_]. rewrite El. split; [|split_and!; [lia|done|done]].
  split; [lia|]. right. split_and!; [lia|lia|positions|]. intros i Hi. rewrite Ht by done. do 2 f_equal. positions.
Qed.

Lemma capacity_S d n : cap d = S n -> capacity d = n.
Proof. intros E. unfold capacity. rewrite E, bool_decide_eq_false_2; lia. Qed.

Lemma quarter n : (n / 4 <= n)%nat.
Proof. apply Nat.Div0.div_le_upper_bound. lia. Qed.

Lemma ExpandCapacity_spec d l k : rep d l -> (2 * (length l + k) + 4 <= max_count)%nat ->
  exists d', ExpandCapacityIfNecessary max_count d k = Ok d' /\ rep d' l /\ generation_ d' = generation_ d /\
    (length l + k <= capacity d')%nat.
Proof.
  intros Hr Hk. unfold ExpandCapacityIfNecessary. rewrite (rep_size d l) by done. cbv zeta.
  case_bool_decide as E; [by exists d|]. unfold kCircularBufferInitialCapacity. pose proof (quarter (capacity d)).
  set (n := Nat.max _ _). destruct (SetCapacityTo_spec d l n Hr) as (d' & -> & Hr' & Ec & Eg & _); [lia..|].
  exists d'. split_and!; [done..|]. rewrite (capacity_S d' _ Ec). lia.
Qed.

Lemma ShrinkCapacity_spec d l : rep d l ->
  exists d', ShrinkCapacityIfNecessary max_count d = Ok d' /\ rep d' l /\ generation_ d' = generation_ d.
Proof.
  intros Hr. unfold ShrinkCapacityIfNecessary. rewrite (rep_size d l) by done. cbv zeta.
  case_bool_decide as E1; [by exists d|]. case_bool_decide as E2; [by exists d|]. case_bool_decide as E3; [|by exists d].
  destruct (SetCapacityTo_spec d l (Nat.max kCircularBufferInitialCapacity (length l + length l / 4)) Hr)
    as (d' & -> & Hr' & Ec & Eg & _); [lia| |by exists d'].
  destruct Hr as [Hc _]. unfold capacity in E3. case_bool_decide; lia.
Qed.

Lemma reserve_spec d l n : rep d l -> (n < max_count)%nat ->
  exists d', reserve max_count d n = Ok d' /\ rep d' l /\ generation_ d' = generation_ d /\ (n <= capacity d')%nat.
Proof.
  intros Hr Hn. unfold reserve. pose proof (rep_capacity d l Hr). case_bool_decide as E; [|exists d; split_and!; done || lia].
  destruct (SetCapacityTo_spec d l n Hr) as (d' & -> & Hr' & Ec & Eg & _); [lia..|].
  exists d'. split_and!; [done..|]. rewrite (capacity_S d' _ Ec). lia.
Qed.

Lemma raw_buffer d : rep d [] -> forall i o, buffer_ d !! i = Some o -> o = None.
Proof.
  intros [_ [(Hc & _)|[_ Hv]]] i o Ho; pose proof (lookup_lt_Some _ _ _ Ho) as Hi; fold (cap d) in Hi; [lia|].
  rewrite Hv in Ho by done. by injection Ho as <-.
Qed.

Lemma shrink_to_fit_spec d l : rep d l ->
  exists d', shrink_to_fit max_count d = Ok d' /\ rep d' l /\ generation_ d' = generation_ d.
Proof.
  intros Hr. unfold shrink_to_fit. rewrite (rep_empty d l) by done. case_bool_decide as El.
  - subst l. case_bool_decide as E; [by exists d|]. rewrite free_block_Ok by (by apply raw_buffer). cbn [mbind res_bind].
    eexists. split_and!; [done| |done]. split; [cbn; lia|]. left. split_and!; [done|done|]. cbn.
    destruct Hr as [_ [(Hc & _)|[(Hb & Hn & He) _]]]; [lia|]. cbn in He. rewrite He. positions.
  - rewrite (rep_size d l) by done. destruct Hr as [Hm [(_ & -> & _)|Hr]]; [done|]. pose proof Hr as [(_ & Hn & _) _].
    destruct (SetCapacityTo_spec d l (length l)) as (d' & -> & Hr' & _ & Eg & _); [|lia|lia|by exists d'].
    split; [done|by right].
Qed.

(** The elements at positions [i] to [j] are destroyed. *)
Lemma destroy_span d f n i j : frame d n -> view d f -> (i < j <= n)%nat ->
  (forall k, (i <= k < j)%nat -> is_Some (f k)) ->
  let b := wrap (cap d) (begin_ d + i) in let e := wrap (cap d) (begin_ d + j) in
  exists buf, (if bool_decide (b < e)%nat then VB_DestructRange (buffer_ d) b e
               else buf ← VB_DestructRange (buffer_ d) b (cap d); VB_DestructRange buf 0 e) = Ok buf /\
    length buf = cap d /\
    view (mkDeque buf (begin_ d) (end_ d) (generation_ d)) (fun k => if bool_decide (i <= k < j)%nat then None else f k).
Proof.
  intros (Hb & Hn & He) Hv Hij Hf b e.
  assert (forall x, (x < cap d)%nat -> (i <= off (cap d) (begin_ d) x < j)%nat -> exists v, buffer_ d !! x = Some (Some v)) as Hlive.
  { intros x Hx Ho. rewrite Hv by done. destruct (Hf _ Ho) as [v ->]. by exists v. }
  assert (forall buf, length buf = cap d -> (forall x, (x < cap d)%nat ->
      buf !! x = if bool_decide (i <= off (cap d) (begin_ d) x < j)%nat then Some None else buffer_ d !! x) ->
    view (mkDeque buf (begin_ d) (end_ d) (generation_ d)) (fun k => if bool_decide (i <= k < j)%nat then None else f k)) as Hview.
  { intros buf El Hx x. unfold cap. cbn [buffer_ begin_]. rewrite El. intros Hlt. rewrite Hx by done.
    case_bool_decide; [done|]. by apply Hv. }
  case_bool_decide as E.
  - destruct (VB_DestructRange_spec (buffer_ d) b e) as (buf & -> & El & Hl).
    { fold (cap d). subst b e. positions. }
    { intros x Hx. apply Hlive; subst b e; positions. }
    exists buf. split_and!; [done|done|]. apply Hview; [done|]. intros x Hx. rewrite Hl. subst b e.
    repeat case_bool_decide; try done; positions.
  - destruct (VB_DestructRange_spec (buffer_ d) b (cap d)) as (buf & -> & El & Hl).
    { fold (cap d). subst b e. positions. }
    { intros x Hx. apply Hlive; subst b e; positions. }
    cbn [mbind res_bind]. destruct (VB_DestructRange_spec buf 0 e) as (buf2 & -> & El2 & Hl2).
    { rewrite El. fold (cap d). subst b e. positions. }
    { intros x Hx. rewrite Hl, bool_decide_eq_false_2 by (subst b e; positions). apply Hlive; subst b e; positions. }
    exists buf2. split_and!; [done|by rewrite El2|]. apply Hview; [by rewrite El2|]. intros x Hx. rewrite Hl2, Hl. subst b e.
    repeat case_bool_decide; try done; positions.
Qed.

(** *** Iterators at logical positions *)
Definition pos d (k : nat) : iterator := iter_at d (wrap (cap d) (begin_ d + k)).

Lemma pos_begin d n : frame d n -> Deque_begin d = pos d 0.
Proof. intros (Hb & Hn & He). unfold Deque_begin, pos, iter_at. f_equal. positions. Qed.
Lemma pos_end d n : frame d n -> Deque_end d = pos d n.
Proof. intros (Hb & Hn & He). unfold Deque_end, pos, iter_at. by rewrite He. Qed.

Lemma unstable_pos d k : CheckUnstableUsage d (pos d k) = Ok tt.
Proof. unfold CheckUnstableUsage. cbn. by rewrite Z.eqb_refl. Qed.

Lemma valid_pos d n k : frame d n -> (k < n)%nat -> CheckValidIndex d (wrap (cap d) (begin_ d + k)) = Ok tt.
Proof.
  intros (Hb & Hn & He) Hk. unfold CheckValidIndex. rewrite He. apply assert_Ok.
  case_bool_decide; [apply andb_true_iff|apply orb_true_iff; rewrite andb_true_iff]; rewrite !bool_decide_eq_true; positions.
Qed.

Lemma valid_or_end_pos d n k : frame d n -> (k <= n)%nat -> CheckValidIndexOrEnd d (wrap (cap d) (begin_ d + k)) = Ok tt.
Proof.
  intros Hf Hk. unfold CheckValidIndexOrEnd. case_bool_decide as E; [done|]. apply (valid_pos d n); [done|].
  destruct Hf as (Hb & Hn & He). destruct (decide (k = n)) as [->|]; [done|lia].
Qed.

Lemma offset_pos d n k : frame d n -> (k <= n)%nat -> OffsetFromBegin d (index_ (pos d k)) = k.
Proof. intros (Hb & Hn & He) Hk. apply off_wrap; lia. Qed.

Lemma deref_pos d n f k v : frame d n -> view d f -> (k < n)%nat -> f k = Some v -> deref d (pos d k) = Ok v.
Proof.
  intros Hf Hv Hk E. unfold deref. rewrite unstable_pos. cbn [mbind res_bind index_ pos iter_at].
  rewrite (valid_pos d n) by done. destruct Hf as (Hb & Hn & He).
  rewrite slot_Ok by (fold (cap d); pose proof (wrap_lt (cap d) (begin_ d) k); lia). cbn [mbind res_bind].
  rewrite (view_at d f) by (done || lia). by rewrite E.
Qed.

Lemma Increment_pos d n k : frame d n -> (k < n)%nat -> Increment d (pos d k) = Ok (pos d (k + 1)).
Proof.
  intros Hf Hk. unfold Increment. rewrite unstable_pos. cbn [mbind res_bind index_ pos iter_at created_generation_].
  rewrite (valid_pos d n) by done. cbn [mbind res_bind]. unfold pos, iter_at. do 2 f_equal.
  destruct Hf as (Hb & Hn & He). positions.
Qed.

Lemma Decrement_pos d n k : frame d n -> (1 <= k <= n)%nat -> Decrement d (pos d k) = Ok (pos d (k - 1)).
Proof.
  intros Hf Hk. unfold Decrement. rewrite unstable_pos. cbn [mbind res_bind index_ pos iter_at created_generation_].
  rewrite (valid_or_end_pos d n) by (done || lia). cbn [mbind res_bind]. unfold pos, iter_at. do 2 f_equal.
  destruct Hf as (Hb & Hn & He). positions.
Qed.

Lemma Add_pos d n k j : frame d n -> (k <= n)%nat -> (j <= n)%nat ->
  Add d (pos d k) (Z.of_nat j - Z.of_nat k) = Ok (pos d j).
Proof.
  intros Hf Hk Hj. unfold Add. rewrite unstable_pos. cbn [mbind res_bind].
  assert ((if Z.of_nat j - Z.of_nat k <=? 0 then CheckValidIndexOrEnd d (index_ (pos d k))
           else CheckValidIndex d (index_ (pos d k))) = Ok tt) as ->.
  { destruct (Z.leb_spec (Z.of_nat j - Z.of_nat k) 0); [by apply (valid_or_end_pos d n)|apply (valid_pos d n); [done|lia]]. }
  cbn [mbind res_bind]. destruct (Z.eqb_spec (Z.of_nat j - Z.of_nat k) 0); [do 2 f_equal; lia|].
  rewrite (offset_pos d n), (frame_size d n) by done.
  replace ((0 <=? Z.of_nat k + (Z.of_nat j - Z.of_nat k)) && (Z.of_nat k + (Z.of_nat j - Z.of_nat k) <=? Z.of_nat n)) with true by lia.
  destruct Hf as (Hb & Hn & He). cbn [assert_ mbind res_bind]. rewrite bool_decide_eq_false_2 by lia. cbn [negb defined mbind res_bind].
  unfold pos, iter_at. cbn [created_generation_]. do 2 f_equal. rewrite mod_wrap by lia. f_equal. lia.
Qed.

Lemma comparable_pos d j k : CheckComparable (pos d j) (pos d k) = Ok tt.
Proof. unfold CheckComparable. cbn. by rewrite Z.eqb_refl. Qed.

Lemma iter_lt_pos d n j k : frame d n -> (j <= n)%nat -> (k <= n)%nat ->
  iter_lt d (pos d j) (pos d k) = Ok (bool_decide (j < k)%nat).
Proof. intros Hf Hj Hk. unfold iter_lt. rewrite comparable_pos. cbn [mbind res_bind]. by rewrite !(offset_pos d n). Qed.

Lemma iter_eq_pos d n j k : frame d n -> (j <= n)%nat -> (k <= n)%nat -> iter_eq (pos d j) (pos d k) = Ok (bool_decide (j = k)).
Proof.
  intros (Hb & Hn & He) Hj Hk. unfold iter_eq. rewrite comparable_pos. cbn [mbind res_bind index_ pos iter_at]. f_equal.
  apply bool_decide_ext. split; [apply wrap_inj; lia|by intros ->].
Qed.

(** Elements change, the frame does not. *)
Lemma frame_buffer d n buf : length buf = cap d -> frame d n -> frame (mkDeque buf (begin_ d) (end_ d) (generation_ d)) n.
Proof. intros El (Hb & Hn & He). unfold frame, cap in *. cbn. by rewrite El. Qed.

Lemma pos_buffer d buf e k : length buf = cap d -> pos (mkDeque buf (begin_ d) e (generation_ d)) k = pos d k.
Proof. intros El. unfold pos, iter_at, cap. cbn. by rewrite El. Qed.

(** *** Accessors *)
Lemma rep_frame d l : rep d l -> (0 < length l)%nat -> frame d (length l) /\ view d (fun k => l !! k).
Proof. intros [_ [(_ & -> & _)|Hr]] H0; [cbn in H0; lia|done]. Qed.

Lemma at_spec d l i v : rep d l -> l !! i = Some v -> at_ d i = Ok v.
Proof.
  intros Hr Hi. pose proof (lookup_lt_Some _ _ _ Hi) as Hlt. destruct (rep_frame d l Hr) as [Hf Hv]; [lia|].
  unfold at_. rewrite (rep_size d l) by done. rewrite (bool_decide_eq_true_2 (i < length l)%nat) by done. cbn [assert_ mbind res_bind].
  pose proof Hf as (Hb & Hn & He). set (j := if _ || _ then _ else _).
  assert (j = wrap (cap d) (begin_ d + i)) as ->.
  { subst j. rewrite He. destruct (bool_decide _ || bool_decide _) eqn:E; [apply orb_true_iff in E|apply orb_false_iff in E];
      rewrite ?bool_decide_eq_true, ?bool_decide_eq_false in E; positions. }
  rewrite slot_Ok by (fold (cap d); pose proof (wrap_lt (cap d) (begin_ d) i); lia). cbn [mbind res_bind].
  rewrite (view_at d _ i Hb Hv) by lia. by rewrite Hi.
Qed.

Lemma front_spec d l v : rep d (v :: l) -> front d = Ok v.
Proof.
  intros Hr. destruct (rep_frame d _ Hr) as [(Hb & Hn & He) Hv]; [cbn; lia|].
  unfold front. rewrite (rep_empty d _ Hr), bool_decide_eq_false_2 by done. cbn [negb assert_ mbind res_bind].
  rewrite slot_Ok by (fold (cap d); lia). cbn [mbind res_bind].
  pose proof (view_at d _ 0 Hb Hv ltac:(lia)) as E. replace (wrap (cap d) (begin_ d + 0)) with (begin_ d) in E by positions.
  by rewrite E.
Qed.

Lemma back_spec d l v : rep d (l ++ [v]) -> back d = Ok v.
Proof.
  intros Hr. assert (length (l ++ [v]) = S (length l)) as El by (rewrite length_app; cbn; lia).
  destruct (rep_frame d _ Hr) as [Hf Hv]; [lia|]. rewrite El in Hf.
  unfold back. rewrite (rep_empty d _ Hr), bool_decide_eq_false_2 by (by destruct l). cbn [negb assert_ mbind res_bind].
  rewrite (pos_end d _ Hf), (Decrement_pos d _ _ Hf) by lia. cbn [mbind res_bind].
  apply (deref_pos d (S (length l)) (fun k => (l ++ [v]) !! k)); [done|done|lia|].
  rewrite lookup_app_r by lia. replace (S (length l) - 1 - length l)%nat with 0%nat by lia. done.
Qed.

Lemma rep_generation d l g : rep d l -> rep (mkDeque (buffer_ d) (begin_ d) (end_ d) g) l.
Proof. done. Qed.

(** *** Begin and end *)
Lemma rep_room d l k : rep d l -> (length l + k <= capacity d)%nat -> (0 < k)%nat ->
  frame d (length l) /\ view d (fun j => l !! j) /\ (length l + k < cap d)%nat.
Proof.
  intros [_ [(Hc & -> & _)|[Hf Hv]]] Hk H0; unfold capacity in Hk.
  - rewrite bool_decide_eq_true_2 in Hk by done. cbn in Hk. lia.
  - destruct Hf as (Hb & Hn & He). rewrite bool_decide_eq_false_2 in Hk by lia. split_and!; [done|done|lia].
Qed.

(** The representation of a changed buffer. *)
Lemma rep_intro d f l : (cap d <= max_count)%nat -> frame d (length l) -> view d f ->
  (forall k, (k < cap d)%nat -> f k = l !! k) -> rep d l.
Proof. intros Hm Hf Hv E. split; [done|]. right. split; [done|]. destruct Hf as [Hb _]. by eapply view_ext. Qed.

Lemma emplace_back_spec d l v : rep d l -> (2 * (length l + 1) + 4 <= max_count)%nat ->
  exists d', emplace_back max_count d v = Ok d' /\ rep d' (l ++ [v]) /\ generation_ d' = u64 (generation_ d + 1).
Proof.
  intros Hr Hm. unfold emplace_back. destruct (ExpandCapacity_spec d l 1 Hr Hm) as (d1 & -> & Hr1 & Eg & Hroom).
  cbn [mbind res_bind]. destruct (rep_room d1 l 1 Hr1 Hroom) as (Hf & Hv & Hlt); [lia|]. pose proof Hf as (Hb & Hn & He).
  rewrite construct_Ok; cycle 1.
  { rewrite He, (view_at d1 _ _ Hb Hv) by lia. by rewrite lookup_ge_None_2. }
  cbn [mbind res_bind]. set (d2 := IncrementGeneration _).
  assert (rep d2 (l ++ [v])) as Hr2.
  { apply rep_generation. rewrite He.
    eapply (rep_intro _ (fun j => if bool_decide (j = length l) then Some v else l !! j)).
    - unfold cap. cbn. rewrite length_insert. by destruct Hr1.
    - rewrite length_app. unfold frame, cap. cbn. rewrite length_insert. fold (cap d1). positions.
    - intros i Hi. unfold cap in Hi. cbn in Hi. rewrite length_insert in Hi.
      exact (view_insert d1 _ (length l) (Some v) Hb Hv ltac:(lia) i ltac:(unfold cap; cbn; rewrite length_insert; done)).
    - intros k _. case_bool_decide as E; [subst k; by rewrite lookup_app_r, Nat.sub_diag by lia|].
      destruct (decide (k < length l)%nat); [by rewrite lookup_app_l|]. by rewrite !lookup_ge_None_2 by (rewrite ?length_app; cbn; lia). }
  rewrite (back_spec d2 l v Hr2). cbn [mbind res_bind]. exists d2. split_and!; [done|done|]. cbn. by rewrite Eg.
Qed.

Lemma emplace_front_spec d l v : rep d l -> (2 * (length l + 1) + 4 <= max_count)%nat ->
  exists d', emplace_front max_count d v = Ok d' /\ rep d' (v :: l) /\ generation_ d' = u64 (generation_ d + 1).
Proof.
  intros Hr Hm. unfold emplace_front. destruct (ExpandCapacity_spec d l 1 Hr Hm) as (d1 & -> & Hr1 & Eg & Hroom).
  cbn [mbind res_bind]. destruct (rep_room d1 l 1 Hr1 Hroom) as (Hf & Hv & Hlt); [lia|]. pose proof Hf as (Hb & Hn & He).
  set (b := if bool_decide (begin_ d1 = 0%nat) then _ else _).
  assert (b = wrap (cap d1) (begin_ d1 + (cap d1 - 1))) as Eb by (subst b; positions).
  cbn [buffer_ end_ generation_ IncrementGeneration]. rewrite construct_Ok; cycle 1.
  { rewrite Eb, (view_at d1 _ _ Hb Hv) by lia. by rewrite lookup_ge_None_2 by lia. }
  cbn [mbind res_bind]. set (d2 := mkDeque (<[b := Some v]> _) _ _ _).
  assert (cap d2 = cap d1) as Ec by (unfold cap; cbn; apply length_insert).
  assert (rep d2 (v :: l)) as Hr2.
  { eapply (rep_intro _ (fun k => (fun j => if bool_decide (j = (cap d1 - 1)%nat) then Some v else l !! j) (wrap (cap d1) (k + (cap d1 - 1))))).
    - rewrite Ec. by destruct Hr1.
    - unfold frame. rewrite Ec. cbn [begin_ end_ d2 length]. rewrite Eb. positions.
    - pose proof (view_insert d1 _ (cap d1 - 1) (Some v) Hb Hv ltac:(lia)) as Hv2. rewrite <- Eb in Hv2.
      set (d1' := mkDeque _ _ _ _) in Hv2. assert (cap d1' = cap d1) as Ec' by (unfold cap; cbn; apply length_insert).
      pose proof (view_shift d1' _ (cap d1 - 1) (end_ d1) (u64 (generation_ d1 + 1)) ltac:(by rewrite Ec') Hv2) as Hv3.
      rewrite Ec' in Hv3. cbn [begin_ buffer_ d1'] in Hv3. rewrite <- Eb in Hv3. apply Hv3. lia.
    - intros k Hk. rewrite Ec in Hk. cbn. destruct k as [|k].
      + rewrite bool_decide_eq_true_2 by positions. done.
      + replace (wrap (cap d1) (S k + (cap d1 - 1))) with k by positions. rewrite bool_decide_eq_false_2 by lia. done. }
  rewrite (front_spec d2 l v Hr2). cbn [mbind res_bind]. exists d2. split_and!; [done|done|]. cbn. by rewrite Eg.
Qed.

(** One element, at an index inside the buffer. *)
Lemma destroy_one d f k : (begin_ d < cap d)%nat -> view d f -> (k < cap d)%nat -> is_Some (f k) ->
  let i := wrap (cap d) (begin_ d + k) in
  exists buf, VB_DestructRange (buffer_ d) i (i + 1) = Ok buf /\ length buf = cap d /\
    view (mkDeque buf (begin_ d) (end_ d) (generation_ d)) (fun j => if bool_decide (j = k) then None else f j).
Proof.
  intros Hb Hv Hk [v Ev] i. pose proof (wrap_lt (cap d) (begin_ d) k Hb Hk) as Hi. fold i in Hi.
  destruct (VB_DestructRange_spec (buffer_ d) i (i + 1)) as (buf & -> & El & Hl).
  { fold (cap d). lia. }
  { intros x Hx. replace x with i by lia. exists v. rewrite <- Ev. by apply view_at. }
  exists buf. split_and!; [done|done|]. intros x. unfold cap. cbn [buffer_ begin_]. rewrite El. fold (cap d). intros Hx.
  rewrite Hl. case_bool_decide as E1; case_bool_decide as E2; try done.
  - exfalso. apply E2. replace x with i by lia. by apply off_wrap.
  - exfalso. apply E1. subst k i. rewrite wrap_off by done. lia.
  - by apply Hv.
Qed.

Lemma pop_front_spec d l v : rep d (v :: l) ->
  exists d', pop_front max_count d = Ok d' /\ rep d' l /\ generation_ d' = u64 (generation_ d + 1).
Proof.
  intros Hr. destruct (rep_frame d _ Hr) as [Hf Hv]; [cbn; lia|]. pose proof Hf as (Hb & Hn & He). cbn [length] in *.
  unfold pop_front. rewrite (rep_size d _ Hr), bool_decide_eq_false_2 by done. cbn [negb assert_ mbind res_bind].
  destruct (destroy_one d _ 0 Hb Hv) as (buf & E & El & Hv1); [lia|done|]. cbv zeta in E.
  replace (wrap (cap d) (begin_ d + 0)) with (begin_ d) in E by positions. rewrite E. cbn [mbind res_bind]. rewrite El.
  set (b := if bool_decide _ then _ else _). assert (b = wrap (cap d) (begin_ d + 1)) as -> by (subst b; positions).
  destruct (ShrinkCapacity_spec (mkDeque buf (wrap (cap d) (begin_ d + 1)) (end_ d) (generation_ d)) l) as (d' & -> & Hr' & Eg).
  { set (d1 := mkDeque buf (begin_ d) (end_ d) (generation_ d)) in Hv1. assert (cap d1 = cap d) as Ec by done.
    eapply rep_intro.
    - unfold cap. cbn. rewrite El. by destruct Hr.
    - unfold frame, cap. cbn. rewrite El. fold (cap d). rewrite He. positions.
    - pose proof (view_shift d1 _ 1 (end_ d) (generation_ d) ltac:(by rewrite Ec) Hv1 ltac:(rewrite Ec; lia)) as Hs.
      rewrite Ec in Hs. exact Hs.
    - intros k. unfold cap at 1. cbn [buffer_]. rewrite El. intros Hk. case_bool_decide as E0.
      + symmetry. apply lookup_ge_None_2. positions.
      + replace (wrap (cap d) (k + 1)) with (S k) by positions. done. }
  cbn [mbind res_bind]. eexists. split_and!; [done|done|]. cbn. by rewrite Eg.
Qed.

Lemma pop_back_spec d l v : rep d (l ++ [v]) ->
  exists d', pop_back max_count d = Ok d' /\ rep d' l /\ generation_ d' = u64 (generation_ d + 1).
Proof.
  intros Hr. assert (length (l ++ [v]) = S (length l)) as Els by (rewrite length_app; cbn; lia).
  destruct (rep_frame d _ Hr) as [Hf Hv]; [lia|]. pose proof Hf as (Hb & Hn & He). rewrite Els in Hn, He.
  unfold pop_back. rewrite (rep_size d _ Hr), (bool_decide_eq_false_2 (length (l ++ [v]) = 0%nat)) by lia. cbn [negb assert_ mbind res_bind].
  set (e := if bool_decide _ then _ else _). assert (e = wrap (cap d) (begin_ d + length l)) as -> by (subst e; rewrite He; positions).
  destruct (destroy_one d _ (length l) Hb Hv) as (buf & -> & El & Hv1); [lia|rewrite lookup_app_r, Nat.sub_diag by lia; by eexists|].
  cbn [mbind res_bind].
  destruct (ShrinkCapacity_spec (mkDeque buf (begin_ d) (wrap (cap d) (begin_ d + length l)) (generation_ d)) l) as (d' & -> & Hr' & Eg).
  { eapply rep_intro; [..|exact Hv1|].
    - unfold cap. cbn. rewrite El. by destruct Hr.
    - unfold frame, cap. cbn. rewrite El. fold (cap d). split_and!; [done|lia|done].
    - intros k Hk. cbv beta. case_bool_decide as E0; [subst k; by rewrite lookup_ge_None_2 by lia|].
      destruct (decide (k < length l)%nat); [by rewrite lookup_app_l|]. by rewrite !lookup_ge_None_2 by lia. }
  cbn [mbind res_bind]. eexists. split_and!; [done|done|]. cbn. by rewrite Eg.
Qed.

(** *** Size and assignment *)
Lemma DestructRange_spec d f n i j : frame d n -> view d f -> (i <= j <= n)%nat ->
  (forall k, (i <= k < j)%nat -> is_Some (f k)) ->
  exists buf, DestructRange d (wrap (cap d) (begin_ d + i)) (wrap (cap d) (begin_ d + j)) =
      Ok (mkDeque buf (begin_ d) (end_ d) (generation_ d)) /\ length buf = cap d /\
    view (mkDeque buf (begin_ d) (end_ d) (generation_ d)) (fun k => if bool_decide (i <= k < j)%nat then None else f k).
Proof.
  intros Hf Hv Hij Hl. pose proof Hf as (Hb & Hn & He). unfold DestructRange. case_bool_decide as E.
  - apply wrap_inj in E; [|lia..]. subst j. exists (buffer_ d). split_and!; [by destruct d|done|].
    eapply view_ext; [done|exact Hv|]. intros k _. by rewrite bool_decide_eq_false_2 by lia.
  - assert (i < j)%nat by (destruct (decide (i = j)) as [->|]; [done|lia]).
    destruct (destroy_span d f n i j Hf Hv) as (buf & E1 & El & Hv1); [lia|done|]. cbv zeta in E1.
    exists buf. split_and!; [|done|done]. case_bool_decide; [by rewrite E1|].
    destruct (VB_DestructRange _ _ (cap d)) as [b1| | |]; cbn [mbind res_bind] in *; try done. by rewrite E1.
Qed.

Lemma DestructAll_spec d l : rep d l ->
  exists d', ClearRetainCapacity d = Ok d' /\ rep d' [] /\ generation_ d' = u64 (generation_ d + 1).
Proof.
  intros [Hm [(Hc & -> & E)|[Hf Hv]]]; unfold ClearRetainCapacity.
  - unfold DestructRange. rewrite bool_decide_eq_true_2 by done. cbn [mbind res_bind]. eexists. split_and!; [done| |done].
    split; [done|]. by left.
  - pose proof Hf as (Hb & Hn & He). destruct (DestructRange_spec d _ _ 0 (length l) Hf Hv) as (buf & E & El & Hv1); [lia| |].
    { intros k Hk. apply lookup_lt_is_Some_2. lia. }
    rewrite Nat.add_0_r in E. replace (wrap (cap d) (begin_ d)) with (begin_ d) in E by positions. rewrite <- He in E. rewrite E.
    cbn [mbind res_bind]. eexists. split_and!; [done| |done].
    eapply (rep_intro _ (fun _ => None)); unfold cap in *; cbn [IncrementGeneration buffer_ begin_ end_]; [lia| | |done].
    + unfold frame, cap. cbn. positions.
    + intros i. unfold cap. cbn [buffer_]. intros Hi. pose proof (Hv1 i Hi) as E2. change (buf !! i = Some None). cbn [buffer_] in E2. rewrite E2. case_bool_decide; [done|].
      f_equal. apply lookup_ge_None_2. lia.
Qed.

Lemma emplace_backs_spec vs : forall d l, rep d l -> (2 * (length l + length vs) + 4 <= max_count)%nat ->
  exists d', emplace_backs max_count d vs = Ok d' /\ rep d' (l ++ vs).
Proof.
  induction vs as [|v vs IH]; intros d l Hr Hm; cbn [emplace_backs length] in *; [exists d; by rewrite app_nil_r|].
  destruct (emplace_back_spec d l v Hr) as (d1 & -> & Hr1 & _); [lia|]. cbn [mbind res_bind].
  destruct (IH d1 (l ++ [v]) Hr1) as (d' & -> & Hr'); [rewrite length_app; cbn; lia|].
  exists d'. by rewrite <- app_assoc in Hr'.
Qed.

Lemma push_fronts_spec vs : forall d l, rep d l -> (2 * (length l + length vs) + 4 <= max_count)%nat ->
  exists d', push_fronts max_count d vs = Ok d' /\ rep d' (reverse vs ++ l).
Proof.
  induction vs as [|v vs IH]; intros d l Hr Hm; cbn [push_fronts length] in *; [by exists d|]. unfold push_front.
  destruct (emplace_front_spec d l v Hr) as (d1 & -> & Hr1 & _); [lia|]. cbn [mbind res_bind].
  destruct (IH d1 (v :: l) Hr1) as (d' & -> & Hr'); [cbn; lia|].
  exists d'. by rewrite reverse_cons, <- app_assoc.
Qed.

Lemma resize_loop_spec k : forall fuel d l count v, rep d l -> (2 * count + 4 <= max_count)%nat ->
  (count = length l + k)%nat -> (k < fuel)%nat ->
  exists d', resize_loop max_count fuel d count v = Ok d' /\ rep d' (l ++ replicate k v).
Proof.
  induction k as [|k IH]; intros [|fuel] d l count v Hr Hm Hc Hf; try lia; cbn [resize_loop]; rewrite (rep_size d l Hr).
  - rewrite bool_decide_eq_false_2 by lia. exists d. by rewrite app_nil_r.
  - rewrite bool_decide_eq_true_2 by lia. destruct (emplace_back_spec d l v Hr) as (d1 & -> & Hr1 & _); [lia|].
    cbn [mbind res_bind]. destruct (IH fuel d1 (l ++ [v]) count v Hr1) as (d' & -> & Hr'); [lia|rewrite length_app; cbn; lia|lia|].
    exists d'. by rewrite <- app_assoc in Hr'.
Qed.

Lemma resize_spec d l count v : rep d l -> (2 * count + 4 <= max_count)%nat ->
  exists d', resize max_count d count v = Ok d' /\ rep d' (take count l ++ replicate (count - length l) v).
Proof.
  intros Hr Hm. unfold resize. rewrite (rep_size d l Hr). case_bool_decide as E1; [|case_bool_decide as E2].
  - destruct (ExpandCapacity_spec d l (count - length l) Hr) as (d1 & -> & Hr1 & _); [lia|]. cbn [mbind res_bind].
    destruct (resize_loop_spec (count - length l) (S count) d1 l count v Hr1) as (d2 & -> & Hr2); [lia..|].
    cbn [mbind res_bind]. eexists. split; [done|]. by rewrite take_ge by lia.
  - destruct (rep_frame d l Hr) as [Hf Hv]; [lia|]. pose proof Hf as (Hb & Hn & He).
    rewrite bool_decide_eq_false_2 by lia. cbn [negb defined mbind res_bind].
    rewrite mod_wrap by lia. destruct (DestructRange_spec d _ _ count (length l) Hf Hv) as (buf & E & El & Hv1); [lia| |].
    { intros k Hk. apply lookup_lt_is_Some_2. lia. }
    rewrite <- He in E. rewrite E. cbn [mbind res_bind buffer_ begin_ generation_].
    destruct (ShrinkCapacity_spec (mkDeque buf (begin_ d) (wrap (cap d) (begin_ d + count)) (generation_ d)) (take count l))
      as (d' & -> & Hr' & _).
    { eapply rep_intro; [..|exact Hv1|].
      - unfold cap. cbn. rewrite El. by destruct Hr.
      - rewrite length_take. unfold frame, cap. cbn. rewrite El. fold (cap d). replace (count `min` length l)%nat with count by lia.
        split_and!; [done|lia|done].
      - intros k Hk. cbv beta. case_bool_decide; [by rewrite lookup_take_ge by lia|].
        destruct (decide (k < count)%nat); [by rewrite lookup_take_lt|].
        rewrite lookup_take_ge by lia. by rewrite lookup_ge_None_2 by lia. }
    cbn [mbind res_bind]. eexists. split; [done|]. replace (count - length l)%nat with 0%nat by lia. by rewrite app_nil_r.
  - cbn [mbind res_bind]. eexists. split; [done|]. rewrite take_ge by lia. replace (count - length l)%nat with 0%nat by lia.
    by rewrite app_nil_r.
Qed.

Lemma assign_fill_spec d l count v : rep d l -> (2 * count + 4 <= max_count)%nat ->
  exists d', assign_fill max_count d count v = Ok d' /\ rep d' (replicate count v).
Proof.
  intros Hr Hm. unfold assign_fill. destruct (DestructAll_spec d l Hr) as (d1 & -> & Hr1 & _). cbn [mbind res_bind].
  destruct (reserve_spec d1 [] count Hr1) as (d2 & -> & Hr2 & _); [lia|]. cbn [mbind res_bind].
  destruct (emplace_backs_spec (replicate count v) d2 [] Hr2) as (d3 & -> & Hr3); [rewrite length_replicate; cbn; lia|].
  cbn [mbind res_bind]. by eexists.
Qed.

Lemma assign_range_spec d l vs : rep d l -> (2 * length vs + 4 <= max_count)%nat ->
  exists d', assign_range max_count d vs = Ok d' /\ rep d' vs.
Proof.
  intros Hr Hm. unfold assign_range. destruct (DestructAll_spec d l Hr) as (d1 & -> & Hr1 & _). cbn [mbind res_bind].
  destruct (emplace_backs_spec vs d1 [] Hr1) as (d3 & -> & Hr3); [cbn; lia|]. cbn [mbind res_bind]. by eexists.
Qed.

Lemma Deque_clear_spec d l : rep d l -> exists d', Deque_clear d = Ok d' /\ rep d' [] /\ cap d' = 0%nat.
Proof.
  intros Hr. unfold Deque_clear. destruct (DestructAll_spec d l Hr) as (d1 & E & Hr1 & _). rewrite E. cbn [mbind res_bind].
  rewrite free_block_Ok by (by apply raw_buffer). cbn [mbind res_bind]. eexists. split_and!; [done| |done].
  split; [cbn; lia|]. left. split_and!; [done|done|]. cbn. unfold ClearRetainCapacity in E. inv_res. done.
Qed.

(** *** Insertion *)

Lemma MoveOne_pos d f i j v : (begin_ d < cap d)%nat -> view d f -> (i < cap d)%nat -> (j < cap d)%nat -> i <> j ->
  f i = Some v -> f j = None ->
  exists buf, MoveOne (buffer_ d) (wrap (cap d) (begin_ d + i)) (wrap (cap d) (begin_ d + j)) = Ok buf /\ length buf = cap d /\
    view (mkDeque buf (begin_ d) (end_ d) (generation_ d))
      (fun k => if bool_decide (k = i) then None else if bool_decide (k = j) then Some v else f k).
Proof.
  intros Hb Hv Hi Hj Hne Ei Ej. pose proof (wrap_lt _ _ _ Hb Hi) as Hi'. pose proof (wrap_lt _ _ _ Hb Hj) as Hj'.
  unfold MoveOne. rewrite !slot_Ok by (fold (cap d); lia). cbn [mbind res_bind].
  rewrite bool_decide_eq_false_2 by (intros E; by apply wrap_inj in E). cbn [negb assert_ mbind res_bind].
  rewrite (view_at d f i Hb Hv Hi), (view_at d f j Hb Hv Hj), Ei, Ej. eexists. split_and!; [done|by rewrite !length_insert|].
  pose proof (view_insert d f j (Some v) Hb Hv Hj) as H1. set (d1 := mkDeque _ _ _ _) in H1.
  assert (cap d1 = cap d) as Ec by (unfold cap; cbn; apply length_insert).
  pose proof (view_insert d1 _ i None ltac:(rewrite Ec; exact Hb) H1 ltac:(rewrite Ec; exact Hi)) as H2.
  rewrite Ec in H2. exact H2.
Qed.

(** The elements from [k] on move right by [count], from right to left. *)
Lemma room_loop_spec m : forall fuel d f n count k len, frame d n -> view d f -> (len + count <= n)%nat -> (0 < count)%nat ->
  (k + m = len)%nat -> (m < fuel)%nat -> (forall i, (k <= i < len)%nat -> is_Some (f i)) ->
  (forall i, (len <= i < len + count)%nat -> f i = None) ->
  exists buf, room_loop fuel d (pos d len) (pos d (len + count)) (pos d k) = Ok (mkDeque buf (begin_ d) (end_ d) (generation_ d)) /\
    length buf = cap d /\
    view (mkDeque buf (begin_ d) (end_ d) (generation_ d))
      (fun i => if bool_decide (k <= i < k + count)%nat then None
                else if bool_decide (k + count <= i < len + count)%nat then f (i - count)%nat else f i).
Proof.
  induction m as [|m IH]; intros [|fuel] d f n count k len Hf Hv En Hc Hk Hfu Hl Hn; try lia; cbn [room_loop].
  - rewrite (iter_eq_pos d n) by (done || lia). rewrite bool_decide_eq_true_2 by lia. cbn [mbind res_bind].
    exists (buffer_ d). split_and!; [by destruct d|done|]. eapply view_ext; [apply Hf|exact Hv|].
    intros i Hi. case_bool_decide; [apply Hn; lia|]. by rewrite bool_decide_eq_false_2 by lia.
  - rewrite (iter_eq_pos d n), bool_decide_eq_false_2 by (done || lia). cbn [mbind res_bind].
    rewrite !(Decrement_pos d n) by (done || lia). cbn [mbind res_bind index_ pos iter_at].
    pose proof Hf as (Hb & Hnc & He). destruct (Hl (len - 1)%nat) as [v Ev]; [lia|].
    destruct (MoveOne_pos d f (len - 1) (len + count - 1) v Hb Hv) as (buf & -> & El & Hv1); [lia|lia|lia|done|apply Hn; lia|].
    cbn [mbind res_bind]. set (d1 := mkDeque buf _ _ _) in *. assert (cap d1 = cap d) as Ec by done.
    assert (forall x, pos d x = pos d1 x) as Ep by (intros; unfold pos, iter_at; by rewrite Ec).
    rewrite !Ep. replace (len + count - 1)%nat with (len - 1 + count)%nat by lia.
    destruct (IH fuel d1 _ n count k (len - 1)%nat (frame_buffer d n buf El Hf) Hv1) as (buf2 & -> & El2 & Hv2); [lia..| | |].
    + intros i Hi. cbv beta. rewrite !bool_decide_eq_false_2 by lia. apply Hl. lia.
    + intros i Hi. cbv beta. case_bool_decide; [done|]. rewrite bool_decide_eq_false_2 by lia. apply Hn. lia.
    + exists buf2. split_and!; [done|by rewrite El2|]. eapply view_ext; [|exact Hv2|].
      { unfold cap. cbn. rewrite El2, Ec. done. }
      intros i Hi. cbv beta. repeat case_bool_decide; try lia; try done; rewrite <- ?Ev; f_equal; lia.
Qed.

(** [l] with [count] raw slots opened at position [k]. *)
Definition opened l (k count : nat) (i : nat) : option T :=
  if bool_decide (i < k)%nat then l !! i else if bool_decide (i < k + count)%nat then None else l !! (i - count)%nat.

Lemma MakeRoomFor_spec d l k count : rep d l -> (0 < k <= length l)%nat -> (0 < count)%nat ->
  (2 * (length l + count) + 4 <= max_count)%nat ->
  exists d', MakeRoomFor max_count d count (pos d k) = Ok (d', pos d' k, pos d' (k + count)) /\
    (cap d' <= max_count)%nat /\ frame d' (length l + count) /\ view d' (opened l k count) /\ generation_ d' = generation_ d.
Proof.
  intros Hr Hk Hc Hm. unfold MakeRoomFor. rewrite bool_decide_eq_false_2 by lia.
  destruct (rep_frame d l Hr) as [Hf _]; [lia|]. rewrite (offset_pos d (length l)) by (done || lia).
  destruct (ExpandCapacity_spec d l count Hr Hm) as (d1 & -> & Hr1 & Eg & Hroom). cbn [mbind res_bind].
  destruct (rep_room d1 l count Hr1 Hroom Hc) as (Hf1 & Hv1 & Hlt). pose proof Hf1 as (Hb & Hn & He).
  rewrite (bool_decide_eq_false_2 (cap d1 = 0%nat)) by lia. cbn [negb defined mbind res_bind index_ created_generation_].
  set (d2 := mkDeque (buffer_ d1) (begin_ d1) ((end_ d1 + count) mod cap d1) (generation_ d1)).
  assert (cap d2 = cap d1) as Ec by done.
  assert (frame d2 (length l + count)) as Hf2.
  { unfold frame. rewrite Ec. cbn [begin_ end_ d2]. rewrite mod_wrap, He by (rewrite ?He; positions). positions. }
  rewrite (mod_wrap (cap d1) (begin_ d1 + k)) by lia. change (cap d2) with (cap d1).
  replace (mkIter (wrap (cap d1) (begin_ d1 + k)) (created_generation_ (pos d k))) with (pos d2 k)
    by (unfold pos, iter_at; cbn; by rewrite Eg).
  rewrite (pos_end d1 _ Hf1), (pos_end d2 _ Hf2). change (pos d1 (length l)) with (pos d2 (length l)).
  destruct (room_loop_spec (length l - k) (S (cap d1)) d2 (fun j => l !! j) (length l + count) count k (length l) Hf2 Hv1)
    as (buf & -> & El & Hv2); [lia..| | |].
  { intros i Hi. apply lookup_lt_is_Some_2. lia. }
  { intros i Hi. apply lookup_ge_None_2. lia. }
  cbn [mbind res_bind]. set (d3 := mkDeque buf _ _ _) in *. exists d3. assert (cap d3 = cap d1) as Ec3 by done.
  split_and!.
  - do 2 f_equal; [f_equal|]; unfold pos, iter_at; rewrite ?Ec3, ?Ec; cbn; [done|]. f_equal.
    rewrite mod_wrap by positions. positions.
  - rewrite Ec3. by destruct Hr1.
  - by apply frame_buffer.
  - eapply view_ext; [rewrite Ec3; exact Hb|exact Hv2|]. intros i Hi. unfold opened. cbv beta.
    repeat case_bool_decide; try lia; try done. by rewrite !lookup_ge_None_2 by lia.
  - done.
Qed.

Lemma fill_loop_spec vs : forall d f n m, frame d n -> view d f -> (m + length vs <= n)%nat ->
  (forall i, (m <= i < m + length vs)%nat -> f i = None) ->
  exists buf, fill_loop d (pos d m) (pos d (m + length vs)) vs = Ok (mkDeque buf (begin_ d) (end_ d) (generation_ d)) /\
    length buf = cap d /\
    view (mkDeque buf (begin_ d) (end_ d) (generation_ d))
      (fun i => if bool_decide (m <= i < m + length vs)%nat then vs !! (i - m)%nat else f i).
Proof.
  induction vs as [|v vs IH]; intros d f n m Hf Hv Hm Hn; cbn [fill_loop length] in *;
    rewrite (iter_lt_pos d n) by (done || lia).
  - rewrite bool_decide_eq_false_2 by lia. cbn [mbind res_bind negb]. exists (buffer_ d). split_and!; [by destruct d|done|].
    eapply view_ext; [apply Hf|exact Hv|]. intros i _. by rewrite bool_decide_eq_false_2 by lia.
  - rewrite bool_decide_eq_true_2 by lia. cbn [mbind res_bind negb]. pose proof Hf as (Hb & Hnc & He).
    rewrite construct_Ok; cycle 1.
    { cbn [index_ pos iter_at]. rewrite (view_at d f m Hb Hv) by lia. f_equal. apply Hn. lia. }
    cbn [mbind res_bind]. pose proof (view_insert d f m (Some v) Hb Hv ltac:(lia)) as Hv1.
    set (d1 := mkDeque (<[_ := _]> _) _ _ _) in *.
    assert (cap d1 = cap d) as Ec by (unfold cap; cbn; apply length_insert).
    assert (forall x, pos d x = pos d1 x) as Ep by (intros; unfold pos, iter_at; by rewrite Ec).
    assert (frame d1 n) as Hf1 by (apply frame_buffer; [apply length_insert|done]).
    rewrite !Ep, (Increment_pos d1 n) by (done || lia). cbn [mbind res_bind].
    replace (m + S (length vs))%nat with (m + 1 + length vs)%nat by lia.
    destruct (IH d1 _ n (m + 1)%nat Hf1 Hv1) as (buf & -> & El & Hv2); [lia| |].
    { intros i Hi. cbv beta. rewrite bool_decide_eq_false_2 by lia. apply Hn. lia. }
    exists buf. rewrite Ec in El. split_and!; [done|done|]. eapply view_ext; [|exact Hv2|].
    { unfold cap. cbn. by rewrite El. }
    intros i _. cbv beta. destruct (decide (i = m)) as [->|Hne].
    + rewrite bool_decide_eq_false_2, bool_decide_eq_true_2, bool_decide_eq_true_2, Nat.sub_diag by lia. done.
    + rewrite (bool_decide_eq_false_2 (i = m)) by done. repeat case_bool_decide; try lia; try done.
      replace (i - m)%nat with (S (i - (m + 1)))%nat by lia. done.
Qed.

Definition inserted l (k : nat) vs : list T := take k l ++ vs ++ drop k l.

Lemma inserted_length l k vs : length (inserted l k vs) = (length l + length vs)%nat.
Proof. unfold inserted. rewrite !length_app, length_take, length_drop. lia. Qed.

Lemma inserted_lookup l k vs i : (k <= length l)%nat ->
  (if bool_decide (k <= i < k + length vs)%nat then vs !! (i - k)%nat else opened l k (length vs) i) = inserted l k vs !! i.
Proof.
  intros Hk. assert (length (take k l) = k) as El by (rewrite length_take; lia). unfold inserted, opened.
  case_bool_decide as E1; [rewrite lookup_app_r by lia; rewrite El, lookup_app_l by lia; done|].
  case_bool_decide as E2; [rewrite lookup_app_l by lia; by rewrite lookup_take_lt|].
  rewrite bool_decide_eq_false_2 by lia. rewrite !lookup_app_r by lia. rewrite El, lookup_drop. f_equal. lia.
Qed.

Lemma begin_pos d l k : rep d l -> (k <= length l)%nat -> iter_eq (pos d k) (Deque_begin d) = Ok (bool_decide (k = 0%nat)).
Proof.
  intros [_ [(Hc & -> & E)|[Hf _]]] Hk.
  - cbn in Hk. replace k with 0%nat by lia. unfold iter_eq, CheckComparable. cbn. rewrite Z.eqb_refl. cbn. f_equal.
    rewrite Nat.add_0_r, Hc. unfold wrap. rewrite (bool_decide_eq_false_2 (_ < 0)%nat) by lia.
    apply bool_decide_ext. split; lia.
  - rewrite (pos_begin d _ Hf). by apply (iter_eq_pos d (length l)); [done|lia|lia].
Qed.

(** Filling the opened slots. *)
Lemma fill_opened d l k vs : (k <= length l)%nat -> (cap d <= max_count)%nat -> frame d (length l + length vs) ->
  view d (opened l k (length vs)) ->
  exists d', fill_loop d (pos d k) (pos d (k + length vs)) vs = Ok d' /\ rep d' (inserted l k vs) /\
    generation_ d' = generation_ d /\ begin_ d' = begin_ d /\ cap d' = cap d.
Proof.
  intros Hk Hm Hf Hv. destruct (fill_loop_spec vs d _ _ k Hf Hv) as (buf & -> & El & Hv1); [lia| |].
  { intros i Hi. unfold opened. by rewrite bool_decide_eq_false_2, bool_decide_eq_true_2 by lia. }
  eexists. split_and!; [done| |done..]. eapply rep_intro; [..|exact Hv1|].
  - unfold cap. cbn. by rewrite El.
  - rewrite inserted_length. by apply frame_buffer.
  - intros i _. by apply inserted_lookup.
Qed.

Lemma insert_fill_spec d l k count v : rep d l -> (k <= length l)%nat -> (2 * (length l + count) + 4 <= max_count)%nat ->
  exists d', insert_fill max_count d (pos d k) count v = Ok d' /\ rep d' (inserted l k (replicate count v)).
Proof.
  intros Hr Hk Hm. unfold insert_fill, ValidateIterator. rewrite unstable_pos. cbn [mbind res_bind].
  rewrite (begin_pos d l) by done. cbn [mbind res_bind]. case_bool_decide as E0.
  - subst k. destruct (ExpandCapacity_spec d l count Hr Hm) as (d1 & -> & Hr1 & _). cbn [mbind res_bind].
    destruct (push_fronts_spec (replicate count v) d1 l Hr1) as (d2 & -> & Hr2); [rewrite length_replicate; lia|].
    exists d2. split; [done|]. unfold inserted. rewrite reverse_replicate in Hr2. by rewrite take_0, drop_0.
  - change (iter_at d (index_ (pos d k))) with (pos d k). destruct (decide (count = 0%nat)) as [->|Hc].
    { unfold MakeRoomFor. rewrite bool_decide_eq_true_2 by done. cbn [mbind res_bind replicate fill_loop].
      destruct (rep_frame d l Hr) as [Hf _]; [lia|]. rewrite (iter_lt_pos d (length l)) by (done || lia).
      rewrite bool_decide_eq_false_2 by lia. cbn [mbind res_bind negb]. eexists. split; [done|]. unfold inserted. cbn. by rewrite take_drop. }
    destruct (MakeRoomFor_spec d l k count Hr) as (d1 & -> & Hm1 & Hf1 & Hv1 & _); [lia..|]. cbn [mbind res_bind].
    destruct (fill_opened d1 l k (replicate count v)) as (d2 & E2 & Hr2 & _); rewrite ?length_replicate in *; [done..|].
    rewrite E2. cbn [mbind res_bind]. by eexists.
Qed.

Lemma insert_range_spec d l k vs : rep d l -> (k <= length l)%nat -> (2 * (length l + length vs) + 4 <= max_count)%nat ->
  exists d', insert_range max_count d (pos d k) vs = Ok d' /\ rep d' (inserted l k vs).
Proof.
  intros Hr Hk Hm. unfold insert_range, ValidateIterator. rewrite unstable_pos. cbn [mbind res_bind].
  case_bool_decide as Hc.
  { exists d. split; [done|]. unfold inserted. destruct vs; [|done]. cbn. by rewrite take_drop. }
  rewrite (begin_pos d l) by done. cbn [mbind res_bind]. case_bool_decide as E0; cycle 1.
  { change (iter_at d (index_ (pos d k))) with (pos d k).
    destruct (MakeRoomFor_spec d l k (length vs) Hr) as (d1 & -> & Hm1 & Hf1 & Hv1 & _); [lia..|]. cbn [mbind res_bind].
    destruct (fill_opened d1 l k vs) as (d2 & -> & Hr2 & _); [done..|]. cbn [mbind res_bind]. by eexists. }
  subst k. destruct (ExpandCapacity_spec d l (length vs) Hr Hm) as (d1 & -> & Hr1 & _ & Hroom). cbn [mbind res_bind].
  destruct (rep_room d1 l (length vs) Hr1 Hroom) as (Hf1 & Hv1 & Hlt); [lia|]. pose proof Hf1 as (Hb & Hn & He).
  rewrite (bool_decide_eq_false_2 (cap d1 = 0%nat)) by lia. cbn [negb defined mbind res_bind].
  rewrite mod_wrap by lia. replace (begin_ d1 + cap d1 - length vs)%nat with (begin_ d1 + (cap d1 - length vs))%nat by lia.
  set (d2 := mkDeque _ (wrap _ _) _ _). assert (cap d2 = cap d1) as Ec by done.
  assert (frame d2 (length l + length vs)) as Hf2.
  { unfold frame. rewrite Ec. cbn [begin_ end_ d2]. rewrite He. positions. }
  assert (view d2 (opened l 0 (length vs))) as Hv2.
  { eapply view_ext; [apply Hf2|apply (view_shift d1 _ (cap d1 - length vs) _ _ Hb Hv1); lia|].
    intros i Hi. rewrite Ec in Hi. unfold opened. cbv beta. rewrite (bool_decide_eq_false_2 (i < 0)%nat) by lia. case_bool_decide.
    - apply lookup_ge_None_2. positions.
    - f_equal. positions. }
  rewrite (pos_begin d2 _ Hf2). replace (Deque_begin d1) with (pos d2 (0 + length vs)); cycle 1.
  { unfold pos, iter_at, Deque_begin. rewrite Ec. cbn [begin_ generation_ d2]. unfold iter_at. f_equal. positions. }
  destruct (fill_opened d2 l 0 vs) as (d3 & -> & Hr3 & _); [lia|rewrite Ec; by destruct Hr1|done..|]. cbn [mbind res_bind]. by eexists.
Qed.

Lemma emplace_spec d l k v : rep d l -> (k <= length l)%nat -> (2 * (length l + 1) + 4 <= max_count)%nat ->
  exists d', emplace max_count d (pos d k) v = Ok (d', pos d' k) /\ rep d' (inserted l k [v]) /\
    generation_ d' = u64 (generation_ d + 1).
Proof.
  intros Hr Hk Hm. unfold emplace, ValidateIterator. rewrite unstable_pos. cbn [mbind res_bind].
  rewrite (begin_pos d l) by done. cbn [mbind res_bind]. case_bool_decide as E0.
  - subst k. destruct (emplace_front_spec d l v Hr Hm) as (d1 & -> & Hr1 & Eg). cbn [mbind res_bind]. exists d1.
    destruct (rep_frame d1 _ Hr1) as [Hf1 _]; [cbn; lia|]. rewrite (pos_begin d1 _ Hf1). split_and!; [done| |done].
    unfold inserted. by rewrite take_0, drop_0.
  - change (iter_at (IncrementGeneration d) (index_ (pos d k))) with (pos (IncrementGeneration d) k).
    destruct (MakeRoomFor_spec (IncrementGeneration d) l k 1) as (d1 & -> & Hm1 & Hf1 & Hv1 & Eg); [done|lia..|]. cbn [mbind res_bind].
    pose proof Hf1 as (Hb & Hn & _). rewrite construct_Ok; cycle 1.
    { cbn [index_ pos iter_at]. rewrite (view_at d1 _ k Hb Hv1) by lia. unfold opened.
      by rewrite bool_decide_eq_false_2, bool_decide_eq_true_2 by lia. }
    cbn [mbind res_bind]. pose proof (view_insert d1 _ k (Some v) Hb Hv1 ltac:(lia)) as Hv2.
    set (d2 := mkDeque _ _ _ _) in *. exists d2. assert (cap d2 = cap d1) as Ec by (unfold cap; cbn; apply length_insert).
    split_and!; [| |cbn; by rewrite Eg].
    + do 2 f_equal. unfold pos, iter_at. by rewrite Ec.
    + eapply rep_intro; [by rewrite Ec| |exact Hv2|].
      * rewrite inserted_length. apply frame_buffer; [apply length_insert|done].
      * intros i _. cbv beta. rewrite <- inserted_lookup by done. cbn [length]. case_bool_decide as E.
        -- subst i. by rewrite bool_decide_eq_true_2, Nat.sub_diag by lia.
        -- by rewrite bool_decide_eq_false_2 by lia.
Qed.

(** *** Removal *)

(** The elements from [src] to [n] move left to [dest], from left to right. *)
Lemma erase_loop_spec m : forall fuel d f n src dest, frame d n -> view d f -> (src + m = n)%nat -> (dest < src)%nat ->
  (m < fuel)%nat -> (forall i, (src <= i < n)%nat -> is_Some (f i)) -> (forall i, (dest <= i < src)%nat -> f i = None) ->
  exists buf, erase_loop fuel d (pos d src) (pos d n) (pos d dest) =
      Ok (mkDeque buf (begin_ d) (end_ d) (generation_ d), pos d (dest + m)) /\ length buf = cap d /\
    view (mkDeque buf (begin_ d) (end_ d) (generation_ d))
      (fun i => if bool_decide (dest <= i < dest + m)%nat then f (i - dest + src)%nat
                else if bool_decide (dest + m <= i < n)%nat then None else f i).
Proof.
  induction m as [|m IH]; intros [|fuel] d f n src dest Hf Hv En Hd Hfu Hl Hn; try lia; cbn [erase_loop];
    rewrite (iter_lt_pos d n) by (done || lia).
  - rewrite bool_decide_eq_false_2 by lia. cbn [mbind res_bind negb]. exists (buffer_ d).
    split_and!; [by rewrite Nat.add_0_r; destruct d|done|]. eapply view_ext; [apply Hf|exact Hv|].
    intros i _. rewrite bool_decide_eq_false_2 by lia. case_bool_decide; [apply Hn; lia|done].
  - rewrite bool_decide_eq_true_2 by lia. cbn [mbind res_bind negb]. pose proof Hf as (Hb & Hnc & He).
    destruct (Hl src) as [v Ev]; [lia|].
    destruct (MoveOne_pos d f src dest v Hb Hv) as (buf & E & El & Hv1); [lia|lia|lia|done|apply Hn; lia|].
    cbn [index_ pos iter_at]. rewrite E. cbn [mbind res_bind]. set (d1 := mkDeque buf _ _ _) in *.
    assert (cap d1 = cap d) as Ec by done. assert (frame d1 n) as Hf1 by (by apply frame_buffer).
    assert (forall x, pos d x = pos d1 x) as Ep by (intros; unfold pos, iter_at; by rewrite Ec).
    rewrite !Ep, !(Increment_pos d1 n) by (done || lia). cbn [mbind res_bind].
    destruct (IH fuel d1 _ n (src + 1)%nat (dest + 1)%nat Hf1 Hv1) as (buf2 & -> & El2 & Hv2); [lia..| | |].
    + intros i Hi. cbv beta. rewrite !bool_decide_eq_false_2 by lia. apply Hl. lia.
    + intros i Hi. cbv beta. case_bool_decide; [done|]. rewrite bool_decide_eq_false_2 by lia. apply Hn. lia.
    + exists buf2. split_and!; [by replace (dest + S m)%nat with (dest + 1 + m)%nat by lia|by rewrite El2|].
      eapply view_ext; [|exact Hv2|].
      { unfold cap. cbn. by rewrite El2, Ec. }
      intros i Hi. cbv beta. repeat case_bool_decide; try lia; try done; rewrite <- ?Ev; f_equal; lia.
Qed.

Definition erased l (i j : nat) : list T := take i l ++ drop j l.

Lemma erased_length l i j : (i <= j <= length l)%nat -> length (erased l i j) = (length l - (j - i))%nat.
Proof. intros H. unfold erased. rewrite length_app, length_take, length_drop. lia. Qed.

Lemma erased_lookup l i j k : (i <= j <= length l)%nat ->
  erased l i j !! k = if bool_decide (k < i)%nat then l !! k else l !! (k - i + j)%nat.
Proof.
  intros H. assert (length (take i l) = i) as El by (rewrite length_take; lia). unfold erased. case_bool_decide.
  - rewrite lookup_app_l by lia. by rewrite lookup_take_lt.
  - rewrite lookup_app_r by lia. rewrite El, lookup_drop. f_equal. lia.
Qed.

(** [l] without the elements from [i] to [j], which leave raw slots. *)
Definition hollow l (i j : nat) (k : nat) : option T := if bool_decide (i <= k < j)%nat then None else l !! k.

(** Removal at the beginning moves the beginning. *)
Lemma erase_front d l j : (cap d <= max_count)%nat -> frame d (length l) -> view d (hollow l 0 j) -> (j <= length l)%nat ->
  let d' := mkDeque (buffer_ d) (wrap (cap d) (begin_ d + j)) (end_ d) (generation_ d) in
  rep d' (erased l 0 j) /\ iter_at d' (wrap (cap d) (begin_ d + j)) = pos d' 0.
Proof.
  intros Hm Hf Hv Hj d'. pose proof Hf as (Hb & Hn & He). assert (cap d' = cap d) as Ec by done. split.
  - eapply rep_intro; [by rewrite Ec| |apply (view_shift d _ j (end_ d) (generation_ d) Hb Hv); lia|].
    + rewrite erased_length by lia. unfold frame. rewrite Ec. cbn [begin_ end_ d']. rewrite He. positions.
    + intros k Hk. rewrite Ec in Hk. cbv beta. unfold hollow. rewrite erased_lookup by lia.
      rewrite (bool_decide_eq_false_2 (k < 0)%nat) by lia. case_bool_decide.
      * symmetry. apply lookup_ge_None_2. positions.
      * destruct (decide (k + j < cap d)%nat); [f_equal; positions|]. rewrite !lookup_ge_None_2; [done|lia|positions].
  - unfold pos, iter_at. rewrite Ec. cbn [begin_ d']. f_equal. positions.
Qed.

(** Removal in the middle moves the elements behind. *)
Lemma erase_middle d l i j : (cap d <= max_count)%nat -> frame d (length l) -> view d (hollow l i j) -> (i < j <= length l)%nat ->
  exists buf, erase_loop (S (cap d)) d (pos d j) (pos d (length l)) (pos d i) =
      Ok (mkDeque buf (begin_ d) (end_ d) (generation_ d), pos d (i + (length l - j))) /\ length buf = cap d /\
    rep (mkDeque buf (begin_ d) (index_ (pos d (i + (length l - j)))) (generation_ d)) (erased l i j).
Proof.
  intros Hm Hf Hv Hij. pose proof Hf as (Hb & Hn & He).
  destruct (erase_loop_spec (length l - j) (S (cap d)) d _ (length l) j i Hf Hv) as (buf & -> & El & Hv2); [lia..| | |].
  { intros k Hk. unfold hollow. rewrite bool_decide_eq_false_2 by lia. apply lookup_lt_is_Some_2. lia. }
  { intros k Hk. unfold hollow. by rewrite bool_decide_eq_true_2 by lia. }
  exists buf. split_and!; [done|done|]. eapply rep_intro; [..|exact Hv2|].
  - unfold cap. cbn. by rewrite El.
  - rewrite erased_length by lia. unfold frame. set (d3 := mkDeque buf _ _ _). assert (cap d3 = cap d) as -> by done.
    cbn [begin_ end_ d3 index_ pos iter_at].
    replace (i + (length l - j))%nat with (length l - (j - i))%nat by lia. split_and!; [done|lia|done].
  - intros k Hk. cbv beta. unfold hollow. rewrite erased_lookup by lia. repeat case_bool_decide; try lia; try done;
      rewrite !lookup_ge_None_2 by lia; done.
Qed.

Lemma erase_range_spec d l i j : rep d l -> (i <= j <= length l)%nat ->
  exists d', erase_range d (pos d i) (pos d j) = Ok (d', pos d' i) /\ rep d' (erased l i j) /\
    generation_ d' = u64 (generation_ d + 1).
Proof.
  intros Hr Hij. unfold erase_range, ValidateIterator. rewrite !unstable_pos. cbn [mbind res_bind].
  case_bool_decide as E.
  { exists (IncrementGeneration d). split_and!; [reflexivity| |done]. replace (erased l i j) with l; [done|].
    destruct (decide (i = j)) as [->|Hne]; [unfold erased; by rewrite take_drop|].
    destruct (rep_frame d l Hr) as [(Hb & Hn & _) _]; [lia|]. cbn in E. apply wrap_inj in E; lia. }
  assert (i < j)%nat as Hlt by (destruct (decide (i = j)) as [->|]; [done|lia]).
  destruct (rep_frame d l Hr) as [Hf Hv]; [lia|]. pose proof Hf as (Hb & Hn & He). set (dg := IncrementGeneration d).
  destruct (destroy_span dg _ _ i j Hf Hv) as (buf & E1 & El & Hv1); [lia|intros k Hk; apply lookup_lt_is_Some_2; lia|].
  cbv zeta in E1. cbn [index_ pos iter_at]. change (cap d) with (cap dg). change (begin_ d) with (begin_ dg). rewrite E1.
  cbn [mbind res_bind]. clear E1. set (d1 := mkDeque buf _ _ _) in *. assert (cap d1 = cap dg) as Ec by done. rewrite <- Ec.
  assert (frame d1 (length l)) as Hf1 by (by apply frame_buffer).
  assert (cap d1 <= max_count)%nat as Hm by (destruct Hr; rewrite Ec; done).
  assert (bool_decide (wrap (cap d1) (begin_ dg + i) = begin_ d1) = bool_decide (i = 0%nat)) as ->.
  { apply bool_decide_ext. change (begin_ d1) with (begin_ dg). destruct Hf1 as (H1 & H2 & _). change (begin_ d1) with (begin_ dg) in H1. positions. }
  case_bool_decide as E0.
  - subst i. destruct (erase_front d1 l j Hm Hf1 Hv1) as [Hr2 Ep]; [lia|]. eexists. split_and!; [|exact Hr2|done].
    do 2 f_equal. exact Ep.
  - rewrite (pos_end d1 _ Hf1). change (iter_at d1 (wrap (cap d1) (begin_ dg + j))) with (pos d1 j).
    change (iter_at d1 (wrap (cap d1) (begin_ dg + i))) with (pos d1 i).
    destruct (erase_middle d1 l i j Hm Hf1 Hv1) as (buf2 & -> & El2 & Hr2); [lia|]. cbn [mbind res_bind buffer_ begin_ generation_].
    eexists. split_and!; [|exact Hr2|done]. do 2 f_equal. unfold pos, iter_at. cbn [begin_ generation_].
    set (d3 := mkDeque buf2 _ _ _). by assert (cap d3 = cap d1) as -> by done.
Qed.

Lemma erase_spec d l i : rep d l -> (i < length l)%nat ->
  exists d', erase d (pos d i) = Ok (d', pos d' i) /\ rep d' (erased l i (i + 1)) /\ generation_ d' = u64 (generation_ d + 1).
Proof.
  intros Hr Hi. unfold erase. destruct (rep_frame d l Hr) as [Hf _]; [lia|].
  assert (Add d (pos d i) 1 = Ok (pos d (i + 1))) as ->.
  { rewrite <- (Add_pos d (length l) i (i + 1)) by (done || lia). f_equal. lia. }
  apply erase_range_spec; [done|lia].
Qed.

(** *** Whole deques *)
Lemma read_loop_spec m : forall fuel d l k, rep d l -> frame d (length l) -> view d (fun j => l !! j) -> (k + m = length l)%nat ->
  (m < fuel)%nat -> read_loop fuel d (pos d k) (pos d (length l)) = Ok (drop k l).
Proof.
  induction m as [|m IH]; intros [|fuel] d l k Hr Hf Hv Hk Hm; try lia; cbn [read_loop];
    rewrite (iter_eq_pos d (length l)) by (done || lia).
  - rewrite bool_decide_eq_true_2 by lia. cbn [mbind res_bind]. by rewrite drop_ge by lia.
  - rewrite bool_decide_eq_false_2 by lia. cbn [mbind res_bind].
    destruct (lookup_lt_is_Some_2 l k) as [v Ev]; [lia|].
    rewrite (deref_pos d (length l) _ k v Hf Hv) by (done || lia). cbn [mbind res_bind].
    rewrite (Increment_pos d (length l)) by (done || lia). cbn [mbind res_bind]. rewrite IH by (done || lia). cbn [mbind res_bind].
    rewrite (drop_S l v k Ev). by replace (k + 1)%nat with (S k) by lia.
Qed.

Lemma read_spec d l : rep d l -> read d = Ok l.
Proof.
  intros Hr. pose proof Hr as [_ [(Hc & -> & E)|[Hf Hv]]]; unfold read.
  - cbn. unfold iter_eq, CheckComparable. cbn. rewrite Z.eqb_refl. cbn. by rewrite E, bool_decide_eq_true_2.
  - rewrite (pos_begin d _ Hf), (pos_end d _ Hf). rewrite (read_loop_spec (length l)); [done|done|done|done|lia|].
    destruct Hf as (_ & Hn & _). lia.
Qed.

Lemma Deque_copy_spec other l : rep other l -> (2 * length l + 4 <= max_count)%nat ->
  exists d, Deque_copy max_count other = Ok d /\ rep d l.
Proof.
  intros Hr Hm. unfold Deque_copy, VectorBuffer_new. rewrite (rep_size other l Hr), bool_decide_eq_true_2 by lia.
  cbn [assert_ mbind res_bind]. rewrite (read_spec other l Hr). cbn [mbind res_bind].
  apply (assign_range_spec _ []); [|done]. eapply (rep_intro _ (fun _ => None)); [..|done].
  - unfold cap. cbn. rewrite length_replicate. lia.
  - unfold frame, cap. cbn. rewrite length_replicate. positions.
  - intros i. unfold cap. cbn. rewrite length_replicate. intros Hi. by apply lookup_replicate_2.
Qed.

Lemma Deque_assign_spec d l other l' : rep d l -> rep other l' -> (2 * length l' + 4 <= max_count)%nat ->
  exists d', Deque_assign max_count d other = Ok d' /\ rep d' l'.
Proof.
  intros Hr Ho Hm. unfold Deque_assign. rewrite (rep_size other l' Ho).
  destruct (reserve_spec d l (length l') Hr) as (d1 & -> & Hr1 & _); [lia|]. cbn [mbind res_bind].
  rewrite (read_spec other l' Ho). cbn [mbind res_bind]. by eapply assign_range_spec.
Qed.

Lemma Deque_move_assign_spec d l other l' : rep d l -> rep other l' ->
  exists d' o', Deque_move_assign d other = Ok (d', o') /\ rep d' l' /\ rep o' [].
Proof.
  intros Hr Ho. unfold Deque_move_assign. destruct (DestructAll_spec d l Hr) as (d1 & -> & Hr1 & _). cbn [mbind res_bind].
  rewrite free_block_Ok by (by apply raw_buffer). cbn [mbind res_bind]. do 2 eexists. split_and!; [done|done|].
  split; [cbn; lia|]. by left.
Qed.

Lemma Deque_delete_spec d l : rep d l -> Deque_delete d = Ok tt.
Proof.
  intros Hr. unfold Deque_delete. destruct (DestructAll_spec d l Hr) as (d1 & E & Hr1 & _). unfold ClearRetainCapacity in E.
  inv_res. destruct (DestructRange _ _ _) as [d2| | |]; try done. cbn [mbind res_bind].
  apply free_block_Ok. intros i o Ho. simplify_eq. by apply (raw_buffer _ Hr1 i).
Qed.
End Spec.

(** ** The deque refines a list *)
Inductive deque_op (T : Type) :=
  | DPushFront (v : T) | DPushBack (v : T) | DPopFront | DPopBack
  | DReserve (n : nat) | DShrinkToFit | DClear | DResize (n : nat) (v : T)
  | DAssignFill (n : nat) (v : T) | DAssign (vs : list T)
  | DInsertFill (k n : nat) (v : T) | DInsert (k : nat) (vs : list T) | DEmplace (k : nat) (v : T)
  | DErase (i j : nat).
Arguments DPushFront {T} v.
Arguments DPushBack {T} v.
Arguments DPopFront {T}.
Arguments DPopBack {T}.
Arguments DReserve {T} n.
Arguments DShrinkToFit {T}.
Arguments DClear {T}.
Arguments DResize {T} n v.
Arguments DAssignFill {T} n v.
Arguments DAssign {T} vs.
Arguments DInsertFill {T} k n v.
Arguments DInsert {T} k vs.
Arguments DEmplace {T} k v.
Arguments DErase {T} i j.

Section Refinement.
Context {T : Type} (max_count : nat).
Implicit Types (d : circular_deque T) (l vs : list T).

(** [begin() + k]. *)
Definition nth_iter d (k : nat) : res iterator := Add d (Deque_begin d) (Z.of_nat k).

Definition deque_step d (o : deque_op T) : res (circular_deque T) :=
  match o with
  | DPushFront v => push_front max_count d v
  | DPushBack v => push_back max_count d v
  | DPopFront => pop_front max_count d
  | DPopBack => pop_back max_count d
  | DReserve n => reserve max_count d n
  | DShrinkToFit => shrink_to_fit max_count d
  | DClear => Deque_clear d
  | DResize n v => resize max_count d n v
  | DAssignFill n v => assign_fill max_count d n v
  | DAssign vs => assign_range max_count d vs
  | DInsertFill k n v => it ← nth_iter d k; insert_fill max_count d it n v
  | DInsert k vs => it ← nth_iter d k; insert_range max_count d it vs
  | DEmplace k v => it ← nth_iter d k; '(d, _) ← emplace max_count d it v; Ok d
  | DErase i j => a ← nth_iter d i; b ← nth_iter d j; '(d, _) ← erase_range d a b; Ok d
  end.

Fixpoint deque_run d (os : list (deque_op T)) : res (circular_deque T) :=
  match os with [] => Ok d | o :: os => d ← deque_step d o; deque_run d os end.

(** The list operation, when the call is legal: there is an element to remove, the
    positions lie in the list, and the new contents fit twice into the largest block. *)
Definition list_step l (o : deque_op T) : option (list T) :=
  let fits l' := if bool_decide (2 * length l' + 4 <= max_count)%nat then Some l' else None in
  let within k r := if bool_decide (k <= length l)%nat then r else None in
  match o with
  | DPushFront v => fits (v :: l)
  | DPushBack v => fits (l ++ [v])
  | DPopFront => match l with [] => None | _ :: l => Some l end
  | DPopBack => match l with [] => None | _ => Some (take (length l - 1) l) end
  | DReserve n => if bool_decide (n < max_count)%nat then Some l else None
  | DShrinkToFit => Some l
  | DClear => Some []
  | DResize n v => fits (take n l ++ replicate (n - length l) v)
  | DAssignFill n v => fits (replicate n v)
  | DAssign vs => fits vs
  | DInsertFill k n v => within k (fits (inserted l k (replicate n v)))
  | DInsert k vs => within k (fits (inserted l k vs))
  | DEmplace k v => within k (fits (inserted l k [v]))
  | DErase i j => within j (if bool_decide (i <= j)%nat then Some (erased l i j) else None)
  end.
Fixpoint list_run l (os : list (deque_op T)) : option (list T) :=
  match os with [] => Some l | o :: os => l ← list_step l o; list_run l os end.

Lemma nth_iter_pos d l k : rep max_count d l -> (k <= length l)%nat -> nth_iter d k = Ok (pos d k).
Proof.
  intros [_ [(Hc & -> & E)|[Hf _]]] Hk; unfold nth_iter.
  - cbn in Hk. replace k with 0%nat by lia. replace (pos d 0) with (Deque_begin d)
      by (unfold pos, Deque_begin, iter_at; f_equal; rewrite Hc; positions).
    unfold Add, CheckUnstableUsage, CheckValidIndexOrEnd. cbn [Deque_begin iter_at index_ created_generation_].
    by rewrite (Z.eqb_refl (generation_ d)), (bool_decide_eq_true_2 (begin_ d = end_ d)) by done.
  - rewrite (pos_begin d _ Hf). rewrite <- (Add_pos d (length l) 0 k) by (done || lia). f_equal. lia.
Qed.

Lemma snoc_inv l : l <> [] -> exists v, l = take (length l - 1) l ++ [v].
Proof.
  intros Hl. destruct l as [|v l' _] using rev_ind; [done|]. exists v. rewrite length_app. cbn.
  rewrite take_app_le by lia. by rewrite take_ge by lia.
Qed.

Lemma deque_step_refines d l o l' : rep max_count d l -> list_step l o = Some l' ->
  exists d', deque_step d o = Ok d' /\ rep max_count d' l'.
Proof.
  intros Hr E. destruct o; cbn [list_step deque_step] in *;
    repeat (case_bool_decide; try done); try (injection E as <-); rewrite ?inserted_length in *; cbn [length] in *;
    rewrite ?(nth_iter_pos d l) by (done || lia); cbn [mbind res_bind].
  - destruct (emplace_front_spec max_count d l v Hr) as (d' & ? & ? & _); [lia|eauto].
  - rewrite length_app in *. cbn [length] in *. destruct (emplace_back_spec max_count d l v Hr) as (d' & ? & ? & _); [lia|eauto].
  - destruct l as [|v l]; [done|]. injection E as <-. destruct (pop_front_spec max_count d l v Hr) as (d' & ? & ? & _); eauto.
  - assert (l <> [] /\ l' = take (length l - 1) l) as [Hl ->] by (destruct l; [done|split; [done|congruence]]).
    destruct (snoc_inv l Hl) as [v Ev]. rewrite Ev in Hr. destruct (pop_back_spec max_count d _ v Hr) as (d' & ? & ? & _). eauto.
  - destruct (reserve_spec max_count d l n Hr) as (d' & ? & ? & _); [done|eauto].
  - destruct (shrink_to_fit_spec max_count d l Hr) as (d' & ? & ? & _); eauto.
  - destruct (Deque_clear_spec max_count d l Hr) as (d' & ? & ? & _); eauto.
  - rewrite length_app, length_take, length_replicate in *. apply resize_spec; [done|lia].
  - rewrite length_replicate in *. eapply assign_fill_spec; [done|lia].
  - eapply assign_range_spec; [done|lia].
  - rewrite length_replicate in *. apply insert_fill_spec; [done|lia|lia].
  - apply insert_range_spec; [done|lia|lia].
  - destruct (emplace_spec max_count d l k v Hr) as (d' & -> & Hr' & _); [lia..|]. cbn. eauto.
  - destruct (erase_range_spec max_count d l i j Hr) as (d' & -> & Hr' & _); [lia..|]. cbn. eauto.
Qed.

Lemma deque_run_refines os : forall d l l', rep max_count d l -> list_run l os = Some l' ->
  exists d', deque_run d os = Ok d' /\ rep max_count d' l'.
Proof.
  induction os as [|o os IH]; intros d l l' Hr E; cbn [list_run deque_run] in *; [injection E as <-; by exists d|].
  destruct (list_step l o) as [l1|] eqn:E1; [|done]. destruct (deque_step_refines d l o l1 Hr E1) as (d1 & -> & Hr1).
  by apply (IH d1 l1).
Qed.

Lemma at_past d l i : rep max_count d l -> (length l <= i)%nat -> at_ d i = Crash.
Proof. intros Hr Hi. unfold at_. rewrite (rep_size max_count d l Hr), (bool_decide_eq_false_2 (i < length l)%nat) by lia. done. Qed.

(** C25: the circular deque is a list.  Whatever legal calls a client makes on a new
    deque, no check fails, nothing is constructed over an element, moved or destroyed
    twice, or lost with a block; the contents, read through the iterators or by index, are
    those of the list operations (an index past the end fails the check), and at the end
    the destructor destroys exactly the elements. *)
Theorem deque_refines os l :
  list_run [] os = Some l ->
  exists d, deque_run Deque_new os = Ok d /\ Deque_size d = length l /\ Deque_empty d = bool_decide (l = []) /\ read d = Ok l /\
    (forall i, at_ d i = match l !! i with Some v => Ok v | None => Crash end) /\
    (forall v, head l = Some v -> front d = Ok v) /\ (forall v, list.last l = Some v -> back d = Ok v) /\
    Deque_delete d = Ok tt.
Proof.
  intros E. destruct (deque_run_refines os Deque_new [] l (new_rep max_count) E) as (d & Ed & Hr). exists d.
  split_and!; [done|by apply (rep_size max_count)|by apply (rep_empty max_count)|by apply (read_spec max_count)| | | |by apply (Deque_delete_spec max_count d l)].
  - intros i. destruct (l !! i) eqn:Ei; [by apply (at_spec max_count d l)|]. apply (at_past d l); [done|]. by apply lookup_ge_None_1.
  - intros v Hv. destruct l as [|v' l]; [done|]. injection Hv as ->. by apply (front_spec max_count d l).
  - intros v Hv. apply last_Some in Hv as [l0 ->]. by apply (back_spec max_count d l0).
Qed.
End Refinement.

(** ** Iterators *)
Section Iterators.
Context {T : Type} (max_count : nat).
Implicit Types (d : circular_deque T) (l vs : list T).

Lemma stale_deref d it : created_generation_ it <> generation_ d -> deref d it = Crash.
Proof. intros H. unfold deref, CheckUnstableUsage. by rewrite (proj2 (Z.eqb_neq _ _) H). Qed.

Lemma next_generation g : in_u 64 g -> g <> u64 (g + 1).
Proof.
  unfold in_u. intros Hg E. unfold wrapU in E. destruct (decide (g + 1 = 2 ^ 64)) as [E1|].
  - rewrite E1, Z.mod_same in E by lia. lia.
  - rewrite Z.mod_small in E by lia. lia.
Qed.

Lemma walk d l j k : rep max_count d l -> (j <= length l)%nat -> (k <= length l)%nat ->
  Add d (pos d j) (Z.of_nat k - Z.of_nat j) = Ok (pos d k) /\ iter_diff d (pos d k) (pos d j) = Ok (Z.of_nat k - Z.of_nat j) /\
  iter_lt d (pos d j) (pos d k) = Ok (bool_decide (j < k)%nat) /\ iter_eq (pos d j) (pos d k) = Ok (bool_decide (j = k)).
Proof.
  intros Hr Hj Hk. pose proof Hr as [_ [(Hc & -> & E)|[Hf _]]].
  - cbn in Hj, Hk. assert (j = 0%nat /\ k = 0%nat) as [-> ->] by lia.
    pose proof (nth_iter_pos max_count d [] 0 Hr ltac:(cbn; lia)) as H0. unfold nth_iter in H0.
    replace (Deque_begin d) with (pos d 0) in H0 by (unfold pos, Deque_begin, iter_at; f_equal; rewrite Hc; positions).
    unfold iter_diff, iter_lt, iter_eq. rewrite comparable_pos. cbn [mbind res_bind]. rewrite !Z.sub_diag.
    split_and!; [exact H0|done|by rewrite !bool_decide_eq_false_2 by lia|by rewrite !bool_decide_eq_true_2].
  - split_and!; [by apply (Add_pos d (length l))| |by apply (iter_lt_pos d (length l))|by apply (iter_eq_pos d (length l))].
    unfold iter_diff. rewrite comparable_pos. cbn [mbind res_bind]. by rewrite !(offset_pos d (length l)).
Qed.

(** The calls after which an iterator is known to be stale. *)
Definition bumps (o : deque_op T) : bool :=
  match o with
  | DPushFront _ | DPushBack _ | DPopFront | DPopBack | DEmplace _ _ | DErase _ _ => true
  | _ => false
  end.

Lemma deque_step_generation d l o l' d' : rep max_count d l -> list_step max_count l o = Some l' ->
  deque_step max_count d o = Ok d' -> bumps o = true -> generation_ d' = u64 (generation_ d + 1).
Proof.
  intros Hr E Ed Hb. destruct o; try done; clear Hb; cbn [list_step deque_step] in *;
    repeat (case_bool_decide; try done); rewrite ?inserted_length in *; cbn [length] in *;
    rewrite ?(nth_iter_pos max_count d l) in Ed by (done || lia); cbn [mbind res_bind] in Ed.
  - destruct (emplace_front_spec max_count d l v Hr) as (d1 & E1 & _ & Eg); [lia|]. unfold push_front in Ed. congruence.
  - rewrite length_app in *. cbn [length] in *.
    destruct (emplace_back_spec max_count d l v Hr) as (d1 & E1 & _ & Eg); [lia|]. unfold push_back in Ed. congruence.
  - destruct l as [|v l]; [done|]. destruct (pop_front_spec max_count d l v Hr) as (d1 & E1 & _ & Eg). congruence.
  - assert (l <> []) as Hl by (by destruct l). destruct (snoc_inv l Hl) as [v Ev]. rewrite Ev in Hr.
    destruct (pop_back_spec max_count d _ v Hr) as (d1 & E1 & _ & Eg). congruence.
  - destruct (emplace_spec max_count d l k v Hr) as (d1 & E1 & _ & Eg); [lia..|]. rewrite E1 in Ed. cbn in Ed. congruence.
  - destruct (erase_range_spec max_count d l i j Hr) as (d1 & E1 & _ & Eg); [lia..|]. rewrite E1 in Ed. cbn in Ed. congruence.
Qed.

(** Iterators walk the deque as positions of the list, wherever it wraps around in the
    buffer: from any position any other is reached by adding the difference, they compare
    and subtract as the positions do, and dereferencing gives the element.  An iterator
    kept over a push, a pop, an emplacement or a removal fails the next check. *)
Theorem deque_iterators os l d j k :
  list_run max_count [] os = Some l -> deque_run max_count Deque_new os = Ok d -> in_u 64 (generation_ d) ->
  (j <= length l)%nat -> (k <= length l)%nat ->
  exists a b, nth_iter d j = Ok a /\ nth_iter d k = Ok b /\
    Add d a (Z.of_nat k - Z.of_nat j) = Ok b /\ iter_diff d b a = Ok (Z.of_nat k - Z.of_nat j) /\
    iter_lt d a b = Ok (bool_decide (j < k)%nat) /\ iter_eq a b = Ok (bool_decide (j = k)) /\
    (forall v, l !! j = Some v -> deref d a = Ok v) /\
    forall o l' d', bumps o = true -> list_step max_count l o = Some l' -> deque_step max_count d o = Ok d' -> deref d' a = Crash.
Proof.
  intros El Ed Hg Hj Hk. destruct (deque_run_refines max_count os Deque_new [] l (new_rep max_count) El) as (d0 & E0 & Hr).
  assert (d0 = d) as -> by congruence. destruct (walk d l j k Hr Hj Hk) as (H1 & H2 & H3 & H4).
  exists (pos d j), (pos d k). rewrite !(nth_iter_pos max_count d l) by done. split_and!; try done.
  - intros v Hv. pose proof (lookup_lt_Some _ _ _ Hv). destruct (rep_frame max_count d l Hr) as [Hf Hvw]; [lia|].
    by apply (deref_pos d (length l) (fun i => l !! i)).
  - intros o l' d' Hb Hl Ho. apply stale_deref. cbn. rewrite (deque_step_generation d l o l' d' Hr Hl Ho Hb).
    by apply next_generation.
Qed.

(** Reallocation goes undetected: [reserve] moves the elements to the front of a new block
    and leaves the generation as it is, so an iterator made before it passes the checks
    and gives the element [begin_] positions further on. *)
Theorem reserve_keeps_stale d l n k v : rep max_count d l -> (capacity d < n < max_count)%nat ->
  (begin_ d + k < cap d)%nat -> l !! (begin_ d + k)%nat = Some v ->
  exists d', reserve max_count d n = Ok d' /\ deref d' (pos d k) = Ok v.
Proof.
  intros Hr Hn Hk Hv. unfold reserve. rewrite bool_decide_eq_true_2 by lia. pose proof (rep_capacity max_count d l Hr).
  destruct (SetCapacityTo_spec max_count d l n Hr) as (d' & -> & Hr' & Ec & Eg & Eb); [lia..|]. exists d'. split; [done|].
  pose proof (lookup_lt_Some _ _ _ Hv). destruct (rep_frame max_count d' l Hr') as [Hf Hvw]; [lia|].
  rewrite <- (deref_pos d' (length l) (fun i => l !! i) (begin_ d + k) v Hf Hvw) by done. f_equal.
  unfold pos, iter_at. rewrite Eg, Eb. f_equal. pose proof Hf as (_ & Hn' & _). positions.
Qed.
End Iterators.

Lemma deque_refines_witness : exists d : circular_deque Z,
  deque_run 100 Deque_new [DPushBack 1; DPushBack 2; DPushBack 3; DPopFront; DPushBack 4; DPushFront 0; DInsert 2 [7; 8];
                 DErase 0 1; DEmplace 1 5; DPopBack; DResize 6 9; DInsertFill 3 2 6; DReserve 20; DShrinkToFit] = Ok d /\
  read d = Ok [2; 5; 7; 6; 6; 8; 3; 9].
Proof.
  destruct (deque_refines 100 [DPushBack 1; DPushBack 2; DPushBack 3; DPopFront; DPushBack 4; DPushFront 0; DInsert 2 [7; 8];
    DErase 0 1; DEmplace 1 5; DPopBack; DResize 6 9; DInsertFill 3 2 6; DReserve 20; DShrinkToFit] [2; 5; 7; 6; 6; 8; 3; 9])
    as (d & H1 & _ & _ & H2 & _); [vm_compute; reflexivity|]. exists d. split; [exact H1|exact H2].
Defined.

Lemma deque_iterators_witness : exists (d : circular_deque Z) a b,
  deque_run 100 Deque_new [DPushBack 1; DPushBack 2; DPushFront 0] = Ok d /\ nth_iter d 0 = Ok a /\ nth_iter d 2 = Ok b /\
  iter_diff d b a = Ok 2 /\ deref d a = Ok 0 /\ exists d', pop_back 100 d = Ok d' /\ deref d' a = Crash.
Proof.
  eexists. pose proof (deque_iterators 100 [DPushBack 1; DPushBack 2; DPushFront 0] [0; 1; 2]
    ltac:(let r := eval vm_compute in (deque_run 100 Deque_new [DPushBack 1; DPushBack 2; DPushFront 0]) in
          match r with Ok ?d => exact d end) 0 2
    ltac:(vm_compute; reflexivity) ltac:(vm_compute; reflexivity) ltac:(by apply (bool_decide_eq_true_1 _))
    ltac:(cbn; lia) ltac:(cbn; lia)) as (a & b & H1 & H2 & _ & H3 & _ & _ & H4 & H5).
  exists a, b. split_and!; [vm_compute; reflexivity|exact H1|exact H2|exact H3|apply H4; reflexivity|].
  eexists. split; [vm_compute; reflexivity|]. exact (H5 DPopBack [0; 1] _ eq_refl eq_refl eq_refl).
Defined.

(** A deque of 2 and 3 that starts at index 1: the iterator to 2 reads 3 after [reserve]. *)
Lemma reserve_keeps_stale_witness : exists d d' : circular_deque Z,
  deque_run 100 Deque_new [DPushBack 1; DPushBack 2; DPushBack 3; DPopFront] = Ok d /\ deref d (pos d 0) = Ok 2 /\
  reserve 100 d 10 = Ok d' /\ deref d' (pos d 0) = Ok 3.
Proof.
  destruct (deque_run_refines 100 [DPushBack 1; DPushBack 2; DPushBack 3; DPopFront] Deque_new [] [2; 3] (new_rep 100)
    ltac:(vm_compute; reflexivity)) as (d & Ed & Hr).
  assert (capacity d = 3%nat /\ begin_ d = 1%nat /\ cap d = 4%nat /\ deref d (pos d 0) = Ok 2) as (E1 & E2 & E3 & E4)
    by (vm_compute in Ed; injection Ed as <-; split_and!; vm_compute; reflexivity).
  destruct (reserve_keeps_stale 100 d [2; 3] 10 0 3 Hr) as (d' & H1 & H2); [lia|lia|by rewrite E2|].
  exists d, d'. split_and!; [exact Ed|exact E4|exact H1|exact H2].
Defined.
