(* ===== verification/FlatTree.v ===== *)
(** * The sorted vector behind [flat_map] and [flat_set]

    [flat_tree] of [base/containers/flat_tree.h] and [flat_map] of
    [base/containers/flat_map.h] of [include/webrtc].  A tree is its [body_], a vector of
    values; an iterator is an index into it.  The functions of [<algorithm>] that the
    source calls are here too: the binary searches of libstdc++ as loops, and
    [stable_sort], [unique] and [inplace_merge] by their results, which the language
    fixes.  What a moved-from element holds is unspecified, and is a parameter. *)

From Stdlib Require Import ZifyNat Sorted.
From S2P Require Import Prelude.
From stdpp Require Import list sorting.

Inductive FlatContainerDupes := KEEP_FIRST_OF_DUPES | KEEP_LAST_OF_DUPES.

#[global] Instance FlatContainerDupes_eq_dec : EqDecision FlatContainerDupes.
Proof. solve_decision. Defined.

(** What the language asks of a comparison: a strict weak order. *)
Class StrictWeakOrder {K} (lt : K -> K -> bool) : Prop := {
  swo_irrefl a : lt a a = false;
  swo_trans a b c : lt a b = true -> lt b c = true -> lt a c = true;
  swo_weak a b c : lt a b = true -> lt a c = true \/ lt c b = true }.

(** ** Algorithms on ranges *)
Section Algorithms.
Context {T : Type} (moved : T -> T).
Implicit Types (l body : list T) (p : T -> bool) (compare : T -> T -> bool).

(** The loop of [std::lower_bound] and [std::upper_bound] over the [len] elements from
    [first]: [p] tells whether the search goes on to the right of an element. *)
Fixpoint bound_loop (fuel : nat) p body (first len : nat) : res nat :=
  match len with
  | O => Ok first
  | S _ =>
    match fuel with
    | O => Undef
    | S fuel =>
      let half := Nat.div2 len in
      let middle := (first + half)%nat in
      match body !! middle with
      | None => Undef
      | Some x => if p x then bound_loop fuel p body (S middle) (len - half - 1)
                  else bound_loop fuel p body first half
      end
    end
  end.

Definition std_bound p body (first last : nat) : res nat :=
  bound_loop (S (Nat.log2 (last - first))) p body first (last - first).

(** [std::stable_sort]: each element goes in front of those that are not less. *)
Fixpoint sort_insert compare (x : T) l : list T :=
  match l with
  | [] => [x]
  | y :: l' => if compare y x then y :: sort_insert compare x l' else x :: l
  end.
Definition stable_sort compare l : list T := foldr (sort_insert compare) [] l.

(** [std::inplace_merge] of two adjacent sorted ranges. *)
Fixpoint merge compare (l1 : list T) : list T -> list T :=
  fix merge_right l2 :=
    match l1, l2 with
    | [], _ => l2
    | _, [] => l1
    | x :: l1', y :: l2' => if compare y x then y :: merge_right l2' else x :: merge compare l1' l2
    end.

(** The elements [std::unique] keeps after [d]: those not equivalent to the one kept last. *)
Fixpoint unique_after compare (d : T) l : list T :=
  match l with
  | [] => []
  | x :: l' => if compare d x then unique_after compare d l' else x :: unique_after compare x l'
  end.

(** [std::unique]: the range it leaves and the end of the kept elements. *)
Definition std_unique compare l : list T * nat :=
  let kept := match l with [] => [] | x :: l' => x :: unique_after compare x l' end in
  (kept ++ (moved <$> drop (length kept) l), length kept).

(** [std::adjacent_find]. *)
Fixpoint adjacent_find compare l : nat :=
  match l with
  | [] => 0
  | x :: l' => match l' with
               | [] => 1
               | y :: _ => if compare x y then 0 else S (adjacent_find compare l')
               end
  end.

(** [*replacable = std::move( *first)]. *)
Definition move_to body (replacable first : nat) (x : T) : list T :=
  <[replacable := x]> (<[first := moved x]> body).

(** The loop of [LastUnique], with [n] elements from [next] on. *)
Fixpoint LastUnique_loop compare (n : nat) body (replacable first : nat) : res (list T * nat) :=
  match n with
  | O => match body !! first with
         | Some x => Ok (move_to body replacable first x, S replacable)
         | None => Undef
         end
  | S n => match body !! first, body !! S first with
           | Some x, Some y =>
             if negb (compare x y)
             then LastUnique_loop compare n (move_to body replacable first x) (S replacable) (S first)
             else LastUnique_loop compare n body replacable (S first)
           | _, _ => Undef
           end
  end.

Definition LastUnique compare body : res (list T * nat) :=
  let last := length body in
  let replacable := adjacent_find compare body in
  if bool_decide (replacable = last) then Ok (body, last)
  else let first := S replacable in
       if bool_decide (first = last) then Ok (body, replacable)
       else LastUnique_loop compare (last - S first) body replacable first.
End Algorithms.

(** ** [flat_tree] *)
Section FlatTree.
Context {Key Value : Type} (GetKeyFromValue : Value -> Key) (key_comp : Key -> Key -> bool)
  (moved : Value -> Value).
Implicit Types (body items : list Value) (key : Key) (val : Value).

Definition value_comp (left right : Value) : bool :=
  key_comp (GetKeyFromValue left) (GetKeyFromValue right).

(** [std::vector]'s [emplace] and [erase]. *)
Definition vec_emplace body (position : nat) val : res (list Value * nat) :=
  _ ← defined (bool_decide (position <= length body)%nat);
  Ok (take position body ++ val :: drop position body, position).

Definition erase_range body (first last : nat) : res (list Value * nat) :=
  _ ← defined (bool_decide (first <= last)%nat && bool_decide (last <= length body)%nat);
  Ok (take first body ++ drop last body, first).

Definition deref body (i : nat) : res Value :=
  match body !! i with Some x => Ok x | None => Undef end.

Definition lower_bound body key : res nat :=
  std_bound (fun x => key_comp (GetKeyFromValue x) key) body 0 (length body).

Definition upper_bound body key : res nat :=
  std_bound (fun x => negb (key_comp key (GetKeyFromValue x))) body 0 (length body).

(** [it == end || comp(key, *it)]: no element at or after the lower bound has the key. *)
Definition absent_at body (last : nat) (it : nat) key : res bool :=
  if bool_decide (it = last) then Ok true
  else x ← deref body it; Ok (key_comp key (GetKeyFromValue x)).

Definition equal_range body key : res (nat * nat) :=
  lower ← lower_bound body key;
  absent ← absent_at body (length body) lower key;
  Ok (if (absent : bool) then (lower, lower) else (lower, S lower)).

Definition find body key : res nat :=
  eq_range ← equal_range body key;
  Ok (if bool_decide (eq_range.1 = eq_range.2) then length body else eq_range.1).

Definition count body key : res nat :=
  eq_range ← equal_range body key; Ok (eq_range.2 - eq_range.1)%nat.

Definition contains body key : res bool :=
  lower ← lower_bound body key;
  absent ← absent_at body (length body) lower key;
  Ok (negb absent).

Definition unsafe_emplace := vec_emplace.

Definition emplace_key_args body key val : res (list Value * (nat * bool)) :=
  lower ← lower_bound body key;
  absent ← absent_at body (length body) lower key;
  if (absent : bool) then r ← unsafe_emplace body lower val; Ok (r.1, (r.2, true))
  else Ok (body, (lower, false)).

Definition insert body val : res (list Value * (nat * bool)) :=
  emplace_key_args body (GetKeyFromValue val) val.

Definition emplace_hint_key_args body (hint : nat) key val : res (list Value * (nat * bool)) :=
  after ← (if bool_decide (hint = 0%nat) then Ok true
           else x ← deref body (hint - 1); Ok (key_comp (GetKeyFromValue x) key));
  if (after : bool) then
    before ← absent_at body (length body) hint key;
    if (before : bool) then r ← unsafe_emplace body hint val; Ok (r.1, (r.2, true))
    else x ← deref body hint;
         if negb (key_comp (GetKeyFromValue x) key) then Ok (body, (hint, false))
         else emplace_key_args body key val
  else emplace_key_args body key val.

Definition insert_hint body (position_hint : nat) val : res (list Value * nat) :=
  r ← emplace_hint_key_args body position_hint (GetKeyFromValue val) val; Ok (r.1, r.2.1).

Definition insert_or_assign body val : res (list Value * (nat * bool)) :=
  position ← lower_bound body (GetKeyFromValue val);
  absent ← absent_at body (length body) position (GetKeyFromValue val);
  if (absent : bool) then r ← vec_emplace body position val; Ok (r.1, (r.2, true))
  else Ok (<[position := val]> body, (position, false)).

(** The search of [append_or_assign] and [append_unique] in [\[first, last)]. *)
Definition append_search body (first last : nat) val : res (nat * bool) :=
  position ← std_bound (fun x => value_comp x val) body first last;
  absent ← absent_at body last position (GetKeyFromValue val);
  Ok (position, absent).

Definition append_or_assign body (first last : nat) val : res (list Value * (nat * bool)) :=
  r ← append_search body first last val;
  if (r.2 : bool) then Ok (body ++ [val], (r.1, true))
  else Ok (<[r.1 := val]> body, (r.1, false)).

Definition append_unique body (first last : nat) val : res (list Value * (nat * bool)) :=
  r ← append_search body first last val;
  if (r.2 : bool) then Ok (body ++ [val], (r.1, true))
  else Ok (body, (r.1, false)).

Definition sort_and_unique body (first last : nat) (dupes : FlatContainerDupes) : res (list Value) :=
  let sorted := stable_sort value_comp (drop first (take last body)) in
  let comparator := fun lhs rhs => negb (value_comp lhs rhs) in
  r ← match dupes with
      | KEEP_FIRST_OF_DUPES => Ok (std_unique moved comparator sorted)
      | KEEP_LAST_OF_DUPES => LastUnique moved comparator sorted
      end;
  r' ← erase_range (take first body ++ r.1 ++ drop last body) (first + r.2) last;
  Ok r'.1.

(** The constructors that take a range, a vector or a list. *)
Definition flat_tree_new items (dupes : FlatContainerDupes) : res (list Value) :=
  sort_and_unique items 0 (length items) dupes.

Definition assign_list (ilist : list Value) : res (list Value) :=
  sort_and_unique ilist 0 (length ilist) KEEP_FIRST_OF_DUPES.

(** [operator==], with the [operator==] of the values. *)
Definition tree_eq `{EqDecision Value} (lhs rhs : list Value) : bool := bool_decide (lhs = rhs).

(** [for (; first != last; ++first) insert_or_assign( *first)]. *)
Fixpoint assign_loop body items : res (list Value) :=
  match items with
  | [] => Ok body
  | x :: items => r ← insert_or_assign body x; assign_loop r.1 items
  end.

(** [std::copy(first, last, std::inserter( *this, it))]. *)
Fixpoint copy_inserter body (it : nat) items : res (list Value) :=
  match items with
  | [] => Ok body
  | x :: items => r ← insert_hint body it x; copy_inserter r.1 (S r.2) items
  end.

(** The loops that append new values, and the first insertion point. *)
Fixpoint append_loop (append : list Value -> nat -> nat -> Value -> res (list Value * (nat * bool)))
    body (original_size pos_first_new : nat) items : res (list Value * nat) :=
  match items with
  | [] => Ok (body, pos_first_new)
  | x :: items =>
    r ← append body 0%nat original_size x;
    append_loop append r.1 original_size
      (if (r.2.2 : bool) then Nat.min pos_first_new r.2.1 else pos_first_new) items
  end.

(** [std::inplace_merge(first, middle, end)]. *)
Definition inplace_merge body (first middle : nat) : list Value :=
  take first body ++ merge value_comp (drop first (take middle body)) (drop middle body).

Definition insert_range (is_multipass : bool) body items (dupes : FlatContainerDupes) : res (list Value) :=
  if bool_decide (items = []) then Ok body
  else
    let overwrite_existing := bool_decide (dupes = KEEP_LAST_OF_DUPES) in
    let insert_inplace := is_multipass && bool_decide (length items = 1%nat) in
    if insert_inplace then
      if overwrite_existing then assign_loop body items
      else copy_inserter body (length body) items
    else
      let original_size := length body in
      r ← append_loop (if overwrite_existing then append_or_assign else append_unique)
            body original_size original_size items;
      body' ← sort_and_unique r.1 original_size (length r.1) dupes;
      Ok (inplace_merge body' r.2 original_size).

Definition erase_at body (position : nat) : res (list Value * nat) :=
  _ ← defined (bool_decide (position < length body)%nat);
  Ok (take position body ++ drop (S position) body, position).

Definition erase body key : res (list Value * nat) :=
  eq_range ← equal_range body key;
  r ← erase_range body eq_range.1 eq_range.2;
  Ok (r.1, (eq_range.2 - eq_range.1)%nat).

Definition EraseIf (pred : Value -> bool) body : res (list Value) :=
  let kept := filter (fun x => pred x = false) body in
  r ← erase_range (kept ++ (moved <$> drop (length kept) body)) (length kept) (length body);
  Ok r.1.

End FlatTree.

(** ** [flat_map] *)
Section FlatMap.
Context {Key Mapped : Type} (key_comp : Key -> Key -> bool) (mapped_type : Mapped)
  (moved : Key * Mapped -> Key * Mapped).
Implicit Types (body : list (Key * Mapped)) (key : Key) (obj : Mapped).

(** [GetKeyFromValuePairFirst]. *)
Definition GetKeyFromValuePairFirst (p : Key * Mapped) : Key := p.1.

(** [result.first->second = obj]. *)
Definition assign_second body (i : nat) obj : res (list (Key * Mapped)) :=
  x ← deref body i; Ok (<[i := (x.1, obj)]> body).

(** [operator\[\]]: the map and the place of the mapped value. *)
Definition map_index body key : res (list (Key * Mapped) * nat) :=
  found ← lower_bound GetKeyFromValuePairFirst key_comp body key;
  absent ← absent_at GetKeyFromValuePairFirst key_comp body (length body) found key;
  if (absent : bool) then unsafe_emplace body found (key, mapped_type) else Ok (body, found).

Definition map_insert_or_assign body key obj : res (list (Key * Mapped) * (nat * bool)) :=
  result ← emplace_key_args GetKeyFromValuePairFirst key_comp body key (key, obj);
  if (result.2.2 : bool) then Ok result
  else body' ← assign_second result.1 result.2.1 obj; Ok (body', result.2).

Definition map_insert_or_assign_hint body (hint : nat) key obj : res (list (Key * Mapped) * nat) :=
  result ← emplace_hint_key_args GetKeyFromValuePairFirst key_comp body hint key (key, obj);
  if (result.2.2 : bool) then Ok (result.1, result.2.1)
  else body' ← assign_second result.1 result.2.1 obj; Ok (body', result.2.1).

Definition try_emplace body key obj : res (list (Key * Mapped) * (nat * bool)) :=
  emplace_key_args GetKeyFromValuePairFirst key_comp body key (key, obj).

Definition try_emplace_hint body (hint : nat) key obj : res (list (Key * Mapped) * nat) :=
  r ← emplace_hint_key_args GetKeyFromValuePairFirst key_comp body hint key (key, obj); Ok (r.1, r.2.1).
End FlatMap.

(** ** Lemmas on the algorithms *)
Section AlgorithmLemmas.
Context {T : Type}.
Implicit Types (l body : list T) (p : T -> bool).

Lemma div2_half n fuel : (0 < n < 2 ^ S fuel)%nat ->
  (Nat.div2 n < n /\ Nat.div2 n < 2 ^ fuel /\ n - Nat.div2 n - 1 < 2 ^ fuel)%nat.
Proof.
  intros [Hp Hn]. rewrite Nat.pow_succ_r' in Hn.
  pose proof (Nat.div2_odd n) as Ho. destruct (Nat.odd n); cbn in Ho; lia.
Qed.

Lemma bound_loop_spec p body m : forall fuel first len,
  (len < 2 ^ fuel)%nat -> (first <= m <= first + len)%nat -> (first + len <= length body)%nat ->
  (forall i x, (first <= i < m)%nat -> body !! i = Some x -> p x = true) ->
  (forall i x, (m <= i < first + len)%nat -> body !! i = Some x -> p x = false) ->
  bound_loop fuel p body first len = Ok m.
Proof.
  induction fuel as [|fuel IH]; intros first len Hf Hm Hb Hl Hr.
  - cbn in Hf. destruct len as [|len]; [|lia]. cbn. f_equal. lia.
  - destruct len as [|len']; [cbn; f_equal; lia|]. cbn [bound_loop]. set (len := S len') in *.
    destruct (div2_half len fuel) as (H1 & H2 & H3); [lia|].
    destruct (lookup_lt_is_Some_2 body (first + Nat.div2 len)) as [x Hx]; [lia|]. rewrite Hx.
    destruct (decide (first + Nat.div2 len < m)%nat) as [Hlt|Hge].
    + rewrite (Hl (first + Nat.div2 len)%nat x) by (done || lia). apply IH; [lia|lia|lia| |]; intros i y Hi; [apply Hl|apply Hr]; lia.
    + rewrite (Hr (first + Nat.div2 len)%nat x) by (done || lia). apply IH; [lia|lia|lia| |]; intros i y Hi; [apply Hl|apply Hr]; lia.
Qed.

(** On a range partitioned by [p], the search returns the partition point. *)
Lemma std_bound_spec p a b rest : Forall (fun x => p x = true) a -> Forall (fun x => p x = false) b ->
  std_bound p (a ++ b ++ rest) 0 (length (a ++ b)) = Ok (length a).
Proof.
  intros Ha Hb. unfold std_bound. rewrite Nat.sub_0_r.
  apply bound_loop_spec; rewrite ?length_app; try lia.
  - destruct (decide (length a + length b = 0)%nat) as [->|Hn]; [cbn; lia|].
    apply Nat.log2_spec. lia.
  - intros i x Hi. rewrite lookup_app_l by lia. intros Hx. by eapply (Forall_lookup_1 _ _ _ _ Ha).
  - intros i x Hi. rewrite lookup_app_r, lookup_app_l by lia. intros Hx. by eapply (Forall_lookup_1 _ _ _ _ Hb).
Qed.

Context (moved : T -> T).

(** The last element of every run of equivalent elements. *)
Fixpoint last_of_runs (compare : T -> T -> bool) l : list T :=
  match l with
  | [] => []
  | x :: l' => match l' with
               | [] => [x]
               | y :: _ => if compare x y then last_of_runs compare l' else x :: last_of_runs compare l'
               end
  end.

Lemma last_of_runs_cons compare x y l : last_of_runs compare (x :: y :: l) =
  if compare x y then last_of_runs compare (y :: l) else x :: last_of_runs compare (y :: l).
Proof. done. Qed.

Lemma move_to_app kept j junk x suf :
  move_to moved (kept ++ (j :: junk) ++ x :: suf) (length kept) (length kept + length (j :: junk)) x
  = (kept ++ [x]) ++ (junk ++ [moved x]) ++ suf.
Proof.
  unfold move_to. rewrite insert_app_r.
  replace (length (j :: junk)) with (length (j :: junk) + 0)%nat by lia. rewrite insert_app_r. cbn [insert list_insert].
  replace (length kept) with (length kept + 0)%nat at 1 by lia. rewrite insert_app_r. cbn.
  by rewrite <- !(assoc_L (++)).
Qed.

Lemma lookup_first (kept : list T) j junk x suf i : i = (length kept + length (j :: junk))%nat ->
  (kept ++ (j :: junk) ++ x :: suf) !! i = Some x.
Proof. intros ->. rewrite (assoc_L (++)), <- length_app. by apply list_lookup_middle. Qed.

(** The loop compacts the last elements of the runs behind [replacable]. *)
Lemma LastUnique_loop_spec compare : forall suf x kept j junk,
  exists rest, LastUnique_loop moved compare (length suf) (kept ++ (j :: junk) ++ x :: suf)
      (length kept) (length kept + length (j :: junk)) =
    Ok ((kept ++ last_of_runs compare (x :: suf)) ++ rest, length (kept ++ last_of_runs compare (x :: suf))) /\
    (length ((kept ++ last_of_runs compare (x :: suf)) ++ rest) = length (kept ++ (j :: junk) ++ x :: suf)).
Proof.
  induction suf as [|y suf IH]; intros x kept j junk; cbn [length LastUnique_loop].
  - rewrite (lookup_first kept j junk x []) by done. rewrite move_to_app. cbn [last_of_runs].
    exists (junk ++ [moved x]). rewrite app_nil_r. split; [f_equal; f_equal; rewrite length_app; cbn; lia|].
    rewrite !length_app. cbn. lia.
  - rewrite (lookup_first kept j junk x (y :: suf)) by done.
    assert (E : kept ++ (j :: junk) ++ x :: y :: suf = kept ++ (j :: (junk ++ [x])) ++ y :: suf).
    { cbn. by rewrite <- (assoc_L (++)). }
    assert (Hy : (kept ++ (j :: junk) ++ x :: y :: suf) !! S (length kept + S (length junk)) = Some y).
    { rewrite E. apply lookup_first. cbn. rewrite length_app. cbn. lia. }
    rewrite Hy.
    rewrite last_of_runs_cons. destruct (compare x y); cbn [negb].
    + destruct (IH y kept j (junk ++ [x])) as (rest & Hl & Hn). exists rest. rewrite E, <- Hl, Hn.
      split; [|done]. f_equal. cbn. rewrite length_app. cbn. lia.
    + rewrite move_to_app. destruct (junk ++ [moved x]) as [|j' junk'] eqn:Ej; [by destruct junk|].
      destruct (IH y (kept ++ [x]) j' junk') as (rest & Hl & Hn). exists rest.
      replace (kept ++ x :: last_of_runs compare (y :: suf)) with ((kept ++ [x]) ++ last_of_runs compare (y :: suf))
        by (by rewrite <- (assoc_L (++))).
      assert (Ej' : length (j' :: junk') = S (length junk)) by (rewrite <- Ej, length_app; cbn; lia).
      split; [rewrite <- Hl; f_equal; rewrite ?length_app; cbn in *; lia|].
      rewrite Hn. rewrite !length_app. cbn in *. lia.
Qed.

Lemma adjacent_find_cons compare (x y : T) l : adjacent_find compare (x :: y :: l) =
  if compare x y then 0%nat else S (adjacent_find compare (y :: l)).
Proof. done. Qed.

Lemma adjacent_find_spec compare l : exists a b, l = a ++ b /\ length a = adjacent_find compare l /\
  last_of_runs compare l = a ++ last_of_runs compare b /\
  (b = [] \/ exists x y b', b = x :: y :: b' /\ compare x y = true).
Proof.
  induction l as [|x l (a & b & -> & Hl & Hr & Hb)]; [exists [], []; naive_solver|].
  destruct (a ++ b) as [|y l] eqn:E.
  - apply app_eq_nil in E as [-> ->]. exists [x], []. naive_solver.
  - destruct (compare x y) eqn:Ec.
    + exists [], (x :: y :: l). cbn. rewrite Ec. naive_solver.
    + exists (x :: a), b. rewrite last_of_runs_cons, adjacent_find_cons, Ec, <- Hl, Hr, <- E.
      split_and!; [done..|naive_solver].
Qed.

(** [LastUnique] keeps the last element of every run, in front. *)
Lemma LastUnique_spec compare l :
  exists rest, LastUnique moved compare l =
    Ok (last_of_runs compare l ++ rest, length (last_of_runs compare l)) /\
    length (last_of_runs compare l ++ rest) = length l.
Proof.
  destruct (adjacent_find_spec compare l) as (a & b & El & Ha & Hr & Hb). unfold LastUnique. rewrite <- Ha.
  destruct Hb as [->|(x & y & b' & -> & Hc)].
  - rewrite app_nil_r in El, Hr. subst a. rewrite bool_decide_eq_true_2 by done. rewrite Hr.
    exists []. by rewrite app_nil_r.
  - subst l. rewrite !length_app, (bool_decide_eq_false_2 (length a = _)), bool_decide_eq_false_2 by (cbn; lia).
    rewrite Hr, last_of_runs_cons, Hc.
    destruct (LastUnique_loop_spec compare b' y a x []) as (rest & Hl & Hn). exists rest.
    rewrite !length_app in Hn |- *. split; [|cbn in *; lia]. rewrite !length_app in Hl. rewrite <- Hl.
    f_equal; cbn; lia.
Qed.
End AlgorithmLemmas.

(** ** Order and groups

    The values of a vector that are equivalent to a key form its group, in order. *)
Section Order.
Context {Key Value : Type} (GetKeyFromValue : Value -> Key) (key_comp : Key -> Key -> bool)
  `{!StrictWeakOrder key_comp}.
Implicit Types (l body items : list Value) (k : Key) (x y : Value).
Local Abbreviation gk := GetKeyFromValue.
Local Abbreviation lt := (value_comp GetKeyFromValue key_comp).

Definition eqv (a b : Key) : bool := negb (key_comp a b) && negb (key_comp b a).
Definition group k l : list Value := filter (fun x => eqv k (gk x) = true) l.

Definition sorted l : Prop := StronglySorted (fun x y => lt x y = true) l.
Definition wsorted l : Prop := StronglySorted (fun x y => lt y x = false) l.

Lemma eqv_spec a b : eqv a b = true <-> key_comp a b = false /\ key_comp b a = false.
Proof. unfold eqv. by rewrite andb_true_iff, !negb_true_iff. Qed.

Lemma eqv_refl a : eqv a a = true.
Proof. rewrite eqv_spec. by rewrite swo_irrefl. Qed.

Lemma eqv_sym a b : eqv a b = eqv b a.
Proof. unfold eqv. apply andb_comm. Qed.

Lemma lt_asym a b : key_comp a b = true -> key_comp b a = false.
Proof.
  intros H. destruct (key_comp b a) eqn:E; [|done]. pose proof (swo_trans _ _ _ H E). by rewrite swo_irrefl in *.
Qed.

Lemma nlt_trans a b c : key_comp b a = false -> key_comp c b = false -> key_comp c a = false.
Proof. intros H1 H2. destruct (key_comp c a) eqn:E; [|done]. destruct (swo_weak _ _ b E); congruence. Qed.

Lemma lt_nlt_trans a b c : key_comp a b = true -> key_comp c b = false -> key_comp a c = true.
Proof. intros H1 H2. destruct (swo_weak _ _ c H1); congruence. Qed.

Lemma nlt_lt_trans a b c : key_comp b a = false -> key_comp b c = true -> key_comp a c = true.
Proof. intros H1 H2. destruct (swo_weak _ _ a H2); congruence. Qed.

Lemma comp_eqv_l a b c : eqv a b = true -> key_comp a c = key_comp b c.
Proof.
  rewrite eqv_spec. intros [H1 H2]. destruct (key_comp b c) eqn:E.
  - by eapply nlt_lt_trans.
  - by eapply nlt_trans.
Qed.

Lemma comp_eqv_r a b c : eqv a b = true -> key_comp c a = key_comp c b.
Proof.
  rewrite eqv_spec. intros [H1 H2]. destruct (key_comp c b) eqn:E.
  - by eapply lt_nlt_trans.
  - by eapply nlt_trans.
Qed.

Lemma eqv_eqv_l a b c : eqv a b = true -> eqv a c = eqv b c.
Proof. intros H. unfold eqv. by rewrite (comp_eqv_l _ _ c H), (comp_eqv_r _ _ c H). Qed.

Lemma lt_not_eqv a b : key_comp a b = true -> eqv a b = false /\ eqv b a = false.
Proof. intros H. unfold eqv. by rewrite H, (lt_asym _ _ H). Qed.

(** Ordered keys are not both equivalent to a third. *)
Lemma lt_eqv_r k a b : key_comp a b = true -> eqv k a = true -> eqv k b = false.
Proof. intros H E. rewrite (eqv_eqv_l _ _ _ E). by destruct (lt_not_eqv _ _ H). Qed.

Lemma lt_eqv_l k a b : key_comp a b = true -> eqv k b = true -> eqv k a = false.
Proof. intros H E. rewrite (eqv_eqv_l _ _ _ E). by destruct (lt_not_eqv _ _ H). Qed.

Lemma group_cons k x l : group k (x :: l) = if eqv k (gk x) then x :: group k l else group k l.
Proof.
  unfold group. destruct (eqv k (gk x)) eqn:E; [by rewrite filter_cons_True|].
  rewrite filter_cons_False; [done|congruence].
Qed.

Lemma group_app k l1 l2 : group k (l1 ++ l2) = group k l1 ++ group k l2.
Proof. apply list.filter_app. Qed.

Lemma group_eqv k k' l : eqv k k' = true -> group k l = group k' l.
Proof.
  intros H. induction l as [|x l IH]; [done|]. rewrite !group_cons, IH. by rewrite (eqv_eqv_l _ _ _ H).
Qed.

Lemma group_nil k l : Forall (fun x => eqv k (gk x) = false) l -> group k l = [].
Proof. induction 1 as [|x l H _ IH]; [done|]. by rewrite group_cons, H. Qed.

(** No element of a range above, or below, a key of the group's is in the group. *)
Lemma group_above k a l : Forall (fun x => key_comp a (gk x) = true) l -> eqv k a = true -> group k l = [].
Proof. intros H E. apply group_nil. eapply list.Forall_impl; [eassumption|]. intros x Hx. exact (lt_eqv_r _ _ _ Hx E). Qed.

Lemma group_below k a l : Forall (fun x => key_comp (gk x) a = true) l -> eqv k a = true -> group k l = [].
Proof. intros H E. apply group_nil. eapply list.Forall_impl; [eassumption|]. intros x Hx. exact (lt_eqv_l _ _ _ Hx E). Qed.

Lemma sorted_wsorted l : sorted l -> wsorted l.
Proof.
  induction 1 as [|x l _ IH H]; constructor; [done|]. eapply list.Forall_impl; [eassumption|].
  intros y Hy. by apply lt_asym.
Qed.

Lemma sorted_group k l : sorted l -> (length (group k l) <= 1)%nat.
Proof.
  induction 1 as [|x l _ IH H]; [cbn; lia|]. rewrite group_cons. destruct (eqv k (gk x)) eqn:E; [|done].
  rewrite (group_above k (gk x) l H E). cbn. lia.
Qed.

Lemma wsorted_sorted l : wsorted l -> (forall k, length (group k l) <= 1)%nat -> sorted l.
Proof.
  induction 1 as [|x l _ IH H]; intros Hg; [constructor|]. constructor.
  - apply IH. intros k. specialize (Hg k). rewrite group_cons in Hg. destruct (eqv k (gk x)); cbn in Hg; lia.
  - apply list.Forall_forall. intros y Hy. rewrite list.Forall_forall in H. specialize (H y Hy).
    unfold value_comp in *. destruct (key_comp (gk x) (gk y)) eqn:E; [done|]. exfalso.
    specialize (Hg (gk x)). rewrite group_cons, eqv_refl in Hg. cbn in Hg.
    assert (Hin : y ∈ group (gk x) l) by (apply list_elem_of_filter; split; [by apply eqv_spec|done]).
    destruct (group (gk x) l); [by apply elem_of_nil in Hin|cbn in Hg; lia].
Qed.

(** *** Sorting and merging keep the groups *)
Lemma sort_insert_Forall P x l : Forall P (sort_insert lt x l) <-> P x /\ Forall P l.
Proof.
  induction l as [|y l IH]; cbn; [by rewrite Forall_cons|].
  destruct (lt y x); rewrite !Forall_cons; [rewrite IH|]; naive_solver.
Qed.

Lemma sort_insert_wsorted x l : wsorted l -> wsorted (sort_insert lt x l).
Proof.
  induction 1 as [|y l Hl IH H]; cbn; [repeat constructor|]. destruct (lt y x) eqn:E; constructor.
  - done.
  - apply sort_insert_Forall. split; [by apply lt_asym|done].
  - by constructor.
  - constructor; [done|]. eapply list.Forall_impl; [eassumption|]. intros z Hz. by eapply nlt_trans.
Qed.

Lemma stable_sort_wsorted l : wsorted (stable_sort lt l).
Proof. induction l as [|x l IH]; cbn; [constructor|]. by apply sort_insert_wsorted. Qed.

Lemma group_sort_insert k x l : group k (sort_insert lt x l) = group k (x :: l).
Proof.
  induction l as [|y l IH]; cbn [sort_insert]; [done|]. destruct (lt y x) eqn:E; [|done].
  rewrite (group_cons k y), IH, !group_cons.
  destruct (eqv k (gk y)) eqn:E1; [|done]. by rewrite (lt_eqv_r _ _ _ E E1).
Qed.

(** The sort is stable: every group keeps its order. *)
Lemma group_stable_sort k l : group k (stable_sort lt l) = group k l.
Proof. 
  induction l as [|x l IH]; [done|]. change (stable_sort lt (x :: l)) with (sort_insert lt x (stable_sort lt l)).
  by rewrite group_sort_insert, !group_cons, IH.
 Qed.

Lemma merge_nil_r l : merge lt l [] = l.
Proof. by destruct l. Qed.

Lemma merge_cons x l1 y l2 : merge lt (x :: l1) (y :: l2) =
  if lt y x then y :: merge lt (x :: l1) l2 else x :: merge lt l1 (y :: l2).
Proof. done. Qed.

Lemma merge_Forall P l1 : forall l2, Forall P l1 -> Forall P l2 -> Forall P (merge lt l1 l2).
Proof.
  induction l1 as [|x l1 IH1]; intros l2 H1; [by destruct l2|]. induction l2 as [|y l2 IH2]; intros H2; [done|].
  rewrite merge_cons. apply Forall_cons in H1 as [? ?], H2 as [? ?]. destruct (lt y x); constructor; auto.
Qed.

Lemma merge_wsorted l1 : forall l2, wsorted l1 -> wsorted l2 -> wsorted (merge lt l1 l2).
Proof.
  induction l1 as [|x l1 IH1]; intros l2 H1 H2; [by destruct l2|].
  induction l2 as [|y l2 IH2]; [done|]. rewrite merge_cons.
  apply StronglySorted_inv in H1 as [H1 F1], H2 as [H2 F2].
  destruct (lt y x) eqn:E; (constructor; [auto|]); [by apply IH2| |apply IH1; [done|by constructor]|].
  - apply merge_Forall; [|done]. pose proof (lt_asym _ _ E). constructor; [done|].
    eapply list.Forall_impl; [exact F1|]. intros z Hz. by eapply nlt_trans.
  - apply merge_Forall; [done|]. constructor; [done|].
    eapply list.Forall_impl; [exact F2|]. intros z Hz. by eapply nlt_trans.
Qed.

Lemma group_merge k l1 : forall l2, wsorted l1 -> group k (merge lt l1 l2) = group k l1 ++ group k l2.
Proof.
  induction l1 as [|x l1 IH1]; intros l2 H1; [by destruct l2|].
  induction l2 as [|y l2 IH2]; [by rewrite merge_nil_r, app_nil_r|].
  pose proof (StronglySorted_inv H1) as [H1' F1]. rewrite merge_cons. destruct (lt y x) eqn:E.
  - rewrite (group_cons k y), IH2, (group_cons k y). destruct (eqv k (gk y)) eqn:Ey; [|done].
    rewrite (group_above k (gk y) (x :: l1)); [done| |done]. constructor; [done|].
    eapply list.Forall_impl; [exact F1|]. intros z Hz. by eapply lt_nlt_trans.
  - rewrite !(group_cons k x), IH1 by done. by destruct (eqv k (gk x)).
Qed.

(** Elements below all of the second range stay in front. *)
Lemma merge_app_l a b c : Forall (fun x => Forall (fun y => lt x y = true) c) a ->
  merge lt (a ++ b) c = a ++ merge lt b c.
Proof.
  induction 1 as [|x a Hx _ IH]; [done|]. cbn [app]. destruct c as [|y c]; [by rewrite !merge_nil_r|].
  rewrite merge_cons. apply Forall_cons_1 in Hx as [Hy _].
  assert (E : lt y x = false) by (by apply lt_asym). by rewrite E, IH.
Qed.

(** *** A key's place in a sorted vector *)
Definition below k l : Prop := Forall (fun x => key_comp (gk x) k = true) l.
Definition above k l : Prop := Forall (fun x => key_comp k (gk x) = true) l.
Definition has_key k (o : option Value) : Prop := from_option (fun x => eqv k (gk x) = true) True o.

Definition located k l a (o : option Value) b : Prop :=
  l = a ++ option_list o ++ b /\ below k a /\ above k b /\ has_key k o.

Lemma sorted_located k l : sorted l -> exists a o b, located k l a o b.
Proof.
  induction 1 as [|x l Hs (a & o & b & -> & Ha & Hb & Ho) H]; [exists [], None, []; repeat constructor|].
  destruct (key_comp (gk x) k) eqn:E1.
  { exists (x :: a), o, b. split_and!; [done|by constructor|done|done]. }
  destruct (key_comp k (gk x)) eqn:E2.
  - exists [], None, (x :: a ++ option_list o ++ b). split_and!; [done|constructor| |done].
    constructor; [done|]. eapply Forall_impl; [exact H|]. intros y Hy. by eapply swo_trans.
  - exists [], (Some x), (a ++ option_list o ++ b). split_and!; [done|constructor| |by apply eqv_spec].
    eapply Forall_impl; [exact H|]. intros y Hy. by eapply nlt_lt_trans.
Qed.

Lemma has_key_app k o : has_key k o -> group k (option_list o) = option_list o.
Proof. destruct o as [x|]; [|done]. intros H. change (option_list (Some x)) with [x]. cbn in H. by rewrite group_cons, H. Qed.

Lemma group_replace k l a o b o' k' : located k l a o b -> has_key k o' ->
  group k' (a ++ option_list o' ++ b) = if eqv k' k then option_list o' else group k' l.
Proof.
  intros (-> & Ha & Hb & Ho) Ho'. rewrite !group_app. destruct (eqv k' k) eqn:E.
  - rewrite (group_below k' k a Ha E), (group_above k' k b Hb E), app_nil_r, (group_eqv _ _ _ E). by apply has_key_app.
  - assert (Hn : forall o, has_key k o -> group k' (option_list o) = []).
    { intros [x|] Hx; [|done]. apply group_nil. constructor; [|done]. cbn in Hx.
      rewrite (eqv_sym k'), <- (eqv_eqv_l _ _ _ Hx), eqv_sym. done. }
    by rewrite !Hn.
Qed.

Lemma located_group k l a o b : located k l a o b -> group k l = option_list o.
Proof.
  intros H. pose proof H as (E & _ & _ & Ho). rewrite E at 1. rewrite (group_replace k l a o b o k H Ho).
  by rewrite eqv_refl.
Qed.

Lemma sorted_replace k l a o b o' : sorted l -> located k l a o b -> has_key k o' ->
  sorted (a ++ option_list o' ++ b).
Proof.
  intros Hs (-> & Ha & Hb & Ho) Ho'. apply StronglySorted_app in Hs as (H1 & Hsa & Hs).
  apply StronglySorted_app in Hs as (_ & _ & Hsb).
  apply StronglySorted_app. split_and!; [|done|apply StronglySorted_app; split_and!; [| |done]].
  - intros x y Hx Hy. apply elem_of_app in Hy as [Hy|Hy].
    + destruct o' as [z|]; [|by apply elem_of_nil in Hy]. apply list_elem_of_singleton in Hy as ->.
      unfold value_comp. rewrite <- (comp_eqv_r _ _ _ Ho'). revert x Hx. by apply Forall_forall.
    + apply H1; [done|]. apply elem_of_app. by right.
  - intros x y Hx Hy. destruct o' as [z|]; [|by apply elem_of_nil in Hx]. apply list_elem_of_singleton in Hx as ->.
    unfold value_comp. rewrite <- (comp_eqv_l _ _ _ Ho'). revert y Hy. by apply Forall_forall.
  - destruct o'; repeat constructor.
Qed.

(** The elements in front of the place are those below the key. *)
Lemma located_below k l a o b : located k l a o b -> a = filter (fun x => key_comp (gk x) k = true) l.
Proof.
  intros (-> & Ha & Hb & Ho). rewrite !list.filter_app.
  assert (Hn : forall m, Forall (fun x => key_comp (gk x) k = false) m -> filter (fun x => key_comp (gk x) k = true) m = []).
  { clear. induction 1 as [|x m H _ IH]; [done|]. rewrite filter_cons_False by congruence. done. }
  rewrite (Hn b), (Hn (option_list o)).
  - rewrite !app_nil_r. symmetry. clear -Ha. induction Ha as [|x a H _ IH]; [done|].
    rewrite filter_cons_True by done. by rewrite IH.
  - destruct o as [x|]; [|constructor]. constructor; [|done]. by apply eqv_spec in Ho as [_ ?].
  - eapply Forall_impl; [exact Hb|]. intros x Hx. by apply lt_asym.
Qed.

(** The search in the first [length l] elements, and the test that follows it. *)
Lemma search_located k l a o b rest : located k l a o b ->
  std_bound (fun x => key_comp (gk x) k) (l ++ rest) 0 (length l) = Ok (length a) /\
  absent_at gk key_comp (l ++ rest) (length l) (length a) k = Ok (bool_decide (o = None)).
Proof.
  intros (-> & Ha & Hb & Ho). split.
  - rewrite <- (assoc_L (++)). apply (std_bound_spec _ a (option_list o ++ b) rest); [done|]. apply Forall_app. split.
    + destruct o as [x|]; [|constructor]. constructor; [|done]. by apply eqv_spec in Ho as [_ ?].
    + eapply Forall_impl; [exact Hb|]. intros x Hx. by apply lt_asym.
  - unfold absent_at, deref. destruct o as [x|]; [change (option_list (Some x)) with [x]|change (option_list (@None Value)) with (@nil Value)].
    + rewrite bool_decide_eq_false_2 by (rewrite !length_app; cbn; lia).
      rewrite <- (assoc_L (++)). cbn [app]. rewrite list_lookup_middle by done. cbn. by apply eqv_spec in Ho as [-> _].
    + destruct b as [|y b]; cbn [app].
      * by rewrite app_nil_r, bool_decide_eq_true_2.
      * rewrite bool_decide_eq_false_2 by (rewrite !length_app; cbn; lia).
        rewrite <- (assoc_L (++)). cbn [app]. rewrite list_lookup_middle by done. cbn. by apply Forall_cons_1 in Hb as [-> _].
Qed.

(** *** The operations at a located key *)
Section Located.
Context (k : Key) (l a : list Value) (o : option Value) (b : list Value) (Hl : located k l a o b).

Lemma lower_bound_located : lower_bound gk key_comp l k = Ok (length a).
Proof. destruct (search_located k l a o b [] Hl) as [H _]. by rewrite app_nil_r in H. Qed.

Lemma absent_located : absent_at gk key_comp l (length l) (length a) k = Ok (bool_decide (o = None)).
Proof. destruct (search_located k l a o b [] Hl) as [_ H]. by rewrite app_nil_r in H. Qed.

Lemma upper_bound_located : upper_bound gk key_comp l k = Ok (length (a ++ option_list o)).
Proof.
  destruct Hl as (E & Ha & Hb & Ho). unfold upper_bound. rewrite E, (assoc_L (++)).
  replace ((a ++ option_list o) ++ b) with ((a ++ option_list o) ++ b ++ []) at 1 by by rewrite app_nil_r.
  apply std_bound_spec.
  - apply Forall_app. split.
    + eapply Forall_impl; [exact Ha|]. intros x Hx. cbn. by rewrite (lt_asym _ _ Hx).
    + destruct o as [x|]; [|constructor]. constructor; [|done]. by apply eqv_spec in Ho as [-> _].
  - eapply Forall_impl; [exact Hb|]. intros x Hx. cbn. by rewrite Hx.
Qed.

Lemma equal_range_located : equal_range gk key_comp l k = Ok (length a, length (a ++ option_list o)).
Proof.
  unfold equal_range. rewrite lower_bound_located. cbn [mbind res_bind]. rewrite absent_located.
  cbn [mbind res_bind]. rewrite length_app. destruct o; cbn; do 2 f_equal; lia.
Qed.

Lemma find_located : find gk key_comp l k = Ok (if bool_decide (o = None) then length l else length a).
Proof.
  unfold find. rewrite equal_range_located. cbn [mbind res_bind fst snd]. rewrite length_app. f_equal.
  destruct o; cbn [option_list]; [rewrite bool_decide_eq_false_2 by (cbn; lia)|rewrite bool_decide_eq_true_2 by (cbn; lia)]; done.
Qed.

Lemma count_located : count gk key_comp l k = Ok (length (option_list o)).
Proof.
  unfold count. rewrite equal_range_located. cbn [mbind res_bind fst snd]. rewrite length_app. f_equal. lia.
Qed.

Lemma contains_located : contains gk key_comp l k = Ok (bool_decide (o <> None)).
Proof.
  unfold contains. rewrite lower_bound_located. cbn [mbind res_bind]. rewrite absent_located.
  cbn [mbind res_bind]. by destruct o.
Qed.

Lemma vec_emplace_located v : o = None ->
  vec_emplace l (length a) v = Ok (a ++ option_list (Some v) ++ b, length a).
Proof.
  destruct Hl as (-> & _). intros ->. unfold vec_emplace. rewrite length_app, bool_decide_eq_true_2 by lia.
  cbn. by rewrite take_app_length, drop_app_length.
Qed.

Lemma emplace_located v : emplace_key_args gk key_comp l k v =
  Ok (a ++ option_list (Some (default v o)) ++ b, (length a, bool_decide (o = None))).
Proof.
  unfold emplace_key_args. rewrite lower_bound_located. cbn [mbind res_bind]. rewrite absent_located.
  cbn [mbind res_bind]. case_bool_decide as E.
  - unfold unsafe_emplace. rewrite vec_emplace_located by done. by rewrite E.
  - destruct Hl as (-> & _). by destruct o.
Qed.

Lemma insert_or_assign_located v : gk v = k -> insert_or_assign gk key_comp l v =
  Ok (a ++ option_list (Some v) ++ b, (length a, bool_decide (o = None))).
Proof.
  intros Hv. unfold insert_or_assign. rewrite Hv, lower_bound_located. cbn [mbind res_bind]. rewrite absent_located.
  cbn [mbind res_bind]. case_bool_decide as E; [by rewrite vec_emplace_located|].
  destruct Hl as (-> & _). destruct o as [x|]; [|done]. cbn.
  replace (length a) with (length a + 0)%nat at 1 by lia. by rewrite insert_app_r.
Qed.

Lemma erase_located : erase gk key_comp l k = Ok (a ++ b, length (option_list o)).
Proof.
  unfold erase. rewrite equal_range_located. cbn [mbind res_bind fst snd]. unfold erase_range.
  destruct Hl as (-> & _). rewrite !length_app, !bool_decide_eq_true_2 by lia. cbn.
  rewrite take_app_length, (assoc_L (++)), <- length_app, drop_app_length. do 2 f_equal. rewrite length_app. lia.
Qed.

(** The comparisons with an element tell on which side of the key it is. *)
Lemma lookup_located i x : l !! i = Some x ->
  key_comp (gk x) k = bool_decide (i < length a)%nat /\
  key_comp k (gk x) = bool_decide (length (a ++ option_list o) <= i)%nat.
Proof.
  destruct Hl as (-> & Ha & Hb & Ho). rewrite length_app. intros Hx. apply lookup_app_Some in Hx as [Hx|[Hi Hx]].
  { pose proof (lookup_lt_Some _ _ _ Hx). pose proof (Forall_lookup_1 _ _ _ _ Ha Hx) as H1. cbn in H1.
    rewrite H1, (lt_asym _ _ H1), bool_decide_eq_true_2, bool_decide_eq_false_2 by lia. done. }
  rewrite bool_decide_eq_false_2 by lia. apply lookup_app_Some in Hx as [Hx|[Hi' Hx]].
  - pose proof (lookup_lt_Some _ _ _ Hx). destruct o as [y|]; [|done].
    apply list_lookup_singleton_Some in Hx as [_ ->]. apply eqv_spec in Ho as [-> ->].
    rewrite bool_decide_eq_false_2 by lia. done.
  - pose proof (Forall_lookup_1 _ _ _ _ Hb Hx) as H1. cbn in H1.
    rewrite H1, (lt_asym _ _ H1), bool_decide_eq_true_2 by lia. done.
Qed.

Lemma hint_after hint : (hint <= length l)%nat ->
  (if bool_decide (hint = 0%nat) then Ok true
   else x ← deref l (hint - 1); Ok (key_comp (gk x) k)) = Ok (bool_decide (hint <= length a)%nat).
Proof.
  intros Hh. case_bool_decide as E; [by rewrite bool_decide_eq_true_2 by lia|]. unfold deref.
  destruct (lookup_lt_is_Some_2 l (hint - 1)) as [x Hx]; [lia|]. rewrite Hx. cbn.
  destruct (lookup_located _ _ Hx) as [-> _]. f_equal. apply bool_decide_ext. lia.
Qed.

Lemma hint_before hint : (hint <= length l)%nat ->
  absent_at gk key_comp l (length l) hint k = Ok (bool_decide (length (a ++ option_list o) <= hint)%nat).
Proof.
  intros Hh. unfold absent_at, deref. case_bool_decide as E.
  - rewrite bool_decide_eq_true_2; [done|]. destruct Hl as (El & _). rewrite El, !length_app in E. rewrite length_app. lia.
  - destruct (lookup_lt_is_Some_2 l hint) as [x Hx]; [lia|]. rewrite Hx. cbn.
    by destruct (lookup_located _ _ Hx) as [_ ->].
Qed.

(** A hint changes nothing but the search. *)
Lemma emplace_hint_located hint v : (hint <= length l)%nat ->
  emplace_hint_key_args gk key_comp l hint k v = emplace_key_args gk key_comp l k v.
Proof.
  intros Hh. unfold emplace_hint_key_args. rewrite hint_after by done. cbn [mbind res_bind].
  case_bool_decide as H1; [|done]. rewrite hint_before by done. cbn [mbind res_bind].
  case_bool_decide as H2; rewrite length_app in H2.
  - assert (o = None) as Eo by (destruct o; cbn in H2; [lia|done]).
    assert (hint = length a) as -> by lia. unfold unsafe_emplace.
    rewrite emplace_located, vec_emplace_located by done. rewrite Eo. done.
  - assert (Hlen : (hint < length l)%nat).
    { destruct Hl as (El & _). rewrite El, !length_app in Hh |- *. lia. }
    unfold deref. destruct (lookup_lt_is_Some_2 l hint Hlen) as [x Hx]. rewrite Hx. cbn [mbind res_bind].
    destruct (lookup_located _ _ Hx) as [-> _]. case_bool_decide as H3; [done|]. cbn [negb].
    rewrite emplace_located. assert (hint = length a) as -> by lia.
    destruct Hl as (-> & _). destruct o; [done|]. cbn in H2. lia.
Qed.
End Located.

(** The number of elements below a key. *)
Definition rank l k : nat := length (filter (fun x => key_comp (gk x) k = true) l).

Lemma located_rank k l a o b : located k l a o b -> rank l k = length a.
Proof. intros H. unfold rank. by rewrite <- (located_below _ _ _ _ _ H). Qed.

(** The searches make at most one comparison per binary digit of the size.  On a sorted vector of fewer than [2^n] elements the loops of [lower_bound] and [upper_bound] return after at most [n] comparisons, with the number of elements below the key and with the number of elements not above it, and these are the answers of the two searches. *)
Theorem searches_terminate l k n : sorted l -> (length l < 2 ^ n)%nat ->
  bound_loop n (fun x => key_comp (gk x) k) l 0 (length l) = Ok (rank l k) /\
  lower_bound gk key_comp l k = Ok (rank l k) /\
  bound_loop n (fun x => negb (key_comp k (gk x))) l 0 (length l) = Ok (rank l k + length (group k l))%nat /\
  upper_bound gk key_comp l k = Ok (rank l k + length (group k l))%nat.
Proof.
  intros Hs Hn. destruct (sorted_located k l Hs) as (a & o & b & Hl).
  rewrite (located_rank _ _ _ _ _ Hl), (located_group _ _ _ _ _ Hl), (lower_bound_located _ _ _ _ _ Hl),
    (upper_bound_located _ _ _ _ _ Hl), length_app.
  assert (Hle : (length a + length (option_list o) <= length l)%nat).
  { destruct Hl as (-> & _). rewrite !length_app. lia. }
  pose proof (lookup_located _ _ _ _ _ Hl) as Hx. rewrite length_app in Hx.
  split_and!; [|done| |done]; (apply bound_loop_spec; [done|lia|lia| |]); intros i x Hi Hlx;
    destruct (Hx _ _ Hlx) as [H1 H2]; rewrite ?H1, ?H2, ?negb_true_iff, ?negb_false_iff;
    (apply bool_decide_eq_true_2 || apply bool_decide_eq_false_2); lia.
Qed.
(** ** The contract: a finite map up to the equivalence of keys *)
Definition den l (m : Key -> option Value) : Prop :=
  sorted l /\ forall k, group k l = option_list (m k).

(** Every sorted vector stands for a map. *)
Lemma den_self l : sorted l -> den l (fun k => head (group k l)).
Proof.
  intros H. split; [done|]. intros k. pose proof (sorted_group k l H) as Hle.
  destruct (group k l) as [|x [|]]; [done|done|]. cbn in Hle. lia.
Qed.

Context (moved : Value -> Value).

(** *** Dropping duplicates *)
Local Abbreviation same := (fun lhs rhs => negb (lt lhs rhs)).

(** The element of a group that survives. *)
Definition pick (dupes : FlatContainerDupes) (l : list Value) : option Value :=
  match dupes with KEEP_FIRST_OF_DUPES => head l | KEEP_LAST_OF_DUPES => list.last l end.

Lemma unique_after_Forall P d l : Forall P l -> Forall P (unique_after same d l).
Proof.
  intros H. revert d. induction H as [|x l Hx _ IH]; intros d; cbn; [done|].
  destruct (negb (lt d x)); [|constructor]; auto.
Qed.

Lemma unique_after_wsorted d l : wsorted l -> wsorted (unique_after same d l).
Proof.
  intros H. revert d. induction H as [|x l _ IH H]; intros d; cbn; [constructor|].
  destruct (negb (lt d x)); [apply IH|]. constructor; [apply IH|]. by apply unique_after_Forall.
Qed.

Lemma group_unique_after k d l : wsorted (d :: l) ->
  group k (d :: unique_after same d l) = option_list (head (group k (d :: l))).
Proof.
  revert d. induction l as [|x l IH]; intros d H; cbn [unique_after].
  { rewrite !group_cons. by destruct (eqv k (gk d)). }
  apply StronglySorted_inv in H as [H Hd]. pose proof (StronglySorted_inv H) as [Hl Hx].
  apply Forall_cons in Hd as [Hdx Hdl]. destruct (lt d x) eqn:E; cbn [negb].
  - rewrite group_cons, IH by done. rewrite (group_cons k d). destruct (eqv k (gk d)) eqn:Ed; [|done].
    rewrite (group_above k (gk d) (x :: l)); [done| |done]. constructor; [done|].
    eapply Forall_impl; [exact Hx|]. intros y Hy. by eapply lt_nlt_trans.
  - rewrite IH by by constructor. rewrite !group_cons.
    assert (Ex : eqv (gk x) (gk d) = true) by by apply eqv_spec.
    rewrite (eqv_sym k (gk x)), (eqv_eqv_l _ _ _ Ex), (eqv_sym (gk d) k). by destruct (eqv k (gk d)).
Qed.

Lemma last_of_runs_Forall P l : Forall P l -> Forall P (last_of_runs same l).
Proof.
  induction 1 as [|x l Hx Hl IH]; [done|]. destruct l as [|y l]; [by repeat constructor|].
  rewrite last_of_runs_cons. destruct (negb (lt x y)); [|constructor]; auto.
Qed.

Lemma last_of_runs_wsorted l : wsorted l -> wsorted (last_of_runs same l).
Proof.
  induction 1 as [|x l _ IH H]; [constructor|]. destruct l as [|y l]; [by repeat constructor|].
  rewrite last_of_runs_cons. destruct (negb (lt x y)); [done|]. constructor; [done|].
  by apply last_of_runs_Forall.
Qed.

Lemma group_last_of_runs k l : wsorted l -> group k (last_of_runs same l) = option_list (list.last (group k l)).
Proof.
  induction 1 as [|x l Hl IH H]; [done|]. destruct l as [|y l].
  { cbn [last_of_runs]. rewrite group_cons. by destruct (eqv k (gk x)). }
  rewrite last_of_runs_cons. pose proof (Forall_cons_1 _ _ _ H) as [Hxy _]. destruct (lt x y) eqn:E; cbn [negb].
  - rewrite group_cons, IH, (group_cons k x). destruct (eqv k (gk x)) eqn:Ex; [|done].
    rewrite (group_above k (gk x) (y :: l)); [done| |done]. constructor; [done|].
    apply StronglySorted_inv in Hl as [_ Hy].
    eapply Forall_impl; [exact Hy|]. intros z Hz. by eapply lt_nlt_trans.
  - rewrite IH, !group_cons. assert (Ex : eqv (gk x) (gk y) = true) by by apply eqv_spec.
    rewrite (eqv_sym k (gk x)), (eqv_eqv_l _ _ _ Ex), (eqv_sym (gk y) k).
    by destruct (eqv k (gk y)), (group k l).
Qed.

(** What [std::unique] keeps of a range. *)
Definition first_of_runs l : list Value :=
  match l with [] => [] | x :: l' => x :: unique_after same x l' end.

Lemma first_of_runs_spec l : wsorted l -> wsorted (first_of_runs l) /\
  (forall k, group k (first_of_runs l) = option_list (head (group k l))) /\
  (forall P : Value -> Prop, Forall P l -> Forall P (first_of_runs l)) /\
  (length (first_of_runs l) <= length l)%nat.
Proof.
  intros H. destruct l as [|x l]; [done|]. cbn [first_of_runs]. split_and!.
  - apply StronglySorted_inv in H as [H Hx]. constructor; [by apply unique_after_wsorted|].
    by apply unique_after_Forall.
  - intros k. by apply group_unique_after.
  - intros P HP. apply Forall_cons in HP as [? ?]. constructor; [done|]. by apply unique_after_Forall.
  - cbn. clear. revert x. induction l as [|y l IH]; intros x; cbn; [lia|].
    destruct (negb (lt x y)); [specialize (IH x)|specialize (IH y)]; cbn; lia.
Qed.

Lemma stable_sort_Forall P l : Forall P l -> Forall P (stable_sort lt l).
Proof. induction 1 as [|x l Hx _ IH]; cbn; [done|]. by apply sort_insert_Forall. Qed.

Lemma stable_sort_length l : length (stable_sort lt l) = length l.
Proof.
  assert (Hi : forall x l, length (sort_insert lt x l) = S (length l)).
  { clear. intros x l. induction l as [|y l IH]; cbn; [done|]. destruct (lt y x); cbn; lia. }
  induction l as [|x l IH]; cbn; [done|]. rewrite Hi. by f_equal.
Qed.

(** The step that drops duplicates, on a sorted range. *)
Lemma drop_dupes_spec (s : list Value) dupes : wsorted s ->
  exists kept rest, match dupes with
    | KEEP_FIRST_OF_DUPES => Ok (std_unique moved same s)
    | KEEP_LAST_OF_DUPES => LastUnique moved same s
    end = Ok (kept ++ rest, length kept) /\ length (kept ++ rest) = length s /\
    wsorted kept /\ (forall k, group k kept = option_list (pick dupes (group k s))) /\
    (forall P : Value -> Prop, Forall P s -> Forall P kept).
Proof.
  intros Hs. destruct dupes.
  - destruct (first_of_runs_spec s Hs) as (Hk & Hg & HP & Hn).
    exists (first_of_runs s), (moved <$> drop (length (first_of_runs s)) s). split_and!; try done.
    rewrite length_app, length_fmap, length_drop. lia.
  - destruct (LastUnique_spec moved same s) as (rest & Hl & Hr). exists (last_of_runs same s), rest.
    split_and!; [done|done|by apply last_of_runs_wsorted|intros k; by apply group_last_of_runs|].
    intros P. apply last_of_runs_Forall.
Qed.

(** [sort_and_unique] on the end of the vector: sorted, one survivor per group. *)
Lemma sort_and_unique_spec old new dupes :
  exists new', sort_and_unique gk key_comp moved (old ++ new) (length old) (length (old ++ new)) dupes = Ok (old ++ new') /\
    wsorted new' /\ (forall k, group k new' = option_list (pick dupes (group k new))) /\
    (forall P : Value -> Prop, Forall P new -> Forall P new').
Proof.
  unfold sort_and_unique. rewrite firstn_all, drop_app_length, drop_all, take_app_length.
  destruct (drop_dupes_spec (stable_sort lt new) dupes (stable_sort_wsorted new)) as (kept & rest & -> & Hr & Hk & Hg & HP).
  cbn [mbind res_bind fst snd]. rewrite app_nil_r. exists kept. unfold erase_range.
  rewrite stable_sort_length, length_app in Hr. rewrite !length_app.
  rewrite !bool_decide_eq_true_2 by lia. cbn [andb defined mbind res_bind fst]. split_and!.
  - f_equal. rewrite (assoc_L (++)), <- (length_app old kept), take_app_length, drop_ge by (rewrite !length_app; lia).
    apply app_nil_r.
  - done.
  - intros k. by rewrite Hg, group_stable_sort.
  - intros P HQ. by apply HP, stable_sort_Forall.
Qed.


(** *** The batch insertion *)
Definition upd (dupes : FlatContainerDupes) (g : list Value) (w : Value) : Value :=
  match dupes with KEEP_FIRST_OF_DUPES => w | KEEP_LAST_OF_DUPES => default w (list.last g) end.

Definition fresh l items : list Value := filter (fun x => group (gk x) l = []) items.

Local Abbreviation append_of dupes :=
  (if bool_decide (dupes = KEEP_LAST_OF_DUPES) then append_or_assign gk key_comp else append_unique gk key_comp).

Lemma last_cons_default x (g : list Value) : list.last (x :: g) = Some (default x (list.last g)).
Proof. rewrite last_cons. by destruct (list.last g). Qed.

Lemma fresh_cons l x items : fresh l (x :: items) =
  if bool_decide (group (gk x) l = []) then x :: fresh l items else fresh l items.
Proof. unfold fresh. rewrite filter_cons. by repeat case_decide; case_bool_decide. Qed.

Lemma group_fresh k l items : group k (fresh l items) = if bool_decide (group k l = []) then group k items else [].
Proof.
  induction items as [|x items IH]; [by case_bool_decide|].
  rewrite fresh_cons, (group_cons k x items). destruct (eqv k (gk x)) eqn:E.
  - rewrite <- (group_eqv _ _ _ E). destruct (bool_decide (group k l = [])); [|done].
    by rewrite group_cons, E, IH.
  - destruct (bool_decide (group (gk x) l = [])); [|done]. by rewrite group_cons, E.
Qed.

Lemma fresh_ext l l' items : (forall k, group k l = [] <-> group k l' = []) -> fresh l items = fresh l' items.
Proof.
  intros H. induction items as [|x items IH]; [done|]. rewrite !fresh_cons, IH.
  by rewrite (bool_decide_ext _ _ (H (gk x))).
Qed.

(** The same keys, place by place. *)
Definition same_keys l l' : Prop := Forall2 (fun x y => eqv (gk x) (gk y) = true) l l'.

Lemma same_keys_refl l : same_keys l l.
Proof. apply Forall_Forall2_diag, Forall_true. intros x. apply eqv_refl. Qed.

Lemma same_keys_replace k l a o b x : located k l a o b -> o <> None -> eqv k (gk x) = true ->
  same_keys l (a ++ option_list (Some x) ++ b).
Proof.
  intros (-> & _ & _ & Ho) Hn Hx. destruct o as [w|]; [|done]. apply Forall2_app; [apply same_keys_refl|].
  constructor; [|apply same_keys_refl]. by rewrite <- (eqv_eqv_l _ _ _ Ho).
Qed.

Lemma same_keys_trans l1 l2 l3 : same_keys l1 l2 -> same_keys l2 l3 -> same_keys l1 l3.
Proof.
  intros H. revert l3. induction H as [|x y l1 l2 Hx _ IH]; intros l3 H3; inversion_clear H3 as [|? z ? l3' Hz Hr];
    constructor; [|by apply IH]. by rewrite (eqv_eqv_l _ _ _ Hx).
Qed.

Lemma same_keys_below k l l' : same_keys l l' -> below k l -> below k l'.
Proof.
  intros H. induction H as [|x y l l' Hx _ IH]; [done|]. intros [H1 H2]%Forall_cons. constructor; [|by apply IH].
  by rewrite <- (comp_eqv_l _ _ _ Hx).
Qed.

Lemma same_keys_sorted l l' : sorted l -> same_keys l l' -> sorted l'.
Proof.
  intros Hs H. induction H as [|x y l l' Hx Hl IH]; [done|]. apply StronglySorted_inv in Hs as [Hs Ha].
  constructor; [by apply IH|]. clear IH Hs. induction Hl as [|z z' l l' Hz _ IH]; [done|].
  apply Forall_cons in Ha as [Hxz Ha]. constructor; [|by apply IH]. unfold value_comp in *.
  by rewrite <- (comp_eqv_l _ _ _ Hx), <- (comp_eqv_r _ _ _ Hz).
Qed.

Lemma append_search_located l new x a o b : located (gk x) l a o b ->
  append_search gk key_comp (l ++ new) 0 (length l) x = Ok (length a, bool_decide (o = None)).
Proof.
  intros H. destruct (search_located _ _ _ _ _ new H) as [H1 H2]. unfold append_search.
  change (fun x0 : Value => lt x0 x) with (fun x0 : Value => key_comp (gk x0) (gk x)).
  rewrite H1. cbn [mbind res_bind]. by rewrite H2.
Qed.

(** One step of the loops. *)
Lemma append_step dupes l new x a o b : located (gk x) l a o b ->
  append_of dupes (l ++ new) 0%nat (length l) x =
  match o with
  | None => Ok ((l ++ new) ++ [x], (length a, true))
  | Some w => Ok ((a ++ option_list (Some (upd dupes [x] w)) ++ b) ++ new, (length a, false))
  end.
Proof.
  intros H. pose proof (append_search_located _ new _ _ _ _ H) as Hs. destruct H as (El & _).
  destruct dupes; [rewrite (bool_decide_eq_false_2 (KEEP_FIRST_OF_DUPES = KEEP_LAST_OF_DUPES)) by done|
                   rewrite (bool_decide_eq_true_2 (KEEP_LAST_OF_DUPES = KEEP_LAST_OF_DUPES)) by done];
    unfold append_or_assign, append_unique; rewrite Hs; cbn [mbind res_bind fst snd];
    destruct o as [w|]; try done; cbn.
  - by rewrite El.
  - do 2 f_equal. rewrite El, <- !(assoc_L (++)).
    replace (length a) with (length a + 0)%nat by lia. by rewrite insert_app_r.
Qed.

Lemma below_take k l n a o b pos : located k l a o b -> (pos <= Nat.min n (length a))%nat -> below k (take pos l).
Proof.
  intros (-> & Ha & _) Hp. rewrite take_app_le by lia. by apply Forall_take.
Qed.

(** The loops append the new values, and update the old ones, in their place. *)
Lemma append_loop_spec dupes items : forall l new pos, sorted l ->
  exists l' pos', append_loop (append_of dupes) (l ++ new) (length l) pos items =
      Ok (l' ++ new ++ fresh l items, pos') /\ (pos' <= pos)%nat /\ same_keys l l' /\
    (forall k, group k l' = option_list (upd dupes (group k items) <$> head (group k l))) /\
    Forall (fun x => below (gk x) (take pos' l')) (fresh l items).
Proof.
  induction items as [|x items IH]; intros l new pos Hs.
  { exists l, pos. cbn. rewrite app_nil_r. split_and!; [done|lia|apply same_keys_refl| |constructor].
    intros k. pose proof (sorted_group k l Hs). destruct (group k l) as [|w [|]]; [done|destruct dupes; done|cbn in *; lia]. }
  destruct (sorted_located (gk x) l Hs) as (a & o & b & Hl). pose proof (located_group _ _ _ _ _ Hl) as Hg.
  cbn [append_loop]. rewrite (append_step dupes l new x a o b Hl), fresh_cons, Hg.
  destruct o as [w|]; cbn [mbind res_bind fst snd].
  - rewrite (bool_decide_eq_false_2 (option_list (Some w) = [])) by done. set (x' := upd dupes [x] w).
    assert (Hx' : has_key (gk x) (Some x')).
    { destruct Hl as (_ & _ & _ & Hw). destruct dupes; [done|]. apply eqv_refl. }
    pose proof (sorted_replace _ _ _ _ _ _ Hs Hl Hx') as Hs1.
    pose proof (same_keys_replace _ _ _ _ _ x' Hl ltac:(done) Hx') as Hk1.
    pose proof (fun k => group_replace _ _ _ _ _ _ k Hl Hx') as Hg1.
    set (l1 := a ++ option_list (Some x') ++ b) in *.
    destruct (IH l1 new pos Hs1) as (l' & pos' & Hr & Hp & Hk & Hgr & Hb).
    assert (Hf : fresh l1 items = fresh l items).
    { apply fresh_ext. intros k. rewrite Hg1. destruct (eqv k (gk x)) eqn:E; [|done].
      by rewrite (group_eqv _ _ _ E), Hg. }
    rewrite <- (Forall2_length _ _ _ Hk1) in Hr. rewrite Hf in Hr, Hb. exists l', pos'.
    split_and!; [done|done|by eapply same_keys_trans| |done].
    intros k. rewrite Hgr, Hg1, group_cons. destruct (eqv k (gk x)) eqn:E; [|done].
    rewrite (group_eqv _ _ l E), Hg. subst x'. destruct dupes; [done|]. unfold upd.
    rewrite (last_cons_default x (group k items)). done.
  - rewrite (bool_decide_eq_true_2 (option_list None = [])) by done. rewrite <- (assoc_L (++)).
    destruct (IH l (new ++ [x]) (Nat.min pos (length a)) Hs) as (l' & pos' & Hr & Hp & Hk & Hgr & Hb).
    exists l', pos'. rewrite <- (assoc_L (++) new) in Hr. split_and!; [done|lia|done| |].
    + intros k. rewrite Hgr, group_cons. destruct (eqv k (gk x)) eqn:E; [|done].
      by rewrite (group_eqv _ _ l E), Hg.
    + constructor; [|done]. eapply same_keys_below; [by apply Forall2_take|]. by eapply below_take.
Qed.

(** *** One value, and a batch of them, at their places *)

(** After a range goes in, a key has the first, or the last, of its old and new values. *)
Definition merged (dupes : FlatContainerDupes) (m : Key -> option Value) items (k : Key) : option Value :=
  pick dupes (option_list (m k) ++ group k items).

Lemma den_intro l (m : Key -> option Value) : wsorted l -> (forall k, group k l = option_list (m k)) -> den l m.
Proof. intros Hw Hg. split; [|done]. apply wsorted_sorted; [done|]. intros k. rewrite Hg. destruct (m k); cbn; lia. Qed.

Lemma den_located l m k a o b : den l m -> located k l a o b -> o = m k.
Proof.
  intros [_ Hg] H. apply located_group in H. rewrite Hg in H. destruct o, (m k); cbn in H; congruence.
Qed.

Lemma den_group l m : den l m -> forall k k', eqv k k' = true -> m k = m k'.
Proof.
  intros [_ Hg] k k' E. pose proof (Hg k) as H. rewrite (group_eqv _ _ _ E), Hg in H.
  destruct (m k), (m k'); cbn in H; congruence.
Qed.

(** Putting one value at its place. *)
Lemma den_place l m v a o b o' dupes : den l m -> located (gk v) l a o b ->
  o' = match dupes with KEEP_FIRST_OF_DUPES => default v o | KEEP_LAST_OF_DUPES => v end ->
  den (a ++ option_list (Some o') ++ b) (merged dupes m [v]).
Proof.
  intros Hd Hl Ho'. assert (Hk : has_key (gk v) (Some o')).
  { subst o'. destruct Hl as (_ & _ & _ & Ho). destruct dupes, o; try done; apply eqv_refl. }
  split; [by eapply sorted_replace; [apply Hd|done|]|]. intros k. rewrite (group_replace _ _ _ _ _ _ k Hl Hk).
  unfold merged. rewrite group_cons. destruct (eqv k (gk v)) eqn:E.
  - rewrite (den_group l m Hd _ _ E), <- (den_located _ _ _ _ _ _ Hd Hl). subst o'. by destruct dupes, o.
  - destruct Hd as [_ ->]. rewrite app_nil_r. by destruct dupes, (m k).
Qed.

Lemma insert_range_batch l m items dupes : den l m ->
  exists l', (r ← append_loop (append_of dupes) l (length l) (length l) items;
     body' ← sort_and_unique gk key_comp moved r.1 (length l) (length r.1) dupes;
     Ok (inplace_merge gk key_comp body' r.2 (length l))) = Ok l' /\ den l' (merged dupes m items).
Proof.
  intros [Hs Hg]. destruct (append_loop_spec dupes items l [] (length l) Hs) as (l1 & pos & Hr & Hp & Hk & Hg1 & Hb).
  rewrite app_nil_r in Hr. cbn [app] in Hr. rewrite Hr. cbn [mbind res_bind fst snd].
  rewrite (Forall2_length _ _ _ Hk).
  destruct (sort_and_unique_spec l1 (fresh l items) dupes) as (new' & -> & Hw & Hgn & HP).
  cbn [mbind res_bind]. eexists. split; [done|]. unfold inplace_merge.
  rewrite take_app_length, drop_app_length, take_app_le by (rewrite <- (Forall2_length _ _ _ Hk); done).
  rewrite <- merge_app_l, take_drop; cycle 1.
  { apply Forall_forall. intros y Hy. apply HP in Hb. apply Forall_forall. intros x Hx.
    rewrite Forall_forall in Hb. specialize (Hb x Hx). unfold below in Hb. rewrite Forall_forall in Hb. by apply Hb. }
  assert (Hw1 : wsorted l1) by by eapply sorted_wsorted, same_keys_sorted.
  apply den_intro; [by apply merge_wsorted|]. intros k.
  rewrite group_merge, Hg1, Hgn, group_fresh, Hg by done. unfold merged.
  destruct (m k) as [w|]; cbn [option_list app].
  - rewrite bool_decide_eq_false_2 by done. destruct dupes; [done|]. cbn -[list.last]. by rewrite last_cons_default.
  - by rewrite bool_decide_eq_true_2.
Qed.

Lemma insert_den l m v : den l m -> exists l' i, insert gk key_comp l v = Ok (l', (i, bool_decide (m (gk v) = None))) /\
  l' !! i = Some (default v (m (gk v))) /\ den l' (merged KEEP_FIRST_OF_DUPES m [v]).
Proof.
  intros Hd. destruct (sorted_located (gk v) l (proj1 Hd)) as (a & o & b & Hl).
  unfold insert. rewrite (emplace_located _ _ _ _ _ Hl v). rewrite <- (den_located _ _ _ _ _ _ Hd Hl).
  eexists _, _. split_and!; [done|by apply list_lookup_middle|]. by eapply den_place.
Qed.

Lemma insert_or_assign_den l m v : den l m ->
  exists l' i, insert_or_assign gk key_comp l v = Ok (l', (i, bool_decide (m (gk v) = None))) /\
  l' !! i = Some v /\ den l' (merged KEEP_LAST_OF_DUPES m [v]).
Proof.
  intros Hd. destruct (sorted_located (gk v) l (proj1 Hd)) as (a & o & b & Hl).
  rewrite (insert_or_assign_located _ _ _ _ _ Hl v) by done. rewrite <- (den_located _ _ _ _ _ _ Hd Hl).
  eexists _, _. split_and!; [done|by apply list_lookup_middle|]. by eapply den_place.
Qed.

Lemma insert_hint_eq l m h v : den l m -> (h <= length l)%nat ->
  emplace_hint_key_args gk key_comp l h (gk v) v = insert gk key_comp l v.
Proof.
  intros Hd Hh. destruct (sorted_located (gk v) l (proj1 Hd)) as (a & o & b & Hl).
  by eapply emplace_hint_located.
Qed.

Lemma insert_range_den multipass l m items dupes : den l m ->
  exists l', insert_range gk key_comp moved multipass l items dupes = Ok l' /\ den l' (merged dupes m items).
Proof.
  intros Hd. unfold insert_range. destruct items as [|x items].
  { rewrite bool_decide_eq_true_2 by done. exists l. split; [done|]. destruct Hd as [Hs Hg]. split; [done|].
    intros k. rewrite Hg. unfold merged. cbn. rewrite app_nil_r. by destruct dupes, (m k). }
  rewrite (bool_decide_eq_false_2 (_ :: _ = [])) by done.
  destruct (multipass && bool_decide (length (x :: items) = 1%nat)) eqn:E; [|by apply insert_range_batch].
  apply andb_prop in E as [_ E]. apply bool_decide_eq_true in E. destruct items; [|done]. destruct dupes.
  - rewrite bool_decide_eq_false_2 by done. cbn [copy_inserter]. unfold insert_hint.
    rewrite (insert_hint_eq l m) by done. destruct (insert_den l m x Hd) as (l' & i & -> & _ & Hd'). by exists l'.
  - rewrite bool_decide_eq_true_2 by done. cbn [assign_loop].
    destruct (insert_or_assign_den l m x Hd) as (l' & i & -> & _ & Hd'). by exists l'.
Qed.

Lemma flat_tree_new_den items dupes : exists l, flat_tree_new gk key_comp moved items dupes = Ok l /\
  den l (merged dupes (fun _ => None) items).
Proof.
  destruct (sort_and_unique_spec [] items dupes) as (l & Hr & Hw & Hg & _). exists l. split; [done|].
  by apply den_intro.
Qed.

Lemma erase_den l m k : den l m -> exists l', erase gk key_comp l k = Ok (l', length (option_list (m k))) /\
  den l' (fun k' => if eqv k' k then None else m k').
Proof.
  intros Hd. destruct (sorted_located k l (proj1 Hd)) as (a & o & b & Hl). exists (a ++ b).
  rewrite (erase_located _ _ _ _ _ Hl), <- (den_located _ _ _ _ _ _ Hd Hl). split; [done|]. split.
  - by apply (sorted_replace _ _ _ _ _ None (proj1 Hd) Hl).
  - intros k'. pose proof (group_replace _ _ _ _ _ None k' Hl I) as Hg. change (a ++ option_list None ++ b) with (a ++ b) in Hg. rewrite Hg.
    destruct Hd as [_ Hd]. by destruct (eqv k' k).
Qed.

(** An element has a key exactly at the key's rank. *)
Lemma segment_group k l a o b i n : located k l a o b -> ~ (i <= length a < i + n)%nat ->
  group k (take n (drop i l)) = [].
Proof.
  intros Hl Hi. apply group_nil, Forall_lookup. intros p x Hx. rewrite lookup_take_Some, lookup_drop in Hx.
  destruct Hx as [Hx Hp]. destruct (lookup_located _ _ _ _ _ Hl _ _ Hx) as [H1 H2]. unfold eqv. rewrite H1, H2, length_app.
  clear H1 H2. destruct o; cbn; repeat case_bool_decide; cbn; try done; lia.
Qed.

Lemma sorted_cut a s b : sorted (a ++ s ++ b) -> sorted (a ++ b).
Proof.
  unfold sorted. rewrite !StronglySorted_app. intros (H1 & Ha & H2 & _ & Hb). split_and!; [|done|done].
  intros x y Hx Hy. apply H1; [done|]. apply elem_of_app. by right.
Qed.

Lemma cut_at l i j : (i <= j <= length l)%nat -> l = take i l ++ take (j - i) (drop i l) ++ drop j l.
Proof.
  intros Hij. rewrite <- (take_drop i l) at 1. f_equal. rewrite <- (take_drop (j - i) (drop i l)) at 1. f_equal.
  rewrite drop_drop. f_equal. lia.
Qed.

Lemma erase_range_den l m i j : den l m -> (i <= j <= length l)%nat ->
  exists l', erase_range l i j = Ok (l', i) /\
  den l' (fun k => if bool_decide (i <= rank l k < j)%nat then None else m k).
Proof.
  intros [Hs Hg] Hij. unfold erase_range. rewrite !bool_decide_eq_true_2 by lia. eexists. split; [done|].
  pose proof (cut_at l i j Hij) as Hc. split; [rewrite Hc in Hs; by eapply sorted_cut|].
  intros k. destruct (sorted_located k l Hs) as (a & o & b & Hl). rewrite (located_rank _ _ _ _ _ Hl).
  pose proof (segment_group k l a o b 0 i Hl) as H1. rewrite drop_0 in H1.
  pose proof (segment_group k l a o b i (j - i) Hl) as H2.
  pose proof (segment_group k l a o b j (length l) Hl) as H3. rewrite (take_ge (drop j l)) in H3 by (rewrite length_drop; lia).
  case_bool_decide as E.
  - rewrite group_app, H1, H3 by lia. done.
  - rewrite <- Hg. rewrite Hc at 3. rewrite !group_app, H2 by lia. done.
Qed.

Lemma erase_at_eq l i : (i < length l)%nat -> erase_at l i = erase_range l i (S i).
Proof. intros H. unfold erase_at, erase_range. by rewrite !bool_decide_eq_true_2 by lia. Qed.

Lemma group_filter (P : Value -> Prop) `{!forall x, Decision (P x)} k l : group k (filter P l) = filter P (group k l).
Proof. unfold group. rewrite !list_filter_filter. apply list_filter_iff. naive_solver. Qed.

Lemma EraseIf_den pred l m : den l m -> exists l', EraseIf moved pred l = Ok l' /\
  den l' (fun k => v ← m k; if pred v then None else Some v).
Proof.
  intros [Hs Hg]. unfold EraseIf. set (kept := filter (fun x => pred x = false) l). exists kept.
  assert (Hk : (length kept <= length l)%nat) by apply length_filter.
  unfold erase_range. rewrite !bool_decide_eq_true_2 by (rewrite ?length_app, ?length_fmap, ?length_drop; lia).
  cbn [andb defined mbind res_bind fst]. split.
  { rewrite take_app_length, drop_ge, app_nil_r by (rewrite length_app, length_fmap, length_drop; lia). done. }
  split.
  - subst kept. clear Hg Hk. induction Hs as [|x l Hs IH H]; [constructor|]. rewrite filter_cons. case_decide; [|done].
    constructor; [done|]. apply Forall_forall. intros y [_ Hy]%list_elem_of_filter.
    by apply (proj1 (Forall_forall _ _) H).
  - intros k. subst kept. rewrite group_filter, Hg. destruct (m k) as [v|]; [|done].
    change (option_list (Some v)) with [v]. rewrite filter_cons. cbn. by case_decide; destruct (pred v).
Qed.

(** *** Sequences of operations *)
Inductive op :=
| OInsert (v : Value)
| OInsertHint (hint : nat) (v : Value)
| OInsertRange (multipass : bool) (items : list Value) (dupes : FlatContainerDupes)
| OErase (k : Key)
| OEraseAt (i : nat)
| OEraseRange (i j : nat)
| OEraseIf (pred : Value -> bool)
| OAssign (items : list Value)
| OClear.

Definition step (c : op) l : res (list Value) :=
  match c with
  | OInsert v => r ← insert gk key_comp l v; Ok r.1
  | OInsertHint h v => r ← insert_hint gk key_comp l h v; Ok r.1
  | OInsertRange mp items dupes => insert_range gk key_comp moved mp l items dupes
  | OErase k => r ← erase gk key_comp l k; Ok r.1
  | OEraseAt i => r ← erase_at l i; Ok r.1
  | OEraseRange i j => r ← erase_range l i j; Ok r.1
  | OEraseIf pred => EraseIf moved pred l
  | OAssign items => assign_list gk key_comp moved items
  | OClear => Ok []
  end.

(** Iterators passed in are valid ones of the tree. *)
Definition valid (c : op) l : Prop :=
  match c with
  | OInsertHint h _ => (h <= length l)%nat
  | OEraseAt i => (i < length l)%nat
  | OEraseRange i j => (i <= j <= length l)%nat
  | _ => True
  end.

Definition spec (c : op) l (m : Key -> option Value) : Key -> option Value :=
  match c with
  | OInsert v | OInsertHint _ v => merged KEEP_FIRST_OF_DUPES m [v]
  | OInsertRange _ items dupes => merged dupes m items
  | OErase k => fun k' => if eqv k' k then None else m k'
  | OEraseAt i => fun k => if bool_decide (i <= rank l k < S i)%nat then None else m k
  | OEraseRange i j => fun k => if bool_decide (i <= rank l k < j)%nat then None else m k
  | OEraseIf pred => fun k => v ← m k; if pred v then None else Some v
  | OAssign items => merged KEEP_FIRST_OF_DUPES (fun _ => None) items
  | OClear => fun _ => None
  end.

(** The trees a client can hold, with the map each stands for. *)
Inductive reach : list Value -> (Key -> option Value) -> Prop :=
| reach_new items dupes l : flat_tree_new gk key_comp moved items dupes = Ok l ->
    reach l (merged dupes (fun _ => None) items)
| reach_step l m c l' : reach l m -> valid c l -> step c l = Ok l' -> reach l' (spec c l m).

Lemma step_den c l m : den l m -> valid c l -> exists l', step c l = Ok l' /\ den l' (spec c l m).
Proof.
  intros Hd Hv. destruct c; cbn [step spec valid] in *.
  - destruct (insert_den l m v Hd) as (l' & i & -> & _ & H). by exists l'.
  - unfold insert_hint. rewrite (insert_hint_eq l m) by done.
    destruct (insert_den l m v Hd) as (l' & i & -> & _ & H). by exists l'.
  - by apply insert_range_den.
  - destruct (erase_den l m k Hd) as (l' & -> & H). by exists l'.
  - rewrite erase_at_eq by done. destruct (erase_range_den l m i (S i) Hd) as (l' & -> & H); [lia|]. by exists l'.
  - destruct (erase_range_den l m i j Hd) as (l' & -> & H); [lia|]. by exists l'.
  - by apply EraseIf_den.
  - apply (flat_tree_new_den items KEEP_FIRST_OF_DUPES).
  - exists []. split; [done|]. apply den_intro; [constructor|done].
Qed.

Lemma reach_den l m : reach l m -> den l m.
Proof.
  induction 1 as [items dupes l H|l m c l' _ IH Hv H].
  - destruct (flat_tree_new_den items dupes) as (l' & H' & Hd). rewrite H in H'. by injection H' as <-.
  - destruct (step_den c l m IH Hv) as (l'' & H' & Hd). rewrite H in H'. by injection H' as <-.
Qed.

(** What the searches answer on a tree that stands for [m]. *)
Definition answers l (m : Key -> option Value) : Prop := forall k,
  lower_bound gk key_comp l k = Ok (rank l k) /\
  upper_bound gk key_comp l k = Ok (rank l k + length (option_list (m k)))%nat /\
  count gk key_comp l k = Ok (length (option_list (m k))) /\
  contains gk key_comp l k = Ok (bool_decide (m k <> None)) /\
  match m k with
  | Some v => find gk key_comp l k = Ok (rank l k) /\ l !! rank l k = Some v /\ eqv k (gk v) = true
  | None => find gk key_comp l k = Ok (length l)
  end.

Lemma den_answers l m : den l m -> answers l m.
Proof.
  intros Hd k. destruct (sorted_located k l (proj1 Hd)) as (a & o & b & Hl).
  rewrite (located_rank _ _ _ _ _ Hl), <- (den_located _ _ _ _ _ _ Hd Hl).
  rewrite (lower_bound_located _ _ _ _ _ Hl), (upper_bound_located _ _ _ _ _ Hl), (count_located _ _ _ _ _ Hl),
    (contains_located _ _ _ _ _ Hl), (find_located _ _ _ _ _ Hl), length_app.
  split_and!; [done..|]. destruct Hl as (-> & _ & _ & Ho). destruct o as [v|]; [|done].
  split_and!; [done|by apply list_lookup_middle|done].
Qed.

(** C24: a flat tree is a sorted finite map.  Whatever sequence of insertions, single, hinted or in batches, erasures and assignments built a tree, its vector is strictly sorted, the searches answer for the map that the sequence describes (each key has the first, or where asked the last, of the values given for it), and every further operation with valid iterators returns. *)
Theorem flat_tree_refines :
  (forall items dupes, exists l, flat_tree_new gk key_comp moved items dupes = Ok l) /\
  (forall l m, reach l m -> sorted l /\ answers l m /\
     forall c, valid c l -> exists l', step c l = Ok l' /\ reach l' (spec c l m)).
Proof.
  split.
  - intros items dupes. destruct (flat_tree_new_den items dupes) as (l & H & _). by exists l.
  - intros l m Hr. pose proof (reach_den l m Hr) as Hd. split_and!; [apply Hd|by apply den_answers|].
    intros c Hv. destruct (step_den c l m Hd Hv) as (l' & H & _). exists l'. split; [done|]. by eapply reach_step.
Qed.

(** A sorted vector is determined by its groups. *)
Lemma sorted_canonical l : forall l', sorted l -> sorted l' -> (forall k, group k l = group k l') -> l = l'.
Proof.
  assert (Hlt : forall x l y l', sorted (y :: l') -> group (gk x) (x :: l) = group (gk x) (y :: l') -> lt x y = false).
  { intros x l0 y l' Hs Hg. destruct (lt x y) eqn:E; [|done]. exfalso. apply StronglySorted_inv in Hs as [_ Hy].
    rewrite (group_above (gk x) (gk x) (y :: l')), group_cons, eqv_refl in Hg; [done| |apply eqv_refl].
    constructor; [done|]. eapply Forall_impl; [exact Hy|]. intros z Hz. by eapply swo_trans. }
  induction l as [|x l IH]; intros [|y l'] Hs Hs' Hg; [done| | |].
  - specialize (Hg (gk y)). by rewrite group_cons, eqv_refl in Hg.
  - specialize (Hg (gk x)). by rewrite group_cons, eqv_refl in Hg.
  - assert (E : eqv (gk x) (gk y) = true).
    { apply eqv_spec. split; [by eapply (Hlt x l y l')|]. by eapply (Hlt y l' x l). }
    pose proof (StronglySorted_inv Hs) as [Hsl Hx]. pose proof (StronglySorted_inv Hs') as [Hsl' Hy].
    pose proof (Hg (gk x)) as Hxy. rewrite !group_cons, eqv_refl, E in Hxy. injection Hxy as <- _. f_equal.
    apply IH; [done..|]. intros k. specialize (Hg k). rewrite !group_cons in Hg. destruct (eqv k (gk x)); congruence.
Qed.

(** Two flat trees compare equal exactly when they hold the same map, whatever sequences of operations built them. *)
Theorem flat_tree_equality `{EqDecision Value} l m l' m' : reach l m -> reach l' m' ->
  (tree_eq l l' = true <-> forall k, m k = m' k).
Proof.
  intros [Hs Hg]%reach_den [Hs' Hg']%reach_den. unfold tree_eq. rewrite bool_decide_eq_true. split.
  - intros -> k. pose proof (Hg k) as H. rewrite Hg' in H. destruct (m k), (m' k); cbn in H; congruence.
  - intros H. apply sorted_canonical; [done..|]. intros k. by rewrite Hg, Hg', H.
Qed.

End Order.

(** ** The contract of [flat_map] *)
Section MapContract.
Context {Key Mapped : Type} (key_comp : Key -> Key -> bool) `{!StrictWeakOrder key_comp} (mapped_type : Mapped).
Implicit Types (l : list (Key * Mapped)) (m : Key -> option (Key * Mapped)) (k : Key) (obj : Mapped).
Local Abbreviation gk := GetKeyFromValuePairFirst.
Local Abbreviation stands_for := (den (Value := Key * Mapped) gk key_comp).

(** The map with [obj] at [k]; an equivalent key that is present stays. *)
Definition put m k obj (k' : Key) : option (Key * Mapped) :=
  if eqv key_comp k' k then Some (from_option fst k (m k), obj) else m k'.

Lemma put_den l m k obj a o b : stands_for l m -> located gk key_comp k l a o b ->
  stands_for (a ++ option_list (Some (from_option fst k o, obj)) ++ b) (put m k obj).
Proof.
  intros Hd Hl. assert (Hk : has_key gk key_comp k (Some (from_option fst k o, obj))).
  { destruct Hl as (_ & _ & _ & Ho). destruct o; [done|]. apply eqv_refl, _. }
  split; [by eapply sorted_replace; [apply _|apply Hd|done|]|]. intros k'.
  rewrite (group_replace _ _ _ _ _ _ _ _ k' Hl Hk). unfold put.
  rewrite <- (den_located _ _ _ _ _ _ _ _ Hd Hl). destruct Hd as [_ Hd]. by destruct (eqv key_comp k' k).
Qed.

(** [emplace_key_args] with a pair: what is there stays, what is not is inserted. *)
Lemma emplace_put l m k obj a o b : stands_for l m -> located gk key_comp k l a o b ->
  emplace_key_args gk key_comp l k (k, obj) =
    Ok (a ++ option_list (Some (from_option fst k o, from_option snd obj o)) ++ b, (length a, bool_decide (o = None))) /\
  stands_for (a ++ option_list (Some (from_option fst k o, from_option snd obj o)) ++ b)
    (put m k (from_option snd obj (m k))).
Proof.
  intros Hd Hl. rewrite <- (den_located _ _ _ _ _ _ _ _ Hd Hl). split; [|by eapply put_den].
  rewrite (emplace_located _ _ _ _ _ _ _ Hl). by destruct o as [[]|].
Qed.

(** What an assignment through the iterator does after it. *)
Lemma assign_second_put k obj a (o : option (Key * Mapped)) b :
  assign_second (a ++ [(from_option fst k o, from_option snd obj o)] ++ b) (length a) obj =
    Ok (a ++ option_list (Some (from_option fst k o, obj)) ++ b).
Proof.
  unfold assign_second, deref. cbn [app]. rewrite list_lookup_middle by done. cbn.
  replace (length a) with (length a + 0)%nat by lia. by rewrite insert_app_r.
Qed.

(** The operations of a flat map.  On a vector that stands for a map, [operator\[\]] gives the place of the key's value, inserting the default one if there is none; [insert_or_assign] gives the key the value and says whether the key was new; [try_emplace] leaves a value that is there.  A valid hint never changes the result. *)
Theorem flat_map_laws l m k obj hint : stands_for l m -> (hint <= length l)%nat ->
  (exists l' i, map_index key_comp mapped_type l k = Ok (l', i) /\
     l' !! i = Some (from_option fst k (m k), from_option snd mapped_type (m k)) /\
     stands_for l' (put m k (from_option snd mapped_type (m k)))) /\
  (exists l' i, map_insert_or_assign key_comp l k obj = Ok (l', (i, bool_decide (m k = None))) /\
     map_insert_or_assign_hint key_comp l hint k obj = Ok (l', i) /\
     l' !! i = Some (from_option fst k (m k), obj) /\ stands_for l' (put m k obj)) /\
  (exists l' i, try_emplace key_comp l k obj = Ok (l', (i, bool_decide (m k = None))) /\
     try_emplace_hint key_comp l hint k obj = Ok (l', i) /\
     l' !! i = Some (from_option fst k (m k), from_option snd obj (m k)) /\
     stands_for l' (put m k (from_option snd obj (m k)))).
Proof.
  intros Hd Hh. destruct (sorted_located gk key_comp k l (proj1 Hd)) as (a & o & b & Hl).
  pose proof (den_located _ _ _ _ _ _ _ _ Hd Hl) as Eo.
  pose proof (emplace_hint_located _ _ _ _ _ _ _ Hl hint (k, obj) Hh) as Hhint.
  destruct (emplace_put l m k obj a o b Hd Hl) as [He Hp].
  destruct (emplace_put l m k mapped_type a o b Hd Hl) as [He0 Hp0]. rewrite <- Eo in *. split_and!.
  - exists (a ++ option_list (Some (from_option fst k o, from_option snd mapped_type o)) ++ b), (length a).
    split_and!; [|by apply list_lookup_middle|done]. unfold map_index, emplace_key_args in *.
    rewrite (lower_bound_located _ _ _ _ _ _ _ Hl) in He0 |- *. cbn [mbind res_bind] in He0 |- *.
    rewrite (absent_located _ _ _ _ _ _ _ Hl) in He0 |- *. cbn [mbind res_bind] in He0 |- *.
    destruct (bool_decide (o = None)); [|congruence].
    destruct (unsafe_emplace l (length a) (k, mapped_type)) as [[l1 i1]| | |];
      cbn [mbind res_bind fst snd] in He0; [|done..]. by injection He0 as -> ->.
  - exists (a ++ option_list (Some (from_option fst k o, obj)) ++ b), (length a).
    pose proof (put_den l m k obj a o b Hd Hl) as Hput.
    unfold map_insert_or_assign, map_insert_or_assign_hint. rewrite Hhint, He. cbn [mbind res_bind fst snd].
    clear Eo Hp Hp0 He He0 Hhint. destruct (bool_decide (o = None)) eqn:E.
    { apply bool_decide_eq_true in E. rewrite E in *. split_and!; try done. by apply list_lookup_middle. }
    change (option_list (Some (from_option fst k o, from_option snd obj o)))
      with [(from_option fst k o, from_option snd obj o)]. rewrite assign_second_put. split_and!; try done. by apply list_lookup_middle.
  - exists (a ++ option_list (Some (from_option fst k o, from_option snd obj o)) ++ b), (length a).
    unfold try_emplace, try_emplace_hint. rewrite Hhint, He. split_and!; try done. by apply list_lookup_middle.
Qed.
End MapContract.

(** ** Examples *)
#[global] Instance Zltb_strict : StrictWeakOrder Z.ltb.
Proof. split; intros *; rewrite ?Z.ltb_lt, ?Z.ltb_ge; lia. Qed.

Section Examples.
Local Open Scope Z_scope.
Local Abbreviation new := (flat_tree_new (Value := Z * Z) fst Z.ltb id).
Local Abbreviation reached := (reach (Value := Z * Z) fst Z.ltb id).
Local Abbreviation none := (fun _ : Z => @None (Z * Z)).

Lemma flat_tree_refines_witness : let items := [(5, 50); (2, 20); (5, 51)] in let batch := [(2, 25); (1, 10)] in
  let m := merged fst Z.ltb KEEP_LAST_OF_DUPES (merged fst Z.ltb KEEP_FIRST_OF_DUPES none items) batch in
  reached [(1, 10); (2, 25); (5, 50)] m /\ answers fst Z.ltb [(1, 10); (2, 25); (5, 50)] m /\ m 5 = Some (5, 50).
Proof.
  intros items batch m.
  assert (H : reached [(1, 10); (2, 25); (5, 50)] m).
  { refine (reach_step _ _ _ [(2, 20); (5, 50)] _ (OInsertRange false batch KEEP_LAST_OF_DUPES) _ _ I _);
      [apply reach_new|]; vm_compute; reflexivity. }
  split; [exact H|]. destruct (proj2 (flat_tree_refines fst Z.ltb id) _ _ H) as (_ & Ha & _).
  split; [exact Ha|vm_compute; reflexivity].
Defined.

Lemma flat_tree_equality_witness :
  tree_eq [(1, 10); (2, 20)] [(1, 10); (2, 20)] = true <->
  forall k, merged fst Z.ltb KEEP_FIRST_OF_DUPES none [(2, 20); (1, 10)] k =
            merged fst Z.ltb KEEP_LAST_OF_DUPES none [(1, 11); (2, 20); (1, 10)] k.
Proof. apply (flat_tree_equality fst Z.ltb id); apply reach_new; vm_compute; reflexivity. Defined.

Lemma searches_terminate_witness : let l := [(1, 10); (3, 30); (7, 70)] in
  bound_loop 2 (fun x => x.1 <? 3) l 0 3 = Ok 1%nat /\ upper_bound fst Z.ltb l 3 = Ok 2%nat.
Proof.
  intros l. assert (Hs : sorted fst Z.ltb l) by (repeat constructor).
  destruct (searches_terminate fst Z.ltb l 3 2 Hs ltac:(cbn; lia)) as (H1 & _ & _ & H2).
  split; [exact H1|exact H2].
Defined.

Lemma flat_map_laws_witness : let m := fun k => head (group fst Z.ltb k [(1, 10); (3, 30)]) in
  exists l' i, map_insert_or_assign Z.ltb [(1, 10); (3, 30)] 3 31 = Ok (l', (i, false)) /\
    map_insert_or_assign_hint Z.ltb [(1, 10); (3, 30)] 0 3 31 = Ok (l', i) /\ l' !! i = Some (3, 31).
Proof.
  intros m. destruct (flat_map_laws Z.ltb 0 [(1, 10); (3, 30)] m 3 31 0) as (_ & (l' & i & H1 & H2 & H3 & _) & _).
  - apply (den_self GetKeyFromValuePairFirst Z.ltb). repeat constructor.
  - cbn. lia.
  - exists l', i. split; [exact H1|]. split; [exact H2|exact H3].
Defined.
End Examples.
