(* ===== verification/LinkedList.v ===== *)
(** * The intrusive linked list

    [LinkNode<T>] and [LinkedList<T>] of [base/containers/linked_list.h] of
    [include/webrtc].  The memory maps the address of a node to its two pointers; a list
    is the address of its root node.  Following a null pointer, or one to an address where
    there is no node, is undefined. *)

From S2P Require Import Prelude.
From stdpp Require Import list.
Local Open Scope Z_scope.

Record LinkNode := mkNode { previous_ : option Z; next_ : option Z }.
Abbreviation memory := (gmap Z LinkNode).

Implicit Types (m : memory) (this e root : Z).

(** ** The operations *)
Definition at_node m (p : option Z) : res LinkNode :=
  match p with
  | Some a => match m !! a with Some n => Ok n | None => Undef end
  | None => Undef
  end.

Definition set_next m (p : option Z) (v : option Z) : res memory :=
  match p with
  | Some a => n ← at_node m p; Ok (<[a := mkNode (previous_ n) v]> m)
  | None => Undef
  end.

Definition set_previous m (p : option Z) (v : option Z) : res memory :=
  match p with
  | Some a => n ← at_node m p; Ok (<[a := mkNode v (next_ n)]> m)
  | None => Undef
  end.

(** A new node at a fresh address. *)
Definition LinkNode_new m this : memory := <[this := mkNode None None]> m.

(** The move constructor of a node at a fresh address. *)
Definition LinkNode_move m this (rhs : Z) : res memory :=
  r ← at_node m (Some rhs);
  let next := next_ r in
  m ← set_next m (Some rhs) None;
  r ← at_node m (Some rhs);
  let previous := previous_ r in
  m ← set_previous m (Some rhs) None;
  let m := <[this := mkNode previous next]> m in
  match next with
  | None => Ok m
  | Some _ => m ← set_previous m next (Some this);
              t ← at_node m (Some this);
              set_next m (previous_ t) (Some this)
  end.

Definition InsertBefore m this e : res memory :=
  m ← set_next m (Some this) (Some e);
  en ← at_node m (Some e);
  m ← set_previous m (Some this) (previous_ en);
  en ← at_node m (Some e);
  m ← set_next m (previous_ en) (Some this);
  set_previous m (Some e) (Some this).

Definition InsertAfter m this e : res memory :=
  en ← at_node m (Some e);
  m ← set_next m (Some this) (next_ en);
  m ← set_previous m (Some this) (Some e);
  en ← at_node m (Some e);
  m ← set_previous m (next_ en) (Some this);
  set_next m (Some e) (Some this).

Definition RemoveFromList m this : res memory :=
  t ← at_node m (Some this);
  m ← set_next m (previous_ t) (next_ t);
  t ← at_node m (Some this);
  m ← set_previous m (next_ t) (previous_ t);
  m ← set_next m (Some this) None;
  set_previous m (Some this) None.

Definition LinkedList_new m root : memory := <[root := mkNode (Some root) (Some root)]> m.
Definition Append m root e : res memory := InsertBefore m e root.
Definition list_head m root : res (option Z) := r ← at_node m (Some root); Ok (next_ r).
Definition list_tail m root : res (option Z) := r ← at_node m (Some root); Ok (previous_ r).
Definition list_empty m root : res bool := h ← list_head m root; Ok (bool_decide (h = Some root)).

(** The client's loops [for (node = list.head(); node != list.end(); node = node->next())],
    and backwards from the tail. *)
Fixpoint walk (dir : LinkNode -> option Z) (fuel : nat) m root (node : option Z) : res (list Z) :=
  if bool_decide (node = Some root) then Ok []
  else match fuel, node with
       | S fuel, Some a => n ← at_node m node; l ← walk dir fuel m root (dir n); Ok (a :: l)
       | _, _ => Undef
       end.

(** ** Segments and rings

    A segment between the nodes [p] and [n] is linked in both directions; a ring is a
    segment between its own last and first nodes. *)
Fixpoint seg m (p : Z) (l : list Z) (n : Z) : Prop :=
  match l with
  | [] => True
  | a :: l' => m !! a = Some (mkNode (Some p) (Some (default n (head l')))) /\ seg m a l' n
  end.

Definition ring m (c : list Z) : Prop :=
  match c with [] => True | a :: l => seg m (default a (list.last l)) c a end.

Lemma seg_app m p l1 l2 n :
  seg m p (l1 ++ l2) n <-> seg m p l1 (default n (head l2)) /\ seg m (default p (list.last l1)) l2 n.
Proof.
  revert p. induction l1 as [|a l1 IH]; intros p; [naive_solver|]. cbn [app seg]. rewrite IH.
  assert (H1 : default n (head (l1 ++ l2)) = default (default n (head l2)) (head l1)) by by destruct l1.
  assert (H2 : default a (list.last l1) = default p (list.last (a :: l1))).
  { rewrite last_cons. by destruct (list.last l1). }
  rewrite H1, H2. naive_solver.
Qed.

Lemma seg_frame m m' p l n : (forall a, a ∈ l -> m' !! a = m !! a) -> seg m p l n -> seg m' p l n.
Proof.
  revert p. induction l as [|a l IH]; intros p Hf; [done|]. intros [Ha Hl]. split.
  - rewrite Hf by constructor. done.
  - apply IH; [|done]. intros b Hb. apply Hf. by constructor.
Qed.

Lemma ring_rotate m l1 l2 : ring m (l1 ++ l2) -> ring m (l2 ++ l1).
Proof.
  destruct l1 as [|a l1]; [by rewrite app_nil_r|]. destruct l2 as [|b l2]; [by rewrite app_nil_r|].
  unfold ring. cbn [app]. change (a :: l1 ++ b :: l2) with ((a :: l1) ++ b :: l2).
  change (b :: l2 ++ a :: l1) with ((b :: l2) ++ a :: l1). rewrite !seg_app, !last_app, !last_cons. cbn [head from_option].
  destruct (list.last l1), (list.last l2); cbn; naive_solver.
Qed.

(** The last node of a segment gets another successor, the first another predecessor. *)
Lemma seg_last m m' p l z n n' : seg m p (l ++ [z]) n -> (forall a, a ∈ l -> m' !! a = m !! a) ->
  m' !! z = Some (mkNode (Some (default p (list.last l))) (Some n')) -> seg m' p (l ++ [z]) n'.
Proof.
  rewrite !seg_app. intros [Hl _] Hf Hz. split; [by eapply seg_frame|]. by split.
Qed.

Lemma seg_first m m' p p' z l n : seg m p (z :: l) n -> (forall a, a ∈ l -> m' !! a = m !! a) ->
  m' !! z = Some (mkNode (Some p') (Some (default n (head l)))) -> seg m' p' (z :: l) n.
Proof. intros [_ Hl] Hf Hz. split; [done|]. by eapply seg_frame. Qed.

(** The link of a ring opened behind its first node. *)
Lemma ring_cons m e l : ring m (e :: l) <->
  m !! e = Some (mkNode (Some (default e (list.last l))) (Some (default e (head l)))) /\ seg m e l e.
Proof. done. Qed.

(** Runs the assignments of pointers, reading what was written last. *)
Ltac links :=
  repeat (cbn; first [rewrite lookup_insert_eq | rewrite lookup_insert_ne by congruence
                     | match goal with H : ?m !! ?a = Some _ |- context [?m !! ?a] => rewrite H end]); cbn.

Ltac nodup :=
  repeat match goal with
  | H : NoDup (_ :: _) |- _ => apply list.NoDup_cons in H as [? H]
  | H : NoDup (_ ++ _) |- _ => apply NoDup_app in H as (? & ? & ?)
  | H : _ ∉ _ :: _ |- _ => apply not_elem_of_cons in H as [? H]
  | H : _ ∉ _ ++ _ |- _ => apply not_elem_of_app in H as [? H]
  end.

Lemma ring_InsertBefore m this e l : ring m (e :: l) -> NoDup (this :: e :: l) -> is_Some (m !! this) ->
  exists m', InsertBefore m this e = Ok m' /\ ring m' (e :: l ++ [this]) /\
    (forall a, a ∉ this :: e :: l -> m' !! a = m !! a).
Proof.
  rewrite ring_cons. intros [He Hl] Hnd [tn Ht]. nodup.
  destruct l as [|z l _] using rev_ind.
  - eexists. split; [unfold InsertBefore, set_next, set_previous, at_node; links; done|].
    split; [cbn; links; done|]. intros a Ha. nodup. by links.
  - nodup. rewrite last_snoc in He. cbn in He. pose proof (proj1 (seg_app _ _ _ _ _) Hl) as [Hk [Hz _]]. cbn in Hz.
    eexists. split; [unfold InsertBefore, set_next, set_previous, at_node; links; done|].
    split.
    + apply ring_cons. rewrite last_snoc. split; [links; by destruct l|]. apply seg_app. rewrite last_snoc.
      split; [eapply seg_last; [exact Hl| |by links]|by split; links].
      intros a Ha. assert (a <> e /\ a <> z /\ a <> this) as (? & ? & ?) by set_solver. by links.
    + intros a Ha. nodup. by links.
Qed.

Lemma ring_InsertAfter m this e l : ring m (e :: l) -> NoDup (this :: e :: l) -> is_Some (m !! this) ->
  exists m', InsertAfter m this e = Ok m' /\ ring m' (e :: this :: l) /\
    (forall a, a ∉ this :: e :: l -> m' !! a = m !! a).
Proof.
  rewrite ring_cons. intros [He Hl] Hnd [tn Ht]. nodup.
  destruct l as [|z l].
  - eexists. split; [unfold InsertAfter, set_next, set_previous, at_node; links; done|].
    split; [cbn; links; done|]. intros a Ha. nodup. by links.
  - nodup. pose proof Hl as [Hz _].
    assert (Hlast : list.last (z :: l) <> None) by (rewrite last_cons; by destruct (list.last l)).
    eexists. split; [unfold InsertAfter, set_next, set_previous, at_node; links; done|].
    split.
    + apply ring_cons. split; [links; rewrite last_cons; by destruct (list.last (z :: l))|].
      split; [by links|]. eapply seg_first; [exact Hl| |by links].
      intros a Ha. assert (a <> e /\ a <> z /\ a <> this) as (? & ? & ?) by set_solver. by links.
    + intros a Ha. nodup. by links.
Qed.

(** A node with others in its ring leaves it. *)
Lemma ring_RemoveFromList m this l : ring m (this :: l) -> NoDup (this :: l) -> l <> [] ->
  exists m', RemoveFromList m this = Ok m' /\ ring m' l /\ m' !! this = Some (mkNode None None) /\
    (forall a, a ∉ this :: l -> m' !! a = m !! a).
Proof.
  rewrite ring_cons. intros [Ht Hl] Hnd Hne. nodup. destruct l as [|z l]; [done|]. clear Hne.
  destruct l as [|y l _] using rev_ind.
  - destruct Hl as [Hz _]. nodup. cbn in Ht, Hz.
    eexists. split; [unfold RemoveFromList, set_next, set_previous, at_node; links; done|].
    split; [cbn; links; done|]. split; [by links|]. intros a Ha. nodup. by links.
  - nodup. destruct Hl as [Hz Hl]. pose proof (proj1 (seg_app _ _ _ _ _) Hl) as [_ [Hy _]]. cbn in Hy.
    rewrite last_cons, last_snoc in Ht. cbn [from_option head] in Ht.
    eexists. split; [unfold RemoveFromList, set_next, set_previous, at_node; links; done|].
    split; [|split; [by links|intros a Ha; nodup; by links]].
    apply ring_cons. rewrite last_snoc. split; [links; by destruct l|]. eapply seg_last; [exact Hl| |by links].
    intros a Ha. assert (a <> this /\ a <> z /\ a <> y) as (? & ? & ?) by set_solver. by links.
Qed.

(** A moved node takes the place of the old one. *)
Lemma ring_LinkNode_move m this rhs l : ring m (rhs :: l) -> NoDup (this :: rhs :: l) -> l <> [] ->
  exists m', LinkNode_move m this rhs = Ok m' /\ ring m' (this :: l) /\ m' !! rhs = Some (mkNode None None) /\
    (forall a, a ∉ this :: rhs :: l -> m' !! a = m !! a).
Proof.
  rewrite ring_cons. intros [Hr Hl] Hnd Hne. nodup. destruct l as [|z l]; [done|]. clear Hne.
  destruct l as [|y l _] using rev_ind.
  - destruct Hl as [Hz _]. nodup. cbn in Hr, Hz.
    eexists. split; [unfold LinkNode_move, set_next, set_previous, at_node; links; done|].
    split; [cbn; links; done|]. split; [by links|]. intros a Ha. nodup. by links.
  - nodup. destruct Hl as [Hz Hl]. pose proof (proj1 (seg_app _ _ _ _ _) Hl) as [_ [Hy _]]. cbn in Hy.
    rewrite last_cons, last_snoc in Hr. cbn [from_option head] in Hr.
    eexists. split; [unfold LinkNode_move, set_next, set_previous, at_node; links; done|].
    split; [|split; [by links|intros a Ha; nodup; by links]].
    apply ring_cons. rewrite last_cons, last_snoc. split; [by links|].
    split; [links; by destruct l|]. eapply seg_last; [exact Hl| |by links].
    intros a Ha. assert (a <> this /\ a <> rhs /\ a <> z /\ a <> y) as (? & ? & ? & ?) by set_solver. by links.
Qed.

Lemma LinkNode_move_alone m this rhs : m !! rhs = Some (mkNode None None) -> this <> rhs ->
  LinkNode_move m this rhs = Ok (<[this := mkNode None None]> m).
Proof.
  intros Hr Hn. unfold LinkNode_move, set_next, set_previous, at_node. links. f_equal. f_equal.
  by rewrite insert_insert_eq, insert_id.
Qed.

(** *** The same, anywhere in a ring *)
Section Anywhere.
Context (m : memory) (c1 : list Z) (e : Z) (c2 : list Z) (Hr : ring m (c1 ++ e :: c2)).

Lemma ring_opened : ring m (e :: c2 ++ c1).
Proof. by apply (ring_rotate m c1 (e :: c2)). Qed.

Lemma before_at this : NoDup (this :: c1 ++ e :: c2) -> is_Some (m !! this) ->
  exists m', InsertBefore m this e = Ok m' /\ ring m' (c1 ++ this :: e :: c2) /\
    (forall a, a ∉ this :: c1 ++ e :: c2 -> m' !! a = m !! a).
Proof.
  intros Hnd Ht. destruct (ring_InsertBefore m this e (c2 ++ c1) ring_opened) as (m' & E & H & Hf); [|done|].
  { by rewrite app_comm_cons, (comm (++)). }
  exists m'. split_and!; [done| |intros a Ha; apply Hf; set_solver].
  rewrite <- (assoc_L (++)) in H. apply (ring_rotate m' (e :: c2) (c1 ++ [this])) in H.
  by rewrite <- (assoc_L (++)) in H.
Qed.

Lemma after_at this : NoDup (this :: c1 ++ e :: c2) -> is_Some (m !! this) ->
  exists m', InsertAfter m this e = Ok m' /\ ring m' (c1 ++ e :: this :: c2) /\
    (forall a, a ∉ this :: c1 ++ e :: c2 -> m' !! a = m !! a).
Proof.
  intros Hnd Ht. destruct (ring_InsertAfter m this e (c2 ++ c1) ring_opened) as (m' & E & H & Hf); [|done|].
  { by rewrite app_comm_cons, (comm (++)). }
  exists m'. split_and!; [done| |intros a Ha; apply Hf; set_solver].
  by apply (ring_rotate m' (e :: this :: c2) c1) in H.
Qed.

Lemma remove_at : NoDup (c1 ++ e :: c2) -> c1 ++ c2 <> [] ->
  exists m', RemoveFromList m e = Ok m' /\ ring m' (c1 ++ c2) /\ m' !! e = Some (mkNode None None) /\
    (forall a, a ∉ c1 ++ e :: c2 -> m' !! a = m !! a).
Proof.
  intros Hnd Hne. destruct (ring_RemoveFromList m e (c2 ++ c1) ring_opened) as (m' & E & H & He & Hf).
  { by rewrite app_comm_cons, (comm (++)). }
  { by destruct c1, c2. }
  exists m'. split_and!; [done| |done|intros a Ha; apply Hf; set_solver]. by apply ring_rotate.
Qed.

Lemma move_at this : NoDup (this :: c1 ++ e :: c2) -> c1 ++ c2 <> [] ->
  exists m', LinkNode_move m this e = Ok m' /\ ring m' (c1 ++ this :: c2) /\ m' !! e = Some (mkNode None None) /\
    (forall a, a ∉ this :: c1 ++ e :: c2 -> m' !! a = m !! a).
Proof.
  intros Hnd Hne. destruct (ring_LinkNode_move m this e (c2 ++ c1) ring_opened) as (m' & E & H & He & Hf).
  { by rewrite app_comm_cons, (comm (++)). }
  { by destruct c1, c2. }
  exists m'. split_and!; [done| |done|intros a Ha; apply Hf; set_solver].
  by apply (ring_rotate m' (this :: c2) c1) in H.
Qed.
End Anywhere.

(** *** Walking a ring from its root *)
Lemma walk_forward m root l : forall fuel p, seg m p l root -> root ∉ l -> (length l <= fuel)%nat ->
  walk next_ fuel m root (Some (default root (head l))) = Ok l.
Proof.
  induction l as [|a l IH]; intros fuel p Hl Hn Hf.
  - destruct fuel; cbn; by rewrite bool_decide_eq_true_2.
  - destruct fuel as [|fuel]; [cbn in Hf; lia|]. destruct Hl as [Ha Hl]. nodup. cbn.
    rewrite bool_decide_eq_false_2 by congruence. rewrite Ha. cbn.
    rewrite (IH fuel a Hl) by (done || (cbn in Hf; lia)). done.
Qed.

Lemma walk_backward m root l : forall fuel n, seg m root l n -> root ∉ l -> (length l <= fuel)%nat ->
  walk previous_ fuel m root (Some (default root (list.last l))) = Ok (reverse l).
Proof.
  induction l as [|a l IH] using rev_ind; intros fuel n Hl Hn Hf.
  - destruct fuel; cbn; by rewrite bool_decide_eq_true_2.
  - rewrite length_app in Hf. destruct fuel as [|fuel]; [cbn in Hf; lia|].
    apply seg_app in Hl as [Hl [Ha _]]. nodup. rewrite last_snoc. cbn.
    rewrite bool_decide_eq_false_2 by congruence. rewrite Ha. cbn.
    rewrite (IH fuel _ Hl) by (done || (cbn in Hf; lia)). cbn. by rewrite reverse_snoc.
Qed.

Lemma ring_dom m c a : ring m c -> a ∈ c -> exists p n, m !! a = Some (mkNode (Some p) (Some n)).
Proof.
  intros H Ha. apply list_elem_of_split in Ha as (c1 & c2 & ->). apply ring_opened, ring_cons in H as [H _]. eauto.
Qed.

(** ** The contract: disjoint lists of nodes, and loose nodes *)
Record world := mkWorld { lists : gmap Z (list Z); loose : gset Z }.
Implicit Types (w : world) (xs : list Z).

Definition in_list w (r : Z) xs : Prop := lists w !! r = Some xs.

Definition fresh w (a : Z) : Prop := (a ∉ loose w) /\ forall r xs, in_list w r xs -> a ∉ r :: xs.

Definition world_ok m w : Prop :=
  (forall r xs, in_list w r xs -> ring m (r :: xs) /\ NoDup (r :: xs)) /\
  (forall r xs r' xs' a, in_list w r xs -> in_list w r' xs' -> a ∈ r :: xs -> a ∈ r' :: xs' -> r = r') /\
  (forall a, a ∈ loose w -> m !! a = Some (mkNode None None)) /\
  (forall a r xs, a ∈ loose w -> in_list w r xs -> a ∉ r :: xs).

Inductive lop :=
| NewNode (this : Z)
| NewList (root : Z)
| Before (this e : Z)
| After (this e : Z)
| AppendTo (root e : Z)
| Remove (this : Z)
| MoveTo (this rhs : Z).

Definition lop_run (o : lop) m : res memory :=
  match o with
  | NewNode this => Ok (LinkNode_new m this)
  | NewList root => Ok (LinkedList_new m root)
  | Before this e => InsertBefore m this e
  | After this e => InsertAfter m this e
  | AppendTo root e => Append m root e
  | Remove this => RemoveFromList m this
  | MoveTo this rhs => LinkNode_move m this rhs
  end.

(** What a call does to the lists.  A new node or list has a fresh address; the node to be
    inserted is loose, its neighbour is in a list or is a root; a node in a list can be
    removed, and any node can be moved to a fresh address. *)
Inductive lop_spec : lop -> world -> world -> Prop :=
| spec_new_node w a : fresh w a -> lop_spec (NewNode a) w (mkWorld (lists w) ({[a]} ∪ loose w))
| spec_new_list w r : fresh w r -> lop_spec (NewList r) w (mkWorld (<[r := []]> (lists w)) (loose w))
| spec_before w r xs1 e xs2 a : in_list w r (xs1 ++ e :: xs2) -> a ∈ loose w ->
    lop_spec (Before a e) w (mkWorld (<[r := xs1 ++ a :: e :: xs2]> (lists w)) (loose w ∖ {[a]}))
| spec_before_root w r xs a : in_list w r xs -> a ∈ loose w ->
    lop_spec (Before a r) w (mkWorld (<[r := xs ++ [a]]> (lists w)) (loose w ∖ {[a]}))
| spec_after w r xs1 e xs2 a : in_list w r (xs1 ++ e :: xs2) -> a ∈ loose w ->
    lop_spec (After a e) w (mkWorld (<[r := xs1 ++ e :: a :: xs2]> (lists w)) (loose w ∖ {[a]}))
| spec_after_root w r xs a : in_list w r xs -> a ∈ loose w ->
    lop_spec (After a r) w (mkWorld (<[r := a :: xs]> (lists w)) (loose w ∖ {[a]}))
| spec_append w r xs a : in_list w r xs -> a ∈ loose w ->
    lop_spec (AppendTo r a) w (mkWorld (<[r := xs ++ [a]]> (lists w)) (loose w ∖ {[a]}))
| spec_remove w r xs1 a xs2 : in_list w r (xs1 ++ a :: xs2) ->
    lop_spec (Remove a) w (mkWorld (<[r := xs1 ++ xs2]> (lists w)) ({[a]} ∪ loose w))
| spec_move w r xs1 a xs2 b : in_list w r (xs1 ++ a :: xs2) -> fresh w b ->
    lop_spec (MoveTo b a) w (mkWorld (<[r := xs1 ++ b :: xs2]> (lists w)) ({[a]} ∪ loose w))
| spec_move_loose w a b : a ∈ loose w -> fresh w b ->
    lop_spec (MoveTo b a) w (mkWorld (lists w) ({[b]} ∪ loose w)).

Lemma ring_frame m m' c : (forall a, a ∈ c -> m' !! a = m !! a) -> ring m c -> ring m' c.
Proof. destruct c; [done|]. apply seg_frame. Qed.

(** One list and the loose nodes change, within their nodes and fresh ones. *)
Lemma world_change m m' w r xs xs' lo : world_ok m w -> in_list w r xs ->
  ring m' (r :: xs') -> NoDup (r :: xs') ->
  (forall a, a ∈ xs' -> a ∈ xs \/ a ∈ loose w \/ fresh w a) ->
  (forall a, a ∈ lo -> (a ∉ r :: xs') /\ m' !! a = Some (mkNode None None) /\ (a ∈ loose w \/ a ∈ xs \/ fresh w a)) ->
  (forall a, a ∉ r :: xs -> a ∉ loose w -> ~ fresh w a -> m' !! a = m !! a) ->
  world_ok m' (mkWorld (<[r := xs']> (lists w)) lo).
Proof.
  intros (H1 & H2 & H3 & H4) Hr Hring Hnd Hxs Hlo Hf.
  assert (Hother : forall r' xs0 a, r <> r' -> in_list w r' xs0 -> a ∈ r' :: xs0 ->
    (a ∉ r :: xs) /\ (a ∉ loose w) /\ ~ fresh w a).
  { intros r' xs0 a Hne Hr' Ha. split_and!.
    - intros Ha'. by apply Hne, (H2 r xs r' xs0 a).
    - intros Ha'. by eapply H4.
    - intros [_ Hfr]. by eapply Hfr. }
  split_and!; unfold in_list; cbn [lists loose].
  - intros r' xs0. destruct (decide (r = r')) as [<-|Hne]; [rewrite lookup_insert_eq; by intros [= <-]|].
    rewrite lookup_insert_ne by done. intros Hr'. destruct (H1 _ _ Hr') as [Hg Hn]. split; [|done].
    eapply ring_frame; [|done]. intros a Ha. destruct (Hother _ _ _ Hne Hr' Ha) as (? & ? & ?). by apply Hf.
  - assert (Hx : forall r' xs0 a, r <> r' -> in_list w r' xs0 -> a ∈ r' :: xs0 -> a ∉ r :: xs').
    { intros r' xs0 a Hne Hr' Ha Ha'. destruct (Hother _ _ _ Hne Hr' Ha) as (Hi & ? & ?).
      apply elem_of_cons in Ha' as [->|Ha']; [apply Hi; by constructor|].
      destruct (Hxs _ Ha') as [?|[?|?]]; [apply Hi; by constructor|done|done]. }
    intros r1 xs1 r2 xs2 a. destruct (decide (r = r1)) as [<-|Hn1], (decide (r = r2)) as [<-|Hn2];
      rewrite ?lookup_insert_eq, ?lookup_insert_ne by done; [done|intros [= <-]|intros ? [= <-]|by apply H2].
    + intros Hr2 Ha Ha2. by destruct (Hx r2 xs2 a Hn2 Hr2 Ha2).
    + intros Ha1 Ha. by destruct (Hx r1 xs1 a Hn1 H Ha1).
  - intros a Ha. by apply Hlo.
  - intros a r' xs0 Ha. destruct (decide (r = r')) as [<-|Hne].
    + rewrite lookup_insert_eq. intros [= <-]. by apply Hlo.
    + rewrite lookup_insert_ne by done. intros Hr' Hin. destruct (Hother _ _ _ Hne Hr' Hin) as (Hi & ? & ?).
      destruct (Hlo _ Ha) as (_ & _ & [?|[?|?]]); [done|apply Hi; by constructor|done].
Qed.

Lemma world_inserted m m' w r xs xs' a : world_ok m w -> in_list w r xs -> a ∈ loose w ->
  ring m' (r :: xs') -> xs' ≡ₚ a :: xs -> (forall b, b ∉ a :: r :: xs -> m' !! b = m !! b) ->
  world_ok m' (mkWorld (<[r := xs']> (lists w)) (loose w ∖ {[a]})).
Proof.
  intros Hw Hr Ha Hring Hp Hf. pose proof Hw as (H1 & _ & H3 & H4). destruct (H1 _ _ Hr) as [_ Hnd].
  pose proof (H4 _ _ _ Ha Hr) as Hna. eapply world_change; [done|done|done| | | |].
  - rewrite Hp, Permutation_swap. by constructor.
  - intros b Hb. rewrite Hp in Hb. apply elem_of_cons in Hb as [->|Hb]; auto.
  - intros b [Hb Hn]%elem_of_difference. pose proof (H4 _ _ _ Hb Hr) as Hnb. apply not_elem_of_singleton in Hn.
    assert (Hnb' : b ∉ a :: r :: xs) by (by apply not_elem_of_cons). split_and!; [|rewrite Hf by done; auto|auto].
    rewrite Hp, Permutation_swap. done.
  - intros b Hb Hl _. apply Hf. apply not_elem_of_cons. split; [by intros ->|done].
Qed.

Lemma world_removed m m' w r xs xs' a : world_ok m w -> in_list w r xs -> xs ≡ₚ a :: xs' ->
  ring m' (r :: xs') -> m' !! a = Some (mkNode None None) -> (forall b, b ∉ r :: xs -> m' !! b = m !! b) ->
  world_ok m' (mkWorld (<[r := xs']> (lists w)) ({[a]} ∪ loose w)).
Proof.
  intros Hw Hr Hp Hring Ha Hf. pose proof Hw as (H1 & _ & H3 & H4). destruct (H1 _ _ Hr) as [_ Hnd].
  rewrite Hp, Permutation_swap in Hnd. apply list.NoDup_cons in Hnd as [Hna Hnd].
  eapply world_change; [done|done|done|done| | |].
  - intros b Hb. left. rewrite Hp. by constructor.
  - intros b [->%elem_of_singleton|Hb]%elem_of_union.
    + split_and!; [done|done|]. right. left. rewrite Hp. by constructor.
    + pose proof (H4 _ _ _ Hb Hr) as Hnb. split_and!; [|rewrite Hf by done; auto|auto].
      rewrite Hp, Permutation_swap in Hnb. by apply not_elem_of_cons in Hnb as [_ ?].
  - intros b Hb _ _. by apply Hf.
Qed.

Lemma world_moved m m' w r xs1 a xs2 b : world_ok m w -> in_list w r (xs1 ++ a :: xs2) -> fresh w b ->
  ring m' (r :: xs1 ++ b :: xs2) -> m' !! a = Some (mkNode None None) ->
  (forall c, c ∉ b :: r :: xs1 ++ a :: xs2 -> m' !! c = m !! c) ->
  world_ok m' (mkWorld (<[r := xs1 ++ b :: xs2]> (lists w)) ({[a]} ∪ loose w)).
Proof.
  intros Hw Hr Hb Hring Ha Hf. pose proof Hw as (H1 & _ & H3 & H4). destruct (H1 _ _ Hr) as [_ Hnd].
  pose proof (proj2 Hb _ _ Hr) as Hnb. assert (Hp : forall c, r :: xs1 ++ c :: xs2 ≡ₚ c :: r :: xs1 ++ xs2).
  { intros c. by rewrite <- Permutation_middle, Permutation_swap. }
  rewrite (Hp a) in Hnd, Hnb. apply list.NoDup_cons in Hnd as [Hna Hnd]. apply not_elem_of_cons in Hnb as [Hba Hnb].
  assert (Hfr : ~ fresh w a) by (intros [_ Hfr]; apply (Hfr _ _ Hr); set_solver).
  eapply world_change; [done|done|done| | | |].
  - rewrite Hp. by constructor.
  - intros c Hc. assert (c = b \/ c ∈ xs1 ++ a :: xs2) as [->|?] by set_solver; auto.
  - intros c [->%elem_of_singleton|Hc]%elem_of_union.
    + split_and!; [|done|right; left; set_solver]. rewrite Hp. by apply not_elem_of_cons.
    + pose proof (H4 _ _ _ Hc Hr) as Hnc. rewrite (Hp a) in Hnc. apply not_elem_of_cons in Hnc as [Hca Hnc].
      assert (Hcb : c <> b) by (intros ->; by apply Hb).
      split_and!; [rewrite Hp; by apply not_elem_of_cons| |auto]. rewrite Hf, H3; [done|done|].
      apply not_elem_of_cons. split; [done|]. rewrite Hp. by apply not_elem_of_cons.
  - intros c Hc _ Hn. apply Hf. apply not_elem_of_cons. split; [by intros ->|done].
Qed.

Lemma loose_node m w a : world_ok m w -> a ∈ loose w -> is_Some (m !! a).
Proof. intros (_ & _ & H & _) Ha. rewrite H by done. eauto. Qed.

Lemma loose_NoDup m w r xs a : world_ok m w -> in_list w r xs -> a ∈ loose w -> NoDup (a :: r :: xs).
Proof. intros (H1 & _ & _ & H4) Hr Ha. constructor; [by eapply H4|]. by eapply H1. Qed.

Lemma root_before m w r xs a : world_ok m w -> in_list w r xs -> a ∈ loose w ->
  exists m', InsertBefore m a r = Ok m' /\ world_ok m' (mkWorld (<[r := xs ++ [a]]> (lists w)) (loose w ∖ {[a]})).
Proof.
  intros Hw Hr Ha. pose proof (proj1 (proj1 Hw _ _ Hr)) as Hring.
  destruct (before_at m [] r xs Hring a) as (m' & E & H & Hf); [by eapply loose_NoDup|by eapply loose_node|].
  exists m'. split; [done|]. eapply world_inserted; [done|done|done| | |done].
  - by apply (ring_rotate m' [a] (r :: xs)).
  - by rewrite <- Permutation_cons_append.
Qed.

(** Fresh nodes and lists change nothing else. *)
Lemma world_fresh m w b n : world_ok m w -> fresh w b -> forall c, c ∈ loose w \/ (exists r xs, in_list w r xs /\ c ∈ r :: xs) ->
  (<[b := n]> m : memory) !! c = m !! c.
Proof.
  intros Hw [H1 H2] c Hc. apply lookup_insert_ne. intros ->.
  destruct Hc as [?|(r & xs & Hr & ?)]; [done|]. by eapply H2.
Qed.

Lemma world_new_node m w b : world_ok m w -> fresh w b ->
  world_ok (<[b := mkNode None None]> m) (mkWorld (lists w) ({[b]} ∪ loose w)).
Proof.
  intros Hw Hb. pose proof (world_fresh m w b (mkNode None None) Hw Hb) as Hf.
  destruct Hw as (H1 & H2 & H3 & H4). split_and!; unfold in_list; cbn [lists loose].
  - intros r xs Hr. destruct (H1 _ _ Hr) as [Hg Hn]. split; [|done]. eapply ring_frame; [|done].
    intros a Ha. apply Hf. eauto.
  - exact H2.
  - intros a [->%elem_of_singleton|Ha]%elem_of_union; [by rewrite lookup_insert_eq|]. rewrite Hf by auto. auto.
  - intros a r xs [->%elem_of_singleton|Ha]%elem_of_union Hr; [|by eapply H4]. by apply Hb.
Qed.

Lemma world_new_list m w r : world_ok m w -> fresh w r ->
  world_ok (LinkedList_new m r) (mkWorld (<[r := []]> (lists w)) (loose w)).
Proof.
  intros Hw Hb. pose proof (world_fresh m w r (mkNode (Some r) (Some r)) Hw Hb) as Hf. unfold LinkedList_new.
  destruct Hw as (H1 & H2 & H3 & H4), Hb as [Hb1 Hb2]. split_and!; unfold in_list; cbn [lists loose].
  - intros r' xs. destruct (decide (r = r')) as [<-|Hne].
    + rewrite lookup_insert_eq. intros [= <-]. split; [|repeat constructor; set_solver]. cbn. by rewrite lookup_insert_eq.
    + rewrite lookup_insert_ne by done. intros Hr. destruct (H1 _ _ Hr) as [Hg Hn]. split; [|done].
      eapply ring_frame; [|done]. intros a Ha. apply Hf. eauto.
  - assert (Hx : forall r' xs0 a, in_list w r' xs0 -> a ∈ r' :: xs0 -> a ∉ [r]).
    { intros r' xs0 a Hr' Ha ->%list_elem_of_singleton. by apply (Hb2 _ _ Hr'). }
    intros r1 xs1 r2 xs2 a. destruct (decide (r = r1)) as [<-|Hn1], (decide (r = r2)) as [<-|Hn2];
      rewrite ?lookup_insert_eq, ?lookup_insert_ne by done; [done|intros [= <-]|intros ? [= <-]|by apply H2].
    + intros Hr2 Ha Ha2. by destruct (Hx r2 xs2 a Hr2 Ha2).
    + intros Ha1 Ha. by destruct (Hx r1 xs1 a H Ha1).
  - intros a Ha. rewrite Hf by auto. auto.
  - intros a r' xs Ha. destruct (decide (r = r')) as [<-|Hne].
    + rewrite lookup_insert_eq. intros [= <-] ->%list_elem_of_singleton. done.
    + rewrite lookup_insert_ne by done. by apply H4.
Qed.

Lemma lop_step o w w' m : lop_spec o w w' -> world_ok m w -> exists m', lop_run o m = Ok m' /\ world_ok m' w'.
Proof.
  intros Hs Hw. destruct Hs as [w a Ha|w r Hr|w r xs1 e xs2 a Hr Ha|w r xs a Hr Ha|w r xs1 e xs2 a Hr Ha|w r xs a Hr Ha
    |w r xs a Hr Ha|w r xs1 a xs2 Hr|w r xs1 a xs2 b Hr Hb|w a b Ha Hb]; cbn [lop_run].
  - eexists. split; [done|]. by apply world_new_node.
  - eexists. split; [done|]. by apply world_new_list.
  - destruct (before_at m (r :: xs1) e xs2 (proj1 (proj1 Hw _ _ Hr)) a) as (m' & E & H & Hf);
      [by eapply loose_NoDup|by eapply loose_node|]. exists m'. split; [done|].
    eapply world_inserted; [done..|by rewrite <- Permutation_middle|done].
  - by apply root_before.
  - destruct (after_at m (r :: xs1) e xs2 (proj1 (proj1 Hw _ _ Hr)) a) as (m' & E & H & Hf);
      [by eapply loose_NoDup|by eapply loose_node|]. exists m'. split; [done|].
    eapply world_inserted; [done..| |done]. rewrite <- !Permutation_middle. apply Permutation_swap.
  - destruct (after_at m [] r xs (proj1 (proj1 Hw _ _ Hr)) a) as (m' & E & H & Hf);
      [by eapply loose_NoDup|by eapply loose_node|]. exists m'. split; [done|]. by eapply world_inserted.
  - by apply root_before.
  - destruct (remove_at m (r :: xs1) a xs2 (proj1 (proj1 Hw _ _ Hr))) as (m' & E & H & Ha & Hf);
      [apply (proj1 Hw _ _ Hr)|done|]. exists m'. split; [done|].
    eapply world_removed; [done|done|by rewrite <- Permutation_middle|done..].
  - destruct (move_at m (r :: xs1) a xs2 (proj1 (proj1 Hw _ _ Hr)) b) as (m' & E & H & Ha & Hf);
      [constructor; [by apply Hb|apply (proj1 Hw _ _ Hr)]|done|]. exists m'. split; [done|].
    by eapply world_moved.
  - rewrite LinkNode_move_alone; [|by apply Hw|intros ->; by apply Hb]. eexists. split; [done|]. by apply world_new_node.
Qed.

(** *** Sequences of calls *)
Fixpoint lops_run (os : list lop) m : res memory :=
  match os with [] => Ok m | o :: os => m ← lop_run o m; lops_run os m end.

Inductive lops_spec : list lop -> world -> world -> Prop :=
| lops_nil w : lops_spec [] w w
| lops_cons o os w w1 w2 : lop_spec o w w1 -> lops_spec os w1 w2 -> lops_spec (o :: os) w w2.

Lemma lops_step os w w' : lops_spec os w w' -> forall m, world_ok m w -> exists m', lops_run os m = Ok m' /\ world_ok m' w'.
Proof.
  induction 1 as [w|o os w w1 w2 Ho _ IH]; intros m Hw; [by exists m|].
  destruct (lop_step o w w1 m Ho Hw) as (m1 & E1 & Hw1). destruct (IH m1 Hw1) as (m2 & E2 & Hw2).
  exists m2. split; [|done]. cbn. rewrite E1. done.
Qed.

Definition forward m root (fuel : nat) : res (list Z) := h ← list_head m root; walk next_ fuel m root h.
Definition backward m root (fuel : nat) : res (list Z) := t ← list_tail m root; walk previous_ fuel m root t.

Lemma ring_walks m r xs fuel : ring m (r :: xs) -> r ∉ xs -> (length xs <= fuel)%nat ->
  forward m r fuel = Ok xs /\ backward m r fuel = Ok (reverse xs) /\ list_empty m r = Ok (bool_decide (xs = [])).
Proof.
  rewrite ring_cons. intros [Hr Hl] Hn Hf.
  unfold forward, backward, list_empty, list_head, list_tail, at_node. rewrite Hr. cbn [mbind res_bind next_ previous_].
  split_and!; [by eapply walk_forward|by eapply walk_backward|]. f_equal. apply bool_decide_ext.
  destruct xs as [|x xs]; cbn; [done|]. split; [intros [= ->]; set_solver|done].
Qed.

(** C26: the linked lists of the program are lists.  Whatever new nodes and lists, insertions before and after a node or at the end, removals and moves of nodes a client makes, in any order over any number of lists, no null or dangling pointer is followed; walking a list from its head along the next pointers, or from its tail along the previous ones, meets exactly its nodes, in order, and ends at the root; [empty] tells whether there are any; and a node has null pointers exactly when it is in no list. *)
Theorem linked_lists_refine os w : lops_spec os (mkWorld ∅ ∅) w ->
  exists m, lops_run os ∅ = Ok m /\
    (forall r xs fuel, in_list w r xs -> (length xs <= fuel)%nat ->
       forward m r fuel = Ok xs /\ backward m r fuel = Ok (reverse xs) /\ list_empty m r = Ok (bool_decide (xs = []))) /\
    (forall a, a ∈ loose w -> m !! a = Some (mkNode None None)) /\
    (forall r xs a, in_list w r xs -> a ∈ xs -> exists p n, m !! a = Some (mkNode (Some p) (Some n))).
Proof.
  intros Hs. destruct (lops_step os _ w Hs ∅) as (m & E & Hw); [by split_and!|]. exists m.
  pose proof Hw as (H1 & _ & H3 & _). split_and!; [done| |done|].
  - intros r xs fuel Hr Hf. destruct (H1 _ _ Hr) as [Hg Hn]. apply list.NoDup_cons in Hn as [Hn _]. by apply ring_walks.
  - intros r xs a Hr Ha. eapply ring_dom; [by apply H1|]. by constructor.
Qed.

(** A node inserted before itself, as in the example of the header's comment, becomes its
    own neighbour: a walk that comes to it never ends. *)
Lemma self_insert_loops m root a l : ring m (a :: l) -> NoDup (a :: l) -> root ∈ l ->
  exists m', InsertBefore m a a = Ok m' /\ m' !! a = Some (mkNode (Some a) (Some a)) /\
    forall fuel, walk next_ fuel m' root (Some a) = Undef.
Proof.
  rewrite ring_cons. intros [Ha Hl] Hnd Hr. nodup. destruct l as [|z l _] using rev_ind; [by apply elem_of_nil in Hr|].
  rewrite last_snoc in Ha. cbn in Ha. apply seg_app in Hl as [_ [Hz _]]. nodup.
  assert (Hne : a <> root) by set_solver.
  eexists. split; [unfold InsertBefore, set_next, set_previous, at_node; links; done|].
  split; [by links|]. induction fuel as [|fuel IH]; cbn [walk]; rewrite bool_decide_eq_false_2 by congruence; [done|].
  unfold at_node. rewrite lookup_insert_eq. cbn [mbind res_bind next_]. by rewrite lookup_insert_eq || rewrite IH.
Qed.

Definition demo_ops : list lop :=
  [NewList 1; NewNode 10; NewNode 11; NewNode 12; AppendTo 1 10; AppendTo 1 11; Before 12 11; Remove 10; MoveTo 20 12].

Lemma fresh_intro w a : a ∉ loose w -> map_Forall (fun r xs => a ∉ r :: xs) (lists w) -> fresh w a.
Proof. intros H1 H2. split; [done|]. exact H2. Qed.

Ltac decided := apply (bool_decide_eq_true_1 _); vm_compute; reflexivity.

Lemma linked_lists_refine_witness : exists m, lops_run demo_ops ∅ = Ok m /\
  forward m 1 2 = Ok [20; 11] /\ backward m 1 2 = Ok [11; 20] /\ m !! 10 = Some (mkNode None None).
Proof.
  assert (Hs : exists w, lops_spec demo_ops (mkWorld ∅ ∅) w /\ in_list w 1 [20; 11] /\ 10 ∈ loose w).
  { eexists. split.
    { eapply lops_cons; [apply spec_new_list, fresh_intro; decided|].
      do 3 (eapply lops_cons; [apply spec_new_node, fresh_intro; decided|]).
      eapply lops_cons; [apply (spec_append _ 1 []); [reflexivity|decided]|].
      eapply lops_cons; [apply (spec_append _ 1 [10]); [reflexivity|decided]|].
      eapply lops_cons; [apply (spec_before _ 1 [10] 11 []); [reflexivity|decided]|].
      eapply lops_cons; [apply (spec_remove _ 1 [] 10 [12; 11]); reflexivity|].
      eapply lops_cons; [apply (spec_move _ 1 [] 12 [11] 20); [reflexivity|apply fresh_intro; decided]|].
      apply lops_nil. }
    split; [reflexivity|decided]. }
  destruct Hs as (w & Hs & Hl & Ho). destruct (linked_lists_refine demo_ops w Hs) as (m & E & H1 & H2 & _).
  exists m. split; [exact E|]. destruct (H1 1 [20; 11] 2%nat Hl ltac:(cbn; lia)) as (F & B & _).
  split; [exact F|]. split; [exact B|]. exact (H2 10 Ho).
Defined.
