(* ===== verification/Percentile.v ===== *)
(** * Percentile and median filters

    [PercentileFilter<T>] of [rtc_base/numerics/percentile_filter.h] and
    [MovingMedianFilter<T>] of [rtc_base/numerics/moving_median_filter.h] of
    [include/webrtc], for an integral [T].  The multiset is the list of its nodes in order,
    each with an identity: an iterator is a node's identity, or the end, and stays with
    its node while others come and go.  The percentile is a 32-bit float in [0, 1], kept
    in units of the smallest one, [2^-149]; the product with the size is rounded as the
    language prescribes. *)

From S2P Require Import Prelude.
From stdpp Require Import list sorting.
Local Open Scope Z_scope.

(** ** Rounding to a float

    A non-negative number, in units of [2^-149], to the nearest one with 24 significant
    bits, ties to even. *)
Definition round_float (m : Z) : Z :=
  if m <? 2 ^ 24 then m
  else let s := Z.log2 m - 23 in
       let q := m / 2 ^ s in
       let r := m mod 2 ^ s in
       (if (2 ^ (s - 1) <? r) || ((r =? 2 ^ (s - 1)) && Z.odd q) then q + 1 else q) * 2 ^ s.

(** [static_cast<int64_t>(percentile_ * (set_.size() - 1))]. *)
Definition target_index (percentile : Z) (size : nat) : Z :=
  round_float (percentile * round_float (Z.of_nat size - 1)) / 2 ^ 149.

(** ** The multiset *)
Abbreviation nodes := (list (nat * Z)).
Implicit Types (s : nodes) (it : option nat).

(** [insert]: behind every element that is not greater. *)
Fixpoint ms_insert (id : nat) (v : Z) s : nodes :=
  match s with
  | [] => [(id, v)]
  | x :: s' => if v <? x.2 then (id, v) :: s else x :: ms_insert id v s'
  end.

(** [lower_bound]: the first node that is not less. *)
Fixpoint ms_lower_bound (v : Z) s : option (nat * Z) :=
  match s with
  | [] => None
  | x :: s' => if x.2 <? v then ms_lower_bound v s' else Some x
  end.

Definition ms_begin s : option nat := fst <$> head s.

(** [erase(it)]: the rest, and the iterator that follows. *)
Fixpoint ms_erase (id : nat) s : nodes * option nat :=
  match s with
  | [] => ([], None)
  | x :: s' => if bool_decide (x.1 = id) then (s', ms_begin s')
               else let '(r, next) := ms_erase id s' in (x :: r, next)
  end.

Definition ms_deref s it : res Z :=
  match it with
  | Some id => match list_find (fun x : nat * Z => x.1 = id) s with Some (_, x) => Ok x.2 | None => Undef end
  | None => Undef
  end.

Definition ms_position s it : res nat :=
  match it with
  | Some id => match list_find (fun x : nat * Z => x.1 = id) s with Some (i, _) => Ok i | None => Undef end
  | None => Ok (length s)
  end.

(** [std::advance]: undefined past either end. *)
Definition ms_advance s it (d : Z) : res (option nat) :=
  i ← ms_position s it;
  let j := Z.of_nat i + d in
  _ ← defined ((0 <=? j) && (j <=? Z.of_nat (length s)));
  Ok (fst <$> s !! Z.to_nat j).

(** ** [PercentileFilter] *)
Record PercentileFilter := mkFilter {
  percentile_ : Z;
  set_ : nodes;
  percentile_it_ : option nat;
  percentile_index_ : Z;
  next_node : nat           (* the identity of the next node allocated *)
}.
Implicit Types (f : PercentileFilter).

Definition PercentileFilter_new (percentile : Z) : res PercentileFilter :=
  _ ← assert_ (0 <=? percentile);
  _ ← assert_ (percentile <=? 2 ^ 149);
  Ok (mkFilter percentile [] None 0 0).

Definition UpdatePercentileIterator f : res PercentileFilter :=
  if bool_decide (set_ f = []) then Ok f
  else
    let index := target_index (percentile_ f) (length (set_ f)) in
    it ← ms_advance (set_ f) (percentile_it_ f) (index - percentile_index_ f);
    Ok (mkFilter (percentile_ f) (set_ f) it index (next_node f)).

Definition Insert (value : Z) f : res PercentileFilter :=
  let s := ms_insert (next_node f) value (set_ f) in
  f ← (if bool_decide (length s = 1%nat) then
         Ok (mkFilter (percentile_ f) s (ms_begin s) 0 (S (next_node f)))
       else
         x ← ms_deref s (percentile_it_ f);
         Ok (mkFilter (percentile_ f) s (percentile_it_ f)
               (if value <? x then percentile_index_ f + 1 else percentile_index_ f) (S (next_node f))));
  UpdatePercentileIterator f.

Definition Erase (value : Z) f : res (bool * PercentileFilter) :=
  match ms_lower_bound value (set_ f) with
  | None => Ok (false, f)
  | Some (id, x) =>
    if negb (x =? value) then Ok (false, f)
    else
      let '(s, next) := ms_erase id (set_ f) in
      f ← (if bool_decide (percentile_it_ f = Some id) then
             Ok (mkFilter (percentile_ f) s next (percentile_index_ f) (next_node f))
           else
             y ← ms_deref s (percentile_it_ f);
             Ok (mkFilter (percentile_ f) s (percentile_it_ f)
                   (if value <=? y then percentile_index_ f - 1 else percentile_index_ f) (next_node f)));
      f ← UpdatePercentileIterator f;
      Ok (true, f)
  end.

Definition GetPercentileValue f : res Z :=
  if bool_decide (set_ f = []) then Ok 0 else ms_deref (set_ f) (percentile_it_ f).

Definition Reset f : PercentileFilter := mkFilter (percentile_ f) [] None 0 (next_node f).

(** ** [MovingMedianFilter] *)
Record MovingMedianFilter := mkMedian {
  percentile_filter_ : PercentileFilter;
  samples_ : list Z;
  samples_stored_ : Z;
  window_size_ : Z
}.

(** The percentile is [0.5f]. *)
Definition MovingMedianFilter_new (window_size : Z) : res MovingMedianFilter :=
  f ← PercentileFilter_new (2 ^ 148);
  _ ← assert_ (0 <? window_size);
  Ok (mkMedian f [] 0 window_size).

Definition Median_Insert (value : Z) (mf : MovingMedianFilter) : res MovingMedianFilter :=
  f ← Insert value (percentile_filter_ mf);
  let samples := samples_ mf ++ [value] in
  let stored := u64 (samples_stored_ mf + 1) in
  if window_size_ mf <? stored then
    match samples with
    | [] => Undef
    | front :: rest =>
      r ← Erase front f;
      Ok (mkMedian r.2 rest (u64 (stored - 1)) (window_size_ mf))
    end
  else Ok (mkMedian f samples stored (window_size_ mf)).

Definition GetFilteredValue (mf : MovingMedianFilter) : res Z := GetPercentileValue (percentile_filter_ mf).

Definition Median_Reset (mf : MovingMedianFilter) : MovingMedianFilter :=
  mkMedian (Reset (percentile_filter_ mf)) [] 0 (window_size_ mf).

(** ** Lemmas on rounding *)
Lemma round_float_exact m : 0 <= m -> (2 ^ 24 <= m -> (2 ^ (Z.log2 m - 23) | m)) -> round_float m = m.
Proof.
  intros Hm Hd. unfold round_float. destruct (m <? 2 ^ 24) eqn:E; [done|]. apply Z.ltb_ge in E.
  assert (Hs : 0 < 2 ^ (Z.log2 m - 23 - 1)).
  { apply Z.pow_pos_nonneg; [lia|]. pose proof (Z.log2_le_mono _ _ E) as H. rewrite Z.log2_pow2 in H by lia. lia. }
  specialize (Hd E). apply Z.mod_divide in Hd as Hr; [|intros H0; rewrite H0 in Hd; destruct Hd; lia].
  rewrite Hr. replace (2 ^ (Z.log2 m - 23 - 1) <? 0) with false by (symmetry; apply Z.ltb_ge; lia).
  replace (0 =? 2 ^ (Z.log2 m - 23 - 1)) with false by (symmetry; apply Z.eqb_neq; lia). cbn [orb andb].
  rewrite Z.mul_comm. symmetry. apply Z.div_exact; [|done]. intros H0. rewrite H0 in Hd. destruct Hd. lia.
Qed.

Lemma round_float_small k : 0 <= k <= 2 ^ 24 -> round_float k = k.
Proof.
  intros [H0 H1]. apply round_float_exact; [done|]. intros H2. assert (k = 2 ^ 24) as -> by lia.
  rewrite Z.log2_pow2 by lia. by exists (2 ^ 23).
Qed.

(** A number representable with few bits bounds the rounding of what is below it. *)
Lemma round_float_le m k : 0 <= k <= 2 ^ 24 -> 0 <= m <= 2 ^ 149 * k -> 0 <= round_float m <= 2 ^ 149 * k.
Proof.
  intros Hk Hm. unfold round_float. destruct (m <? 2 ^ 24) eqn:E; [lia|]. apply Z.ltb_ge in E.
  set (s := Z.log2 m - 23).
  assert (Hlog : 24 <= Z.log2 m) by (pose proof (Z.log2_le_mono _ _ E) as H; by rewrite Z.log2_pow2 in H by lia).
  assert (Hs : 0 < 2 ^ s) by (apply Z.pow_pos_nonneg; lia).
  assert (Hs1 : 0 < 2 ^ (s - 1)) by (apply Z.pow_pos_nonneg; lia).
  pose proof (Z.div_mod m (2 ^ s) ltac:(lia)) as Hdm. pose proof (Z.mod_pos_bound m (2 ^ s) Hs) as Hr.
  pose proof (Z.div_pos m (2 ^ s) ltac:(lia) Hs) as Hq.
  set (q := m / 2 ^ s) in *. set (r := m mod 2 ^ s) in *.
  destruct ((2 ^ (s - 1) <? r) || ((r =? 2 ^ (s - 1)) && Z.odd q)) eqn:Eu; [|split; nia].
  assert (Hr0 : 0 < r).
  { apply orb_true_iff in Eu as [Eu|Eu]; [apply Z.ltb_lt in Eu; lia|].
    apply andb_true_iff in Eu as [Eu _]. apply Z.eqb_eq in Eu. lia. }
  split; [nia|].
  assert (Hlt : m < 2 ^ 173).
  { assert (2 ^ 149 * k <= 2 ^ 149 * 2 ^ 24) by (apply Z.mul_le_mono_nonneg_l; lia).
    change (2 ^ 149 * 2 ^ 24) with (2 ^ 173) in *.
    destruct (decide (m = 2 ^ 173)) as [Em|]; [|lia]. exfalso.
    unfold r, s in Hr0. rewrite Em, Z.log2_pow2 in Hr0 by lia. vm_compute in Hr0. discriminate. }
  assert (Hle : s <= 149) by (pose proof (Z.log2_lt_pow2 m 173 ltac:(lia)); lia).
  replace (2 ^ 149 * k) with (2 ^ (149 - s) * k * 2 ^ s) in Hm |- *.
  2: { replace (2 ^ 149) with (2 ^ (149 - s) * 2 ^ s) by (rewrite <- Z.pow_add_r by lia; f_equal; lia). lia. }
  apply Z.mul_le_mono_nonneg_r; [lia|]. nia.
Qed.

Lemma target_index_range percentile n : 0 <= percentile <= 2 ^ 149 -> (1 <= n)%nat -> Z.of_nat n <= 2 ^ 24 + 1 ->
  0 <= target_index percentile n < Z.of_nat n.
Proof.
  intros Hp Hn Hm. unfold target_index. rewrite (round_float_small (Z.of_nat n - 1)) by lia. remember (Z.of_nat n - 1) as k eqn:Ek.
  assert (Hk : 0 <= k <= 2 ^ 24) by lia.
  destruct (round_float_le (percentile * k) k) as [H1 H2]; [done|split; [nia|apply Z.mul_le_mono_nonneg_r; lia]|]. split.
  - apply Z.div_pos; lia.
  - enough (round_float (percentile * k) / 2 ^ 149 <= k) by lia. apply Z.div_le_upper_bound; lia.
Qed.

(** The median's index is half of the last one. *)
Lemma target_index_median n : (1 <= n)%nat -> Z.of_nat n <= 2 ^ 24 + 1 ->
  target_index (2 ^ 148) n = (Z.of_nat n - 1) / 2.
Proof.
  intros Hn Hm. unfold target_index. rewrite (round_float_small (Z.of_nat n - 1)) by lia. remember (Z.of_nat n - 1) as k eqn:Ek.
  rewrite round_float_exact; [|lia|].
  - change (2 ^ 149) with (2 ^ 148 * 2). rewrite Z.div_mul_cancel_l by lia. done.
  - intros H. assert (Hk : 0 < k) by lia. rewrite Z.mul_comm, Z.log2_mul_pow2 by lia.
    destruct (decide (k = 2 ^ 24)) as [->|].
    { rewrite Z.log2_pow2 by lia. by exists (2 ^ 23). }
    assert (Z.log2 k < 24) by (apply Z.log2_lt_pow2; lia). pose proof (Z.log2_nonneg k).
    exists (k * 2 ^ (23 - Z.log2 k)). rewrite <- Z.mul_assoc, <- Z.pow_add_r by lia. do 2 f_equal. lia.
Qed.

(** Beyond [2^24] samples the size itself is rounded, and the index can lie past the end. *)
Lemma target_index_overshoots : target_index (2 ^ 149) (Z.to_nat (2 ^ 24 + 4)) = 2 ^ 24 + 4.
Proof. unfold target_index. rewrite Z2Nat.id by lia. vm_compute. reflexivity. Qed.

(** ** Lemmas on the multiset *)
Abbreviation vals s := (snd <$> s).
Abbreviation ids s := (fst <$> s).

Definition ordered s : Prop := StronglySorted Z.le (vals s) /\ NoDup (ids s).

Lemma ms_insert_split id v s : StronglySorted Z.le (vals s) -> exists a b, s = a ++ b /\ ms_insert id v s = a ++ (id, v) :: b /\
  Forall (fun x => x.2 <= v) a /\ Forall (fun x => v < x.2) b.
Proof.
  induction s as [|x s IH]; intros Hs; [by exists [], []|]. cbn.
  rewrite fmap_cons in Hs. apply StronglySorted_inv in Hs as [Hs Hx].
  destruct (v <? x.2) eqn:E; bool_prop.
  - exists [], (x :: s). split_and!; [done|done|constructor|]. constructor; [done|].
    rewrite Forall_fmap in Hx. eapply Forall_impl; [exact Hx|]. intros y Hy. cbn in Hy. lia.
  - destruct (IH Hs) as (a & b & -> & -> & Ha & Hb). exists (x :: a), b. split_and!; [done|done|by constructor|done].
Qed.

Lemma ms_lower_bound_split v s : StronglySorted Z.le (vals s) -> exists a b, s = a ++ b /\
  ms_lower_bound v s = head b /\ Forall (fun x => x.2 < v) a /\ Forall (fun x => v <= x.2) b.
Proof.
  induction s as [|x s IH]; intros Hs; [by exists [], []|]. cbn.
  rewrite fmap_cons in Hs. apply StronglySorted_inv in Hs as [Hs Hx].
  destruct (x.2 <? v) eqn:E; bool_prop.
  - destruct (IH Hs) as (a & b & -> & -> & Ha & Hb). exists (x :: a), b. split_and!; [done|done|by constructor|done].
  - exists [], (x :: s). split_and!; [done|done|constructor|]. constructor; [done|].
    rewrite Forall_fmap in Hx. eapply Forall_impl; [exact Hx|]. intros y Hy. cbn in Hy. lia.
Qed.

Lemma ms_erase_split x a b : NoDup (ids (a ++ x :: b)) -> ms_erase x.1 (a ++ x :: b) = (a ++ b, ms_begin b).
Proof.
  induction a as [|y a IH]; cbn; [by rewrite bool_decide_eq_true_2|].
  intros [Hy Hn]%list.NoDup_cons. rewrite bool_decide_eq_false_2, IH by (done || (rewrite fmap_app in Hy; set_solver)). done.
Qed.

Lemma list_find_id s i x : NoDup (ids s) -> s !! i = Some x -> list_find (fun y : nat * Z => y.1 = x.1) s = Some (i, x).
Proof.
  intros Hn Hx. apply list_find_Some. split_and!; [done|done|]. intros j y Hy Hj E.
  assert (j = i); [|lia]. eapply NoDup_lookup; [exact Hn|by rewrite list_lookup_fmap, Hy|]. by rewrite list_lookup_fmap, Hx, E.
Qed.

Lemma ms_deref_at s i x : NoDup (ids s) -> s !! i = Some x -> ms_deref s (Some x.1) = Ok x.2.
Proof. intros Hn Hx. unfold ms_deref. by rewrite (list_find_id s i x). Qed.

Lemma ms_position_at s i : NoDup (ids s) -> (i <= length s)%nat -> ms_position s (fst <$> s !! i) = Ok i.
Proof.
  intros Hn Hi. destruct (s !! i) as [x|] eqn:E; cbn; [by rewrite (list_find_id s i x)|].
  apply lookup_ge_None in E. f_equal. lia.
Qed.

Lemma ms_advance_to s i j : NoDup (ids s) -> (i <= length s)%nat -> (j <= length s)%nat ->
  ms_advance s (fst <$> s !! i) (Z.of_nat j - Z.of_nat i) = Ok (fst <$> s !! j).
Proof.
  intros Hn Hi Hj. unfold ms_advance. rewrite ms_position_at by done. cbn [mbind res_bind].
  replace (Z.of_nat i + (Z.of_nat j - Z.of_nat i)) with (Z.of_nat j) by lia.
  replace ((0 <=? Z.of_nat j) && (Z.of_nat j <=? Z.of_nat (length s))) with true
    by (symmetry; apply andb_true_iff; split; apply Z.leb_le; lia).
  cbn. by rewrite Nat2Z.id.
Qed.

(** ** The contract of the filter *)

(** The iterator is at position [i], and the index says so. *)
Definition points f (i : nat) : Prop :=
  (i <= length (set_ f))%nat /\ percentile_it_ f = fst <$> set_ f !! i /\ percentile_index_ f = Z.of_nat i.

Definition sound f : Prop :=
  ordered (set_ f) /\ Forall (fun x => (x.1 < next_node f)%nat) (set_ f) /\ 0 <= percentile_ f <= 2 ^ 149.

(** The filter holds the observations, and points at the percentile. *)
Definition holds f (obs : list Z) : Prop :=
  sound f /\ vals (set_ f) ≡ₚ obs /\
  (set_ f <> [] -> points f (Z.to_nat (target_index (percentile_ f) (length (set_ f))))).

Lemma Update_spec f i : sound f -> (set_ f <> [] -> points f i) -> Z.of_nat (length (set_ f)) <= 2 ^ 24 + 1 ->
  exists f', UpdatePercentileIterator f = Ok f' /\ set_ f' = set_ f /\ percentile_ f' = percentile_ f /\
    holds f' (vals (set_ f)).
Proof.
  intros Hs Hp Hn. unfold UpdatePercentileIterator. case_bool_decide as E.
  { exists f. split_and!; [done..|]. by split_and!. }
  destruct (Hp E) as (Hi & Hit & Hidx). pose proof Hs as ([_ Hnd] & _ & Hr).
  destruct (target_index_range (percentile_ f) (length (set_ f)) Hr) as [H1 H2]; [by destruct (set_ f); [|cbn; lia]|done|].
  rewrite Hit, Hidx. remember (target_index (percentile_ f) (length (set_ f))) as t eqn:Et.
  pose proof (ms_advance_to (set_ f) i (Z.to_nat t) Hnd Hi ltac:(lia)) as Ha. rewrite Z2Nat.id in Ha by lia. rewrite Ha.
  eexists. split; [done|]. split_and!; [done|done|]. split_and!; [done|done|]. intros _. cbn [set_ percentile_ percentile_it_ percentile_index_].
  rewrite <- Et. split_and!; cbn; [lia|done|lia].
Qed.

Lemma ordered_put id v a b : ordered (a ++ b) -> id ∉ ids (a ++ b) ->
  Forall (fun x => x.2 <= v) a -> Forall (fun x => v < x.2) b -> ordered (a ++ (id, v) :: b).
Proof.
  intros [Hs Hn] Hid Ha Hb. split.
  - rewrite fmap_app in *. rewrite fmap_cons. apply StronglySorted_app in Hs as (H1 & H2 & H3).
    apply StronglySorted_app. split_and!; [|done|constructor; [done|]].
    + intros x y Hx Hy. apply elem_of_cons in Hy as [->|Hy]; [|by apply H1].
      apply list_elem_of_fmap in Hx as (z & -> & Hz). by apply (proj1 (Forall_forall _ _) Ha).
    + apply Forall_fmap. eapply Forall_impl; [exact Hb|]. intros y Hy. cbn in *. lia.
  - rewrite fmap_app, fmap_cons, <- Permutation_middle, <- fmap_app. by constructor.
Qed.

Lemma ordered_cut a x b : ordered (a ++ x :: b) -> ordered (a ++ b).
Proof.
  unfold ordered. rewrite !fmap_app, !fmap_cons. intros [Hs Hn]. split.
  - apply StronglySorted_app in Hs as (H1 & H2 & [H3 _]%StronglySorted_inv). apply StronglySorted_app.
    split_and!; [|done|done]. intros y z Hy Hz. apply H1; [done|]. by constructor.
  - rewrite <- Permutation_middle in Hn. by apply list.NoDup_cons in Hn as [_ ?].
Qed.

Lemma holds_node f obs : holds f obs -> set_ f <> [] -> Z.of_nat (length (set_ f)) <= 2 ^ 24 + 1 ->
  exists i x, points f i /\ set_ f !! i = Some x /\ i = Z.to_nat (target_index (percentile_ f) (length (set_ f))).
Proof.
  intros (Hs & _ & Hp) He Hn. pose proof Hs as (_ & _ & Hr).
  destruct (target_index_range (percentile_ f) (length (set_ f)) Hr) as [H1 H2]; [by destruct (set_ f); [|cbn; lia]|done|].
  destruct (lookup_lt_is_Some_2 (set_ f) (Z.to_nat (target_index (percentile_ f) (length (set_ f))))) as [x Hx]; [lia|].
  eexists _, x. split_and!; [by apply Hp|done|done].
Qed.

Lemma sound_fresh f : sound f -> next_node f ∉ ids (set_ f).
Proof.
  intros (_ & Hf & _) Hin. apply list_elem_of_fmap in Hin as (x & E & Hx).
  pose proof (proj1 (Forall_forall _ _) Hf x Hx). cbn in *. lia.
Qed.

(** Where a node is after another was inserted, or erased. *)
Lemma lookup_put n v (a b : nodes) i x : (a ++ b) !! i = Some x ->
  Forall (fun x => x.2 <= v) a -> Forall (fun x => v < x.2) b ->
  (a ++ n :: b) !! (if v <? x.2 then S i else i) = Some x.
Proof.
  intros Hx Ha Hb. apply lookup_app_Some in Hx as [Hx|[Hi Hx]].
  - pose proof (Forall_lookup_1 _ _ _ _ Ha Hx) as H. cbn in H. replace (v <? x.2) with false by (symmetry; apply Z.ltb_ge; lia).
    by apply lookup_app_l_Some.
  - pose proof (Forall_lookup_1 _ _ _ _ Hb Hx) as H. cbn in H. replace (v <? x.2) with true by (symmetry; by apply Z.ltb_lt).
    rewrite lookup_app_r by lia. replace (S i - length a)%nat with (S (i - length a)) by lia. done.
Qed.

Lemma lookup_cut n v (a b : nodes) i x : (a ++ n :: b) !! i = Some x -> i <> length a ->
  Forall (fun x => x.2 < v) a -> Forall (fun x => v <= x.2) b ->
  (a ++ b) !! (if v <=? x.2 then pred i else i) = Some x /\ (v <= x.2 -> (0 < i)%nat).
Proof.
  intros Hx Hne Ha Hb. apply lookup_app_Some in Hx as [Hx|[Hi Hx]].
  - pose proof (Forall_lookup_1 _ _ _ _ Ha Hx) as H. cbn in H. replace (v <=? x.2) with false by (symmetry; apply Z.leb_gt; lia).
    split; [by apply lookup_app_l_Some|lia].
  - destruct (i - length a)%nat as [|j] eqn:Ej; [lia|]. cbn in Hx.
    pose proof (Forall_lookup_1 _ _ _ _ Hb Hx) as H. cbn in H. replace (v <=? x.2) with true by (symmetry; by apply Z.leb_le).
    rewrite lookup_app_r by lia. replace (pred i - length a)%nat with j by lia. split; [done|lia].
Qed.

Lemma Filter_Insert_spec v f obs : holds f obs -> Z.of_nat (S (length obs)) <= 2 ^ 24 + 1 ->
  exists f', Insert v f = Ok f' /\ percentile_ f' = percentile_ f /\ holds f' (v :: obs).
Proof.
  intros Hh Hn. pose proof Hh as (Hs & Hv & _). pose proof (sound_fresh f Hs) as Hid. pose proof Hs as (Ho & Hf & Hr).
  assert (Hlen : length (set_ f) = length obs) by (rewrite <- Hv; by rewrite length_fmap).
  destruct (ms_insert_split (next_node f) v (set_ f) (proj1 Ho)) as (a & b & Es & Ei & Ha & Hb).
  unfold Insert. rewrite Ei. set (s := a ++ (next_node f, v) :: b).
  assert (Hls : length s = S (length (set_ f))) by (subst s; rewrite Es, !length_app; cbn; lia).
  assert (Hos : ordered s) by (apply ordered_put; [by rewrite <- Es|by rewrite <- Es|done|done]).
  assert (Hsnd : forall it idx, sound (mkFilter (percentile_ f) s it idx (S (next_node f)))).
  { intros it idx. split_and!; cbn; [done| |lia|lia]. rewrite Es in Hf. apply Forall_app in Hf as [Hfa Hfb].
    apply Forall_app. split; [|constructor; [cbn; lia|]]; (eapply Forall_impl; [exact Hfa || exact Hfb|]; intros y Hy; cbn in *; lia). }
  assert (Hvs : vals s ≡ₚ v :: obs).
  { subst s. rewrite fmap_app, fmap_cons, <- Permutation_middle, <- fmap_app, <- Es. cbn. by rewrite Hv. }
  assert (Hdone : forall it idx i, points (mkFilter (percentile_ f) s it idx (S (next_node f))) i ->
    exists f', UpdatePercentileIterator (mkFilter (percentile_ f) s it idx (S (next_node f))) = Ok f' /\
      percentile_ f' = percentile_ f /\ holds f' (v :: obs)).
  { intros it idx i Hp. destruct (Update_spec _ i (Hsnd it idx) (fun _ => Hp)) as (f' & E & Es' & Ep & Hh'); [cbn; lia|].
    exists f'. split_and!; [done|done|]. destruct Hh' as (H1 & H2 & H3). split_and!; [done| |done].
    rewrite H2. cbn. by rewrite Hvs. }
  case_bool_decide as E1; cbn [mbind res_bind].
  - apply (Hdone _ _ 0%nat). assert (set_ f = []) as E0 by (destruct (set_ f); [done|cbn in *; lia]).
    rewrite E0 in Es. symmetry in Es. apply app_eq_nil in Es as [-> ->]. split_and!; cbn; [lia|done|done].
  - destruct (holds_node f obs Hh) as (i & x & (Hi & Hit & Hidx) & Hx & _); [intros E0; rewrite E0 in Hls; cbn in Hls; lia|lia|].
    rewrite Es in Hx. pose proof (lookup_put (next_node f, v) v a b i x Hx Ha Hb) as Hx'. fold s in Hx'.
    rewrite Hit, Es, Hx. cbn [fmap option_fmap option_map]. rewrite (ms_deref_at s _ x (proj2 Hos) Hx'). cbn [mbind res_bind].
    eapply Hdone. apply lookup_lt_Some in Hx' as Hlt. split_and!; cbn [set_ percentile_it_ percentile_index_]; [|by rewrite Hx'|].
    + lia.
    + rewrite Hidx. destruct (v <? x.2); lia.
Qed.

Lemma lower_bound_found v s : StronglySorted Z.le (vals s) -> v ∈ vals s ->
  exists a id b, s = a ++ (id, v) :: b /\ ms_lower_bound v s = Some (id, v) /\
    Forall (fun x => x.2 < v) a /\ Forall (fun x => v <= x.2) b.
Proof.
  intros Hs Hv. destruct (ms_lower_bound_split v s Hs) as (a & b & -> & -> & Ha & Hb).
  rewrite fmap_app in Hs, Hv. apply elem_of_app in Hv as [Hv|Hv].
  { apply list_elem_of_fmap in Hv as (x & -> & Hx). pose proof (proj1 (Forall_forall _ _) Ha x Hx). cbn in *. lia. }
  destruct b as [|[id x] b]; [by apply elem_of_nil in Hv|]. apply StronglySorted_app in Hs as (_ & _ & Hs).
  rewrite fmap_cons in Hs, Hv. apply StronglySorted_inv in Hs as [_ Hx]. apply Forall_cons in Hb as [Hvx Hb]. cbn in *.
  assert (x = v) as ->.
  { apply elem_of_cons in Hv as [->|Hv]; [done|]. pose proof (proj1 (Forall_forall _ _) Hx v Hv). lia. }
  by exists a, id, b.
Qed.

Lemma Erase_spec v f obs obs' : holds f obs -> obs ≡ₚ v :: obs' -> Z.of_nat (length obs) <= 2 ^ 24 + 1 ->
  exists f', Erase v f = Ok (true, f') /\ percentile_ f' = percentile_ f /\ holds f' obs'.
Proof.
  intros Hh Hp Hn. pose proof Hh as (Hs & Hv & _). pose proof Hs as (Ho & Hf & Hr).
  assert (Hlen : length (set_ f) = length obs) by (rewrite <- Hv; by rewrite length_fmap).
  destruct (lower_bound_found v (set_ f) (proj1 Ho)) as (a & id & b & Es & El & Ha & Hb).
  { rewrite Hv, Hp. by constructor. }
  unfold Erase. rewrite El. rewrite Z.eqb_refl. cbn [negb]. rewrite Es in Ho.
  pose proof (ms_erase_split (id, v) a b (proj2 Ho)) as Ee. cbn [fst] in Ee. rewrite Es, Ee. clear Ee.
  apply ordered_cut in Ho as Hos.
  assert (Hsnd : forall it idx, sound (mkFilter (percentile_ f) (a ++ b) it idx (next_node f))).
  { intros it idx. split_and!; cbn; [done| |lia|lia]. rewrite Es in Hf. apply Forall_app in Hf as [Hfa Hfb].
    apply Forall_cons in Hfb as [_ Hfb]. by apply Forall_app. }
  assert (Hvs : vals (a ++ b) ≡ₚ obs').
  { apply (Permutation_cons_inv (a := v)). rewrite <- Hp, <- Hv, Es, !fmap_app, fmap_cons. by rewrite Permutation_middle. }
  assert (Hla : Z.of_nat (length (a ++ b)) <= 2 ^ 24 + 1) by (rewrite Es, !length_app in Hlen; rewrite length_app; cbn in Hlen; lia).
  assert (Hdone : forall it idx i, points (mkFilter (percentile_ f) (a ++ b) it idx (next_node f)) i ->
    exists f', (f ← UpdatePercentileIterator (mkFilter (percentile_ f) (a ++ b) it idx (next_node f)); Ok (true, f)) = Ok (true, f') /\
      percentile_ f' = percentile_ f /\ holds f' obs').
  { intros it idx i Hpt. destruct (Update_spec _ i (Hsnd it idx) (fun _ => Hpt)) as (f' & E & _ & Ep & H1 & H2 & H3); [done|].
    exists f'. rewrite E. split_and!; [done|done|]. split_and!; [done| |done]. rewrite H2. by rewrite Hvs. }
  destruct (holds_node f obs Hh) as (i & x & (Hi & Hit & Hidx) & Hx & _); [rewrite Es; by destruct a|lia|].
  rewrite Es in Hx. rewrite Hit, Es, Hx. cbn [fmap option_fmap option_map].
  destruct (decide (i = length a)) as [->|Hne].
  - rewrite list_lookup_middle in Hx by done. injection Hx as <-. rewrite bool_decide_eq_true_2 by done.
    cbn [mbind res_bind]. apply (Hdone _ _ (length a)). split_and!; cbn; [rewrite length_app; lia| |done].
    rewrite lookup_app_r, Nat.sub_diag by lia. by destruct b.
  - rewrite bool_decide_eq_false_2; cycle 1.
    { intros [= E]. apply Hne. eapply NoDup_lookup; [exact (proj2 Ho)|by rewrite list_lookup_fmap, Hx|].
      rewrite list_lookup_fmap, list_lookup_middle by done. cbn. congruence. }
    destruct (lookup_cut (id, v) v a b i x Hx Hne Ha Hb) as [Hx' Hpos].
    rewrite (ms_deref_at (a ++ b) _ x (proj2 Hos) Hx'). cbn [mbind res_bind].
    eapply Hdone. apply lookup_lt_Some in Hx' as Hlt. split_and!; cbn [set_ percentile_it_ percentile_index_]; [|by rewrite Hx'|].
    + lia.
    + rewrite Hidx. destruct (v <=? x.2) eqn:E; [apply Z.leb_le in E; specialize (Hpos E)|]; lia.
Qed.

Lemma Erase_absent v f obs : holds f obs -> v ∉ obs -> Erase v f = Ok (false, f).
Proof.
  intros (([Hs _] & _) & Hv & _) Hn. destruct (ms_lower_bound_split v (set_ f) Hs) as (a & b & E & El & _).
  unfold Erase. rewrite El. destruct b as [|[id x] b]; [done|]. cbn. destruct (x =? v) eqn:Ex; [|done]. exfalso.
  apply Z.eqb_eq in Ex as ->. apply Hn. rewrite <- Hv, E, fmap_app. set_solver.
Qed.

(** ** What the filters compute *)

(** The value at the percentile's place among the sorted observations. *)
Definition percentile_of (p : Z) (obs : list Z) : Z :=
  default 0 (merge_sort Z.le obs !! Z.to_nat (target_index p (length obs))).

Lemma sorted_unique l1 l2 : StronglySorted Z.le l1 -> StronglySorted Z.le l2 -> l1 ≡ₚ l2 -> l1 = l2.
Proof. intros H1 H2 Hp. by apply (StronglySorted_unique Z.le). Qed.

Lemma merge_sort_strong (l : list Z) : StronglySorted Z.le (merge_sort Z.le l).
Proof. apply StronglySorted_merge_sort; apply _. Qed.

Lemma GetPercentileValue_spec f obs : holds f obs -> Z.of_nat (length obs) <= 2 ^ 24 + 1 ->
  GetPercentileValue f = Ok (percentile_of (percentile_ f) obs).
Proof.
  intros Hh Hn. pose proof Hh as ((Ho & _) & Hv & _).
  assert (Hlen : length (set_ f) = length obs) by (rewrite <- Hv; by rewrite length_fmap).
  unfold GetPercentileValue, percentile_of. case_bool_decide as E.
  { rewrite E in Hlen. by destruct obs. }
  destruct (holds_node f obs Hh E) as (i & x & (_ & Hit & _) & Hx & Ei); [lia|].
  rewrite Hit, Hx. cbn [fmap option_fmap option_map]. rewrite (ms_deref_at (set_ f) i x (proj2 Ho) Hx). f_equal.
  rewrite <- (sorted_unique (vals (set_ f)) (merge_sort Z.le obs) (proj1 Ho) (merge_sort_strong obs)).
  - rewrite <- Hlen, <- Ei, list_lookup_fmap, Hx. done.
  - by rewrite merge_sort_Permutation, Hv.
Qed.

Inductive fop := FInsert (v : Z) | FErase (v : Z) | FReset.

Fixpoint frun (os : list fop) f : res PercentileFilter :=
  match os with
  | [] => Ok f
  | FInsert v :: os => f ← Insert v f; frun os f
  | FErase v :: os => r ← Erase v f; frun os r.2
  | FReset :: os => frun os (Reset f)
  end.

Fixpoint drop_one (v : Z) (obs : list Z) : list Z :=
  match obs with [] => [] | x :: obs => if x =? v then obs else x :: drop_one v obs end.

(** The observations that a sequence of calls leaves. *)
Fixpoint observed (os : list fop) (obs : list Z) : list Z :=
  match os with
  | [] => obs
  | FInsert v :: os => observed os (v :: obs)
  | FErase v :: os => observed os (drop_one v obs)
  | FReset :: os => observed os []
  end.

Lemma drop_one_in v obs : v ∈ obs -> obs ≡ₚ v :: drop_one v obs.
Proof.
  induction obs as [|x obs IH]; [by intros ?%elem_of_nil|]. cbn. destruct (x =? v) eqn:E; bool_prop; [by subst|].
  intros Hv. rewrite Permutation_swap, <- IH; [done|]. set_solver.
Qed.

Lemma drop_one_notin v obs : v ∉ obs -> drop_one v obs = obs.
Proof.
  induction obs as [|x obs IH]; [done|]. intros [Hx Hv]%not_elem_of_cons. cbn.
  destruct (x =? v) eqn:E; bool_prop; [done|]. by rewrite IH.
Qed.

Lemma Reset_spec f : sound f -> holds (Reset f) [].
Proof. intros (_ & _ & Hr). split_and!; [split_and!; cbn; [split; constructor|constructor|lia|lia]|done|done]. Qed.

Lemma Erase_any v f obs : holds f obs -> Z.of_nat (length obs) <= 2 ^ 24 + 1 ->
  exists f', Erase v f = Ok (bool_decide (v ∈ obs), f') /\ percentile_ f' = percentile_ f /\ holds f' (drop_one v obs).
Proof.
  intros Hh Hn. case_bool_decide as Hv.
  - apply (Erase_spec v f obs); [done|by apply drop_one_in|done].
  - exists f. rewrite drop_one_notin by done. split_and!; [by apply (Erase_absent v f obs)|done|done].
Qed.

Lemma drop_one_length v obs : (length (drop_one v obs) <= length obs)%nat.
Proof. induction obs as [|x obs IH]; cbn; [lia|]. destruct (x =? v); cbn; lia. Qed.

Lemma observed_length os : forall obs, (length (observed os obs) <= length os + length obs)%nat.
Proof.
  induction os as [|[v|v|] os IH]; intros obs; cbn; [lia|..].
  - specialize (IH (v :: obs)). cbn in IH. lia.
  - specialize (IH (drop_one v obs)). pose proof (drop_one_length v obs). lia.
  - specialize (IH []). cbn in IH. lia.
Qed.

Lemma frun_spec os : forall f obs, holds f obs -> Z.of_nat (length os + length obs) <= 2 ^ 24 + 1 ->
  exists f', frun os f = Ok f' /\ percentile_ f' = percentile_ f /\ holds f' (observed os obs).
Proof.
  induction os as [|[v|v|] os IH]; intros f obs Hh Hn; cbn [frun observed length] in *; [by exists f|..].
  - destruct (Filter_Insert_spec v f obs Hh) as (f1 & -> & E1 & H1); [lia|].
    destruct (IH f1 (v :: obs) H1) as (f2 & E & E2 & H2); [cbn; lia|]. exists f2. split_and!; [done|congruence|done].
  - destruct (Erase_any v f obs Hh) as (f1 & -> & E1 & H1); [lia|]. pose proof (drop_one_length v obs).
    destruct (IH f1 _ H1) as (f2 & E & E2 & H2); [lia|]. exists f2. split_and!; [done|congruence|done].
  - destruct (IH (Reset f) [] (Reset_spec f (proj1 Hh))) as (f2 & E & E2 & H2); [cbn; lia|]. by exists f2.
Qed.

(** The percentile filter is exact.  After any sequence of at most [2^24] insertions, erasures and resets, the filter returns the observation at the percentile's place among the sorted ones (0 when there are none), and an erasure reports whether the value was there. *)
Theorem PercentileFilter_exact p os : 0 <= p <= 2 ^ 149 -> Z.of_nat (length os) <= 2 ^ 24 + 1 ->
  exists f0 f, PercentileFilter_new p = Ok f0 /\ frun os f0 = Ok f /\
    GetPercentileValue f = Ok (percentile_of p (observed os [])) /\
    forall v, exists f', Erase v f = Ok (bool_decide (v ∈ observed os []), f').
Proof.
  intros Hp Hn. set (f0 := mkFilter p [] None 0 0).
  assert (H0 : holds f0 []).
  { split_and!; [split_and!; cbn; [split; constructor|constructor|lia|lia]|done|done]. }
  destruct (frun_spec os f0 [] H0) as (f & E & Ep & Hh); [cbn; lia|]. pose proof (observed_length os []) as Hl. cbn in Hl.
  exists f0, f. split_and!; [|done| |].
  - unfold PercentileFilter_new. rewrite (proj2 (Z.leb_le 0 p)), (proj2 (Z.leb_le p _)) by lia. done.
  - rewrite (GetPercentileValue_spec f _ Hh) by lia. by rewrite Ep.
  - intros v. destruct (Erase_any v f _ Hh) as (f' & -> & _); [lia|]. by exists f'.
Qed.

(** *** The moving median *)
Definition median (l : list Z) : Z := default 0 (merge_sort Z.le l !! (pred (length l) / 2)%nat).

(** The last [w] samples. *)
Definition window (w : Z) (vs : list Z) : list Z := drop (length vs - Z.to_nat w) vs.

Fixpoint Median_run (vs : list Z) (mf : MovingMedianFilter) : res MovingMedianFilter :=
  match vs with [] => Ok mf | v :: vs => mf ← Median_Insert v mf; Median_run vs mf end.

Lemma percentile_median l : Z.of_nat (length l) <= 2 ^ 24 + 1 -> percentile_of (2 ^ 148) l = median l.
Proof.
  intros Hn. unfold percentile_of, median. destruct l as [|x l]; [done|]. rewrite target_index_median by (done || (cbn; lia)).
  do 2 f_equal. cbn [length pred]. replace (Z.of_nat (S (length l)) - 1) with (Z.of_nat (length l)) by lia.
  change 2 with (Z.of_nat 2). by rewrite <- Nat2Z.inj_div, Nat2Z.id.
Qed.

(** The filter holds the last samples. *)
Definition tracks (mf : MovingMedianFilter) (vs : list Z) : Prop :=
  samples_ mf = window (window_size_ mf) vs /\ samples_stored_ mf = Z.of_nat (length (samples_ mf)) /\
  0 < window_size_ mf <= 2 ^ 24 /\ percentile_ (percentile_filter_ mf) = 2 ^ 148 /\
  holds (percentile_filter_ mf) (samples_ mf).

Lemma window_length w vs : length (window w vs) = Nat.min (length vs) (Z.to_nat w).
Proof. unfold window. rewrite length_drop. lia. Qed.

Lemma tail_drop (n : nat) (l : list Z) : tail (drop n l) = drop (S n) l.
Proof. revert l. induction n as [|n IH]; intros [|x l]; cbn; done. Qed.

Lemma window_snoc w vs v : 0 < w ->
  window w (vs ++ [v]) = if w <? Z.of_nat (length (window w vs ++ [v])) then tail (window w vs ++ [v]) else window w vs ++ [v].
Proof.
  intros Hw. rewrite length_app, window_length. unfold window. rewrite length_app. cbn [length].
  destruct (w <? Z.of_nat (Nat.min (length vs) (Z.to_nat w) + 1)) eqn:E; bool_prop.
  - rewrite <- drop_app_le by lia. replace (length vs + 1 - Z.to_nat w)%nat with (S (length vs - Z.to_nat w)) by lia.
    by rewrite tail_drop.
  - rewrite <- drop_app_le by lia. f_equal. lia.
Qed.

Lemma Median_Insert_spec v mf vs : tracks mf vs ->
  exists mf', Median_Insert v mf = Ok mf' /\ window_size_ mf' = window_size_ mf /\ tracks mf' (vs ++ [v]).
Proof.
  intros (Hs & Hst & Hw & Hp & Hh). pose proof (window_length (window_size_ mf) vs) as Hl. rewrite <- Hs in Hl.
  destruct (Filter_Insert_spec v (percentile_filter_ mf) (samples_ mf) Hh) as (f & E & Ep & Hf); [lia|].
  pose proof (window_snoc (window_size_ mf) vs v (proj1 Hw)) as Hsnoc. rewrite <- Hs in Hsnoc.
  unfold Median_Insert. rewrite E, Hst. cbn [mbind res_bind].
  assert (Hu : u64 (Z.of_nat (length (samples_ mf)) + 1) = Z.of_nat (length (samples_ mf ++ [v]))).
  { rewrite length_app. cbn [length]. rewrite wrapU_id; [lia|]. unfold in_u. lia. }
  rewrite Hu. assert (Hp1 : v :: samples_ mf ≡ₚ samples_ mf ++ [v]) by apply Permutation_cons_append.
  assert (Hf' : holds f (samples_ mf ++ [v])) by (destruct Hf as (H1 & H2 & H3); split_and!; [done|by rewrite H2|done]).
  destruct (window_size_ mf <? Z.of_nat (length (samples_ mf ++ [v]))) eqn:Ew.
  - destruct (samples_ mf ++ [v]) as [|front rest] eqn:Er; [by destruct (samples_ mf)|].
    assert (Hlr : length (samples_ mf ++ [v]) = S (length rest)) by by rewrite Er. rewrite length_app in Hlr. cbn in Hlr.
    destruct (Erase_spec front f (front :: rest) rest Hf' ltac:(done)) as (f2 & E2 & Ep2 & Hf2); [cbn; lia|].
    rewrite E2. cbn [mbind res_bind snd]. eexists. split; [done|]. split; [done|]. split_and!; cbn; try done; try lia; try congruence.
    rewrite wrapU_id; [cbn; lia|unfold in_u; cbn; lia].
  - eexists. split; [done|]. split; [done|]. split_and!; cbn; try done; try lia; try congruence.
Qed.

Lemma Median_run_spec vs : forall mf us, tracks mf us -> exists mf', Median_run vs mf = Ok mf' /\
  window_size_ mf' = window_size_ mf /\ tracks mf' (us ++ vs).
Proof.
  induction vs as [|v vs IH]; intros mf us Ht; [exists mf; by rewrite app_nil_r|]. cbn [Median_run].
  destruct (Median_Insert_spec v mf us Ht) as (m1 & -> & E1 & H1). cbn [mbind res_bind].
  destruct (IH m1 _ H1) as (m2 & -> & E2 & H2). exists m2. rewrite <- (assoc_L (++)) in H2. split_and!; [done|congruence|done].
Qed.

Lemma tracks_median mf vs : tracks mf vs -> GetFilteredValue mf = Ok (median (window (window_size_ mf) vs)).
Proof.
  intros (Hs & _ & Hw & Hp & Hh). unfold GetFilteredValue. pose proof (window_length (window_size_ mf) vs) as Hl.
  rewrite Hs in Hh. rewrite (GetPercentileValue_spec _ _ Hh), Hp, percentile_median by lia. done.
Qed.

Lemma Reset_tracks mf vs : tracks mf vs -> tracks (Median_Reset mf) [].
Proof.
  intros (_ & _ & Hw & Hp & Hh). split_and!; cbn; [by destruct (_ - _)%nat|done|lia|lia|done|]. apply Reset_spec, Hh.
Qed.

(** The moving median filter returns the median of the last [w] samples, for every stream of samples and every window of up to [2^24] of them: the one in the middle of the sorted window, the lower of the two when there are two, and 0 before the first sample; after a reset it starts afresh. *)
Theorem MovingMedian_exact w vs us : 0 < w <= 2 ^ 24 ->
  exists m0 m1 m2, MovingMedianFilter_new w = Ok m0 /\ Median_run vs m0 = Ok m1 /\
    samples_ m1 = window w vs /\ GetFilteredValue m1 = Ok (median (window w vs)) /\
    Median_run us (Median_Reset m1) = Ok m2 /\ GetFilteredValue m2 = Ok (median (window w us)).
Proof.
  intros Hw. set (m0 := mkMedian (mkFilter (2 ^ 148) [] None 0 0) [] 0 w).
  assert (H0 : tracks m0 []).
  { split_and!; [by cbn; destruct (_ - _)%nat|done|cbn; lia|cbn; lia|done|]. 
    split_and!; [split_and!; cbn; [split; constructor|constructor|lia|lia]|done|done]. }
  destruct (Median_run_spec vs m0 [] H0) as (m1 & E1 & W1 & H1).
  destruct (Median_run_spec us _ [] (Reset_tracks _ _ H1)) as (m2 & E2 & W2 & H2). cbn [app] in H1, H2.
  exists m0, m1, m2. rewrite (tracks_median _ _ H1), (tracks_median _ _ H2), W2. cbn [Median_Reset window_size_]. rewrite W1.
  split_and!; try done.
  - unfold MovingMedianFilter_new, PercentileFilter_new. cbn [Z.leb mbind res_bind]. 
    rewrite (proj2 (Z.ltb_lt 0 w)) by lia. done.
  - destruct H1 as [-> _]. by rewrite W1.
Qed.

(** ** Examples *)
Lemma PercentileFilter_exact_witness : let os := [FInsert 5; FInsert 1; FInsert 5; FInsert 9; FErase 5; FErase 4; FInsert 7] in
  exists f0 f, PercentileFilter_new (2 ^ 148) = Ok f0 /\ frun os f0 = Ok f /\ GetPercentileValue f = Ok 5.
Proof.
  intros os. destruct (PercentileFilter_exact (2 ^ 148) os ltac:(lia) ltac:(cbn; lia)) as (f0 & f & E0 & E & Hv & _).
  exists f0, f. split; [exact E0|]. split; [exact E|]. rewrite Hv. vm_compute. reflexivity.
Defined.

Lemma MovingMedian_exact_witness : exists m0 m1, MovingMedianFilter_new 3 = Ok m0 /\
  Median_run [10; 4; 8; 2; 9] m0 = Ok m1 /\ GetFilteredValue m1 = Ok 8.
Proof.
  destruct (MovingMedian_exact 3 [10; 4; 8; 2; 9] [] ltac:(lia)) as (m0 & m1 & _ & E0 & E1 & _ & Hv & _).
  exists m0, m1. split; [exact E0|]. split; [exact E1|]. rewrite Hv. vm_compute. reflexivity.
Defined.
