(* ===== verification/MruCache.v ===== *)
(** * The cache of most recently used items

    [MRUCacheBase] of [base/containers/mru_cache.h] of [include/webrtc]: a list of the
    items in the order of their use, and an index from keys to the list's iterators.  As
    in a [std::list], an iterator stays with its node wherever the node is; it is the
    node's identity, and null is the end.  A key that is passed in is not a reference into
    the cache.  Built with the checks on. *)

From S2P Require Import Prelude.
From stdpp Require Import list.
Local Open Scope nat_scope.

Section MRUCache.
Context {K P : Type} `{Countable K}.

Record MRUCache := mkCache {
  ordering_ : list (nat * (K * P));
  index_ : gmap K nat;
  max_size_ : nat;
  next_node : nat           (* the identity of the next node allocated *)
}.
Implicit Types (c : MRUCache) (key : K) (payload : P).

Definition NO_AUTO_EVICT : nat := 0.

Definition MRUCache_new (max_size : nat) : MRUCache := mkCache [] ∅ max_size 0.

Definition node_at c (pos : nat) : option (nat * (nat * (K * P))) := list_find (fun x => x.1 = pos) (ordering_ c).

(** [Erase]: the iterator must be valid. *)
Definition Erase c (pos : nat) : res MRUCache :=
  match node_at c pos with
  | Some (i, x) => Ok (mkCache (delete i (ordering_ c)) (delete x.2.1 (index_ c)) (max_size_ c) (next_node c))
  | None => Undef
  end.

(** [Erase(rbegin())]: the last item. *)
Definition Erase_last c : res MRUCache :=
  match list.last (ordering_ c) with Some x => Erase c x.1 | None => Undef end.

Definition cache_size c : res nat :=
  _ ← assert_ (bool_decide (size (index_ c) = length (ordering_ c))); Ok (size (index_ c)).

Fixpoint shrink_loop (n : nat) c : res MRUCache :=
  match n with O => Ok c | S n => c ← Erase_last c; shrink_loop n c end.

Definition ShrinkToSize c (new_size : nat) : res MRUCache :=
  i ← cache_size c; shrink_loop (i - new_size) c.

(** [index_.emplace]: a key that is there keeps its iterator. *)
Definition index_emplace (m : gmap K nat) key (it : nat) : gmap K nat :=
  match m !! key with Some _ => m | None => <[key := it]> m end.

Definition Put c key payload : res MRUCache :=
  c ← match index_ c !! key with
      | Some it => Erase c it
      | None => if bool_decide (max_size_ c <> NO_AUTO_EVICT) then ShrinkToSize c (max_size_ c - 1) else Ok c
      end;
  Ok (mkCache ((next_node c, (key, payload)) :: ordering_ c) (index_emplace (index_ c) key (next_node c))
        (max_size_ c) (S (next_node c))).

(** [Get]: the item, which [splice] moves to the front. *)
Definition Get c key : res (MRUCache * option P) :=
  match index_ c !! key with
  | None => Ok (c, None)
  | Some it =>
    match node_at c it with
    | Some (i, x) => Ok (mkCache (x :: delete i (ordering_ c)) (index_ c) (max_size_ c) (next_node c), Some x.2.2)
    | None => Undef
    end
  end.

Definition Peek c key : res (option P) :=
  match index_ c !! key with
  | None => Ok None
  | Some it => match node_at c it with Some (_, x) => Ok (Some x.2.2) | None => Undef end
  end.

Definition Clear c : MRUCache := mkCache [] ∅ (max_size_ c) (next_node c).
Definition cache_empty c : bool := bool_decide (ordering_ c = []).
Definition Swap c1 c2 : MRUCache * MRUCache := (c2, c1).

(** ** The contract: a list of items with distinct keys, the latest used first *)
Abbreviation items := (list (K * P)).
Implicit Types (l : items).

Definition without key l : items := filter (fun x => x.1 <> key) l.
Definition value_of key l : option P := snd <$> head (filter (fun x => x.1 = key) l).

Definition spec_put (max_size : nat) key payload l : items :=
  (key, payload) ::
  (if bool_decide (value_of key l = None) then if bool_decide (max_size = 0) then l else take (max_size - 1) l
   else without key l).

Definition spec_get key l : items :=
  match value_of key l with Some p => (key, p) :: without key l | None => l end.

(** The index holds exactly the places of the keys. *)
Definition cache_ok c l : Prop :=
  snd <$> ordering_ c = l /\ NoDup (fst <$> ordering_ c) /\ NoDup (fst <$> l) /\
  Forall (fun x => x.1 < next_node c) (ordering_ c) /\
  (forall key id, index_ c !! key = Some id <-> exists p, (id, (key, p)) ∈ ordering_ c).

Lemma value_of_Some key l p : NoDup (fst <$> l) -> (key, p) ∈ l -> value_of key l = Some p.
Proof.
  induction l as [|[k q] l IH]; [by intros _ ?%elem_of_nil|]. cbn. intros [Hk Hn]%list.NoDup_cons Hin.
  unfold value_of. rewrite filter_cons. case_decide as E; cbn in E.
  - subst k. apply elem_of_cons in Hin as [[= <-]|Hin]; [done|]. exfalso. apply Hk. by apply (list_elem_of_fmap_2 fst) in Hin.
  - apply elem_of_cons in Hin as [[= <- _]|Hin]; [done|]. by apply IH.
Qed.

Lemma value_of_elem key l p : value_of key l = Some p -> (key, p) ∈ l.
Proof.
  unfold value_of. destruct (filter _ l) as [|[k q] r] eqn:E; [done|]. cbn. intros [= ->].
  assert (Hin : (k, p) ∈ filter (fun x => x.1 = key) l) by (rewrite E; by constructor).
  apply list_elem_of_filter in Hin as [Hk Hin]. cbn in Hk. by subst k.
Qed.

Lemma index_value c l key : cache_ok c l -> index_ c !! key = None <-> value_of key l = None.
Proof.
  intros (El & _ & Hk & _ & Hi). split.
  - intros Hn. destruct (value_of key l) as [p|] eqn:E; [|done]. apply value_of_elem in E. subst l.
    apply list_elem_of_fmap in E as ([id x] & Ex & Hx). cbn in Ex. subst x.
    assert (index_ c !! key = Some id) by (apply Hi; eauto). congruence.
  - intros Hn. destruct (index_ c !! key) as [id|] eqn:E; [|done]. apply Hi in E as [p Hp].
    rewrite (value_of_Some key l p) in Hn; [done|done|]. subst l. by apply (list_elem_of_fmap_2 snd) in Hp.
Qed.

Lemma node_at_elem c l id x : cache_ok c l -> (id, x) ∈ ordering_ c ->
  exists i, node_at c id = Some (i, (id, x)) /\ ordering_ c !! i = Some (id, x).
Proof.
  intros (_ & Hn & _) Hin. apply list_elem_of_lookup in Hin as [i Hx]. exists i. split; [|done].
  apply list_find_Some. split_and!; [done|done|]. intros j y Hy Hj E. assert (j = i); [|lia].
  eapply NoDup_lookup; [exact Hn|by rewrite list_lookup_fmap, Hy|]. by rewrite list_lookup_fmap, Hx, <- E.
Qed.

Lemma keys_NoDup (o : list (nat * (K * P))) : NoDup (fst <$> (snd <$> o)) ->
  NoDup (fst <$> ((fun x : nat * (K * P) => (x.2.1, x.1)) <$> o)).
Proof. intros Hk. rewrite <- list_fmap_compose in Hk. rewrite <- list_fmap_compose. exact Hk. Qed.

Lemma index_list c l : cache_ok c l ->
  index_ c = list_to_map ((fun x : nat * (K * P) => (x.2.1, x.1)) <$> ordering_ c).
Proof.
  intros (El & _ & Hk & _ & Hi). apply map_eq. intros key. apply option_eq. intros id. rewrite Hi.
  rewrite <- elem_of_list_to_map; cycle 1.
  { subst l. by apply keys_NoDup. }
  rewrite list_elem_of_fmap. split.
  - intros [p Hp]. by exists (id, (key, p)).
  - intros ([id' [k p]] & [= -> ->] & Hp). by exists p.
Qed.

Lemma cache_size_ok c l : cache_ok c l -> cache_size c = Ok (length l).
Proof.
  intros Hc. pose proof Hc as (El & _ & Hk & _). unfold cache_size.
  assert (Hs : size (index_ c) = length (ordering_ c)).
  { rewrite (index_list c l Hc), map_size_list_to_map, length_fmap; [done|]. subst l. by apply keys_NoDup. }
  rewrite bool_decide_eq_true_2 by done. cbn. f_equal. rewrite Hs. subst l. by rewrite length_fmap.
Qed.

Lemma without_split key p (a b : items) : NoDup (fst <$> (a ++ (key, p) :: b)) -> without key (a ++ (key, p) :: b) = a ++ b.
Proof.
  intros Hn. rewrite fmap_app, fmap_cons, <- Permutation_middle, <- fmap_app in Hn. apply list.NoDup_cons in Hn as [Hk _]. cbn in Hk.
  unfold without. rewrite filter_app, filter_cons_False by (cbn; naive_solver). rewrite <- filter_app.
  revert Hk. generalize (a ++ b). clear. induction l as [|[k q] l IH]; [done|].
  rewrite fmap_cons. intros [Hk Hl]%not_elem_of_cons. cbn in Hk. rewrite filter_cons_True by (cbn; congruence). by rewrite IH.
Qed.

(** Taking one node out. *)
Lemma Erase_ok c a id key p b l : cache_ok c l -> ordering_ c = a ++ (id, (key, p)) :: b ->
  Erase c id = Ok (mkCache (a ++ b) (delete key (index_ c)) (max_size_ c) (next_node c)) /\
  cache_ok (mkCache (a ++ b) (delete key (index_ c)) (max_size_ c) (next_node c)) (snd <$> (a ++ b)).
Proof.
  intros Hc Eo. pose proof Hc as (El & Hn & Hk & Hf & Hi).
  destruct (node_at_elem c l id (key, p) Hc) as (i & Ei & Hx); [rewrite Eo; set_solver|].
  assert (i = length a) as ->.
  { eapply NoDup_lookup; [exact Hn|by rewrite list_lookup_fmap, Hx|].
    rewrite list_lookup_fmap, Eo, list_lookup_middle by done. done. }
  split.
  { unfold Erase. rewrite Ei, Eo. cbn [snd fst]. by rewrite delete_middle. }
  assert (Hn' : NoDup (id :: (fst <$> (a ++ b)))) by (rewrite Eo, fmap_app, fmap_cons, <- Permutation_middle, <- fmap_app in Hn; exact Hn).
  assert (Hk' : NoDup (key :: (fst <$> (snd <$> (a ++ b))))).
  { rewrite <- El, Eo, !fmap_app, !fmap_cons, <- Permutation_middle, <- !fmap_app in Hk. exact Hk. }
  apply list.NoDup_cons in Hn' as [_ Hn'], Hk' as [Hnk Hk']. split_and!; cbn; [done|done|done| |].
  - rewrite Eo in Hf. apply Forall_app in Hf as [Hfa Hfb]. apply Forall_cons in Hfb as [_ Hfb]. by apply Forall_app.
  - intros k j. rewrite lookup_delete_Some, Hi, Eo. split.
    + intros [Hne [q Hq]]. exists q. set_solver.
    + intros [q Hq]. split; [|exists q; set_solver]. intros <-. apply Hnk.
      apply (list_elem_of_fmap_2 snd) in Hq. by apply (list_elem_of_fmap_2 fst) in Hq.
Qed.

Lemma Erase_last_ok c l x l' : cache_ok c l -> l = l' ++ [x] ->
  exists c', Erase_last c = Ok c' /\ max_size_ c' = max_size_ c /\ cache_ok c' l'.
Proof.
  intros Hc ->. pose proof Hc as (El & _). unfold Erase_last.
  destruct (ordering_ c) as [|[id [key p]] o _] eqn:Eo using rev_ind; [by destruct l'|].
  rewrite last_snoc. cbn [fst]. rewrite fmap_app in El. apply app_inj_tail in El as [<- _].
  destruct (Erase_ok c o id key p [] _ Hc Eo) as [-> H1]. rewrite app_nil_r in *. by eexists.
Qed.

Lemma shrink_loop_ok n : forall c l, cache_ok c l -> n <= length l ->
  exists c', shrink_loop n c = Ok c' /\ max_size_ c' = max_size_ c /\ cache_ok c' (take (length l - n) l).
Proof.
  induction n as [|n IH]; intros c l Hc Hn; cbn [shrink_loop].
  { exists c. rewrite Nat.sub_0_r, firstn_all. done. }
  destruct l as [|x l _] using rev_ind; [cbn in Hn; lia|]. rewrite length_app in Hn. cbn in Hn.
  destruct (Erase_last_ok c _ x l Hc eq_refl) as (c1 & -> & E1 & H1). destruct (IH c1 l H1) as (c2 & E2 & M2 & H2); [lia|].
  exists c2. cbn [mbind res_bind]. rewrite E2. split_and!; [done|congruence|].
  rewrite length_app, take_app_le by (cbn; lia). replace (length l + length [x] - S n) with (length l - n) by (cbn; lia). done.
Qed.

Lemma ShrinkToSize_ok c l n : cache_ok c l ->
  exists c', ShrinkToSize c n = Ok c' /\ max_size_ c' = max_size_ c /\ cache_ok c' (take n l).
Proof.
  intros Hc. unfold ShrinkToSize. rewrite (cache_size_ok c l Hc). cbn [mbind res_bind].
  destruct (shrink_loop_ok (length l - n) c l Hc) as (c' & E & M & H1); [lia|]. exists c'. split_and!; [done|done|].
  destruct (decide (length l <= n)).
  - rewrite (take_ge l n) by lia. by replace (length l - (length l - n)) with (length l) in H1 by lia; rewrite firstn_all in H1.
  - by replace (length l - (length l - n)) with n in H1 by lia.
Qed.

(** A new item in front. *)
Lemma push_ok c l key payload : cache_ok c l -> value_of key l = None ->
  cache_ok (mkCache ((next_node c, (key, payload)) :: ordering_ c) (index_emplace (index_ c) key (next_node c))
              (max_size_ c) (S (next_node c))) ((key, payload) :: l).
Proof.
  intros Hc Hv. pose proof (proj2 (index_value c l key Hc) Hv) as Hx. pose proof Hc as (El & Hn & Hk & Hf & Hi).
  unfold index_emplace. rewrite Hx. split_and!; cbn.
  - by f_equal.
  - constructor; [|done]. intros Hin. apply list_elem_of_fmap in Hin as (x & E & Hin).
    pose proof (proj1 (Forall_forall _ _) Hf x Hin). cbn in *. lia.
  - constructor; [|done]. intros Hin. apply list_elem_of_fmap in Hin as ([k q] & E & Hin). cbn in E. subst k.
    by rewrite (value_of_Some key l q) in Hv.
  - constructor; [cbn; lia|]. eapply Forall_impl; [exact Hf|]. intros x Hx'. cbn in *. lia.
  - intros k j. rewrite lookup_insert_Some, Hi. split.
    + intros [[<- <-]|[Hne [q Hq]]]; [exists payload; by constructor|exists q; by constructor].
    + intros [q Hq]. apply elem_of_cons in Hq as [[= -> -> ->]|Hq]; [by left|]. right. split; [|by exists q].
      intros <-. assert (index_ c !! key = Some j) by (apply Hi; eauto). congruence.
Qed.

(** The place of a key that is there. *)
Lemma index_place c l key id : cache_ok c l -> index_ c !! key = Some id ->
  exists a p b, ordering_ c = a ++ (id, (key, p)) :: b /\ value_of key l = Some p /\ without key l = snd <$> (a ++ b) /\
    node_at c id = Some (length a, (id, (key, p))).
Proof.
  intros Hc Hid. pose proof Hc as (El & Hn & Hk & _ & Hi). apply Hi in Hid as [p Hp].
  destruct (node_at_elem c l id (key, p) Hc Hp) as (i & Ei & Hx).
  pose proof (list_elem_of_split_length _ _ _ Hx) as (a & b & Eo & Ea). exists a, p, b. subst i. split_and!; [done| | |done].
  - apply value_of_Some; [done|]. subst l. by apply (list_elem_of_fmap_2 snd) in Hp.
  - subst l. rewrite Eo, fmap_app, fmap_cons in Hk |- *. cbn in Hk |- *. rewrite (without_split key p) by done. by rewrite fmap_app.
Qed.

Lemma value_of_without key l : value_of key (without key l) = None.
Proof.
  destruct (value_of key (without key l)) as [p|] eqn:E; [|done]. apply value_of_elem in E.
  apply list_elem_of_filter in E as [E _]. done.
Qed.

Lemma value_of_take key l n : value_of key l = None -> value_of key (take n l) = None.
Proof.
  intros Hv. destruct (value_of key (take n l)) as [p|] eqn:E; [|done]. apply value_of_elem in E.
  exfalso. revert Hv E. clear. revert n.
  induction l as [|[k q] l IH]; intros [|n]; [by intros _ ?%elem_of_nil..|]. cbn [take].
  unfold value_of. rewrite filter_cons. case_decide as Ek; [done|]. cbn in Ek. intros Hv [[= -> ->]|Hin]%elem_of_cons; [done|].
  by eapply IH.
Qed.

Lemma Put_ok c l key payload : cache_ok c l ->
  exists c', Put c key payload = Ok c' /\ max_size_ c' = max_size_ c /\ cache_ok c' (spec_put (max_size_ c) key payload l).
Proof.
  intros Hc. unfold Put, spec_put. destruct (index_ c !! key) as [id|] eqn:Ei.
  - destruct (index_place c l key id Hc Ei) as (a & p & b & Eo & Ev & Ew & _).
    destruct (Erase_ok c a id key p b l Hc Eo) as [-> H1]. cbn [mbind res_bind]. eexists. split; [done|]. split; [done|].
    rewrite bool_decide_eq_false_2 by congruence. rewrite Ew. apply (push_ok _ _ key payload H1). rewrite <- Ew. apply value_of_without.
  - pose proof (proj1 (index_value c l key Hc) Ei) as Ev. rewrite (bool_decide_eq_true_2 (value_of key l = None)) by done.
    case_bool_decide as Em; unfold NO_AUTO_EVICT in Em.
    + destruct (ShrinkToSize_ok c l (max_size_ c - 1) Hc) as (c1 & -> & M1 & H1). cbn [mbind res_bind].
      eexists. split; [done|]. split; [done|]. rewrite bool_decide_eq_false_2 by done.
      apply (push_ok _ _ key payload H1). by apply value_of_take.
    + cbn [mbind res_bind]. eexists. split; [done|]. split; [done|]. rewrite bool_decide_eq_true_2 by lia. by apply push_ok.
Qed.

Lemma Get_ok c l key : cache_ok c l ->
  exists c', Get c key = Ok (c', value_of key l) /\ max_size_ c' = max_size_ c /\ cache_ok c' (spec_get key l).
Proof.
  intros Hc. unfold Get, spec_get. destruct (index_ c !! key) as [id|] eqn:Ei; cycle 1.
  { rewrite (proj1 (index_value c l key Hc) Ei). by exists c. }
  destruct (index_place c l key id Hc Ei) as (a & p & b & Eo & -> & -> & ->). pose proof Hc as (El & Hn & Hk & Hf & Hi).
  rewrite Eo, delete_middle. cbn [snd]. eexists. split; [done|]. split; [done|].
  assert (Hp : (id, (key, p)) :: a ++ b ≡ₚ ordering_ c) by (rewrite Eo; apply Permutation_middle).
  split_and!; cbn [ordering_ index_ next_node].
  - done.
  - by rewrite Hp.
  - change ((key, p) :: (snd <$> (a ++ b))) with (snd <$> ((id, (key, p)) :: a ++ b)). rewrite Hp, El. done.
  - by rewrite Hp.
  - intros k j. rewrite Hi. by setoid_rewrite Hp.
Qed.

Lemma Peek_ok c l key : cache_ok c l -> Peek c key = Ok (value_of key l).
Proof.
  intros Hc. unfold Peek. destruct (index_ c !! key) as [id|] eqn:Ei.
  - by destruct (index_place c l key id Hc Ei) as (a & p & b & Eo & -> & _ & ->).
  - by rewrite (proj1 (index_value c l key Hc) Ei).
Qed.

(** *** Sequences of calls *)
Inductive cop := CPut (key : K) (payload : P) | CGet (key : K) | CErase (key : K) | CShrink (n : nat) | CClear.

(** [CErase] erases what [Peek] finds; a client does not erase the end. *)
Definition cop_run (o : cop) c : res MRUCache :=
  match o with
  | CPut key payload => Put c key payload
  | CGet key => r ← Get c key; Ok r.1
  | CErase key => match index_ c !! key with Some it => Erase c it | None => Ok c end
  | CShrink n => ShrinkToSize c n
  | CClear => Ok (Clear c)
  end.

Definition cop_spec (max_size : nat) (o : cop) l : items :=
  match o with
  | CPut key payload => spec_put max_size key payload l
  | CGet key => spec_get key l
  | CErase key => without key l
  | CShrink n => take n l
  | CClear => []
  end.

Fixpoint cops_run (os : list cop) c : res MRUCache :=
  match os with [] => Ok c | o :: os => c ← cop_run o c; cops_run os c end.

Definition cops_spec (max_size : nat) (os : list cop) l : items := foldl (fun l o => cop_spec max_size o l) l os.

Lemma without_absent key l : value_of key l = None -> without key l = l.
Proof.
  induction l as [|[k q] l IH]; [done|]. unfold value_of, without. rewrite !filter_cons. cbn. intros Hv.
  repeat case_decide; try done. f_equal. by apply IH.
Qed.

Lemma cop_ok o c l : cache_ok c l ->
  exists c', cop_run o c = Ok c' /\ max_size_ c' = max_size_ c /\ cache_ok c' (cop_spec (max_size_ c) o l).
Proof.
  intros Hc. destruct o as [key payload|key|key|n|]; cbn [cop_run cop_spec].
  - by apply Put_ok.
  - destruct (Get_ok c l key Hc) as (c' & -> & M & H1). by exists c'.
  - destruct (index_ c !! key) as [id|] eqn:Ei.
    + destruct (index_place c l key id Hc Ei) as (a & p & b & Eo & _ & -> & _).
      destruct (Erase_ok c a id key p b l Hc Eo) as [-> H1]. by eexists.
    + rewrite without_absent by by apply (index_value c l key Hc). by exists c.
  - by apply ShrinkToSize_ok.
  - eexists. split; [done|]. split; [done|]. split_and!; cbn; [done|constructor|constructor|constructor|].
    intros k j. rewrite lookup_empty. split; [done|]. by intros [p ?%elem_of_nil].
Qed.

Lemma cops_ok os : forall c l, cache_ok c l ->
  exists c', cops_run os c = Ok c' /\ max_size_ c' = max_size_ c /\ cache_ok c' (cops_spec (max_size_ c) os l).
Proof.
  induction os as [|o os IH]; intros c l Hc; [by exists c|]. cbn [cops_run].
  destruct (cop_ok o c l Hc) as (c1 & -> & M1 & H1). cbn [mbind res_bind]. destruct (IH c1 _ H1) as (c2 & -> & M2 & H2).
  exists c2. rewrite M1 in *. by split_and!.
Qed.

Lemma without_shorter key l p : value_of key l = Some p -> length (without key l) < length l.
Proof.
  intros Hv. apply value_of_elem, list_elem_of_split in Hv as (a & b & ->). unfold without.
  rewrite filter_app, filter_cons_False by (cbn; naive_solver). rewrite !length_app. cbn [length].
  pose proof (length_filter (fun x : K * P => x.1 <> key) a). pose proof (length_filter (fun x : K * P => x.1 <> key) b). lia.
Qed.

Lemma spec_bounded max_size os : forall l, max_size <> 0 -> length l <= max_size -> length (cops_spec max_size os l) <= max_size.
Proof.
  induction os as [|o os IH]; intros l Hm Hl; [done|]. apply IH; [done|]. destruct o as [key p|key|key|n|]; cbn [cop_spec].
  - unfold spec_put. cbn. rewrite (bool_decide_eq_false_2 (max_size = 0)) by done. case_bool_decide as E.
    + rewrite length_take. lia.
    + destruct (value_of key l) as [q|] eqn:Ev; [|done]. pose proof (without_shorter key l q Ev). lia.
  - unfold spec_get. destruct (value_of key l) as [q|] eqn:Ev; [|done]. pose proof (without_shorter key l q Ev). cbn. lia.
  - pose proof (length_filter (fun x : K * P => x.1 <> key) l). unfold without. lia.
  - rewrite length_take. lia.
  - cbn. lia.
Qed.

(** C27: the cache is a list of items with distinct keys, the latest used first.  Whatever sequence of puts, gets, erasures, shrinks and clears is made, no invalid iterator is used and the check on the sizes holds; a put brings its item to the front, replacing the key's old one or, when the cache is full, evicting the least recently used; a get brings the item to the front; the cache never exceeds its maximum size; and [Peek] and [Get] return the value put last. *)
Theorem MRUCache_refines max_size os :
  let l := cops_spec max_size os [] in
  exists c, cops_run os (MRUCache_new max_size) = Ok c /\ snd <$> ordering_ c = l /\ NoDup (fst <$> l) /\
    cache_size c = Ok (length l) /\ (max_size <> NO_AUTO_EVICT -> length l <= max_size) /\
    forall key, Peek c key = Ok (value_of key l) /\
      exists c', Get c key = Ok (c', value_of key l) /\ snd <$> ordering_ c' = spec_get key l.
Proof.
  intros l. destruct (cops_ok os (MRUCache_new max_size) []) as (c & E & M & Hc).
  { split_and!; cbn; [done|constructor|constructor|constructor|]. intros k j. rewrite lookup_empty.
    split; [done|]. by intros [p ?%elem_of_nil]. }
  cbn in Hc. fold l in Hc. pose proof Hc as (El & _ & Hk & _). exists c. split_and!; [done|done|done|by apply cache_size_ok| |].
  - intros Hm. apply spec_bounded; [done|cbn; lia].
  - intros key. split; [by apply Peek_ok|]. destruct (Get_ok c l key Hc) as (c' & Eg & _ & Hc'). exists c'. split; [done|]. apply Hc'.
Qed.
End MRUCache.

Lemma MRUCache_example : exists c : MRUCache,
  cops_run (K := Z) (P := Z) [CPut 1%Z 10%Z; CPut 2%Z 20%Z; CGet 1%Z; CPut 3%Z 30%Z; CPut 1%Z 11%Z] (MRUCache_new 2) = Ok c /\
  snd <$> ordering_ c = [(1, 11); (3, 30)]%Z.
Proof. eexists. split; [vm_compute; reflexivity|reflexivity]. Qed.
