(* ===== verification/RingBuffer.v ===== *)
(** * The ring buffer

    [RingBuffer<T, kSize>] of [base/containers/ring_buffer.h] of [include/webrtc] and its
    iterators.  A slot that was never written holds no value; indices are [size_t]. *)

From S2P Require Import Prelude.
From stdpp Require Import list.
Local Open Scope Z_scope.

Section RingBuffer.
Context {T : Type} (kSize : Z).

Record RingBuffer := mkRing { buffer_ : list (option T); current_index_ : Z }.
Implicit Types (r : RingBuffer).

Definition RingBuffer_new : RingBuffer := mkRing (replicate (Z.to_nat kSize) None) 0.

Definition BufferIndex r (n : Z) : Z := u64 (current_index_ r + n) mod kSize.
Definition IsFilledIndexByBufferIndex r (buffer_index : Z) : bool := buffer_index <? current_index_ r.
Definition IsFilledIndex r (n : Z) : bool := IsFilledIndexByBufferIndex r (BufferIndex r n).

(** Reading a slot that was never written is undefined. *)
Definition ReadBuffer r (n : Z) : res T :=
  let buffer_index := BufferIndex r n in
  _ ← assert_ (IsFilledIndexByBufferIndex r buffer_index);
  match buffer_ r !! Z.to_nat buffer_index with Some (Some v) => Ok v | _ => Undef end.

(** [*MutableReadBuffer(n) = v]. *)
Definition WriteBuffer r (n : Z) (v : T) : res RingBuffer :=
  let buffer_index := BufferIndex r n in
  _ ← assert_ (IsFilledIndexByBufferIndex r buffer_index);
  Ok (mkRing (<[Z.to_nat buffer_index := Some v]> (buffer_ r)) (current_index_ r)).

Definition SaveToBuffer r (value : T) : RingBuffer :=
  mkRing (<[Z.to_nat (BufferIndex r 0) := Some value]> (buffer_ r)) (u64 (current_index_ r + 1)).

Definition RingBuffer_Clear r : RingBuffer := mkRing (buffer_ r) 0.

(** ** Iterators *)
Record Iterator := mkIter { it_index : Z; out_of_range_ : bool }.
Implicit Types (it : Iterator).

Definition it_next it : Iterator :=
  let i := u64 (it_index it + 1) in mkIter i (if i =? kSize then true else out_of_range_ it).

Definition it_prev it : Iterator :=
  mkIter (u64 (it_index it - 1)) (if it_index it =? 0 then true else out_of_range_ it).

Definition it_bool r it : bool := negb (out_of_range_ it) && IsFilledIndex r (it_index it).

Definition Begin r : Iterator :=
  if current_index_ r <? kSize then mkIter (u64 (kSize - current_index_ r)) false else mkIter 0 false.

Definition End_ r : Iterator := mkIter (kSize - 1) false.

(** The loops [for (it = start; it; ++it)] and with [--it]: the values met. *)
Fixpoint iterate (move : Iterator -> Iterator) (fuel : nat) r it : res (list T) :=
  if it_bool r it then
    match fuel with
    | O => Undef
    | S fuel => v ← ReadBuffer r (it_index it); l ← iterate move fuel r (move it); Ok (v :: l)
    end
  else Ok [].

(** ** The contract: the last values saved *)
Definition kept (vs : list T) : list T := drop (length vs - Z.to_nat kSize) vs.

(** The buffer after the values [vs] were saved. *)
Definition saved r (vs : list T) : Prop :=
  length (buffer_ r) = Z.to_nat kSize /\ current_index_ r = Z.of_nat (length vs) /\
  Z.of_nat (length vs) + kSize < 2 ^ 64 /\
  forall i v, vs !! i = Some v -> Z.of_nat (length vs) <= Z.of_nat i + kSize ->
    buffer_ r !! Z.to_nat (Z.of_nat i mod kSize) = Some (Some v).

Context (Hk : 0 < kSize).

Lemma BufferIndex_spec r vs n : saved r vs -> 0 <= n <= kSize -> BufferIndex r n = (Z.of_nat (length vs) + n) mod kSize.
Proof. intros (_ & Hc & Hb & _) Hn. unfold BufferIndex. rewrite Hc, wrapU_id; [done|]. unfold in_u. lia. Qed.

(** The [n]-th slot from the oldest holds a value once it was reached. *)
Lemma filled_spec r vs n : saved r vs -> 0 <= n < kSize ->
  IsFilledIndex r n = bool_decide (kSize <= Z.of_nat (length vs) + n).
Proof.
  intros Hs Hn. unfold IsFilledIndex, IsFilledIndexByBufferIndex. rewrite (BufferIndex_spec r vs) by (done || lia).
  destruct Hs as (_ & -> & _). pose proof (Z.mod_pos_bound (Z.of_nat (length vs) + n) kSize Hk) as Hm.
  case_bool_decide as E.
  - apply Z.ltb_lt. destruct (decide (kSize <= Z.of_nat (length vs))); [lia|].
    replace (Z.of_nat (length vs) + n) with (Z.of_nat (length vs) + n - kSize + 1 * kSize) by lia.
    rewrite Z.mod_add, Z.mod_small by lia. lia.
  - apply Z.ltb_ge. rewrite Z.mod_small by lia. lia.
Qed.

Lemma ReadBuffer_spec r vs n : saved r vs -> 0 <= n < kSize ->
  ReadBuffer r n = if bool_decide (kSize <= Z.of_nat (length vs) + n)
                   then match vs !! Z.to_nat (Z.of_nat (length vs) + n - kSize) with Some v => Ok v | None => Undef end
                   else Crash.
Proof.
  intros Hs Hn. pose proof (filled_spec r vs n Hs Hn) as Hf. unfold IsFilledIndex in Hf. unfold ReadBuffer. rewrite Hf.
  case_bool_decide as E; [|done]. cbn. rewrite (BufferIndex_spec r vs) by (done || lia).
  destruct (lookup_lt_is_Some_2 vs (Z.to_nat (Z.of_nat (length vs) + n - kSize))) as [v Hv]; [lia|]. rewrite Hv.
  destruct Hs as (_ & _ & _ & Hb). pose proof (Hb _ _ Hv ltac:(lia)) as Hx. rewrite Z2Nat.id in Hx by lia.
  replace (Z.of_nat (length vs) + n) with (Z.of_nat (length vs) + n - kSize + 1 * kSize) by lia.
  rewrite Z.mod_add by lia. by rewrite Hx.
Qed.

Lemma new_saved : kSize < 2 ^ 64 -> saved RingBuffer_new [].
Proof. intros Hb. split_and!; cbn; [by rewrite length_replicate|done|lia|done]. Qed.

Lemma clear_saved r vs : saved r vs -> saved (RingBuffer_Clear r) [].
Proof. intros (Hl & _ & Hb & _). split_and!; cbn; [done|done|lia|done]. Qed.

Lemma save_saved r vs v : saved r vs -> Z.of_nat (length vs) + 1 + kSize < 2 ^ 64 -> saved (SaveToBuffer r v) (vs ++ [v]).
Proof.
  intros Hs Hn. pose proof (BufferIndex_spec r vs 0 Hs ltac:(lia)) as Hi. destruct Hs as (Hl & Hc & Hb & Hv).
  rewrite Z.add_0_r in Hi. unfold SaveToBuffer. rewrite Hi, Hc.
  pose proof (Z.mod_pos_bound (Z.of_nat (length vs)) kSize Hk) as Hm. split_and!; cbn [buffer_ current_index_].
  - by rewrite length_insert.
  - rewrite length_app. cbn. rewrite wrapU_id; [lia|unfold in_u; lia].
  - rewrite length_app. cbn. lia.
  - intros i x Hx Hle. rewrite length_app in Hle. cbn in Hle. apply lookup_snoc_Some in Hx as [[Hlt Hx]|[-> ->]].
    + pose proof (Z.mod_pos_bound (Z.of_nat i) kSize Hk). rewrite list_lookup_insert_ne; [apply Hv; [done|lia]|].
      intros E. apply Z2Nat.inj in E; [|lia|lia].
      pose proof (Z.div_mod (Z.of_nat i) kSize ltac:(lia)). pose proof (Z.div_mod (Z.of_nat (length vs)) kSize ltac:(lia)).
      assert (Hd : kSize * (Z.of_nat (length vs) / kSize - Z.of_nat i / kSize) = Z.of_nat (length vs) - Z.of_nat i) by lia.
      set (d := Z.of_nat (length vs) / kSize - Z.of_nat i / kSize) in *. assert (0 < d < 1) by nia. lia.
    + rewrite list_lookup_insert_eq by lia. done.
Qed.

(** The first slot that holds a value, counted from the oldest. *)
Definition first_filled (vs : list T) : Z := Z.max 0 (kSize - Z.of_nat (length vs)).

Lemma kept_length vs : Z.of_nat (length (kept vs)) = kSize - first_filled vs.
Proof. unfold kept, first_filled. rewrite length_drop. lia. Qed.

(** The slots hold the kept values in order; those before are empty. *)
Lemma ReadBuffer_kept r vs (j : nat) v : saved r vs -> kept vs !! j = Some v ->
  IsFilledIndex r (first_filled vs + Z.of_nat j) = true /\ ReadBuffer r (first_filled vs + Z.of_nat j) = Ok v.
Proof.
  intros Hs Hv. pose proof (lookup_lt_Some _ _ _ Hv) as Hj. pose proof (kept_length vs) as Hl.
  assert (Hn : 0 <= first_filled vs + Z.of_nat j < kSize) by (unfold first_filled in *; lia).
  assert (He : kSize <= Z.of_nat (length vs) + (first_filled vs + Z.of_nat j)) by (unfold first_filled in *; lia).
  rewrite (filled_spec r vs) by done. rewrite (ReadBuffer_spec r vs) by done.
  rewrite !bool_decide_eq_true_2 by done. split; [done|]. unfold kept in Hv. rewrite lookup_drop in Hv.
  replace (Z.to_nat (Z.of_nat (length vs) + (first_filled vs + Z.of_nat j) - kSize)) with (length vs - Z.to_nat kSize + j)%nat
    by (unfold first_filled; lia). by rewrite Hv.
Qed.

Lemma it_next_eq i : it_next (mkIter i false) = mkIter (u64 (i + 1)) (u64 (i + 1) =? kSize).
Proof. unfold it_next. cbn [it_index out_of_range_]. by destruct (_ =? kSize). Qed.

Lemma it_prev_eq i : it_prev (mkIter i false) = mkIter (u64 (i - 1)) (i =? 0).
Proof. unfold it_prev. cbn [it_index out_of_range_]. by destruct (i =? 0). Qed.

Lemma iterate_forward r vs : saved r vs -> forall m j fuel, (m + j = length (kept vs))%nat -> (m <= fuel)%nat ->
  iterate it_next fuel r (mkIter (first_filled vs + Z.of_nat j) (first_filled vs + Z.of_nat j =? kSize))
  = Ok (drop j (kept vs)).
Proof.
  intros Hs. pose proof (kept_length vs) as Hl. pose proof Hs as (_ & _ & Hb & _).
  induction m as [|m IH]; intros j fuel Hm Hf.
  - replace (first_filled vs + Z.of_nat j) with kSize by lia. rewrite Z.eqb_refl, drop_ge by lia. by destruct fuel.
  - destruct fuel as [|fuel]; [lia|].
    destruct (lookup_lt_is_Some_2 (kept vs) j) as [v Hv]; [lia|]. destruct (ReadBuffer_kept r vs j v Hs Hv) as [Hi Hr].
    assert (Hn : (first_filled vs + Z.of_nat j =? kSize) = false) by (apply Z.eqb_neq; lia).
    rewrite Hn. cbn [iterate]. unfold it_bool. cbn [out_of_range_ it_index negb andb]. rewrite Hi, Hr. cbn [mbind res_bind].
    assert (Hu : u64 (first_filled vs + Z.of_nat j + 1) = first_filled vs + Z.of_nat (S j)).
    { rewrite wrapU_id; [lia|]. unfold in_u, first_filled in *. lia. }
    rewrite it_next_eq, Hu, (IH (S j) fuel) by lia. cbn. by rewrite (drop_S _ _ _ Hv).
Qed.

Lemma iterate_backward r vs : saved r vs -> forall j fuel, (j <= length (kept vs))%nat -> (j <= fuel)%nat ->
  iterate it_prev fuel r (mkIter (u64 (first_filled vs + Z.of_nat j - 1)) (first_filled vs + Z.of_nat j =? 0))
  = Ok (reverse (take j (kept vs))).
Proof.
  intros Hs. pose proof (kept_length vs) as Hl. pose proof Hs as (_ & _ & Hb & _).
  induction j as [|j IH]; intros fuel Hj Hf.
  - rewrite Z.add_0_r. assert (E : it_bool r (mkIter (u64 (first_filled vs - 1)) (first_filled vs =? 0)) = false).
    { unfold it_bool. cbn [out_of_range_ it_index]. destruct (first_filled vs =? 0) eqn:E; [done|]. bool_prop. cbn [negb andb].
      rewrite wrapU_id by (unfold in_u, first_filled in *; lia).
      rewrite (filled_spec r vs) by (done || (unfold first_filled in *; lia)). apply bool_decide_eq_false_2.
      unfold first_filled in *. lia. }
    destruct fuel; cbn [iterate]; by rewrite E.
  - destruct fuel as [|fuel]; [lia|].
    destruct (lookup_lt_is_Some_2 (kept vs) j) as [v Hv]; [lia|]. destruct (ReadBuffer_kept r vs j v Hs Hv) as [Hi Hr].
    assert (Hn : (first_filled vs + Z.of_nat (S j) =? 0) = false) by (apply Z.eqb_neq; unfold first_filled; lia).
    assert (Hu : u64 (first_filled vs + Z.of_nat (S j) - 1) = first_filled vs + Z.of_nat j).
    { rewrite wrapU_id; [lia|]. unfold in_u, first_filled in *. lia. }
    rewrite Hn, Hu. cbn [iterate]. unfold it_bool. cbn [out_of_range_ it_index negb andb]. rewrite Hi, Hr. cbn [mbind res_bind].
    rewrite it_prev_eq, (IH fuel) by lia. cbn. by rewrite (take_S_r _ _ _ Hv), reverse_snoc.
Qed.

(** *** Sequences of calls *)
Inductive rop := RSave (v : T) | RClear.

Fixpoint ring_run (os : list rop) r : RingBuffer :=
  match os with
  | [] => r
  | RSave v :: os => ring_run os (SaveToBuffer r v)
  | RClear :: os => ring_run os (RingBuffer_Clear r)
  end.

(** The values saved since the buffer was last cleared. *)
Fixpoint ring_values (os : list rop) (vs : list T) : list T :=
  match os with
  | [] => vs
  | RSave v :: os => ring_values os (vs ++ [v])
  | RClear :: os => ring_values os []
  end.

Lemma ring_run_saved os : forall r vs, saved r vs -> Z.of_nat (length vs + length os) + kSize < 2 ^ 64 ->
  saved (ring_run os r) (ring_values os vs).
Proof.
  induction os as [|[v|] os IH]; intros r vs Hs Hb; cbn [ring_run ring_values length] in *; [done|..].
  - apply IH; [apply save_saved; [done|lia]|]. rewrite length_app. cbn. lia.
  - eapply IH; [by eapply clear_saved|cbn; lia].
Qed.

(** A ring buffer holds the last [kSize] values saved since it was cleared.  Its iterators meet exactly these, from the oldest to the newest or back, and stop; reading slot [n] gives the value saved [kSize - n] calls ago, and fails the check when there were fewer calls. *)
Theorem RingBuffer_window os : Z.of_nat (length os) + kSize < 2 ^ 64 ->
  let r := ring_run os RingBuffer_new in let vs := ring_values os [] in
  iterate it_next (Z.to_nat kSize) r (Begin r) = Ok (kept vs) /\
  iterate it_prev (Z.to_nat kSize) r (End_ r) = Ok (reverse (kept vs)) /\
  forall n, 0 <= n < kSize ->
    ReadBuffer r n = if bool_decide (kSize <= Z.of_nat (length vs) + n)
                     then match vs !! Z.to_nat (Z.of_nat (length vs) + n - kSize) with Some v => Ok v | None => Undef end
                     else Crash.
Proof.
  intros Hb r vs. assert (Hs : saved r vs) by (apply ring_run_saved; [apply new_saved; lia|cbn; lia]).
  pose proof (kept_length vs) as Hl. pose proof Hs as (_ & Hc & Hw & _). split_and!.
  - assert (Hle : (length (kept vs) <= Z.to_nat kSize)%nat) by (unfold first_filled in *; lia).
    pose proof (iterate_forward r vs Hs (length (kept vs)) 0 (Z.to_nat kSize) ltac:(lia) Hle) as Hf.
    rewrite Z.add_0_r, drop_0 in Hf. unfold Begin. rewrite Hc. destruct (Z.of_nat (length vs) <? kSize) eqn:E; bool_prop.
    + rewrite wrapU_id by (unfold in_u; lia). replace (first_filled vs) with (kSize - Z.of_nat (length vs)) in Hf by (unfold first_filled; lia).
      destruct (kSize - Z.of_nat (length vs) =? kSize) eqn:E2; [|done]. bool_prop.
      assert (vs = []) as Evs by (destruct vs; [done|cbn in E2; lia]). rewrite Evs in *. cbn in Hc.
      unfold kept. rewrite drop_nil. destruct (Z.to_nat kSize) eqn:Ek; [lia|]. cbn [iterate].
      unfold it_bool, IsFilledIndex, IsFilledIndexByBufferIndex. rewrite (BufferIndex_spec r [] _ Hs) by (cbn; lia).
      cbn [it_index out_of_range_ negb andb length]. rewrite Hc.
      replace (_ <? 0) with false; [done|]. symmetry. apply Z.ltb_ge. apply Z.mod_pos_bound. lia.
    + replace (first_filled vs) with 0 in Hf by (unfold first_filled; lia).
      replace (0 =? kSize) with false in Hf by (symmetry; apply Z.eqb_neq; lia). done.
  - pose proof (iterate_backward r vs Hs (length (kept vs)) (Z.to_nat kSize) ltac:(lia) ltac:(unfold first_filled in *; lia)) as Hf.
    rewrite Hl, firstn_all in Hf. replace (first_filled vs + (kSize - first_filled vs)) with kSize in Hf by lia.
    rewrite wrapU_id in Hf by (unfold in_u; lia). replace (kSize =? 0) with false in Hf by (symmetry; apply Z.eqb_neq; lia). done.
  - intros n Hn. by apply ReadBuffer_spec.
Qed.
End RingBuffer.

Lemma RingBuffer_window_witness : let r := ring_run 3 [RSave 9; RClear; RSave 1; RSave 2; RSave 3; RSave 4] (RingBuffer_new 3) in
  iterate 3 (it_next 3) 3 r (Begin 3 r) = Ok [2; 3; 4] /\ ReadBuffer 3 r 0 = Ok 2.
Proof.
  destruct (RingBuffer_window 3 ltac:(lia) [RSave 9; RClear; RSave 1; RSave 2; RSave 3; RSave 4] ltac:(cbn; lia)) as (H1 & _ & H2).
  split; [exact H1|]. rewrite (H2 0) by lia. vm_compute. reflexivity.
Defined.
