(* ===== verification/LazyDeque.v ===== *)
(** * The lazily deallocated deque

    [LazilyDeallocatedDeque] of [base/task/sequence_manager/lazily_deallocated_deque.h] of
    [include/webrtc]: a queue kept in a chain of ring buffers that grows without copying
    and shrinks, at a limited rate, when asked to.  A ring keeps one slot free to tell full
    from empty.  The chain from [head_] along [next_] is a list of rings, and [tail_] is its
    last; a slot holds an object or raw memory; sizes are natural numbers, since they count
    slots that are allocated and so stay far below the range of [size_t].  A failed [DCHECK] is [Crash], the use of a slot that holds no
    object is [Undef]. *)

From S2P Require Import Prelude.
From stdpp Require Import list.
Local Open Scope nat_scope.

Definition kMinimumRingSize : nat := 4.
Definition kReclaimThreshold : nat := 16.
(** Time is counted in microseconds. *)
Definition kMinimumShrinkInterval : Z := 5 * 1000000.

Section deque.
Context {T : Type}.

(** ** [Ring] *)
Record Ring := mkRing { capacity_ : nat; front_index_ : nat; back_index_ : nat; data_ : list (option T) }.

Definition Ring_new (capacity : nat) : res Ring :=
  _ ← assert_ (kMinimumRingSize <=? capacity);
  Ok {| capacity_ := capacity; front_index_ := 0; back_index_ := 0; data_ := replicate capacity None |}.

Definition Ring_empty (r : Ring) : bool := back_index_ r =? front_index_ r.
Definition CircularDecrement (r : Ring) (index : nat) : nat := if index =? 0 then capacity_ r - 1 else index - 1.
Definition CircularIncrement (r : Ring) (index : nat) : res nat :=
  _ ← assert_ (index <? capacity_ r);
  Ok (if S index =? capacity_ r then 0 else S index).
Definition CanPush (r : Ring) : res bool :=
  i ← CircularIncrement r (back_index_ r); Ok (negb (front_index_ r =? i)).
Definition CanPop (r : Ring) : bool := negb (front_index_ r =? back_index_ r).

Definition put (i : nat) (x : option T) (r : Ring) : res Ring :=
  _ ← defined (i <? length (data_ r));
  Ok {| capacity_ := capacity_ r; front_index_ := front_index_ r; back_index_ := back_index_ r; data_ := <[i := x]> (data_ r) |}.
Definition get (i : nat) (r : Ring) : res T := match data_ r !! i with Some (Some x) => Ok x | _ => Undef end.
Definition set_front (i : nat) (r : Ring) : Ring :=
  {| capacity_ := capacity_ r; front_index_ := i; back_index_ := back_index_ r; data_ := data_ r |}.
Definition set_back (i : nat) (r : Ring) : Ring :=
  {| capacity_ := capacity_ r; front_index_ := front_index_ r; back_index_ := i; data_ := data_ r |}.

Definition Ring_push_front (x : T) (r : Ring) : res Ring :=
  _ ← assert_ (negb (CircularDecrement r (front_index_ r) =? back_index_ r));
  r ← put (front_index_ r) (Some x) r;
  Ok (set_front (CircularDecrement r (front_index_ r)) r).
Definition Ring_push_back (x : T) (r : Ring) : res Ring :=
  i ← CircularIncrement r (back_index_ r);
  let r := set_back i r in
  _ ← assert_ (negb (Ring_empty r));
  put i (Some x) r.
Definition Ring_pop_front (r : Ring) : res Ring :=
  _ ← assert_ (negb (Ring_empty r));
  i ← CircularIncrement r (front_index_ r);
  _ ← get i r;
  put i None (set_front i r).
(** [~Ring]: the loop destroys what is left.  The capacity is more turns than a ring has
    elements; a loop that needs more would never end. *)
Fixpoint Ring_drain (fuel : nat) (r : Ring) : res unit :=
  if Ring_empty r then Ok tt
  else match fuel with 0 => Undef | S fuel => r ← Ring_pop_front r; Ring_drain fuel r end.
Definition Ring_delete (r : Ring) : res unit := Ring_drain (capacity_ r) r.
Definition Ring_front (r : Ring) : res T :=
  _ ← assert_ (negb (Ring_empty r));
  i ← CircularIncrement r (front_index_ r);
  get i r.
Definition Ring_back (r : Ring) : res T :=
  _ ← assert_ (negb (Ring_empty r));
  get (back_index_ r) r.

(** ** The deque *)
Record LazilyDeallocatedDeque := mkDeque {
  rings : list Ring;
  size_ : nat;
  max_size_ : nat;
  next_resize_time_ : Z }.

Definition Deque_new : LazilyDeallocatedDeque := {| rings := []; size_ := 0; max_size_ := 0; next_resize_time_ := 0 |}.
Definition empty (d : LazilyDeallocatedDeque) : bool := size_ d =? 0.
Definition size (d : LazilyDeallocatedDeque) : nat := size_ d.
Definition max_size (d : LazilyDeallocatedDeque) : nat := max_size_ d.
Definition capacity (d : LazilyDeallocatedDeque) : nat := foldl (fun capacity r => capacity + capacity_ r) 0 (rings d).
(** [while (head_) head_ = std::move(head_->next_)]: each ring is destroyed in turn. *)
Fixpoint drop_rings (rs : list Ring) : res unit :=
  match rs with [] => Ok tt | r :: rs => _ ← Ring_delete r; drop_rings rs end.
Definition clear (d : LazilyDeallocatedDeque) : res LazilyDeallocatedDeque :=
  _ ← drop_rings (rings d);
  Ok {| rings := []; size_ := 0; max_size_ := max_size_ d; next_resize_time_ := next_resize_time_ d |}.

(** The chain after an operation that adds one element. *)
Definition pushed (rs : list Ring) (d : LazilyDeallocatedDeque) : LazilyDeallocatedDeque :=
  {| rings := rs; size_ := S (size_ d); max_size_ := max (max_size_ d) (S (size_ d)); next_resize_time_ := next_resize_time_ d |}.
(** The first ring, made when there is none. *)
Definition ensure_ring (rs : list Ring) : res (list Ring) :=
  match rs with [] => r ← Ring_new kMinimumRingSize; Ok [r] | _ => Ok rs end.

Definition push_front (x : T) (d : LazilyDeallocatedDeque) : res LazilyDeallocatedDeque :=
  rs ← ensure_ring (rings d);
  match rs with
  | [] => Crash
  | head :: next =>
      can ← CanPush head;
      '(head, next) ← (if can : bool then Ok (head, next) else r ← Ring_new kMinimumRingSize; Ok (r, head :: next));
      head ← Ring_push_front x head;
      Ok (pushed (head :: next) d)
  end.

Definition push_back (x : T) (d : LazilyDeallocatedDeque) : res LazilyDeallocatedDeque :=
  rs ← ensure_ring (rings d);
  match last rs with
  | None => Crash
  | Some tail =>
      can ← CanPush tail;
      if can : bool then tail ← Ring_push_back x tail; Ok (pushed (removelast rs ++ [tail]) d)
      else r ← Ring_new (2 + capacity_ tail + capacity_ tail / 2);
           r ← Ring_push_back x r;
           Ok (pushed (rs ++ [r]) d)
  end.

Definition front (d : LazilyDeallocatedDeque) : res T := match rings d with [] => Crash | head :: _ => Ring_front head end.
Definition back (d : LazilyDeallocatedDeque) : res T := match last (rings d) with None => Crash | Some tail => Ring_back tail end.

Definition pop_front (d : LazilyDeallocatedDeque) : res LazilyDeallocatedDeque :=
  match rings d with
  | [] => Crash
  | head :: next =>
      _ ← assert_ (negb (Ring_empty head));
      _ ← assert_ (0 <? size_ d);
      head ← Ring_pop_front head;
      rs ← (if Ring_empty head && negb (bool_decide (next = [])) then _ ← Ring_delete head; Ok next else Ok (head :: next));
      Ok {| rings := rs; size_ := size_ d - 1; max_size_ := max_size_ d; next_resize_time_ := next_resize_time_ d |}
  end.

Definition swap (d other : LazilyDeallocatedDeque) : LazilyDeallocatedDeque * LazilyDeallocatedDeque := (other, d).

(** The loop of [SetCapacity]: [n] is the number of elements left. *)
Fixpoint move_all (n : nat) (new_ring : Ring) (d : LazilyDeallocatedDeque) : res (Ring * LazilyDeallocatedDeque) :=
  match n with
  | 0 => Ok (new_ring, d)
  | S n =>
      can ← CanPush new_ring;
      _ ← assert_ can;
      x ← front d;
      new_ring ← Ring_push_back x new_ring;
      d ← pop_front d;
      move_all n new_ring d
  end.
Definition SetCapacity (new_capacity : nat) (d : LazilyDeallocatedDeque) : res LazilyDeallocatedDeque :=
  new_ring ← Ring_new new_capacity;
  _ ← assert_ (size_ d + 1 <=? new_capacity);
  '(new_ring, d') ← move_all (size_ d) new_ring d;
  _ ← assert_ (length (rings d') <=? 1);
  _ ← drop_rings (rings d');
  Ok {| rings := [new_ring]; size_ := size_ d; max_size_ := max_size_ d'; next_resize_time_ := next_resize_time_ d' |}.

(** [now] is what the time source returns. *)
Definition MaybeShrinkQueue (now : Z) (d : LazilyDeallocatedDeque) : res LazilyDeallocatedDeque :=
  match rings d with
  | [] => Ok d
  | _ =>
      _ ← assert_ (size_ d <=? max_size_ d);
      if (now <? next_resize_time_ d)%Z then Ok d
      else
        let new_capacity := max (max_size_ d + 1) kMinimumRingSize in
        let d := {| rings := rings d; size_ := size_ d; max_size_ := size_ d; next_resize_time_ := next_resize_time_ d |} in
        if capacity d <=? new_capacity + kReclaimThreshold then Ok d
        else d ← SetCapacity new_capacity d;
             Ok {| rings := rings d; size_ := size_ d; max_size_ := max_size_ d;
                   next_resize_time_ := (now + kMinimumShrinkInterval)%Z |}
  end.

(** ** [Iterator]: the chain from [ring_] on, empty for a null pointer, and [index_] *)
Definition Iterator : Type := list Ring * nat.
Definition begin (d : LazilyDeallocatedDeque) : res Iterator :=
  match rings d with
  | [] => Ok ([], 0)
  | r :: _ => if Ring_empty r then Ok ([], 0) else i ← CircularIncrement r (front_index_ r); Ok (rings d, i)
  end.
Definition deref (it : Iterator) : res T := match it.1 with [] => Undef | r :: _ => get it.2 r end.
Definition advance (it : Iterator) : res Iterator :=
  match it.1 with
  | [] => Undef
  | r :: next =>
      if it.2 =? back_index_ r
      then match next with
           | [] => Ok ([], 0)
           | r' :: _ => i ← CircularIncrement r' (front_index_ r'); Ok (next, i)
           end
      else i ← CircularIncrement r it.2; Ok (it.1, i)
  end.
(** [for (it = begin(); it; ++it)]: the elements seen. *)
Fixpoint walk (fuel : nat) (it : Iterator) : option (res (list T)) :=
  match it.1 with
  | [] => Some (Ok [])
  | _ => match fuel with
         | 0 => None
         | S fuel =>
             match deref it, advance it with
             | Ok x, Ok it => l ← walk fuel it; Some (l ← l; Ok (x :: l))
             | _, _ => Some Undef
             end
         end
  end.
End deque.
Arguments Ring : clear implicits.
Arguments LazilyDeallocatedDeque : clear implicits.

(** ** Laws of a ring *)
Section laws.
Context {T : Type}.
Implicit Types (r : Ring T) (d : LazilyDeallocatedDeque T) (l : list T).

(** The slot [i] places after [f], around a ring of [c]. *)
Definition slot (c f i : nat) : nat := if f + i <? c then f + i else f + i - c.

(** A ring holds the elements of [l] after its front index. *)
Record ring_repr r l : Prop := {
  rr_min : kMinimumRingSize <= capacity_ r;
  rr_data : length (data_ r) = capacity_ r;
  rr_front : front_index_ r < capacity_ r;
  rr_len : length l < capacity_ r;
  rr_back : back_index_ r = slot (capacity_ r) (front_index_ r) (length l);
  rr_elems : forall i x, l !! i = Some x -> data_ r !! slot (capacity_ r) (front_index_ r) (S i) = Some (Some x) }.

Ltac slots := unfold slot, kMinimumRingSize in *; repeat case_match; rewrite ?Nat.ltb_lt, ?Nat.ltb_ge, ?Nat.eqb_eq, ?Nat.eqb_neq in *; lia.

Lemma inc_exact r i : i < capacity_ r -> CircularIncrement r i = Ok (slot (capacity_ r) i 1).
Proof.
  intros H. unfold CircularIncrement. rewrite (proj2 (Nat.ltb_lt _ _) H). cbn. f_equal. slots.
Qed.

Lemma slot_lt c f i : f < c -> i <= c -> slot c f i < c.
Proof. intros. slots. Qed.
Lemma slot_slot c f i j : f < c -> i + j <= c -> slot c (slot c f i) j = slot c f (i + j).
Proof. intros. slots. Qed.
Lemma slot_inj c f i j : f < c -> i < c -> j < c -> slot c f i = slot c f j -> i = j.
Proof. intros. slots. Qed.

Lemma Ring_empty_exact r l : ring_repr r l -> Ring_empty r = bool_decide (l = []).
Proof.
  intros H. unfold Ring_empty. rewrite (rr_back _ _ H). pose proof (rr_front _ _ H). pose proof (rr_len _ _ H).
  apply eq_true_iff_eq. rewrite Nat.eqb_eq, bool_decide_eq_true. rewrite <- length_zero_iff_nil. slots.
Qed.

Lemma CanPush_exact r l : ring_repr r l -> CanPush r = Ok (S (length l) <? capacity_ r).
Proof.
  intros H. pose proof (rr_front _ _ H). pose proof (rr_len _ _ H). unfold CanPush. rewrite (rr_back _ _ H).
  rewrite inc_exact by (apply slot_lt; lia). cbn [mbind res_bind]. f_equal. rewrite slot_slot by lia. apply eq_true_iff_eq.
  rewrite negb_true_iff, Nat.eqb_neq, Nat.ltb_lt. slots.
Qed.

Lemma Ring_new_exact c : kMinimumRingSize <= c -> exists r, Ring_new c = Ok r /\ ring_repr r [] /\ capacity_ r = c.
Proof.
  intros H. unfold Ring_new. rewrite (proj2 (Nat.leb_le _ _) H). cbn. eexists. split; [done|]. split; [|done].
  unfold kMinimumRingSize in H. split; cbn; try (rewrite ?length_replicate; slots). intros i x Hi. done.
Qed.

Lemma put_exact i x r : i < length (data_ r) ->
  put i x r = Ok (mkRing (capacity_ r) (front_index_ r) (back_index_ r) (<[i := x]> (data_ r))).
Proof. intros H. unfold put, defined. by rewrite (proj2 (Nat.ltb_lt _ _) H). Qed.

Lemma Ring_push_back_exact x r l : ring_repr r l -> S (length l) < capacity_ r ->
  exists r', Ring_push_back x r = Ok r' /\ ring_repr r' (l ++ [x]) /\ capacity_ r' = capacity_ r.
Proof.
  intros [Hm Hd Hf Hl Hb He] Hlt. unfold Ring_push_back. rewrite Hb, inc_exact by (apply slot_lt; lia). cbn [mbind res_bind].
  rewrite slot_slot by lia. rewrite Nat.add_1_r. set (i := slot _ _ (S (length l))).
  assert (Ring_empty (set_back i r) = false) as -> by (unfold Ring_empty; cbn; apply Nat.eqb_neq; unfold i; slots).
  cbn [negb assert_ mbind res_bind]. assert (i < capacity_ r) by (apply slot_lt; lia).
  rewrite put_exact by (cbn; lia). eexists. split; [done|]. split; [|done].
  split; cbn; try (rewrite ?length_insert, ?length_app; cbn; lia).
  - rewrite length_app, Nat.add_1_r. done.
  - intros j y Hj. destruct (decide (j = length l)) as [->|Hne].
    + rewrite lookup_app_r, Nat.sub_diag in Hj by lia. injection Hj as ->. fold i. apply list_lookup_insert_eq. lia.
    + assert (j < length l) as Hjl by (apply lookup_lt_Some in Hj; rewrite length_app in Hj; cbn in Hj; lia).
      rewrite lookup_app_l in Hj by done. rewrite list_lookup_insert_ne; [by apply He|].
      intros E. apply slot_inj in E; lia.
Qed.

Lemma Ring_push_front_exact x r l : ring_repr r l -> S (length l) < capacity_ r ->
  exists r', Ring_push_front x r = Ok r' /\ ring_repr r' (x :: l) /\ capacity_ r' = capacity_ r.
Proof.
  intros [Hm Hd Hf Hl Hb He] Hlt. unfold Ring_push_front.
  assert ((CircularDecrement r (front_index_ r) =? back_index_ r) = false) as ->
    by (apply Nat.eqb_neq; rewrite Hb; unfold CircularDecrement; slots).
  cbn [negb assert_ mbind res_bind]. rewrite put_exact by lia. cbn [mbind res_bind]. eexists. split; [done|]. split; [|done].
  assert (forall i, slot (capacity_ r) (CircularDecrement r (front_index_ r)) (S i) = slot (capacity_ r) (front_index_ r) i \/ capacity_ r <= i) as Hs.
  { intros i. destruct (decide (i < capacity_ r)); [left|right; lia]. unfold CircularDecrement. slots. }
  split; cbn [capacity_ front_index_ back_index_ data_ set_front].
  - done.
  - by rewrite length_insert.
  - unfold CircularDecrement. cbn. slots.
  - cbn. lia.
  - rewrite Hb. change (CircularDecrement _ _) with (CircularDecrement r (front_index_ r)). cbn [length].
    destruct (Hs (length l)); [done|lia].
  - intros i y Hi. change (CircularDecrement _ _) with (CircularDecrement r (front_index_ r)).
    destruct (Hs i) as [->|Hge]; [|apply lookup_lt_Some in Hi; cbn in Hi; lia]. destruct i as [|i]; cbn in Hi.
    + injection Hi as ->. replace (slot _ _ 0) with (front_index_ r) by slots. apply list_lookup_insert_eq. lia.
    + apply lookup_lt_Some in Hi as Hil. rewrite list_lookup_insert_ne; [by apply He|].
      intros E. slots.
Qed.

Lemma ring_get r l i x : ring_repr r l -> l !! i = Some x -> get (slot (capacity_ r) (front_index_ r) (S i)) r = Ok x.
Proof. intros H Hi. unfold get. by rewrite (rr_elems _ _ H i x). Qed.

Lemma Ring_front_exact r x l : ring_repr r (x :: l) -> Ring_front r = Ok x.
Proof.
  intros H. unfold Ring_front. rewrite (Ring_empty_exact _ _ H). cbn. rewrite inc_exact by apply (rr_front _ _ H). cbn.
  by apply (ring_get r (x :: l) 0).
Qed.
Lemma Ring_back_exact r x l : ring_repr r (l ++ [x]) -> Ring_back r = Ok x.
Proof.
  intros H. unfold Ring_back. rewrite (Ring_empty_exact _ _ H). rewrite bool_decide_eq_false_2 by (by destruct l).
  cbn. rewrite (rr_back _ _ H), length_app, Nat.add_1_r. apply (ring_get r (l ++ [x])); [done|].
  by rewrite lookup_app_r, Nat.sub_diag by lia.
Qed.

Lemma Ring_pop_front_exact r x l : ring_repr r (x :: l) ->
  exists r', Ring_pop_front r = Ok r' /\ ring_repr r' l /\ capacity_ r' = capacity_ r.
Proof.
  intros H. unfold Ring_pop_front. rewrite (Ring_empty_exact _ _ H).
  pose proof H as [Hm Hd Hf Hl Hb He]. rewrite bool_decide_eq_false_2 by done. cbn [negb assert_ mbind res_bind].
  rewrite inc_exact by done. cbn [mbind res_bind]. rewrite (ring_get r (x :: l) 0 x) by done. cbn [mbind res_bind length] in *.
  rewrite put_exact by (cbn; rewrite Hd; apply slot_lt; lia). eexists. split; [done|]. split; [|done].
  split; cbn [capacity_ front_index_ back_index_ data_ set_front].
  - done.
  - by rewrite length_insert.
  - apply slot_lt; lia.
  - lia.
  - rewrite Hb. slots.
  - intros i y Hi. apply lookup_lt_Some in Hi as Hil. rewrite list_lookup_insert_ne by slots.
    replace (slot _ (slot _ _ _) _) with (slot (capacity_ r) (front_index_ r) (S (S i))) by slots. by apply (He (S i)).
Qed.

Lemma Ring_drain_exact fuel r l : ring_repr r l -> length l <= fuel -> Ring_drain fuel r = Ok tt.
Proof.
  revert r l. induction fuel as [|fuel IH]; intros r l Hr Hf; cbn [Ring_drain]; rewrite (Ring_empty_exact _ _ Hr).
  - destruct l; [done|cbn in Hf; lia].
  - destruct l as [|x l]; [done|]. rewrite bool_decide_eq_false_2 by done.
    destruct (Ring_pop_front_exact r x l Hr) as (r' & -> & Hr' & _). cbn [mbind res_bind]. apply (IH r' l Hr'). cbn in Hf. lia.
Qed.

(** The destructor finds every element, and stops. *)
Lemma Ring_delete_exact r l : ring_repr r l -> Ring_delete r = Ok tt.
Proof. intros Hr. apply (Ring_drain_exact _ r l Hr). pose proof (rr_len _ _ Hr). lia. Qed.

Lemma drop_rings_exact rs ls : Forall2 ring_repr rs ls -> drop_rings rs = Ok tt.
Proof. induction 1 as [|r l rs ls Hr _ IH]; [done|]. cbn [drop_rings]. by rewrite (Ring_delete_exact r l Hr). Qed.

(** ** Laws of the deque *)

(** The chain holds the elements in order, and no ring of several is empty. *)
Definition chain (rs : list (Ring T)) (ls : list (list T)) : Prop :=
  Forall2 ring_repr rs ls /\ (2 <= length ls -> Forall (fun l => l <> []) ls).
Definition deque_repr d l : Prop :=
  exists ls, chain (rings d) ls /\ l = concat ls /\ size_ d = length l /\ length l <= max_size_ d.

Lemma ensure_ring_exact rs ls : chain rs ls ->
  exists rs' ls', ensure_ring rs = Ok rs' /\ chain rs' ls' /\ rs' <> [] /\ concat ls' = concat ls.
Proof.
  intros [HF HN]. destruct HF as [|r l rs ls Hr HF].
  - destruct (Ring_new_exact kMinimumRingSize ltac:(done)) as (r & E & Hr & _). unfold ensure_ring. rewrite E. cbn. exists [r], [[]].
    split_and!; [done| |done|done]. split; [by constructor|cbn; lia].
  - exists (r :: rs), (l :: ls). split_and!; [done| |done|done]. split; [by constructor|done].
Qed.

Lemma pushed_repr rs ls d l l' : chain rs ls -> concat ls = l' -> length l' = S (length l) -> deque_repr d l -> deque_repr (pushed rs d) l'.
Proof.
  intros Hc Hl Hlen (ls0 & _ & _ & Hs & Hm). exists ls. unfold pushed. cbn. split_and!; [done..|lia|lia].
Qed.

Lemma push_front_exact x d l : deque_repr d l -> exists d', push_front x d = Ok d' /\ deque_repr d' (x :: l).
Proof.
  intros H. pose proof H as (ls & Hc & -> & _). unfold push_front.
  destruct (ensure_ring_exact _ _ Hc) as (rs & ls' & -> & [HF HN] & Hne & Hl). cbn [mbind res_bind].
  destruct HF as [|r l rs ls' Hr HF]; [done|]. rewrite (CanPush_exact _ _ Hr). cbn [mbind res_bind].
  destruct (S (length l) <? capacity_ r) eqn:Ec; cbn [mbind res_bind].
  - apply Nat.ltb_lt in Ec. destruct (Ring_push_front_exact x r l Hr Ec) as (r' & -> & Hr' & _). cbn. eexists. split; [done|].
    apply (pushed_repr _ ((x :: l) :: ls') d (concat ls)); [|cbn in *; by rewrite Hl|done|done].
    split; [by constructor|]. intros Hlen. specialize (HN Hlen). apply Forall_cons in HN as [_ HN]. by constructor.
  - destruct (Ring_new_exact kMinimumRingSize ltac:(done)) as (r0 & -> & Hr0 & Hc0). cbn [mbind res_bind].
    destruct (Ring_push_front_exact x r0 [] Hr0) as (r' & -> & Hr' & _); [rewrite Hc0; unfold kMinimumRingSize; cbn; lia|].
    cbn. eexists. split; [done|].
    apply (pushed_repr _ ([x] :: l :: ls') d (concat ls)); [|cbn in *; by rewrite Hl|done|done].
    split; [constructor; [done|by constructor]|]. intros _. constructor; [done|]. apply Nat.ltb_ge in Ec.
    assert (l <> []) as Hl0 by (intros ->; pose proof (rr_min _ _ Hr); unfold kMinimumRingSize in *; cbn in *; lia).
    destruct ls' as [|l2 ls']; [by constructor|]. apply HN. cbn. lia.
Qed.

Lemma push_back_exact x d l : deque_repr d l -> exists d', push_back x d = Ok d' /\ deque_repr d' (l ++ [x]).
Proof.
  intros H. pose proof H as (ls & Hc & -> & _). unfold push_back.
  destruct (ensure_ring_exact _ _ Hc) as (rs & ls' & -> & [HF HN] & Hne & Hl). cbn [mbind res_bind]. rewrite <- Hl.
  destruct rs as [|tail rs _] using rev_ind; [done|]. clear Hne. rewrite last_snoc.
  apply Forall2_app_inv_l in HF as (li & lt & HF & HFt & ->). apply Forall2_cons_inv_l in HFt as (l & ? & Hr & HFt & ->).
  apply Forall2_nil_inv_l in HFt as ->. rewrite (CanPush_exact _ _ Hr). cbn [mbind res_bind].
  assert (length (concat (li ++ [l]) ++ [x]) = S (length (concat ls))) as Hlen by (rewrite length_app, Hl; cbn; lia).
  destruct (S (length l) <? capacity_ tail) eqn:Ec.
  - apply Nat.ltb_lt in Ec. destruct (Ring_push_back_exact x tail l Hr Ec) as (r' & -> & Hr' & _). cbn [mbind res_bind].
    rewrite removelast_last. eexists. split; [done|].
    apply (pushed_repr _ (li ++ [l ++ [x]]) d (concat ls)); [|rewrite !concat_app; cbn; by rewrite !app_nil_r, app_assoc|done|done].
    split; [apply Forall2_app; [done|by apply Forall2_cons]|]. intros Hlen2. rewrite length_app in *.
    specialize (HN Hlen2). apply Forall_app in HN as [HN _]. apply Forall_app. split; [done|]. constructor; [by destruct l|done].
  - destruct (Ring_new_exact (2 + capacity_ tail + capacity_ tail / 2)) as (r0 & -> & Hr0 & Hc0);
      [pose proof (rr_min _ _ Hr); lia|]. cbn [mbind res_bind].
    destruct (Ring_push_back_exact x r0 [] Hr0) as (r' & -> & Hr' & _); [rewrite Hc0; cbn; lia|]. cbn [mbind res_bind app] in *.
    eexists. split; [done|].
    apply (pushed_repr _ ((li ++ [l]) ++ [[x]]) d (concat ls)); [|by rewrite (concat_app _ [[x]])|done|done].
    split; [apply Forall2_app; [apply Forall2_app; [done|by apply Forall2_cons]|by apply Forall2_cons]|]. intros _.
    apply Nat.ltb_ge in Ec.
    assert (l <> []) as Hl0 by (intros ->; pose proof (rr_min _ _ Hr); unfold kMinimumRingSize in *; cbn in *; lia).
    apply Forall_app. split; [|by apply Forall_singleton]. destruct li as [|l1 li]; [by apply Forall_singleton|]. apply HN. rewrite length_app. cbn. lia.
Qed.

(** The head of a chain that holds something holds its first element. *)
Lemma head_repr d x l : deque_repr d (x :: l) ->
  exists r rs l1 ls, rings d = r :: rs /\ ring_repr r (x :: l1) /\ Forall2 ring_repr rs ls /\ l = l1 ++ concat ls /\
    Forall (fun l => l <> []) ls /\ size_ d = S (length l) /\ S (length l) <= max_size_ d.
Proof.
  intros (ls & [HF HN] & Hl & Hs & Hm). destruct HF as [|r l0 rs ls Hr HF]; [done|]. cbn in Hl.
  assert (l0 <> []) as Hl0.
  { destruct ls as [|l1 ls]; [destruct l0; [done|done]|]. specialize (HN ltac:(cbn; lia)). by apply Forall_cons in HN as [? _]. }
  destruct l0 as [|y l0]; [done|]. injection Hl as -> ->. exists r, rs, l0, ls. split_and!; try done.
  destruct ls as [|l1 ls]; [done|]. specialize (HN ltac:(cbn; lia)). by apply Forall_cons in HN as [_ ?].
Qed.

Lemma front_exact d x l : deque_repr d (x :: l) -> front d = Ok x.
Proof.
  intros H. destruct (head_repr d x l H) as (r & rs & l1 & ls & E & Hr & _). unfold front. rewrite E. by eapply Ring_front_exact.
Qed.

Lemma back_exact d x l : deque_repr d (l ++ [x]) -> back d = Ok x.
Proof.
  intros (ls & [HF HN] & Hl & _). unfold back. destruct (rings d) as [|tail rs _] using rev_ind.
  { apply Forall2_nil_inv_l in HF as ->. by destruct l. }
  rewrite last_snoc. apply Forall2_app_inv_l in HF as (li & lt & HF & HFt & ->).
  apply Forall2_cons_inv_l in HFt as (l0 & ? & Hr & HFt & ->). apply Forall2_nil_inv_l in HFt as ->.
  rewrite concat_app in Hl. cbn in Hl. rewrite app_nil_r in Hl. destruct l0 as [|y l0 _] using rev_ind.
  - exfalso. rewrite app_nil_r in Hl. destruct li as [|l1 li]; [by destruct l|].
    specialize (HN ltac:(rewrite length_app; cbn; lia)). apply Forall_app in HN as [_ HN]. by apply Forall_cons in HN as [? _].
  - rewrite app_assoc in Hl. apply app_inj_tail in Hl as [_ ->]. by eapply Ring_back_exact.
Qed.

Lemma pop_front_exact d x l : deque_repr d (x :: l) ->
  exists d', pop_front d = Ok d' /\ deque_repr d' l /\ max_size_ d' = max_size_ d /\ next_resize_time_ d' = next_resize_time_ d.
Proof.
  intros H. destruct (head_repr d x l H) as (r & rs & l1 & ls & E & Hr & HF & -> & HN & Hs & Hm). unfold pop_front. rewrite E.
  rewrite (Ring_empty_exact _ _ Hr), (bool_decide_eq_false_2 (x :: l1 = [])), Hs by done. cbn [negb assert_ mbind res_bind Nat.ltb Nat.leb].
  destruct (Ring_pop_front_exact r x l1 Hr) as (r' & -> & Hr' & _). cbn [mbind res_bind].
  rewrite (Ring_empty_exact _ _ Hr'), (Ring_delete_exact _ _ Hr').
  destruct (bool_decide (l1 = []) && negb (bool_decide (rs = []))) eqn:Ee; cbn [mbind res_bind];
    (eexists; split; [done|]; split; [|done]).
  - bool_prop. subst l1. exists ls. cbn in *. split_and!; [|done|lia|lia]. split; [done|]. done.
  - exists (l1 :: ls). cbn in *. split_and!; [|done|lia|lia]. split; [by constructor|]. intros Hlen.
    constructor; [|done]. intros ->. destruct rs as [|r2 rs]; [apply Forall2_nil_inv_l in HF as ->; cbn in Hlen; lia|].
    discriminate Ee.
Qed.

Lemma clear_exact d l : deque_repr d l -> exists d', clear d = Ok d' /\ deque_repr d' [].
Proof.
  intros (ls & [HF _] & _). unfold clear. rewrite (drop_rings_exact _ _ HF). cbn [mbind res_bind].
  eexists. split; [done|]. exists []. cbn. split_and!; [|done|done|lia]. split; [constructor|cbn; lia].
Qed.

Lemma move_all_exact d l r l0 : deque_repr d l -> ring_repr r l0 -> length l0 + length l < capacity_ r ->
  exists r' d', move_all (length l) r d = Ok (r', d') /\ ring_repr r' (l0 ++ l) /\ capacity_ r' = capacity_ r /\
    deque_repr d' [] /\ max_size_ d' = max_size_ d /\ next_resize_time_ d' = next_resize_time_ d.
Proof.
  revert d r l0. induction l as [|x l IH]; intros d r l0 Hd Hr Hlt; cbn [length move_all].
  - exists r, d. rewrite app_nil_r. split_and!; done.
  - cbn [length] in Hlt. rewrite (CanPush_exact _ _ Hr), (proj2 (Nat.ltb_lt _ _)) by lia. cbn [mbind res_bind assert_].
    rewrite (front_exact d x l Hd). cbn [mbind res_bind].
    destruct (Ring_push_back_exact x r l0 Hr ltac:(lia)) as (r1 & -> & Hr1 & Hc1). cbn [mbind res_bind].
    destruct (pop_front_exact d x l Hd) as (d1 & -> & Hd1 & Hm1 & Ht1). cbn [mbind res_bind].
    destruct (IH d1 r1 (l0 ++ [x]) Hd1 Hr1) as (r' & d' & E & Hr' & Hc' & Hd' & Hm' & Ht');
      [rewrite length_app, Hc1; cbn; lia|].
    exists r', d'. rewrite <- app_assoc in Hr'. split_and!; [done|done|congruence..].
Qed.

(** One ring of the capacity asked for, with the same elements. *)
Lemma SetCapacity_exact c d l : deque_repr d l -> length l + 1 <= c -> kMinimumRingSize <= c ->
  exists d', SetCapacity c d = Ok d' /\ deque_repr d' l /\ capacity d' = c /\ max_size_ d' = max_size_ d /\
    next_resize_time_ d' = next_resize_time_ d.
Proof.
  intros Hd Hc Hmin. pose proof Hd as (_ & _ & _ & Hs & Hm). unfold SetCapacity.
  destruct (Ring_new_exact c Hmin) as (r & -> & Hr & Hcr). cbn [mbind res_bind].
  rewrite Hs, (proj2 (Nat.leb_le _ _) Hc). cbn [mbind res_bind assert_].
  destruct (move_all_exact d l r [] Hd Hr) as (r' & d' & -> & Hr' & Hc' & (ls & [HF HN] & Hl & _) & Hm' & Ht'); [cbn; lia|].
  cbn [mbind res_bind app] in *.
  assert (length (rings d') <= 1) as H1.
  { apply Forall2_length in HF as Hlen. rewrite Hlen. destruct ls as [|l1 [|l2 ls]]; cbn; try lia.
    specialize (HN ltac:(cbn; lia)). apply Forall_cons in HN as [H1 _]. cbn in Hl. symmetry in Hl. by apply app_nil in Hl as [-> _]. }
  rewrite (proj2 (Nat.leb_le _ _) H1), (drop_rings_exact _ _ HF). cbn. eexists. split; [done|]. cbn. split_and!; [|lia|done|done].
  exists [l]. cbn. rewrite app_nil_r. split_and!; [|done|done|lia]. split; [by apply Forall2_cons|cbn; lia].
Qed.

Lemma MaybeShrinkQueue_exact now d l : deque_repr d l ->
  exists d', MaybeShrinkQueue now d = Ok d' /\ deque_repr d' l /\
    (capacity d' = capacity d \/
     (next_resize_time_ d <= now /\ next_resize_time_ d' = now + kMinimumShrinkInterval)%Z /\
     capacity d' = max (max_size_ d + 1) kMinimumRingSize /\ capacity d' + kReclaimThreshold < capacity d).
Proof.
  intros Hd. pose proof Hd as (ls & Hc & Hl & Hs & Hm). unfold MaybeShrinkQueue.
  destruct (rings d) as [|r rs] eqn:Er; [exists d; auto|]. rewrite <- Er in *.
  rewrite (proj2 (Nat.leb_le (size_ d) (max_size_ d))) by lia. cbn [mbind res_bind assert_]. destruct (Z.ltb_spec now (next_resize_time_ d)); [exists d; auto|].
  set (d0 := mkDeque (rings d) (size_ d) (size_ d) (next_resize_time_ d)).
  assert (deque_repr d0 l) as Hd0 by (exists ls; cbn; split_and!; [done..|lia]).
  destruct (capacity d0 <=? max (max_size_ d + 1) kMinimumRingSize + kReclaimThreshold) eqn:Ec; [exists d0; auto|].
  apply Nat.leb_gt in Ec. destruct (SetCapacity_exact (max (max_size_ d + 1) kMinimumRingSize) d0 l Hd0) as (d1 & -> & Hd1 & Hc1 & _);
    [lia..|]. cbn. eexists. split; [done|]. split.
  - destruct Hd1 as (ls1 & ? & ? & ? & ?). by exists ls1.
  - right. unfold capacity at 1 2. cbn [rings next_resize_time_]. fold (capacity d1). rewrite Hc1. split_and!; [lia|done|done|exact Ec].
Qed.

(** An iterator in the ring at the head of a chain sees the rest of it. *)
Lemma walk_exact fuel r l rs ls i : ring_repr r l -> Forall2 ring_repr rs ls -> Forall (fun l => l <> []) ls -> i < length l ->
  length (drop i l ++ concat ls) <= fuel ->
  walk fuel (r :: rs, slot (capacity_ r) (front_index_ r) (S i)) = Some (Ok (drop i l ++ concat ls)).
Proof.
  revert r l rs ls i. induction fuel as [|fuel IH]; intros r l rs ls i Hr HF HN Hi Hf.
  { rewrite length_app, length_drop in Hf. lia. }
  destruct (lookup_lt_is_Some_2 l i Hi) as [x Hx]. rewrite (drop_S _ _ _ Hx) in *. cbn [walk fst snd app length] in *.
  unfold deref. cbn [fst snd]. rewrite (ring_get r l i x Hr Hx). unfold advance. cbn [fst snd].
  pose proof (rr_front _ _ Hr). pose proof (rr_len _ _ Hr).
  destruct (slot (capacity_ r) (front_index_ r) (S i) =? back_index_ r) eqn:Eb.
  - apply Nat.eqb_eq in Eb. rewrite (rr_back _ _ Hr) in Eb. apply slot_inj in Eb; [|lia..].
    rewrite drop_ge in Hf |- * by lia. destruct HF as [|r' l' rs ls Hr' HF]; [destruct fuel; done|].
    apply Forall_cons in HN as [Hl' HN]. rewrite inc_exact by apply (rr_front _ _ Hr'). cbn [mbind res_bind].
    rewrite (IH r' l' rs ls 0); [done|done..| |rewrite drop_0; cbn in Hf; lia]. destruct l'; [done|cbn; lia].
  - apply Nat.eqb_neq in Eb. rewrite (rr_back _ _ Hr) in Eb.
    assert (S i < length l) as Hi' by (destruct (decide (S i = length l)) as [E|]; [by rewrite E in Eb|lia]).
    rewrite inc_exact by (apply slot_lt; lia). cbn [mbind res_bind]. rewrite slot_slot, Nat.add_1_r by lia.
    rewrite (IH r l rs ls (S i)); [done|done..|lia].
Qed.

Lemma iterate_exact d l : deque_repr d l -> exists it, begin d = Ok it /\ walk (size d) it = Some (Ok l).
Proof.
  intros H. pose proof H as (_ & _ & _ & Hs & _). unfold begin, size. rewrite Hs. destruct l as [|x l].
  - exists ([], 0). split; [|done]. destruct H as (ls & [HF HN] & Hl & _). destruct HF as [|r l rs ls Hr HF]; [done|].
    symmetry in Hl. cbn in Hl. apply app_nil in Hl as [-> _]. by rewrite (Ring_empty_exact _ _ Hr).
  - destruct (head_repr d x l H) as (r & rs & l1 & ls & E & Hr & HF & -> & HN & _). rewrite E, (Ring_empty_exact _ _ Hr).
    rewrite bool_decide_eq_false_2 by done. rewrite inc_exact by apply (rr_front _ _ Hr). cbn [mbind res_bind]. eexists. split; [done|].
    apply (walk_exact _ r (x :: l1) rs ls 0); [done..|cbn; lia|done].
Qed.

(** ** Refinement of a list *)
Inductive op := PushFront (x : T) | PushBack (x : T) | PopFront | Clear | MaybeShrink (now : Z) | SetCap (c : nat).

Definition step d (o : op) : res (LazilyDeallocatedDeque T) :=
  match o with
  | PushFront x => push_front x d | PushBack x => push_back x d | PopFront => pop_front d | Clear => clear d
  | MaybeShrink now => MaybeShrinkQueue now d | SetCap c => SetCapacity c d
  end.
(** What the operations do to the list; [None] is outside their contract. *)
Definition list_step l (o : op) : option (list T) :=
  match o with
  | PushFront x => Some (x :: l) | PushBack x => Some (l ++ [x])
  | PopFront => match l with [] => None | _ :: l => Some l end
  | Clear => Some [] | MaybeShrink _ => Some l
  | SetCap c => if max (length l + 1) kMinimumRingSize <=? c then Some l else None
  end.
Definition run (os : list op) : res (LazilyDeallocatedDeque T) := foldl (fun (acc : res (LazilyDeallocatedDeque T)) o => d ← acc; step d o) (Ok Deque_new) os.
Definition list_run (os : list op) : option (list T) := foldl (fun (acc : option (list T)) o => l ← acc; list_step l o) (Some []) os.

Lemma step_refines d l o l' : deque_repr d l -> list_step l o = Some l' -> exists d', step d o = Ok d' /\ deque_repr d' l'.
Proof.
  intros Hd E. destruct o; cbn in *; simplify_eq.
  - by apply push_front_exact.
  - by apply push_back_exact.
  - destruct l as [|x l]; [done|]. simplify_eq. destruct (pop_front_exact d x l' Hd) as (d' & ? & ? & _). eauto.
  - by eapply clear_exact.
  - destruct (MaybeShrinkQueue_exact now d l' Hd) as (d' & ? & ? & _). eauto.
  - destruct (max (length l + 1) kMinimumRingSize <=? c) eqn:Ec; [|done]. simplify_eq. apply Nat.leb_le in Ec.
    destruct (SetCapacity_exact c d l' Hd) as (d' & ? & ? & _); [lia..|]. eauto.
Qed.

(** C33: the chain of rings is a queue: after any sequence of operations within their contract,
    growing and shrinking included, none has failed a check or touched a slot without an
    object, nor has the destruction of a ring that was dropped on the way; the deque has the size of the list the operations describe, its ends are that
    list's, iteration meets exactly its elements in order and stops, and the destructor runs
    through. *)
Theorem LazyDeque_refines os l : list_run os = Some l ->
  exists d, run os = Ok d /\ (exists d', clear d = Ok d') /\ size d = length l /\ empty d = bool_decide (l = []) /\ length l <= max_size d /\
    (forall x, head l = Some x -> front d = Ok x) /\ (forall x, last l = Some x -> back d = Ok x) /\
    (exists it, begin d = Ok it /\ walk (size d) it = Some (Ok l)).
Proof.
  intros Hl. assert (exists d, run os = Ok d /\ deque_repr d l) as (d & Hd & Hr).
  { revert l Hl. induction os as [|o os IH] using rev_ind; intros l Hl.
    - injection Hl as <-. exists Deque_new. split; [done|]. exists []. cbn. split_and!; [|done..|lia]. split; [constructor|cbn; lia].
    - unfold run, list_run in *. rewrite foldl_snoc in Hl. rewrite foldl_snoc.
      destruct (foldl _ (Some []) os) as [l0|]; [|done]. cbn in Hl. destruct (IH l0 eq_refl) as (d0 & -> & Hr0). cbn [mbind res_bind].
      exact (step_refines d0 l0 o l Hr0 Hl). }
  exists d. pose proof Hr as (_ & _ & _ & Hs & Hm). split_and!; [done| |done| |done|..].
  - destruct (clear_exact d l Hr) as (d' & ? & _). eauto.
  - unfold empty. rewrite Hs. destruct l; done.
  - intros x Hx. destruct l as [|y l]; [done|]. injection Hx as ->. by eapply front_exact.
  - intros x Hx. destruct l as [|y l _] using rev_ind; [done|]. rewrite last_snoc in Hx. injection Hx as ->. by eapply back_exact.
  - by apply iterate_exact.
Qed.
End laws.
Arguments op : clear implicits.

Lemma LazyDeque_refines_witness :
  let os := [PushBack 1; PushBack 2; PushFront 0; PushFront 7; PushFront 8; PopFront; PushBack 3; SetCap 9; MaybeShrink 0] in
  list_run os = Some [7; 0; 1; 2; 3] /\
  exists d, run os = Ok d /\ size d = 5 /\ front d = Ok 7 /\ back d = Ok 3.
Proof.
  cbn zeta. split; [reflexivity|].
  destruct (LazyDeque_refines [PushBack 1; PushBack 2; PushFront 0; PushFront 7; PushFront 8; PopFront; PushBack 3; SetCap 9; MaybeShrink 0]
              [7; 0; 1; 2; 3] eq_refl) as (d & E & _ & Hs & _ & _ & Hf & Hb & _).
  exists d. split; [exact E|]. split; [exact Hs|]. split; [exact (Hf 7 eq_refl)|exact (Hb 3 eq_refl)].
Defined.
