(* ===== verification/IdMap.v ===== *)
(** * The map of identifiers

    [IDMap] of [base/containers/id_map.h] of [include/webrtc]: objects under integer
    identifiers (of [int32_t], the default), which can be removed while iterators walk over
    the map: the removal is recorded and carried out when the outermost iteration ends.  The
    hash table is the list of its nodes in iteration order; where a new node goes, and how
    the others are rearranged then, is left open.  A value is a pointer, null for [None]; an
    iterator is the identifier of the node it points to, or [None] for [end()].  A failed
    [DCHECK] or [NOTREACHED] is [Crash], the use of an iterator that points to no node is
    [Undef]; the sequence checker is left out. *)

From S2P Require Import Prelude.
From stdpp Require Import list gmap fin_maps.
Local Open Scope Z_scope.

Section id_map.
Context {V : Type}.

Local Abbreviation node := (Z * option V)%type.

Record IDMap := mkIDMap {
  iteration_depth_ : Z;
  removed_ids_ : gset Z;
  next_id_ : Z;
  data_ : list node;
  check_on_null_data_ : bool }.

Definition IDMap_new : IDMap :=
  {| iteration_depth_ := 0; removed_ids_ := ∅; next_id_ := 1; data_ := []; check_on_null_data_ := false |}.
Definition set_check_on_null_data (value : bool) (m : IDMap) : IDMap :=
  mkIDMap (iteration_depth_ m) (removed_ids_ m) (next_id_ m) (data_ m) value.
Definition set_data (data : list node) (m : IDMap) : IDMap :=
  mkIDMap (iteration_depth_ m) (removed_ids_ m) (next_id_ m) data (check_on_null_data_ m).
Definition set_removed (removed : gset Z) (m : IDMap) : IDMap :=
  mkIDMap (iteration_depth_ m) removed (next_id_ m) (data_ m) (check_on_null_data_ m).
Definition set_depth (depth : Z) (m : IDMap) : IDMap :=
  mkIDMap depth (removed_ids_ m) (next_id_ m) (data_ m) (check_on_null_data_ m).
Definition set_next_id (next : Z) (m : IDMap) : IDMap :=
  mkIDMap (iteration_depth_ m) (removed_ids_ m) next (data_ m) (check_on_null_data_ m).

(** ** The hash table *)
Fixpoint table_find (id : Z) (l : list node) : option (option V) :=
  match l with [] => None | (k, v) :: l => if k =? id then Some v else table_find id l end.
Definition table_erase (id : Z) (l : list node) : list node := filter (fun n => n.1 <> id) l.
Fixpoint table_set (id : Z) (v : option V) (l : list node) : list node :=
  match l with [] => [] | (k, w) :: l => if k =? id then (k, v) :: l else (k, w) :: table_set id v l end.

(** [data_[id] = std::move(data)], where [arrange] is what an insertion does to the order of
    the nodes. *)
Definition table_assign (arrange : list node -> list node) (id : Z) (v : option V) (l : list node) : list node :=
  match table_find id l with Some _ => table_set id v l | None => arrange ((id, v) :: l) end.

(** ** The operations *)
Definition IsRemoved (m : IDMap) (key : Z) : bool := bool_decide (key ∈ removed_ids_ m).
Definition is_null (v : option V) : bool := match v with None => true | Some _ => false end.

Definition Add (arrange : list node -> list node) (data : option V) (m : IDMap) : res (Z * IDMap) :=
  _ ← assert_ (negb (check_on_null_data_ m) || negb (is_null data));
  let this_id := next_id_ m in
  _ ← assert_ (bool_decide (table_find this_id (data_ m) = None));
  next ← arith 32 (next_id_ m + 1);
  Ok (this_id, set_next_id next (set_data (table_assign arrange this_id data (data_ m)) m)).

Definition AddWithID (arrange : list node -> list node) (data : option V) (id : Z) (m : IDMap) : res IDMap :=
  _ ← assert_ (negb (check_on_null_data_ m) || negb (is_null data));
  m ← (if IsRemoved m id then Ok (set_removed (removed_ids_ m ∖ {[id]}) m)
       else _ ← assert_ (bool_decide (table_find id (data_ m) = None)); Ok m);
  Ok (set_data (table_assign arrange id data (data_ m)) m).

Definition Remove (id : Z) (m : IDMap) : res IDMap :=
  match table_find id (data_ m) with
  | None => Crash
  | Some _ =>
      if IsRemoved m id then Crash
      else if iteration_depth_ m =? 0 then Ok (set_data (table_erase id (data_ m)) m)
      else Ok (set_removed ({[id]} ∪ removed_ids_ m) m)
  end.

(** The value that was there, and the map. *)
Definition Replace (id : Z) (new_data : option V) (m : IDMap) : res (option V * IDMap) :=
  _ ← assert_ (negb (check_on_null_data_ m) || negb (is_null new_data));
  match table_find id (data_ m) with
  | None => Crash
  | Some old =>
      _ ← assert_ (negb (IsRemoved m id));
      Ok (old, set_data (table_set id new_data (data_ m)) m)
  end.

Definition Clear (m : IDMap) : IDMap :=
  if iteration_depth_ m =? 0 then set_data [] m
  else set_removed (removed_ids_ m ∪ list_to_set (data_ m).*1) m.

(** [size()], a difference of [size_t]. *)
Definition size (m : IDMap) : Z := wrapU 64 (Z.of_nat (length (data_ m)) - Z.of_nat (base.size (removed_ids_ m))).
Definition IsEmpty (m : IDMap) : bool := size m =? 0.
Definition Lookup (id : Z) (m : IDMap) : option V :=
  match table_find id (data_ m) with
  | Some (Some v) => if IsRemoved m id then None else Some v
  | _ => None
  end.

Definition Compact (m : IDMap) : res IDMap :=
  _ ← assert_ (iteration_depth_ m =? 0);
  Ok (set_removed ∅ (set_data (foldr table_erase (data_ m) (elements (removed_ids_ m))) m)).

(** ** [Iterator] *)
Definition Iterator : Type := option Z.

(** The nodes from the one of [id] on. *)
Fixpoint from (id : Z) (l : list node) : list node :=
  match l with [] => [] | (k, v) :: r => if k =? id then l else from id r end.
Fixpoint SkipRemovedEntries (m : IDMap) (l : list node) : Iterator :=
  match l with [] => None | (k, _) :: l => if IsRemoved m k then SkipRemovedEntries m l else Some k end.

Definition Iterator_init (l : list node) (m : IDMap) : res (Iterator * IDMap) :=
  depth ← arith 32 (iteration_depth_ m + 1);
  let m := set_depth depth m in Ok (SkipRemovedEntries m l, m).
Definition Iterator_new (m : IDMap) : res (Iterator * IDMap) := Iterator_init (data_ m) m.
Definition Iterator_copy (it : Iterator) (m : IDMap) : res (Iterator * IDMap) :=
  Iterator_init (match it with Some id => from id (data_ m) | None => [] end) m.
Definition Iterator_delete (m : IDMap) : res IDMap :=
  _ ← assert_ (0 <? iteration_depth_ m);
  let m := set_depth (iteration_depth_ m - 1) m in
  if iteration_depth_ m =? 0 then Compact m else Ok m.
Definition IsAtEnd (it : Iterator) : bool := match it with None => true | Some _ => false end.
Definition GetCurrentValue (it : Iterator) (m : IDMap) : res (option V) :=
  match it with
  | None => Undef
  | Some id => match table_find id (data_ m) with
               | None => Undef
               | Some v => Ok (if is_null v || IsRemoved m id then None else v)
               end
  end.
Definition Advance (it : Iterator) (m : IDMap) : res Iterator :=
  match it with
  | None => Undef
  | Some id => match from id (data_ m) with [] => Undef | _ :: l => Ok (SkipRemovedEntries m l) end
  end.

(** ** A loop over the map

    [for (iterator it(&map); !it.IsAtEnd(); it.Advance()) body(it.GetCurrentKey())], where the
    body removes some of the identifiers that are in the map: those it met. *)
Definition live (m : IDMap) (id : Z) : bool := bool_decide (table_find id (data_ m) <> None) && negb (IsRemoved m id).
Fixpoint remove_all (ids : list Z) (m : IDMap) : res IDMap :=
  match ids with
  | [] => Ok m
  | id :: ids => m ← (if live m id then Remove id m else Ok m); remove_all ids m
  end.
Fixpoint loop (body : Z -> list Z) (fuel : nat) (it : Iterator) (m : IDMap) : option (res (list Z * IDMap)) :=
  match it with
  | None => Some (m ← Iterator_delete m; Ok ([], m))
  | Some id =>
      match fuel with
      | O => None
      | S fuel =>
          match remove_all (body id) m with
          | Ok m => match Advance it m with
                    | Ok it => r ← loop body fuel it m; Some ('(l, m) ← r; Ok (id :: l, m))
                    | _ => Some Undef
                    end
          | _ => Some Crash
          end
      end
  end.
Definition for_each (body : Z -> list Z) (m : IDMap) : option (res (list Z * IDMap)) :=
  match Iterator_new m with
  | Ok (it, m) => loop body (length (data_ m)) it m
  | _ => Some Undef
  end.

(** ** Laws of the table *)
Lemma find_map id l : table_find id l = (list_to_map l : gmap Z (option V)) !! id.
Proof.
  induction l as [|[k v] l IH]; [done|]. cbn [table_find]. rewrite list_to_map_cons. destruct (Z.eqb_spec k id) as [->|Hn].
  - by rewrite lookup_insert_eq.
  - by rewrite lookup_insert_ne.
Qed.

Lemma find_perm id l l' : NoDup l.*1 -> l ≡ₚ l' -> table_find id l = table_find id l'.
Proof. intros Hn Hp. rewrite !find_map. by rewrite (list_to_map_proper l l'). Qed.

Lemma find_None id l : table_find id l = None <-> id ∉ l.*1.
Proof. rewrite find_map. symmetry. apply not_elem_of_list_to_map. Qed.

Lemma find_erase id id' l : table_find id' (table_erase id l) = if decide (id' = id) then None else table_find id' l.
Proof.
  induction l as [|[k v] l IH]; [by case_decide|]. unfold table_erase in *. rewrite filter_cons. cbn [fst table_find].
  destruct (decide (k <> id)) as [Hk|Hk]; cbn [table_find].
  - destruct (Z.eqb_spec k id') as [->|]; [by rewrite decide_False|exact IH].
  - assert (k = id) as -> by (destruct (decide (k = id)); [done|by destruct Hk]). rewrite IH.
    case_decide as E; [done|]. by rewrite (proj2 (Z.eqb_neq id id')) by congruence.
Qed.

Lemma find_set id v id' l : is_Some (table_find id l) ->
  table_find id' (table_set id v l) = if decide (id' = id) then Some v else table_find id' l.
Proof.
  induction l as [|[k w] l IH]; [by intros []|]. cbn [table_find table_set]. destruct (Z.eqb_spec k id) as [->|Hn]; intros Hs.
  - cbn [table_find]. case_decide as E; [subst; by rewrite Z.eqb_refl|]. by rewrite (proj2 (Z.eqb_neq id id')) by congruence.
  - cbn [table_find]. destruct (Z.eqb_spec k id') as [->|]; [by rewrite decide_False|by apply IH].
Qed.

Lemma keys_set id v l : (table_set id v l).*1 = l.*1.
Proof. induction l as [|[k w] l IH]; [done|]. cbn. destruct (k =? id); cbn; [done|by f_equal]. Qed.
Lemma keys_erase id l : NoDup l.*1 -> NoDup (table_erase id l).*1 /\ forall k, k ∈ (table_erase id l).*1 <-> k ∈ l.*1 /\ k <> id.
Proof.
  intros Hn. unfold table_erase. split.
  - induction l as [|[k v] l IH]; [done|]. rewrite filter_cons. cbn in Hn. apply NoDup_cons in Hn as [Hk Hn]. case_decide; [|auto].
    cbn. apply NoDup_cons. split; [|auto]. rewrite list_elem_of_fmap. intros ([k' v'] & -> & Hi). apply list_elem_of_filter in Hi as [_ Hi].
    apply Hk. rewrite list_elem_of_fmap. by exists (k', v').
  - intros k. rewrite !list_elem_of_fmap. setoid_rewrite list_elem_of_filter. split.
    + intros ([k' v'] & -> & ? & ?). eauto.
    + intros [([k' v'] & -> & ?) ?]. eauto.
Qed.

(** ** The invariant, and the map it stands for *)
Record inv (m : IDMap) : Prop := {
  inv_keys : NoDup (data_ m).*1;
  inv_removed : forall k, k ∈ removed_ids_ m -> k ∈ (data_ m).*1;
  inv_depth : 0 <= iteration_depth_ m < 2 ^ 31;
  inv_idle : iteration_depth_ m = 0 -> removed_ids_ m = ∅ }.

Definition found (m : IDMap) (id : Z) : option (option V) :=
  if decide (id ∈ removed_ids_ m) then None else table_find id (data_ m).
Definition repr (m : IDMap) (mp : gmap Z (option V)) : Prop := inv m /\ forall id, mp !! id = found m id.

Lemma IsRemoved_true m id : IsRemoved m id = true <-> id ∈ removed_ids_ m.
Proof. apply bool_decide_eq_true. Qed.

Lemma Lookup_exact m mp id : repr m mp -> Lookup id m = mjoin (mp !! id).
Proof.
  intros [_ H]. rewrite H. unfold Lookup, found, IsRemoved. case_decide as E.
  - rewrite bool_decide_eq_true_2 by done. destruct (table_find id (data_ m)) as [[v|]|]; done.
  - rewrite bool_decide_eq_false_2 by done. destruct (table_find id (data_ m)) as [[v|]|]; done.
Qed.

Lemma size_exact m mp : repr m mp -> Z.of_nat (length (data_ m)) < 2 ^ 64 -> size m = Z.of_nat (base.size mp).
Proof.
  intros [Hi H] Hl. unfold size. assert (dom mp = list_to_set (data_ m).*1 ∖ removed_ids_ m) as Hd.
  { apply set_eq. intros k. rewrite elem_of_dom, elem_of_difference, elem_of_list_to_set, H. unfold found. case_decide.
    - split; [by intros []|]. by intros [].
    - split; [|intros [Hk _]].
      + intros Hs. split; [|done]. destruct (decide (k ∈ (data_ m).*1)) as [|Hk]; [done|]. apply find_None in Hk. rewrite Hk in Hs. by destruct Hs.
      + destruct (table_find k (data_ m)) eqn:E; [done|]. by apply find_None in E. }
  rewrite <- (size_dom (D := gset Z)), Hd. rewrite size_difference.
  2: { intros k Hk. apply elem_of_list_to_set. by apply (inv_removed m Hi). }
  rewrite size_list_to_set, length_fmap by apply (inv_keys m Hi).
  assert (base.size (removed_ids_ m) <= length (data_ m))%nat as Hle.
  { rewrite <- (length_fmap fst), <- (size_list_to_set (C := gset Z)) by apply (inv_keys m Hi). apply subseteq_size.
    intros k Hk. apply elem_of_list_to_set. by apply (inv_removed m Hi). }
  rewrite wrapU_id; [lia|]. unfold in_u. lia.
Qed.

Lemma repr_new : repr IDMap_new ∅.
Proof.
  split; [split; cbn; [constructor|set_solver|lia|done]|]. intros id. unfold found. cbn. rewrite lookup_empty. by case_decide.
Qed.

(** Changing the table of a representing map: the invariant and the lookups of the result. *)
Lemma repr_data m mp data mp' : repr m mp -> NoDup data.*1 -> (forall k, k ∈ removed_ids_ m -> k ∈ data.*1) ->
  (forall id, mp' !! id = if decide (id ∈ removed_ids_ m) then None else table_find id data) -> repr (set_data data m) mp'.
Proof. intros [[? ? ? ?] _] Hn Hr Hl. split; [by split|done]. Qed.

(** Removing what is in the map takes effect at once, for lookups; what is not there fails
    the check. *)
Lemma Remove_exact id m mp : repr m mp ->
  match mp !! id with
  | Some _ => exists m', Remove id m = Ok m' /\ repr m' (delete id mp) /\ next_id_ m' = next_id_ m /\
      iteration_depth_ m' = iteration_depth_ m /\ check_on_null_data_ m' = check_on_null_data_ m /\
      (iteration_depth_ m <> 0 -> data_ m' = data_ m /\ removed_ids_ m' = {[id]} ∪ removed_ids_ m) /\
      (forall k, k ∈ (data_ m').*1 -> k ∈ (data_ m).*1)
  | None => Remove id m = Crash
  end.
Proof.
  intros Hr. pose proof Hr as [Hi Hl]. rewrite Hl. unfold found, Remove, IsRemoved.
  destruct (decide (id ∈ removed_ids_ m)) as [Hin|Hin].
  { rewrite bool_decide_eq_true_2 by done. by destruct (table_find id (data_ m)). }
  rewrite bool_decide_eq_false_2 by done. destruct (table_find id (data_ m)) as [v|] eqn:Ef; [|done].
  destruct (keys_erase id (data_ m) (inv_keys m Hi)) as [Hn Hk].
  destruct (Z.eqb_spec (iteration_depth_ m) 0) as [Hd|Hd]; eexists; (split; [done|]); cbn; split_and!; try done.
  - pose proof (inv_idle m Hi Hd) as He. apply (repr_data m mp); [done|done|rewrite He; set_solver|].
    intros id'. rewrite find_erase. destruct (decide (id' = id)) as [->|Hne].
    + rewrite lookup_delete_eq. by case_decide.
    + rewrite lookup_delete_ne by done. apply Hl.
  - intros k Hin'. by apply Hk in Hin' as [? _].
  - split.
    + destruct Hi as [? Hrm ? Hid]. split; cbn; [done| |done|done]. intros k [->%elem_of_singleton|]%elem_of_union; [|auto].
      destruct (decide (id ∈ (data_ m).*1)) as [|Hx]; [done|]. apply find_None in Hx. congruence.
    + intros id'. unfold found. cbn. destruct (decide (id' = id)) as [->|Hne].
      * rewrite lookup_delete_eq. by rewrite decide_True by set_solver.
      * rewrite lookup_delete_ne, Hl by done. unfold found.
        destruct (decide (id' ∈ removed_ids_ m)); [rewrite decide_True by set_solver|rewrite decide_False by set_solver]; done.
Qed.

Lemma Replace_exact id v m mp old : repr m mp -> mp !! id = Some old -> negb (check_on_null_data_ m) || negb (is_null v) = true ->
  exists m', Replace id v m = Ok (old, m') /\ repr m' (<[id := v]> mp) /\ next_id_ m' = next_id_ m /\
    iteration_depth_ m' = iteration_depth_ m /\ check_on_null_data_ m' = check_on_null_data_ m /\ (data_ m').*1 = (data_ m).*1.
Proof.
  intros Hr Hf Hc. pose proof Hr as [Hi Hl]. unfold Replace. rewrite Hc. cbn [assert_ mbind res_bind]. rewrite Hl in Hf.
  unfold found in Hf. unfold IsRemoved. case_decide as Hin; [done|]. rewrite Hf, bool_decide_eq_false_2 by done. cbn [negb assert_ mbind res_bind].
  eexists. split; [done|]. split; [|split_and!; try done; apply keys_set].
  apply (repr_data m mp); rewrite ?keys_set; [done|apply (inv_keys m Hi)|apply (inv_removed m Hi)|].
  intros id'. rewrite find_set by done. destruct (decide (id' = id)) as [->|Hne].
  - rewrite lookup_insert_eq. by rewrite decide_False.
  - rewrite lookup_insert_ne by done. apply Hl.
Qed.

Lemma Clear_exact m mp : repr m mp -> repr (Clear m) ∅ /\ (forall k, k ∈ (data_ (Clear m)).*1 -> k ∈ (data_ m).*1).
Proof.
  intros Hr. pose proof Hr as [Hi Hl]. unfold Clear. destruct (Z.eqb_spec (iteration_depth_ m) 0) as [Hd|Hd].
  - split; [|set_solver]. pose proof (inv_idle m Hi Hd) as He. apply (repr_data m mp); [done|constructor|rewrite He; set_solver|].
    intros id. rewrite lookup_empty. by case_decide.
  - split; [|done]. split.
    + destruct Hi as [? Hrm ? Hid]. split; cbn; [done| |done|done]. intros k [|Hk]%elem_of_union; [auto|by apply elem_of_list_to_set in Hk].
    + intros id. rewrite lookup_empty. unfold found. cbn. case_decide as E; [done|]. symmetry. apply find_None. intros Hk. apply E.
      apply elem_of_union. right. by apply elem_of_list_to_set.
Qed.

(** ** Iterators *)
Lemma erase_all_find ids id l : table_find id (foldr table_erase l ids) = if decide (id ∈ ids) then None else table_find id l.
Proof.
  induction ids as [|i ids IH]; [by rewrite decide_False by set_solver|]. cbn [foldr]. rewrite find_erase, IH.
  destruct (decide (id = i)) as [->|Hne]; [by rewrite decide_True by set_solver|].
  destruct (decide (id ∈ ids)); [rewrite decide_True by set_solver|rewrite decide_False by set_solver]; done.
Qed.
Lemma erase_all_keys ids l : NoDup l.*1 -> NoDup (foldr table_erase l ids).*1 /\ forall k, k ∈ (foldr table_erase l ids).*1 -> k ∈ l.*1.
Proof.
  intros Hn. induction ids as [|i ids [IH1 IH2]]; [done|]. cbn [foldr]. destruct (keys_erase i (foldr table_erase l ids) IH1) as [H1 H2].
  split; [done|]. intros k Hk. by apply H2 in Hk as [? _]; auto.
Qed.

Lemma Iterator_init_exact l m mp : repr m mp -> iteration_depth_ m < 2 ^ 31 - 1 ->
  exists m', Iterator_init l m = Ok (SkipRemovedEntries m l, m') /\ repr m' mp /\ m' = set_depth (iteration_depth_ m + 1) m.
Proof.
  intros Hr Hd. pose proof Hr as [Hi Hl]. pose proof (inv_depth m Hi). unfold Iterator_init, arith.
  rewrite bool_decide_eq_true_2 by (unfold in_s; lia). cbn [mbind res_bind]. eexists. split_and!; [| |done].
  - do 2 f_equal. induction l as [|[k v] l IH]; [done|]. cbn. unfold IsRemoved in *. cbn. by rewrite IH.
  - split; [destruct Hi; split; cbn; try done; lia|]. exact Hl.
Qed.

Lemma Iterator_delete_exact m mp : repr m mp -> 0 < iteration_depth_ m ->
  exists m', Iterator_delete m = Ok m' /\ repr m' mp /\ iteration_depth_ m' = iteration_depth_ m - 1 /\ next_id_ m' = next_id_ m /\
    check_on_null_data_ m' = check_on_null_data_ m /\ (forall k, k ∈ (data_ m').*1 -> k ∈ (data_ m).*1) /\
    (iteration_depth_ m = 1 -> removed_ids_ m' = ∅).
Proof.
  intros Hr Hd. pose proof Hr as [Hi Hl]. pose proof (inv_depth m Hi) as Hdm. unfold Iterator_delete.
  rewrite (proj2 (Z.ltb_lt 0 _)) by done. cbn [assert_ mbind res_bind]. cbn [set_depth iteration_depth_].
  destruct (Z.eqb_spec (iteration_depth_ m - 1) 0) as [E|E].
  - unfold Compact. cbn [set_depth iteration_depth_]. rewrite (proj2 (Z.eqb_eq _ 0)) by done. cbn [assert_ mbind res_bind].
    destruct (erase_all_keys (elements (removed_ids_ m)) (data_ m) (inv_keys m Hi)) as [Hn Hk].
    eexists. split; [done|]. cbn. split_and!; try done. split.
    + split; cbn; [done|set_solver|lia|done].
    + intros id. rewrite Hl. unfold found. cbn. rewrite erase_all_find. rewrite (decide_False (P := id ∈ ∅)) by set_solver.
      destruct (decide (id ∈ removed_ids_ m)); [rewrite decide_True by set_solver|rewrite decide_False by set_solver]; done.
  - eexists. split; [done|]. cbn. split_and!; try done; [|lia]. split; [|exact Hl]. destruct Hi as [? ? ? Hid]. split; cbn; try done; lia.
Qed.

(** ** Loops that remove *)

(** The reference: the identifiers are met in order, those removed so far left out. *)
Fixpoint visits (body : Z -> list Z) (all : gset Z) (ks : list Z) (gone : gset Z) : list Z * gset Z :=
  match ks with
  | [] => ([], gone)
  | k :: ks =>
      if decide (k ∈ gone) then visits body all ks gone
      else let '(l, g) := visits body all ks (gone ∪ (list_to_set (body k) ∩ all)) in (k :: l, g)
  end.

Definition keys (m : IDMap) : gset Z := list_to_set (data_ m).*1.

Lemma live_exact m id : live m id = true <-> id ∈ keys m /\ id ∉ removed_ids_ m.
Proof.
  unfold live, IsRemoved, keys. rewrite andb_true_iff, negb_true_iff, bool_decide_eq_true, bool_decide_eq_false, elem_of_list_to_set.
  split; intros [H1 H2]; (split; [|done]).
  - destruct (decide (id ∈ (data_ m).*1)) as [|H]; [done|]. by apply find_None in H.
  - intros E. by apply find_None in E.
Qed.

Lemma remove_all_exact ids m : iteration_depth_ m <> 0 ->
  remove_all ids m = Ok (set_removed (removed_ids_ m ∪ (list_to_set ids ∩ keys m)) m).
Proof.
  revert m. induction ids as [|id ids IH]; intros m Hd; cbn [remove_all].
  - f_equal. destruct m as [dp rm nx da ck]. unfold set_removed, keys. cbn. f_equal. set_solver.
  - assert ((if live m id then Remove id m else Ok m) =
            Ok (set_removed (removed_ids_ m ∪ ({[id]} ∩ keys m)) m)) as ->.
    { destruct (live m id) eqn:E.
      - apply live_exact in E as [Hk Hr]. unfold Remove, IsRemoved. rewrite bool_decide_eq_false_2 by done.
        destruct (table_find id (data_ m)) eqn:Ef.
        2: { apply find_None in Ef. unfold keys in Hk. apply elem_of_list_to_set in Hk. done. }
        rewrite (proj2 (Z.eqb_neq _ 0) Hd). f_equal. f_equal. set_solver.
      - f_equal. destruct m as [dp rm nx da ck]. unfold set_removed. cbn. f_equal.
        assert (~ (id ∈ keys (mkIDMap dp rm nx da ck) /\ id ∉ rm)) as Hn by (rewrite <- (live_exact (mkIDMap dp rm nx da ck)); by rewrite E).
        destruct (decide (id ∈ rm)); set_solver. }
    cbn [mbind res_bind]. rewrite IH by done. f_equal. unfold set_removed, keys. cbn. f_equal. set_solver.
Qed.

Lemma from_middle pre k v suf : k ∉ pre.*1 -> from k (pre ++ (k, v) :: suf) = (k, v) :: suf.
Proof.
  induction pre as [|[k' v'] pre IH]; cbn; intros Hk; [by rewrite Z.eqb_refl|]. apply not_elem_of_cons in Hk as [? ?].
  rewrite (proj2 (Z.eqb_neq k' k)) by congruence. auto.
Qed.

Lemma loop_exact body suf pre m fuel : data_ m = pre ++ suf -> NoDup (data_ m).*1 -> 0 < iteration_depth_ m -> (length suf <= fuel)%nat ->
  let '(l, g) := visits body (keys m) suf.*1 (removed_ids_ m) in
  loop body fuel (SkipRemovedEntries m suf) m = Some (m' ← Iterator_delete (set_removed g m); Ok (l, m')).
Proof.
  revert pre m fuel. induction suf as [|[k v] suf IH]; intros pre m fuel Hda Hn Hd Hf; cbn [visits fmap list_fmap fst SkipRemovedEntries].
  - replace (set_removed (removed_ids_ m) m) with m by (by destruct m). by destruct fuel.
  - unfold IsRemoved at 1. destruct (decide (k ∈ removed_ids_ m)) as [Hin|Hin].
    + rewrite bool_decide_eq_true_2 by done. apply (IH (pre ++ [(k, v)])); [by rewrite <- app_assoc|done|done|cbn in Hf; lia].
    + rewrite bool_decide_eq_false_2 by done. destruct fuel as [|fuel]; [cbn in Hf; lia|]. cbn [loop].
      rewrite remove_all_exact by lia. set (m1 := set_removed _ m).
      assert (k ∉ pre.*1) as Hk.
      { rewrite Hda, fmap_app in Hn. apply NoDup_app in Hn as (_ & Hdis & _). intros Hk. apply (Hdis k Hk). cbn. set_solver. }
      cbn [Advance]. change (data_ m1) with (data_ m). rewrite Hda, from_middle by done.
      specialize (IH (pre ++ [(k, v)]) m1 fuel). change (data_ m1) with (data_ m) in IH. change (keys m1) with (keys m) in IH.
      change (removed_ids_ m1) with (removed_ids_ m ∪ (list_to_set (body k) ∩ keys m)) in IH.
      destruct (visits body (keys m) suf.*1 _) as [l g]. rewrite IH; [|by rewrite <- app_assoc|done|done|cbn in Hf; lia].
      cbn [mbind option_bind]. change (set_removed g m1) with (set_removed g m). destruct (Iterator_delete (set_removed g m)); done.
Qed.

Lemma visits_spec body all ks gone : NoDup ks ->
  let '(l, g) := visits body all ks gone in
  NoDup l /\ (forall k, k ∈ l -> k ∈ ks /\ k ∉ gone) /\ g = gone ∪ (list_to_set (l ≫= body) ∩ all) /\
  (forall k, k ∈ ks -> k ∈ gone \/ k ∈ l \/ k ∈ l ≫= body).
Proof.
  revert gone. induction ks as [|k ks IH]; intros gone Hn; cbn [visits].
  - split_and!; [constructor|set_solver|set_solver|set_solver].
  - apply NoDup_cons in Hn as [Hk Hn]. destruct (decide (k ∈ gone)) as [Hin|Hin].
    + specialize (IH gone Hn). destruct (visits body all ks gone) as [l g]. destruct IH as (H1 & H2 & H3 & H4).
      split_and!; [done| |done|].
      * intros j Hj. destruct (H2 j Hj). set_solver.
      * intros j [->|Hj]%elem_of_cons; [by left|auto].
    + specialize (IH (gone ∪ (list_to_set (body k) ∩ all)) Hn). destruct (visits body all ks _) as [l g].
      destruct IH as (H1 & H2 & H3 & H4). split_and!.
      * apply NoDup_cons. split; [|done]. intros Hj. by destruct (H2 k Hj).
      * intros j [->|Hj]%elem_of_cons; [set_solver|]. destruct (H2 j Hj). set_solver.
      * rewrite H3. cbn [mbind list_bind]. set_solver.
      * intros j [->|Hj]%elem_of_cons; [right; left; set_solver|]. destruct (H4 j Hj) as [Hg|[Hl|Hb]].
        -- apply elem_of_union in Hg as [|Hb]; [by left|]. right. right. cbn. apply elem_of_app. left. set_solver.
        -- right. left. set_solver.
        -- right. right. cbn. apply elem_of_app. by right.
Qed.

Lemma visits_order body all ks gone : NoDup ks -> (forall k, k ∈ ks -> k ∈ all) ->
  (visits body all ks gone).1 `sublist_of` ks /\
  (forall a k b, ks = a ++ k :: b ->
    k ∈ (visits body all ks gone).1 <-> (k ∉ gone) /\ forall j, j ∈ a -> j ∈ (visits body all ks gone).1 -> k ∉ body j).
Proof.
  revert gone. induction ks as [|k0 ks IH]; intros gone Hn Hall; cbn [visits].
  { split; [done|]. intros [] ? ? ?; discriminate. }
  apply NoDup_cons in Hn as [Hk0 Hn]. assert (forall k, k ∈ ks -> k ∈ all) as Hall' by set_solver.
  destruct (decide (k0 ∈ gone)) as [Hin|Hin].
  - destruct (IH gone Hn Hall') as [H1 H2]. split; [by constructor|].
    assert (k0 ∉ (visits body all ks gone).1) as Hnot by (intros Hx; apply Hk0; exact (elem_of_submseteq _ _ _ Hx (sublist_submseteq _ _ H1))).
    intros [|x a] k b E; injection E as <- ->; [split; [done|]; by intros []|].
    rewrite (H2 a k b eq_refl). set_solver.
  - destruct (IH (gone ∪ (list_to_set (body k0) ∩ all)) Hn Hall') as [H1 H2].
    destruct (visits body all ks _) as [l g]. cbn [fst] in *. split; [by constructor|].
    intros [|x a] k b E; injection E as <- ->; [split; [set_solver|]; intros _; apply elem_of_cons; by left|].
    assert (k <> k0) as Hne by set_solver. assert (k ∈ all) as Ha by (apply Hall'; set_solver).
    rewrite elem_of_cons, (H2 a k b eq_refl). set_solver.
Qed.

Lemma visits_filter body all ks gone0 gone : gone0 ⊆ gone ->
  visits body all ks gone = visits body all (filter (fun k => k ∉ gone0) ks) gone.
Proof.
  revert gone. induction ks as [|k ks IH]; intros gone Hg; [done|]. rewrite filter_cons.
  destruct (decide (k ∉ gone0)) as [Hk|Hk]; cbn [visits].
  - case_decide; [by apply IH|]. by rewrite (IH (gone ∪ _)) by set_solver.
  - rewrite decide_True by (apply Hg; destruct (decide (k ∈ gone0)); done). by apply IH.
Qed.

Lemma repr_removed m mp ids : repr m mp -> iteration_depth_ m <> 0 ->
  repr (set_removed (removed_ids_ m ∪ (list_to_set ids ∩ keys m)) m) (filter (fun kv => kv.1 ∉ ids) mp).
Proof.
  intros [Hi Hl] Hd. split.
  - destruct Hi as [? Hrm ? Hid]. split; cbn; [done| |done|done]. intros k [|[_ Hk]%elem_of_intersection]%elem_of_union; [auto|].
    unfold keys in Hk. by apply elem_of_list_to_set in Hk.
  - intros id. unfold found. cbn. rewrite map_lookup_filter, Hl. unfold found.
    destruct (decide (id ∈ removed_ids_ m)) as [Hr|Hr]; [by rewrite decide_True by set_solver|].
    destruct (table_find id (data_ m)) as [v|] eqn:Ef; cbn [mbind option_bind]; [|by case_decide].
    assert (id ∈ keys m) as Hk.
    { unfold keys. apply elem_of_list_to_set. destruct (decide (id ∈ (data_ m).*1)) as [|Hx]; [done|]. apply find_None in Hx. congruence. }
    destruct (decide (id ∈ ids)) as [Hin|Hin].
    + rewrite decide_True by set_solver. cbn [mbind option_bind]. by case_guard.
    + rewrite decide_False by set_solver. cbn [mbind option_bind]. by case_guard.
Qed.

(** C30: removing from the map while looping over it is safe, whatever the body of the loop
    removes: the iterator never dangles and the loop ends.  There is an order of exactly the
    identifiers that are in the map at the start such that the loop meets them in that
    order, each at most once, and an identifier is met exactly when no turn that was made
    before its place in the order removed it; afterwards the map holds exactly what was not
    removed, and when this was the outermost loop nothing removed is kept.  (An iterator can
    be opened: fewer than 2^31 - 1 are.) *)
Theorem IDMap_loop_safe body m mp : repr m mp -> iteration_depth_ m < 2 ^ 31 - 1 ->
  exists order l m', for_each body m = Some (Ok (l, m')) /\
    NoDup order /\ (forall k, k ∈ order <-> is_Some (mp !! k)) /\ l `sublist_of` order /\
    (forall before k after, order = before ++ k :: after ->
      k ∈ l <-> forall j, j ∈ before -> j ∈ l -> k ∉ body j) /\
    repr m' (filter (fun kv => kv.1 ∉ l ≫= body) mp) /\ iteration_depth_ m' = iteration_depth_ m /\
    (iteration_depth_ m = 0 -> removed_ids_ m' = ∅).
Proof.
  intros Hr Hd. unfold for_each. pose proof Hr as [Hi Hl]. pose proof (inv_depth m Hi) as Hdp.
  destruct (Iterator_init_exact (data_ m) m mp Hr Hd) as (m1 & E & Hr1 & Em1). unfold Iterator_new. rewrite E.
  assert (SkipRemovedEntries m (data_ m) = SkipRemovedEntries m1 (data_ m1)) as ->.
  { rewrite Em1. cbn. generalize (data_ m). intros da. induction da as [|[k v] da IH]; [done|]. cbn. unfold IsRemoved in *. cbn. by rewrite IH. }
  assert (iteration_depth_ m1 = iteration_depth_ m + 1) as Hd1 by (by rewrite Em1).
  pose proof Hr1 as [Hi1 Hl1].
  pose proof (loop_exact body (data_ m1) [] m1 (length (data_ m1)) eq_refl (inv_keys m1 Hi1) ltac:(lia) ltac:(lia)) as HL.
  pose proof (visits_spec body (keys m1) (data_ m1).*1 (removed_ids_ m1) (inv_keys m1 Hi1)) as HV.
  pose proof (visits_filter body (keys m1) (data_ m1).*1 (removed_ids_ m1) (removed_ids_ m1) ltac:(done)) as HF.
  set (order := filter (fun k => k ∉ removed_ids_ m1) (data_ m1).*1) in *.
  assert (NoDup order) as Hno by (by apply NoDup_filter, (inv_keys m1 Hi1)).
  assert (forall k, k ∈ order <-> is_Some (mp !! k)) as Hord.
  { intros k. unfold order. rewrite list_elem_of_filter, Hl1. unfold found. case_decide as Ed.
    - split; [by intros []|by intros []].
    - rewrite <- not_eq_None_Some, (find_None k (data_ m1)). destruct (decide (k ∈ (data_ m1).*1)); tauto. }
  destruct (visits_order body (keys m1) order (removed_ids_ m1) Hno) as [Ho1 Ho2].
  { intros k Hk. unfold order in Hk. apply list_elem_of_filter in Hk as [_ Hk]. by apply elem_of_list_to_set. }
  rewrite <- HF in Ho1, Ho2.
  destruct (visits body (keys m1) (data_ m1).*1 (removed_ids_ m1)) as [l g]. destruct HV as (Hn & Hin & -> & Hall). rewrite HL.
  destruct (Iterator_delete_exact (set_removed (removed_ids_ m1 ∪ (list_to_set (l ≫= body) ∩ keys m1)) m1)
              (filter (fun kv => kv.1 ∉ l ≫= body) mp)) as (m' & -> & Hr' & Hd' & _ & _ & _ & He');
    [apply repr_removed; [done|lia]|cbn; lia|].
  exists order, l, m'. cbn in Hd', He'. split_and!; [done|done|done|done| |done|lia|intros H0; apply He'; lia].
  intros a k b Eo. rewrite (Ho2 a k b Eo). split; [by intros []|]. intros Hb. split; [|done].
  assert (k ∈ order) as Hk by (rewrite Eo; set_solver). unfold order in Hk. by apply list_elem_of_filter in Hk as [].
Qed.

(** ** Additions

    The order of the table is any rearrangement of its nodes. *)
Context (arrange : list node -> list node) (arrange_perm : forall l, arrange l ≡ₚ l).

Lemma assign_spec id v l : NoDup l.*1 ->
  NoDup (table_assign arrange id v l).*1 /\ (forall k, k ∈ (table_assign arrange id v l).*1 <-> k = id \/ k ∈ l.*1) /\
  (forall id', table_find id' (table_assign arrange id v l) = if decide (id' = id) then Some v else table_find id' l).
Proof.
  intros Hn. unfold table_assign. destruct (table_find id l) eqn:E.
  - rewrite keys_set. split_and!; [done| |by intros; apply find_set].
    intros k. split; [auto|]. intros [->|]; [|done]. destruct (decide (id ∈ l.*1)) as [|Hi]; [done|]. apply find_None in Hi. congruence.
  - apply find_None in E as Hi. assert (NoDup ((id, v) :: l).*1) as Hn' by (cbn; by apply NoDup_cons).
    pose proof (arrange_perm ((id, v) :: l)) as Hp. split_and!.
    + by rewrite Hp.
    + intros k. rewrite Hp. cbn. by rewrite elem_of_cons.
    + intros id'. rewrite (find_perm id' _ ((id, v) :: l)) by (by rewrite ?Hp). cbn [table_find].
      case_decide as Ed; [subst; by rewrite Z.eqb_refl|]. by rewrite (proj2 (Z.eqb_neq id id')) by congruence.
Qed.

Lemma Add_exact v m mp : repr m mp -> next_id_ m ∉ (data_ m).*1 -> in_s 32 (next_id_ m + 1) ->
  negb (check_on_null_data_ m) || negb (is_null v) = true ->
  exists m', Add arrange v m = Ok (next_id_ m, m') /\ repr m' (<[next_id_ m := v]> mp) /\ next_id_ m' = next_id_ m + 1 /\
    iteration_depth_ m' = iteration_depth_ m /\ check_on_null_data_ m' = check_on_null_data_ m /\
    (forall k, k ∈ (data_ m').*1 <-> k = next_id_ m \/ k ∈ (data_ m).*1).
Proof.
  intros Hr Hf Ho Hc. pose proof Hr as [Hi Hl]. unfold Add. rewrite Hc. apply find_None in Hf as Hf'. cbn [assert_ mbind res_bind].
  rewrite bool_decide_eq_true_2 by done. unfold arith. rewrite bool_decide_eq_true_2 by done. cbn [assert_ mbind res_bind].
  destruct (assign_spec (next_id_ m) v (data_ m) (inv_keys m Hi)) as (Hn & Hk & Hfi).
  eexists. split; [done|]. split; [|by cbn].
  assert (repr (set_data (table_assign arrange (next_id_ m) v (data_ m)) m) (<[next_id_ m := v]> mp)) as [Hi' Hl'].
  { apply (repr_data m mp); [done|done|intros k Hkr; apply Hk; right; by apply (inv_removed m Hi)|].
    intros id. rewrite Hfi. destruct (decide (id = next_id_ m)) as [->|Hne].
    - rewrite lookup_insert_eq. rewrite decide_False; [done|]. intros Hkr. by apply Hf, (inv_removed m Hi).
    - rewrite lookup_insert_ne by done. apply Hl. }
  split; [by destruct Hi'|done].
Qed.

Lemma AddWithID_exact v id m mp : repr m mp -> mp !! id = None -> negb (check_on_null_data_ m) || negb (is_null v) = true ->
  exists m', AddWithID arrange v id m = Ok m' /\ repr m' (<[id := v]> mp) /\ next_id_ m' = next_id_ m /\
    iteration_depth_ m' = iteration_depth_ m /\ check_on_null_data_ m' = check_on_null_data_ m.
Proof.
  intros Hr Hf Hc. pose proof Hr as [Hi Hl]. unfold AddWithID. rewrite Hc. cbn [assert_ mbind res_bind].
  destruct (assign_spec id v (data_ m) (inv_keys m Hi)) as (Hn & Hk & Hfi). rewrite Hl in Hf. unfold found in Hf.
  unfold IsRemoved. destruct (decide (id ∈ removed_ids_ m)) as [Hin|Hin].
  - rewrite bool_decide_eq_true_2 by done. cbn [mbind res_bind]. eexists. split; [done|]. split; [|done]. split.
    + destruct Hi as [? Hrm ? Hid]. split; cbn; [done| |done|].
      * intros k Hkr. apply Hk. right. apply Hrm. set_solver.
      * intros Hd. rewrite Hid by done. set_solver.
    + intros id'. unfold found. cbn. rewrite Hfi. destruct (decide (id' = id)) as [->|Hne].
      * rewrite lookup_insert_eq. by rewrite decide_False by set_solver.
      * rewrite lookup_insert_ne by done. rewrite Hl. unfold found.
        destruct (decide (id' ∈ removed_ids_ m)); [rewrite decide_True by set_solver|rewrite decide_False by set_solver]; done.
  - rewrite bool_decide_eq_false_2 by done. rewrite bool_decide_eq_true_2 by done. cbn [assert_ mbind res_bind].
    eexists. split; [done|]. split; [|done]. apply (repr_data m mp); [done|done|intros k Hkr; apply Hk; right; by apply (inv_removed m Hi)|].
    intros id'. rewrite Hfi. destruct (decide (id' = id)) as [->|Hne].
    + rewrite lookup_insert_eq. by rewrite decide_False.
    + rewrite lookup_insert_ne by done. apply Hl.
Qed.

(** ** Every sequence of operations *)
Inductive op := DoAdd (data : option V) | DoAddWithID (data : option V) (id : Z) | DoRemove (id : Z)
  | DoReplace (id : Z) (data : option V) | DoClear | DoBegin | DoEnd.
Inductive out := OutNone | OutId (id : Z) | OutData (data : option V).

Definition exec (o : op) (m : IDMap) : res (out * IDMap) :=
  match o with
  | DoAdd v => '(id, m) ← Add arrange v m; Ok (OutId id, m)
  | DoAddWithID v id => m ← AddWithID arrange v id m; Ok (OutNone, m)
  | DoRemove id => m ← Remove id m; Ok (OutNone, m)
  | DoReplace id v => '(old, m) ← Replace id v m; Ok (OutData old, m)
  | DoClear => Ok (OutNone, Clear m)
  | DoBegin => '(_, m) ← Iterator_new m; Ok (OutNone, m)
  | DoEnd => m ← Iterator_delete m; Ok (OutNone, m)
  end.
Fixpoint exec_all (os : list op) (m : IDMap) : res (list out * IDMap) :=
  match os with
  | [] => Ok ([], m)
  | o :: os => '(a, m) ← exec o m; '(l, m) ← exec_all os m; Ok (a :: l, m)
  end.

(** The abstract map: what is there, the identifiers ever used, the next one to be given out
    and the number of open iterators.  An operation it has no result for is one the class
    does not allow. *)
Record model := mkModel { contents : gmap Z (option V); used : gset Z; next : Z; open : Z; strict : bool }.

Definition insert_model (id : Z) (v : option V) (s : model) : model :=
  mkModel (<[id := v]> (contents s)) ({[id]} ∪ used s) (next s) (open s) (strict s).
Definition allowed (v : option V) (s : model) : bool := negb (strict s) || negb (is_null v).

Definition spec (o : op) (s : model) : option (out * model) :=
  match o with
  | DoAdd v =>
      if allowed v s && bool_decide (next s ∉ used s) && bool_decide (in_s 32 (next s + 1)) then
        let s' := insert_model (next s) v s in
        Some (OutId (next s), mkModel (contents s') (used s') (next s + 1) (open s) (strict s))
      else None
  | DoAddWithID v id =>
      if allowed v s && bool_decide (contents s !! id = None) then Some (OutNone, insert_model id v s) else None
  | DoRemove id =>
      _ ← contents s !! id; Some (OutNone, mkModel (delete id (contents s)) (used s) (next s) (open s) (strict s))
  | DoReplace id v =>
      old ← contents s !! id;
      if allowed v s then Some (OutData old, mkModel (<[id := v]> (contents s)) (used s) (next s) (open s) (strict s)) else None
  | DoClear => Some (OutNone, mkModel ∅ (used s) (next s) (open s) (strict s))
  | DoBegin => if open s <? 2 ^ 31 - 1 then Some (OutNone, mkModel (contents s) (used s) (next s) (open s + 1) (strict s)) else None
  | DoEnd => if 0 <? open s then Some (OutNone, mkModel (contents s) (used s) (next s) (open s - 1) (strict s)) else None
  end.
Fixpoint spec_all (os : list op) (s : model) : option (list out * model) :=
  match os with
  | [] => Some ([], s)
  | o :: os => '(a, s) ← spec o s; '(l, s) ← spec_all os s; Some (a :: l, s)
  end.

Record refines (m : IDMap) (s : model) : Prop := {
  refines_repr : repr m (contents s);
  refines_used : forall k, k ∈ (data_ m).*1 -> k ∈ used s;
  refines_next : next_id_ m = next s;
  refines_open : iteration_depth_ m = open s;
  refines_strict : check_on_null_data_ m = strict s }.

Lemma AddWithID_keys v id m m' : AddWithID arrange v id m = Ok m' -> NoDup (data_ m).*1 -> forall k, k ∈ (data_ m').*1 -> k = id \/ k ∈ (data_ m).*1.
Proof.
  intros E Hn k Hk. destruct (assign_spec id v (data_ m) Hn) as (_ & Hs & _). apply Hs. revert E. unfold AddWithID.
  destruct (assert_ (negb _ || _)); cbn [mbind res_bind]; try discriminate. destruct (IsRemoved m id); cbn [mbind res_bind].
  - by intros [= <-].
  - destruct (assert_ (bool_decide _)); cbn [mbind res_bind]; try discriminate. by intros [= <-].
Qed.

Lemma exec_exact o m s a s' : refines m s -> spec o s = Some (a, s') -> exists m', exec o m = Ok (a, m') /\ refines m' s'.
Proof.
  intros [Hr Hu Hx Ho Hs] E. pose proof Hr as [Hi Hl]. destruct o as [v|v id|id|id v| | |]; cbn [spec exec] in *.
  - destruct (allowed v s) eqn:Ha; [|done]. case_bool_decide as Hf; [|done]. case_bool_decide as Hb; [|done]. injection E as <- <-.
    rewrite <- Hx in Hf, Hb |- *.
    destruct (Add_exact v m (contents s) Hr) as (m' & -> & Hr' & E1 & E2 & E3 & Hk);
      [intros Hin; by apply Hf, Hu|done|unfold allowed in Ha; by rewrite Hs|].
    eexists. split; [done|]. split; cbn; rewrite <- ?Hx; [done| |congruence..]. intros k Hin. apply Hk in Hin as [->|Hin]; set_solver.
  - destruct (allowed v s) eqn:Ha; [|done]. case_bool_decide as Hf; [|done]. injection E as <- <-.
    destruct (AddWithID_exact v id m (contents s) Hr Hf) as (m' & Ea & Hr' & E1 & E2 & E3); [unfold allowed in Ha; by rewrite Hs|].
    rewrite Ea. eexists. split; [done|]. split; cbn; [done| |congruence..].
    intros k Hin. apply (AddWithID_keys v id m m' Ea (inv_keys m Hi)) in Hin as [->|Hin]; set_solver.
  - pose proof (Remove_exact id m (contents s) Hr) as H. destruct (contents s !! id) as [old|]; [|done]. injection E as <- <-.
    destruct H as (m' & -> & Hr' & E1 & E2 & E3 & _ & Hk). eexists. split; [done|]. split; cbn; [done|auto|congruence..].
  - destruct (contents s !! id) as [old|] eqn:Ef; [|done]. cbn in E. destruct (allowed v s) eqn:Ha; [|done]. injection E as <- <-.
    destruct (Replace_exact id v m (contents s) old Hr Ef) as (m' & -> & Hr' & E1 & E2 & E3 & Hk); [unfold allowed in Ha; by rewrite Hs|].
    eexists. split; [done|]. split; cbn; [done|by rewrite Hk|congruence..].
  - injection E as <- <-. destruct (Clear_exact m (contents s) Hr) as [Hr' Hk]. eexists. split; [done|].
    split; cbn; [done|auto|..]; unfold Clear; by destruct (iteration_depth_ m =? 0).
  - destruct (Z.ltb_spec (open s) (2 ^ 31 - 1)); [|done]. injection E as <- <-.
    destruct (Iterator_init_exact (data_ m) m (contents s) Hr) as (m' & E' & Hr' & ->); [lia|]. unfold Iterator_new. rewrite E'.
    eexists. split; [done|]. split; cbn; [done|done|done|congruence|done].
  - destruct (Z.ltb_spec 0 (open s)); [|done]. injection E as <- <-.
    destruct (Iterator_delete_exact m (contents s) Hr) as (m' & -> & Hr' & E1 & E2 & E3 & Hk & _); [lia|].
    eexists. split; [done|]. split; cbn; [done|auto|congruence..].
Qed.

Lemma exec_all_exact os m s l s' : refines m s -> spec_all os s = Some (l, s') -> exists m', exec_all os m = Ok (l, m') /\ refines m' s'.
Proof.
  revert m s l s'. induction os as [|o os IH]; intros m s l s' Hr E; cbn in E |- *; [injection E as <- <-; eauto|].
  destruct (spec o s) as [[a s1]|] eqn:Eo; [|done]. cbn in E. destruct (spec_all os s1) as [[l1 s2]|] eqn:Es; [|done].
  injection E as <- <-. destruct (exec_exact o m s a s1 Hr Eo) as (m1 & -> & Hr1).
  destruct (IH m1 s1 l1 s2 Hr1 Es) as (m2 & E2 & Hr2). cbn. rewrite E2. by exists m2.
Qed.

(** Every sequence of additions, removals, replacements, clearings and openings and
    closings of iterators that the class allows does to the map what it does to an abstract
    finite map, wherever the removals that iterators hold back stand: each call returns what
    the abstract one does, and afterwards lookups and the size agree with it, whatever order
    the hash table keeps its nodes in. *)
Theorem IDMap_refines os check l s :
  spec_all os (mkModel ∅ ∅ 1 0 check) = Some (l, s) ->
  exists m, exec_all os (set_check_on_null_data check IDMap_new) = Ok (l, m) /\
    (forall id, Lookup id m = mjoin (contents s !! id)) /\
    (Z.of_nat (length (data_ m)) < 2 ^ 64 -> size m = Z.of_nat (base.size (contents s))) /\
    (open s = 0 -> removed_ids_ m = ∅).
Proof.
  intros E. destruct (exec_all_exact os (set_check_on_null_data check IDMap_new) (mkModel ∅ ∅ 1 0 check) l s) as (m & Em & [Hr Hu Hx Ho Hs]); [|done|].
  { destruct repr_new as [[? ? ? ?] Hl]. split; cbn; [split; [by split|exact Hl]|set_solver|done..]. }
  exists m. split_and!; [done| | |].
  - intros id. by apply Lookup_exact.
  - by apply size_exact.
  - intros H0. apply (inv_idle m (proj1 Hr)). congruence.
Qed.
End id_map.

(** Five objects, one removed while an iterator is open and its identifier used again. *)
Definition sample_ops : list (op (V := nat)) :=
  [DoAdd (Some 10%nat); DoAdd (Some 20%nat); DoAddWithID (Some 30%nat) 7; DoBegin; DoRemove 1; DoRemove 7;
   DoAddWithID (Some 40%nat) 1; DoReplace 2 (Some 50%nat); DoEnd].

Lemma IDMap_refines_witness : exists m,
  exec_all (fun l => l) sample_ops (set_check_on_null_data true IDMap_new) =
    Ok ([OutId 1; OutId 2; OutNone; OutNone; OutNone; OutNone; OutNone; OutData (Some 20%nat); OutNone], m) /\
  Lookup 1 m = Some 40%nat /\ Lookup 7 m = None /\ removed_ids_ m = ∅.
Proof.
  destruct (IDMap_refines (fun l => l) (fun l => reflexivity l) sample_ops true
    [OutId 1; OutId 2; OutNone; OutNone; OutNone; OutNone; OutNone; OutData (Some 20%nat); OutNone]
    (mkModel {[1 := Some 40%nat; 2 := Some 50%nat]} {[1; 7; 2]} 3 0 true)) as (m & E & Hl & _ & Hr);
    [by vm_compute|].
  exists m. split_and!; [exact E|rewrite Hl; by vm_compute|rewrite Hl; by vm_compute|by apply Hr].
Defined.

(** A loop over three entries whose first turn removes the one it is at and the last. *)
Definition sample_map : IDMap (V := nat) := mkIDMap 0 ∅ 4 [(3, Some 30%nat); (2, None); (1, Some 10%nat)] false.

Lemma IDMap_loop_safe_witness :
  exists l m', for_each (fun k => if k =? 3 then [3; 1] else []) sample_map = Some (Ok (l, m')) /\
    3 ∈ l /\ removed_ids_ m' = ∅.
Proof.
  destruct (IDMap_loop_safe (fun k => if k =? 3 then [3; 1] else []) sample_map
    (list_to_map [(3, Some 30%nat); (2, None); (1, Some 10%nat)])) as (order & l & m' & E & Hn & Ho & _ & Hv & _ & _ & Hr).
  - split.
    + split; cbn; [|set_solver|lia|done]. apply NoDup_ListNoDup. repeat constructor; cbn; intuition discriminate.
    + intros id. unfold found. cbn [removed_ids_ sample_map data_]. rewrite decide_False by set_solver. symmetry. apply find_map.
  - cbn. lia.
  - exists l, m'. split_and!; [exact E| |by apply Hr]. assert (3 ∈ order) as Hin by (apply Ho; by eexists).
    apply list_elem_of_split in Hin as (a & b & ->). apply (Hv a 3 b eq_refl). intros j Hj _ Hb.
    apply NoDup_app in Hn as (_ & Hd & _). destruct (Z.eqb_spec j 3) as [->|]; [|set_solver]. apply (Hd 3 Hj). set_solver.
Defined.
