(* ===== verification/SmallMap.v ===== *)
(** * The small map

    [small_map] of [base/containers/small_map.h] of [include/webrtc]: a map that keeps up to
    [kArraySize] elements in an array inside the object and moves them to a real map when
    there are more.  The array and the map share their storage and are constructed and
    destroyed by hand, element by element: a slot of the array is [None] where there is no
    object, and to destroy or read an object that is not there, or to construct one over
    another, is [Undef].  The real map is a finite map; its iterator is the key it points to,
    [None] for [end()], and which key follows another is a parameter.  A failed [CHECK] or
    [DCHECK] is [Crash].  Keys are compared by equality; the functor that initialises the map
    is the default one, which constructs an empty map. *)

From S2P Require Import Prelude.
From stdpp Require Import list gmap fin_maps.

Definition kUsingFullMapSentinel : Z := 2 ^ 64 - 1.

Inductive iterator (K : Type) := ArrayIter (i : nat) | MapIter (k : option K).
Arguments ArrayIter {K} i.
Arguments MapIter {K} k.
#[export] Instance iterator_eq_dec {K} `{EqDecision K} : EqDecision (iterator K).
Proof. solve_decision. Defined.

Section small_map.
Context {K V : Type} `{Countable K}.
Context (kArraySize : nat) (data_type : V) (successor : K -> gmap K V -> option K).

Local Abbreviation value_type := (K * V)%type.

Record small_map := mkSmall { size_ : Z; array_ : list (option value_type); map_ : option (gmap K V) }.
Definition small_map_new : small_map := mkSmall 0 (replicate kArraySize None) None.
Definition set_size (n : Z) (m : small_map) : small_map := mkSmall n (array_ m) (map_ m).
Definition set_map (mp : option (gmap K V)) (m : small_map) : small_map := mkSmall (size_ m) (array_ m) mp.

(** ** Objects in the storage *)
Definition construct (i : nat) (x : value_type) (m : small_map) : res small_map :=
  match array_ m !! i, map_ m with
  | Some None, None => Ok (mkSmall (size_ m) (<[i := Some x]> (array_ m)) None)
  | _, _ => Undef
  end.
Definition destroy (i : nat) (m : small_map) : res small_map :=
  match array_ m !! i with
  | Some (Some _) => Ok (mkSmall (size_ m) (<[i := None]> (array_ m)) (map_ m))
  | _ => Undef
  end.
Definition read (i : nat) (m : small_map) : res value_type :=
  match array_ m !! i with Some (Some x) => Ok x | _ => Undef end.
Definition real_map (m : small_map) : res (gmap K V) := match map_ m with Some mp => Ok mp | None => Undef end.
(** [insert] of the real map. *)
Definition map_insert (x : value_type) (mp : gmap K V) : bool * gmap K V :=
  match mp !! x.1 with Some _ => (false, mp) | None => (true, <[x.1 := x.2]> mp) end.

(** ** Lookups *)
Definition UsingFullMap (m : small_map) : bool := (size_ m =? kUsingFullMapSentinel)%Z.
Definition count_ (m : small_map) : nat := Z.to_nat (size_ m).

(** The loops over the array, forwards with [n] elements left and backwards. *)
Fixpoint find_loop (key : K) (n i : nat) (m : small_map) : res (option nat) :=
  match n with
  | O => Ok None
  | S n => x ← read i m; if decide (x.1 = key) then Ok (Some i) else find_loop key n (S i) m
  end.
Fixpoint rfind_loop (key : K) (i : nat) (m : small_map) : res (option nat) :=
  match i with
  | O => Ok None
  | S index => x ← read index m; if decide (x.1 = key) then Ok (Some index) else rfind_loop key index m
  end.

Definition map_find (key : K) (mp : gmap K V) : iterator K := MapIter (match mp !! key with Some _ => Some key | None => None end).
Definition find (key : K) (m : small_map) : res (iterator K) :=
  if UsingFullMap m then mp ← real_map m; Ok (map_find key mp)
  else r ← find_loop key (count_ m) 0 m; Ok (ArrayIter (default (count_ m) r)).
Definition end_ (m : small_map) : iterator K := if UsingFullMap m then MapIter None else ArrayIter (count_ m).
Definition count (key : K) (m : small_map) : res nat := it ← find key m; Ok (if decide (it = end_ m) then 0 else 1).
Definition size (m : small_map) : res Z :=
  if UsingFullMap m then mp ← real_map m; Ok (Z.of_nat (base.size mp)) else Ok (size_ m).
Definition empty (m : small_map) : res bool :=
  if UsingFullMap m then mp ← real_map m; Ok (bool_decide (mp = ∅)) else Ok (size_ m =? 0)%Z.
Definition deref (it : iterator K) (m : small_map) : res value_type :=
  match it with
  | ArrayIter i => read i m
  | MapIter (Some k) => mp ← real_map m; match mp !! k with Some v => Ok (k, v) | None => Undef end
  | MapIter None => Undef
  end.

(** ** Changes *)
Fixpoint destroy_loop (n i : nat) (m : small_map) : res small_map :=
  match n with O => Ok m | S n => m ← destroy i m; destroy_loop n (S i) m end.
Definition Destroy (m : small_map) : res small_map :=
  if UsingFullMap m then _ ← real_map m; Ok (set_map None m) else destroy_loop (count_ m) 0 m.
Definition clear (m : small_map) : res small_map := m ← Destroy m; Ok (set_size 0 m).

(** [ConvertToRealMap]: the loop that moves the elements to the temporary array, and the one
    that inserts them into the map. *)
Fixpoint move_out (n i : nat) (m : small_map) : res (list value_type * small_map) :=
  match n with
  | O => Ok ([], m)
  | S n => x ← read i m; m ← destroy i m; '(l, m) ← move_out n (S i) m; Ok (x :: l, m)
  end.
Definition insert_temp (l : list value_type) (mp : gmap K V) : gmap K V := foldl (fun mp x => snd (map_insert x mp)) mp l.
Definition ConvertToRealMap (m : small_map) : res small_map :=
  '(temp, m) ← move_out kArraySize 0 m;
  Ok (mkSmall kUsingFullMapSentinel (array_ m) (Some (insert_temp temp ∅))).

Definition insert_full (x : value_type) (m : small_map) : res (iterator K * bool * small_map) :=
  mp ← real_map m;
  let '(b, mp) := map_insert x mp in Ok (MapIter (Some x.1), b, set_map (Some mp) m).
Definition insert (x : value_type) (m : small_map) : res (iterator K * bool * small_map) :=
  if UsingFullMap m then insert_full x m
  else
    r ← find_loop x.1 (count_ m) 0 m;
    match r with
    | Some i => Ok (ArrayIter i, false, m)
    | None =>
        if (size_ m =? Z.of_nat kArraySize)%Z then m ← ConvertToRealMap m; insert_full x m
        else
          _ ← assert_ (size_ m <? Z.of_nat kArraySize)%Z;
          let i := count_ m in
          m ← construct i x m;
          Ok (ArrayIter i, true, set_size (wrapU 64 (size_ m + 1)) m)
    end.
(** [emplace] differs from [insert] in how it makes the element only. *)
Definition emplace (key : K) (v : V) (m : small_map) : res (iterator K * bool * small_map) := insert (key, v) m.
Fixpoint insert_range (l : list value_type) (m : small_map) : res small_map :=
  match l with [] => Ok m | x :: l => '(_, _, m) ← insert x m; insert_range l m end.

(** [operator[]]: where the value is, made if it was not there. *)
Definition subscript_full (key : K) (m : small_map) : res (iterator K * small_map) :=
  '(it, _, m) ← insert_full (key, data_type) m; Ok (it, m).
Definition subscript (key : K) (m : small_map) : res (iterator K * small_map) :=
  if UsingFullMap m then subscript_full key m
  else
    r ← rfind_loop key (count_ m) m;
    match r with
    | Some i => Ok (ArrayIter i, m)
    | None =>
        if (size_ m =? Z.of_nat kArraySize)%Z then m ← ConvertToRealMap m; subscript_full key m
        else
          _ ← assert_ (size_ m <? Z.of_nat kArraySize)%Z;
          let i := count_ m in
          m ← construct i (key, data_type) m;
          Ok (ArrayIter i, set_size (wrapU 64 (size_ m + 1)) m)
    end.
(** Writing through the reference it returns. *)
Definition assign (it : iterator K) (v : V) (m : small_map) : res small_map :=
  x ← deref it m;
  match it with
  | ArrayIter i => Ok (mkSmall (size_ m) (<[i := Some (x.1, v)]> (array_ m)) (map_ m))
  | MapIter _ => mp ← real_map m; Ok (set_map (Some (<[x.1 := v]> mp)) m)
  end.

(** [erase] of a position: the last element of the array takes the place of the one erased. *)
Definition erase_at (position : iterator K) (m : small_map) : res (iterator K * small_map) :=
  if UsingFullMap m then
    match position with
    | MapIter (Some k) =>
        mp ← real_map m;
        _ ← defined (bool_decide (is_Some (mp !! k)));
        Ok (MapIter (successor k mp), set_map (Some (delete k mp)) m)
    | _ => Undef
    end
  else
    match position with
    | MapIter _ => Undef
    | ArrayIter i =>
        _ ← assert_ (Z.of_nat i <=? size_ m)%Z;
        m ← destroy i m;
        let m := set_size (wrapU 64 (size_ m - 1)) m in
        if bool_decide (Z.of_nat i <> size_ m) then
          x ← read (count_ m) m;
          m ← construct i x m;
          m ← destroy (count_ m) m;
          Ok (ArrayIter i, m)
        else Ok (end_ m, m)
    end.
Definition erase (key : K) (m : small_map) : res (nat * small_map) :=
  it ← find key m;
  if decide (it = end_ m) then Ok (0, m)
  else '(_, m) ← erase_at it m; Ok (1, m).

(** [InitFrom], on storage that holds nothing. *)
Fixpoint copy_loop (n i : nat) (src m : small_map) : res small_map :=
  match n with O => Ok m | S n => x ← read i src; m ← construct i x m; copy_loop n (S i) src m end.
Definition InitFrom (src m : small_map) : res small_map :=
  let m := set_size (size_ src) m in
  if UsingFullMap src then mp ← real_map src; Ok (set_map (Some mp) m)
  else copy_loop (count_ src) 0 src m.
Definition small_map_copy (src : small_map) : res small_map := InitFrom src small_map_new.
Definition copy_assign (src m : small_map) : res small_map := m ← Destroy m; InitFrom src m.

(** ** Representation *)
Context (size_ok : 0 < kArraySize /\ (Z.of_nat kArraySize < kUsingFullMapSentinel)%Z).

(** The elements of the array are constructed and nothing else is. *)
Definition slots (l : list value_type) : list (option value_type) := (Some <$> l) ++ replicate (kArraySize - length l) None.
Record array_repr (m : small_map) (l : list value_type) : Prop := {
  ar_size : size_ m = Z.of_nat (length l);
  ar_fits : length l <= kArraySize;
  ar_slots : array_ m = slots l;
  ar_map : map_ m = None;
  ar_keys : NoDup l.*1 }.
Record full_repr (m : small_map) (mp : gmap K V) : Prop := {
  fr_size : size_ m = kUsingFullMapSentinel;
  fr_slots : array_ m = replicate kArraySize None;
  fr_map : map_ m = Some mp }.
Definition repr (m : small_map) (mp : gmap K V) : Prop := (exists l, array_repr m l /\ mp = list_to_map l) \/ full_repr m mp.

Lemma array_mode m l : array_repr m l -> UsingFullMap m = false /\ count_ m = length l.
Proof.
  intros [Hs Hf _ _ _]. unfold UsingFullMap, count_. rewrite Hs. split; [apply Z.eqb_neq; lia|lia].
Qed.
Lemma full_mode m mp : full_repr m mp -> UsingFullMap m = true.
Proof. intros [Hs _ _]. unfold UsingFullMap. rewrite Hs. apply Z.eqb_refl. Qed.

Lemma slots_lookup l i x : l !! i = Some x -> slots l !! i = Some (Some x).
Proof. intros Hi. unfold slots. apply lookup_app_l_Some. by rewrite list_lookup_fmap, Hi. Qed.
Lemma slots_next l : length l < kArraySize -> slots l !! length l = Some None /\ forall x, <[length l := Some x]> (slots l) = slots (l ++ [x]).
Proof.
  intros Hl. unfold slots. destruct (kArraySize - length l) as [|j] eqn:Ej; [lia|]. split.
  - rewrite lookup_app_r, length_fmap, Nat.sub_diag by (by rewrite length_fmap). done.
  - intros x. rewrite insert_app_r_alt, length_fmap, Nat.sub_diag by (by rewrite length_fmap). rewrite length_app. cbn.
    replace (kArraySize - (length l + 1)) with j by lia. by rewrite fmap_app, <- app_assoc.
Qed.
Lemma slots_last l x : length (l ++ [x]) <= kArraySize -> slots (l ++ [x]) !! length l = Some (Some x) /\ <[length l := None]> (slots (l ++ [x])) = slots l.
Proof.
  intros Hl. rewrite length_app in Hl. cbn in Hl. destruct (slots_next l ltac:(lia)) as [Hn Hx]. split.
  - apply slots_lookup. by apply list_lookup_middle.
  - rewrite <- (Hx x), list_insert_insert_eq. by apply list_insert_id.
Qed.

Lemma lookup_array l k v : NoDup l.*1 -> (list_to_map l : gmap K V) !! k = Some v <-> (k, v) ∈ l.
Proof. intros Hn. symmetry. by apply elem_of_list_to_map. Qed.
Lemma lookup_array_at l i k v : NoDup l.*1 -> l !! i = Some (k, v) -> (list_to_map l : gmap K V) !! k = Some v.
Proof. intros Hn Hi. apply lookup_array; [done|]. by eapply list_elem_of_lookup_2. Qed.

(** ** Searching *)
Definition found_in (key : K) (l : list value_type) (r : option nat) : Prop :=
  match r with None => key ∉ l.*1 | Some i => exists v, l !! i = Some (key, v) end.

Lemma find_loop_exact key l n i m : array_ m = slots l -> n + i = length l -> key ∉ (take i l).*1 ->
  exists r, find_loop key n i m = Ok r /\ found_in key l r.
Proof.
  intros Ha. revert i. induction n as [|n IH]; intros i Hi Hk; cbn [find_loop].
  - exists None. split; [done|]. by rewrite take_ge in Hk by lia.
  - destruct (lookup_lt_is_Some_2 l i ltac:(lia)) as [[k v] Hx]. unfold read. rewrite Ha, (slots_lookup _ _ _ Hx). cbn [mbind res_bind fst].
    case_decide as Ed; [subst; exists (Some i); split; [done|]; by exists v|]. apply IH; [lia|].
    rewrite (take_S_r _ _ _ Hx), fmap_app, not_elem_of_app. split; [done|]. cbn. by intros ->%list_elem_of_singleton.
Qed.

Lemma rfind_loop_exact key l i m : array_ m = slots l -> i <= length l -> key ∉ (drop i l).*1 ->
  exists r, rfind_loop key i m = Ok r /\ found_in key l r.
Proof.
  intros Ha. induction i as [|i IH]; intros Hi Hk; cbn [rfind_loop]; [by exists None|].
  destruct (lookup_lt_is_Some_2 l i ltac:(lia)) as [[k v] Hx]. unfold read. rewrite Ha, (slots_lookup _ _ _ Hx). cbn [mbind res_bind fst].
  case_decide as Ed; [subst; exists (Some i); split; [done|]; by exists v|]. apply IH; [lia|].
  rewrite (drop_S _ _ _ Hx), fmap_cons, not_elem_of_cons. split; [cbn; congruence|done].
Qed.

(** [find] gives a position that holds the key, or the end. *)
Definition points (it : iterator K) (key : K) (m : small_map) (mp : gmap K V) : Prop :=
  match mp !! key with
  | Some v => it <> end_ m /\ deref it m = Ok (key, v)
  | None => it = end_ m
  end.

Lemma deref_array m l i k v : array_repr m l -> l !! i = Some (k, v) -> deref (ArrayIter i) m = Ok (k, v).
Proof. intros Hm Hi. cbn. unfold read. by rewrite (ar_slots m l Hm), (slots_lookup _ _ _ Hi). Qed.

Lemma find_exact key m mp : repr m mp -> exists it, find key m = Ok it /\ points it key m mp.
Proof.
  unfold find, points, end_. intros [(l & Hm & ->)|Hm].
  - destruct (array_mode m l Hm) as [-> ->]. destruct (find_loop_exact key l (length l) 0 m (ar_slots m l Hm)) as (r & -> & Hr); [lia|cbn; set_solver|].
    eexists. split; [done|]. destruct r as [i|]; cbn in Hr.
    + destruct Hr as [v Hv]. rewrite (lookup_array_at l i key v (ar_keys m l Hm) Hv). split; [|by eapply deref_array].
      cbn. intros [= ->]. apply lookup_lt_Some in Hv. lia.
    + by rewrite (proj1 (not_elem_of_list_to_map l key) Hr).
  - rewrite (full_mode m mp Hm). unfold real_map, map_find. rewrite (fr_map m mp Hm). cbn [mbind res_bind]. eexists. split; [done|].
    destruct (mp !! key) as [v|] eqn:E; [|done]. split; [done|]. cbn. unfold real_map. rewrite (fr_map m mp Hm). cbn. by rewrite E.
Qed.

(** ** Moving to the real map *)
Lemma move_out_exact l i rest m : array_ m = replicate i None ++ (Some <$> l) ++ rest ->
  move_out (length l) i m = Ok (l, mkSmall (size_ m) (replicate (i + length l) None ++ rest) (map_ m)).
Proof.
  revert i m. induction l as [|x l IH]; intros i m Ha; cbn [move_out length].
  - rewrite Nat.add_0_r. destruct m. cbn in Ha. by rewrite Ha.
  - assert (array_ m !! i = Some (Some x)) as Hi by (rewrite Ha; apply list_lookup_middle; by rewrite length_replicate).
    unfold read, destroy. rewrite Hi. cbn [mbind res_bind]. rewrite (IH (S i)).
    + cbn. by rewrite Nat.add_succ_r.
    + cbn [array_]. rewrite Ha, insert_app_r_alt, length_replicate, Nat.sub_diag by (by rewrite length_replicate).
      change (<[0 := None]> ((Some <$> x :: l) ++ rest)) with ([None] ++ (Some <$> l) ++ rest).
      rewrite app_assoc. f_equal. change [None] with (replicate 1 (None : option value_type)). rewrite <- replicate_add. f_equal. lia.
Qed.

Lemma insert_temp_exact l mp : NoDup l.*1 -> (forall k, k ∈ l.*1 -> mp !! k = None) -> insert_temp l mp = list_to_map l ∪ mp.
Proof.
  revert mp. induction l as [|[k v] l IH]; intros mp Hn Hk; [by rewrite list_to_map_nil, map_empty_union|].
  cbn in Hn. apply NoDup_cons in Hn as [Hkl Hn]. unfold insert_temp in *. cbn [foldl]. unfold map_insert at 2. cbn [fst snd].
  rewrite (Hk k) by (cbn; left). cbn [snd]. rewrite IH; [|done|].
  - rewrite list_to_map_cons. rewrite <- insert_union_l, insert_union_r; [done|]. by apply not_elem_of_list_to_map.
  - intros j Hj. rewrite lookup_insert_ne by (by intros ->). apply Hk. cbn. by right.
Qed.

Lemma ConvertToRealMap_exact m l : array_repr m l -> length l = kArraySize ->
  exists m', ConvertToRealMap m = Ok m' /\ full_repr m' (list_to_map l).
Proof.
  intros Hm Hl. unfold ConvertToRealMap. rewrite <- Hl. rewrite (move_out_exact l 0 [] m).
  2: { rewrite (ar_slots m l Hm). unfold slots. by rewrite Hl, Nat.sub_diag. }
  cbn [mbind res_bind]. eexists. split; [done|]. split; cbn; [done|by rewrite app_nil_r, Hl|].
  rewrite insert_temp_exact; [by rewrite map_union_empty|by apply (ar_keys m l Hm)|]. intros k _. apply lookup_empty.
Qed.

(** ** Insertions *)
Lemma push_exact m l x : array_repr m l -> length l < kArraySize -> x.1 ∉ l.*1 ->
  exists m', construct (length l) x m = Ok m' /\ size_ m' = size_ m /\ array_repr (set_size (wrapU 64 (size_ m + 1)) m') (l ++ [x]).
Proof.
  intros Hm Hl Hx. pose proof Hm as [Hs Hf Ha Hmap Hk]. destruct (slots_next l Hl) as [Hn Hi]. unfold construct.
  rewrite Ha, Hn, Hmap. eexists. split; [done|]. split; [done|]. split; cbn.
  - rewrite Hs, length_app, wrapU_id; [cbn; lia|]. unfold in_u, kUsingFullMapSentinel in *. lia.
  - rewrite length_app. cbn. lia.
  - by rewrite Hi.
  - done.
  - rewrite fmap_app. apply NoDup_app. split_and!; [done| |apply NoDup_singleton]. intros k Hin. cbn. by intros ->%list_elem_of_singleton.
Qed.

Lemma small_to_map_snoc l x : x.1 ∉ l.*1 -> (list_to_map (l ++ [x]) : gmap K V) = <[x.1 := x.2]> (list_to_map l).
Proof.
  destruct x as [k v]. cbn. intros Hx. by apply list_to_map_snoc.
Qed.

Lemma insert_full_exact x m mp : full_repr m mp ->
  exists m', insert_full x m = Ok (MapIter (Some x.1), bool_decide (mp !! x.1 = None), m') /\
    full_repr m' (if decide (mp !! x.1 = None) then <[x.1 := x.2]> mp else mp).
Proof.
  intros Hm. unfold insert_full, real_map. rewrite (fr_map m mp Hm). cbn [mbind res_bind]. unfold map_insert.
  destruct (mp !! x.1) eqn:E; cbn; eexists; (split; [done|]); destruct Hm as [? ? ?]; split; done.
Qed.

(** What inserting into a map gives. *)
Definition inserted (x : value_type) (mp : gmap K V) : gmap K V := if decide (mp !! x.1 = None) then <[x.1 := x.2]> mp else mp.

Lemma full_points m mp k v : full_repr m mp -> mp !! k = Some v -> points (MapIter (Some k)) k m mp.
Proof.
  intros Hm Hv. unfold points, end_. rewrite Hv, (full_mode m mp Hm). split; [done|]. cbn. unfold real_map. rewrite (fr_map m mp Hm). cbn. by rewrite Hv.
Qed.
Lemma array_points m l i k v : array_repr m l -> l !! i = Some (k, v) -> points (ArrayIter i) k m (list_to_map l).
Proof.
  intros Hm Hi. unfold points, end_. destruct (array_mode m l Hm) as [-> ->]. rewrite (lookup_array_at l i k v (ar_keys m l Hm) Hi).
  split; [|by eapply deref_array]. intros [= ->]. apply lookup_lt_Some in Hi. lia.
Qed.
Lemma inserted_some x mp : is_Some (inserted x mp !! x.1).
Proof. unfold inserted. case_decide as E; [by rewrite lookup_insert_eq|]. by destruct (mp !! x.1). Qed.

Lemma insert_exact x m mp : repr m mp ->
  exists it m', insert x m = Ok (it, bool_decide (mp !! x.1 = None), m') /\ repr m' (inserted x mp) /\ points it x.1 m' (inserted x mp).
Proof.
  intros Hr. unfold insert. destruct Hr as [(l & Hm & ->)|Hm].
  2: { rewrite (full_mode m mp Hm). destruct (insert_full_exact x m mp Hm) as (m' & -> & Hm'). do 2 eexists. split; [done|].
       destruct (inserted_some x mp) as [v Hv]. split; [by right|by eapply full_points]. }
  destruct (array_mode m l Hm) as [-> ->]. destruct (find_loop_exact x.1 l (length l) 0 m (ar_slots m l Hm)) as (r & -> & Hr); [lia|cbn; set_solver|].
  cbn [mbind res_bind]. destruct r as [i|]; cbn in Hr.
  - destruct Hr as [v Hv]. pose proof (lookup_array_at l i _ v (ar_keys m l Hm) Hv) as Hlk. unfold inserted. rewrite !Hlk.
    rewrite bool_decide_eq_false_2, decide_False by done. do 2 eexists. split; [done|]. split; [left; by exists l|by eapply array_points].
  - pose proof (proj1 (not_elem_of_list_to_map (M := gmap K) l x.1) Hr) as Hlk. unfold inserted. rewrite !Hlk.
    rewrite bool_decide_eq_true_2, decide_True by done. rewrite (ar_size m l Hm).
    destruct (Z.eqb_spec (Z.of_nat (length l)) (Z.of_nat kArraySize)) as [E|E].
    + destruct (ConvertToRealMap_exact m l Hm ltac:(lia)) as (m1 & -> & Hm1). cbn [mbind res_bind].
      destruct (insert_full_exact x m1 _ Hm1) as (m' & -> & Hm'). rewrite Hlk in Hm' |- *. rewrite decide_True in Hm' by done.
      rewrite bool_decide_eq_true_2 by done. do 2 eexists. split; [done|]. split; [by right|]. eapply full_points; [done|]. apply lookup_insert_eq.
    + pose proof (ar_fits m l Hm). rewrite (proj2 (Z.ltb_lt _ _)) by lia. cbn [assert_ mbind res_bind].
      destruct (push_exact m l x Hm ltac:(lia) Hr) as (m' & -> & Hs & Hm'). cbn [mbind res_bind]. rewrite Hs, <- small_to_map_snoc by done.
      do 2 eexists. split; [done|]. split; [left; by exists (l ++ [x])|]. destruct x as [k v]. eapply array_points; [done|]. by apply list_lookup_middle.
Qed.

(** ** [operator[]] *)
Lemma found_unique (key : K) (l : list value_type) i j v w : NoDup l.*1 -> l !! i = Some (key, v) -> l !! j = Some (key, w) -> i = j.
Proof.
  intros Hn Hi Hj. apply (NoDup_lookup l.*1 i j key Hn); by rewrite list_lookup_fmap, ?Hi, ?Hj.
Qed.

(** Searching from the other end makes no difference: [operator[]] inserts a new value. *)
Lemma subscript_inserts key m mp : repr m mp -> 
  subscript key m = (r ← insert (key, data_type) m; Ok (r.1.1, r.2)).
Proof.
  intros [(l & Hm & ->)|Hm]; unfold subscript, insert.
  2: { rewrite (full_mode m mp Hm). unfold subscript_full. by destruct (insert_full _ m) as [[[? ?] ?]| | |]. }
  destruct (array_mode m l Hm) as [-> ->]. cbn [fst].
  destruct (find_loop_exact key l (length l) 0 m (ar_slots m l Hm)) as (r & -> & Hr); [lia|cbn; set_solver|].
  destruct (rfind_loop_exact key l (length l) m (ar_slots m l Hm)) as (r' & -> & Hr'); [lia|rewrite drop_ge by done; set_solver|].
  cbn [mbind res_bind]. destruct r as [i|], r' as [j|]; cbn in Hr, Hr'.
  - destruct Hr as [v Hv], Hr' as [w Hw]. by rewrite (found_unique key l i j v w (ar_keys m l Hm) Hv Hw).
  - destruct Hr as [v Hv]. destruct Hr'. rewrite list_elem_of_fmap. exists (key, v). split; [done|]. by eapply list_elem_of_lookup_2.
  - destruct Hr' as [v Hv]. destruct Hr. rewrite list_elem_of_fmap. exists (key, v). split; [done|]. by eapply list_elem_of_lookup_2.
  - destruct (size_ m =? Z.of_nat kArraySize)%Z; 
      [destruct (ConvertToRealMap m); try done; cbn; unfold subscript_full; by destruct (insert_full _ _) as [[[? ?] ?]| | |]|].
    destruct (assert_ _); try done. cbn [mbind res_bind].
    by destruct (construct _ _ m).
Qed.

(** ** Changing and erasing an element *)
Lemma to_map_middle a k v b : NoDup (a ++ (k, v) :: b).*1 ->
  (list_to_map (a ++ (k, v) :: b) : gmap K V) = <[k := v]> (list_to_map (a ++ b)) /\ (list_to_map (a ++ b) : gmap K V) !! k = None /\ NoDup (a ++ b).*1.
Proof.
  intros Hn. assert (a ++ (k, v) :: b ≡ₚ (k, v) :: a ++ b) as Hp by (symmetry; apply Permutation_middle).
  assert (NoDup ((k, v) :: a ++ b).*1) as Hn' by (by rewrite <- Hp). cbn in Hn'. apply NoDup_cons in Hn' as [Hk Hn'].
  split_and!; [|by apply not_elem_of_list_to_map|done]. rewrite (list_to_map_proper _ _ Hn Hp). by rewrite list_to_map_cons.
Qed.

Lemma array_position m l it k v : array_repr m l -> deref it m = Ok (k, v) ->
  exists a b, l = a ++ (k, v) :: b /\ it = ArrayIter (length a).
Proof.
  intros Hm Hd. destruct it as [i|[j|]]; cbn in Hd; [|unfold real_map in Hd; by rewrite (ar_map m l Hm) in Hd|done].
  unfold read in Hd. rewrite (ar_slots m l Hm) in Hd. destruct (slots l !! i) as [[x|]|] eqn:E; [|done..]. injection Hd as ->.
  unfold slots in E. apply lookup_app_Some in E as [E|[_ E]]; [|by apply lookup_replicate in E as [? _]].
  rewrite list_lookup_fmap in E. destruct (l !! i) as [y|] eqn:Ei; [|done]. injection E as ->.
  exists (take i l), (drop (S i) l). split; [by rewrite take_drop_middle|]. f_equal. rewrite length_take. apply lookup_lt_Some in Ei. lia.
Qed.
Lemma full_position m mp it k v : full_repr m mp -> deref it m = Ok (k, v) -> it = MapIter (Some k).
Proof.
  intros Hm Hd. destruct it as [i|[j|]]; cbn in Hd; [|unfold real_map in Hd; rewrite (fr_map m mp Hm) in Hd; cbn in Hd; destruct (mp !! j); naive_solver|done].
  unfold read in Hd. rewrite (fr_slots m mp Hm) in Hd. destruct (replicate kArraySize None !! i) eqn:E; [|done]. by apply lookup_replicate in E as [-> _].
Qed.
Lemma slots_insert l i x : i < length l -> <[i := Some x]> (slots l) = slots (<[i := x]> l).
Proof. intros Hi. unfold slots. rewrite insert_app_l by (by rewrite length_fmap). by rewrite length_insert, list_fmap_insert. Qed.

Lemma assign_exact it k w v m mp : repr m mp -> deref it m = Ok (k, w) -> exists m', assign it v m = Ok m' /\ repr m' (<[k := v]> mp).
Proof.
  intros Hr Hd. unfold assign. rewrite Hd. cbn [mbind res_bind fst]. destruct Hr as [(l & Hm & ->)|Hm].
  - destruct (array_position m l it k w Hm Hd) as (a & b & -> & ->). pose proof Hm as [Hs Hf Ha Hmap Hk]. eexists. split; [done|]. left.
    exists (a ++ (k, v) :: b).
    assert ((a ++ (k, v) :: b).*1 = (a ++ (k, w) :: b).*1) as Ek by (by rewrite !fmap_app).
    split; [|rewrite (proj1 (to_map_middle a k w b Hk)); rewrite (proj1 (to_map_middle a k v b ltac:(by rewrite Ek))); by rewrite insert_insert_eq].
    split; cbn; rewrite ?Ek; rewrite ?length_app in *; try done. rewrite Ha, slots_insert by (rewrite length_app; cbn; lia).
    by rewrite insert_app_r_alt, Nat.sub_diag by done.
  - rewrite (full_position m mp it k w Hm Hd). unfold real_map. rewrite (fr_map m mp Hm). cbn [mbind res_bind]. eexists. split; [done|]. right.
    by destruct Hm.
Qed.

Lemma destroy_ok i x m : array_ m !! i = Some (Some x) -> destroy i m = Ok (mkSmall (size_ m) (<[i := None]> (array_ m)) (map_ m)).
Proof. intros Hi. unfold destroy. by rewrite Hi. Qed.

(** In the array, the last element moves into the gap. *)
Lemma erase_array_exact m a k v b : array_repr m (a ++ (k, v) :: b) ->
  exists it m', erase_at (ArrayIter (length a)) m = Ok (it, m') /\ exists l, array_repr m' l /\ l ≡ₚ a ++ b.
Proof.
  intros Hm. pose proof Hm as [Hs Hf Ha Hmap Hk]. destruct (to_map_middle a k v b Hk) as (_ & _ & Hn).
  unfold erase_at. rewrite (proj1 (array_mode m _ Hm)). rewrite (proj2 (Z.leb_le _ _)) by (rewrite Hs, length_app; lia).
  cbn [assert_ mbind res_bind]. rewrite (destroy_ok (length a) (k, v) m) by (rewrite Ha; apply slots_lookup; by apply list_lookup_middle).
  cbn [mbind res_bind set_size size_ array_ map_]. rewrite Ha.
  assert (wrapU 64 (size_ m - 1) = Z.of_nat (length (a ++ b))) as ->.
  { rewrite Hs, !length_app. cbn [length]. rewrite length_app in Hf. cbn [length] in Hf. rewrite wrapU_id; [lia|].
    unfold in_u, kUsingFullMapSentinel in *. lia. }
  destruct b as [|z b _] using rev_ind.
  - rewrite app_nil_r in *. rewrite bool_decide_eq_false_2 by auto. do 2 eexists. split; [done|]. exists a.
    destruct (slots_last a (k, v) Hf) as [_ Hl]. split; [|done]. rewrite length_app in Hf. split; cbn; [done|cbn in Hf; lia|done|done|done].
  - rewrite bool_decide_eq_true_2 by (rewrite !length_app; cbn; lia). unfold count_. cbn [set_size size_ array_ map_]. rewrite Nat2Z.id.
    assert (slots (a ++ (k, v) :: b ++ [z]) !! length (a ++ b ++ [z]) = Some (Some z)) as Hz.
    { apply slots_lookup. replace (a ++ (k, v) :: b ++ [z]) with ((a ++ (k, v) :: b) ++ [z]) by (by rewrite <- app_assoc).
      apply list_lookup_middle. rewrite !length_app. cbn. lia. }
    assert (length a + S (length b) + 1 <= kArraySize) as Hf'
      by (rewrite length_app in Hf; cbn [length] in Hf; rewrite length_app in Hf; cbn [length] in Hf; lia).
    assert (length a <> length (a ++ b ++ [z])) as Hne by (rewrite !length_app; cbn; lia).
    unfold read, construct, destroy, set_size. cbn [array_ map_ size_]. rewrite (list_lookup_insert_ne _ _ _ _ Hne), Hz. cbn [mbind res_bind].
    rewrite list_lookup_insert_eq by (unfold slots; rewrite length_app, length_fmap, length_app; cbn; lia).
    rewrite Hmap. cbn [mbind res_bind size_ array_ map_]. rewrite Nat2Z.id, list_insert_insert_eq.
    rewrite (list_lookup_insert_ne _ _ _ _ Hne), Hz. cbn [mbind res_bind]. do 2 eexists. split; [done|]. exists ((a ++ z :: b)).
    assert (a ++ z :: b ≡ₚ a ++ b ++ [z]) as Hp by (f_equiv; by rewrite Permutation_app_comm).
    split; [|done]. split; cbn [size_ array_ map_]; [by rewrite Hp|rewrite length_app; cbn [length]; lia| |done|by rewrite Hp].
    rewrite slots_insert by (rewrite length_app; cbn; lia). rewrite insert_app_r_alt, Nat.sub_diag by done. cbn [list_insert].
    change (<[0 := z]> ((k, v) :: b ++ [z])) with (z :: b ++ [z]).
    replace (a ++ z :: b ++ [z]) with ((a ++ z :: b) ++ [z]) by (by rewrite <- app_assoc).
    replace (length (a ++ b ++ [z])) with (length (a ++ z :: b)) by (rewrite !length_app; cbn; lia).
    apply slots_last. rewrite !length_app. cbn [length]. lia.
Qed.

Lemma erase_at_exact it k v m mp : repr m mp -> mp !! k = Some v -> deref it m = Ok (k, v) ->
  exists it' m', erase_at it m = Ok (it', m') /\ repr m' (delete k mp).
Proof.
  intros Hr Hv Hd. destruct Hr as [(l & Hm & ->)|Hm].
  - destruct (array_position m l it k v Hm Hd) as (a & b & -> & ->). destruct (erase_array_exact m a k v b Hm) as (it' & m' & -> & l & Hm' & Hp).
    do 2 eexists. split; [done|]. left. exists l. split; [done|]. destruct (to_map_middle a k v b (ar_keys m _ Hm)) as (-> & Hn & _).
    rewrite delete_insert_id by done. symmetry. apply list_to_map_proper; [apply (ar_keys m' l Hm')|done].
  - rewrite (full_position m mp it k v Hm Hd). unfold erase_at. rewrite (full_mode m mp Hm). unfold real_map. rewrite (fr_map m mp Hm). cbn [mbind res_bind].
    unfold defined. rewrite bool_decide_eq_true_2 by (by rewrite Hv). cbn [mbind res_bind]. do 2 eexists. split; [done|]. right. by destruct Hm.
Qed.

Lemma erase_exact key m mp : repr m mp ->
  exists m', erase key m = Ok (if decide (mp !! key = None) then 0 else 1, m') /\ repr m' (delete key mp).
Proof.
  intros Hr. unfold erase. destruct (find_exact key m mp Hr) as (it & -> & Hp). cbn [mbind res_bind]. unfold points in Hp.
  destruct (mp !! key) as [v|] eqn:E.
  - destruct Hp as [He Hd]. rewrite decide_False by done. destruct (erase_at_exact it key v m mp Hr E Hd) as (it' & m' & -> & Hr'). by exists m'.
  - rewrite decide_True by done. exists m. split; [by rewrite decide_True|]. by rewrite delete_id.
Qed.

(** ** The whole storage *)
Definition blank (n : Z) : small_map := mkSmall n (replicate kArraySize None) None.

Lemma destroy_loop_moves n i m : destroy_loop n i m = (r ← move_out n i m; Ok r.2).
Proof.
  revert i m. induction n as [|n IH]; intros i m; [done|]. cbn. unfold read, destroy. destruct (array_ m !! i) as [[x|]|]; [|done..].
  cbn. rewrite IH. by destruct (move_out n (S i) _) as [[? ?]| | |].
Qed.

Lemma Destroy_exact m mp : repr m mp -> Destroy m = Ok (blank (size_ m)).
Proof.
  unfold Destroy, blank. intros [(l & Hm & ->)|Hm].
  - destruct (array_mode m l Hm) as [-> ->]. rewrite destroy_loop_moves, (move_out_exact l 0 (replicate (kArraySize - length l) None)) by apply (ar_slots m l Hm).
    cbn. rewrite <- replicate_add. pose proof (ar_fits m l Hm). rewrite (ar_map m l Hm). by replace (length l + (kArraySize - length l)) with kArraySize by lia.
  - rewrite (full_mode m mp Hm). unfold real_map. rewrite (fr_map m mp Hm). cbn. unfold set_map. by rewrite (fr_slots m mp Hm).
Qed.

Lemma small_repr_new : repr small_map_new ∅.
Proof. left. exists []. split; [|done]. split; cbn; [done|lia| |done|constructor]. unfold slots. cbn. by rewrite Nat.sub_0_r. Qed.
Lemma small_clear_exact m mp : repr m mp -> clear m = Ok small_map_new.
Proof. intros Hr. unfold clear. by rewrite (Destroy_exact m mp Hr). Qed.

Lemma copy_loop_exact l n i src m : array_ src = slots l -> length l <= kArraySize -> array_ m = slots (take i l) -> map_ m = None -> n + i = length l ->
  copy_loop n i src m = Ok (mkSmall (size_ m) (slots l) None).
Proof.
  intros Hs Hf. revert i m. induction n as [|n IH]; intros i m Ha Hmap Hi; cbn [copy_loop].
  - rewrite take_ge in Ha by lia. destruct m. cbn in *. by rewrite Ha, Hmap.
  - destruct (lookup_lt_is_Some_2 l i ltac:(lia)) as [x Hx]. unfold read. rewrite Hs, (slots_lookup _ _ _ Hx). cbn [mbind res_bind].
    assert (length (take i l) = i) as Hl by (rewrite length_take; lia). destruct (slots_next (take i l) ltac:(lia)) as [Hn Hins]. rewrite Hl in Hn, Hins.
    unfold construct. rewrite Ha, Hn, Hmap. cbn [mbind res_bind]. rewrite IH; [done| |done|lia]. cbn [array_]. rewrite Hins. by rewrite (take_S_r _ _ _ Hx).
Qed.

Lemma InitFrom_exact src mp n : repr src mp -> exists m, InitFrom src (blank n) = Ok m /\ repr m mp.
Proof.
  unfold InitFrom, blank, set_size. cbn [size_ array_ map_]. intros [(l & Hm & ->)|Hm].
  - destruct (array_mode src l Hm) as [-> ->]. pose proof Hm as [Hs Hf Ha Hmap Hk].
    rewrite (copy_loop_exact l (length l) 0 src _ Ha Hf); [|cbn; unfold slots; cbn; by rewrite Nat.sub_0_r|done|lia].
    eexists. split; [done|]. left. exists l. split; [|done]. by split.
  - rewrite (full_mode src mp Hm). unfold real_map. rewrite (fr_map src mp Hm). cbn. eexists. split; [done|]. right. split; cbn; [apply (fr_size src mp Hm)|done|done].
Qed.

(** ** Sequences of operations *)
Inductive op := OpInsert (k : K) (v : V) | OpAssign (k : K) (v : V) | OpErase (k : K) | OpClear | OpCopy | OpCopyAssign (l : list value_type).

(** The number an operation returns, if any; [OpCopy] goes on with a copy, and [OpCopyAssign]
    assigns a copy of the map to one that holds other elements and goes on with that. *)
Definition exec (o : op) (m : small_map) : res (nat * small_map) :=
  match o with
  | OpInsert k v => '(_, b, m) ← insert (k, v) m; Ok (if b : bool then 1 else 0, m)
  | OpAssign k v => '(it, m) ← subscript k m; m ← assign it v m; Ok (0, m)
  | OpErase k => erase k m
  | OpClear => m ← clear m; Ok (0, m)
  | OpCopy => m ← small_map_copy m; Ok (0, m)
  | OpCopyAssign l => m' ← insert_range l small_map_new; m ← copy_assign m m'; Ok (0, m)
  end.
Fixpoint exec_all (os : list op) (m : small_map) : res (list nat * small_map) :=
  match os with
  | [] => Ok ([], m)
  | o :: os => '(a, m) ← exec o m; '(l, m) ← exec_all os m; Ok (a :: l, m)
  end.
Definition spec (o : op) (mp : gmap K V) : nat * gmap K V :=
  match o with
  | OpInsert k v => (if decide (mp !! k = None) then 1 else 0, inserted (k, v) mp)
  | OpAssign k v => (0, <[k := v]> mp)
  | OpErase k => (if decide (mp !! k = None) then 0 else 1, delete k mp)
  | OpClear => (0, ∅)
  | OpCopy | OpCopyAssign _ => (0, mp)
  end.
Fixpoint spec_all (os : list op) (mp : gmap K V) : list nat * gmap K V :=
  match os with
  | [] => ([], mp)
  | o :: os => let '(a, mp) := spec o mp in let '(l, mp) := spec_all os mp in (a :: l, mp)
  end.

Lemma insert_range_exact l m mp : repr m mp -> exists m' mp', insert_range l m = Ok m' /\ repr m' mp'.
Proof.
  revert m mp. induction l as [|x l IH]; intros m mp Hr; [eauto|]. cbn. destruct (insert_exact x m mp Hr) as (it & m' & -> & Hr' & _). cbn. eauto.
Qed.

Lemma small_exec_exact o m mp : repr m mp -> exists m', exec o m = Ok ((spec o mp).1, m') /\ repr m' (spec o mp).2.
Proof.
  intros Hr. destruct o as [k v|k v|k| | |l]; cbn [exec spec fst snd].
  - destruct (insert_exact (k, v) m mp Hr) as (it & m' & -> & Hr' & _). cbn. exists m'. split; [|done]. by case_bool_decide; case_decide.
  - rewrite (subscript_inserts k m mp Hr). destruct (insert_exact (k, data_type) m mp Hr) as (it & m' & -> & Hr' & Hp). cbn [mbind res_bind fst snd].
    destruct (inserted_some (k, data_type) mp) as [w Hw]. unfold points in Hp. rewrite Hw in Hp. destruct Hp as [_ Hd].
    destruct (assign_exact it k w v m' _ Hr' Hd) as (m'' & -> & Hr''). exists m''. split; [done|]. cbn in Hr''. unfold inserted in Hr''. cbn in Hr''.
    case_decide; [by rewrite insert_insert_eq in Hr''|done].
  - by apply erase_exact.
  - rewrite (small_clear_exact m mp Hr). eexists. split; [done|]. apply small_repr_new.
  - destruct (InitFrom_exact m mp 0 Hr) as (m' & E & Hr'). unfold small_map_copy. change small_map_new with (blank 0). rewrite E. by exists m'.
  - destruct (insert_range_exact l small_map_new ∅ small_repr_new) as (m1 & mp1 & -> & Hr1). cbn [mbind res_bind]. unfold copy_assign.
    rewrite (Destroy_exact m1 mp1 Hr1). cbn [mbind res_bind]. destruct (InitFrom_exact m mp (size_ m1) Hr) as (m' & -> & Hr'). by exists m'.
Qed.

Lemma small_exec_all_exact os m mp : repr m mp -> exists m', exec_all os m = Ok ((spec_all os mp).1, m') /\ repr m' (spec_all os mp).2.
Proof.
  revert m mp. induction os as [|o os IH]; intros m mp Hr; cbn [exec_all spec_all]; [eauto|].
  destruct (small_exec_exact o m mp Hr) as (m1 & -> & Hr1). destruct (spec o mp) as [a mp1]. cbn [mbind res_bind fst snd] in *.
  destruct (IH m1 mp1 Hr1) as (m2 & -> & Hr2). destruct (spec_all os mp1) as [l mp2]. by exists m2.
Qed.

Lemma small_size_exact m mp : repr m mp -> size m = Ok (Z.of_nat (base.size mp)) /\ empty m = Ok (bool_decide (mp = ∅)).
Proof.
  unfold size, empty. intros [(l & Hm & ->)|Hm].
  - destruct (array_mode m l Hm) as [-> _]. rewrite (ar_size m l Hm), map_size_list_to_map by apply (ar_keys m l Hm). split; [done|]. f_equal.
    destruct l as [|[k v] l]; [done|]. rewrite bool_decide_eq_false_2; [done|]. apply insert_non_empty.
  - rewrite (full_mode m mp Hm). unfold real_map. by rewrite (fr_map m mp Hm).
Qed.

(** C32: whatever is done to it, the small map is the map it stands for, in the array, in the
    real map and across the conversion: no sequence of insertions, assignments through
    [operator[]], erasures, clearings and copies constructs an object over another or reads
    or destroys one that is not there, each returns what the map's operation returns, and
    lookups, the count and the size afterwards are the map's. *)
Theorem small_map_refines os :
  exists m, exec_all os small_map_new = Ok ((spec_all os ∅).1, m) /\
    (forall k, count k m = Ok (if decide ((spec_all os ∅).2 !! k = None) then 0 else 1)) /\
    (forall k v, (spec_all os ∅).2 !! k = Some v -> exists it, find k m = Ok it /\ deref it m = Ok (k, v)) /\
    size m = Ok (Z.of_nat (base.size (spec_all os ∅).2)) /\ empty m = Ok (bool_decide ((spec_all os ∅).2 = ∅)).
Proof.
  destruct (small_exec_all_exact os small_map_new ∅ small_repr_new) as (m & Em & Hr). exists m. split; [done|]. split; [|split; [|by apply small_size_exact]].
  - intros k. unfold count. destruct (find_exact k m _ Hr) as (it & -> & Hp). cbn [mbind res_bind]. unfold points in Hp.
    destruct ((spec_all os ∅).2 !! k); [destruct Hp; by rewrite !decide_False|by rewrite !decide_True].
  - intros k v Hv. destruct (find_exact k m _ Hr) as (it & -> & Hp). unfold points in Hp. rewrite Hv in Hp. exists it. by destruct Hp.
Qed.
End small_map.

(** Two elements fit; the third makes it a real map. *)
Definition sample_ops : list (op (K := Z) (V := nat)) :=
  [OpInsert 5%Z 50; OpAssign 7%Z 70; OpInsert 5%Z 51; OpCopyAssign [(1%Z, 1)]; OpErase 5%Z; OpInsert 8%Z 80; OpAssign 9%Z 90; OpErase 4%Z; OpCopy].

Lemma small_map_refines_witness :
  exists m, exec_all 2 0 (fun _ _ => None) sample_ops (small_map_new 2) = Ok ([1; 0; 0; 0; 1; 1; 0; 0; 0], m) /\
    size m = Ok 3%Z /\ count 9%Z m = Ok 1.
Proof.
  destruct (small_map_refines 2 0 (fun _ _ => None) (conj (Nat.lt_0_succ 1) eq_refl) sample_ops) as (m & E & Hc & _ & Hs & _).
  exists m. split; [exact E|]. split; [rewrite Hs; by vm_compute|rewrite Hc; by vm_compute].
Defined.

(** [erase] of [end()] passes the check, and destroys what is not there. *)
Lemma erase_end_unchecked : erase_at (K := Z) (fun _ _ => None) (ArrayIter 0) (small_map_new (V := nat) 2) = Undef.
Proof. reflexivity. Qed.
