(* ===== verification/ObserverList.v ===== *)
(** * The list of observers

    [ObserverList] of [base/observer_list.h] and the adapters of
    [base/observer_list_internal.h] of [include/webrtc]: observers can be added and removed,
    and the list itself destroyed, while it is being iterated over.  The storage of an
    observer is an interface with two implementations, raw pointers and weak pointers.  An
    observer is a non-null pointer [Z], a parameter that may be null an [option Z].  The
    list of live iterators holds the addresses of their nodes.  An index is a [nat], the
    maximum of [size_t] as an iterator's bound is [None].  A failed [DCHECK], [CHECK] or
    [NOTREACHED] is [Crash]; the sequence checker is left out. *)

From S2P Require Import Prelude.
From stdpp Require Import list gmap.

(** ** The storage of an observer *)
Class ObserverStorage (E : Type) := {
  adapt : Z -> E;
  MarkForRemoval : E -> res E;
  IsMarkedForRemoval : E -> res bool;
  IsEqual : E -> Z -> bool;
  Get : E -> res Z }.

(** [UncheckedObserverAdapter]: a pointer. *)
Definition UncheckedObserverAdapter : Type := option Z.
Definition Unchecked_new (observer : Z) : UncheckedObserverAdapter := Some observer.
Definition Unchecked_MarkForRemoval (a : UncheckedObserverAdapter) : res UncheckedObserverAdapter := Ok None.
Definition Unchecked_IsMarkedForRemoval (a : UncheckedObserverAdapter) : res bool := Ok (bool_decide (a = None)).
Definition Unchecked_IsEqual (a : UncheckedObserverAdapter) (rhs : Z) : bool := bool_decide (a = Some rhs).
(** A null pointer fails the check of the iterator's [operator*]. *)
Definition Unchecked_Get (a : UncheckedObserverAdapter) : res Z := match a with Some p => Ok p | None => Crash end.
#[export] Instance unchecked_storage : ObserverStorage UncheckedObserverAdapter :=
  {| adapt := Unchecked_new; MarkForRemoval := Unchecked_MarkForRemoval; IsMarkedForRemoval := Unchecked_IsMarkedForRemoval;
     IsEqual := Unchecked_IsEqual; Get := Unchecked_Get |}.

(** [CheckedObserverAdapter]: a weak pointer, null, to an observer, or to one that has been
    destroyed, for which [get] is null.  Its constructor is not in the headers; the instance
    takes it to make a weak pointer to its argument. *)
Inductive CheckedObserverAdapter := WeakNull | WeakTo (p : Z) | WeakInvalid.
#[export] Instance checked_eq_dec : EqDecision CheckedObserverAdapter.
Proof. solve_decision. Defined.
Definition weak_get (a : CheckedObserverAdapter) : option Z := match a with WeakTo p => Some p | _ => None end.
Definition Checked_MarkForRemoval (a : CheckedObserverAdapter) : res CheckedObserverAdapter :=
  _ ← assert_ (bool_decide (weak_get a <> None)); Ok WeakNull.
Definition Checked_IsMarkedForRemoval (a : CheckedObserverAdapter) : res bool :=
  _ ← assert_ (negb (bool_decide (a = WeakInvalid))); Ok (bool_decide (weak_get a = None)).
Definition Checked_IsEqual (a : CheckedObserverAdapter) (rhs : Z) : bool := bool_decide (weak_get a = Some rhs).
Definition Checked_Get (a : CheckedObserverAdapter) : res Z := match weak_get a with Some p => Ok p | None => Crash end.
#[export] Instance checked_storage : ObserverStorage CheckedObserverAdapter :=
  {| adapt := WeakTo; MarkForRemoval := Checked_MarkForRemoval; IsMarkedForRemoval := Checked_IsMarkedForRemoval;
     IsEqual := Checked_IsEqual; Get := Checked_Get |}.

(** What the list relies on: an entry shows an observer or that it was removed; a strict
    storage does not let an entry be marked twice. *)
Class StorageLaws (E : Type) `{ObserverStorage E} := {
  strict : bool;
  shows : E -> option Z -> Prop;
  shows_adapt p : shows (adapt p) (Some p);
  shows_mark e p : shows e (Some p) -> exists e', MarkForRemoval e = Ok e' /\ shows e' None;
  shows_again e : shows e None -> if strict then MarkForRemoval e = Crash else exists e', MarkForRemoval e = Ok e' /\ shows e' None;
  shows_marked e o : shows e o -> IsMarkedForRemoval e = Ok (bool_decide (o = None));
  shows_equal e o p : shows e o -> IsEqual e p = bool_decide (o = Some p);
  shows_get e p : shows e (Some p) -> Get e = Ok p }.

#[export] Instance unchecked_laws : StorageLaws UncheckedObserverAdapter.
Proof.
  refine {| strict := false; shows := eq |}; cbn; try done; try (by intros; subst); eauto.
Defined.
#[export] Instance checked_laws : StorageLaws CheckedObserverAdapter.
Proof.
  refine {| strict := true; shows e o := e <> WeakInvalid /\ weak_get e = o |}; cbn.
  - done.
  - intros e p [_ E]. exists WeakNull. unfold Checked_MarkForRemoval. by rewrite E.
  - intros e [_ E]. unfold Checked_MarkForRemoval. by rewrite E.
  - intros e o [Hi <-]. unfold Checked_IsMarkedForRemoval. by rewrite (bool_decide_eq_false_2 (e = WeakInvalid)) by done.
  - by intros e o p [_ <-].
  - intros e p [_ E]. unfold Checked_Get. by rewrite E.
Defined.

(** ** The list and its iterators *)
Inductive ObserverListPolicy := ALL | EXISTING_ONLY.
#[export] Instance policy_eq_dec : EqDecision ObserverListPolicy.
Proof. solve_decision. Defined.

Section list.
Context {E : Type} `{ObserverStorage E}.
(** The template's parameters. *)
Context (check_empty allow_reentrancy : bool).

Record ObserverList := mkList {
  observers_ : list E;
  live_iterators_ : list nat;
  policy_ : ObserverListPolicy }.
Definition ObserverList_new (policy : ObserverListPolicy) : ObserverList := mkList [] [] policy.
Definition set_observers (os : list E) (l : ObserverList) : ObserverList := mkList os (live_iterators_ l) (policy_ l).
Definition set_live (live : list nat) (l : ObserverList) : ObserverList := mkList (observers_ l) live (policy_ l).

(** [std::find_if] for an observer. *)
Definition find_observer (obs : Z) (l : ObserverList) : option (nat * E) := list_find (fun e => IsEqual e obs = true) (observers_ l).
Definition HasObserver (obs : option Z) (l : ObserverList) : bool :=
  match obs with None => false | Some p => negb (bool_decide (find_observer p l = None)) end.
Definition AddObserver (obs : option Z) (l : ObserverList) : res ObserverList :=
  match obs with
  | None => Crash
  | Some p => if HasObserver obs l then Crash else Ok (set_observers (observers_ l ++ [adapt p]) l)
  end.
Definition RemoveObserver (obs : option Z) (l : ObserverList) : res ObserverList :=
  match obs with
  | None => Crash
  | Some p =>
      match find_observer p l with
      | None => Ok l
      | Some (i, e) =>
          match live_iterators_ l with
          | [] => Ok (set_observers (delete i (observers_ l)) l)
          | _ => e ← MarkForRemoval e; Ok (set_observers (<[i := e]> (observers_ l)) l)
          end
      end
  end.
Fixpoint mark_all (os : list E) : res (list E) :=
  match os with [] => Ok [] | e :: os => e ← MarkForRemoval e; os ← mark_all os; Ok (e :: os) end.
Definition Clear (l : ObserverList) : res ObserverList :=
  match live_iterators_ l with
  | [] => Ok (set_observers [] l)
  | _ => os ← mark_all (observers_ l); Ok (set_observers os l)
  end.
Definition might_have_observers (l : ObserverList) : bool := match observers_ l with [] => false | _ => true end.
Fixpoint erase_marked (os : list E) : res (list E) :=
  match os with
  | [] => Ok []
  | e :: os => b ← IsMarkedForRemoval e; os ← erase_marked os; Ok (if b : bool then os else e :: os)
  end.
Definition Compact (l : ObserverList) : res ObserverList := os ← erase_marked (observers_ l); Ok (set_observers os l).

(** The destructor: the live iterators are invalidated; the list is gone. *)
Definition ObserverList_delete (l : ObserverList) : res unit :=
  let l := set_live [] l in
  if check_empty then l ← Compact l; assert_ (negb (might_have_observers l)) else Ok tt.

(** An iterator: the address of its node, whether [list_] is set, and the indices. *)
Record Iter := mkIter { node : nat; list_ : bool; index_ : nat; max_index_ : option nat }.
Definition Iter_default (node : nat) : Iter := mkIter node false 0 (Some 0).
Definition set_index (i : nat) (it : Iter) : Iter := mkIter (node it) (list_ it) i (max_index_ it).

Definition IsOnlyRemainingNode (it : Iter) (l : ObserverList) : bool :=
  list_ it && bool_decide (head (live_iterators_ l) = last (live_iterators_ l)).
Definition SetList (it : Iter) (l : ObserverList) : res (Iter * ObserverList) :=
  _ ← assert_ (negb (list_ it));
  Ok (mkIter (node it) true (index_ it) (max_index_ it), set_live (live_iterators_ l ++ [node it]) l).
Definition Invalidate (it : Iter) (l : ObserverList) : Iter * ObserverList :=
  if list_ it then (mkIter (node it) false (index_ it) (max_index_ it), set_live (filter (fun n => n <> node it) (live_iterators_ l)) l)
  else (it, l).

Definition clamped_max_index (it : Iter) (l : ObserverList) : nat :=
  match max_index_ it with None => length (observers_ l) | Some m => min m (length (observers_ l)) end.
Fixpoint skip_marked (os : list E) (i : nat) : res nat :=
  match os with
  | [] => Ok i
  | e :: os => b ← IsMarkedForRemoval e; if b : bool then skip_marked os (S i) else Ok i
  end.
Definition EnsureValidIndex (it : Iter) (l : ObserverList) : res Iter :=
  _ ← assert_ (list_ it);
  i ← skip_marked (drop (index_ it) (take (clamped_max_index it l) (observers_ l))) (index_ it);
  Ok (set_index i it).
Definition is_end (it : Iter) (l : ObserverList) : bool := negb (list_ it) || (index_ it =? clamped_max_index it l).
Definition GetCurrent (it : Iter) (l : ObserverList) : res Z :=
  _ ← assert_ (list_ it);
  _ ← assert_ (index_ it <? clamped_max_index it l);
  match observers_ l !! index_ it with Some e => Get e | None => Undef end.

Definition Iter_new (node : nat) (l : ObserverList) : res (Iter * ObserverList) :=
  '(it, l) ← SetList (mkIter node false 0 (if decide (policy_ l = ALL) then None else Some (length (observers_ l)))) l;
  _ ← assert_ (allow_reentrancy || IsOnlyRemainingNode it l);
  it ← EnsureValidIndex it l;
  Ok (it, l).
Definition Iter_copy (node : nat) (other : Iter) (l : ObserverList) : res (Iter * ObserverList) :=
  let it := mkIter node false (index_ other) (max_index_ other) in
  if list_ other then SetList it l else Ok (it, l).
Definition Iter_delete (it : Iter) (l : ObserverList) : res ObserverList :=
  l ← (if IsOnlyRemainingNode it l then Compact l else Ok l);
  Ok (snd (Invalidate it l)).
Definition Iter_assign (it other : Iter) (l : ObserverList) : res (Iter * ObserverList) :=
  if node it =? node other then Ok (it, l)
  else
    l ← (if IsOnlyRemainingNode it l then Compact l else Ok l);
    let '(it, l) := Invalidate it l in
    '(it, l) ← (if list_ other then SetList it l else Ok (it, l));
    Ok (mkIter (node it) (list_ it) (index_ other) (max_index_ other), l).
Definition Iter_increment (it : Iter) (l : ObserverList) : res Iter :=
  if list_ it then EnsureValidIndex (set_index (S (index_ it)) it) l else Ok it.

Definition begin (node : nat) (l : ObserverList) : res (Iter * ObserverList) :=
  match observers_ l with [] => Ok (Iter_default node, l) | _ => Iter_new node l end.

(** ** A notification

    [for (auto& observer : list) observer.OnEvent()], where the observers add and remove
    observers, clear the list or destroy it.  [None] is a destroyed list, which must not be
    used any more. *)
Inductive action := DoAdd (p : Z) | DoRemove (p : Z) | DoClear | DoDelete.
Definition act (a : action) (l : ObserverList) : res (option ObserverList) :=
  match a with
  | DoAdd p => l ← AddObserver (Some p) l; Ok (Some l)
  | DoRemove p => l ← RemoveObserver (Some p) l; Ok (Some l)
  | DoClear => l ← Clear l; Ok (Some l)
  | DoDelete => _ ← ObserverList_delete l; Ok None
  end.
Fixpoint act_all (acts : list action) (l : ObserverList) : res (option ObserverList) :=
  match acts with
  | [] => Ok (Some l)
  | a :: acts =>
      w ← act a l;
      match w with
      | Some l => act_all acts l
      | None => match acts with [] => Ok None | _ => Undef end
      end
  end.

(** One turn of the loop: the observer that was notified, and the list and the iterator
    afterwards.  The destructor of the list has invalidated the iterator, which then neither
    moves nor touches the list and equals [end()]. *)
Definition turn (body : Z -> list action) (it : Iter) (l : ObserverList) : res (Z * option (Iter * ObserverList)) :=
  p ← GetCurrent it l;
  w ← act_all (body p) l;
  match w with
  | None => Ok (p, None)
  | Some l => it ← Iter_increment it l; Ok (p, Some (it, l))
  end.
Fixpoint range_for (body : Z -> list action) (fuel : nat) (it : Iter) (l : ObserverList) : option (res (list Z * option ObserverList)) :=
  if is_end it l then Some (l ← Iter_delete it l; Ok ([], Some l))
  else
    match fuel with
    | O => None
    | S fuel =>
        match turn body it l with
        | Ok (p, None) => Some (Ok ([p], None))
        | Ok (p, Some (it, l)) => r ← range_for body fuel it l; Some ('(ps, l) ← r; Ok (p :: ps, l))
        | Throw e => Some (Throw e)
        | Crash => Some Crash
        | Undef => Some Undef
        end
    end.
Definition notify (body : Z -> list action) (fuel node : nat) (l : ObserverList) : option (res (list Z * option ObserverList)) :=
  match begin node l with
  | Ok (it, l) => range_for body fuel it l
  | Throw e => Some (Throw e)
  | Crash => Some Crash
  | Undef => Some Undef
  end.
End list.
Arguments ObserverList : clear implicits.

(** ** The reference: plain lists

    The observers before the cursor, those still to be notified and those added later, which
    this notification leaves out; and whether some entry is marked. *)
Record view := mkView { seen : list Z; todo : list Z; later : list Z; dirty : bool }.
Definition content (v : view) : list Z := seen v ++ todo v ++ later v.
Definition without (p : Z) (l : list Z) : list Z := filter (fun q => q <> p) l.

Section reference.
Context (check_empty : bool) (strict : bool) (policy : ObserverListPolicy).

Definition spec_act (a : action) (v : view) : res (option view) :=
  match a with
  | DoAdd p =>
      if decide (p ∈ content v) then Crash
      else Ok (Some (if decide (policy = ALL) then mkView (seen v) (todo v ++ [p]) (later v) (dirty v)
                     else mkView (seen v) (todo v) (later v ++ [p]) (dirty v)))
  | DoRemove p =>
      Ok (Some (mkView (without p (seen v)) (without p (todo v)) (without p (later v)) (dirty v || bool_decide (p ∈ content v))))
  | DoClear => if strict && dirty v then Crash else Ok (Some (mkView [] [] [] (dirty v || bool_decide (content v <> []))))
  | DoDelete => if check_empty && bool_decide (content v <> []) then Crash else Ok None
  end.
Fixpoint spec_all (acts : list action) (v : view) : res (option view) :=
  match acts with
  | [] => Ok (Some v)
  | a :: acts =>
      w ← spec_act a v;
      match w with
      | Some v => spec_all acts v
      | None => match acts with [] => Ok None | _ => Undef end
      end
  end.
(** The observers notified, and those in the list at the end. *)
Fixpoint spec_loop (body : Z -> list action) (fuel : nat) (v : view) : option (res (list Z * option (list Z))) :=
  match todo v with
  | [] => Some (Ok ([], Some (content v)))
  | p :: todo =>
      match fuel with
      | O => None
      | S fuel =>
          match spec_all (body p) (mkView (seen v ++ [p]) todo (later v) (dirty v)) with
          | Ok None => Some (Ok ([p], None))
          | Ok (Some v) => r ← spec_loop body fuel v; Some ('(ps, l) ← r; Ok (p :: ps, l))
          | Throw e => Some (Throw e)
          | Crash => Some Crash
          | Undef => Some Undef
          end
      end
  end.
End reference.

(** ** Views of the entries *)
Section views.
Context {E : Type} `{StorageLaws E}.

(** The observers that entries show. *)
Definition shown (vs : list (option Z)) : list Z := omap id vs.
Definition mark (p : Z) (o : option Z) : option Z := if decide (o = Some p) then None else o.

Lemma shown_app a b : shown (a ++ b) = shown a ++ shown b.
Proof. apply omap_app. Qed.
Lemma elem_shown p vs : p ∈ shown vs <-> Some p ∈ vs.
Proof.
  unfold shown. rewrite list_elem_of_omap. split; [intros (o & Ho & E1); cbn in E1; by subst|]. intros Hp. by exists (Some p).
Qed.
Lemma shown_mark p vs : shown (mark p <$> vs) = without p (shown vs).
Proof.
  induction vs as [|[q|] vs IH]; [done| |exact IH]. change (shown (Some q :: vs)) with (q :: shown vs).
  change (mark p <$> Some q :: vs) with (mark p (Some q) :: (mark p <$> vs)). unfold without in *. rewrite filter_cons, <- IH.
  unfold mark at 1. destruct (decide (q = p)) as [->|Hn].
  - by rewrite decide_True, decide_False by auto.
  - by rewrite decide_False, decide_True by congruence.
Qed.
Lemma mark_absent p vs : p ∉ shown vs -> mark p <$> vs = vs.
Proof.
  intros Hp. induction vs as [|o vs IH]; [done|]. cbn. unfold mark at 1. rewrite elem_shown in Hp.
  rewrite decide_False by set_solver. f_equal. apply IH. rewrite elem_shown. set_solver.
Qed.
Lemma without_app p a b : without p (a ++ b) = without p a ++ without p b.
Proof. apply filter_app. Qed.

Lemma mark_dirty p vs : bool_decide (None ∈ mark p <$> vs) = bool_decide (None ∈ vs) || bool_decide (p ∈ shown vs).
Proof.
  apply eq_bool_prop_intro. rewrite orb_True, !bool_decide_spec, elem_shown, list_elem_of_fmap. unfold mark. split.
  - intros (o & Ho & Hi). case_decide as Ed; [subst; by right|subst; by left].
  - intros [Hn|Hp]; [exists None|exists (Some p)]; (split; [by case_decide|done]).
Qed.

Lemma find_shown es vs p : Forall2 shows es vs ->
  match list_find (fun e => IsEqual e p = true) es with
  | None => Some p ∉ vs
  | Some (i, e) => exists a b, vs = (a ++ Some p :: b) /\ length a = i /\ (p ∉ shown a) /\ es !! i = Some e /\ shows e (Some p)
  end.
Proof.
  intros HF. destruct (list_find _ es) as [[i e]|] eqn:Ef.
  - apply list_find_Some in Ef as (Hi & Hq & Hlt). destruct (Forall2_lookup_l _ _ _ _ _ HF Hi) as (o & Ho & Hs).
    rewrite (shows_equal e o p Hs) in Hq. apply bool_decide_eq_true in Hq as ->.
    exists (take i vs), (drop (S i) vs). split_and!; [by rewrite take_drop_middle|rewrite length_take; apply lookup_lt_Some in Ho; lia| |done|done].
    rewrite elem_shown. intros Hp. apply list_elem_of_lookup in Hp as (j & Hj). apply lookup_take_Some in Hj as [Hj Hji].
    destruct (Forall2_lookup_r _ _ _ _ _ HF Hj) as (e' & He' & Hs'). apply (Hlt j e' He' Hji). rewrite (shows_equal e' _ p Hs').
    by apply bool_decide_eq_true.
  - apply list_find_None in Ef. intros Hp. apply list_elem_of_lookup in Hp as (j & Hj).
    destruct (Forall2_lookup_r _ _ _ _ _ HF Hj) as (e' & He' & Hs'). rewrite Forall_lookup in Ef. apply (Ef j e' He').
    rewrite (shows_equal e' _ p Hs'). by apply bool_decide_eq_true.
Qed.

Lemma erase_marked_exact es vs : Forall2 shows es vs -> exists es', erase_marked es = Ok es' /\ Forall2 shows es' (Some <$> shown vs).
Proof.
  induction 1 as [|e o es vs Hs HF (es' & IH & IHF)]; [by exists []|]. cbn. rewrite (shows_marked e o Hs). cbn. rewrite IH. cbn.
  destruct o as [p|]; cbn; eexists; (split; [done|]); [by constructor|done].
Qed.

Lemma mark_all_exact es vs : Forall2 shows es vs ->
  if strict && bool_decide (None ∈ vs) then mark_all es = Crash
  else exists es', mark_all es = Ok es' /\ Forall2 shows es' (replicate (length vs) None).
Proof.
  induction 1 as [|e o es vs Hs HF IH]; [rewrite bool_decide_eq_false_2 by set_solver; rewrite andb_false_r; by exists []|].
  cbn [mark_all length replicate]. destruct o as [p|].
  - destruct (shows_mark e p Hs) as (e' & -> & Hs'). cbn [mbind res_bind].
    assert (bool_decide (None ∈ Some p :: vs) = bool_decide (None ∈ vs)) as -> 
      by (apply bool_decide_ext; rewrite elem_of_cons; split; [by intros [|]|auto]).
    destruct (strict && bool_decide (None ∈ vs)); [by rewrite IH|]. destruct IH as (es' & -> & IH). eexists. split; [done|]. by constructor.
  - pose proof (shows_again e Hs) as Ha. rewrite (bool_decide_eq_true_2 (None ∈ None :: vs)) by set_solver.
    destruct strict; cbn [andb] in *; [by rewrite Ha|]. destruct Ha as (e' & -> & Hs'). destruct IH as (es' & IH & HF'). cbn [mbind res_bind].
    rewrite IH. eexists. split; [done|]. by constructor.
Qed.

(** Skipping the marked entries. *)
Lemma skip_marked_exact es vs i : Forall2 shows es vs ->
  exists a b, vs = (a ++ b) /\ shown a = [] /\ skip_marked es i = Ok (i + length a) /\ match b with None :: _ => False | _ => True end.
Proof.
  intros HF. revert i. induction HF as [|e o es vs Hs HF IH]; intros i; [exists [], []; cbn; split_and!; auto; do 2 f_equal; lia|].
  cbn [skip_marked]. rewrite (shows_marked e o Hs). cbn [mbind res_bind]. destruct o as [p|]; cbn [bool_decide].
  - exists [], (Some p :: vs). split_and!; auto. cbn. do 2 f_equal. lia.
  - destruct (IH (S i)) as (a & b & -> & Ha & Hk & Hb). exists (None :: a), b. split_and!; [done|done| |done].
    cbn. rewrite Hk. f_equal. lia.
Qed.
End views.

(** ** The list against the reference *)
Section refinement.
Context {E : Type} `{StorageLaws E}.
Context (check_empty allow_reentrancy : bool).

Implicit Types (l : ObserverList E) (v : view).

(** The cursor [k] and the bound of an iterator split the entries into those before it, those
    it will reach and those behind its bound. *)
Definition cut (pre mid post : list (option Z)) (k : nat) (bound : option nat) l v : Prop :=
  Forall2 shows (observers_ l) (pre ++ mid ++ post) /\ length pre = k /\
  v = mkView (shown pre) (shown mid) (shown post) (bool_decide (None ∈ pre ++ mid ++ post)) /\ NoDup (content v) /\
  match bound with
  | None => policy_ l = ALL /\ post = []
  | Some m => policy_ l = EXISTING_ONLY /\ m = length (pre ++ mid)
  end.
Definition at_cursor (k : nat) (bound : option nat) l v : Prop := exists pre mid post, cut pre mid post k bound l v.

Lemma content_shown pre mid post d : content (mkView (shown pre) (shown mid) (shown post) d) = shown (pre ++ mid ++ post).
Proof. by rewrite !shown_app. Qed.

Lemma HasObserver_exact l vs p : Forall2 shows (observers_ l) vs -> HasObserver (Some p) l = bool_decide (p ∈ shown vs).
Proof.
  intros HF. unfold HasObserver, find_observer. pose proof (find_shown _ vs p HF) as Hf. destruct (list_find _ _) as [[i e]|].
  - destruct Hf as (a & b & -> & _). rewrite bool_decide_eq_false_2 by done. symmetry. apply bool_decide_eq_true. rewrite elem_shown. set_solver.
  - rewrite bool_decide_eq_true_2 by done. symmetry. apply bool_decide_eq_false. by rewrite elem_shown.
Qed.

Lemma RemoveObserver_exact l vs p : Forall2 shows (observers_ l) vs -> NoDup (shown vs) -> live_iterators_ l <> [] ->
  exists es, RemoveObserver (Some p) l = Ok (set_observers es l) /\ Forall2 shows es (mark p <$> vs).
Proof.
  intros HF Hn Hl. unfold RemoveObserver, find_observer. pose proof (find_shown _ vs p HF) as Hf. destruct (list_find _ _) as [[i e]|].
  - destruct Hf as (a & b & -> & <- & Ha & Hi & Hs). destruct (live_iterators_ l) eqn:El; [done|]. clear Hl.
    destruct (shows_mark e p Hs) as (e' & -> & Hs'). cbn [mbind res_bind]. eexists. split; [done|].
    rewrite shown_app in Hn. cbn in Hn. apply NoDup_app in Hn as (_ & _ & Hn). apply NoDup_cons in Hn as [Hb _].
    rewrite fmap_app, fmap_cons, !mark_absent by done. unfold mark. rewrite decide_True by done.
    assert (a ++ None :: b = <[length a := None]> (a ++ Some p :: b)) as ->.
    { by rewrite insert_app_r_alt, Nat.sub_diag by lia. }
    by apply Forall2_insert.
  - exists (observers_ l). destruct l. split; [done|]. rewrite mark_absent; [done|]. by rewrite elem_shown.
Qed.

(** Each change of the list, seen from the cursor. *)
Definition added (policy : ObserverListPolicy) (p : Z) v : view :=
  if decide (policy = ALL) then mkView (seen v) (todo v ++ [p]) (later v) (dirty v)
  else mkView (seen v) (todo v) (later v ++ [p]) (dirty v).

Lemma cursor_add p k bound l v : at_cursor k bound l v -> p ∉ content v ->
  at_cursor k bound (set_observers (observers_ l ++ [adapt p]) l) (added (policy_ l) p v).
Proof.
  intros (pre & mid & post & HF & Hk & Hv & Hn & Hb) Hp.
  assert (Forall2 shows (observers_ l ++ [adapt p]) ((pre ++ mid ++ post) ++ [Some p])) as HF'
    by (apply Forall2_app; [done|]; constructor; [apply shows_adapt|constructor]).
  assert (bool_decide (None ∈ (pre ++ mid ++ post) ++ [Some p]) = bool_decide (None ∈ pre ++ mid ++ post)) as Hd
    by (apply bool_decide_ext; rewrite elem_of_app, list_elem_of_singleton; split; [by intros [|]|by left]).
  assert (NoDup (shown ((pre ++ mid ++ post) ++ [Some p]))) as Hn'.
  { rewrite shown_app. change (shown [Some p]) with [p]. rewrite Hv, content_shown in Hn, Hp. apply NoDup_app. split_and!; [done| |apply NoDup_singleton].
    intros x Hx. rewrite list_elem_of_singleton. by intros ->. }
  unfold added. destruct bound as [m|]; destruct Hb as [Hb ->]; rewrite Hb.
  - rewrite decide_False by done. exists pre, mid, (post ++ [Some p]). unfold cut. rewrite <- !app_assoc in HF', Hd, Hn'. rewrite Hd, Hv.
    cbn [seen todo later dirty]. split_and!; [done|done|by rewrite shown_app| |done|done].
    change [p] with (shown [Some p]). by rewrite <- shown_app, content_shown.
  - rewrite decide_True by done. exists pre, (mid ++ [Some p]), []. unfold cut. rewrite app_nil_r in HF', Hd, Hn' |- *.
    rewrite <- !app_assoc in HF', Hd, Hn'. rewrite Hd, Hv. rewrite app_nil_r.
    cbn [seen todo later dirty]. split_and!; [done|done|by rewrite shown_app| |done|done].
    change [p] with (shown [Some p]). by rewrite <- shown_app, content_shown, app_nil_r.
Qed.

Lemma cursor_remove p k bound l v : at_cursor k bound l v -> live_iterators_ l <> [] ->
  exists es, RemoveObserver (Some p) l = Ok (set_observers es l) /\
    at_cursor k bound (set_observers es l)
      (mkView (without p (seen v)) (without p (todo v)) (without p (later v)) (dirty v || bool_decide (p ∈ content v))).
Proof.
  intros (pre & mid & post & HF & Hk & -> & Hn & Hb) Hl. rewrite content_shown in Hn |- *.
  destruct (RemoveObserver_exact l _ p HF Hn Hl) as (es' & -> & HF'). exists es'. split; [done|].
  cbn [seen todo later dirty]. rewrite <- mark_dirty. exists (mark p <$> pre), (mark p <$> mid), (mark p <$> post). unfold cut.
  rewrite <- !shown_mark, !length_app, !length_fmap, <- !fmap_app, content_shown, <- !fmap_app. rewrite length_app in Hb.
  split_and!; [done|done|done|rewrite shown_mark; by apply NoDup_filter|]. destruct bound; [done|]. by destruct Hb as [? ->].
Qed.

Lemma cursor_clear k bound l v : at_cursor k bound l v -> live_iterators_ l <> [] ->
  if strict && dirty v then Clear l = Crash
  else exists es, Clear l = Ok (set_observers es l) /\
    at_cursor k bound (set_observers es l) (mkView [] [] [] (dirty v || bool_decide (content v <> []))).
Proof.
  intros (pre & mid & post & HF & Hk & -> & Hn & Hb) Hl. rewrite content_shown. cbn [dirty]. unfold Clear.
  destruct (live_iterators_ l) eqn:El; [done|]. pose proof (mark_all_exact _ _ HF) as Hm. destruct (strict && _); [by rewrite Hm|].
  destruct Hm as (es & -> & HF'). cbn [mbind res_bind]. exists es. split; [done|].
  exists (replicate (length pre) None), (replicate (length mid) None), (replicate (length post) None). unfold cut.
  assert (forall j, shown (replicate j None) = []) as Hs by (intros j; induction j; done).
  rewrite <- !replicate_add, <- !length_app, !Hs, !length_replicate.
  split_and!; [done|done| |constructor|destruct bound; [done|by destruct Hb as [? ->]]]. f_equal.
  destruct (pre ++ mid ++ post) as [|o vs]; [done|]. rewrite (bool_decide_eq_true_2 (None ∈ replicate _ _)) by (cbn; left).
  destruct o as [p|]; [|by rewrite bool_decide_eq_true_2 by left].
  rewrite (bool_decide_eq_true_2 (shown _ <> [])) by done. apply orb_true_r.
Qed.

(** One action: the same outcome, and the reference's view of the list afterwards. *)
Lemma act_exact a k bound l v : at_cursor k bound l v -> live_iterators_ l <> [] ->
  match spec_act check_empty strict (policy_ l) a v with
  | Ok None => act check_empty a l = Ok None
  | Ok (Some v') => exists es, act check_empty a l = Ok (Some (set_observers es l)) /\ at_cursor k bound (set_observers es l) v'
  | Crash => act check_empty a l = Crash
  | _ => False
  end.
Proof.
  intros Hat Hl. pose proof Hat as (pre & mid & post & HF & _ & Hv & _).
  assert (content v = shown (pre ++ mid ++ post)) as Hc by (rewrite Hv; apply content_shown).
  destruct a as [p|p| |]; cbn [act spec_act].
  - unfold AddObserver. rewrite (HasObserver_exact l _ p HF), <- Hc. destruct (decide _) as [Hp|Hp].
    + by rewrite bool_decide_eq_true_2.
    + rewrite bool_decide_eq_false_2 by done. cbn [mbind res_bind]. eexists. split; [done|]. by apply cursor_add.
  - destruct (cursor_remove p k bound l v Hat Hl) as (es & -> & Hat'). by exists es.
  - pose proof (cursor_clear k bound l v Hat Hl) as Hcl. destruct (strict && dirty v); [by rewrite Hcl|].
    destruct Hcl as (es & -> & Hat'). by exists es.
  - unfold ObserverList_delete. destruct check_empty; cbn [andb]; [|done]. unfold Compact. cbn [set_live observers_].
    destruct (erase_marked_exact _ _ HF) as (es & -> & HF'). cbn [mbind res_bind]. rewrite Hc.
    unfold might_have_observers. cbn [set_observers observers_]. destruct (shown (pre ++ mid ++ post)); inversion HF'; done.
Qed.

Lemma act_all_exact acts k bound l v : at_cursor k bound l v -> live_iterators_ l <> [] ->
  match spec_all check_empty strict (policy_ l) acts v with
  | Ok None => act_all check_empty acts l = Ok None
  | Ok (Some v') => exists es, act_all check_empty acts l = Ok (Some (set_observers es l)) /\ at_cursor k bound (set_observers es l) v'
  | Throw _ => False
  | Crash => act_all check_empty acts l = Crash
  | Undef => act_all check_empty acts l = Undef
  end.
Proof.
  revert l v. induction acts as [|a acts IH]; intros l v Hat Hl; cbn [spec_all act_all].
  { exists (observers_ l). by destruct l. }
  pose proof (act_exact a k bound l v Hat Hl) as Ha. destruct (spec_act _ _ _ a v) as [[v1|]| | |]; cbn [mbind res_bind]; try done.
  - destruct Ha as (es & -> & Hat'). cbn [mbind res_bind]. specialize (IH (set_observers es l) v1 Hat' Hl). cbn [set_observers policy_] in IH.
    destruct (spec_all _ _ _ acts v1) as [[v2|]| | |]; done.
  - rewrite Ha. by destruct acts.
  - by rewrite Ha.
Qed.

(** ** Iterators *)
Definition ready (it : Iter) l v : Prop :=
  list_ it = true /\ exists pre mid post, cut pre mid post (index_ it) (max_index_ it) l v /\ match mid with None :: _ => False | _ => True end.

Lemma clamped_cut it pre mid post l v : cut pre mid post (index_ it) (max_index_ it) l v -> clamped_max_index it l = length (pre ++ mid).
Proof.
  intros (HF & _ & _ & _ & Hb). apply Forall2_length in HF. unfold clamped_max_index. rewrite HF.
  destruct (max_index_ it) as [m|]; destruct Hb as [_ ->]; rewrite !length_app; cbn; lia.
Qed.

Lemma EnsureValidIndex_exact it l v : list_ it = true -> at_cursor (index_ it) (max_index_ it) l v ->
  exists it', EnsureValidIndex it l = Ok it' /\ ready it' l v /\ node it' = node it.
Proof.
  intros Hi (pre & mid & post & Hc). unfold EnsureValidIndex. rewrite Hi, (clamped_cut it _ _ _ _ _ Hc). cbn [assert_ mbind res_bind].
  destruct Hc as (HF & Hk & Hv & Hn & Hb). rewrite app_assoc in HF. apply Forall2_app_inv_r in HF as (e1 & e2 & H12 & H3 & He).
  apply Forall2_app_inv_r in H12 as (e0 & e1' & H1 & H2 & ->). rewrite He.
  pose proof (Forall2_length _ _ _ H1) as L1. pose proof (Forall2_length _ _ _ H2) as L2.
  rewrite take_app_length' by (rewrite !length_app; lia). rewrite drop_app_length' by lia.
  destruct (skip_marked_exact _ _ (index_ it) H2) as (a & b & -> & Ha & -> & Hb'). cbn [mbind res_bind].
  eexists. split; [done|]. split; [|done]. split; [done|]. exists (pre ++ a), b, post. split; [|done]. cbn [set_index index_ max_index_].
  split_and!; [|rewrite length_app; lia| |done|].
  - replace ((pre ++ a) ++ b ++ post) with ((pre ++ a ++ b) ++ post) by (by rewrite <- !app_assoc). rewrite He.
    apply Forall2_app; [by apply Forall2_app|done].
  - rewrite Hv, !shown_app, Ha, app_nil_r. cbn. by rewrite <- !app_assoc.
  - by rewrite <- app_assoc.
Qed.

Definition holds l (c : list Z) : Prop := exists vs, Forall2 shows (observers_ l) vs /\ shown vs = c /\ NoDup c.

Lemma Iter_delete_exact it l c outer : holds l c -> list_ it = true -> live_iterators_ l = outer ++ [node it] -> node it ∉ outer ->
  exists l', Iter_delete it l = Ok l' /\ holds l' c /\ live_iterators_ l' = outer /\ policy_ l' = policy_ l /\
    (outer = [] -> Forall2 shows (observers_ l') (Some <$> c)).
Proof.
  intros (vs & HF & <- & Hn) Hi Hl Ho. unfold Iter_delete, IsOnlyRemainingNode, Invalidate. rewrite Hi, Hl, last_snoc. cbn [andb].
  assert (filter (fun n => n <> node it) (outer ++ [node it]) = outer) as Hf.
  { rewrite filter_app, filter_cons, decide_False by auto. cbn. rewrite app_nil_r. clear - Ho. induction outer as [|n outer IH]; [done|].
    apply not_elem_of_cons in Ho as [? ?]. rewrite filter_cons, decide_True by congruence. by rewrite IH. }
  destruct outer as [|n outer].
  - rewrite bool_decide_eq_true_2 by done. unfold Compact. destruct (erase_marked_exact _ _ HF) as (es & -> & HF'). cbn [mbind res_bind].
    eexists. split; [done|]. cbn. rewrite Hl. split_and!; try done. eexists. split; [exact HF'|]. split; [|done].
    clear. induction (shown vs) as [|p c IH]; [done|]. cbn. by f_equal.
  - rewrite bool_decide_eq_false_2 by (cbn; intros [= ->]; apply Ho; left). cbn [mbind res_bind].
    eexists. split; [done|]. cbn [snd set_live observers_ live_iterators_ policy_]. rewrite Hl, Hf. split_and!; try done. by exists vs.
Qed.

Lemma ready_end it l v : ready it l v -> is_end it l = bool_decide (todo v = []).
Proof.
  intros (Hi & pre & mid & post & Hc & Hm). unfold is_end. rewrite Hi, (clamped_cut it _ _ _ _ _ Hc). cbn [negb orb].
  destruct Hc as (_ & <- & -> & _). cbn [todo]. destruct mid as [|[p|] mid]; [|by rewrite bool_decide_eq_false_2; [apply Nat.eqb_neq; rewrite length_app; cbn; lia|]|done].
  rewrite app_nil_r, bool_decide_eq_true_2 by done. apply Nat.eqb_refl.
Qed.

Lemma ready_holds it l v : ready it l v -> holds l (content v).
Proof.
  intros (_ & pre & mid & post & (HF & _ & Hv & Hn & _) & _). exists (pre ++ mid ++ post). split_and!; [done| |done]. rewrite Hv. symmetry. apply content_shown.
Qed.

Lemma turn_exact body it l v p rest : ready it l v -> todo v = p :: rest -> live_iterators_ l <> [] ->
  match spec_all check_empty strict (policy_ l) (body p) (mkView (seen v ++ [p]) rest (later v) (dirty v)) with
  | Ok None => turn check_empty body it l = Ok (p, None)
  | Ok (Some v') => exists it' es, turn check_empty body it l = Ok (p, Some (it', set_observers es l)) /\
      ready it' (set_observers es l) v' /\ node it' = node it
  | Throw _ => False
  | Crash => turn check_empty body it l = Crash
  | Undef => turn check_empty body it l = Undef
  end.
Proof.
  intros Hr Ht Hl. destruct Hr as (Hi & pre & mid & post & Hc & Hm). unfold turn, GetCurrent. rewrite Hi, (clamped_cut it _ _ _ _ _ Hc).
  pose proof Hc as (HF & Hk & Hv & Hn & Hb). rewrite Hv in Ht. destruct mid as [|[q|] mid]; [done| |done]. injection Ht as -> <-.
  assert ((index_ it <? length (pre ++ Some p :: mid)) = true) as -> by (apply Nat.ltb_lt; rewrite length_app; cbn; lia).
  cbn [assert_ mbind res_bind].
  destruct (Forall2_lookup_r _ _ _ (index_ it) (Some p) HF) as (e & -> & He); [by apply list_lookup_middle|].
  rewrite (shows_get e p He). cbn [mbind res_bind].
  assert (at_cursor (S (index_ it)) (max_index_ it) l (mkView (seen v ++ [p]) (shown mid) (later v) (dirty v))) as Hat.
  { exists (pre ++ [Some p]), mid, post. unfold cut. rewrite Hv in Hn |- *. cbn [seen later dirty]. change [p] with (shown [Some p]).
    rewrite <- shown_app, content_shown, <- !app_assoc, length_app. rewrite content_shown in Hn. cbn. split_and!; [done|lia|done|done|done]. }
  pose proof (act_all_exact (body p) _ _ l _ Hat Hl) as Ha. destruct (spec_all _ _ _ (body p) _) as [[v'|]| | |]; try done; [|by rewrite Ha..].
  destruct Ha as (es & -> & Hat'). cbn [mbind res_bind]. unfold Iter_increment. rewrite Hi.
  destruct (EnsureValidIndex_exact (set_index (S (index_ it)) it) (set_observers es l) v') as (it' & -> & Hr' & Hn'); [done|done|].
  cbn [mbind res_bind]. by exists it', es.
Qed.

Definition matches (l : ObserverList E) (outer : list nat) (r : option (res (list Z * option (ObserverList E))))
    (s : option (res (list Z * option (list Z)))) : Prop :=
  match s with
  | None => r = None
  | Some (Ok (ps, None)) => r = Some (Ok (ps, None))
  | Some (Ok (ps, Some c)) => exists l', r = Some (Ok (ps, Some l')) /\ holds l' c /\ live_iterators_ l' = outer /\ policy_ l' = policy_ l /\
      (outer = [] -> Forall2 shows (observers_ l') (Some <$> c))
  | Some (Throw e) => False
  | Some Crash => r = Some Crash
  | Some Undef => r = Some Undef
  end.

Lemma range_for_exact body fuel it l v outer : ready it l v -> live_iterators_ l = outer ++ [node it] -> node it ∉ outer ->
  matches l outer (range_for check_empty body fuel it l) (spec_loop check_empty strict (policy_ l) body fuel v).
Proof.
  revert it l v. induction fuel as [|fuel IH]; intros it l v Hr Hl Ho; cbn [range_for spec_loop]; rewrite (ready_end _ _ _ Hr);
    destruct (todo v) as [|p rest] eqn:Ht; cbn [bool_decide decide list_eq_nil_dec].
  1, 3: destruct (Iter_delete_exact it l (content v) outer) as (l' & -> & ?); [by eapply ready_holds|by destruct Hr|done|done|]; by exists l'.
  { done. }
  pose proof (turn_exact body it l v p rest Hr Ht ltac:(rewrite Hl; by destruct outer)) as Hturn.
  destruct (spec_all _ _ _ (body p) _) as [[v'|]| | |]; [|by rewrite Hturn|done|by rewrite Hturn..].
  destruct Hturn as (it' & es & -> & Hr' & Hn). rewrite <- Hn in Hl, Ho. specialize (IH it' (set_observers es l) v' Hr' Hl Ho).
  cbn [set_observers policy_] in IH. destruct (spec_loop _ _ _ body fuel v') as [[[ps [c|]]| | |]|]; cbn in IH |- *; try done; try by rewrite IH.
  destruct IH as (l' & -> & IH). by exists l'.
Qed.

Lemma Iter_new_exact n l vs : Forall2 shows (observers_ l) vs -> NoDup (shown vs) -> n ∉ live_iterators_ l ->
  allow_reentrancy || bool_decide (live_iterators_ l = []) = true ->
  exists it, Iter_new allow_reentrancy n l = Ok (it, set_live (live_iterators_ l ++ [n]) l) /\ node it = n /\
    ready it (set_live (live_iterators_ l ++ [n]) l) (mkView [] (shown vs) [] (bool_decide (None ∈ vs))).
Proof.
  intros HF Hn Hl Ha. unfold Iter_new, SetList. cbn [list_ negb assert_ mbind res_bind node index_ max_index_].
  set (it := mkIter _ _ _ _). set (l' := set_live _ l).
  assert (allow_reentrancy || IsOnlyRemainingNode it l' = true) as ->.
  { destruct allow_reentrancy; [done|]. cbn in Ha. apply bool_decide_eq_true in Ha. unfold IsOnlyRemainingNode. cbn.
    apply bool_decide_eq_true. by rewrite Ha. }
  cbn [assert_ mbind res_bind].
  destruct (EnsureValidIndex_exact it l' (mkView [] (shown vs) [] (bool_decide (None ∈ vs)))) as (it' & -> & Hr & Hnode); [done| |].
  { exists [], vs, []. unfold cut. rewrite app_nil_r. split_and!; [done|done|done| |].
    { change (NoDup (shown vs ++ [])). by rewrite app_nil_r. }
    subst it l'. cbn.
    destruct (policy_ l); cbn; [done|]. split; [done|]. by apply Forall2_length in HF. }
  cbn [mbind res_bind]. by exists it'.
Qed.

Lemma notify_matches body fuel n l vs : Forall2 shows (observers_ l) vs -> NoDup (shown vs) -> n ∉ live_iterators_ l ->
  allow_reentrancy || bool_decide (live_iterators_ l = []) = true ->
  matches l (live_iterators_ l) (notify check_empty allow_reentrancy body fuel n l)
    (spec_loop check_empty strict (policy_ l) body fuel (mkView [] (shown vs) [] (bool_decide (None ∈ vs)))).
Proof.
  intros HF Hn Hl Ha. unfold notify, begin. destruct (observers_ l) as [|e es] eqn:Eo.
  - inversion HF; subst. assert (range_for check_empty body fuel (Iter_default n) l = Some (Ok ([], Some l))) as -> by (by destruct fuel).
    destruct fuel; cbn; exists l; split_and!; try done; try (exists []; rewrite Eo; split_and!; [constructor|done|constructor]); intros _; rewrite Eo; constructor.
  - rewrite <- Eo in HF. destruct (Iter_new_exact n l vs HF Hn Hl Ha) as (it & -> & Hnode & Hr).
    apply (range_for_exact body fuel it _ _ (live_iterators_ l) Hr); [by rewrite Hnode|by rewrite Hnode].
Qed.

(** C31: a notification does what iterating over a plain list of observers does, whatever the
    observers do to the list in between: each turn's additions, removals, clearing or
    destruction of the list take effect on those still to be notified, as the policy says,
    the iterator never points outside the list or to a removed observer, a failed check
    fails in both, and afterwards the list holds the same observers in the same order, with
    nothing marked left behind by the outermost iteration. *)
Theorem notify_exact body fuel n l vs : Forall2 shows (observers_ l) vs -> NoDup (shown vs) -> n ∉ live_iterators_ l ->
  allow_reentrancy || bool_decide (live_iterators_ l = []) = true ->
  matches l (live_iterators_ l) (notify check_empty allow_reentrancy body fuel n l)
    (spec_loop check_empty strict (policy_ l) body fuel (mkView [] (shown vs) [] (bool_decide (None ∈ vs)))).
Proof. apply notify_matches. Qed.
End refinement.

(** ** Policies *)
Section existing_only.
Context (check_empty strict : bool).

Local Abbreviation spec_act := (spec_act check_empty strict EXISTING_ONLY).
Local Abbreviation spec_all := (spec_all check_empty strict EXISTING_ONLY).
Local Abbreviation spec_loop := (spec_loop check_empty strict EXISTING_ONLY).

(** The actions that take an observer out of the list. *)
Definition takes_out (p : Z) (acts : list action) : Prop := DoRemove p ∈ acts \/ DoClear ∈ acts \/ DoDelete ∈ acts.

Lemma takes_out_cons p a acts : takes_out p acts -> takes_out p (a :: acts).
Proof. unfold takes_out. rewrite !elem_of_cons. tauto. Qed.

Lemma spec_act_todo a v v' : spec_act a v = Ok (Some v') ->
  sublist (todo v') (todo v) /\ forall p, p ∈ todo v -> p ∈ todo v' \/ takes_out p [a].
Proof.
  destruct a as [p|p| |]; cbn.
  - case_decide; [done|]. rewrite decide_False by done. intros [= <-]. cbn. split; [done|auto].
  - intros [= <-]. cbn. split; [apply sublist_filter|]. intros q Hq. destruct (decide (q = p)) as [->|Hn].
    + right. left. apply list_elem_of_singleton. done.
    + left. by apply list_elem_of_filter.
  - destruct (strict && dirty v); [done|]. intros [= <-]. cbn. split; [apply sublist_nil_l|]. intros q _. right. right. left. by apply list_elem_of_singleton.
  - by destruct (check_empty && _).
Qed.

Lemma spec_all_todo acts v v' : spec_all acts v = Ok (Some v') ->
  sublist (todo v') (todo v) /\ forall p, p ∈ todo v -> p ∈ todo v' \/ takes_out p acts.
Proof.
  revert v. induction acts as [|a acts IH]; intros v; cbn; [intros [= <-]; split; [done|auto]|].
  destruct (spec_act a v) as [[v1|]| | |] eqn:Ea; try done; cbn; [|by destruct acts]. intros E.
  destruct (spec_act_todo a v v1 Ea) as [S1 H1], (IH v1 E) as [S2 H2]. split; [by etrans|].
  intros p Hp. destruct (H1 p Hp) as [Hp1|Ht].
  - destruct (H2 p Hp1) as [|Ht]; [by left|]. right. by apply takes_out_cons.
  - right. unfold takes_out in *. rewrite !list_elem_of_singleton in Ht. rewrite !elem_of_cons. naive_solver.
Qed.

Lemma spec_all_gone acts v : spec_all acts v = Ok None -> DoDelete ∈ acts.
Proof.
  revert v. induction acts as [|a acts IH]; intros v; cbn; [done|]. destruct (spec_act a v) as [[v1|]| | |] eqn:Ea; try done; cbn.
  - intros E. right. by eapply IH.
  - intros _. destruct a; cbn in Ea; [by case_decide|done|by destruct (strict && _)|left].
Qed.

Lemma spec_all_undef acts v : spec_all acts v = Undef -> DoDelete ∈ acts.
Proof.
  revert v. induction acts as [|a acts IH]; intros v; cbn; [done|]. destruct (spec_act a v) as [[v1|]| | |] eqn:Ea; try done; cbn.
  - intros E. right. by eapply IH.
  - intros _. destruct a; cbn in Ea; [by case_decide|done|by destruct (strict && _)|left].
  - destruct a; cbn in Ea; [by case_decide|done|by destruct (strict && _)|by destruct (check_empty && _)].
Qed.

Lemma spec_loop_ends body fuel v : length (todo v) <= fuel -> exists r, spec_loop body fuel v = Some r /\
  (forall ps w, r = Ok (ps, w) -> sublist ps (todo v) /\ forall p, p ∈ todo v -> p ∈ ps \/ exists q, q ∈ ps /\ takes_out p (body q)) /\
  (r = Undef -> exists q, q ∈ todo v /\ DoDelete ∈ body q).
Proof.
  revert v. induction fuel as [|fuel IH]; intros v Hf; cbn [ObserverList.spec_loop]; destruct (todo v) as [|p rest] eqn:Et; try (cbn in Hf; lia).
  1, 2: eexists; split; [done|]; split; [|done]; intros ps w [= <- <-]; split; [done|set_solver].
  destruct (spec_all (body p) _) as [[v'|]| | |] eqn:Es; cbn [mbind option_bind].
  - destruct (spec_all_todo _ _ _ Es) as [S1 H1]. cbn [todo] in S1, H1.
    destruct (IH v') as (r & -> & Hok & Hun); [apply sublist_length in S1; cbn in Hf; lia|]. cbn [mbind option_bind]. eexists. split; [done|]. split.
    + intros ps w Er. destruct r as [[ps' w']| | |]; cbn in Er; try done. injection Er as <- <-. destruct (Hok _ _ eq_refl) as [S2 H2].
      split; [apply sublist_skip; by etrans|]. intros q [->|Hq]%elem_of_cons; [left; left|]. destruct (H1 q Hq) as [Hq'|Ht].
      * destruct (H2 q Hq') as [|(q' & ? & ?)]; [left; by right|]. right. exists q'. split; [by right|done].
      * right. exists p. split; [left|done].
    + intros Er. destruct r as [[ps' w']| | |]; try done. destruct (Hun eq_refl) as (q & Hq & Hd). exists q. split; [|done]. right.
      eapply elem_of_submseteq; [exact Hq|by apply sublist_submseteq].
  - eexists. split; [done|]. split; [|done]. intros ps w [= <- <-]. split; [apply sublist_skip, sublist_nil_l|].
    intros q Hq. right. exists p. split; [left|]. right. right. by eapply spec_all_gone.
  - by eexists.
  - by eexists.
  - eexists. split; [done|]. split; [done|]. intros _. exists p. split; [left|]. by eapply spec_all_undef.
Qed.
End existing_only.

(** With the policy [EXISTING_ONLY] a notification ends after at most as many turns as
    there were observers, whatever they do: those notified are observers that were there at
    the start, each once and in order, and one that was there and is not notified was
    removed, or the list cleared or destroyed, by one notified before; only a client that
    uses the list after it destroyed it is undefined. *)
Theorem notify_existing_only {E} `{StorageLaws E} check_empty allow_reentrancy body n (l : ObserverList E) vs :
  policy_ l = EXISTING_ONLY -> Forall2 shows (observers_ l) vs -> NoDup (shown vs) -> n ∉ live_iterators_ l ->
  allow_reentrancy || bool_decide (live_iterators_ l = []) = true ->
  exists r, notify check_empty allow_reentrancy body (length (shown vs)) n l = Some r /\
    (forall ps w, r = Ok (ps, w) -> sublist ps (shown vs) /\
       forall p, p ∈ shown vs -> p ∈ ps \/ exists q, q ∈ ps /\ takes_out p (body q)) /\
    (r = Undef -> exists q, q ∈ shown vs /\ DoDelete ∈ body q).
Proof.
  intros Hp HF Hn Hl Ha. pose proof (notify_matches check_empty allow_reentrancy body (length (shown vs)) n l vs HF Hn Hl Ha) as Hm.
  rewrite Hp in Hm. destruct (spec_loop_ends check_empty strict body (length (shown vs)) (mkView [] (shown vs) [] (bool_decide (None ∈ vs))))
    as (r & Er & Hok & Hun); [done|]. rewrite Er in Hm. destruct r as [[ps [c|]]| | |]; cbn in Hm.
  - destruct Hm as (l' & -> & _). eexists. split; [done|]. split; [|done]. intros ps' w [= <- <-]. by eapply Hok.
  - rewrite Hm. eexists. split; [done|]. split; [|done]. intros ps' w [= <- <-]. by eapply Hok.
  - done.
  - rewrite Hm. by eexists.
  - rewrite Hm. eexists. split; [done|]. split; [done|]. intros _. by apply Hun.
Qed.

(** With the policy [ALL], an observer that removes and adds itself again is notified for
    ever. *)
Lemma notify_all_diverges fuel :
  notify (E := UncheckedObserverAdapter) false true (fun p => [DoRemove p; DoAdd p]) fuel 0 (mkList [Some 1%Z] [] ALL) = None.
Proof.
  assert (forall d, spec_loop false false ALL (fun p => [DoRemove p; DoAdd p]) fuel (mkView [] [1%Z] [] d) = None) as Hs.
  { induction fuel as [|fuel IH]; intros d; [done|]. cbn. rewrite (decide_False (P := 1%Z <> 1%Z)) by auto.
    rewrite decide_False by (intros Hx; inversion Hx). rewrite decide_True by done. cbn. by rewrite IH. }
  pose proof (notify_matches false true (fun p => [DoRemove p; DoAdd p]) fuel 0 (mkList (E := UncheckedObserverAdapter) [Some 1%Z] [] ALL)
    [Some 1%Z] ltac:(constructor; [done|constructor]) ltac:(apply NoDup_singleton) ltac:(set_solver) eq_refl) as Hm.
  change (strict (E := UncheckedObserverAdapter)) with false in Hm. cbn [policy_] in Hm.
  change (shown [Some 1%Z]) with [1%Z] in Hm. by rewrite Hs in Hm.
Qed.

(** Clearing a list of checked observers during an iteration in which one was removed fails
    the check of [MarkForRemoval]; on a list of unchecked observers it clears it. *)
Lemma Clear_after_Remove :
  notify (E := CheckedObserverAdapter) false true (fun p => [DoRemove p; DoClear]) 2 0 (mkList [WeakTo 1%Z; WeakTo 2%Z] [] ALL) = Some Crash /\
  notify (E := UncheckedObserverAdapter) false true (fun p => [DoRemove p; DoClear]) 2 0 (mkList [Some 1%Z; Some 2%Z] [] ALL) =
    Some (Ok ([1%Z], Some (mkList [] [] ALL))).
Proof. split; reflexivity. Qed.

(** A destroyed observer is found when the iteration reaches it, before it is used. *)
Lemma invalidated_observer_crashes es i : skip_marked (WeakInvalid :: es) i = Crash.
Proof. done. Qed.

(** The first observer removes the second, adds a fourth and is itself removed. *)
Definition sample_body (p : Z) : list action := if (p =? 1)%Z then [DoRemove 2%Z; DoAdd 4%Z; DoRemove 1%Z] else [].

Lemma notify_exact_witness :
  exists l', notify (E := CheckedObserverAdapter) true false sample_body 3 7 (mkList [WeakTo 1; WeakTo 2; WeakTo 3]%Z [] ALL) = Some (Ok ([1; 3; 4]%Z, Some l')) /\
    Forall2 shows (observers_ l') [Some 3; Some 4]%Z.
Proof.
  pose proof (notify_exact true false sample_body 3 7 (mkList (E := CheckedObserverAdapter) [WeakTo 1; WeakTo 2; WeakTo 3]%Z [] ALL)
    [Some 1; Some 2; Some 3]%Z ltac:(repeat (constructor; [done|]); constructor)
    ltac:(apply (bool_decide_unpack _); by vm_compute) ltac:(set_solver) eq_refl) as Hm.
  destruct Hm as (l' & E & _ & _ & _ & HF). exists l'. split; [exact E|by apply HF].
Defined.

Lemma notify_existing_only_witness :
  exists ps w, notify (E := UncheckedObserverAdapter) true true sample_body 3 7 (mkList [Some 1; Some 2; Some 3]%Z [5] EXISTING_ONLY) = Some (Ok (ps, w)) /\
    sublist ps [1; 2; 3]%Z.
Proof.
  destruct (notify_existing_only true true sample_body 7 (mkList (E := UncheckedObserverAdapter) [Some 1; Some 2; Some 3]%Z [5] EXISTING_ONLY)
    [Some 1; Some 2; Some 3]%Z eq_refl ltac:(repeat (constructor; [done|]); constructor)
    ltac:(apply (bool_decide_unpack _); by vm_compute) ltac:(set_solver) eq_refl) as (r & E & Hok & _).
  vm_compute in E. injection E as <-. do 2 eexists. split; [reflexivity|]. by eapply Hok.
Defined.
