(* ===== verification/Tokenizer.v ===== *)
(** * The string tokenizer

    [StringTokenizerT] of [base/strings/string_tokenizer.h] of [include/webrtc], on byte
    strings: an iterator over the tokens of a string, with a fast path for plain
    delimiters and a full one for quotes and for returning delimiters and empty tokens.
    The string is the range [[string_begin, string_end)] and iterators are offsets into it. *)

From S2P Require Import Prelude.
From stdpp Require Import list.
Local Open Scope Z_scope.

Definition RETURN_DELIMS : Z := Z.shiftl 1 0.
Definition RETURN_EMPTY_TOKENS : Z := Z.shiftl 1 1.

Record StringTokenizer := mkTokenizer {
  string_ : str;
  token_begin_ : nat;
  token_end_ : nat;
  delims_ : str;
  quotes_ : str;
  options_ : Z;
  token_is_delim_ : bool }.

Definition StringTokenizer_new (s delims : str) : StringTokenizer :=
  {| string_ := s; token_begin_ := 0; token_end_ := 0; delims_ := delims; quotes_ := []; options_ := 0;
     token_is_delim_ := true |}.
Definition set_options (options : Z) (t : StringTokenizer) : StringTokenizer :=
  {| string_ := string_ t; token_begin_ := token_begin_ t; token_end_ := token_end_ t; delims_ := delims_ t;
     quotes_ := quotes_ t; options_ := options; token_is_delim_ := token_is_delim_ t |}.
Definition set_quote_chars (quotes : str) (t : StringTokenizer) : StringTokenizer :=
  {| string_ := string_ t; token_begin_ := token_begin_ t; token_end_ := token_end_ t; delims_ := delims_ t;
     quotes_ := quotes; options_ := options_ t; token_is_delim_ := token_is_delim_ t |}.
(** The members [GetNext] changes. *)
Definition set_token (b e : nat) (is_delim : bool) (t : StringTokenizer) : StringTokenizer :=
  {| string_ := string_ t; token_begin_ := b; token_end_ := e; delims_ := delims_ t; quotes_ := quotes_ t;
     options_ := options_ t; token_is_delim_ := is_delim |}.

(** [Reset] moves the end of the token only. *)
Definition Reset (t : StringTokenizer) : StringTokenizer :=
  set_token (token_begin_ t) 0 (token_is_delim_ t) t.
Definition token (t : StringTokenizer) : str :=
  take (token_end_ t - token_begin_ t) (drop (token_begin_ t) (string_ t)).
(** The characters from [token_end_] to [end_]. *)
Definition rest (t : StringTokenizer) : str := drop (token_end_ t) (string_ t).

Definition IsDelim (t : StringTokenizer) (c : ascii) : bool := mem c (delims_ t).
Definition IsQuote (t : StringTokenizer) (c : ascii) : bool := mem c (quotes_ t).
Definition has_option (t : StringTokenizer) (o : Z) : bool := negb (Z.land (options_ t) o =? 0).

(** ** [QuickGetNext] *)

(** The first loop, from [token_end_] at offset [e]: where the token starts, if anywhere. *)
Fixpoint skip_delims (t : StringTokenizer) (l : str) (e : nat) : option (nat * str) :=
  match l with
  | [] => None
  | c :: l => if negb (IsDelim t c) then Some (e, l) else skip_delims t l (S e)
  end.
Definition QuickGetNext (t : StringTokenizer) : bool * StringTokenizer :=
  match skip_delims t (rest t) (token_end_ t) with
  | None => (false, set_token (length (string_ t)) (length (string_ t)) true t)
  | Some (b, l) =>
      let '(more, _) := span (fun c => negb (IsDelim t c)) l in (true, set_token b (S b + length more) false t)
  end.

(** ** [FullGetNext] *)
Record AdvanceState := mkAdvance { in_quote : bool; in_escape : bool; quote_char : ascii }.
Definition AdvanceState_new : AdvanceState := {| in_quote := false; in_escape := false; quote_char := "000"%char |}.

(** Whether a delimiter was not hit, and the state. *)
Definition AdvanceOne (t : StringTokenizer) (state : AdvanceState) (c : ascii) : bool * AdvanceState :=
  if in_quote state then
    if in_escape state then (true, mkAdvance true false (quote_char state))
    else if bool_decide (c = "\"%char) then (true, mkAdvance true true (quote_char state))
    else if bool_decide (c = quote_char state) then (true, mkAdvance false (in_escape state) (quote_char state))
    else (true, state)
  else if IsDelim t c then (false, state)
  else (true, mkAdvance (IsQuote t c) (in_escape state) c).

(** [while (token_end_ != end_ && AdvanceOne(&state, *token_end_)) ++token_end_]: the
    characters taken, and the state. *)
Fixpoint slurp (t : StringTokenizer) (state : AdvanceState) (l : str) : nat * AdvanceState :=
  match l with
  | [] => (0%nat, state)
  | c :: l => let '(go, state') := AdvanceOne t state c in
              if go then let '(n, s) := slurp t state' l in (S n, s) else (0%nat, state')
  end.

(** The two halves of an iteration: after a delimiter the next token is a regular one, which
    is returned if it is not empty or empty tokens were asked for; after a regular token
    comes a delimiter or the end. *)
Definition Full_token (t : StringTokenizer) (state : AdvanceState) : bool * StringTokenizer * AdvanceState :=
  let '(n, state) := slurp t state (rest t) in
  let t := set_token (token_end_ t) (token_end_ t + n) false t in
  (negb (bool_decide (token_begin_ t = token_end_ t)) || has_option t RETURN_EMPTY_TOKENS, t, state).
Definition Full_delim (t : StringTokenizer) : option bool * StringTokenizer :=
  let t := set_token (token_end_ t) (token_end_ t) true t in
  if bool_decide (token_end_ t = length (string_ t)) then (Some false, t)
  else
    let t := set_token (token_begin_ t) (S (token_end_ t)) true t in
    (if has_option t RETURN_DELIMS then Some true else None, t).
(** One iteration of the loop: the value returned, if it returns. *)
Definition Full_step (t : StringTokenizer) (state : AdvanceState) : option bool * StringTokenizer * AdvanceState :=
  if token_is_delim_ t then
    let '(found, t, state) := Full_token t state in
    if found : bool then (Some true, t, state) else (Full_delim t, state)
  else (Full_delim t, state).
Fixpoint Full_loop (fuel : nat) (t : StringTokenizer) (state : AdvanceState) : option (bool * StringTokenizer) :=
  match fuel with
  | 0%nat => None
  | S fuel =>
      let '(r, t, state) := Full_step t state in
      match r with Some b => Some (b, t) | None => Full_loop fuel t state end
  end.
(** Every iteration but the last takes a delimiter. *)
Definition FullGetNext (t : StringTokenizer) : option (bool * StringTokenizer) :=
  Full_loop (S (length (rest t))) t AdvanceState_new.

Definition GetNext (t : StringTokenizer) : option (bool * StringTokenizer) :=
  if bool_decide (quotes_ t = []) && (options_ t =? 0) then Some (QuickGetNext t) else FullGetNext t.

(** The loop [while (t.GetNext())] of the examples: the tokens, each with
    [token_is_delim()]. *)
Fixpoint all_tokens (fuel : nat) (t : StringTokenizer) : option (list (bool * str)) :=
  match fuel with
  | 0%nat => None
  | S fuel =>
      '(more, t) ← GetNext t;
      if more : bool then l ← all_tokens fuel t; Some ((token_is_delim_ t, token t) :: l) else Some []
  end.
Definition tokens (t : StringTokenizer) : option (list (bool * str)) := all_tokens (S (S (2 * length (rest t)))) t.

(** ** The fields of a string *)

(** The fields as the automaton of the quotes cuts them; every field comes with the delimiter
    that ends it. *)
Fixpoint fields (t : StringTokenizer) (state : AdvanceState) (l : str) : list (str * option ascii) :=
  match l with
  | [] => [([], None)]
  | c :: l =>
      let '(go, state') := AdvanceOne t state c in
      if go then match fields t state' l with
                 | (f, d) :: r => (c :: f, d) :: r
                 | [] => []
                 end
      else ([], Some c) :: fields t AdvanceState_new l
  end.

(** What the options show of a field. *)
Definition field_token (t : StringTokenizer) (f : str) : list (bool * str) :=
  if negb (bool_decide (f = [])) || has_option t RETURN_EMPTY_TOKENS then [(false, f)] else [].
Definition delim_token (t : StringTokenizer) (d : option ascii) : list (bool * str) :=
  match d with Some c => if has_option t RETURN_DELIMS then [(true, [c])] else [] | None => [] end.
Definition shown (t : StringTokenizer) (fd : str * option ascii) : list (bool * str) :=
  field_token t fd.1 ++ delim_token t fd.2.

(** ** Laws *)

(** Between tokens the automaton of the quotes is at rest. *)
Definition outside (st : AdvanceState) : Prop := in_quote st = false /\ in_escape st = false.
Definition sane (st : AdvanceState) : Prop := in_escape st = true -> in_quote st = true.

Lemma AdvanceOne_sane t st c : sane st -> sane (AdvanceOne t st c).2.
Proof.
  destruct st as [q e k]. unfold sane, AdvanceOne. cbn. intros H. destruct q; cbn.
  - destruct e; [done|]. repeat case_bool_decide; done.
  - destruct (IsDelim t c); [done|]. cbn. intros ->. by specialize (H eq_refl).
Qed.

(** A delimiter is only hit outside quotes. *)
Lemma AdvanceOne_stops t st c : sane st -> (AdvanceOne t st c).1 = false -> outside (AdvanceOne t st c).2.
Proof.
  destruct st as [q e k]. unfold sane, outside, AdvanceOne. cbn. intros H. destruct q; cbn.
  - destruct e; [done|]. repeat case_bool_decide; done.
  - destruct (IsDelim t c); [|done]. intros _. cbn. split; [done|]. destruct e; [by specialize (H eq_refl)|done].
Qed.

(** Outside quotes the remembered quote character does not matter. *)
Lemma fields_outside t st l : outside st -> fields t st l = fields t AdvanceState_new l.
Proof.
  destruct st as [q e k]. intros [Hq He]. cbn in *. subst. destruct l as [|c l]; [done|].
  cbn [fields]. unfold AdvanceOne. cbn. by destruct (IsDelim t c).
Qed.

Lemma fields_set_token b e d t st l : fields (set_token b e d t) st l = fields t st l.
Proof.
  revert st. induction l as [|c l IH]; intros st; [done|]. cbn [fields].
  change (AdvanceOne (set_token b e d t) st c) with (AdvanceOne t st c). destruct (AdvanceOne t st c) as [go st'].
  destruct go; by rewrite IH.
Qed.

(** The loop takes the first field, and stops at the delimiter that ends it. *)
Lemma slurp_fields t st l : sane st ->
  let '(n, st') := slurp t st l in
  (n <= length l)%nat /\
  fields t st l = match drop n l with
                  | [] => [(take n l, None)]
                  | c :: l' => (take n l, Some c) :: fields t AdvanceState_new l'
                  end /\
  (drop n l <> [] -> outside st').
Proof.
  revert st. induction l as [|c l IH]; intros st Hs; cbn [slurp fields]; [done|].
  pose proof (AdvanceOne_sane t st c Hs) as Hs'. pose proof (AdvanceOne_stops t st c Hs) as Ho.
  destruct (AdvanceOne t st c) as [go st']. cbn in Hs', Ho. destruct go.
  - specialize (IH st' Hs'). destruct (slurp t st' l) as [n st'']. destruct IH as (Hn & -> & Hd).
    cbn [take drop length]. split_and!; [lia| |done]. by destruct (drop n l).
  - cbn. split_and!; [lia|done|auto].
Qed.

(** What is still to be returned. *)
Definition pending (t : StringTokenizer) : list (bool * str) :=
  if token_is_delim_ t then fields t AdvanceState_new (rest t) ≫= shown t
  else match rest t with
       | [] => []
       | c :: l => delim_token t (Some c) ++ (fields t AdvanceState_new l ≫= shown t)
       end.
Definition config (t : StringTokenizer) : str * str * str * Z := (string_ t, delims_ t, quotes_ t, options_ t).
Definition within (t : StringTokenizer) : Prop := (token_end_ t <= length (string_ t))%nat.
Definition measure (t : StringTokenizer) : nat := 2 * length (rest t) + if token_is_delim_ t then 1 else 0.

Lemma rest_nil t : within t -> rest t = [] <-> token_end_ t = length (string_ t).
Proof.
  unfold within, rest. intros H. split.
  - intros E. apply (f_equal length) in E. rewrite length_drop in E. cbn in E. lia.
  - intros ->. by rewrite drop_all.
Qed.

(** Taking the delimiter after a regular token, the second half of an iteration. *)
Lemma take_delim t c l : within t -> rest t = c :: l ->
  let t' := set_token (token_end_ t) (S (token_end_ t)) true t in
  within t' /\ rest t' = l /\ token t' = [c].
Proof.
  intros Hw Hr. unfold within, rest, token in *. cbn. assert (token_end_ t < length (string_ t))%nat as Hlt.
  { apply (f_equal length) in Hr. rewrite length_drop in Hr. cbn in Hr. lia. }
  split_and!; [lia|by rewrite <- Nat.add_1_r, <- drop_drop, Hr|].
  replace (S (token_end_ t) - token_end_ t)%nat with 1%nat by lia. by rewrite Hr.
Qed.

Definition advanced (t : StringTokenizer) (b : bool) (t' : StringTokenizer) : Prop :=
  within t' /\ config t' = config t /\
  (if b then pending t = (token_is_delim_ t', token t') :: pending t' /\ (measure t' < measure t)%nat
   else pending t = [] /\ token_is_delim_ t' = true).

Lemma pending_set_token b e d t : pending (set_token b e d t) =
  (if d then fields t AdvanceState_new (drop e (string_ t)) ≫= shown t
   else match drop e (string_ t) with
        | [] => []
        | c :: l => delim_token t (Some c) ++ (fields t AdvanceState_new l ≫= shown t)
        end).
Proof.
  unfold pending, rest. cbn [token_is_delim_ set_token token_end_ string_]. rewrite fields_set_token.
  destruct d; [done|]. destruct (drop e (string_ t)); [done|]. by rewrite fields_set_token.
Qed.

(** The second half of an iteration. *)
Lemma delim_half t : within t -> token_is_delim_ t = false ->
  match rest t with
  | [] => advanced t false (set_token (token_end_ t) (token_end_ t) true t)
  | c :: l =>
      let t' := set_token (token_end_ t) (S (token_end_ t)) true t in
      within t' /\ rest t' = l /\
      (if has_option t RETURN_DELIMS then advanced t true t' else pending t = pending t')
  end.
Proof.
  intros Hw Hd. destruct (rest t) as [|c l] eqn:Hr.
  - unfold advanced. split_and!; [done|done|unfold pending; by rewrite Hd, Hr|done].
  - destruct (take_delim t c l Hw Hr) as (Hw' & Hr' & Ht'). cbn zeta. split_and!; [done..|].
    assert (pending t = delim_token t (Some c) ++ pending (set_token (token_end_ t) (S (token_end_ t)) true t)) as Ep.
    { rewrite pending_set_token. unfold rest in Hr'. cbn in Hr'. unfold pending. rewrite Hd, Hr, Hr'. done. }
    unfold delim_token in Ep. destruct (has_option t RETURN_DELIMS); [|done]. unfold advanced. split_and!; [done..| |].
    + rewrite Ep, Ht'. done.
    + unfold measure. rewrite Hr', Hr, Hd. cbn. lia.
Qed.

Lemma advanced_skip t1 t b t' : pending t = pending t1 -> config t1 = config t -> (measure t1 <= measure t)%nat ->
  advanced t1 b t' -> advanced t b t'.
Proof. intros Ep Ec Hm (Hw & Hc & Hb). unfold advanced. rewrite Ep, <- Ec. split_and!; [done..|]. destruct b; intuition lia. Qed.

Lemma Full_delim_spec fuel t st :
  (forall t st, within t -> outside st -> (length (rest t) < fuel)%nat ->
     exists b t', Full_loop fuel t st = Some (b, t') /\ advanced t b t') ->
  within t -> token_is_delim_ t = false -> (rest t <> [] -> outside st) -> (length (rest t) <= fuel)%nat ->
  exists b t', (let '(r, t, state) := (Full_delim t, st) in
                match r with Some b => Some (b, t) | None => Full_loop fuel t state end) = Some (b, t') /\ advanced t b t'.
Proof.
  intros IH Hw Hd Ho Hf. pose proof (delim_half t Hw Hd) as H. pose proof (rest_nil t Hw) as Hnil. unfold Full_delim.
  cbn [set_token token_end_ string_ token_begin_]. destruct (rest t) as [|c l] eqn:Hr.
  - rewrite bool_decide_eq_true_2 by (by apply Hnil). eauto.
  - rewrite bool_decide_eq_false_2 by (intros E; by apply Hnil in E).
    destruct H as (Hw' & Hr' & Hb).
    change (has_option (set_token _ _ _ _) RETURN_DELIMS) with (has_option t RETURN_DELIMS).
    change (set_token (token_end_ t) (S (token_end_ t)) true (set_token (token_end_ t) (token_end_ t) true t))
      with (set_token (token_end_ t) (S (token_end_ t)) true t).
    destruct (has_option t RETURN_DELIMS); [eauto|].
    destruct (IH (set_token (token_end_ t) (S (token_end_ t)) true t) st) as (b & t' & E & Ha);
      [done|by apply Ho|rewrite Hr'; cbn in Hf; lia|].
    exists b, t'. split; [exact E|]. eapply advanced_skip; [exact Hb|done| |exact Ha].
    unfold measure. rewrite Hr', Hr. cbn. destruct (token_is_delim_ t); lia.
Qed.

(** The regular token is the first field. *)
Lemma Full_token_spec t st : within t -> outside st -> token_is_delim_ t = true ->
  let '(found, t1, st1) := Full_token t st in
  within t1 /\ config t1 = config t /\ token_is_delim_ t1 = false /\ (rest t1 <> [] -> outside st1) /\
  (length (rest t1) <= length (rest t))%nat /\ (measure t1 < measure t)%nat /\
  pending t = (if found then [(false, token t1)] else []) ++ pending t1.
Proof.
  intros Hw Ho Hd. pose proof (slurp_fields t st (rest t)) as H. unfold Full_token.
  destruct (slurp t st (rest t)) as [n st1]. destruct H as (Hn & Hf & Hst); [intros E; destruct Ho; congruence|].
  assert (rest (set_token (token_end_ t) (token_end_ t + n) false t) = drop n (rest t)) as Hr1
    by (unfold rest; cbn; by rewrite drop_drop).
  assert (length (rest t) = length (string_ t) - token_end_ t)%nat as Hl by (unfold rest; by rewrite length_drop).
  split_and!; [unfold within in *; cbn; lia|done|done|by rewrite Hr1|rewrite Hr1, length_drop; lia|..].
  - unfold measure. rewrite Hr1, length_drop, Hd. cbn [token_is_delim_ set_token]. lia.
  - assert (token (set_token (token_end_ t) (token_end_ t + n) false t) = take n (rest t)) as ->.
    { unfold token, rest. cbn. f_equal. lia. }
    cbn [token_begin_ token_end_ set_token].
    assert (pending t = field_token t (take n (rest t)) ++ pending (set_token (token_end_ t) (token_end_ t + n) false t)) as ->.
    { rewrite pending_set_token, <- drop_drop. fold (rest t). unfold pending. rewrite Hd, <- (fields_outside t st) by done.
      rewrite Hf. destruct (drop n (rest t)) as [|c l]; cbn; unfold shown; cbn; by rewrite ?app_nil_r, ?app_assoc. }
    f_equal. unfold field_token.
    change (has_option (set_token _ _ _ _) RETURN_EMPTY_TOKENS) with (has_option t RETURN_EMPTY_TOKENS).
    rewrite (bool_decide_ext (take n (rest t) = []) (token_end_ t = token_end_ t + n)%nat); [done|].
    split; [|intros E; by replace n with 0%nat by lia].
    intros E. apply (f_equal length) in E. rewrite length_take in E. cbn in E. lia.
Qed.

Lemma Full_loop_spec fuel t st : within t -> outside st -> (length (rest t) < fuel)%nat ->
  exists b t', Full_loop fuel t st = Some (b, t') /\ advanced t b t'.
Proof.
  revert t st. induction fuel as [|fuel IH]; intros t st Hw Ho Hf; [lia|]. cbn [Full_loop]. unfold Full_step.
  destruct (token_is_delim_ t) eqn:Hd; [|apply (Full_delim_spec fuel t st IH); [done..|lia]].
  pose proof (Full_token_spec t st Hw Ho Hd) as H. destruct (Full_token t st) as [[found t1] st1].
  destruct H as (Hw1 & Hc & Hd1 & Ho1 & Hl & Hm & Hp). destruct found.
  - exists true, t1. split; [done|]. unfold advanced. rewrite Hd1. done.
  - destruct (Full_delim_spec fuel t1 st1 IH Hw1 Hd1 Ho1 ltac:(lia)) as (b & t' & E & Ha).
    exists b, t'. split; [exact E|]. eapply advanced_skip; [exact Hp|done|lia|done].
Qed.

(** ** The fast path *)
Definition plain (t : StringTokenizer) : Prop := quotes_ t = [] /\ options_ t = 0.
Definition words (t : StringTokenizer) (l : str) : list (bool * str) := fields t AdvanceState_new l ≫= shown t.

Lemma fields_plain t l : quotes_ t = [] ->
  fields t AdvanceState_new l =
    let '(a, b) := span (fun c => negb (IsDelim t c)) l in
    match b with [] => [(a, None)] | d :: b => (a, Some d) :: fields t AdvanceState_new b end.
Proof.
  intros Hq. induction l as [|c l IH]; [done|]. cbn [fields span]. unfold AdvanceOne. cbn [in_quote AdvanceState_new].
  destruct (IsDelim t c); cbn [negb]; [done|]. rewrite fields_outside by (unfold outside, IsQuote; cbn; by rewrite Hq).
  rewrite IH. destruct (span _ l) as [a b]. by destruct b.
Qed.

Lemma plain_options t : plain t -> forall o, has_option t o = false.
Proof. intros [_ Ho] o. unfold has_option. by rewrite Ho, Z.land_0_l. Qed.

Lemma words_delim t c l : plain t -> IsDelim t c = true -> words t (c :: l) = words t l.
Proof.
  intros Hp Hc. unfold words. cbn [fields]. unfold AdvanceOne at 1. cbn [in_quote AdvanceState_new]. rewrite Hc. cbn.
  unfold shown at 1, field_token, delim_token. cbn. by rewrite !(plain_options t Hp).
Qed.

Lemma skip_delims_spec t l e : plain t ->
  match skip_delims t l e with
  | None => words t l = []
  | Some (b, l') => exists k c, b = (e + k)%nat /\ drop k l = c :: l' /\ IsDelim t c = false /\ words t l = words t (c :: l')
  end.
Proof.
  intros Hp. revert e. induction l as [|c l IH]; intros e; cbn [skip_delims].
  - unfold words. cbn. unfold shown, field_token. cbn. by rewrite !(plain_options t Hp).
  - destruct (IsDelim t c) eqn:Hc; cbn [negb].
    + specialize (IH (S e)). rewrite words_delim by done. destruct (skip_delims t l (S e)) as [[b l']|]; [|done].
      destruct IH as (k & d & -> & ? & ? & ?). exists (S k), d. split_and!; [lia|done..].
    + exists 0%nat, c. split_and!; [lia|done..].
Qed.

Lemma words_set_token b e d t l : words (set_token b e d t) l = words t l.
Proof. unfold words. by rewrite fields_set_token. Qed.

Lemma QuickGetNext_spec t : plain t -> within t ->
  let '(b, t') := QuickGetNext t in
  within t' /\ config t' = config t /\
  (if b then words t (rest t) = (token_is_delim_ t', token t') :: words t' (rest t') /\ (length (rest t') < length (rest t))%nat
   else words t (rest t) = []).
Proof.
  intros Hp Hw. unfold QuickGetNext. pose proof (skip_delims_spec t (rest t) (token_end_ t) Hp) as H.
  destruct (skip_delims t (rest t) (token_end_ t)) as [[b l']|]; [|split_and!; [by unfold within|done|done]].
  destruct H as (k & c & -> & Hk & Hc & ->).
  destruct (span (fun c => negb (IsDelim t c)) l') as [more b'] eqn:Hs.
  pose proof (span_eq _ _ _ _ Hs) as El. pose proof (span_stops _ _ _ _ Hs) as Hst.
  assert (drop (token_end_ t + k) (string_ t) = c :: l') as Hd by (rewrite <- drop_drop; exact Hk).
  assert (length (rest t) = k + S (length l'))%nat as Hlen.
  { assert (k < length (rest t))%nat by (destruct (decide (k < length (rest t))%nat); [done|]; rewrite drop_ge in Hk by lia; done).
    apply (f_equal length) in Hk. rewrite length_drop in Hk. cbn in Hk. lia. }
  assert (length (rest t) = length (string_ t) - token_end_ t)%nat as Hlr by (unfold rest; by rewrite length_drop).
  assert (rest (set_token (token_end_ t + k) (S (token_end_ t + k) + length more) false t) = b') as Hr'.
  { unfold rest. cbn. replace (S (token_end_ t + k + length more)) with ((token_end_ t + k) + S (length more))%nat by lia.
    rewrite <- drop_drop, Hd. cbn. subst l'. by rewrite drop_app_length. }
  split_and!; [unfold within in *; cbn; subst l'; rewrite length_app in *; lia|done| |].
  - rewrite Hr', words_set_token. cbn [token_is_delim_ set_token].
    assert (token (set_token (token_end_ t + k) (S (token_end_ t + k) + length more) false t) = c :: more) as ->.
    { unfold token. cbn. rewrite Hd. replace (S _ - _)%nat with (S (length more)) by lia. cbn. subst l'. by rewrite take_app_length. }
    unfold words at 1. rewrite fields_plain by apply Hp. cbn [span]. rewrite Hc, Hs. cbn [negb].
    assert (forall d, shown t (c :: more, d) = [(false, c :: more)]) as Hsh.
    { intros d. unfold shown, field_token, delim_token. cbn. destruct d; by rewrite ?(plain_options t Hp). }
    destruct b' as [|d b']; rewrite bind_cons, Hsh; cbn [app]; f_equal.
    + unfold words. cbn. unfold shown, field_token. cbn. by rewrite !(plain_options t Hp).
    + symmetry. apply words_delim; [done|]. cbn in Hst. destruct (IsDelim t d); [done|by cbn in Hst].
  - rewrite Hr', Hlen. subst l'. rewrite length_app. lia.
Qed.

(** ** Iteration *)
Lemma all_tokens_full fuel t : within t -> ~ plain t -> (measure t < fuel)%nat -> all_tokens fuel t = Some (pending t).
Proof.
  revert t. induction fuel as [|fuel IH]; intros t Hw Hp Hf; [lia|]. cbn [all_tokens]. unfold GetNext.
  replace (bool_decide (quotes_ t = []) && (options_ t =? 0)) with false.
  2: { symmetry. apply andb_false_iff. destruct (decide (quotes_ t = [])); [right|left; by apply bool_decide_eq_false_2].
       apply Z.eqb_neq. intros E. by apply Hp. }
  destruct (Full_loop_spec (S (length (rest t))) t AdvanceState_new Hw) as (b & t' & E & Ha); [done|lia|].
  unfold FullGetNext. rewrite E. cbn [mbind option_bind]. destruct Ha as (Hw' & Hc & Hb). destruct b.
  - destruct Hb as [-> Hm]. rewrite IH; [done|done| |lia]. injection Hc as E1 E2 E3 E4. unfold plain. by rewrite E3, E4.
  - by destruct Hb as [-> _].
Qed.

Lemma all_tokens_quick fuel t : within t -> plain t -> (length (rest t) < fuel)%nat -> all_tokens fuel t = Some (words t (rest t)).
Proof.
  revert t. induction fuel as [|fuel IH]; intros t Hw Hp Hf; [lia|]. cbn [all_tokens]. unfold GetNext.
  destruct Hp as [Hq Ho]. rewrite bool_decide_eq_true_2, (proj2 (Z.eqb_eq _ 0) Ho) by done. cbn [andb].
  pose proof (QuickGetNext_spec t (conj Hq Ho) Hw) as H. destruct (QuickGetNext t) as [b t']. cbn [mbind option_bind].
  destruct H as (Hw' & Hc & Hb). destruct b; [|by rewrite Hb].
  destruct Hb as [-> Hm]. injection Hc as E1 E2 E3 E4. rewrite IH; [done|done| |lia]. unfold plain. by rewrite E3, E4.
Qed.

Lemma tokens_fields s delims quotes options :
  let t := set_options options (set_quote_chars quotes (StringTokenizer_new s delims)) in
  tokens t = Some (fields t AdvanceState_new s ≫= shown t).
Proof.
  intros t. assert (rest t = s) as Hr by done. assert (within t) as Hw by (unfold within; cbn; lia). unfold tokens.
  destruct (decide (quotes = [] /\ options = 0)) as [Hp|Hp].
  - rewrite all_tokens_quick by (done || lia). by rewrite Hr.
  - rewrite all_tokens_full; [|done|done|unfold measure; cbn [token_is_delim_ t set_options set_quote_chars StringTokenizer_new]; lia].
    unfold pending. by rewrite Hr.
Qed.

(** *** The reference *)

(** The text put in front of the first field. *)
Definition extend (p : str) (fs : list (str * option ascii)) : list (str * option ascii) :=
  match fs with [] => [] | (f, d) :: r => (p ++ f, d) :: r end.

(** The fields of a string, each with the delimiter that ends it.  Outside quotes a delimiter
    ends the field, and a quote character opens a quotation; inside, a backslash takes the
    next character with it, whatever it is, and the same quote character closes it. *)
Fixpoint split_fields (delims quotes : str) (quotation : option ascii) (l : str) : list (str * option ascii) :=
  match l with
  | [] => [([], None)]
  | c :: l =>
      match quotation with
      | None =>
          if decide (c ∈ delims) then ([], Some c) :: split_fields delims quotes None l
          else extend [c] (split_fields delims quotes (if decide (c ∈ quotes) then Some c else None) l)
      | Some q =>
          if decide (c = "\"%char) then
            match l with
            | [] => [([c], None)]
            | d :: l => extend [c; d] (split_fields delims quotes (Some q) l)
            end
          else extend [c] (split_fields delims quotes (if decide (c = q) then None else Some q) l)
      end
  end.

Lemma fields_split t l :
  (forall q k, fields t (mkAdvance q false k) l = split_fields (delims_ t) (quotes_ t) (if q : bool then Some k else None) l) /\
  (forall k, fields t (mkAdvance true true k) l =
     match l with [] => [([], None)] | d :: l => extend [d] (split_fields (delims_ t) (quotes_ t) (Some k) l) end).
Proof.
  induction l as [|c l [IH1 IH2]]; [done|]. cbn [fields]. split.
  - intros q k. unfold AdvanceOne. cbn [in_quote in_escape quote_char]. destruct q.
    + cbn [split_fields]. case_bool_decide as Hc.
      * rewrite IH2, decide_True by done. destruct l as [|d l]; [done|].
        by destruct (split_fields (delims_ t) (quotes_ t) (Some k) l) as [|[f e] r].
      * rewrite decide_False by done. case_bool_decide as Hk.
        -- rewrite (IH1 false k), decide_True by done. by destruct (split_fields _ _ None l) as [|[f e] r].
        -- rewrite (IH1 true k), decide_False by done. by destruct (split_fields _ _ (Some k) l) as [|[f e] r].
    + cbn [split_fields]. unfold IsDelim, mem. case_bool_decide as Hc.
      * rewrite decide_True by done. exact (f_equal (cons ([], Some c)) (IH1 false "000"%char)).
      * rewrite decide_False by done. rewrite IH1. unfold IsQuote, mem. case_bool_decide as Hq.
        -- rewrite decide_True by done. by destruct (split_fields _ _ (Some c) l) as [|[f e] r].
        -- rewrite decide_False by done. by destruct (split_fields _ _ None l) as [|[f e] r].
  - intros k. cbn [AdvanceOne in_quote in_escape quote_char]. rewrite (IH1 true k).
    by destruct (split_fields (delims_ t) (quotes_ t) (Some k) l) as [|[f e] r].
Qed.

Lemma land_bit o k : 0 <= k -> negb (Z.land o (Z.shiftl 1 k) =? 0) = Z.testbit o k.
Proof.
  intros Hk. destruct (Z.testbit o k) eqn:E.
  - apply negb_true_iff, Z.eqb_neq. intros H. apply (f_equal (fun z => Z.testbit z k)) in H.
    rewrite Z.land_spec, E, Z.shiftl_spec, Z.sub_diag, Z.bits_0 in H by done. done.
  - apply negb_false_iff, Z.eqb_eq, Z.bits_inj'. intros n Hn. rewrite Z.land_spec, Z.shiftl_spec, Z.bits_0 by done.
    destruct (decide (n = k)) as [->|Hne]; [by rewrite E|].
    assert (Z.testbit 1 (n - k) = false) as ->; [|apply andb_false_r].
    destruct (decide (n < k)); [apply Z.testbit_neg_r; lia|apply Z.bits_above_log2; cbn; lia].
Qed.

(** C34: iterating a tokenizer over a string terminates and returns exactly the fields of the
    string, in order, cut at the delimiters that are outside quotations (a quotation goes
    from a quote character to the same one again, a backslash inside it hiding the character
    that follows); an empty field is returned only with option bit 1, and each delimiter
    behind its field only with option bit 0.  The fast path for plain delimiters returns the
    same tokens as the full one. *)
Theorem tokens_exact s delims quotes options :
  tokens (set_options options (set_quote_chars quotes (StringTokenizer_new s delims))) =
  Some (split_fields delims quotes None s ≫= fun fd =>
    (if bool_decide (fd.1 = []) && negb (Z.testbit options 1) then [] else [(false, fd.1)]) ++
    (match fd.2 with Some c => if Z.testbit options 0 then [(true, [c])] else [] | None => [] end)).
Proof.
  rewrite tokens_fields. set (t := set_options _ _). f_equal.
  change AdvanceState_new with (mkAdvance false false "000"%char). rewrite (proj1 (fields_split t s)). apply list_bind_ext; [|done]. intros [f d].
  unfold shown, field_token, delim_token, has_option, RETURN_EMPTY_TOKENS, RETURN_DELIMS. cbn [fst snd].
  rewrite !land_bit by done. f_equal. cbn [options_ t set_options]. by case_bool_decide; destruct (Z.testbit options 1).
Qed.

(** The fields and their delimiters make up the string. *)
Definition field_text (fd : str * option ascii) : str := fd.1 ++ match fd.2 with Some d => [d] | None => [] end.
Lemma fields_text t st l : concat (field_text <$> fields t st l) = l /\ fields t st l <> [].
Proof.
  revert st. induction l as [|c l IH]; intros st; [done|]. cbn [fields]. destruct (AdvanceOne t st c) as [go st']. destruct go.
  - destruct (IH st') as [E Hn]. destruct (fields t st' l) as [|[f d] r]; [done|]. split; [|done].
    cbn in *. unfold field_text in *. cbn in *. by rewrite E.
  - destruct (IH AdvanceState_new) as [E _]. split; [|done]. cbn. by rewrite E.
Qed.

(** With the option to return delimiters no character is lost: the tokens, delimiters
    included, concatenate to the string, whatever the quotes and the other options. *)
Theorem tokens_roundtrip s delims quotes options :
  let t := set_options options (set_quote_chars quotes (StringTokenizer_new s delims)) in
  has_option t RETURN_DELIMS = true -> exists l, tokens t = Some l /\ concat (snd <$> l) = s.
Proof.
  intros t Hd. eexists. split; [apply tokens_fields|]. fold t.
  rewrite <- (proj1 (fields_text t AdvanceState_new s)) at 2. induction (fields t AdvanceState_new s) as [|[f d] r IH]; [done|].
  cbn [mbind list_bind fmap list_fmap concat]. rewrite fmap_app, concat_app, IH. f_equal. unfold shown, field_text, field_token.
  cbn [fst snd]. unfold delim_token. rewrite Hd.
  destruct (decide (f = [])) as [->|Hf]; [|rewrite bool_decide_eq_false_2 by done]; cbn.
  - destruct (has_option t RETURN_EMPTY_TOKENS), d; done.
  - destruct d; cbn; by rewrite ?app_nil_r.
Qed.

(** [Reset] leaves [token_is_delim_], so that after a regular token the full path takes the
    first character of the string for a delimiter. *)
Lemma Reset_skips :
  let t := set_options RETURN_EMPTY_TOKENS (StringTokenizer_new (lit "abc") (lit ",")) in
  tokens t = Some [(false, lit "abc")] /\
  exists t', GetNext t = Some (true, t') /\ token t' = lit "abc" /\ tokens (Reset t') = Some [(false, lit "bc")].
Proof. split; [by vm_compute|]. eexists. split_and!; by vm_compute. Qed.

(** On the fast path the flag does not matter, and [Reset] starts again. *)
Lemma Reset_quick t : plain t -> tokens (Reset t) = tokens (StringTokenizer_new (string_ t) (delims_ t)).
Proof.
  destruct t as [s b e d q o i]. intros [Hq Ho]. cbn in Hq, Ho. subst. cbn [string_ delims_].
  change (Reset _) with (set_token b 0 i (StringTokenizer_new s d)). set (t := StringTokenizer_new s d).
  assert (within t /\ within (set_token b 0 i t)) as [H1 H2] by (unfold within; cbn; lia). assert (plain t) as Hp by done.
  assert (plain (set_token b 0 i t)) as Hp' by done. unfold tokens.
  rewrite (all_tokens_quick _ t), (all_tokens_quick _ (set_token b 0 i t)) by (done || lia). by rewrite words_set_token.
Qed.

Lemma tokens_roundtrip_witness :
  exists l, tokens (set_options RETURN_DELIMS (set_quote_chars [] (StringTokenizer_new (lit "a,,b") (lit ",")))) = Some l /\
    concat (snd <$> l) = lit "a,,b".
Proof. apply (tokens_roundtrip (lit "a,,b") (lit ",") [] RETURN_DELIMS). reflexivity. Defined.
